(* ===== verification/_CoqProject ===== *)
-Q . S2P
Prelude.v
Bytes.v
Database.v
Core.v
Epoch.v
Bindings.v
Alloy.v
Merkle.v
Group.v
Hashing.v
FrostLib.v
Frost.v
FrostKeygen.v
FrostSign.v
FROSTCoordinator.v
CoordinatorInvariant.v
State.v
NonceStream.v
Secrets.v
Effects.v
StateMachine.v
TxQueue.v
Encoder.v
Provider.v
Blocks.v
BlocksInvariant.v
BlocksFollow.v
Events.v
EventsFetch.v
EventsWarp.v
Watcher.v
Driver.v
Indexing.v
IndexSafety.v
Process.v
InStep.v
SentinelBindings.v
Sentinel.v
SentinelSafety.v
OracleContract.v
OracleInvariant.v
OracleTreasury.v
SentinelGame.v
GameSafety.v
EngineBindings.v
MultiSend.v
TargetEffects.v
Checkers.v
Poisoning.v
Cow.v
SentinelEngine.v
EngineSafety.v
EngineVotes.v
Preprocessing.v
Signing.v
KeyGen.v
Complaints.v
Machine.v
Frames.v
RolloverInvariant.v
Service.v
Lifecycle.v
KeyGenSafety.v
EpochInvariant.v
SessionInvariant.v
IndexInvariant.v
Safety.v
NonceBooks.v
CoordinatorGame.v
KeyGenGame.v
Housekeeping.v
Toy.v
Scenario.v
ServiceWitnesses.v
IndexWitnesses.v
SentinelWitnesses.v
ProcessWitnesses.v
CoordinatorWitnesses.v
EngineWitnesses.v
Witnesses.v
