(* ===== verification/Prelude.v ===== *)
(** * Safenet

    A model of the Rust services of the Safenet network and of the properties
    that make them correct. The repository has three programs: the validator
    ([crates/validator]), which generates threshold keys with the other
    validators of an epoch, signs Safe transactions with them by FROST and
    rolls epochs over; the sentinel ([crates/sentinel]), which votes on
    proposed transactions by commit and reveal at an oracle contract; and the
    sentinel engine ([crates/sentinel-engine]), which decides how to vote. The
    first two are services over one core ([crates/core]): an indexer follows
    the chain and produces updates, a reorg-aware state machine folds the
    updates with the service's pure transition and keeps snapshots, the
    commands of the transition become queued transactions and background
    effects, and the results of the effects resume the transition.

    ** The files

    Foundations. [Prelude] has machine integers, results, sorted maps and the
    input/output monad [io S A E], a state passed on through failure; [Bytes]
    byte strings and big-endian words; [Database] SQLite tables whose
    statements may fail; [Core] the types the core shares with a service.

    Third-party code is a type class of parameters: [Alloy] (Keccak-256, ABI
    and EIP-712 encoding), [AlloyBloom] in [Events] (log filters), [FrostLib]
    (the curve, FROST and random numbers), [SecretsJson] and [StateJson]
    (serde), [SentinelLibs] in [SentinelBindings] (encoding, HKDF), [Visit] in
    [Sentinel] (the order of a hash map) and [CoordinatorLibs] in
    [FROSTCoordinator] (OpenZeppelin's proofs, the curve checks). A theorem that needs documented
    behaviour of them has it as a hypothesis or a law of the class; [Toy] has
    concrete instances of each, and the witnesses are evaluated at them.

    The core. [Provider], [Blocks], [Events] and [Watcher] are
    [core/src/index] with [BlockWatcher::next], [EventWatcher::next] and
    [Watcher::next]; a run of the indexer takes the replies of the node from a
    list, in order, and stands still where the list ends, since the driver
    drops the indexer's future at any await. [StateMachine] is
    [core/src/state]; [TxQueue] is [core/src/tx]; [Driver] is
    [core/src/driver.rs] with [effects.rs]: its class [Service] is the trait a
    service implements, and [driver_update] takes one input to completion.
    [Process] is [Driver::new] and [Driver::run] through any number of lives:
    a list of happenings (starts, updates, effects that complete or are lost,
    results that are taken) makes a run, over databases that outlive the
    process. [InStep] shows that indexer and machine stay together in it.

    The validator. [Epoch], [Group], [Merkle], [Hashing] and [Bindings] are
    the consensus modules; [Frost], [FrostKeygen] and [FrostSign] the layer
    over the FROST crates; [State] the snapshotted state with its messages and
    commands; [Preprocessing], [Signing], [KeyGen] and [Complaints] the
    handlers, composed by [Machine] into the transition and its reachable
    states; [Secrets], [NonceStream] and [Effects] the secret store, the
    background nonce generator and the effect handler; [Encoder] the
    transactions of actions; [Service] the components as an instance of the
    driver's class, with the part of [main] that starts it.
    [FROSTCoordinator] is the contract [FROSTCoordinator.sol] the validators
    meet at, with its libraries, and [CoordinatorInvariant] what it keeps;
    [CoordinatorGame] puts one validator and its effect handler at it: its
    events are delivered in order and at any later time, anyone may call it,
    and every effect the validator asked for is performed at any time, any
    number of times.

    The sentinel. [Sentinel] has the transition, encoder and effects of
    [crates/sentinel]; [OracleContract] is [SentinelOracle.sol] with its
    libraries: the book of requests and commitments first, then the whole
    contract around it ([oracle_call]), with its roles, its governed parameters
    and its payments in a token [FeeToken]; [SentinelGame] puts one sentinel at
    the book: its events and blocks are the sentinel's messages, anyone may call
    the contract, and this account calls only what its own actions encode.

    The engine. [EngineBindings] has the data of [crates/sentinel-engine] and
    the class [EngineLibs] of its encodings; [MultiSend] and [TargetEffects]
    the decoders of batches and of what a transaction touches; [Checkers],
    [Poisoning] and [Cow] the checkers, composed by [SentinelEngine] into the
    chain of [main] behind the security-check handler. The engine keeps no
    state: what the node and the order API answer to a check is its
    environment [Outside]. [SentinelEngine] also says what justifies a verdict;
    [EngineVotes] puts the sentinel at this engine as an instance of the
    driver's class.

    ** What the theorems show

    - The validator's transition ([Lifecycle], [Safety], [SessionInvariant],
      [IndexInvariant], [EpochInvariant], [RolloverInvariant], [KeyGenSafety],
      [Housekeeping]): every session follows the abstract step
      relation [session_step]; nothing is signed or attested before the oracle
      named by the packet approved it; epochs and rollovers only move forward;
      key generations are confirmed from verified shares; secrets of open
      sessions are retained; deadlines are met and abandoned sessions end.
    - Its secrets ([Effects], [NonceStream]): used nonces are burned,
      registered ones can be revealed, requests for chunks are served once,
      key generation secrets survive reorgs.
    - The validator at the contract ([NonceBooks], [CoordinatorGame],
      [KeyGenGame]): every chunk of nonces in its books was committed to on chain
      before the requests it serves, every stored nonce opens its root, and so the
      contract accepts whatever nonce commitments the validator reveals
      ([nonce_reveals_accepted]). Contract and validator agree on the identifier
      and the members of every group, and so the contract accepts the commitments
      to a new key for as long as it is collecting them
      ([key_gen_commits_accepted]); that the key collected so far is a point of
      the curve is a hypothesis there, for the group law is not derived.
    - The core ([StateMachine], [TxQueue], [BlocksFollow], [EventsFetch],
      [EventsWarp], [IndexSafety], [InStep], [Driver]): the live state is what the
      history leads to through every reorg, failure and restart; the indexer's
      blocks are one hash-linked chain and its warps complete; what it delivers
      is what the machine waits for, in every life of the process that began
      with the node caught up with its snapshots ([service_in_step]), and every command of the machine is queued or started
      ([commands_dispatched]).
    - The running programs ([Process], [Service], [Safety], [EngineVotes]): the
      process is always in a state of the pure transition that some sequence of
      delivered messages leads to, which is how the theorems on reachable
      states apply to it; nonces of queued transactions
      are distinct; every transaction a validator submits is justified in a
      run of its transition ([submissions_justified]), and every vote of a
      sentinel by a verdict of its engine on a delivered proposal
      ([running_votes_backed]).
    - The sentinel ([SentinelSafety], [GameSafety]): requests do not influence
      each other; what is revealed opens a commitment of the engine's verdict
      that has landed; the contract accepts each reveal, claim and
      finalization; posted bonds are claimed, but for those that
      [posted_bonds_claimed] and [late_verdict_strands_bond] show to be lost.
    - The oracle contract ([OracleInvariant], [OracleTreasury]): its counts are
      those of its commitments; its tokens cover what it owes in every state, so
      that no claim, finalization or ruling fails for want of money, whatever
      governance changes ([oracle_solvent]), where the token is one that keeps
      the promises of [token_laws].
    - The engine ([EngineSafety], [Poisoning], [MultiSend],
      [TargetEffects]): a verdict is one the abstract specification justifies
      ([verdicts_justified]); an address is poisonous exactly by the history
      of the Safe's transfers; the order API cannot make a presignature pass;
      batches are decoded as the contract packs them, at any depth; and a
      refund in a token never trips the poisoning check ([refund_check_inert]),
      although it is written to.

    ** Bounds, fuel and environment

    Integers are [N] with saturation, wrapping and checked arithmetic at their
    width written out in the operation that has it. Merkle trees are built
    with the number of leaves as fuel, which the halving of each level never
    exhausts ([merkle_proof_verifies]). The loops of the block watcher take
    two more turns than there are replies, and every turn consumes one; that
    they end with a result is [initialization_completes] and
    [warp_completes]. The engine decodes the entries of a batch with as much
    fuel as it has bytes and nested batches with one more than the bytes of
    the outermost, each level being shorter than the one around it
    ([target_effects_complete]). What comes from outside is an argument of a step: the
    node's replies, how many database statements are answered ([answering]),
    the [World] of an effect, the [Node] of the queue, the moves of the
    contract's callers. The theorems hold for all of them.

    ** Not modelled

    Logging and metrics; argument parsing, configuration files, the HTTP
    transport of the engine and of the node; serde and SQL text (tables are maps, rows the values stored);
    the cryptography of the libraries; the views of the two contracts, the
    governance events and the charter's name of the oracle contract, and the checks of
    [FROST.sol], and the other Solidity contracts; the explorer. *)

From stdpp Require Export prelude gmap sets list sorting fin_maps.
From Stdlib Require Export NArith Lia.

#[export] Set Default Goal Selector "!".

Declare Scope safenet_scope.
Delimit Scope safenet_scope with safenet.
Global Open Scope N_scope.

(** ** Machine integers

    Unsigned integers are [N]; the operations of the Rust code that saturate,
    check or wrap have their width written out. *)

Definition u16_modulus : N := 65536. (* 2^16 *)
Definition u64_max : N := 18446744073709551615. (* 2^64 - 1 *)

(** [x as u16]. *)
Definition as_u16 (x : N) : N := x mod u16_modulus.

(** [u64::saturating_add], [u64::saturating_mul] and [u64::saturating_sub]
    (truncated subtraction on [N]). *)
Definition saturating_add (x y : N) : N := N.min (x + y) u64_max.
Definition saturating_mul (x y : N) : N := N.min (x * y) u64_max.
Definition saturating_sub (x y : N) : N := x - y.

(** [u64::checked_add] and [u64::checked_sub]. *)
Definition checked_add (x y : N) : option N :=
  if decide (x + y ≤ u64_max) then Some (x + y) else None.
Definition checked_sub (x y : N) : option N :=
  if decide (y ≤ x) then Some (x - y) else None.

(** [u64] addition and multiplication as release builds perform them. *)
Definition wrapping_add (x y : N) : N := (x + y) mod (u64_max + 1).
Definition wrapping_mul (x y : N) : N := (x * y) mod (u64_max + 1).

(** [NonZeroU64]: a positive number; [NonZeroU64::new] and [get]. *)
Definition nonzero_new (x : N) : option positive :=
  match x with 0 => None | N.pos p => Some p end.
Definition nonzero_get (p : positive) : N := N.pos p.

Lemma nonzero_new_get p : nonzero_new (nonzero_get p) = Some p.
Proof. done. Qed.

Lemma as_u16_small x : x < u16_modulus → as_u16 x = x.
Proof. apply N.mod_small. Qed.

Lemma saturating_add_le x y : saturating_add x y ≤ u64_max.
Proof. unfold saturating_add. lia. Qed.

Lemma saturating_add_small x y : x + y ≤ u64_max → saturating_add x y = x + y.
Proof. unfold saturating_add. lia. Qed.

Lemma saturating_add_ge x y : x ≤ u64_max → x ≤ saturating_add x y.
Proof. unfold saturating_add. lia. Qed.

Lemma saturating_add_gt x y : x < u64_max → 0 < y → x < saturating_add x y.
Proof. unfold saturating_add. lia. Qed.

Lemma wrapping_add_small x y : x + y ≤ u64_max → wrapping_add x y = x + y.
Proof. intros H. unfold wrapping_add. apply N.mod_small. lia. Qed.

Lemma checked_add_Some x y z :
  checked_add x y = Some z ↔ z = x + y ∧ x + y ≤ u64_max.
Proof. unfold checked_add. case_decide; naive_solver. Qed.

Lemma checked_add_None x y : checked_add x y = None ↔ u64_max < x + y.
Proof. unfold checked_add. case_decide; naive_solver lia. Qed.

Create HintDb machine_int.
#[export] Hint Resolve saturating_add_le saturating_add_ge saturating_add_gt
  as_u16_small : machine_int.

(** ** Ordered keys and [BTreeMap] iteration

    A [BTreeMap<K, V>] is a [gmap K V]; where the code iterates over it, the
    entries are visited in ascending key order. [OrdKey] gives the numeric
    image of the key that Rust's [Ord] compares. *)

Class OrdKey (K : Type) := {
  ord_key : K → N;
  ord_key_inj :: Inj (=) (=) ord_key;
}.

#[export] Instance N_OrdKey : OrdKey N.
Proof. by refine {| ord_key := λ x, x |}. Defined.

Section btree.
Context {K : Type} `{Countable K, !OrdKey K} {V : Type}.

Definition entry_le : relation (K * V) := λ p q, ord_key p.1 ≤ ord_key q.1.

#[export] Instance entry_le_dec : RelDecision entry_le.
Proof. intros p q. unfold entry_le. apply _. Defined.
#[export] Instance entry_le_trans : Transitive entry_le.
Proof. intros p q r. unfold entry_le. lia. Qed.
#[export] Instance entry_le_total : Total entry_le.
Proof. intros p q. unfold entry_le. lia. Qed.

(** [m.iter()]: the entries in ascending key order. *)
Definition btree_iter (m : gmap K V) : list (K * V) :=
  merge_sort entry_le (map_to_list m).

(** [m.keys()] and [m.values()]. *)
Definition btree_keys (m : gmap K V) : list K := (btree_iter m).*1.
Definition btree_values (m : gmap K V) : list V := (btree_iter m).*2.

(** [m.len()] as an unbounded count. *)
Definition btree_len (m : gmap K V) : N := N.of_nat (size m).

(** [m.split_off(&k)] returns the entries at or after [k]; the callers all
    write [m = m.split_off(&k)]. *)
Definition btree_split_off (k : K) (m : gmap K V) : gmap K V :=
  filter (λ p, ord_key k ≤ ord_key p.1) m.

(** [m.last_key_value()]. *)
Definition btree_last (m : gmap K V) : option (K * V) := last (btree_iter m).

Lemma btree_iter_perm m : btree_iter m ≡ₚ map_to_list m.
Proof. apply merge_sort_Permutation. Qed.

Lemma elem_of_btree_iter m k v : (k, v) ∈ btree_iter m ↔ m !! k = Some v.
Proof. rewrite btree_iter_perm. apply elem_of_map_to_list. Qed.

Lemma btree_iter_sorted m : StronglySorted entry_le (btree_iter m).
Proof. apply StronglySorted_merge_sort; apply _. Qed.

Lemma btree_keys_NoDup m : NoDup (btree_keys m).
Proof. unfold btree_keys. rewrite btree_iter_perm. apply NoDup_fst_map_to_list. Qed.

Lemma elem_of_btree_keys m k : k ∈ btree_keys m ↔ is_Some (m !! k).
Proof.
  unfold btree_keys. rewrite list_elem_of_fmap. split.
  - intros ([k' v] & -> & Hin%elem_of_btree_iter). eauto.
  - intros [v Hv]. exists (k, v). by rewrite elem_of_btree_iter.
Qed.

Lemma elem_of_btree_values m v : v ∈ btree_values m ↔ ∃ k, m !! k = Some v.
Proof.
  unfold btree_values. rewrite list_elem_of_fmap. split.
  - intros ([k v'] & -> & Hin%elem_of_btree_iter). eauto.
  - intros [k Hk]. exists (k, v). by rewrite elem_of_btree_iter.
Qed.

Lemma length_btree_iter m : length (btree_iter m) = size m.
Proof. by rewrite btree_iter_perm, length_map_to_list. Qed.

Lemma lookup_btree_split_off k m i :
  btree_split_off k m !! i = if decide (ord_key k ≤ ord_key i) then m !! i else None.
Proof.
  unfold btree_split_off. rewrite map_lookup_filter.
  destruct (m !! i); simpl; repeat case_guard; repeat case_decide; naive_solver.
Qed.

Lemma lookup_btree_split_off_Some k m i v :
  btree_split_off k m !! i = Some v ↔ ord_key k ≤ ord_key i ∧ m !! i = Some v.
Proof. rewrite lookup_btree_split_off. case_decide; naive_solver. Qed.

(** The last entry has the greatest key. *)
Lemma btree_last_Some m k v :
  btree_last m = Some (k, v) →
  m !! k = Some v ∧ ∀ i, is_Some (m !! i) → ord_key i ≤ ord_key k.
Proof.
  unfold btree_last. intros Hl. split.
  - apply elem_of_btree_iter. by apply last_Some_elem_of in Hl.
  - intros i [w Hw]. apply last_Some in Hl as [l Hl].
    pose proof (btree_iter_sorted m) as Hs.
    apply elem_of_btree_iter in Hw. rewrite Hl in Hs, Hw.
    apply elem_of_app in Hw as [Hw|Hw%list_elem_of_singleton]; [|by simplify_eq].
    by eapply (StronglySorted_app_1_elem_of _ _ _ (i, w) (k, v)) in Hs;
      [|done|by apply list_elem_of_singleton].
Qed.

Lemma btree_last_None m : btree_last m = None ↔ m = ∅.
Proof.
  unfold btree_last. rewrite last_None, <-map_to_list_empty_iff.
  split; intros E.
  - apply Permutation_nil. by rewrite <-E, btree_iter_perm.
  - apply Permutation_nil. by rewrite btree_iter_perm, E.
Qed.
End btree.

(** The elements of a [BTreeSet<u..>] in ascending order. *)
Definition key_le `{OrdKey K} : relation K := λ x y, ord_key x ≤ ord_key y.

#[export] Instance key_le_dec `{OrdKey K} : RelDecision key_le.
Proof. intros x y. unfold key_le. apply _. Defined.

Definition btree_elements `{Countable K, !OrdKey K} (s : gset K) : list K :=
  merge_sort key_le (elements s).

Lemma elem_of_btree_elements `{Countable K, !OrdKey K} (s : gset K) k :
  k ∈ btree_elements s ↔ k ∈ s.
Proof.
  unfold btree_elements. rewrite (merge_sort_Permutation _ (elements s)).
  apply elem_of_elements.
Qed.

Lemma length_btree_elements `{Countable K, !OrdKey K} (s : gset K) :
  length (btree_elements s) = size s.
Proof. unfold btree_elements. by rewrite merge_sort_Permutation. Qed.

Lemma NoDup_btree_elements `{Countable K, !OrdKey K} (s : gset K) :
  NoDup (btree_elements s).
Proof. unfold btree_elements. rewrite merge_sort_Permutation. apply NoDup_elements. Qed.

(** [set.len()]. *)
Definition set_len `{Countable K} (s : gset K) : N := N.of_nat (size s).

(** ** The first match in a list, as [Iterator::find]. *)

Fixpoint list_find_first {A} (p : A → bool) (l : list A) : option A :=
  match l with
  | [] => None
  | x :: l => if p x then Some x else list_find_first p l
  end.

Lemma list_find_first_Some {A} (p : A → bool) l x :
  list_find_first p l = Some x → x ∈ l ∧ p x = true.
Proof.
  induction l as [|y l IH]; simpl; [done|]. destruct (p y) eqn:E.
  - intros [= ->]. split; [left|done].
  - intros [? ?]%IH. split; [by right|done].
Qed.

Lemma list_find_first_None {A} (p : A → bool) l :
  list_find_first p l = None ↔ ∀ x, x ∈ l → p x = false.
Proof.
  induction l as [|y l IH]; simpl; [set_solver|].
  destruct (p y) eqn:E; [|set_solver].
  split; [done|]. intros H. specialize (H y ltac:(left)). congruence.
Qed.

(** ** Filtering *)

Lemma list_filter_fmap {A B} (f : A → B) (P : B → Prop)
    `{∀ y, Decision (P y)} (l : list A) :
  filter P (f <$> l) = f <$> filter (λ x, P (f x)) l.
Proof.
  induction l as [|x l IH]; [done|]. cbn [fmap list_fmap].
  rewrite !filter_cons, IH. by case_decide.
Qed.

Lemma list_filter_ext {A} (P Q : A → Prop)
    `{∀ x, Decision (P x), ∀ x, Decision (Q x)} (l : list A) :
  (∀ x, x ∈ l → P x ↔ Q x) → filter P l = filter Q l.
Proof.
  induction l as [|x l IH]; intros Heq; [done|]. rewrite !filter_cons.
  rewrite IH by set_solver. specialize (Heq x ltac:(left)).
  repeat case_decide; naive_solver.
Qed.

Lemma list_filter_all {A} (P : A → Prop) `{∀ x, Decision (P x)} (l : list A) :
  (∀ x, x ∈ l → P x) → filter P l = l.
Proof.
  induction l as [|x l IH]; intros Hall; [done|].
  rewrite filter_cons_True by (apply Hall; left). f_equal. apply IH. set_solver.
Qed.

Lemma list_filter_none {A} (P : A → Prop) `{∀ x, Decision (P x)} (l : list A) :
  (∀ x, x ∈ l → ¬ P x) → filter P l = [].
Proof.
  induction l as [|x l IH]; intros Hnone; [done|].
  rewrite filter_cons_False by (apply Hnone; left). apply IH. set_solver.
Qed.

(** ** Results

    [Result<T, E>] is a sum; [rbind] is the [?] operator. *)

Inductive result (A E : Type) : Type :=
  | Ok (a : A)
  | Err (e : E).
Arguments Ok {A E} _.
Arguments Err {A E} _.

Definition rbind {A B E} (r : result A E) (f : A → result B E) : result B E :=
  match r with Ok a => f a | Err e => Err e end.
Definition rmap {A B E} (f : A → B) (r : result A E) : result B E :=
  match r with Ok a => Ok (f a) | Err e => Err e end.
Definition rmap_err {A E E'} (f : E → E') (r : result A E) : result A E' :=
  match r with Ok a => Ok a | Err e => Err (f e) end.
(** [Option::ok_or]. *)
Definition ok_or {A E} (e : E) (o : option A) : result A E :=
  match o with Some a => Ok a | None => Err e end.
(** Solidity's [require]. *)
Definition require {E} (P : Prop) `{Decision P} (e : E) : result () E :=
  if decide P then Ok () else Err e.
(** [collect::<Result<Vec<_>, _>>()]: stops at the first error. *)
Fixpoint rcollect {A E} (l : list (result A E)) : result (list A) E :=
  match l with
  | [] => Ok []
  | r :: l => rbind r (λ a, rmap (cons a) (rcollect l))
  end.

Notation "x ←? r ; k" := (rbind r (λ x, k))
  (at level 20, r at level 100, k at level 200, right associativity) : safenet_scope.
Notation "' p ←? r ; k" := (rbind r (λ p, k))
  (at level 20, p pattern, r at level 100, k at level 200, right associativity) : safenet_scope.

Lemma rbind_Ok {A B E} (r : result A E) (f : A → result B E) b :
  rbind r f = Ok b ↔ ∃ a, r = Ok a ∧ f a = Ok b.
Proof. destruct r; simpl; naive_solver. Qed.

Lemma require_Ok {E} P `{Decision P} (e : E) u : require P e = Ok u ↔ P.
Proof. unfold require. destruct u. case_decide; naive_solver. Qed.

Lemma require_True {E} P `{Decision P} (e : E) : P → require P e = Ok ().
Proof. by rewrite require_Ok. Qed.

Lemma rcollect_Ok {A E} (l : list (result A E)) xs :
  rcollect l = Ok xs ↔ Forall2 (λ r a, r = Ok a) l xs.
Proof.
  revert xs. induction l as [|r l IH]; intros xs; simpl.
  - split; [by intros [= <-]|]. by inversion 1.
  - split.
    + destruct r as [a|]; simpl; [|done].
      destruct (rcollect l) as [ys|]; simpl; [|done]. intros [= <-].
      constructor; [done|]. by apply IH.
    + intros Hf. inversion Hf as [|? a ? ys Hr Hys]; subst. simpl.
      by rewrite (proj2 (IH ys) Hys).
Qed.

(** ** Stateful, fallible code

    A method that changes [S] and may return early with an error; the changes
    made before the error stay. *)

Definition io (S A E : Type) : Type := S → result A E * S.
Definition io_ret {S A E} (a : A) : io S A E := λ s, (Ok a, s).
Definition io_fail {S A E} (e : E) : io S A E := λ s, (Err e, s).
Definition io_bind {S A B E} (m : io S A E) (f : A → io S B E) : io S B E :=
  λ s, match m s with
       | (Ok a, s) => f a s
       | (Err e, s) => (Err e, s)
       end.
Definition io_lift {S A E} (r : result A E) : io S A E := λ s, (r, s).
Definition io_map_err {S A E E'} (f : E → E') (m : io S A E) : io S A E' :=
  λ s, let '(r, s) := m s in (rmap_err f r, s).

Notation "x ←! m ; k" := (io_bind m (λ x, k))
  (at level 20, m at level 100, k at level 200, right associativity) : safenet_scope.
Notation "' p ←! m ; k" := (io_bind m (λ p, k))
  (at level 20, p pattern, m at level 100, k at level 200, right associativity) : safenet_scope.

(** Running a list of operations one after the other, each to its end. *)
Definition io_for {S A E} (f : A → io S () E) : list A → io S () E :=
  foldr (λ a k, io_bind (f a) (λ _, k)) (io_ret ()).

Lemma io_for_cons {S A E} (f : A → io S () E) a l :
  io_for f (a :: l) = io_bind (f a) (λ _, io_for f l).
Proof. done. Qed.

Lemma io_bind_Ok {S A B E} (m : io S A E) (f : A → io S B E) s b s' :
  io_bind m f s = (Ok b, s') ↔ ∃ a s1, m s = (Ok a, s1) ∧ f a s1 = (Ok b, s').
Proof.
  unfold io_bind. destruct (m s) as [[a|e] s1]; naive_solver.
Qed.

(** What every operation preserves, error or not, their sequence preserves. *)
Definition io_preserves {S A E} (P : S → Prop) (m : io S A E) : Prop :=
  ∀ s, P s → P (m s).2.

Lemma io_bind_preserves {S A B E} (P : S → Prop) (m : io S A E) (f : A → io S B E) :
  io_preserves P m → (∀ a, io_preserves P (f a)) → io_preserves P (io_bind m f).
Proof.
  intros Hm Hf s Hs. specialize (Hm s Hs). unfold io_bind.
  destruct (m s) as [[a|e] s1]; [by apply Hf|done].
Qed.

Lemma io_bind_lift_preserves {S A B E} (P : S → Prop) (a : A) (f : A → io S B E) :
  io_preserves P (f a) → io_preserves P (io_bind (io_lift (Ok a)) f).
Proof. intros H. exact H. Qed.

Lemma io_ret_preserves {S A E} (P : S → Prop) (a : A) :
  io_preserves P (io_ret a : io S A E).
Proof. by intros s. Qed.

Lemma io_fail_preserves {S A E} (P : S → Prop) (e : E) :
  io_preserves P (io_fail e : io S A E).
Proof. by intros s. Qed.

Lemma io_lift_preserves {S A E} (P : S → Prop) (r : result A E) :
  io_preserves P (io_lift r : io S A E).
Proof. by intros s. Qed.

Lemma io_map_err_preserves {S A E E'} (P : S → Prop) (f : E → E') (m : io S A E) :
  io_preserves P m → io_preserves P (io_map_err f m).
Proof.
  intros Hm s Hs. specialize (Hm s Hs). unfold io_map_err. by destruct (m s).
Qed.

Lemma io_for_preserves {S A E} (P : S → Prop) (f : A → io S () E) l :
  (∀ a, a ∈ l → io_preserves P (f a)) → io_preserves P (io_for f l).
Proof.
  induction l as [|a l IH]; intros Hf; simpl; [by apply io_ret_preserves|].
  apply io_bind_preserves; [apply Hf; left|].
  intros _. apply IH. intros b Hb. apply Hf. by right.
Qed.

(** What an operation establishes from [P]: [Q] of its value, or [X] of its
    error, and of the state either leaves. *)
Definition io_spec {S A E} (P : S → Prop) (m : io S A E) (Q : A → S → Prop)
    (X : E → S → Prop) : Prop :=
  ∀ s, P s → match m s with (Ok a, s') => Q a s' | (Err e, s') => X e s' end.

Section io_spec.
Context {S E : Type} (P : S → Prop) (X : E → S → Prop).

Lemma io_spec_ret {A} (a : A) (Q : A → S → Prop) :
  (∀ s, P s → Q a s) → io_spec P (io_ret a) Q X.
Proof. intros H s. apply H. Qed.

Lemma io_spec_fail {A} (e : E) (Q : A → S → Prop) :
  (∀ s, P s → X e s) → io_spec P (io_fail e) Q X.
Proof. intros H s. apply H. Qed.

Lemma io_spec_bind {A B} (m : io S A E) (f : A → io S B E) Q R :
  io_spec P m Q X → (∀ a, io_spec (Q a) (f a) R X) → io_spec P (io_bind m f) R X.
Proof.
  intros Hm Hf s Hs. specialize (Hm s Hs). unfold io_bind.
  destruct (m s) as [[a|e] s1]; [by apply Hf|done].
Qed.

Lemma io_spec_conseq {A} (P' : S → Prop) (m : io S A E) (Q' Q : A → S → Prop)
    (X' : E → S → Prop) :
  io_spec P' m Q' X' → (∀ s, P s → P' s) → (∀ a s, Q' a s → Q a s) →
  (∀ e s, X' e s → X e s) → io_spec P m Q X.
Proof.
  intros Hm HP HQ HX s Hs. specialize (Hm s (HP s Hs)).
  destruct (m s) as [[a|e] s1]; auto.
Qed.
End io_spec.

Create HintDb io.
#[export] Hint Resolve io_bind_preserves io_ret_preserves io_fail_preserves
  io_lift_preserves io_map_err_preserves io_for_preserves : io.

(** ** Tactics *)

(** Replaces the quotient and remainder of [a] by the constant or variable [b]
    by variables constrained by the division equation. *)
Ltac div_facts a b :=
  let q := fresh "q" in let r := fresh "r" in
  let Hne := fresh "Hne" in
  assert (b ≠ 0) as Hne by done;
  generalize (N.div_mod a b Hne); generalize (N.mod_lt a b Hne);
  generalize (a / b); generalize (a mod b); intros r q ? ?.

(** Case analysis on the innermost [match] of the goal or of a hypothesis. *)
Ltac destruct_match :=
  match goal with
  | |- context [match ?x with _ => _ end] =>
      lazymatch x with context [match _ with _ => _ end] => fail | _ => idtac end;
      destruct x eqn:?
  end.

Ltac destruct_match_in H :=
  match type of H with
  | context [match ?x with _ => _ end] =>
      lazymatch x with context [match _ with _ => _ end] => fail | _ => idtac end;
      destruct x eqn:?
  end.

Ltac destruct_matches := repeat (destruct_match; simplify_eq/=; try done).
