(* ===== verification/Bytes.v ===== *)
(** * Byte strings

    Byte buffers are [list byte]; fixed-width big-endian encodings of unsigned
    integers ([to_be_bytes]) and their inverse. A 20-byte [Address] and a
    32-byte [B256] are the numbers their big-endian bytes denote: Rust's byte
    order on them is the order on numbers, and left-padding an address into a
    word ([into_word]) keeps the number. *)

From S2P Require Import Prelude.
From Stdlib Require Export Strings.Byte.

Abbreviation Bytes := (list byte).
Abbreviation Address := N.
Abbreviation B256 := N.
Abbreviation U256 := N.

Definition B256_ZERO : B256 := 0.

#[export] Instance byte_eq_dec : EqDecision byte := Byte.byte_eq_dec.

(** The byte [x as u8]. *)
Definition byte_of (x : N) : byte :=
  default x00 (Byte.of_N (x mod 256)).

Fixpoint to_le_bytes (n : nat) (x : N) : Bytes :=
  match n with
  | O => []
  | S n => byte_of x :: to_le_bytes n (x / 256)
  end.

Fixpoint from_le_bytes (l : Bytes) : N :=
  match l with
  | [] => 0
  | b :: l => Byte.to_N b + 256 * from_le_bytes l
  end.

Definition to_be_bytes (n : nat) (x : N) : Bytes := reverse (to_le_bytes n x).
Definition from_be_bytes (l : Bytes) : N := from_le_bytes (reverse l).

(** A run of [n] zero bytes, what an untouched part of [[0u8; _]] holds. *)
Definition zeros (n : nat) : Bytes := replicate n x00.

(** [Address::into_word]. *)
Definition into_word (a : Address) : B256 := a.

Lemma byte_of_to_N x : Byte.to_N (byte_of x) = x mod 256.
Proof.
  unfold byte_of. destruct (Byte.of_N (x mod 256)) as [b|] eqn:E; simpl.
  - by apply Byte.to_of_N in E.
  - apply Byte.of_N_None_iff in E. pose proof (N.mod_lt x 256). lia.
Qed.

Lemma length_to_be_bytes n x : length (to_be_bytes n x) = n.
Proof.
  unfold to_be_bytes. rewrite length_reverse. revert x.
  induction n; intros x; simpl; auto.
Qed.

Lemma from_to_le_bytes n x : from_le_bytes (to_le_bytes n x) = x mod 256 ^ N.of_nat n.
Proof.
  revert x. induction n as [|n IH]; intros x; simpl from_le_bytes.
  - by rewrite N.mod_1_r.
  - rewrite byte_of_to_N, IH, Nat2N.inj_succ, N.pow_succ_r'.
    by rewrite N.Div0.mod_mul_r.
Qed.

(** Decoding an encoding gives the value back, up to the width. *)
Lemma from_to_be_bytes n x : from_be_bytes (to_be_bytes n x) = x mod 256 ^ N.of_nat n.
Proof. unfold from_be_bytes, to_be_bytes. by rewrite reverse_involutive, from_to_le_bytes. Qed.

Lemma to_be_bytes_inj n x y :
  x < 256 ^ N.of_nat n → y < 256 ^ N.of_nat n →
  to_be_bytes n x = to_be_bytes n y → x = y.
Proof.
  intros Hx Hy E. apply (f_equal from_be_bytes) in E.
  by rewrite !from_to_be_bytes, !N.mod_small in E.
Qed.

Lemma to_le_from_le_bytes l : to_le_bytes (length l) (from_le_bytes l) = l.
Proof.
  induction l as [|b l IH]; cbn [from_le_bytes to_le_bytes length]; [done|].
  pose proof (Byte.to_N_bounded b) as Hb.
  assert ((Byte.to_N b + 256 * from_le_bytes l) mod 256 = Byte.to_N b) as Hm.
  { rewrite N.mul_comm, N.Div0.mod_add. apply N.mod_small. lia. }
  f_equal.
  - unfold byte_of. by rewrite Hm, Byte.of_to_N.
  - rewrite N.mul_comm, N.div_add by done.
    by rewrite N.div_small, N.add_0_l by lia.
Qed.

Lemma to_from_be_bytes l : to_be_bytes (length l) (from_be_bytes l) = l.
Proof.
  unfold to_be_bytes, from_be_bytes.
  by rewrite <-(length_reverse l), to_le_from_le_bytes, reverse_involutive.
Qed.

Lemma from_be_bytes_inj l k :
  length l = length k → from_be_bytes l = from_be_bytes k → l = k.
Proof. intros Hl E. by rewrite <-(to_from_be_bytes l), E, Hl, to_from_be_bytes. Qed.

(** Equal concatenations of equally long prefixes split. *)
Lemma app_inj_length {A} (l1 l2 k1 k2 : list A) :
  length l1 = length l2 → l1 ++ k1 = l2 ++ k2 → l1 = l2 ∧ k1 = k2.
Proof. intros. by apply app_inj_1. Qed.

(** Splits an equation between concatenations of fixed-width fields. *)
Ltac split_bytes H :=
  repeat
    (let E := fresh "E" in
     apply app_inj_length in H as [E H];
     [|by rewrite ?length_to_be_bytes]).
