(* ===== verification/Database.v ===== *)
(** * SQLite databases

    The tables of a database as a value, with the calls the stores make on
    them. A call may fail; [answering] says how many more calls the database
    answers, so that every call is in turn the first that fails. *)

From S2P Require Import Prelude.

Record Db (Tables : Type) := mkDb {
  tables : Tables;
  answering : option nat;
}.
Arguments mkDb {Tables} _ _.
Arguments tables {Tables} _.
Arguments answering {Tables} _.

Definition i64_max : N := 9223372036854775807. (* 2^63 - 1 *)

(** [i64::try_from]. *)
Definition i64_try_from {E} (overflow : E) (x : N) : result N E :=
  if decide (x ≤ i64_max) then Ok x else Err overflow.

Lemma i64_try_from_Ok {E} (overflow : E) x y :
  i64_try_from overflow x = Ok y ↔ y = x ∧ x ≤ i64_max.
Proof. unfold i64_try_from. case_decide; naive_solver. Qed.

Section database.
Context {Tables E : Type} (failure : E).
Open Scope safenet_scope.

(** One awaited call. *)
Definition statement {A} (m : Tables → result A E * Tables) : io (Db Tables) A E := λ s,
  match answering s with
  | Some O => (Err failure, s)
  | a => let '(r, t) := m (tables s) in (r, mkDb t (Nat.pred <$> a))
  end.

(** A transaction: [begin], the body, [commit]; dropped before the commit, it
    rolls back. *)
Definition transaction {A} (body : io (Db Tables) A E) : io (Db Tables) A E := λ s,
  match (_ ←! statement (io_ret ()); a ←! body; _ ←! statement (io_ret ()); io_ret a) s with
  | (Ok a, s') => (Ok a, s')
  | (Err e, s') => (Err e, mkDb (tables s) (answering s'))
  end.

Lemma statement_inv {A} (m : Tables → result A E * Tables) s r s' :
  statement m s = (r, s') →
  (r = Err failure ∧ s' = s) ∨ m (tables s) = (r, tables s').
Proof.
  unfold statement. destruct (answering s) as [[|n]|]; intros H.
  - left. by simplify_eq.
  - right. destruct (m (tables s)) as [r1 t1]. by simplify_eq.
  - right. destruct (m (tables s)) as [r1 t1]. by simplify_eq.
Qed.

Lemma statement_answered {A} (m : Tables → result A E * Tables) s :
  answering s = None →
  statement m s = ((m (tables s)).1, mkDb (m (tables s)).2 None).
Proof. intros Ha. unfold statement. rewrite Ha. by destruct (m (tables s)). Qed.

Lemma statement_preserves {A} (P : Tables → Prop) (m : Tables → result A E * Tables) :
  io_preserves P m → io_preserves (λ s, P (tables s)) (statement m).
Proof.
  intros Hm s Hs. specialize (Hm _ Hs). destruct (statement m s) as [r s'] eqn:H.
  apply statement_inv in H as [[_ ->]|H]; [done|]. by rewrite H in Hm.
Qed.

Lemma transaction_preserves {A} (P : Tables → Prop) (m : io (Db Tables) A E) :
  io_preserves (λ s, P (tables s)) m → io_preserves (λ s, P (tables s)) (transaction m).
Proof.
  intros Hm s Hs. unfold transaction.
  assert (io_preserves (λ s, P (tables s))
    (_ ←! statement (io_ret ()); a ←! m; _ ←! statement (io_ret ()); io_ret a)) as Hp.
  { eauto 8 using statement_preserves with io. }
  specialize (Hp s Hs). by destruct (io_bind _ _ s) as [[a|e] s'].
Qed.

(** A committed transaction did what its body does. *)
Lemma transaction_Ok {A} (m : io (Db Tables) A E) s a s' :
  transaction m s = (Ok a, s') →
  ∃ s1 s2, tables s1 = tables s ∧ m s1 = (Ok a, s2) ∧ tables s' = tables s2.
Proof.
  unfold transaction. destruct (io_bind _ _ s) as [[b|e] s1] eqn:H; intros; simplify_eq.
  apply io_bind_Ok in H as ([] & s1 & H1 & H).
  apply io_bind_Ok in H as (b & s2 & H2 & H).
  apply io_bind_Ok in H as ([] & s3 & H3 & H).
  unfold io_ret in H. simplify_eq.
  apply statement_inv in H1 as [[??]|H1]; [done|].
  apply statement_inv in H3 as [[??]|H3]; [done|].
  unfold io_ret in H1, H3. simplify_eq. exists s1, s2. split_and!; congruence.
Qed.

(** A transaction that fails leaves the tables as they were. *)
Lemma transaction_Err {A} (m : io (Db Tables) A E) s e s' :
  transaction m s = (Err e, s') → tables s' = tables s.
Proof.
  unfold transaction. destruct (io_bind _ _ s) as [[b|e'] s1]; intros; by simplify_eq.
Qed.
End database.

#[export] Hint Resolve statement_preserves transaction_preserves : io.
