(* ===== verification/Core.v ===== *)
(** * The service interface of [safenet_core]

    The types a service and the core share: indexer updates ([index/mod.rs],
    [index/blocks.rs], [index/events.rs]), state transition messages and
    commands ([state/mod.rs]), and transactions ([tx/types.rs]). *)

From S2P Require Import Prelude.
From S2P Require Import Bytes.

(** ** Indexer updates *)

Record EventLog (E : Type) := {
  log_block : N;
  log_index : N;
  log_address : Address;
  log_data : E;
}.
Arguments log_block {E} _.
Arguments log_index {E} _.
Arguments log_address {E} _.
Arguments log_data {E} _.

(** [RangeInclusive<u64>]. *)
Record BlockRange := mkRange { range_start : N; range_last : N }.

Record EventUpdate (E : Type) := {
  update_blocks : BlockRange;
  update_logs : list (EventLog E);
}.
Arguments update_blocks {E} _.
Arguments update_logs {E} _.

Inductive BlockUpdate :=
  | Warp (from to : N)
  | Uncle (number : N)
  | New (number : N) (hash : B256) (logs_bloom : N).

Inductive Update (E : Type) :=
  | UBlock (update : BlockUpdate)
  | ULogs (update : EventUpdate E).
Arguments UBlock {E} _.
Arguments ULogs {E} _.

Record BlockStatus := { status_latest : N; status_safe : N }.

#[export] Instance BlockStatus_eq_dec : EqDecision BlockStatus.
Proof. solve_decision. Defined.

(** ** Messages and commands *)

Inductive Message (Event Resume : Type) :=
  | NewBlock (block : N)
  | MEvent (log : EventLog Event)
  | MResume (result : Resume).
Arguments NewBlock {Event Resume} _.
Arguments MEvent {Event Resume} _.
Arguments MResume {Event Resume} _.

Inductive Command (Action Effect : Type) :=
  | CAction (action : Action)
  | CEffect (effect : Effect).
Arguments CAction {Action Effect} _.
Arguments CEffect {Action Effect} _.

(** ** Transactions *)

Record Transaction := {
  tx_to : Address;
  tx_value : U256;
  tx_data : Bytes;
  tx_gas : N;
}.

(** [Eip1559Estimation]. *)
Record Fees := {
  max_fee_per_gas : N;
  max_priority_fee_per_gas : N;
}.

Record AllocatedTransaction := {
  at_nonce : N;
  at_transaction : Transaction;
  at_max_fee_per_gas : option N;
  at_max_priority_fee_per_gas : option N;
}.
