(* ===== verification/Epoch.v ===== *)
(** * Epochs: [consensus/epoch.rs]

    Epoch identifiers, their order, their raw encoding, and the epoch that is
    due next at a block. *)

From S2P Require Import Prelude.

(** [NonZeroU64] is [positive]; genesis has no number. *)
Inductive EpochId : Set :=
  | Genesis
  | Number (number : positive).

#[export] Instance EpochId_eq_dec : EqDecision EpochId.
Proof. solve_decision. Defined.

Module EpochId.
Definition from_raw (value : N) : EpochId :=
  match nonzero_new value with
  | Some number => Number number
  | None => Genesis
  end.

Definition raw_value (e : EpochId) : N :=
  match e with
  | Genesis => 0
  | Number number => nonzero_get number
  end.

Definition number (e : EpochId) : option positive :=
  match e with
  | Genesis => None
  | Number number => Some number
  end.

(** [Ord] for [EpochId] compares raw values. *)
Definition cmp (e1 e2 : EpochId) : comparison :=
  N.compare (raw_value e1) (raw_value e2).

(** [Ord::min], which keeps the first operand on a tie. *)
Definition min (e1 e2 : EpochId) : EpochId :=
  match cmp e1 e2 with Gt => e2 | _ => e1 end.

Lemma from_raw_value e : from_raw (raw_value e) = e.
Proof. by destruct e. Qed.

Lemma raw_value_from x : raw_value (from_raw x) = x.
Proof. by destruct x. Qed.

#[global] Instance raw_value_inj : Inj (=) (=) raw_value.
Proof. intros e1 e2 H. by rewrite <-(from_raw_value e1), H, from_raw_value. Qed.

Lemma raw_value_min e1 e2 : raw_value (min e1 e2) = N.min (raw_value e1) (raw_value e2).
Proof. unfold min, cmp. destruct (N.compare_spec (raw_value e1) (raw_value e2)); lia. Qed.
End EpochId.

#[export] Instance EpochId_countable : Countable EpochId.
Proof. apply (inj_countable' EpochId.raw_value EpochId.from_raw EpochId.from_raw_value). Defined.

#[export] Instance EpochId_OrdKey : OrdKey EpochId := {| ord_key := EpochId.raw_value |}.

(** [next_number]: [NonZeroU64::MIN.saturating_add(block / blocks_per_epoch)]. *)
Definition next_number (block : N) (blocks_per_epoch : positive) : positive :=
  let number := block / nonzero_get blocks_per_epoch in
  match nonzero_new (saturating_add 1 number) with
  | Some n => n
  | None => 1%positive
  end.

Lemma next_number_get block bpe :
  nonzero_get (next_number block bpe) =
    N.min (1 + block / nonzero_get bpe) u64_max.
Proof.
  assert (0 < saturating_add 1 (block / nonzero_get bpe)) as Hpos.
  { generalize (block / nonzero_get bpe). unfold saturating_add, u64_max. lia. }
  unfold next_number. cbv zeta. fold (saturating_add 1 (block / nonzero_get bpe)).
  by destruct (saturating_add 1 (block / nonzero_get bpe)).
Qed.

Lemma next_number_mono b1 b2 bpe :
  b1 ≤ b2 → nonzero_get (next_number b1 bpe) ≤ nonzero_get (next_number b2 bpe).
Proof.
  intros Hle. rewrite !next_number_get.
  assert (b1 / nonzero_get bpe ≤ b2 / nonzero_get bpe) by (by apply N.Div0.div_le_mono).
  remember (b1 / nonzero_get bpe). remember (b2 / nonzero_get bpe). lia.
Qed.

(** ** Properties *)

(** The epoch due next at a block is the one whose rollover block is the
    first after it: the previous epoch's rollover block is at or before the
    block, and its own is after it. *)
Theorem next_number_bounds block bpe :
  block < u64_max →
  let n := nonzero_get (next_number block bpe) in
  let b := nonzero_get bpe in
  (n - 1) * b ≤ block < n * b.
Proof.
  intros Hb n b. subst n. rewrite next_number_get. fold b.
  assert (b ≠ 0) as Hb0 by done. clearbody b.
  div_facts block b.
  assert (q ≤ block) by nia.
  rewrite N.min_l by lia. nia.
Qed.
