(* ===== verification/Bindings.v ===== *)
(** * Contract bindings: [bindings.rs]

    The structs, events and calls that [sol!] declares for the Consensus,
    Coordinator and Oracle contracts. A call is a value of an inductive type;
    its ABI encoding is a parameter (see [Alloy.v]). *)

From S2P Require Import Prelude.
From S2P Require Import Bytes.

Module Point.
Record t := mk { x : U256; y : U256 }.
End Point.
Abbreviation Point := Point.t.

Module Signature.
Record t := mk { r : Point; z : U256 }.
End Signature.

Inductive Operation : Set := CALL | DELEGATECALL.

(** [operation as u8]. *)
Definition operation_as_u8 (o : Operation) : N :=
  match o with CALL => 0 | DELEGATECALL => 1 end.

Module SafeTransaction.
Record t := mk {
  chainId : U256;
  safe : Address;
  to : Address;
  value : U256;
  data : Bytes;
  operation : Operation;
  safeTxGas : U256;
  baseGas : U256;
  gasPrice : U256;
  gasToken : Address;
  refundReceiver : Address;
  nonce : U256;
}.
End SafeTransaction.
Abbreviation SafeTransaction := SafeTransaction.t.

Module KeyGenCommitment.
Record t := mk { q : Point; c : list Point; r : Point; mu : U256 }.
End KeyGenCommitment.

Module KeyGenSecretShare.
Record t := mk { y : Point; f : list U256 }.
End KeyGenSecretShare.

Module SignNonces.
Record t := mk { d : Point; e : Point }.
End SignNonces.
Abbreviation SignNonces := SignNonces.t.

Module SignSelection.
Record t := mk { r : Point; root : B256 }.
End SignSelection.
Abbreviation SignSelection := SignSelection.t.

(** The onchain signature share triple. *)
Module ShareTriple.
Record t := mk { r : Point; z : U256; l : U256 }.
End ShareTriple.

Module Callback.
Record t := mk { target : Address; context : Bytes }.
End Callback.
Abbreviation Callback := Callback.t.

(** ** Events *)

Module Consensus.
Module EpochProposed.
Record t := mk {
  activeEpoch : N; proposedEpoch : N; rolloverBlock : N;
  groupId : B256; groupKey : Point;
}.
End EpochProposed.
Module EpochStaged.
Record t := mk {
  activeEpoch : N; proposedEpoch : N; rolloverBlock : N;
  groupId : B256; groupKey : Point; signatureId : B256;
  attestation : Signature.t;
}.
End EpochStaged.
Module TransactionProposed.
Record t := mk {
  safeTxHash : B256; safeId : B256; oracle : Address;
  epoch : N; oracleData : Bytes; transaction : SafeTransaction;
}.
End TransactionProposed.
Module TransactionAttested.
Record t := mk {
  safeTxHash : B256; safeId : B256; oracle : Address; epoch : N;
  oracleDataHash : B256; signatureId : B256; attestation : Signature.t;
}.
End TransactionAttested.
Module ValidatorStakerSet.
Record t := mk { validator : Address; staker : Address }.
End ValidatorStakerSet.

Inductive ConsensusEvents :=
  | EvEpochProposed (event : EpochProposed.t)
  | EvEpochStaged (event : EpochStaged.t)
  | EvTransactionProposed (event : TransactionProposed.t)
  | EvTransactionAttested (event : TransactionAttested.t)
  | EvValidatorStakerSet (event : ValidatorStakerSet.t).

(** The calls the validator encodes. *)
Inductive ConsensusCalls :=
  | stageEpochCall (proposedEpoch rolloverBlock : N) (groupId signatureId : B256)
  | attestTransactionCall (epoch : N) (oracle : Address) (oracleDataHash : B256)
      (chainId : U256) (safe : Address) (safeTxStructHash signatureId : B256)
  | setValidatorStakerCall (staker : Address).
End Consensus.

Module Coordinator.
Module KeyGen.
Record t := mk {
  gid : B256; participants : B256; count : N; threshold : N; context : B256;
}.
End KeyGen.
Module KeyGenCommitted.
Record t := mk {
  gid : B256; participant : Address; commitment : KeyGenCommitment.t;
  committed : bool;
}.
End KeyGenCommitted.
Module KeyGenSecretShared.
Record t := mk {
  gid : B256; participant : Address; share : KeyGenSecretShare.t; shared : bool;
}.
End KeyGenSecretShared.
Module KeyGenConfirmed.
Record t := mk { gid : B256; participant : Address; confirmed : bool }.
End KeyGenConfirmed.
Module KeyGenComplained.
Record t := mk {
  gid : B256; plaintiff : Address; accused : Address; compromised : bool;
}.
End KeyGenComplained.
Module KeyGenComplaintResponded.
Record t := mk {
  gid : B256; plaintiff : Address; accused : Address; secretShare : U256;
}.
End KeyGenComplaintResponded.
Module Preprocess.
Record t := mk {
  gid : B256; participant : Address; chunk : N; commitment : B256;
}.
End Preprocess.
Module Sign.
Record t := mk {
  initiator : Address; gid : B256; message : B256; sid : B256; sequence : N;
}.
End Sign.
Module SignRevealedNonces.
Record t := mk { sid : B256; participant : Address; nonces : SignNonces }.
End SignRevealedNonces.
Module SignShared.
Record t := mk {
  sid : B256; selectionRoot : B256; participant : Address; z : U256;
}.
End SignShared.
Module SignCompleted.
Record t := mk { sid : B256; selectionRoot : B256; signature : Signature.t }.
End SignCompleted.

Inductive CoordinatorEvents :=
  | EvKeyGen (event : KeyGen.t)
  | EvKeyGenCommitted (event : KeyGenCommitted.t)
  | EvKeyGenSecretShared (event : KeyGenSecretShared.t)
  | EvKeyGenConfirmed (event : KeyGenConfirmed.t)
  | EvKeyGenComplained (event : KeyGenComplained.t)
  | EvKeyGenComplaintResponded (event : KeyGenComplaintResponded.t)
  | EvPreprocess (event : Preprocess.t)
  | EvSign (event : Sign.t)
  | EvSignRevealedNonces (event : SignRevealedNonces.t)
  | EvSignShared (event : SignShared.t)
  | EvSignCompleted (event : SignCompleted.t).

Inductive CoordinatorCalls :=
  | keyGenAndCommitCall (participants : B256) (count threshold : N)
      (context : B256) (poap : list B256) (commitment : KeyGenCommitment.t)
  | keyGenSecretShareCall (gid : B256) (share : KeyGenSecretShare.t)
  | keyGenComplainCall (gid : B256) (accused : Address)
  | keyGenComplaintResponseCall (gid : B256) (plaintiff : Address) (secretShare : U256)
  | keyGenConfirmCall (gid : B256)
  | keyGenConfirmWithCallbackCall (gid : B256) (callback : Callback)
  | preprocessCall (gid commitment : B256)
  | signCall (gid message : B256)
  | signRevealNoncesCall (sid : B256) (nonces : SignNonces) (proof : list B256)
  | signShareWithCallbackCall (sid : B256) (selection : SignSelection)
      (share : ShareTriple.t) (proof : list B256) (callback : Callback).
End Coordinator.

Module Oracle.
Module OracleResult.
Record t := mk {
  requestId : B256; proposer : Address; result : Bytes; approved : bool;
}.
End OracleResult.

Inductive OracleEvents := EvOracleResult (event : OracleResult.t).
End Oracle.
