(* ===== verification/Alloy.v ===== *)
(** * The [alloy] library

    The Ethereum primitives the services take from the third-party [alloy]
    crates, as parameters: the Keccak-256 hash, ABI encoding of the generated
    call types, and EIP-712 hashing of the generated struct types. *)

From S2P Require Import Prelude.
From S2P Require Import Bytes.
From S2P Require Import Bindings.

(** [Eip712Domain::new(None, None, chain_id, verifying_contract, None)]. *)
Module Eip712Domain.
Record t := mk { chain_id : U256; verifying_contract : Address }.
End Eip712Domain.

(** The EIP-712 structs declared with [sol!] in [consensus/hashing.rs]. *)
Module SafeTx.
Record t := mk {
  to : Address;
  value : U256;
  data : Bytes;
  operation : N;
  safeTxGas : U256;
  baseGas : U256;
  gasPrice : U256;
  gasToken : Address;
  refundReceiver : Address;
  nonce : U256;
}.
End SafeTx.

Module EpochRolloverStruct.
Record t := mk {
  activeEpoch : N;
  proposedEpoch : N;
  rolloverBlock : N;
  groupKeyX : U256;
  groupKeyY : U256;
}.
End EpochRolloverStruct.

Class Alloy := {
  keccak256 : Bytes → B256;
  (** [Eip712Domain::separator]. *)
  separator : Eip712Domain.t → B256;
  (** [TransactionProposal::eip712_encode_type().as_bytes()]. *)
  transaction_proposal_encode_type : Bytes;
  (** [SafeTx::eip712_hash_struct] and [SafeTx::eip712_signing_hash]. *)
  safe_tx_eip712_hash_struct : SafeTx.t → B256;
  safe_tx_eip712_signing_hash : SafeTx.t → Eip712Domain.t → B256;
  (** [EpochRollover::eip712_signing_hash]. *)
  epoch_rollover_eip712_signing_hash : EpochRolloverStruct.t → Eip712Domain.t → B256;
  (** [SolCall::abi_encode] of the generated calls. *)
  coordinator_abi_encode : Coordinator.CoordinatorCalls → Bytes;
  consensus_abi_encode : Consensus.ConsensusCalls → Bytes;
  (** [SolValue::abi_encode] of a [(u64, u64)] tuple. *)
  u64_pair_abi_encode : N * N → Bytes;
}.
