(* ===== verification/Merkle.v ===== *)
(** * Merkle trees: [merkle.rs]

    Sorted-pair Keccak-256 Merkle trees: building the levels, roots, inclusion
    proofs and their verification. *)

From S2P Require Import Prelude.
From S2P Require Import Bytes.
From S2P Require Import Bindings.
From S2P Require Import Alloy.

Section merkle.
Context {AL : Alloy}.

(** [MerkleTree(Vec<Vec<B256>>)]: the levels, leaves first. *)
Record MerkleTree := { levels : list (list B256) }.

(** [MerkleRoot] is a transparent wrapper of its digest. *)

Definition hash_pair (a b : B256) : B256 :=
  let '(left_, right_) := if decide (a ≤ b) then (a, b) else (b, a) in
  keccak256 (to_be_bytes 32 left_ ++ to_be_bytes 32 right_).

(** [level.get(i).copied().unwrap_or(B256::ZERO)]. *)
Definition node_at (level : list B256) (i : nat) : B256 :=
  default B256_ZERO (level !! i).

(** [len.div_ceil(2)]. *)
Definition div_ceil2 (n : nat) : nat := Nat.div2 (S n).

Definition next_level (level : list B256) : list B256 :=
  (λ i, hash_pair (node_at level (i * 2)) (node_at level (i * 2 + 1)))
    <$> seq 0 (div_ceil2 (length level)).

(** The [while] loop of [build]: pushes levels until the last one has at most
    one node. [fuel] bounds the number of levels pushed; the length of the
    leaf level is enough (see [build_levels_last]). *)
Fixpoint build_levels (fuel : nat) (level : list B256) : list (list B256) :=
  match fuel with
  | O => [level]
  | S fuel =>
      if decide (1 < length level)%nat
      then level :: build_levels fuel (next_level level)
      else [level]
  end.

Definition build (leaves : list B256) : MerkleTree :=
  {| levels := build_levels (length leaves) leaves |}.

Definition height (t : MerkleTree) : nat := length (levels t).

Definition root (t : MerkleTree) : B256 :=
  default B256_ZERO (last (levels t) ≫= head).

(** The loop of [proof], over the levels below the root. [current ^ 1] flips
    the lowest bit of the index. *)
Definition sibling_index (current : nat) : nat := Nat.lxor current 1.

Fixpoint proof_loop (lvls : list (list B256)) (current : nat) : list B256 :=
  match lvls with
  | [] => []
  | level :: lvls =>
      node_at level (sibling_index current) :: proof_loop lvls (Nat.div2 current)
  end.

Definition proof (t : MerkleTree) (index : nat) : list B256 :=
  proof_loop (take (height t - 1) (levels t)) index.

(** [MerkleRoot::verify]. *)
Definition verify (r : B256) (leaf : B256) (prf : list B256) : bool :=
  bool_decide (r = foldl hash_pair leaf prf).

Lemma hash_pair_comm a b : hash_pair a b = hash_pair b a.
Proof.
  unfold hash_pair. case_decide; case_decide; try lia.
  by replace a with b by lia.
Qed.

Lemma length_next_level l : length (next_level l) = div_ceil2 (length l).
Proof. unfold next_level. by rewrite length_fmap, length_seq. Qed.

Lemma div_ceil2_bounds n : (2 * div_ceil2 n = n ∨ 2 * div_ceil2 n = S n)%nat.
Proof.
  unfold div_ceil2. destruct (Nat.Even_or_Odd (S n)) as [H|H].
  - apply Nat.Even_double in H. unfold Nat.double in H. lia.
  - apply Nat.Odd_double in H. unfold Nat.double in H. lia.
Qed.

Lemma div_ceil2_lt n : (1 < n → div_ceil2 n < n)%nat.
Proof. pose proof (div_ceil2_bounds n). lia. Qed.

Lemma node_at_next_level l i :
  (i < div_ceil2 (length l))%nat →
  node_at (next_level l) i = hash_pair (node_at l (i * 2)) (node_at l (i * 2 + 1)).
Proof.
  intros Hi. unfold node_at at 1, next_level.
  by rewrite list_lookup_fmap, lookup_seq_lt by done.
Qed.

(** Flipping the lowest bit moves between the two children of a parent. *)
Lemma lxor_1_even k : Nat.lxor (2 * k) 1 = (2 * k + 1)%nat.
Proof.
  apply Nat.bits_inj. intros [|n]; rewrite Nat.lxor_spec.
  - by rewrite Nat.testbit_even_0, Nat.testbit_odd_0.
  - rewrite Nat.testbit_even_succ, Nat.testbit_odd_succ by lia.
    replace 1%nat with (2 * 0 + 1)%nat by lia.
    by rewrite Nat.testbit_odd_succ, Nat.bits_0, xorb_false_r by lia.
Qed.

Lemma sibling_index_spec i :
  sibling_index i = if Nat.odd i then (i - 1)%nat else (i + 1)%nat.
Proof.
  unfold sibling_index. pose proof (Nat.div2_odd i) as Hi.
  destruct (Nat.odd i); simpl Nat.b2n in Hi; remember (Nat.div2 i) as k; subst i.
  - rewrite <-lxor_1_even at 1.
    rewrite Nat.lxor_assoc, Nat.lxor_nilpotent, Nat.lxor_0_r. lia.
  - by rewrite Nat.add_0_r, lxor_1_even.
Qed.

(** A node and its sibling hash to their parent, in either order. *)
Lemma hash_sibling l i :
  (i < length l)%nat →
  hash_pair (node_at l i) (node_at l (sibling_index i)) =
    node_at (next_level l) (Nat.div2 i).
Proof.
  intros Hi. pose proof (div_ceil2_bounds (length l)) as Hb.
  pose proof (Nat.div2_odd i) as Hodd. rewrite sibling_index_spec.
  destruct (Nat.odd i) eqn:E; simpl in Hodd; rewrite node_at_next_level by lia.
  - rewrite hash_pair_comm. f_equal; f_equal; lia.
  - f_equal; f_equal; lia.
Qed.

Lemma length_proof_loop lvls i : length (proof_loop lvls i) = length lvls.
Proof. revert i. induction lvls; intros i; simpl; auto. Qed.

Lemma build_levels_ne fuel l : build_levels fuel l ≠ [].
Proof. destruct fuel; simpl; [done|]. by case_decide. Qed.

(** The loop stops by itself: with as much fuel as leaves the last level is
    the only one with at most one node. *)
Lemma build_levels_last fuel l :
  (length l ≤ fuel)%nat →
  ∃ r, last (build_levels fuel l) = Some r ∧ (length r ≤ 1)%nat ∧
       (l ≠ [] → length r = 1%nat).
Proof.
  revert l. induction fuel as [|fuel IH]; intros l Hl; simpl.
  - exists l. split_and!; [done|lia|]. destruct l; simpl in *; [done|lia].
  - case_decide as Hlen.
    + destruct (IH (next_level l)) as (r & Hr & Hr1 & Hne).
      { rewrite length_next_level. pose proof (div_ceil2_lt (length l)). lia. }
      exists r. split_and!; [|done|].
      * rewrite last_cons, Hr. done.
      * intros _. apply Hne. intros E. apply (f_equal length) in E.
        rewrite length_next_level in E. pose proof (div_ceil2_bounds (length l)).
        simpl in E. lia.
    + exists l. split_and!; [done|lia|]. destruct l; simpl in *; [done|lia].
Qed.

(** The levels of a full tree. *)
Lemma length_build_levels k fuel l :
  length l = (2 ^ k)%nat → (k ≤ fuel)%nat → length (build_levels fuel l) = S k.
Proof.
  revert fuel l. induction k as [|k IH]; intros [|fuel] l Hl Hk; simpl in *; try lia;
    case_decide as Hlen; simpl; try lia.
  - f_equal. apply IH; [|lia]. rewrite length_next_level, Hl.
    pose proof (div_ceil2_bounds (2 ^ k + (2 ^ k + 0))). lia.
  - pose proof (Nat.pow_nonzero 2 k). lia.
Qed.

(** Folding the proof from a node climbs to the root. *)
Lemma fold_proof fuel l i :
  (length l ≤ fuel)%nat → (i < length l)%nat →
  let lvls := build_levels fuel l in
  foldl hash_pair (node_at l i) (proof_loop (take (length lvls - 1) lvls) i) =
    default B256_ZERO (last lvls ≫= head).
Proof.
  revert l i. induction fuel as [|fuel IH]; intros l i Hl Hi; simpl; [lia|].
  case_decide as Hlen.
  - assert (0 < length (build_levels fuel (next_level l)))%nat as Hpos.
    { pose proof (build_levels_ne fuel (next_level l)).
      destruct (build_levels _ _); simpl; [done|lia]. }
    assert (Nat.div2 i < length (next_level l))%nat as Hi'.
    { rewrite length_next_level. pose proof (div_ceil2_bounds (length l)).
      pose proof (Nat.div2_odd i). destruct (Nat.odd i); simpl in *; lia. }
    rewrite length_cons, Nat.sub_succ, Nat.sub_0_r.
    destruct (length (build_levels fuel (next_level l))) as [|n] eqn:E; [lia|].
    rewrite firstn_cons. simpl proof_loop. simpl foldl.
    rewrite hash_sibling by done.
    pose proof (IH (next_level l) (Nat.div2 i)) as IH'. cbv zeta in IH'.
    rewrite E in IH'. simpl in IH'. rewrite Nat.sub_0_r in IH'. rewrite IH'.
    + rewrite last_cons.
      destruct (build_levels_last fuel (next_level l)) as (r & -> & _); [|done].
      rewrite length_next_level. pose proof (div_ceil2_lt (length l)). lia.
    + rewrite length_next_level. pose proof (div_ceil2_lt (length l)). lia.
    + done.
  - simpl. assert (i = 0)%nat as -> by lia. unfold node_at. by destruct l.
Qed.

(** A leaf verifies with the proof generated for its index. *)
Lemma merkle_leaf_verifies leaves i leaf :
  leaves !! i = Some leaf →
  verify (root (build leaves)) leaf (proof (build leaves) i) = true.
Proof.
  intros Hi. unfold verify, root, proof, height, build; simpl.
  apply bool_decide_eq_true_2.
  pose proof (lookup_lt_Some _ _ _ Hi) as Hlen.
  rewrite <-(fold_proof (length leaves) leaves i) by done.
  f_equal. unfold node_at. by rewrite Hi.
Qed.
End merkle.

(** ** Properties *)

Section merkle_properties.
Context {AL : Alloy}.

(** Every leaf of a built tree verifies against the tree's root with the
    inclusion proof generated for its index, and the proof has one sibling
    per level below the root. *)
Theorem merkle_proof_verifies (leaves : list B256) (i : nat) (leaf : B256) :
  leaves !! i = Some leaf →
  verify (root (build leaves)) leaf (proof (build leaves) i) = true ∧
  length (proof (build leaves) i) = (height (build leaves) - 1)%nat.
Proof.
  intros Hi. split; [by apply merkle_leaf_verifies|].
  unfold proof. rewrite length_proof_loop, length_take. unfold height. lia.
Qed.
End merkle_properties.
