(* ===== verification/Group.v ===== *)
(** * Key generation groups: [consensus/group.rs]

    The participant set of an epoch, the group derived from it (threshold,
    participants tree, identifier and context), and the exclusion sets used to
    restart a key generation. *)

From S2P Require Import Prelude.
From S2P Require Import Bytes.
From S2P Require Import Epoch.
From S2P Require Import Bindings.
From S2P Require Import Alloy.
From S2P Require Import Merkle.

(** [config::Participant]. *)
Module Participant.
Record t := mk {
  address : Address;
  active_from : N;
  active_before : option positive;
}.
End Participant.

Module Group.
Record t := mk {
  id : B256;
  root : B256;
  participants : gset Address;
  excluded : gset Address;
  count : N;
  threshold : N;
  context : B256;
}.

(** [Group::parameters] and [Group::size]. *)
Definition parameters (g : t) : B256 * N * N * B256 :=
  (root g, count g, threshold g, context g).
Definition size (g : t) : N * N := (count g, threshold g).

(** [Group::also_exclude]: the excluded addresses and [also_excluded]. *)
Definition also_exclude (g : t) (also_excluded : gset Address) : gset Address :=
  excluded g ∪ also_excluded.

(** [Group::exclude_all_others]: the excluded addresses and the participants
    that are not in [include_only]. *)
Definition exclude_all_others (g : t) (include_only : list Address) : gset Address :=
  let to_exclude :=
    foldl (λ s include, s ∖ {[ include ]}) (participants g) include_only in
  also_exclude g to_exclude.
End Group.

Module ParticipantSet.
Record t := mk {
  addresses : gset Address;
  excluded : gset Address;
  context : B256;
}.
End ParticipantSet.
Abbreviation ParticipantSet := ParticipantSet.t.

(** [group::Epoch]: what a participant set is computed for. *)
Inductive GroupEpoch :=
  | EpochGenesis (salt : B256)
  | EpochNumber (consensus : Address) (number : positive) (excluded : gset Address).

(** The FROST signing threshold of a group of [count] participants. *)
Definition group_threshold (count : N) : N := count / 2 + 1.

(** The minimum number of participants of a viable group. The computation is
    in [u32]; the result is cast to [u16]. *)
Definition min_participants (count : N) : N :=
  let min := count * 2 / 3 + 1 in
  N.max 2 (as_u16 min).

(** [u16::try_from(len)]. *)
Definition u16_try_from (x : N) : option N :=
  if decide (x < u16_modulus) then Some x else None.

Section group.
Context {AL : Alloy}.

(** The participants tree over the sorted, left-padded addresses. *)
Definition participants_tree (participants : gset Address) : MerkleTree :=
  build (into_word <$> btree_elements participants).

(** The group identifier: Keccak-256 of the ABI-encoded configuration with
    the low 64 bits ([id.0[24..]]) cleared. *)
Definition group_id_preimage (participants : B256) (count threshold : N)
    (context : B256) : Bytes :=
  to_be_bytes 32 participants ++
  zeros 30 ++ to_be_bytes 2 count ++
  zeros 30 ++ to_be_bytes 2 threshold ++
  to_be_bytes 32 context.

Definition clear_low_64 (id : B256) : B256 := N.shiftl (N.shiftr id 64) 64.

Definition group_id (participants : B256) (count threshold : N) (context : B256) : B256 :=
  clear_low_64 (keccak256 (group_id_preimage participants count threshold context)).

(** [encodePacked(uint32 version, address consensus, uint64 epoch)]. *)
Definition VERSION : N := 0.
Definition group_context (consensus : Address) (epoch : N) : B256 :=
  from_be_bytes
    (to_be_bytes 4 VERSION ++ to_be_bytes 20 consensus ++ to_be_bytes 8 epoch).

(** The ASCII bytes of ["genesis"]. *)
Definition genesis_tag : Bytes := [x67; x65; x6e; x65; x73; x69; x73]%byte.

Definition genesis_context (salt : B256) : B256 :=
  if decide (salt = B256_ZERO) then B256_ZERO
  else keccak256 (genesis_tag ++ to_be_bytes 32 salt).

(** [p.active_from <= number && p.active_before.is_none_or(|b| number < b)]. *)
Definition active_in (number : positive) (p : Participant.t) : bool :=
  bool_decide (Participant.active_from p ≤ nonzero_get number) &&
  match Participant.active_before p with
  | None => true
  | Some before => bool_decide (nonzero_get number < nonzero_get before)
  end.

Definition active_in_genesis (p : Participant.t) : bool :=
  bool_decide (Participant.active_from p = 0).

(** [.iter().filter(f).map(|p| p.address).collect::<BTreeSet<_>>()]. *)
Definition collect_addresses (f : Participant.t → bool)
    (ps : list Participant.t) : gset Address :=
  list_to_set (Participant.address <$> filter (λ p, Is_true (f p)) ps).

Definition participants_set (participants : list Participant.t)
    (epoch : GroupEpoch) : option ParticipantSet :=
  let '(addresses, excluded, context) :=
    match epoch with
    | EpochGenesis salt =>
        (collect_addresses active_in_genesis participants, ∅, genesis_context salt)
    | EpochNumber consensus number excluded =>
        (collect_addresses (active_in number) participants, excluded,
         group_context consensus (nonzero_get number))
    end in
  total ← u16_try_from (set_len addresses);
  let addresses := addresses ∖ excluded in
  count ← u16_try_from (set_len addresses);
  if decide (min_participants total ≤ count)
  then Some (ParticipantSet.mk addresses excluded context)
  else None.

(** [ParticipantSet::group_and_participants_tree]. The [u16] conversion
    [expect]s a length that fits; [participants_set] only builds such sets. *)
Definition group_and_participants_tree (ps : ParticipantSet) : Group.t * MerkleTree :=
  let tree := participants_tree (ParticipantSet.addresses ps) in
  let count := set_len (ParticipantSet.addresses ps) in
  let threshold := group_threshold count in
  let context := ParticipantSet.context ps in
  (Group.mk (group_id (root tree) count threshold context) (root tree)
     (ParticipantSet.addresses ps) (ParticipantSet.excluded ps)
     count threshold context, tree).

Definition group_of (ps : ParticipantSet) : Group.t :=
  (group_and_participants_tree ps).1.

(** [self.addresses.range(..address).count()]. *)
Definition rank_in (addresses : gset Address) (address : Address) : nat :=
  length (filter (λ a, a < address) (btree_elements addresses)).

Definition participate_as (ps : ParticipantSet) (address : Address)
    : option (Group.t * list B256) :=
  if decide (address ∈ ParticipantSet.addresses ps) then
    let index := rank_in (ParticipantSet.addresses ps) address in
    let '(group, tree) := group_and_participants_tree ps in
    Some (group, proof tree index)
  else None.
End group.

(** ** Lemmas *)

Lemma foldl_difference (l : list Address) (s : gset Address) :
  foldl (λ s include, s ∖ {[ include ]}) s l = s ∖ list_to_set l.
Proof. revert s. induction l as [|x l IH]; intros s; simpl; [set_solver|]. rewrite IH. set_solver. Qed.

Lemma exclude_all_others_spec g l :
  Group.exclude_all_others g l = Group.excluded g ∪ (Group.participants g ∖ list_to_set l).
Proof. unfold Group.exclude_all_others, Group.also_exclude. by rewrite foldl_difference. Qed.

Lemma u16_try_from_Some x y : u16_try_from x = Some y ↔ y = x ∧ x < u16_modulus.
Proof. unfold u16_try_from. case_decide; naive_solver. Qed.

Section group_lemmas.
Context {AL : Alloy}.

(** The default participants of an epoch, before any exclusion. *)
Definition default_addresses (participants : list Participant.t)
    (epoch : GroupEpoch) : gset Address :=
  match epoch with
  | EpochGenesis _ => collect_addresses active_in_genesis participants
  | EpochNumber _ number _ => collect_addresses (active_in number) participants
  end.
Definition epoch_excluded (epoch : GroupEpoch) : gset Address :=
  match epoch with
  | EpochGenesis _ => ∅
  | EpochNumber _ _ excluded => excluded
  end.

Lemma participants_set_Some ps epoch s :
  participants_set ps epoch = Some s →
  ParticipantSet.addresses s = default_addresses ps epoch ∖ epoch_excluded epoch ∧
  ParticipantSet.excluded s = epoch_excluded epoch ∧
  set_len (default_addresses ps epoch) < u16_modulus ∧
  min_participants (set_len (default_addresses ps epoch)) ≤
    set_len (ParticipantSet.addresses s).
Proof.
  unfold participants_set. destruct epoch as [salt|consensus number excluded]; simpl;
    intros (total & [-> Htot]%u16_try_from_Some & H)%bind_Some;
    apply bind_Some in H as (count & [-> Hcount]%u16_try_from_Some & H);
    case_decide; simplify_eq/=; done.
Qed.

Lemma participants_set_small ps epoch s :
  participants_set ps epoch = Some s → set_len (ParticipantSet.addresses s) < u16_modulus.
Proof.
  unfold participants_set. intros H.
  destruct epoch; simpl in H;
    apply bind_Some in H as (? & _ & H);
    apply bind_Some in H as (? & [-> Hlt]%u16_try_from_Some & H);
    case_decide; by simplify_eq/=.
Qed.

Lemma participants_set_None ps epoch :
  let total := set_len (default_addresses ps epoch) in
  let count := set_len (default_addresses ps epoch ∖ epoch_excluded epoch) in
  participants_set ps epoch = None ↔
  u16_modulus ≤ total ∨ u16_modulus ≤ count ∨ count < min_participants total.
Proof.
  unfold participants_set, u16_try_from.
  destruct epoch as [salt|consensus number excluded]; simpl;
    repeat (case_decide; simpl); split; intros; try done; try lia; naive_solver lia.
Qed.

Lemma group_of_participants s : Group.participants (group_of s) = ParticipantSet.addresses s.
Proof. done. Qed.
Lemma group_of_excluded s : Group.excluded (group_of s) = ParticipantSet.excluded s.
Proof. done. Qed.
Lemma group_of_count s : Group.count (group_of s) = set_len (ParticipantSet.addresses s).
Proof. done. Qed.
Lemma group_of_threshold s :
  Group.threshold (group_of s) = group_threshold (set_len (ParticipantSet.addresses s)).
Proof. done. Qed.

Lemma participate_as_Some s a g p :
  participate_as s a = Some (g, p) →
  a ∈ ParticipantSet.addresses s ∧ g = group_of s.
Proof.
  unfold participate_as, group_of.
  case_decide; [|done]. intros [= <- <-]. done.
Qed.

Lemma participate_as_None s a :
  participate_as s a = None ↔ a ∉ ParticipantSet.addresses s.
Proof. unfold participate_as. case_decide; naive_solver. Qed.
End group_lemmas.

Lemma min_participants_fits n : n < u16_modulus → n * 2 / 3 + 1 < u16_modulus.
Proof.
  unfold u16_modulus. intros Hn. div_facts (n * 2) 3. lia.
Qed.

Lemma min_participants_eq n :
  n < u16_modulus → min_participants n = N.max 2 (n * 2 / 3 + 1).
Proof.
  intros Hn. unfold min_participants. by rewrite as_u16_small by (by apply min_participants_fits).
Qed.

(** The rank of an element indexes it in the sorted list. *)
Lemma lookup_rank (l : list Address) a :
  StronglySorted key_le l → NoDup l → a ∈ l →
  l !! length (filter (λ b, b < a) l) = Some a.
Proof.
  induction l as [|x l IH]; [set_solver|].
  intros [Hx Hs]%StronglySorted_cons [Hnx Hnd]%NoDup_cons Ha.
  rewrite filter_cons. rewrite Forall_forall in Hx. case_decide as Hlt.
  - simpl. apply IH; [done..|]. apply elem_of_cons in Ha as [->|Ha]; [lia|done].
  - assert (a = x) as ->.
    { apply elem_of_cons in Ha as [->|Ha]; [done|].
      specialize (Hx _ Ha). unfold key_le in Hx. simpl in Hx.
      destruct (decide (a = x)) as [->|]; [done|lia]. }
    assert (filter (λ b, b < x) l = []) as ->; [|done].
    apply elem_of_nil_inv. intros b [Hb Hin]%list_elem_of_filter.
    specialize (Hx _ Hin). unfold key_le in Hx. simpl in Hx. lia.
Qed.

#[export] Instance key_le_trans_N : Transitive (key_le (K := N)).
Proof. intros x y z. unfold key_le. lia. Qed.
#[export] Instance key_le_total_N : Total (key_le (K := N)).
Proof. intros x y. unfold key_le. lia. Qed.

Lemma rank_in_lookup s a :
  a ∈ s → btree_elements s !! rank_in s a = Some a.
Proof.
  intros Ha. unfold rank_in. apply lookup_rank.
  - apply StronglySorted_merge_sort; apply _.
  - apply NoDup_btree_elements.
  - by rewrite elem_of_btree_elements.
Qed.

Section group_tolerance.
Context {AL : Alloy}.

Lemma participants_tolerate ps epoch s M :
  participants_set ps epoch = Some s →
  3 * M ≤ set_len (default_addresses ps epoch) →
  M < Group.threshold (group_of s) ∧
  Group.count (group_of s) < 2 * Group.threshold (group_of s) ∧
  Group.threshold (group_of s) ≤ Group.count (group_of s) ∧
  2 ≤ Group.count (group_of s).
Proof.
  intros (_ & _ & Htot & Hmin)%participants_set_Some HM.
  rewrite min_participants_eq in Hmin by done.
  rewrite group_of_threshold, group_of_count. unfold group_threshold.
  revert Hmin. div_facts (set_len (default_addresses ps epoch) * 2) 3.
  div_facts (set_len (ParticipantSet.addresses s)) 2. lia.
Qed.
End group_tolerance.

(** ** Properties *)

Section group_properties.
Context {AL : Alloy}.

(** The safety margin the module documentation derives: when a
    participant set is accepted, any [M] malicious participants that are at
    most a third of the epoch's default participants stay below the signing
    threshold, the threshold is a strict majority of the group, and the
    group can reach it. *)
Theorem group_tolerates_third ps epoch s M :
  participants_set ps epoch = Some s →
  3 * M ≤ set_len (default_addresses ps epoch) →
  M < Group.threshold (group_of s) ∧
  Group.count (group_of s) < 2 * Group.threshold (group_of s) ∧
  Group.threshold (group_of s) ≤ Group.count (group_of s) ∧
  2 ≤ Group.count (group_of s).
Proof.
  intros. by apply (participants_tolerate ps epoch).
Qed.

(** Quorum intersection: two selections of group members that both
    reach the signing threshold share a member, so selections that share no
    signer cannot both be large enough. *)
Theorem selections_intersect ps epoch s (A B : gset Address) :
  participants_set ps epoch = Some s →
  A ⊆ Group.participants (group_of s) →
  B ⊆ Group.participants (group_of s) →
  Group.threshold (group_of s) ≤ set_len A →
  Group.threshold (group_of s) ≤ set_len B →
  A ∩ B ≠ ∅.
Proof.
  intros Hs HA HB HTA HTB Hdisj.
  rewrite group_of_threshold in HTA, HTB. unfold group_threshold in *.
  assert (size (A ∪ B) ≤ size (ParticipantSet.addresses s))%nat as Hle.
  { apply subseteq_size. rewrite group_of_participants in HA, HB. set_solver. }
  rewrite size_union in Hle by set_solver.
  unfold set_len in *. revert HTA HTB.
  div_facts (N.of_nat (size (ParticipantSet.addresses s))) 2. lia.
Qed.

(** A participant's proof of participation verifies, for its padded
    address, against the participants root of the group it joins; an address
    outside the set gets no group. *)
Theorem participation_proof_verifies s a :
  match participate_as s a with
  | Some (g, poap) =>
      a ∈ ParticipantSet.addresses s ∧
      g = group_of s ∧
      verify (Group.root g) (into_word a) poap = true
  | None => a ∉ ParticipantSet.addresses s
  end.
Proof.
  unfold participate_as. case_decide as Ha; [|done]. simpl. split_and!; [done..|].
  unfold participants_tree. apply merkle_leaf_verifies.
  by rewrite list_lookup_fmap, rank_in_lookup.
Qed.

(** Key generation contexts identify the consensus contract and the
    epoch number they were derived for. *)
Theorem group_context_injective c1 c2 e1 e2 :
  c1 < 2 ^ 160 → c2 < 2 ^ 160 → e1 < 2 ^ 64 → e2 < 2 ^ 64 →
  group_context c1 e1 = group_context c2 e2 → c1 = c2 ∧ e1 = e2.
Proof.
  intros Hc1 Hc2 He1 He2 E.
  apply from_be_bytes_inj in E; [|by rewrite !length_app, !length_to_be_bytes].
  split_bytes E. split.
  - by apply (to_be_bytes_inj 20).
  - by apply (to_be_bytes_inj 8).
Qed.
End group_properties.
