(* ===== verification/Hashing.v ===== *)
(** * Packet hashing: [consensus/hashing.rs]

    The Safe transaction hashes and the consensus-domain hashes a validator
    group attests to. *)

From S2P Require Import Prelude.
From S2P Require Import Bytes.
From S2P Require Import Epoch.
From S2P Require Import Bindings.
From S2P Require Import Alloy.

Section hashing.
Context {AL : Alloy}.

(** [impl From<&SafeTransaction> for SafeTx]. *)
Definition safe_tx_from (tx : SafeTransaction) : SafeTx.t := {|
  SafeTx.to := SafeTransaction.to tx;
  SafeTx.value := SafeTransaction.value tx;
  SafeTx.data := SafeTransaction.data tx;
  SafeTx.operation := operation_as_u8 (SafeTransaction.operation tx);
  SafeTx.safeTxGas := SafeTransaction.safeTxGas tx;
  SafeTx.baseGas := SafeTransaction.baseGas tx;
  SafeTx.gasPrice := SafeTransaction.gasPrice tx;
  SafeTx.gasToken := SafeTransaction.gasToken tx;
  SafeTx.refundReceiver := SafeTransaction.refundReceiver tx;
  SafeTx.nonce := SafeTransaction.nonce tx;
|}.

Definition safe_tx_struct_hash (tx : SafeTransaction) : B256 :=
  safe_tx_eip712_hash_struct (safe_tx_from tx).

Definition safe_tx_hash (tx : SafeTransaction) : B256 :=
  let domain :=
    Eip712Domain.mk (SafeTransaction.chainId tx) (SafeTransaction.safe tx) in
  safe_tx_eip712_signing_hash (safe_tx_from tx) domain.

(** [ConsensusDomain(Eip712Domain)] and [ConsensusDomain::new]. *)
Definition ConsensusDomain : Type := Eip712Domain.t.
Definition consensus_domain_new (chain : N) (consensus : Address) : ConsensusDomain :=
  Eip712Domain.mk chain consensus.

(** The 160-byte struct preimage and the 66-byte message preimage of
    [transaction_proposal_hash]. *)
Definition transaction_proposal_struct (epoch : EpochId) (oracle : Address)
    (oracle_data_hash safe_tx_hash : B256) : Bytes :=
  let type_hash := keccak256 transaction_proposal_encode_type in
  to_be_bytes 32 type_hash ++
  to_be_bytes 32 (EpochId.raw_value epoch) ++
  to_be_bytes 32 (into_word oracle) ++
  to_be_bytes 32 oracle_data_hash ++
  to_be_bytes 32 safe_tx_hash.

Definition eip712_message (domain : ConsensusDomain) (struct_hash : B256) : Bytes :=
  [x19; x01] ++ to_be_bytes 32 (separator domain) ++ to_be_bytes 32 struct_hash.

Definition transaction_proposal_hash (domain : ConsensusDomain) (epoch : EpochId)
    (oracle : Address) (oracle_data_hash safe_tx_hash : B256) : B256 :=
  let struct_hash :=
    keccak256 (transaction_proposal_struct epoch oracle oracle_data_hash safe_tx_hash) in
  keccak256 (eip712_message domain struct_hash).

Definition transaction_packet_hash (domain : ConsensusDomain) (epoch : EpochId)
    (oracle : Address) (oracle_data : Bytes) (tx : SafeTransaction) : B256 :=
  transaction_proposal_hash domain epoch oracle (keccak256 oracle_data) (safe_tx_hash tx).

Definition epoch_rollover_hash (domain : ConsensusDomain) (active_epoch : EpochId)
    (proposed_epoch : positive) (rollover_block : N) (group_key : Point) : B256 :=
  epoch_rollover_eip712_signing_hash
    {| EpochRolloverStruct.activeEpoch := EpochId.raw_value active_epoch;
       EpochRolloverStruct.proposedEpoch := nonzero_get proposed_epoch;
       EpochRolloverStruct.rolloverBlock := rollover_block;
       EpochRolloverStruct.groupKeyX := Point.x group_key;
       EpochRolloverStruct.groupKeyY := Point.y group_key |}
    domain.

(** [a] and [b] are different inputs with the same Keccak-256 digest. *)
Definition keccak_collide (a b : Bytes) : Prop :=
  a ≠ b ∧ keccak256 a = keccak256 b.

Lemma keccak_eq_or_collide a b :
  keccak256 a = keccak256 b → a = b ∨ keccak_collide a b.
Proof. destruct (decide (a = b)); [by left|]. by right. Qed.

(** [keccak256] digests are 256-bit words. *)
Definition keccak_bounded : Prop := ∀ a, keccak256 a < 2 ^ 256.
End hashing.

(** ** Properties *)

Section hashing_properties.
Context {AL : Alloy}.

(** The hand-written encoding of a transaction proposal loses nothing:
    two proposals with the same consensus-domain hash are the same proposal
    (epoch, oracle, oracle data hash and Safe transaction hash), unless the
    two struct preimages or the two message preimages built here are
    themselves a Keccak-256 collision. *)
Theorem transaction_proposal_hash_binding domain e1 e2 o1 o2 d1 d2 h1 h2 :
  let s1 := transaction_proposal_struct e1 o1 d1 h1 in
  let s2 := transaction_proposal_struct e2 o2 d2 h2 in
  keccak_bounded →
  EpochId.raw_value e1 < 2 ^ 64 → EpochId.raw_value e2 < 2 ^ 64 →
  o1 < 2 ^ 160 → o2 < 2 ^ 160 →
  d1 < 2 ^ 256 → d2 < 2 ^ 256 → h1 < 2 ^ 256 → h2 < 2 ^ 256 →
  transaction_proposal_hash domain e1 o1 d1 h1 =
    transaction_proposal_hash domain e2 o2 d2 h2 →
  (e1 = e2 ∧ o1 = o2 ∧ d1 = d2 ∧ h1 = h2) ∨
  keccak_collide s1 s2 ∨
  keccak_collide (eip712_message domain (keccak256 s1))
    (eip712_message domain (keccak256 s2)).
Proof.
  intros s1 s2 Hk He1 He2 Ho1 Ho2 Hd1 Hd2 Hh1 Hh2 E.
  assert (∀ x y n, (n ≤ 256) → x < 2 ^ n → y < 2 ^ n →
    to_be_bytes 32 x = to_be_bytes 32 y → x = y) as Hinj.
  { intros x y n Hn Hx Hy. apply (to_be_bytes_inj 32).
    - eapply N.lt_le_trans; [exact Hx|]. by apply (N.pow_le_mono_r 2 n 256).
    - eapply N.lt_le_trans; [exact Hy|]. by apply (N.pow_le_mono_r 2 n 256). }
  unfold transaction_proposal_hash in E. fold s1 s2 in E.
  apply keccak_eq_or_collide in E as [E|]; [|by auto].
  unfold eip712_message in E. apply app_inj_length in E as [_ E]; [|done].
  split_bytes E. apply (Hinj _ _ 256) in E; [|done|apply Hk..].
  apply keccak_eq_or_collide in E as [E|]; [|by auto].
  unfold s1, s2, transaction_proposal_struct, into_word in E. split_bytes E.
  left. split_and!.
  - apply (inj EpochId.raw_value). by apply (Hinj _ _ 64).
  - by apply (Hinj _ _ 160).
  - by apply (Hinj _ _ 256).
  - by apply (Hinj _ _ 256).
Qed.
End hashing_properties.
