(* ===== verification/FrostLib.v ===== *)
(** * The FROST and curve libraries

    The third-party [k256], [frost_core], [frost_secp256k1] and [rand] crates
    the [frost] modules are written over, as one class of parameters. Plain
    data carriers of those crates (packages, commitments, signatures) are
    records with the accessors the code uses; secret packages, nonces and key
    packages are opaque types with the accessors the code uses. *)

From S2P Require Import Prelude.
From S2P Require Import Bytes.

(** The errors of [frost_core::Error] the code constructs itself; the others
    the library may return are [FrostOther]. *)
Inductive FrostError : Type :=
  | UnknownIdentifier
  | IncorrectCommitment
  | IncorrectPackage
  | IncorrectNumberOfShares
  | MalformedVerifyingKey
  | InvalidIdentityElement
  | MalformedScalar
  | MalformedElement
  | FrostOther (code : N).

Class FrostLib := {
  (** Random number generators: [RngCore + CryptoRng] with explicit state. *)
  Rng : Type;
  fill_bytes : nat → Rng → Bytes * Rng;
  (** [ChaCha12Rng::from_rng] and [set_stream]. *)
  chacha_from_rng : Rng → result Rng N * Rng;
  set_stream : N → Rng → Rng;

  (** [k256::Scalar]. *)
  Scalar : Type;
  Scalar_eq_dec :: EqDecision Scalar;
  scalar_from_repr : U256 → option Scalar;
  scalar_to_bytes : Scalar → U256;
  (** [hash_to_field::<ExpandMsgXmd<Sha256>, Scalar>] for one element. *)
  hash_to_field : list Bytes → list Bytes → Scalar;

  (** [k256::ProjectivePoint]. *)
  ProjectivePoint : Type;
  ProjectivePoint_eq_dec :: EqDecision ProjectivePoint;
  point_identity : ProjectivePoint;
  point_generator : ProjectivePoint;
  point_add : ProjectivePoint → ProjectivePoint → ProjectivePoint;
  point_mul : ProjectivePoint → Scalar → ProjectivePoint;
  (** Affine coordinates of a non-identity point: [to_encoded_point(false)],
      and [to_affine().x()]. *)
  affine_x : ProjectivePoint → U256;
  affine_y : ProjectivePoint → U256;
  (** [EncodedPoint::from_bytes] followed by [from_encoded_point], on the
      uncompressed encoding [04 ++ x ++ y]. *)
  point_from_coordinates : U256 → U256 → option ProjectivePoint;

  (** [frost_secp256k1::Identifier], ordered by its serialization. *)
  Identifier : Type;
  Identifier_eq_dec :: EqDecision Identifier;
  Identifier_countable :: Countable Identifier;
  Identifier_ord :: OrdKey Identifier;
  (** [Identifier::derive], which this ciphersuite always supports. *)
  Identifier_derive : Bytes → Identifier;

  (** [keys::dkg]: [VerifiableSecretSharingCommitment] is the list of its
      coefficients; a [VerifyingShare] or [VerifyingKey] is a point. *)
  Round1Secret : Type;
  round1_identifier : Round1Secret → Identifier;
  round1_commitment : Round1Secret → list ProjectivePoint;
  Round2Secret : Type;
  round2_identifier : Round2Secret → Identifier;
  round2_commitment : Round2Secret → list ProjectivePoint;
  round2_secret_share : Round2Secret → Scalar;
  KeyPackage : Type;
  key_package_identifier : KeyPackage → Identifier;
  key_package_signing_share : KeyPackage → Scalar;
  key_package_verifying_key : KeyPackage → ProjectivePoint;
  key_package_min_signers : KeyPackage → N;

  dkg_part1 : Identifier → N → N → Rng →
    result (Round1Secret * (list ProjectivePoint * (ProjectivePoint * Scalar))) FrostError * Rng;
  dkg_part2 : Round1Secret →
    gmap Identifier (list ProjectivePoint * (ProjectivePoint * Scalar)) →
    result (Round2Secret * gmap Identifier Scalar) FrostError;
  dkg_part3 : Round2Secret →
    gmap Identifier (list ProjectivePoint * (ProjectivePoint * Scalar)) →
    gmap Identifier Scalar →
    result KeyPackage FrostError;
  verify_proof_of_knowledge : Identifier → list ProjectivePoint →
    ProjectivePoint * Scalar → result () FrostError;
  sum_commitments : list (list ProjectivePoint) → result (list ProjectivePoint) FrostError;
  (** [VerifyingShare::from_commitment] and [VerifyingKey::from_commitment]. *)
  verifying_share_from_commitment : Identifier → list ProjectivePoint → ProjectivePoint;
  verifying_key_from_commitment : list ProjectivePoint → result ProjectivePoint FrostError;
  (** [SecretShare::new(me, share, commitment).verify()]. *)
  secret_share_verify : Identifier → Scalar → list ProjectivePoint → result () FrostError;

  (** [round1]: nonces; [SigningCommitments] is its hiding and binding point. *)
  SigningNonces : Type;
  signing_nonces_new : Scalar → Rng → SigningNonces * Rng;
  signing_nonces_commitments : SigningNonces → ProjectivePoint * ProjectivePoint;

  (** [round2::sign] and the [frost_core] internals used to rebuild the signer
      selection. A [SigningPackage] is its commitments and message. *)
  round2_sign : gmap Identifier (ProjectivePoint * ProjectivePoint) * Bytes →
    SigningNonces → KeyPackage → result Scalar FrostError;
  compute_binding_factor_list :
    gmap Identifier (ProjectivePoint * ProjectivePoint) * Bytes →
    ProjectivePoint → Bytes → result (gmap Identifier Scalar) FrostError;
  derive_interpolating_value : Identifier →
    gmap Identifier (ProjectivePoint * ProjectivePoint) * Bytes → result Scalar FrostError;
  compute_group_commitment :
    gmap Identifier (ProjectivePoint * ProjectivePoint) * Bytes →
    gmap Identifier Scalar → result ProjectivePoint FrostError;
}.

(** Names for the data carriers. *)
Abbreviation VssCommitment := (list ProjectivePoint).
Abbreviation FrostSignature := (ProjectivePoint * Scalar)%type.
Abbreviation Round1Package := (VssCommitment * FrostSignature)%type.
Abbreviation Round2Package := Scalar.
Abbreviation SigningCommitments := (ProjectivePoint * ProjectivePoint)%type.
Abbreviation SigningPackage := (gmap Identifier SigningCommitments * Bytes)%type.
