(* ===== verification/Frost.v ===== *)
(** * The FROST layer: [frost/participants.rs], [frost/error.rs],
    [frost/ecdh.rs] and [frost/marshal.rs]

    Participant identifiers, errors with a culprit, ECDH encryption of secret
    shares and the marshalling between curve values and their Solidity form. *)

From S2P Require Import Prelude.
From S2P Require Import Bytes.
From S2P Require Import Bindings.
From S2P Require Import FrostLib.

(** [frost::error::Error]. *)
Inductive FrostErr : Type :=
  | Unexpected (cause : FrostError)
  | ParticipantErr (cause : FrostError) (culprit : Address).

(** [Culprit::err_unexpected] and [Culprit::err_with_culprit]. *)
Definition err_unexpected {T} (r : result T FrostError) : result T FrostErr :=
  rmap_err Unexpected r.
Definition err_with_culprit {T} (culprit : Address) (r : result T FrostError)
    : result T FrostErr :=
  rmap_err (λ cause, ParticipantErr cause culprit) r.

Section frost.
Context {FL : FrostLib}.
Open Scope safenet_scope.

(** ** Participants *)

Definition identifier (address : Address) : Identifier :=
  Identifier_derive (to_be_bytes 20 address).

(** ** ECDH *)

(** [EncryptionKey(NonZeroScalar)] and [EncryptionPublicKey(ProjectivePoint)]. *)
Definition EncryptionKey : Type := Scalar.
Definition EncryptionPublicKey : Type := ProjectivePoint.

(** The ASCII bytes of ["FROST-secp256k1-SHA256-v1"] and ["enc"]. *)
Definition frost_tag : Bytes :=
  [x46; x52; x4f; x53; x54; x2d; x73; x65; x63; x70; x32; x35; x36; x6b; x31;
   x2d; x53; x48; x41; x32; x35; x36; x2d; x76; x31].
Definition enc_tag : Bytes := [x65; x6e; x63].

(** The result is [expect]ed to be a non-zero scalar. *)
Definition hash_to_scalar (discriminant msg : Bytes) : Scalar :=
  hash_to_field [msg] [frost_tag; discriminant].

Definition generate_encryption_key (rng : Rng) : EncryptionKey * Rng :=
  let '(entropy, rng) := fill_bytes 32 rng in
  (hash_to_scalar enc_tag entropy, rng).

Definition public_key (sk : EncryptionKey) : EncryptionPublicKey :=
  point_mul point_generator sk.

Definition encryption_public_key_from_point (point : ProjectivePoint)
    : result EncryptionPublicKey FrostError :=
  if decide (point = point_identity) then Err InvalidIdentityElement else Ok point.

(** [msg XOR (receiver_pubkey * sender_privkey).x] on 32-byte words. *)
Definition ecdh (sender_privkey : EncryptionKey)
    (receiver_pubkey : EncryptionPublicKey) (msg : U256) : U256 :=
  let shared_secret := affine_x (point_mul receiver_pubkey sender_privkey) in
  N.lxor msg shared_secret.

(** ** Marshalling *)

Definition solidity_point (point : ProjectivePoint) : Point :=
  if decide (point = point_identity) then Point.mk 0 0
  else Point.mk (affine_x point) (affine_y point).

Definition solidity_scalar (scalar : Scalar) : U256 := scalar_to_bytes scalar.

(** A FROST signature share serializes as its scalar. *)
Definition solidity_signing_share (share : Scalar) : U256 := scalar_to_bytes share.

Definition solidity_signature (signature : FrostSignature) : Signature.t :=
  Signature.mk (solidity_point signature.1) (solidity_scalar signature.2).

Definition solidity_commitment (encryption_public_key : EncryptionPublicKey)
    (package : Round1Package) : KeyGenCommitment.t :=
  let q := solidity_point encryption_public_key in
  let c := solidity_point <$> package.1 in
  let signature := solidity_signature package.2 in
  KeyGenCommitment.mk q c (Signature.r signature) (Signature.z signature).

Definition solidity_secret_share (verifying_share : ProjectivePoint)
    (encrypted_secret_shares : list U256) : KeyGenSecretShare.t :=
  KeyGenSecretShare.mk (solidity_point verifying_share) encrypted_secret_shares.

Definition solidity_sign_nonces (commitments : SigningCommitments) : SignNonces :=
  SignNonces.mk (solidity_point commitments.1) (solidity_point commitments.2).

Definition frost_scalar (scalar : U256) : result Scalar FrostError :=
  ok_or MalformedScalar (scalar_from_repr scalar).

(** The zero point decodes to the identity. *)
Definition frost_point (point : Point) : result ProjectivePoint FrostError :=
  if decide (Point.x point = 0 ∧ Point.y point = 0) then Ok point_identity
  else ok_or MalformedElement (point_from_coordinates (Point.x point) (Point.y point)).

Definition frost_signature (r : Point) (z : U256) : result FrostSignature FrostError :=
  R ←? frost_point r;
  z ←? frost_scalar z;
  Ok (R, z).

Definition frost_commitment (commitment : KeyGenCommitment.t)
    : result (EncryptionPublicKey * Round1Package) FrostError :=
  q ←? frost_point (KeyGenCommitment.q commitment);
  encryption_public_key ←? encryption_public_key_from_point q;
  coefficients ←? rcollect (frost_point <$> KeyGenCommitment.c commitment);
  proof_of_knowledge ←?
    frost_signature (KeyGenCommitment.r commitment) (KeyGenCommitment.mu commitment);
  Ok (encryption_public_key, (coefficients, proof_of_knowledge)).

Definition frost_signing_commitments (nonces : SignNonces)
    : result SigningCommitments FrostError :=
  hiding ←? frost_point (SignNonces.d nonces);
  binding ←? frost_point (SignNonces.e nonces);
  if decide (hiding = point_identity ∨ binding = point_identity)
  then Err MalformedElement
  else Ok (hiding, binding).

(** ** Documented behaviour of the curve library *)

(** Decoding inverts encoding: a non-identity point has non-zero coordinates
    that decode to it, and a scalar's bytes decode to it. *)
Record curve_codec_ok : Prop := {
  point_codec : ∀ p, p ≠ point_identity →
    point_from_coordinates (affine_x p) (affine_y p) = Some p;
  point_coordinates : ∀ p, p ≠ point_identity → ¬ (affine_x p = 0 ∧ affine_y p = 0);
  scalar_codec : ∀ s, scalar_from_repr (scalar_to_bytes s) = Some s;
}.

(** Diffie-Hellman: scalar multiplications of the generator commute. *)
Definition point_mul_comm : Prop := ∀ a b,
  point_mul (point_mul point_generator a) b = point_mul (point_mul point_generator b) a.

(** ** Lemmas *)

Lemma frost_solidity_point p :
  curve_codec_ok → frost_point (solidity_point p) = Ok p.
Proof.
  intros Hc. unfold solidity_point, frost_point.
  destruct (decide (p = point_identity)) as [->|Hp]; simpl; [done|].
  rewrite decide_False by (by apply point_coordinates).
  by rewrite point_codec.
Qed.

Lemma frost_solidity_scalar s :
  curve_codec_ok → frost_scalar (solidity_scalar s) = Ok s.
Proof. intros Hc. unfold frost_scalar, solidity_scalar. by rewrite scalar_codec. Qed.

Lemma frost_solidity_points ps :
  curve_codec_ok → rcollect (frost_point <$> (solidity_point <$> ps)) = Ok ps.
Proof.
  intros Hc. apply rcollect_Ok. induction ps; simpl; constructor; [|done].
  by apply frost_solidity_point.
Qed.

(** Encryption and decryption use the same shared secret. *)
Lemma ecdh_decrypts sk1 sk2 msg :
  point_mul_comm →
  ecdh sk2 (public_key sk1) (ecdh sk1 (public_key sk2) msg) = msg.
Proof.
  intros Hcomm. unfold ecdh, public_key. rewrite (Hcomm sk2 sk1).
  by rewrite N.lxor_assoc, N.lxor_nilpotent, N.lxor_0_r.
Qed.
End frost.

(** ** Properties *)

Section frost_properties.
Context {FL : FrostLib}.

(** Marshalling round trip: a key generation commitment built from a
    non-identity encryption key and a round-1 package decodes back to them,
    and a nonce pair of non-identity commitments decodes back to it. *)
Theorem marshal_roundtrip (key : EncryptionPublicKey) (package : Round1Package)
    (commitments : SigningCommitments) :
  curve_codec_ok →
  key ≠ point_identity →
  commitments.1 ≠ point_identity → commitments.2 ≠ point_identity →
  frost_commitment (solidity_commitment key package) = Ok (key, package) ∧
  frost_signing_commitments (solidity_sign_nonces commitments) = Ok commitments.
Proof.
  intros Hc Hkey H1 H2. split.
  - unfold frost_commitment, solidity_commitment. simpl.
    rewrite frost_solidity_point by done. simpl.
    unfold encryption_public_key_from_point. rewrite decide_False by done. simpl.
    rewrite frost_solidity_points by done. simpl.
    unfold frost_signature.
    rewrite frost_solidity_point by done. simpl.
    rewrite frost_solidity_scalar by done. simpl.
    by destruct package as [? []].
  - unfold frost_signing_commitments, solidity_sign_nonces. simpl.
    rewrite !frost_solidity_point by done. simpl.
    rewrite decide_False by naive_solver. by destruct commitments.
Qed.
End frost_properties.
