(* ===== verification/FrostKeygen.v ===== *)
(** * Distributed key generation: [frost/keygen.rs]

    The FROST DKG rounds with address-derived identifiers and ECDH-encrypted
    secret shares, over the library parameters of [FrostLib]. *)

From S2P Require Import Prelude.
From S2P Require Import Bytes.
From S2P Require Import Bindings.
From S2P Require Import FrostLib.
From S2P Require Import Frost.

Section frost_keygen.
Context {FL : FrostLib}.
Open Scope safenet_scope.

(** ** Data *)

Record Secrets := {
  secrets_encryption_key : EncryptionKey;
  secrets_secret_package : Round1Secret;
  secrets_proof_of_knowledge : FrostSignature;
}.

Record VerifiedCommitment := {
  vc_encryption_public_key : EncryptionPublicKey;
  vc_package : Round1Package;
}.

Record GroupCommitments := {
  gc_commitments : gmap Address VerifiedCommitment;
  gc_group_commitment : VssCommitment;
  gc_verifying_key : ProjectivePoint;
}.

Record SharingState := {
  ss_encryption_key : EncryptionKey;
  ss_secret_package : Round2Secret;
  ss_peer_packages : gmap Identifier Round2Package;
  ss_group_commitments : GroupCommitments;
}.

Record PublicKeyShare := { pks_verifying_share : ProjectivePoint }.
Record EncryptedSecretShares := { ess_shares : list U256 }.
Record VerifiedShare := { vs_package : Round2Package }.
Record KeyShare := { as_key_package : KeyPackage }.

(** ** Operations *)

(** [Secrets::commitment]. *)
Definition secrets_commitment (s : Secrets) : KeyGenCommitment.t :=
  let round1_package :=
    (round1_commitment (secrets_secret_package s), secrets_proof_of_knowledge s) in
  solidity_commitment (public_key (secrets_encryption_key s)) round1_package.

Definition setup (rng : Rng) (me : Address) (count threshold : N)
    : result Secrets FrostErr * Rng :=
  let identifier := identifier me in
  let '(encryption_key, rng) := generate_encryption_key rng in
  let '(part1, rng) := dkg_part1 identifier count threshold rng in
  ('(secret_package, package) ←? err_unexpected part1;
   let proof_of_knowledge := package.2 in
   Ok {| secrets_encryption_key := encryption_key;
         secrets_secret_package := secret_package;
         secrets_proof_of_knowledge := proof_of_knowledge |}, rng).

Definition verify_commitment (participant : Address)
    (commitment : KeyGenCommitment.t) : result VerifiedCommitment FrostErr :=
  let identifier := identifier participant in
  err_with_culprit participant
    ('(encryption_public_key, package) ←? frost_commitment commitment;
     _ ←? verify_proof_of_knowledge identifier package.1 package.2;
     Ok {| vc_encryption_public_key := encryption_public_key;
           vc_package := package |}).

(** [GroupCommitments::group_key]. *)
Definition group_key (gc : GroupCommitments) : Point :=
  solidity_point (gc_verifying_key gc).

Definition group_commitment (commitments : gmap Address VerifiedCommitment)
    : result VssCommitment FrostError :=
  sum_commitments ((λ verified, (vc_package verified).1) <$> btree_values commitments).

Definition group_commitments (commitments : gmap Address VerifiedCommitment)
    : result GroupCommitments FrostErr :=
  group_commitment ←? err_unexpected (group_commitment commitments);
  verifying_key ←? err_unexpected (verifying_key_from_commitment group_commitment);
  Ok {| gc_commitments := commitments;
        gc_group_commitment := group_commitment;
        gc_verifying_key := verifying_key |}.

(** The packages of [items] keyed by identifier, split into the peers' and
    the one of [me]. *)
Definition by_identifier {T P} (select : T → P) (items : gmap Address T)
    : gmap Identifier P :=
  foldl (λ m '(participant, item), <[identifier participant := select item]> m)
    ∅ (btree_iter items).

Definition peer_packages {T P} (me : Identifier) (items : gmap Address T)
    (select : T → P) : result (gmap Identifier P * P) FrostErr :=
  let peers := by_identifier select items in
  me_package ←? err_unexpected (ok_or UnknownIdentifier (peers !! me));
  Ok (delete me peers, me_package).

(** The shares for the peers, in ascending order of the peers' addresses,
    each encrypted to the peer's published key. *)
Definition encrypt_shares (secrets : Secrets) (me : Identifier)
    (round2_packages : gmap Identifier Round2Package)
    (commitments : gmap Address VerifiedCommitment) : result (list U256) FrostError :=
  let peers :=
    filter (λ p : Identifier * EncryptionPublicKey, p.1 ≠ me)
      ((λ '(participant, commitment),
          (identifier participant, vc_encryption_public_key commitment))
         <$> btree_iter commitments) in
  rcollect
    ((λ '(peer, encryption_public_key),
        package ←? ok_or UnknownIdentifier (round2_packages !! peer);
        let signing_share := scalar_to_bytes package in
        Ok (ecdh (secrets_encryption_key secrets) encryption_public_key signing_share))
       <$> peers).

Definition generate_secret_shares (secrets : Secrets)
    (commitments : gmap Address VerifiedCommitment)
    : result (SharingState * KeyGenSecretShare.t) FrostErr :=
  '(round1_peer_packages, round1_me_package) ←?
    peer_packages (round1_identifier (secrets_secret_package secrets))
      commitments vc_package;
  err_unexpected
    ('(secret_package, round2_packages) ←?
       dkg_part2 (secrets_secret_package secrets) round1_peer_packages;
     if decide (round1_me_package.1 ≠ round2_commitment secret_package)
     then Err IncorrectCommitment else
     group_commitment ←? group_commitment commitments;
     let verifying_share :=
       verifying_share_from_commitment
         (round1_identifier (secrets_secret_package secrets)) group_commitment in
     verifying_key ←? verifying_key_from_commitment group_commitment;
     encrypted_shares ←?
       encrypt_shares secrets (round2_identifier secret_package)
         round2_packages commitments;
     let share := solidity_secret_share verifying_share encrypted_shares in
     Ok ({| ss_encryption_key := secrets_encryption_key secrets;
            ss_secret_package := secret_package;
            ss_peer_packages := round2_packages;
            ss_group_commitments :=
              {| gc_commitments := commitments;
                 gc_group_commitment := group_commitment;
                 gc_verifying_key := verifying_key |} |}, share)).

Definition verify_secret_share (gc : GroupCommitments) (participant : Address)
    (share : KeyGenSecretShare.t)
    : result (PublicKeyShare * EncryptedSecretShares) FrostErr :=
  if decide (gc_commitments gc !! participant = None)
  then err_unexpected (Err UnknownIdentifier) else
  let identifier := identifier participant in
  public_key ←? err_with_culprit participant
    (y ←? frost_point (KeyGenSecretShare.y share);
     let verifying_share :=
       verifying_share_from_commitment identifier (gc_group_commitment gc) in
     if decide (y ≠ verifying_share) then Err MalformedVerifyingKey
     else Ok {| pks_verifying_share := verifying_share |});
  Ok (public_key, {| ess_shares := KeyGenSecretShare.f share |}).

(** [VerifiedShare::new]. *)
Definition verified_share_new (me : Identifier) (peer : Address)
    (commitment : VssCommitment) (secret_share : U256)
    : result VerifiedShare FrostErr :=
  err_with_culprit peer
    (signing_share ←? frost_scalar secret_share;
     _ ←? secret_share_verify me signing_share commitment;
     Ok {| vs_package := signing_share |}).

(** [.keys().filter(|a| a != participant).position(|a| identifier(a) == me)]. *)
Fixpoint position (p : Address → bool) (l : list Address) : option nat :=
  match l with
  | [] => None
  | a :: l => if p a then Some O else S <$> position p l
  end.

Definition share_index (gc : GroupCommitments) (participant : Address)
    (me : Identifier) : option nat :=
  position (λ address, bool_decide (identifier address = me))
    (filter (λ address, address ≠ participant) (btree_keys (gc_commitments gc))).

Definition verify_encrypted_secret_share (st : SharingState)
    (participant : Address) (encrypted_shares : EncryptedSecretShares)
    : result VerifiedShare FrostErr :=
  let me := round2_identifier (ss_secret_package st) in
  '(commitment, secret_share) ←?
    (if decide (identifier participant = me) then
       Ok (round2_commitment (ss_secret_package st),
           scalar_to_bytes (round2_secret_share (ss_secret_package st)))
     else
       err_unexpected
         (round1 ←? ok_or UnknownIdentifier
            (gc_commitments (ss_group_commitments st) !! participant);
          let commitment := (vc_package round1).1 in
          index ←? ok_or UnknownIdentifier
            (share_index (ss_group_commitments st) participant me);
          encrypted_share ←? ok_or IncorrectNumberOfShares
            (ess_shares encrypted_shares !! index);
          let secret_share :=
            ecdh (ss_encryption_key st) (vc_encryption_public_key round1)
              encrypted_share in
          Ok (commitment, secret_share)));
  verified_share_new me participant commitment secret_share.

Definition verify_revealed_secret_share (gc : GroupCommitments)
    (plaintiff accused : Address) (secret_share : U256)
    : result VerifiedShare FrostErr :=
  let plaintiff := identifier plaintiff in
  commitment ←? err_unexpected (ok_or UnknownIdentifier (gc_commitments gc !! accused));
  verified_share_new plaintiff accused (vc_package commitment).1 secret_share.

Definition reveal_secret_share (st : SharingState) (peer : Address)
    : result U256 FrostErr :=
  err_unexpected
    (ok_or UnknownIdentifier (solidity_scalar <$> ss_peer_packages st !! identifier peer)).

(** [KeyShare::group_threshold]. *)
Definition key_share_group_threshold (k : KeyShare) : N :=
  key_package_min_signers (as_key_package k).

Definition finalize (st : SharingState) (shares : gmap Address VerifiedShare)
    : result KeyShare FrostErr :=
  let me := round2_identifier (ss_secret_package st) in
  '(round1_peer_packages, _) ←?
    peer_packages me (gc_commitments (ss_group_commitments st)) vc_package;
  '(round2_peer_packages, round2_me_package) ←? peer_packages me shares vs_package;
  if decide (round2_me_package ≠ round2_secret_share (ss_secret_package st))
  then err_unexpected (Err IncorrectPackage) else
  key_package ←? err_unexpected
    (dkg_part3 (ss_secret_package st) round1_peer_packages round2_peer_packages);
  Ok {| as_key_package := key_package |}.

(** ** Lemmas *)

Lemma rcollect_lookup {A E} (l : list (result A E)) xs i x :
  rcollect l = Ok xs → xs !! i = Some x → l !! i = Some (Ok x).
Proof.
  intros Hf%rcollect_Ok Hx.
  destruct (Forall2_lookup_r _ _ _ _ _ Hf Hx) as (r & Hr & ->). done.
Qed.

Lemma rcollect_lookup_l {A E} (l : list (result A E)) xs i r :
  rcollect l = Ok xs → l !! i = Some r → ∃ x, r = Ok x ∧ xs !! i = Some x.
Proof.
  intros Hf%rcollect_Ok Hr.
  destruct (Forall2_lookup_l _ _ _ _ _ Hf Hr) as (x & Hx & ->). eauto.
Qed.

(** The position found is that of a matching key. *)
Lemma position_Some p l i :
  position p l = Some i → ∃ a, l !! i = Some a ∧ p a = true.
Proof.
  revert i. induction l as [|a l IH]; simpl; [done|]. intros i.
  destruct (p a) eqn:E; [intros [= <-]; eauto|].
  destruct (position p l) as [j|]; [|done]. intros [= <-]. by apply IH.
Qed.

Lemma position_is_Some p l a : a ∈ l → p a = true → is_Some (position p l).
Proof.
  induction 1 as [l|a b l _ IH]; intros Hp; simpl.
  - rewrite Hp. eauto.
  - destruct (p b); [eauto|]. destruct IH as [i ->]; eauto.
Qed.

(** The participants' identifiers do not collide. *)
Definition identifiers_distinct (items : gmap Address VerifiedCommitment) : Prop :=
  ∀ a b, is_Some (items !! a) → is_Some (items !! b) → identifier a = identifier b → a = b.

(** The entries a dealer [d] encrypts for, in publishing order. *)
Definition peers_of (d : Address) (items : gmap Address VerifiedCommitment)
    : list (Address * VerifiedCommitment) :=
  filter (λ e, e.1 ≠ d) (btree_iter items).

Lemma encryption_order d items :
  identifiers_distinct items → is_Some (items !! d) →
  filter (λ p : Identifier * EncryptionPublicKey, p.1 ≠ identifier d)
    ((λ '(participant, commitment),
        (identifier participant, vc_encryption_public_key commitment)) <$> btree_iter items) =
  (λ '(participant, commitment),
     (identifier participant, vc_encryption_public_key commitment)) <$> peers_of d items.
Proof.
  intros Hinj Hd. rewrite list_filter_fmap. f_equal. apply list_filter_ext.
  intros [a c] Ha%elem_of_btree_iter. simpl. split; intros Hne E; apply Hne; simpl in *.
  - by rewrite E.
  - apply Hinj; eauto.
Qed.

Lemma share_index_spec gc d m :
  identifiers_distinct (gc_commitments gc) → d ≠ m →
  is_Some (gc_commitments gc !! m) →
  ∃ i c, share_index gc d (identifier m) = Some i ∧
    gc_commitments gc !! m = Some c ∧
    peers_of d (gc_commitments gc) !! i = Some (m, c).
Proof.
  intros Hinj Hne [c Hc]. unfold share_index, btree_keys.
  rewrite list_filter_fmap. fold (peers_of d (gc_commitments gc)).
  destruct (position_is_Some
    (λ address, bool_decide (identifier address = identifier m))
    (peers_of d (gc_commitments gc)).*1 m) as [i Hi].
  - apply list_elem_of_fmap. exists (m, c). split; [done|].
    apply list_elem_of_filter. by rewrite elem_of_btree_iter.
  - by apply bool_decide_eq_true_2.
  - exists i, c. split_and!; [done..|].
    apply position_Some in Hi as (a & Ha & Hid%bool_decide_eq_true_1).
    rewrite list_lookup_fmap in Ha.
    destruct (peers_of d _ !! i) as [[a' c']|] eqn:Hp; [|done]. simplify_eq/=.
    apply list_elem_of_lookup_2, list_elem_of_filter in Hp as [_ Hp].
    apply elem_of_btree_iter in Hp.
    assert (a = m) as -> by (apply Hinj; eauto). by simplify_eq.
Qed.

(** What a successful [generate_secret_shares] went through. *)
Lemma generate_secret_shares_Ok secrets commitments st share :
  generate_secret_shares secrets commitments = Ok (st, share) →
  gc_commitments (ss_group_commitments st) = commitments ∧
  ss_encryption_key st = secrets_encryption_key secrets ∧
  encrypt_shares secrets (round2_identifier (ss_secret_package st))
    (ss_peer_packages st) commitments = Ok (KeyGenSecretShare.f share).
Proof.
  unfold generate_secret_shares.
  destruct (peer_packages _ _ _) as [[peers me]|]; simpl; [|done].
  destruct (dkg_part2 _ _) as [[sp pkgs]|]; simpl; [|done].
  case_decide; [done|].
  destruct (group_commitment commitments) as [gc|]; simpl; [|done].
  destruct (verifying_key_from_commitment gc) as [vk|]; simpl; [|done].
  destruct (encrypt_shares _ _ _ _) as [f|] eqn:E; simpl; [|done].
  intros [= <- <-]. simpl. done.
Qed.

(** The ciphertext a dealer publishes at the index of a peer. *)
Lemma encrypt_shares_lookup secrets d pkgs items xs i m c :
  identifiers_distinct items → is_Some (items !! d) →
  encrypt_shares secrets (identifier d) pkgs items = Ok xs →
  peers_of d items !! i = Some (m, c) →
  ∃ package, pkgs !! identifier m = Some package ∧
    xs !! i = Some (ecdh (secrets_encryption_key secrets)
      (vc_encryption_public_key c) (scalar_to_bytes package)).
Proof.
  intros Hinj Hd Henc Hi. unfold encrypt_shares in Henc.
  rewrite encryption_order in Henc by done.
  eapply (rcollect_lookup_l _ _ i) in Henc as (x & Hx & Hxs).
  2: { rewrite list_lookup_fmap, list_lookup_fmap, Hi. done. }
  simpl in Hx. destruct (pkgs !! identifier m) as [package|]; simplify_eq/=. eauto.
Qed.
End frost_keygen.

(** ** Properties *)

Section frost_keygen_properties.
Context {FL : FrostLib}.

(** End to end secret sharing: the ciphertext a dealer [d] publishes for
    participant [m] sits at the index [m] reads, decrypts to the dealer's
    share for [m], and is therefore verified exactly as the plaintext the
    dealer would reveal for [m] in answer to a complaint. *)
Theorem encrypted_share_roundtrip secrets st share stm d m cd cm :
  let gc := ss_group_commitments stm in
  let items := gc_commitments gc in
  point_mul_comm →
  identifiers_distinct items →
  d ≠ m → items !! d = Some cd → items !! m = Some cm →
  vc_encryption_public_key cd = public_key (secrets_encryption_key secrets) →
  vc_encryption_public_key cm = public_key (ss_encryption_key stm) →
  round2_identifier (ss_secret_package st) = identifier d →
  round2_identifier (ss_secret_package stm) = identifier m →
  generate_secret_shares secrets items = Ok (st, share) →
  ∃ revealed,
    reveal_secret_share st m = Ok revealed ∧
    verify_encrypted_secret_share stm d {| ess_shares := KeyGenSecretShare.f share |} =
      verify_revealed_secret_share gc m d revealed.
Proof.
  intros gc items Hcomm Hinj Hne Hcd Hcm Hkd Hkm Hst Hstm Hgen.
  apply generate_secret_shares_Ok in Hgen as (_ & Hkey & Henc).
  rewrite Hst in Henc.
  destruct (share_index_spec gc d m) as (i & c & Hidx & Hc & Hpeer); [done|done|eauto|].
  assert (c = cm) as -> by (subst items; congruence).
  eapply encrypt_shares_lookup in Henc as (package & Hpkg & Hf); [|done|eauto|done].
  exists (solidity_scalar package). split.
  - unfold reveal_secret_share. by rewrite Hpkg.
  - unfold verify_encrypted_secret_share, verify_revealed_secret_share.
    rewrite Hstm. rewrite decide_False by (intros E; apply Hne, Hinj; eauto).
    fold gc. fold items. rewrite Hcd. simpl. rewrite Hidx. simpl.
    rewrite Hf. simpl. rewrite Hkm, Hkd, ecdh_decrypts by done. done.
Qed.
End frost_keygen_properties.
