(* ===== verification/FrostSign.v ===== *)
(** * Nonce chunks and signature shares: [frost/preprocess.rs], [frost/sign.rs]

    The 1024-nonce preprocessing scheme, the decoding of signing sequences
    into nonce coordinates, and the signer selection of a signature share. *)

From S2P Require Import Prelude.
From S2P Require Import Bytes.
From S2P Require Import Bindings.
From S2P Require Import Alloy.
From S2P Require Import Merkle.
From S2P Require Import FrostLib.
From S2P Require Import Frost.
From S2P Require Import FrostKeygen.

Definition SEQUENCE_CHUNK_SIZE : N := 1024.

Definition decode_sequence (sequence : N) : N * N :=
  (sequence / SEQUENCE_CHUNK_SIZE, sequence mod SEQUENCE_CHUNK_SIZE).

Section frost_sign.
Context {AL : Alloy} {FL : FrostLib}.
Open Scope safenet_scope.

(** ** Nonce chunks *)

Record Nonces := {
  nonces_signing_nonces : SigningNonces;
  nonces_proof : list B256;
}.

(** [Nonces::reveal]. *)
Definition nonces_reveal (n : Nonces) : SignNonces * list B256 :=
  (solidity_sign_nonces (signing_nonces_commitments (nonces_signing_nonces n)),
   nonces_proof n).

Record NonceChunk := {
  chunk_nonces : list Nonces;
  chunk_commitment : B256;
}.

(** [keccak256(abi.encode(offset, d.x, d.y, e.x, e.y))]. *)
Definition nonces_leaf (offset : N) (nonces : SignNonces) : B256 :=
  keccak256
    (zeros 24 ++ to_be_bytes 8 offset ++
     to_be_bytes 32 (Point.x (SignNonces.d nonces)) ++
     to_be_bytes 32 (Point.y (SignNonces.d nonces)) ++
     to_be_bytes 32 (Point.x (SignNonces.e nonces)) ++
     to_be_bytes 32 (Point.y (SignNonces.e nonces))).

(** One nonce pair, from its own random stream [offset + 1] of the seed. *)
Definition generate_nonce (signing_share : Scalar) (seed : Rng) (offset : N)
    : SigningNonces * B256 :=
  let rng := set_stream (offset + 1) seed in
  let '(signing_nonces, _) := signing_nonces_new signing_share rng in
  let marshaled := solidity_sign_nonces (signing_nonces_commitments signing_nonces) in
  (signing_nonces, nonces_leaf offset marshaled).

(** [NonceChunk::with_size]; the parallel map keeps the order of the
    offsets. *)
Definition with_size (size : nat) (key_share : KeyShare) (rng : Rng)
    : result NonceChunk N * Rng :=
  let '(seed, rng) := chacha_from_rng rng in
  (seed ←? seed;
   let signing_share := key_package_signing_share (as_key_package key_share) in
   let generated :=
     (λ offset : nat, generate_nonce signing_share seed (N.of_nat offset)) <$> seq 0 size in
   let tree := build generated.*2 in
   let nonces :=
     imap (λ i signing_nonces,
       {| nonces_signing_nonces := signing_nonces; nonces_proof := proof tree i |})
       generated.*1 in
   Ok {| chunk_nonces := nonces; chunk_commitment := root tree |}, rng).

Definition generate_chunk (key_share : KeyShare) (rng : Rng)
    : result NonceChunk N * Rng :=
  with_size (N.to_nat SEQUENCE_CHUNK_SIZE) key_share rng.

(** ** Signing *)

Record RevealedNonces := { rn_commitments : SigningCommitments }.

Definition verify_revealed_nonces (participant : Address) (nonces : SignNonces)
    : result RevealedNonces FrostErr :=
  commitments ←? err_with_culprit participant (frost_signing_commitments nonces);
  Ok {| rn_commitments := commitments |}.

Record SignatureShare := {
  sig_selection : SignSelection;
  sig_share : ShareTriple.t;
  sig_proof : list B256;
}.

Definition signer_leaf (participant : Address) (r : Point) (l : U256)
    (group_r : Point) : B256 :=
  keccak256
    (zeros 12 ++ to_be_bytes 20 participant ++
     to_be_bytes 32 (Point.x r) ++ to_be_bytes 32 (Point.y r) ++
     to_be_bytes 32 l ++
     to_be_bytes 32 (Point.x group_r) ++ to_be_bytes 32 (Point.y group_r)).

(** The signing package built from the revealed commitments. *)
Definition signing_package (revealed : gmap Address RevealedNonces)
    (message : B256) : SigningPackage :=
  let commitments :=
    foldl (λ m '(address, r), <[identifier address := rn_commitments r]> m)
      ∅ (btree_iter revealed) in
  (commitments, to_be_bytes 32 message).

(** One signer's entry of the selection: its commitment share and Lagrange
    coefficient. *)
Definition selection_entry (package : SigningPackage)
    (binding_factors : gmap Identifier Scalar)
    (entry : Address * RevealedNonces)
    : result (Identifier * (Address * Point * U256)) FrostError :=
  let '(address, revealed) := entry in
  let identifier := identifier address in
  binding_factor ←? ok_or UnknownIdentifier (binding_factors !! identifier);
  interpolating_value ←? derive_interpolating_value identifier package;
  let commitment_share :=
    point_add (rn_commitments revealed).1
      (point_mul (rn_commitments revealed).2 binding_factor) in
  let r := solidity_point commitment_share in
  let l := solidity_scalar interpolating_value in
  Ok (identifier, (address, r, l)).

(** The signers of the selection in ascending identifier order. *)
Definition signer_leaves (signers : gmap Identifier (Address * Point * U256))
    (group_r : Point) : list B256 :=
  (λ '(_, (address, r, l)), signer_leaf address r l group_r) <$> btree_iter signers.

(** [signers.range(..id).count()]. *)
Definition signer_index (signers : gmap Identifier (Address * Point * U256))
    (me : Identifier) : nat :=
  length (filter (λ e : Identifier * (Address * Point * U256), ord_key e.1 < ord_key me)
    (btree_iter signers)).

Definition signature_share (key_share : KeyShare) (nonces : Nonces)
    (revealed : gmap Address RevealedNonces) (message : B256)
    : result SignatureShare FrostErr :=
  let key_package := as_key_package key_share in
  let group_public_key := key_package_verifying_key key_package in
  let package := signing_package revealed message in
  err_unexpected
    (signature_share ←? round2_sign package (nonces_signing_nonces nonces) key_package;
     binding_factors ←? compute_binding_factor_list package group_public_key [];
     entries ←? rcollect (selection_entry package binding_factors <$> btree_iter revealed);
     let signers :=
       foldl (λ m '(id, e), <[id := e]> m)
         (∅ : gmap Identifier (Address * Point * U256)) entries in
     group_commitment ←? compute_group_commitment package binding_factors;
     let group_r := solidity_point group_commitment in
     let tree := build (signer_leaves signers group_r) in
     let selection := SignSelection.mk group_r (root tree) in
     '(_, r, l) ←? ok_or UnknownIdentifier
       (signers !! key_package_identifier key_package);
     let z := solidity_signing_share signature_share in
     let share := ShareTriple.mk r z l in
     let index := signer_index signers (key_package_identifier key_package) in
     let prf := proof tree index in
     Ok {| sig_selection := selection; sig_share := share; sig_proof := prf |}).

(** ** Lemmas *)

(** The number of keys below a key is the key's index in the iteration. *)
Lemma rank_lookup {V} (l : list (Identifier * V)) k v :
  StronglySorted entry_le l → NoDup l.*1 → (k, v) ∈ l →
  l !! length (filter (λ e, ord_key e.1 < ord_key k) l) = Some (k, v).
Proof.
  induction l as [|[k' v'] l IH]; [set_solver|].
  intros [Hx Hs]%StronglySorted_cons [Hnx Hnd]%NoDup_cons Hk.
  rewrite filter_cons. rewrite Forall_forall in Hx. simpl. case_decide as Hlt.
  - simpl. apply IH; [done..|]. apply elem_of_cons in Hk as [[= -> ->]|]; [lia|done].
  - assert (filter (λ e : Identifier * V, ord_key e.1 < ord_key k) l = []) as ->.
    { apply elem_of_nil_inv. intros [k2 v2] [Hlt2 Hin]%list_elem_of_filter.
      specialize (Hx _ Hin). unfold entry_le in Hx. simpl in *. lia. }
    apply elem_of_cons in Hk as [[= -> ->]|Hk]; [done|]. exfalso.
    specialize (Hx _ Hk). unfold entry_le in Hx. simpl in Hx.
    assert (k' = k) as -> by (apply (inj ord_key); lia).
    apply Hnx, list_elem_of_fmap. by exists (k, v).
Qed.

(** The nonces of a chunk are the leaves of its tree. *)
Lemma with_size_nonce size key_share rng chunk rng' :
  with_size size key_share rng = (Ok chunk, rng') →
  ∃ leaves, length leaves = size ∧ length (chunk_nonces chunk) = size ∧
    chunk_commitment chunk = root (build leaves) ∧
    ∀ i nonces, chunk_nonces chunk !! i = Some nonces →
      leaves !! i = Some (nonces_leaf (N.of_nat i) (nonces_reveal nonces).1) ∧
      nonces_proof nonces = proof (build leaves) i.
Proof.
  unfold with_size. destruct (chacha_from_rng rng) as [[seed|] rng1]; simpl; [|done].
  intros [= <- <-]. simpl. eexists. split_and!; [|by rewrite length_imap, !length_fmap, length_seq
    |done|]; [by rewrite !length_fmap, length_seq|].
  intros i nonces. rewrite list_lookup_imap, !list_lookup_fmap.
  destruct (seq 0 size !! i) as [j|] eqn:Hj; intros Hi; simplify_eq/=.
  apply lookup_seq in Hj as [-> Hlt]. unfold generate_nonce. simpl.
  by destruct (signing_nonces_new _ _).
Qed.

(** Collecting into a map only keeps collected entries. *)
Lemma foldl_insert_lookup {V} (entries : list (Identifier * V))
    (m : gmap Identifier V) id e :
  foldl (λ m '(id, e), <[id := e]> m) m entries !! id = Some e →
  (id, e) ∈ entries ∨ m !! id = Some e.
Proof.
  revert m. induction entries as [|[id' e'] entries IH]; simpl; [by auto|].
  intros m [?|H]%IH; [by left; right|].
  apply lookup_insert_Some in H as [[-> ->]|[_ ?]]; [left; left|by right].
Qed.

Lemma selection_entry_Ok package bf address rn id a r l :
  selection_entry package bf (address, rn) = Ok (id, (a, r, l)) →
  a = address ∧ id = identifier address.
Proof.
  unfold selection_entry. destruct (bf !! _); simpl; [|done].
  destruct (derive_interpolating_value _ _); simpl; [|done]. by intros [= <- <- _ _].
Qed.
End frost_sign.

(** ** Properties *)

Section frost_sign_properties.
Context {AL : Alloy} {FL : FrostLib}.

(** A signing sequence is decoded into the coordinates that identify it:
    the offset is within a chunk, the coordinates give the sequence back, and
    different sequences have different coordinates. *)
Theorem decode_sequence_bijective (s1 s2 : N) :
  let '(chunk, offset) := decode_sequence s1 in
  offset < SEQUENCE_CHUNK_SIZE ∧
  chunk * SEQUENCE_CHUNK_SIZE + offset = s1 ∧
  (decode_sequence s1 = decode_sequence s2 → s1 = s2).
Proof.
  unfold decode_sequence, SEQUENCE_CHUNK_SIZE.
  div_facts s1 1024. div_facts s2 1024. split_and!; [lia|lia|].
  intros [= -> ->]. lia.
Qed.

(** Every nonce of a generated chunk can be revealed in isolation: its
    stored proof verifies the leaf of its offset and public commitments
    against the chunk's commitment, and the chunk has the requested size. *)
Theorem nonce_chunk_reveals size key_share rng chunk rng' i nonces :
  with_size size key_share rng = (Ok chunk, rng') →
  chunk_nonces chunk !! i = Some nonces →
  let '(public, prf) := nonces_reveal nonces in
  verify (chunk_commitment chunk) (nonces_leaf (N.of_nat i) public) prf = true ∧
  length (chunk_nonces chunk) = size.
Proof.
  intros (leaves & _ & Hsize & -> & Hn)%with_size_nonce Hi.
  destruct (Hn i nonces Hi) as [Hleaf Hproof].
  unfold nonces_reveal in *. rewrite Hproof. split; [by apply merkle_leaf_verifies|done].
Qed.

(** The inclusion proof published with a signature share verifies the
    signer's own leaf (the address it revealed its nonces under, its
    commitment share and its coefficient) against the root of the published
    selection. *)
Theorem signature_share_proof_verifies key_share nonces revealed message s :
  signature_share key_share nonces revealed message = Ok s →
  ∃ me,
    is_Some (revealed !! me) ∧
    identifier me = key_package_identifier (as_key_package key_share) ∧
    verify (SignSelection.root (sig_selection s))
      (signer_leaf me (ShareTriple.r (sig_share s)) (ShareTriple.l (sig_share s))
         (SignSelection.r (sig_selection s)))
      (sig_proof s) = true.
Proof.
  unfold signature_share.
  destruct (round2_sign _ _ _) as [z|]; simpl; [|done].
  destruct (compute_binding_factor_list _ _ _) as [bf|]; simpl; [|done].
  destruct (rcollect _) as [entries|] eqn:Hentries; simpl; [|done].
  set (signers := foldl _ _ entries).
  destruct (compute_group_commitment _ _) as [gc|]; simpl; [|done].
  destruct (signers !! _) as [[[me r] l]|] eqn:Hme; simpl; [|done].
  intros [= <-]. simpl. exists me.
  assert (is_Some (revealed !! me) ∧
    identifier me = key_package_identifier (as_key_package key_share)) as [Hrev Hid].
  { apply foldl_insert_lookup in Hme as [Hin|]; [|by simplify_map_eq].
    apply list_elem_of_lookup in Hin as [i Hi].
    eapply rcollect_lookup in Hi; [|done].
    apply list_lookup_fmap_Some in Hi as ([a rn] & Ha & Hent).
    symmetry in Ha.
    apply selection_entry_Ok in Ha as [-> Hid]. split; [|done].
    apply list_elem_of_lookup_2, elem_of_btree_iter in Hent. eauto. }
  split_and!; [done..|]. apply merkle_leaf_verifies.
  unfold signer_leaves. rewrite list_lookup_fmap. unfold signer_index.
  rewrite (rank_lookup _ _ (me, r, l)).
  - done.
  - apply btree_iter_sorted.
  - apply btree_keys_NoDup.
  - by apply elem_of_btree_iter.
Qed.
End frost_sign_properties.
