(* ===== verification/FROSTCoordinator.v ===== *)
(** * The coordinator contract: [FROSTCoordinator.sol]

    The contract the validators generate keys and sign through, with its
    libraries [FROSTParticipantMap.sol], [FROSTNonceCommitmentSet.sol],
    [FROSTGroupId.sol], [FROSTSignatureId.sol] and [FROSTSignatureShares.sol]. A
    callback is a call its target makes in turn; one that reverts takes the whole
    call with it: a call that is not made. OpenZeppelin's [MerkleProof] and the
    checks of [FROST.sol], which rest on EVM precompiles, are parameters. *)

From S2P Require Import Prelude.
From S2P Require Import Bytes.
From S2P Require Import Bindings.
From S2P Require Import Alloy.
Import Coordinator.

(** ** Curve arithmetic: [Secp256k1.sol]

    Affine points over the prime field, the zero point standing for the point at
    infinity. The [modexp] precompile is exponentiation modulo its argument. *)

(** [Secp256k1.B], [P] and [N]. *)
Definition secp256k1_B : N := 7.
Definition secp256k1_P : N := 2 ^ 256 - 2 ^ 32 - 977.
Definition secp256k1_N : N :=
  115792089237316195423570985008687907852837564279074904382605163141518161494337.

(** [addmod] and [mulmod]. *)
Definition addmod (x y m : N) : N := (x + y) mod m.
Definition mulmod (x y m : N) : N := (x * y) mod m.

(** [_satisfiesCurveEquation]. *)
Definition satisfiesCurveEquation (p : Point) : bool :=
  let x := Point.x p in
  let y := Point.y p in
  bool_decide
    (mulmod y y secp256k1_P =
       addmod (mulmod x (mulmod x x secp256k1_P) secp256k1_P) secp256k1_B secp256k1_P) &&
  bool_decide (x < secp256k1_P) && bool_decide (y < secp256k1_P).

Definition point_zero : Point := Point.mk 0 0.
Definition is_zero (p : Point) : bool := bool_decide (N.lor (Point.x p) (Point.y p) = 0).

(** [_unpack] accepts the points of the curve and the zero point. *)
Definition unpacks (p : Point) : bool := is_zero p || satisfiesCurveEquation p.

(** The [modexp] precompile. *)
Fixpoint modexp (base : N) (exponent : positive) (m : N) : N :=
  match exponent with
  | xH => base mod m
  | xO e => let h := modexp base e m in mulmod h h m
  | xI e => let h := modexp base e m in mulmod base (mulmod h h m) m
  end.

(** [_divmod], by Fermat's little theorem. *)
Definition divmod (x y p : N) : N :=
  mulmod x (match p - 2 with 0 => 1 mod p | N.pos e => modexp y e p end) p.

(** [add]; [None] is [NotOnCurve]. *)
Definition secp256k1_add (p q : Point) : option Point :=
  let P := secp256k1_P in
  let '(Point.mk px py) := p in
  let '(Point.mk qx qy) := q in
  if negb (unpacks p && unpacks q) then None
  else if is_zero p then Some q
  else if is_zero q then Some p
  else
    let sum l :=
      let rx := addmod (mulmod l l P) (P - addmod px qx P) P in
      Some (Point.mk rx (addmod (mulmod (addmod px (P - rx) P) l P) (P - py) P)) in
    if decide (px ≠ qx) then sum (divmod (addmod qy (P - py) P) (addmod qx (P - px) P) P)
    else if decide (py = qy) then sum (divmod (mulmod 3 (mulmod px px P) P) (addmod py py P) P)
    else Some point_zero.

(** The generator doubles to the point it should. *)
Definition secp256k1_G : Point := Point.mk
  55066263022277343669578718895168534326250603453777594175500187360389116729240
  32670510020758816978083085130507043184471273380659243275938904335757337482424.

Example add_generator :
  secp256k1_add secp256k1_G secp256k1_G = Some (Point.mk
    89565891926547004231252920425935692360644145829622209833684329913297188986597
    12158399299693830322967808612713398636155367887041628176798871954788371653930).
Proof. vm_compute. reflexivity. Qed.

(** ** Libraries *)

Class CoordinatorLibs := {
  (** [MerkleProof.processProof]. *)
  processProof : list B256 → B256 → B256;
  (** [FROST.verifyShare] of the group key, the group commitment, the
      participant's key, the share and the message; [FROST.verify]. *)
  verifyShare : Point → Point → Point → ShareTriple.t → B256 → bool;
  verifySignature : Point → Signature.t → B256 → bool;
}.

Inductive CoordinatorError :=
  | InvalidRootHash | AlreadyInitialized | InvalidParticipant | NotParticipating | AlreadySet
  | AlreadyComplained | NotComplaining | UnrespondedComplaints
  | NonceNotIncluded
  | AlreadyIncluded | ShareNotIncluded
  | InvalidGroupParameters | InvalidGroupCommitment | GroupNotInitialized | GroupNotReady
  | InvalidSecretShare | InvalidMessage | NotSigning
  | NotOnCurve | InvalidSignature
  | Panic. (* checked arithmetic *)

Open Scope safenet_scope.

(** Checked arithmetic. *)
Definition add_up_to (max x y : N) : result N CoordinatorError :=
  if decide (x + y ≤ max) then Ok (x + y) else Err Panic.
Definition sub (x y : N) : result N CoordinatorError :=
  if decide (y ≤ x) then Ok (x - y) else Err Panic.
Definition u16_max : N := u16_modulus - 1.

Definition requireNonZero (p : Point) : result () CoordinatorError :=
  require (satisfiesCurveEquation p = true) NotOnCurve.

(** ** Identifiers *)

(** [FROSTGroupId.mask]. *)
Definition GROUP_MASK : B256 := 2 ^ 256 - 2 ^ 64.
Definition mask (raw : B256) : B256 := N.land raw GROUP_MASK.

(** [FROSTSignatureId.create], [group] and [sequence]. *)
Definition create_sid (gid : B256) (seq : N) : result B256 CoordinatorError :=
  next ←? add_up_to u64_max seq 1;
  Ok (N.lor gid next).
Definition sid_group (sid : B256) : B256 := mask sid.
Definition sid_sequence (sid : B256) : N := ((sid + (2 ^ 256 - 1)) mod 2 ^ 256) mod 2 ^ 64.

(** ** Participants *)

Inductive ParticipantStatus := PNone | REGISTERED | CONFIRMED.
Inductive ComplaintStatus := CNone | SUBMITTED | RESPONDED.
#[export] Instance ParticipantStatus_eq_dec : EqDecision ParticipantStatus.
Proof. solve_decision. Defined.
#[export] Instance ComplaintStatus_eq_dec : EqDecision ComplaintStatus.
Proof. solve_decision. Defined.

Record ParticipantState := {
  participant_status : ParticipantStatus;
  complaints : N;
  accusations : N;
}.
Definition ParticipantState_zero : ParticipantState :=
  {| participant_status := PNone; complaints := 0; accusations := 0 |}.

Record ParticipantMap := {
  map_root : B256;
  states : gmap Address ParticipantState;
  keys : gmap Address Point;
  complaint_statuses : gmap (Address * Address) ComplaintStatus;
}.
Definition ParticipantMap_zero : ParticipantMap :=
  {| map_root := 0; states := ∅; keys := ∅; complaint_statuses := ∅ |}.

Definition participant_state (m : ParticipantMap) (a : Address) : ParticipantState :=
  default ParticipantState_zero (states m !! a).
Definition participant_key (m : ParticipantMap) (a : Address) : Point :=
  default point_zero (keys m !! a).
Definition complaint (m : ParticipantMap) (plaintiff accused : Address) : ComplaintStatus :=
  default CNone (complaint_statuses m !! (plaintiff, accused)).

Definition put_state (a : Address) (s : ParticipantState) (m : ParticipantMap) : ParticipantMap :=
  {| map_root := map_root m; states := <[a := s]> (states m); keys := keys m;
     complaint_statuses := complaint_statuses m |}.
Definition put_complaint (plaintiff accused : Address) (s : ComplaintStatus) (m : ParticipantMap)
    : ParticipantMap :=
  {| map_root := map_root m; states := states m; keys := keys m;
     complaint_statuses := <[(plaintiff, accused) := s]> (complaint_statuses m) |}.

(** [init]. *)
Definition init (m : ParticipantMap) (root : B256) : result ParticipantMap CoordinatorError :=
  _ ←? require (root ≠ 0) InvalidRootHash;
  _ ←? require (map_root m = 0) AlreadyInitialized;
  Ok {| map_root := root; states := states m; keys := keys m;
        complaint_statuses := complaint_statuses m |}.

Definition initialized (m : ParticipantMap) : bool := bool_decide (map_root m ≠ 0).

(** [set]. *)
Definition set_key (m : ParticipantMap) (a : Address) (y : Point)
    : result ParticipantMap CoordinatorError :=
  _ ←? requireNonZero y;
  _ ←? require (participant_status (participant_state m a) = REGISTERED) InvalidParticipant;
  _ ←? require (is_zero (participant_key m a) = true) AlreadySet;
  Ok {| map_root := map_root m; states := states m; keys := <[a := y]> (keys m);
        complaint_statuses := complaint_statuses m |}.

(** [complain], with the accusations against the accused. *)
Definition complain (m : ParticipantMap) (plaintiff accused : Address)
    : result (N * ParticipantMap) CoordinatorError :=
  _ ←? require (plaintiff ≠ accused) InvalidParticipant;
  _ ←? require (complaint m plaintiff accused = CNone) AlreadyComplained;
  let p := participant_state m plaintiff in
  _ ←? require (participant_status p = REGISTERED) InvalidParticipant;
  let a := participant_state m accused in
  _ ←? require (participant_status a ≠ PNone) InvalidParticipant;
  filed ←? add_up_to u16_max (complaints p) 1;
  total ←? add_up_to u16_max (accusations a) 1;
  Ok (total,
      put_state accused
        {| participant_status := participant_status a; complaints := complaints a;
           accusations := total |}
        (put_state plaintiff
           {| participant_status := participant_status p; complaints := filed;
              accusations := accusations p |}
           (put_complaint plaintiff accused SUBMITTED m))).

(** [respond]. *)
Definition respond (m : ParticipantMap) (plaintiff accused : Address)
    : result ParticipantMap CoordinatorError :=
  _ ←? require (complaint m plaintiff accused = SUBMITTED) NotComplaining;
  let m := put_complaint plaintiff accused RESPONDED m in
  let p := participant_state m plaintiff in
  left ←? sub (complaints p) 1;
  let m := put_state plaintiff
    {| participant_status := participant_status p; complaints := left;
       accusations := accusations p |} m in
  let a := participant_state m accused in
  against ←? sub (accusations a) 1;
  Ok (put_state accused
    {| participant_status := participant_status a; complaints := complaints a;
       accusations := against |} m).

(** [confirm]. *)
Definition confirm (m : ParticipantMap) (a : Address) : result ParticipantMap CoordinatorError :=
  let p := participant_state m a in
  _ ←? require (participant_status p = REGISTERED) InvalidParticipant;
  _ ←? require (complaints p = 0) UnrespondedComplaints;
  Ok (put_state a
    {| participant_status := CONFIRMED; complaints := complaints p;
       accusations := accusations p |} m).

(** [getKey]. *)
Definition getKey (m : ParticipantMap) (a : Address) : result Point CoordinatorError :=
  let y := participant_key m a in
  _ ←? require (is_zero y = false) InvalidParticipant;
  Ok y.

(** ** Nonces *)

Definition CHUNKSZ : N := 10.
Definition OFFSETMASK : N := 0x3ff.
Definition ROOTMASK : B256 := 2 ^ 256 - 1024.

Record Commitments := {
  next : N;
  chunks : gmap N B256;
}.
Definition Commitments_zero : Commitments := {| next := 0; chunks := ∅ |}.

(** [FROSTNonceCommitmentSet.T]. *)
Abbreviation NonceCommitmentSet := (gmap Address Commitments).
Definition commitments_of (s : NonceCommitmentSet) (a : Address) : Commitments :=
  default Commitments_zero (s !! a).

(** [_sequence] and the two [_root]s. *)
Definition split_sequence (sequence : N) : N * N :=
  (N.shiftr sequence CHUNKSZ, N.land sequence OFFSETMASK).
Definition pack_root (commitment : B256) (offset : N) : B256 :=
  N.lor (N.land commitment ROOTMASK) offset.
Definition unpack_root (root : B256) : B256 * N := (N.land root ROOTMASK, N.land root OFFSETMASK).

(** [commit]. *)
Definition commit_nonces (s : NonceCommitmentSet) (a : Address) (commitment : B256) (sequence : N)
    : result (N * NonceCommitmentSet) CoordinatorError :=
  let c := commitments_of s a in
  let '(chunk, offset) := split_sequence sequence in
  let '(chunk, offset) := if decide (chunk < next c) then (next c, 0) else (chunk, offset) in
  following ←? add_up_to u64_max chunk 1;
  Ok (chunk,
      <[a := {| next := following;
                chunks := <[chunk := pack_root commitment offset]> (chunks c) |}]> s).

(** ** The contract *)

Inductive GroupStatus := UNINITIALIZED | COMMITTING | SHARING | CONFIRMING | COMPROMISED | FINALIZED.
#[export] Instance GroupStatus_eq_dec : EqDecision GroupStatus.
Proof. solve_decision. Defined.

Record GroupState := {
  status : GroupStatus;
  count : N;
  threshold : N;
  pending : N;
  sequence : N;
}.

Record Group := {
  participants : ParticipantMap;
  nonces : NonceCommitmentSet;
  state : GroupState;
  key : Point;
}.
Definition Group_zero : Group :=
  {| participants := ParticipantMap_zero; nonces := ∅;
     state := {| status := UNINITIALIZED; count := 0; threshold := 0; pending := 0; sequence := 0 |};
     key := point_zero |}.

(** [FROSTSignatureShares.Aggregate]; [Signature]. *)
Record Aggregate := {
  included : gmap Address B256;
  aggregated : Signature.t;
}.
Definition Aggregate_zero : Aggregate :=
  {| included := ∅; aggregated := Signature.mk point_zero 0 |}.

Record Ceremony := {
  message : B256;
  signed : B256;
  aggregates : gmap B256 Aggregate;
}.
Definition Ceremony_zero : Ceremony := {| message := 0; signed := 0; aggregates := ∅ |}.

Record FROSTCoordinator := {
  groups : gmap B256 Group;
  signatures : gmap B256 Ceremony;
}.
Definition FROSTCoordinator_new : FROSTCoordinator := {| groups := ∅; signatures := ∅ |}.

Definition group_at (c : FROSTCoordinator) (gid : B256) : Group :=
  default Group_zero (groups c !! gid).
Definition ceremony_at (c : FROSTCoordinator) (sid : B256) : Ceremony :=
  default Ceremony_zero (signatures c !! sid).
Definition put_group (gid : B256) (g : Group) (c : FROSTCoordinator) : FROSTCoordinator :=
  {| groups := <[gid := g]> (groups c); signatures := signatures c |}.
Definition put_ceremony (sid : B256) (s : Ceremony) (c : FROSTCoordinator) : FROSTCoordinator :=
  {| groups := groups c; signatures := <[sid := s]> (signatures c) |}.

Definition with_status (s : GroupStatus) (pending : N) (g : GroupState) : GroupState :=
  {| status := s; count := count g; threshold := threshold g; pending := pending;
     sequence := sequence g |}.

(** A call's new state and the events it emits. *)
Abbreviation executed := (result (FROSTCoordinator * list CoordinatorEvents) CoordinatorError).

Section contract.
Context {AL : Alloy} {CL : CoordinatorLibs}.

(** [FROSTGroupId.create]. *)
Definition create_gid (participants : B256) (count threshold : N) (context : B256) : B256 :=
  mask (keccak256 (to_be_bytes 32 participants ++ to_be_bytes 32 count ++
                   to_be_bytes 32 threshold ++ to_be_bytes 32 context)).

(** [MerkleProof.verify] and [FROSTParticipantMap.register]. *)
Definition verifyProof (proof : list B256) (root leaf : B256) : bool :=
  bool_decide (processProof proof leaf = root).
Definition register (m : ParticipantMap) (a : Address) (poap : list B256)
    : result ParticipantMap CoordinatorError :=
  let s := participant_state m a in
  _ ←? require (participant_status s = PNone) InvalidParticipant;
  _ ←? require (verifyProof poap (map_root m) a = true) NotParticipating;
  Ok (put_state a
    {| participant_status := REGISTERED; complaints := complaints s;
       accusations := accusations s |} m).

(** [FROSTNonceCommitmentSet._hash] and [verify]. *)
Definition nonce_hash (offset : N) (d e : Point) : B256 :=
  keccak256 (to_be_bytes 32 offset ++ to_be_bytes 32 (Point.x d) ++ to_be_bytes 32 (Point.y d) ++
             to_be_bytes 32 (Point.x e) ++ to_be_bytes 32 (Point.y e)).
Definition verify_nonces (s : NonceCommitmentSet) (a : Address) (d e : Point) (sequence : N)
    (proof : list B256) : result () CoordinatorError :=
  _ ←? requireNonZero d;
  _ ←? requireNonZero e;
  let '(chunk, offset) := split_sequence sequence in
  let '(commitment, startOffset) :=
    unpack_root (default 0 (chunks (commitments_of s a) !! chunk)) in
  _ ←? require (startOffset ≤ offset) NonceNotIncluded;
  _ ←? require (length proof = N.to_nat CHUNKSZ) NonceNotIncluded;
  let digest := processProof proof (nonce_hash offset d e) in
  require (N.land digest ROOTMASK = commitment) NonceNotIncluded.

(** [FROSTSignatureShares._hash] and [register]. *)
Definition share_hash (a : Address) (share : ShareTriple.t) (r : Point) : B256 :=
  keccak256 (to_be_bytes 32 a ++ to_be_bytes 32 (Point.x (ShareTriple.r share)) ++
             to_be_bytes 32 (Point.y (ShareTriple.r share)) ++
             to_be_bytes 32 (ShareTriple.l share) ++
             to_be_bytes 32 (Point.x r) ++ to_be_bytes 32 (Point.y r)).
Definition register_share (s : Ceremony) (a : Address) (share : ShareTriple.t) (r : Point)
    (root : B256) (proof : list B256) : result (Signature.t * Ceremony) CoordinatorError :=
  let aggregate := default Aggregate_zero (aggregates s !! root) in
  _ ←? require (default 0 (included aggregate !! a) = 0) AlreadyIncluded;
  let leaf := share_hash a share r in
  _ ←? require (verifyProof proof root leaf = true) ShareNotIncluded;
  r ←? ok_or NotOnCurve (secp256k1_add (Signature.r (aggregated aggregate)) (ShareTriple.r share));
  let signature := Signature.mk r
    (addmod (Signature.z (aggregated aggregate)) (ShareTriple.z share) secp256k1_N) in
  Ok (signature,
      {| message := message s; signed := signed s;
         aggregates :=
           <[root := {| included := <[a := leaf]> (included aggregate);
                        aggregated := signature |}]> (aggregates s) |}).

(** ** Key generation *)

Definition keyGen (c : FROSTCoordinator) (root : B256) (n t : N) (context : B256) : executed :=
  _ ←? require (t ≤ n ∧ 1 < t) InvalidGroupParameters;
  let gid := create_gid root n t context in
  let group := group_at c gid in
  m ←? init (participants group) root;
  Ok (put_group gid
        {| participants := m; nonces := nonces group;
           state := {| status := COMMITTING; count := n; threshold := t; pending := n;
                       sequence := 0 |};
           key := key group |} c,
      [EvKeyGen (KeyGen.mk gid root n t context)]).

Definition keyGenCommit (c : FROSTCoordinator) (caller : Address) (gid : B256) (poap : list B256)
    (commitment : KeyGenCommitment.t) : executed :=
  let group := group_at c gid in
  let g := state group in
  _ ←? require (status g = COMMITTING) GroupNotReady;
  left ←? sub (pending g) 1;
  let committed := bool_decide (left = 0) in
  let g := if committed then with_status SHARING (count g) g else with_status COMMITTING left g in
  _ ←? requireNonZero (KeyGenCommitment.q commitment);
  _ ←? require (N.of_nat (length (KeyGenCommitment.c commitment)) = threshold g)
         InvalidGroupCommitment;
  m ←? register (participants group) caller poap;
  first ←? ok_or Panic (head (KeyGenCommitment.c commitment));
  k ←? ok_or NotOnCurve (secp256k1_add (key group) first);
  Ok (put_group gid {| participants := m; nonces := nonces group; state := g; key := k |} c,
      [EvKeyGenCommitted (KeyGenCommitted.mk gid caller commitment committed)]).

Definition keyGenAndCommit (c : FROSTCoordinator) (caller : Address) (root : B256) (n t : N)
    (context : B256) (poap : list B256) (commitment : KeyGenCommitment.t) : executed :=
  let gid := create_gid root n t context in
  '(c, created) ←?
    (if initialized (participants (group_at c gid)) then Ok (c, [])
     else keyGen c root n t context);
  '(c, committed) ←? keyGenCommit c caller gid poap commitment;
  Ok (c, created ++ committed).

Definition keyGenSecretShare (c : FROSTCoordinator) (caller : Address) (gid : B256)
    (share : KeyGenSecretShare.t) : executed :=
  let group := group_at c gid in
  let g := state group in
  _ ←? require (status g = SHARING) GroupNotReady;
  left ←? sub (pending g) 1;
  let shared := bool_decide (left = 0) in
  let g := if shared then with_status CONFIRMING (count g) g else with_status SHARING left g in
  _ ←? require (N.of_nat (length (KeyGenSecretShare.f share)) =
         (count g + u16_max) mod u16_modulus) InvalidSecretShare;
  m ←? set_key (participants group) caller (KeyGenSecretShare.y share);
  Ok (put_group gid {| participants := m; nonces := nonces group; state := g; key := key group |} c,
      [EvKeyGenSecretShared (KeyGenSecretShared.mk gid caller share shared)]).

Definition keyGenConfirm (c : FROSTCoordinator) (caller : Address) (gid : B256) : executed :=
  let group := group_at c gid in
  let g := state group in
  _ ←? require (status g = CONFIRMING) GroupNotReady;
  m ←? confirm (participants group) caller;
  left ←? sub (pending g) 1;
  let confirmed := bool_decide (left = 0) in
  let g := with_status (if confirmed then FINALIZED else CONFIRMING) left g in
  Ok (put_group gid {| participants := m; nonces := nonces group; state := g; key := key group |} c,
      [EvKeyGenConfirmed (KeyGenConfirmed.mk gid caller confirmed)]).

Definition keyGenComplain (c : FROSTCoordinator) (caller : Address) (gid : B256)
    (accused : Address) : executed :=
  let group := group_at c gid in
  let g := state group in
  _ ←? require (status g = SHARING ∨ status g = CONFIRMING) GroupNotReady;
  '(total, m) ←? complain (participants group) caller accused;
  let compromised := bool_decide (threshold g ≤ total) in
  let g := if compromised then with_status COMPROMISED (pending g) g else g in
  Ok (put_group gid {| participants := m; nonces := nonces group; state := g; key := key group |} c,
      [EvKeyGenComplained (KeyGenComplained.mk gid caller accused compromised)]).

Definition keyGenComplaintResponse (c : FROSTCoordinator) (caller : Address) (gid : B256)
    (plaintiff : Address) (secretShare : U256) : executed :=
  let group := group_at c gid in
  let g := state group in
  _ ←? require (status g = SHARING ∨ status g = CONFIRMING) GroupNotReady;
  m ←? respond (participants group) plaintiff caller;
  Ok (put_group gid {| participants := m; nonces := nonces group; state := g; key := key group |} c,
      [EvKeyGenComplaintResponded
         (KeyGenComplaintResponded.mk gid plaintiff caller secretShare)]).

(** ** Signing *)

Definition preprocess (c : FROSTCoordinator) (caller : Address) (gid commitment : B256) : executed :=
  let group := group_at c gid in
  _ ←? require (participant_status (participant_state (participants group) caller) = CONFIRMED)
         InvalidParticipant;
  '(chunk, ns) ←? commit_nonces (nonces group) caller commitment (sequence (state group));
  Ok (put_group gid
        {| participants := participants group; nonces := ns; state := state group;
           key := key group |} c,
      [EvPreprocess (Preprocess.mk gid caller chunk commitment)]).

Definition sign (c : FROSTCoordinator) (caller : Address) (gid digest : B256) : executed :=
  _ ←? require (digest ≠ 0) InvalidMessage;
  let group := group_at c gid in
  let g := state group in
  _ ←? require (0 < count g) GroupNotInitialized;
  _ ←? require (status g = FINALIZED) GroupNotReady;
  let seq := sequence g in
  following ←? add_up_to u64_max seq 1;
  sid ←? create_sid gid seq;
  let s := ceremony_at c sid in
  Ok (put_ceremony sid
        {| message := digest; signed := signed s; aggregates := aggregates s |}
        (put_group gid
           {| participants := participants group; nonces := nonces group;
              state := {| status := status g; count := count g; threshold := threshold g;
                          pending := pending g; sequence := following |};
              key := key group |} c),
      [EvSign (Sign.mk caller gid digest sid seq)]).

(** [_signatureGroupAndMessage]. *)
Definition signatureGroupAndMessage (c : FROSTCoordinator) (sid : B256)
    : result (Group * B256) CoordinatorError :=
  let digest := message (ceremony_at c sid) in
  _ ←? require (digest ≠ 0) NotSigning;
  Ok (group_at c (sid_group sid), digest).

Definition signRevealNonces (c : FROSTCoordinator) (caller : Address) (sid : B256)
    (revealed : SignNonces) (proof : list B256) : executed :=
  '(group, _) ←? signatureGroupAndMessage c sid;
  _ ←? verify_nonces (nonces group) caller (SignNonces.d revealed) (SignNonces.e revealed)
         (sid_sequence sid) proof;
  Ok (c, [EvSignRevealedNonces (SignRevealedNonces.mk sid caller revealed)]).

Definition signShare (c : FROSTCoordinator) (caller : Address) (sid : B256)
    (selection : SignSelection) (share : ShareTriple.t) (proof : list B256) : executed :=
  '(group, digest) ←? signatureGroupAndMessage c sid;
  y ←? getKey (participants group) caller;
  _ ←? require (verifyShare (key group) (SignSelection.r selection) y share digest = true)
         InvalidSignature;
  '(accumulator, s) ←? register_share (ceremony_at c sid) caller share
     (SignSelection.r selection) (SignSelection.root selection) proof;
  let shared := EvSignShared
    (SignShared.mk sid (SignSelection.root selection) caller (ShareTriple.z share)) in
  _ ←? require (unpacks (SignSelection.r selection) = true ∧
         unpacks (Signature.r accumulator) = true) NotOnCurve;
  if decide (Point.x (SignSelection.r selection) = Point.x (Signature.r accumulator) ∧
             Point.y (SignSelection.r selection) = Point.y (Signature.r accumulator)) then
    _ ←? require (verifySignature (key group) accumulator digest = true) InvalidSignature;
    if decide (signed s = 0) then
      Ok (put_ceremony sid
            {| message := message s; signed := SignSelection.root selection;
               aggregates := aggregates s |} c,
          [shared; EvSignCompleted
             (SignCompleted.mk sid (SignSelection.root selection) accumulator)])
    else Ok (put_ceremony sid s c, [shared])
  else Ok (put_ceremony sid s c, [shared]).

(** ** Calls *)

(** The external functions: those the validator calls, and the others. *)
Inductive CoordinatorCall :=
  | XKeyGen (root : B256) (count threshold : N) (context : B256)
  | XKeyGenCommit (gid : B256) (poap : list B256) (commitment : KeyGenCommitment.t)
  | XSignShare (sid : B256) (selection : SignSelection) (share : ShareTriple.t)
      (proof : list B256)
  | XCall (call : CoordinatorCalls).

Definition coordinate (c : FROSTCoordinator) (caller : Address) (call : CoordinatorCall)
    : executed :=
  match call with
  | XKeyGen root count threshold context => keyGen c root count threshold context
  | XKeyGenCommit gid poap commitment => keyGenCommit c caller gid poap commitment
  | XSignShare sid selection share proof => signShare c caller sid selection share proof
  | XCall (keyGenAndCommitCall root count threshold context poap commitment) =>
      keyGenAndCommit c caller root count threshold context poap commitment
  | XCall (keyGenSecretShareCall gid share) => keyGenSecretShare c caller gid share
  | XCall (keyGenComplainCall gid accused) => keyGenComplain c caller gid accused
  | XCall (keyGenComplaintResponseCall gid plaintiff secretShare) =>
      keyGenComplaintResponse c caller gid plaintiff secretShare
  | XCall (keyGenConfirmCall gid) | XCall (keyGenConfirmWithCallbackCall gid _) =>
      keyGenConfirm c caller gid
  | XCall (preprocessCall gid commitment) => preprocess c caller gid commitment
  | XCall (signCall gid digest) => sign c caller gid digest
  | XCall (signRevealNoncesCall sid revealed proof) => signRevealNonces c caller sid revealed proof
  | XCall (signShareWithCallbackCall sid selection share proof _) =>
      signShare c caller sid selection share proof
  end.
End contract.
