(* ===== verification/CoordinatorInvariant.v ===== *)
(** * What the coordinator keeps

    Identifiers and packed roots read back what was written; groups exist under
    their own identifiers; and what a participant may reveal it may reveal in
    every later state of the contract. *)

From S2P Require Import Prelude.
From S2P Require Import Bytes.
From S2P Require Import Bindings.
From S2P Require Import Alloy.
From S2P Require Import Merkle.
From S2P Require Import Group.
From S2P Require Import FrostLib.
From S2P Require Import FrostSign.
From S2P Require Import FROSTCoordinator.
Import Coordinator.

(** ** Bits *)

(** Compares two numbers bit by bit, with the constant masks spelled out. *)
Ltac bits :=
  apply N.bits_inj; intros i;
  rewrite ?N.land_spec, ?N.lor_spec, ?N.land_spec, ?N.lor_spec.

Lemma ROOTMASK_spec i : N.testbit ROOTMASK i = (10 <=? i)%N && (i <? 256)%N.
Proof.
  replace ROOTMASK with (N.ldiff (N.ones 256) (N.ones 10)) by done.
  rewrite N.ldiff_spec.
  destruct (N.ltb_spec i 256), (N.leb_spec 10 i);
    rewrite ?N.ones_spec_low, ?N.ones_spec_high by lia; done.
Qed.
Lemma GROUP_MASK_spec i : N.testbit GROUP_MASK i = (64 <=? i)%N && (i <? 256)%N.
Proof.
  replace GROUP_MASK with (N.ldiff (N.ones 256) (N.ones 64)) by done.
  rewrite N.ldiff_spec.
  destruct (N.ltb_spec i 256), (N.leb_spec 64 i);
    rewrite ?N.ones_spec_low, ?N.ones_spec_high by lia; done.
Qed.

Lemma small_bits x n i : x < 2 ^ n → n ≤ i → N.testbit x i = false.
Proof.
  intros Hx Hi. destruct (decide (x = 0)) as [->|Hne]; [apply N.bits_0|].
  apply N.bits_above_log2. eapply N.lt_le_trans; [|exact Hi]. apply N.log2_lt_pow2; lia.
Qed.

(** A root and an offset read back. *)
Lemma unpack_pack root offset :
  offset < 1024 → unpack_root (pack_root root offset) = (N.land root ROOTMASK, offset).
Proof.
  intros Ho. unfold unpack_root, pack_root.
  assert (∀ i, 10 ≤ i → N.testbit offset i = false) as Hbit.
  { intros i. apply (small_bits _ 10). exact Ho. }
  f_equal; bits; rewrite ROOTMASK_spec.
  - destruct (N.leb_spec 10 i); [rewrite Hbit by done|]; simpl;
      destruct (N.testbit root i), (i <? 256), (N.testbit offset i); done.
  - replace OFFSETMASK with (N.ones 10) by done. destruct (N.leb_spec 10 i).
    + by rewrite N.ones_spec_high, Hbit, andb_false_r by done.
    + rewrite N.ones_spec_low by done. by destruct (N.testbit root i), (N.testbit offset i).
Qed.

(** A signature identifier leads back to its group and sequence. *)
Lemma sid_parts gid seq :
  mask gid = gid → seq + 1 ≤ u64_max →
  sid_group (N.lor gid (seq + 1)) = gid ∧ sid_sequence (N.lor gid (seq + 1)) = seq.
Proof.
  intros Hm Hs.
  assert (∀ i, 64 ≤ i → N.testbit (seq + 1) i = false) as Hhigh.
  { intros i. apply (small_bits _ 64). unfold u64_max in Hs. lia. }
  assert (∀ i, N.testbit gid i = N.testbit gid i && ((64 <=? i) && (i <? 256))) as Hgid.
  { intros i. rewrite <- Hm at 1. unfold mask. by rewrite N.land_spec, GROUP_MASK_spec. }
  split.
  - unfold sid_group, mask. bits. rewrite GROUP_MASK_spec, (Hgid i).
    destruct (N.leb_spec 64 i); [rewrite Hhigh by done|]; simpl;
      destruct (N.testbit gid i), (i <? 256), (N.testbit (seq + 1) i); done.
  - assert (N.land gid (seq + 1) = 0) as Hdisj.
    { bits. rewrite N.bits_0, (Hgid i).
      destruct (N.leb_spec 64 i); [rewrite Hhigh by done|]; simpl;
        destruct (N.testbit gid i), (i <? 256), (N.testbit (seq + 1) i); done. }
    assert (N.lor gid (seq + 1) = gid + (seq + 1)) as ->.
    { rewrite <- (N.lxor_lor _ _ Hdisj). symmetry. by apply N.add_nocarry_lxor. }
    assert (gid mod 2 ^ 64 = 0) as Hlow.
    { rewrite <- N.land_ones. bits. rewrite N.bits_0, (Hgid i).
      destruct (N.leb_spec 64 i); [rewrite N.ones_spec_high by done|];
        by destruct (N.testbit gid i), (i <? 256), (N.testbit (N.ones 64) i). }
    unfold sid_sequence.
    replace (2 ^ 256) with (2 ^ 64 * 2 ^ 192) by done.
    rewrite N.Div0.mod_mul_r.
    rewrite (N.mul_comm (2 ^ 64) (_ mod 2 ^ 192)), N.Div0.mod_add, N.Div0.mod_mod.
    replace (gid + (seq + 1) + (2 ^ 64 * 2 ^ 192 - 1))
      with (gid + seq + 2 ^ 192 * 2 ^ 64) by lia.
    rewrite N.Div0.mod_add, <- N.Div0.add_mod_idemp_l, Hlow. apply N.mod_small.
    unfold u64_max in Hs. lia.
Qed.

Lemma mask_idem raw : mask (mask raw) = mask raw.
Proof.
  unfold mask. bits. rewrite GROUP_MASK_spec.
  by destruct (N.testbit raw i), (64 <=? i), (i <? 256).
Qed.

(** ** What contract and validator compute alike *)

Lemma split_sequence_decode seq : split_sequence seq = decode_sequence seq.
Proof.
  unfold split_sequence, decode_sequence, CHUNKSZ, OFFSETMASK. f_equal.
  - apply N.shiftr_div_pow2.
  - change 0x3ff with (N.ones 10). apply N.land_ones.
Qed.

Lemma from_be_zeros k l : from_be_bytes (zeros k ++ l) = from_be_bytes l.
Proof.
  induction k as [|k IH]; [done|]. rewrite <- IH. unfold from_be_bytes, zeros.
  cbn [replicate app]. rewrite reverse_cons. generalize (reverse (replicate k x00 ++ l)) as r.
  intros r. induction r as [|b r IHr]; cbn [app from_le_bytes]; [done|]. by rewrite IHr.
Qed.

(** Zeroes before a narrow field make it a word. *)
Lemma zeros_to_be_bytes k n x :
  x < 256 ^ N.of_nat n → zeros k ++ to_be_bytes n x = to_be_bytes (k + n) x.
Proof.
  intros Hx. apply from_be_bytes_inj.
  - rewrite length_app, !length_to_be_bytes. unfold zeros. by rewrite length_replicate.
  - rewrite from_be_zeros, !from_to_be_bytes, !N.mod_small; [done| |done].
    eapply N.lt_le_trans; [exact Hx|]. apply N.pow_le_mono_r; lia.
Qed.

(** What a call that succeeded went through. *)
Ltac result_inv H :=
  repeat match type of H with
  | rbind ?m _ = Ok _ =>
      let E := fresh "E" in destruct m eqn:E; simpl in H; [|discriminate H];
      try (apply require_Ok in E)
  | (let '(_, _) := ?p in _) = Ok _ => is_var p; destruct p; simpl in H
  end.

Section contract.
Context {AL : Alloy} {CL : CoordinatorLibs}.

Lemma nonce_hash_leaf offset ns :
  offset < 1024 →
  nonce_hash offset (SignNonces.d ns) (SignNonces.e ns) = nonces_leaf offset ns.
Proof.
  intros Ho. unfold nonce_hash, nonces_leaf.
  rewrite <- (zeros_to_be_bytes 24 8); [by rewrite <- app_assoc|].
  eapply N.lt_le_trans; [exact Ho|]. by vm_compute.
Qed.

(** [MerkleProof.processProof] hashes sorted pairs on the way to the root. *)
Definition sorted_pairs : Prop :=
  ∀ proof leaf, processProof proof leaf = foldl hash_pair leaf proof.

(** ** The groups *)

Record group_ok (gid : B256) (g : Group) : Prop := {
  ok_fresh : map_root (participants g) = 0 → state g = state Group_zero ∧
    nonces g = ∅ ∧ states (participants g) = ∅ ∧ key g = point_zero;
  ok_mask : map_root (participants g) ≠ 0 → mask gid = gid;
  ok_next a chunk : is_Some (chunks (commitments_of (nonces g) a) !! chunk) →
    chunk < next (commitments_of (nonces g) a);
  ok_pending : status (state g) = COMMITTING → 0 < pending (state g);
}.
Definition contract_ok (c : FROSTCoordinator) : Prop := ∀ gid, group_ok gid (group_at c gid).

(** Group by group, nothing committed is lost. *)
Record group_grows (g g' : Group) : Prop := {
  grows_sequence : sequence (state g) ≤ sequence (state g');
  grows_chunks a chunk root : chunks (commitments_of (nonces g) a) !! chunk = Some root →
    chunks (commitments_of (nonces g') a) !! chunk = Some root;
}.
Record grows (c c' : FROSTCoordinator) : Prop := {
  grows_groups gid : group_grows (group_at c gid) (group_at c' gid);
  grows_messages sid : message (ceremony_at c sid) ≠ 0 → message (ceremony_at c' sid) ≠ 0;
}.

Lemma group_grows_refl g : group_grows g g.
Proof. by split. Qed.
Lemma grows_refl c : grows c c.
Proof. split; [intros; apply group_grows_refl|done]. Qed.
Lemma grows_trans c1 c2 c3 : grows c1 c2 → grows c2 c3 → grows c1 c3.
Proof.
  intros [H1 M1] [H2 M2]. split; [|auto].
  intros gid. destruct (H1 gid), (H2 gid). split; [lia|eauto].
Qed.

Lemma group_at_put gid g c gid' :
  group_at (put_group gid g c) gid' = if decide (gid = gid') then g else group_at c gid'.
Proof.
  unfold group_at, put_group. simpl. case_decide as H; [subst|];
    by rewrite ?lookup_insert_eq, ?lookup_insert_ne by done.
Qed.
Lemma ceremony_at_put sid s c sid' :
  ceremony_at (put_ceremony sid s c) sid' = if decide (sid = sid') then s else ceremony_at c sid'.
Proof.
  unfold ceremony_at, put_ceremony. simpl. case_decide as H; [subst|];
    by rewrite ?lookup_insert_eq, ?lookup_insert_ne by done.
Qed.

(** A call that changes one group. *)
Lemma put_group_ok gid g c :
  contract_ok c → group_ok gid g → group_grows (group_at c gid) g →
  contract_ok (put_group gid g c) ∧ grows c (put_group gid g c).
Proof.
  intros Hc Hg Hgrow. split.
  - intros gid'. rewrite group_at_put. case_decide; [by subst|apply Hc].
  - split; [|done]. intros gid'. rewrite group_at_put.
    case_decide; [by subst|apply group_grows_refl].
Qed.

(** A call that changes one ceremony, whose message stays. *)
Lemma put_ceremony_ok sid s c :
  contract_ok c → (message (ceremony_at c sid) ≠ 0 → message s ≠ 0) →
  contract_ok (put_ceremony sid s c) ∧ grows c (put_ceremony sid s c).
Proof.
  intros Hc Hs. split; [done|]. split; [intros; apply group_grows_refl|].
  intros sid'. rewrite ceremony_at_put. case_decide; [by subst|done].
Qed.

(** What changes neither the nonces nor the sequence of a group that exists. *)
Lemma group_kept gid g m s k :
  group_ok gid g → map_root (participants g) ≠ 0 → map_root m = map_root (participants g) →
  sequence s = sequence (state g) → (status s = COMMITTING → 0 < pending s) →
  let g' := {| participants := m; nonces := nonces g; state := s; key := k |} in
  group_ok gid g' ∧ group_grows g g'.
Proof.
  intros [Hf Hm Hn Hp] Hr Hmr Hs Hp' g'. split; split; simpl; try done; [|by rewrite Hmr|lia].
  by rewrite Hmr.
Qed.

(** ** The calls *)

(** The packed root of a committed chunk, and the next sequence of a group. *)
Definition committed_root (c : FROSTCoordinator) (gid : B256) (a : Address) (chunk : N)
    : option B256 := chunks (commitments_of (nonces (group_at c gid)) a) !! chunk.
Definition group_sequence (c : FROSTCoordinator) (gid : B256) : N :=
  sequence (state (group_at c gid)).
Definition signing_message (c : FROSTCoordinator) (sid : B256) : B256 :=
  message (ceremony_at c sid).

(** What the two events say that the validator's books depend on. *)
Definition told (c c' : FROSTCoordinator) (ev : CoordinatorEvents) : Prop :=
  match ev with
  | EvPreprocess (Preprocess.mk gid a chunk commitment) =>
      ∃ start, start < 1024 ∧
        committed_root c' gid a chunk = Some (pack_root commitment start) ∧
        (start = 0 ∨ chunk * 1024 + start ≤ group_sequence c' gid)
  | EvSign (Sign.mk _ gid _ sid seq) =>
      signing_message c' sid ≠ 0 ∧ sid_group sid = gid ∧ sid_sequence sid = seq ∧
      seq = group_sequence c gid
  | _ => True
  end.
Definition plain (ev : CoordinatorEvents) : Prop :=
  match ev with EvPreprocess _ | EvSign _ => False | _ => True end.

(** What every call that succeeds establishes. *)
Definition call_ok (c : FROSTCoordinator) (c' : FROSTCoordinator) (evs : list CoordinatorEvents)
    : Prop :=
  contract_ok c' ∧ grows c c' ∧ (Forall plain evs ∨ ∃ ev, evs = [ev] ∧ told c c' ev).

Lemma kept_call gid c m s k evs :
  contract_ok c → map_root (participants (group_at c gid)) ≠ 0 →
  map_root m = map_root (participants (group_at c gid)) →
  sequence s = sequence (state (group_at c gid)) →
  (status s = COMMITTING → 0 < pending s) → Forall plain evs →
  call_ok c (put_group gid {| participants := m; nonces := nonces (group_at c gid);
                              state := s; key := k |} c) evs.
Proof.
  intros Hc Hr Hm Hs Hp Hevs.
  destruct (group_kept gid _ m s k (Hc gid) Hr Hm Hs Hp) as [Hok Hgrow].
  destruct (put_group_ok gid _ c Hc Hok Hgrow). split_and!; auto.
Qed.

(** A group that is under way exists. *)
Lemma status_exists c gid :
  contract_ok c → status (state (group_at c gid)) ≠ UNINITIALIZED →
  map_root (participants (group_at c gid)) ≠ 0.
Proof. intros Hc Hs Hr. destruct (Hc gid) as [Hf _ _ _]. destruct (Hf Hr) as [Hst _]. by rewrite Hst in Hs. Qed.

Lemma keyGen_ok c root n t context c' evs :
  contract_ok c → keyGen c root n t context = Ok (c', evs) → call_ok c c' evs.
Proof.
  intros Hc H. unfold keyGen in H. cbv zeta in H. result_inv H. injection H as <- <-.
  unfold init in E0. result_inv E0.
  injection E0 as <-. set (gid := create_gid root n t context) in *.
  destruct (Hc gid) as [Hf Hm Hn Hp]. destruct (Hf E2) as (Hst & Hno & Hss & _).
  destruct (put_group_ok gid
    {| participants := {| map_root := root; states := states (participants (group_at c gid));
         keys := keys (participants (group_at c gid));
         complaint_statuses := complaint_statuses (participants (group_at c gid)) |};
       nonces := nonces (group_at c gid);
       state := {| status := COMMITTING; count := n; threshold := t; pending := n;
                   sequence := 0 |};
       key := key (group_at c gid) |} c Hc) as [Hok Hgrow].
  - split; simpl; [done| |done|lia]. intros _. apply mask_idem.
  - split; simpl; [|done]. by rewrite Hst.
  - split_and!; [done|done|]. left. by repeat constructor.
Qed.

Lemma keyGenCommit_ok c a gid poap commitment c' evs :
  contract_ok c → keyGenCommit c a gid poap commitment = Ok (c', evs) →
  call_ok c c' evs ∧ Forall plain evs.
Proof.
  intros Hc H. unfold keyGenCommit in H. cbv zeta in H. result_inv H. injection H as <- <-.
  split; [|by repeat constructor]. apply kept_call; [done| | | | |by repeat constructor].
  - apply status_exists; [done|]. by rewrite E.
  - unfold register in *. result_inv E3. by injection E3 as <-.
  - by case_match.
  - case_bool_decide; simpl; [done|lia].
Qed.

Lemma keyGenSecretShare_ok c a gid share c' evs :
  contract_ok c → keyGenSecretShare c a gid share = Ok (c', evs) → call_ok c c' evs.
Proof.
  intros Hc H. unfold keyGenSecretShare in H. cbv zeta in H. result_inv H. injection H as <- <-.
  apply kept_call; [done| | | | |by repeat constructor].
  - apply status_exists; [done|]. by rewrite E.
  - unfold set_key in *. result_inv E2. by injection E2 as <-.
  - by case_match.
  - by case_match.
Qed.

Lemma keyGenConfirm_ok c a gid c' evs :
  contract_ok c → keyGenConfirm c a gid = Ok (c', evs) → call_ok c c' evs.
Proof.
  intros Hc H. unfold keyGenConfirm in H. cbv zeta in H. result_inv H. injection H as <- <-.
  apply kept_call; [done| | |done| |by repeat constructor].
  - apply status_exists; [done|]. by rewrite E.
  - unfold confirm in *. result_inv E0. by injection E0 as <-.
  - simpl. by case_match.
Qed.

Lemma keyGenComplain_ok c a gid accused c' evs :
  contract_ok c → keyGenComplain c a gid accused = Ok (c', evs) → call_ok c c' evs.
Proof.
  intros Hc H. unfold keyGenComplain in H. cbv zeta in H. result_inv H.
  injection H as <- <-.
  apply kept_call; [done| | | | |by repeat constructor].
  - apply status_exists; [done|]. intros Hs. rewrite Hs in E. by destruct E.
  - unfold complain in *. result_inv E0. by injection E0 as <- <-.
  - by case_match.
  - case_match; [done|apply Hc].
Qed.

Lemma keyGenComplaintResponse_ok c a gid plaintiff x c' evs :
  contract_ok c → keyGenComplaintResponse c a gid plaintiff x = Ok (c', evs) → call_ok c c' evs.
Proof.
  intros Hc H. unfold keyGenComplaintResponse in H. cbv zeta in H. result_inv H.
  injection H as <- <-. apply kept_call; [done| | |done|apply Hc|by repeat constructor].
  - apply status_exists; [done|]. intros Hs. rewrite Hs in E. by destruct E.
  - unfold respond in *. cbv zeta in *. result_inv E0. by injection E0 as <-.
Qed.

(** A chunk is committed in a place that is still free. *)
Lemma commit_nonces_ok s a commitment seq chunk s' :
  (∀ k, is_Some (chunks (commitments_of s a) !! k) → k < next (commitments_of s a)) →
  commit_nonces s a commitment seq = Ok (chunk, s') →
  ∃ start c', start < 1024 ∧ (start = 0 ∨ chunk * 1024 + start ≤ seq) ∧
    s' = <[a := c']> s ∧ next (commitments_of s a) ≤ chunk ∧ next c' = chunk + 1 ∧
    chunks c' = <[chunk := pack_root commitment start]> (chunks (commitments_of s a)).
Proof.
  intros Hn. unfold commit_nonces. rewrite split_sequence_decode. unfold decode_sequence.
  set (c := commitments_of s a) in *. unfold add_up_to.
  case_decide; case_decide; simpl; try done; intros [= <- <-].
  - exists 0. eexists. split_and!; [done|by left|done|done|done|done].
  - exists (seq mod 1024). eexists. split_and!; [by apply N.mod_lt| |done|lia|done|done].
    right. unfold SEQUENCE_CHUNK_SIZE. div_facts seq 1024. lia.
Qed.

Lemma preprocess_ok c a gid commitment c' evs :
  contract_ok c → preprocess c a gid commitment = Ok (c', evs) → call_ok c c' evs.
Proof.
  intros Hc H. unfold preprocess in H. cbv zeta in H. result_inv H.
  injection H as <- <-.
  pose proof (Hc gid) as [Hf Hm Hn Hp].
  assert (map_root (participants (group_at c gid)) ≠ 0) as Hr.
  { intros Hr. destruct (Hf Hr) as (_ & _ & Hss & _). unfold participant_state in E.
    by rewrite Hss, lookup_empty in E. }
  apply commit_nonces_ok in E0 as (start & cm & Hst & Hle & -> & Hnext & Hnext' & Hch); [|by auto].
  destruct (put_group_ok gid
    {| participants := participants (group_at c gid);
       nonces := <[a:=cm]> (nonces (group_at c gid));
       state := state (group_at c gid); key := key (group_at c gid) |} c Hc) as [Hok Hgrow].
  - split; simpl; [done|done| |done]. intros a' k. unfold commitments_of.
    destruct (decide (a = a')) as [<-|Hne].
    + rewrite lookup_insert_eq. simpl. rewrite Hch, Hnext'.
      destruct (decide (n = k)) as [<-|Hk]; [lia|]. rewrite lookup_insert_ne by done.
      intros Hk'%Hn. lia.
    + rewrite lookup_insert_ne by done. apply Hn.
  - split; simpl; [done|]. intros a' k root Hk. unfold commitments_of.
    destruct (decide (a = a')) as [<-|Hne]; [|by rewrite lookup_insert_ne by done].
    rewrite lookup_insert_eq. simpl. rewrite Hch. rewrite lookup_insert_ne; [done|].
    intros <-. specialize (Hn a n). rewrite Hk in Hn. specialize (Hn ltac:(eauto)). lia.
  - split_and!; [done|done|]. right. eexists. split; [done|]. simpl. exists start.
    unfold committed_root, group_sequence.
    rewrite group_at_put, decide_True by done. simpl. split_and!; [done| |done].
    unfold commitments_of. rewrite lookup_insert_eq. simpl. rewrite Hch.
    by rewrite lookup_insert_eq.
Qed.

Lemma sign_call_ok c a gid digest c' evs :
  contract_ok c → sign c a gid digest = Ok (c', evs) → call_ok c c' evs.
Proof.
  intros Hc H. unfold sign, create_sid in H. cbv zeta in H. result_inv H. injection H as <- <-.
  unfold add_up_to in E2. case_decide as Hmax; [|done]. injection E2 as <-.
  pose proof (status_exists c gid Hc) as Hr. rewrite E1 in Hr. specialize (Hr ltac:(done)).
  destruct (Hc gid) as [Hf Hm Hn Hp]. set (seq := sequence (state (group_at c gid))) in *.
  destruct (put_group_ok gid
    {| participants := participants (group_at c gid); nonces := nonces (group_at c gid);
       state := {| status := status (state (group_at c gid));
                   count := count (state (group_at c gid));
                   threshold := threshold (state (group_at c gid));
                   pending := pending (state (group_at c gid)); sequence := seq + 1 |};
       key := key (group_at c gid) |} c Hc) as [Hok Hgrow].
  - by split.
  - split; simpl; [lia|done].
  - match goal with |- call_ok c (put_ceremony ?sid ?s ?c1) _ =>
      destruct (put_ceremony_ok sid s c1 Hok) as [Hok' Hgrow'] end; [done|].
    split_and!; [done|by eapply grows_trans|]. right. eexists. split; [done|]. simpl.
    unfold signing_message, group_sequence.
    rewrite ceremony_at_put, decide_True by done. simpl.
    destruct (sid_parts gid seq (Hm Hr)) as [Hg Hs]; [done|]. done.
Qed.

Lemma signShare_ok c a sid selection share proof c' evs :
  contract_ok c → signShare c a sid selection share proof = Ok (c', evs) → call_ok c c' evs.
Proof.
  intros Hc H. unfold signShare in H. result_inv H. cbv zeta in H. result_inv H.
  match goal with Er : register_share _ _ _ _ _ _ = Ok (_, ?s') |- _ =>
    rename s' into s; rename Er into Hrs end.
  assert (message s = message (ceremony_at c sid)) as Hms.
  { unfold register_share in Hrs. cbv zeta in Hrs. result_inv Hrs. by injection Hrs as <- <-. }
  assert (∀ s' evs', message s' = message s → Forall plain evs' →
    call_ok c (put_ceremony sid s' c) evs') as Hput.
  { intros s' evs' Hs' Hevs. destruct (put_ceremony_ok sid s' c Hc); [by rewrite Hs', Hms|].
    split_and!; auto. }
  repeat case_decide; result_inv H; simplify_eq/=; apply Hput; by repeat constructor.
Qed.

(** Every call that succeeds leaves the contract as it should be, loses no
    commitment, and tells the truth about preprocessing and signing. *)
Lemma coordinate_ok c a call c' evs :
  contract_ok c → coordinate c a call = Ok (c', evs) → call_ok c c' evs.
Proof.
  intros Hc. destruct call as [root n t context|gid poap cm|sid sel sh pf|call]; simpl.
  - by apply keyGen_ok.
  - intros H. by eapply keyGenCommit_ok in H as [? _].
  - by apply signShare_ok.
  - destruct call as [root n t context poap cm|gid sh|gid ac|gid p x|gid|gid cb|gid cm|gid d
      |sid r pf|sid sel sh pf cb].
    + unfold keyGenAndCommit. cbv zeta. intros H. result_inv H. result_inv H. injection H as <- <-.
      assert (call_ok c f l ∧ Forall plain l) as [[Hc1 [Hg1 _]] Hp1].
      { destruct (initialized _); [injection E as <- <-; split; [|done]; split_and!; auto using grows_refl|].
        split; [by eapply keyGen_ok|]. unfold keyGen in E. cbv zeta in E. result_inv E.
        injection E as _ <-. by repeat constructor. }
      eapply keyGenCommit_ok in E0 as [[Hc2 [Hg2 _]] Hp2]; [|done].
      split_and!; [done|by eapply grows_trans|]. left. by apply Forall_app.
    + by apply keyGenSecretShare_ok.
    + by apply keyGenComplain_ok.
    + by apply keyGenComplaintResponse_ok.
    + by apply keyGenConfirm_ok.
    + by apply keyGenConfirm_ok.
    + by apply preprocess_ok.
    + by apply sign_call_ok.
    + intros H. unfold signRevealNonces in H. result_inv H. result_inv H. injection H as <- <-.
      split_and!; [done|apply grows_refl|]. left. by repeat constructor.
    + by apply signShare_ok.
Qed.

(** ** Revealing nonces *)

(** The proof shows the nonces at the offset of the tree under the root. *)
Record opens (root : B256) (offset : N) (revealed : SignNonces) (prf : list B256) : Prop := {
  opens_d : satisfiesCurveEquation (SignNonces.d revealed) = true;
  opens_e : satisfiesCurveEquation (SignNonces.e revealed) = true;
  opens_length : length prf = 10%nat;
  opens_root : verify root (nonces_leaf offset revealed) prf = true;
}.

(** The account has committed, in time, to the root the sequence of the signature
    falls under. *)
Definition assigned (c : FROSTCoordinator) (a : Address) (sid root : B256) (offset : N) : Prop :=
  signing_message c sid ≠ 0 ∧ offset = (decode_sequence (sid_sequence sid)).2 ∧
  ∃ start, start < 1024 ∧ start ≤ offset ∧
    committed_root c (sid_group sid) a (decode_sequence (sid_sequence sid)).1 =
      Some (pack_root root start).

Lemma assigned_grows c c' a sid root offset :
  grows c c' → assigned c a sid root offset → assigned c' a sid root offset.
Proof.
  intros [Hg Hm] (Hmsg & Ho & start & Hs & Hle & Hc). split_and!; [by apply Hm|done|].
  exists start. split_and!; [done..|]. by apply (grows_chunks _ _ (Hg _)).
Qed.

Lemma nonce_reveal_accepted c a sid root offset revealed prf :
  sorted_pairs → assigned c a sid root offset → opens root offset revealed prf →
  signRevealNonces c a sid revealed prf =
    Ok (c, [EvSignRevealedNonces (SignRevealedNonces.mk sid a revealed)]).
Proof.
  unfold assigned, signing_message, committed_root.
  intros Hsp (Hmsg & -> & start & Hs & Hle & Hc) [Hd He Hl Hv%bool_decide_eq_true_1].
  unfold signRevealNonces, signatureGroupAndMessage, require. rewrite decide_True by done.
  cbn [rbind]. unfold verify_nonces, requireNonZero, require. rewrite Hd, He.
  rewrite !decide_True by done. cbn [rbind]. rewrite split_sequence_decode.
  unfold decode_sequence in *. simpl in Hc, Hle, Hv. rewrite Hc. cbn [default id].
  rewrite unpack_pack by done. rewrite decide_True by done. cbn [rbind].
  rewrite Hsp, nonce_hash_leaf, <-Hv.
  - by rewrite decide_True.
  - by apply N.mod_lt.
Qed.

Lemma new_ok : contract_ok FROSTCoordinator_new.
Proof.
  intros gid. unfold group_at. simpl. rewrite lookup_empty. simpl. split; simpl; [done|done| |done].
  intros a k [r Hr]. unfold commitments_of in Hr. rewrite lookup_empty in Hr. done.
Qed.
End contract.
