(* ===== verification/State.v ===== *)
(** * The validator state: [state/mod.rs], [service/action.rs],
    [service/effect.rs]

    The snapshotted state of the validator, the messages it consumes and the
    commands it emits. Rust's struct-update syntax is written with the [set_*]
    functions below. *)

From S2P Require Import Prelude.
From S2P Require Import Bytes.
From S2P Require Import Core.
From S2P Require Import Epoch.
From S2P Require Import Bindings.
From S2P Require Import Alloy.
From S2P Require Import Merkle.
From S2P Require Import Group.
From S2P Require Import Hashing.
From S2P Require Import FrostLib.
From S2P Require Import Frost.
From S2P Require Import FrostKeygen.
From S2P Require Import FrostSign.

(** ** Configuration *)

(** [config::ValidatorConfig]. *)
Module ValidatorConfig.
Record t := mk {
  consensus : Address;
  staker : option Address;
  participants : list Participant.t;
  oracles : gset Address;
  genesis_salt : B256;
  blocks_per_epoch : positive;
  key_gen_timeout : positive;
  signing_timeout : positive;
  oracle_timeout : positive;
}.
End ValidatorConfig.

(** The pure validator state transition's parameters. *)
Module Transition.
Record t := mk {
  account : Address;
  genesis : ParticipantSet;
  consensus : ConsensusDomain;
  config : ValidatorConfig.t;
}.
End Transition.
Abbreviation Transition := Transition.t.

Definition blocks_per_epoch (T : Transition) : positive :=
  ValidatorConfig.blocks_per_epoch (Transition.config T).
Definition key_gen_timeout (T : Transition) : N :=
  nonzero_get (ValidatorConfig.key_gen_timeout (Transition.config T)).
Definition signing_timeout (T : Transition) : N :=
  nonzero_get (ValidatorConfig.signing_timeout (Transition.config T)).
Definition oracle_timeout (T : Transition) : N :=
  nonzero_get (ValidatorConfig.oracle_timeout (Transition.config T)).

Section state.
Context {FL : FrostLib}.

(** ** Nonces *)

(** [NonceState]. *)
Record NonceState := {
  next_sequence : N;
  chunks : gmap N (option B256);
}.
Definition NonceState_default : NonceState := {| next_sequence := 0; chunks := ∅ |}.

(** [NonceIndex]. *)
Record NonceIndex := {
  nonce_root : B256;
  nonce_offset : N;
}.

(** [state::Epoch]. *)
Record Epoch := {
  epoch_group : Group.t;
  epoch_key_share : KeyShare;
  epoch_nonces : NonceState;
}.

(** ** Key generation *)

Inductive KeyGenCommitment :=
  | CommitParticipating (poap : list B256) (secrets : option Secrets)
  | CommitObserving.

Inductive KeyGenParticipation :=
  | Participating (sharing_state : SharingState)
  | Observing (group_commitments : GroupCommitments).

Inductive KeyGenConfirmation :=
  | ConfirmObserving
  | Collecting (shares : gmap Address VerifiedShare)
  | Confirmed (key_share : KeyShare).

(** [u16] counters. *)
Record Complaint := {
  total : N;
  unresponded : N;
}.
Definition Complaint_default : Complaint := {| total := 0; unresponded := 0 |}.

Record ConfirmationDeadlines := {
  complain : N;
  response : N;
  confirm : N;
}.

Inductive RolloverState :=
  | WaitingForGenesis
  | Halted
  | EpochStaged (next_epoch : positive)
  | EpochSkipped (next_epoch : positive)
  | CollectingCommitments (next_epoch : EpochId) (group : Group.t)
      (secrets : KeyGenCommitment)
      (commitments : gmap Address VerifiedCommitment) (deadline : option N)
  | CollectingShares (next_epoch : EpochId) (group : Group.t)
      (participation : KeyGenParticipation)
      (public_keys : gmap Address PublicKeyShare)
      (shares : gmap Address VerifiedShare)
      (complaints : gmap Address Complaint) (deadline : option N)
  | CollectingConfirmations (next_epoch : EpochId) (group : Group.t)
      (participation : KeyGenParticipation) (status : KeyGenConfirmation)
      (confirmations : gset Address) (complaints : gmap Address Complaint)
      (deadlines : option ConfirmationDeadlines)
  | SigningRollover (next_epoch : positive) (group : Group.t)
      (key_share : option KeyShare) (message : B256).

(** ** Signing *)

Inductive Packet :=
  | EpochRollover (active_epoch : EpochId) (proposed_epoch : positive)
      (rollover_block : N) (group_id : B256) (group_key : Point)
  | Transaction (epoch : EpochId) (oracle : Address) (oracle_data : Bytes)
      (transaction : SafeTransaction).

Record SigningSelection := {
  shares_from : gset Address;
  selection_last_signer : option Address;
}.
Definition SigningSelection_default : SigningSelection :=
  {| shares_from := ∅; selection_last_signer := None |}.

Inductive SigningState :=
  | WaitingForRequest (key_share : KeyShare) (group_id : B256)
      (responsible : option Address) (packet : Packet)
      (signers : gset Address) (deadline : N)
  | WaitingForOracle (key_share : KeyShare) (oracle : Address)
      (group_id : B256) (signature_id : B256) (nonce : NonceIndex)
      (packet : Packet) (signers : gset Address) (deadline : N)
  | CollectNonceCommitments (key_share : KeyShare) (group_id : B256)
      (signature_id : B256) (nonce : NonceIndex)
      (revealed : gmap Address RevealedNonces)
      (last_signer : option Address) (packet : Packet)
      (signers : gset Address) (deadline : N)
  | CollectSigningShares (key_share : KeyShare) (group_id : B256)
      (signature_id : B256) (revealed : gmap Address RevealedNonces)
      (selections : gmap B256 SigningSelection) (packet : Packet)
      (signers : gset Address) (deadline : N)
  | WaitingForAttestation (signature_id : B256) (packet : Packet) (deadline : N).

(** ** The state *)

Record State := {
  rollover : RolloverState;
  active_epoch : EpochId;
  epochs : gmap EpochId Epoch;
  signing : gmap B256 SigningState;
  signature_id_to_message : gmap B256 B256;
}.

Definition State_default : State :=
  {| rollover := WaitingForGenesis; active_epoch := Genesis; epochs := ∅;
     signing := ∅; signature_id_to_message := ∅ |}.

Definition set_rollover (r : RolloverState) (s : State) : State :=
  {| rollover := r; active_epoch := active_epoch s; epochs := epochs s;
     signing := signing s; signature_id_to_message := signature_id_to_message s |}.
Definition set_active_epoch (e : EpochId) (s : State) : State :=
  {| rollover := rollover s; active_epoch := e; epochs := epochs s;
     signing := signing s; signature_id_to_message := signature_id_to_message s |}.
Definition set_epochs (es : gmap EpochId Epoch) (s : State) : State :=
  {| rollover := rollover s; active_epoch := active_epoch s; epochs := es;
     signing := signing s; signature_id_to_message := signature_id_to_message s |}.
Definition set_signing (sg : gmap B256 SigningState) (s : State) : State :=
  {| rollover := rollover s; active_epoch := active_epoch s; epochs := epochs s;
     signing := sg; signature_id_to_message := signature_id_to_message s |}.
Definition set_index (ix : gmap B256 B256) (s : State) : State :=
  {| rollover := rollover s; active_epoch := active_epoch s; epochs := epochs s;
     signing := signing s; signature_id_to_message := ix |}.

(** ** Commands *)

Inductive Action :=
  | KeyGenAndCommit (participants : B256) (count threshold : N) (context : B256)
      (poap : list B256) (commitment : KeyGenCommitment.t) (expires_at : option N)
  | KeyGenSecretShare (group_id : B256) (share : KeyGenSecretShare.t)
      (expires_at : option N)
  | KeyGenComplain (group_id : B256) (accused : Address) (expires_at : option N)
  | KeyGenConfirm (group_id : B256) (callback : option Callback)
      (expires_at : option N)
  | KeyGenComplaintResponse (group_id : B256) (plaintiff : Address)
      (secret_share : U256) (expires_at : option N)
  | Preprocess (group_id nonces_commitment : B256)
  | ARevealNonceCommitments (signature_id : B256) (nonces : SignNonces)
      (proof : list B256) (expires_at : N)
  | SignShare (signature_id : B256) (selection : SignSelection)
      (share : ShareTriple.t) (proof : list B256) (callback : Callback)
      (expires_at : N)
  | Sign (group_id message : B256) (expires_at : N)
  | AttestTransaction (epoch : EpochId) (oracle : Address)
      (oracle_data_hash : B256) (chain_id : U256) (safe : Address)
      (safe_tx_struct_hash signature_id : B256) (expires_at : N)
  | StageEpoch (proposed_epoch : positive) (rollover_block : N)
      (group_id signature_id : B256) (expires_at : N)
  | SetValidatorStaker (staker : Address).

Inductive Effect :=
  | KeyGenSetup (group_id : B256) (count threshold : N)
  | StartNonceGeneration (group_id : B256) (key_share : KeyShare)
  | NonceTree (group_id : B256)
  | RevealNonceCommitments (signature_id message root : B256) (offset : N)
  | UseNonce (message root : B256) (offset : N)
  | ReconcileGroupSecrets (groups : gmap B256 (option KeyShare)).

Inductive Resume :=
  | Noop
  | Setup (group_id : B256) (secrets : Secrets)
  | ResumeNonceTree (group_id commitment : B256)
  | NonceCommitments (signature_id message : B256) (nonces : SignNonces)
      (proof : list B256)
  | Nonce (message : B256) (nonces : Nonces).

(** ** Messages *)

Inductive Event :=
  | EvConsensus (event : Consensus.ConsensusEvents)
  | EvCoordinator (event : Coordinator.CoordinatorEvents)
  | EvOracle (event : Oracle.OracleEvents).

(** ** Accessors of the state types *)

(** [RolloverState::next_epoch]. *)
Definition next_epoch (r : RolloverState) : option EpochId :=
  match r with
  | WaitingForGenesis => Some Genesis
  | EpochSkipped n | SigningRollover n _ _ _ | EpochStaged n => Some (Number n)
  | CollectingCommitments e _ _ _ _
  | CollectingShares e _ _ _ _ _ _
  | CollectingConfirmations e _ _ _ _ _ _ => Some e
  | Halted => None
  end.

(** [KeyGenParticipation::group_commitments]. *)
Definition participation_group_commitments (p : KeyGenParticipation)
    : GroupCommitments :=
  match p with
  | Participating sharing_state => ss_group_commitments sharing_state
  | Observing group_commitments => group_commitments
  end.

(** [KeyGenConfirmation::key_share]. *)
Definition confirmation_key_share (c : KeyGenConfirmation) : option KeyShare :=
  match c with
  | Confirmed key_share => Some key_share
  | _ => None
  end.

(** [SigningState::deadline], [signature_id] and [packet]. *)
Definition signing_deadline (s : SigningState) : N :=
  match s with
  | WaitingForRequest _ _ _ _ _ deadline
  | WaitingForOracle _ _ _ _ _ _ _ deadline
  | CollectNonceCommitments _ _ _ _ _ _ _ _ deadline
  | CollectSigningShares _ _ _ _ _ _ _ deadline
  | WaitingForAttestation _ _ deadline => deadline
  end.

Definition signing_signature_id (s : SigningState) : option B256 :=
  match s with
  | WaitingForAttestation signature_id _ _
  | WaitingForOracle _ _ _ signature_id _ _ _ _
  | CollectNonceCommitments _ _ signature_id _ _ _ _ _ _
  | CollectSigningShares _ _ signature_id _ _ _ _ _ => Some signature_id
  | WaitingForRequest _ _ _ _ _ _ => None
  end.

Definition signing_packet (s : SigningState) : Packet :=
  match s with
  | WaitingForRequest _ _ _ packet _ _
  | WaitingForOracle _ _ _ _ _ packet _ _
  | CollectNonceCommitments _ _ _ _ _ _ packet _ _
  | CollectSigningShares _ _ _ _ _ packet _ _
  | WaitingForAttestation _ packet _ => packet
  end.

(** [Packet::epoch]. *)
Definition packet_epoch (p : Packet) : EpochId :=
  match p with
  | EpochRollover active_epoch _ _ _ _ => active_epoch
  | Transaction epoch _ _ _ => epoch
  end.

(** [values_mut().find(|epoch| epoch.group.id() == gid)]: the first epoch, in
    ascending order, whose group has the identifier. *)
Definition find_epoch (gid : B256) (es : gmap EpochId Epoch)
    : option (EpochId * Epoch) :=
  list_find_first (λ e, bool_decide (Group.id (epoch_group e.2) = gid)) (btree_iter es).

Lemma find_epoch_Some gid es e ep :
  find_epoch gid es = Some (e, ep) →
  es !! e = Some ep ∧ Group.id (epoch_group ep) = gid.
Proof.
  intros [Hin%elem_of_btree_iter Hid%bool_decide_eq_true_1]%list_find_first_Some. done.
Qed.

Lemma find_epoch_None gid es :
  find_epoch gid es = None ↔
  ∀ e ep, es !! e = Some ep → Group.id (epoch_group ep) ≠ gid.
Proof.
  unfold find_epoch. rewrite list_find_first_None. split.
  - intros H e ep He%elem_of_btree_iter.
    by apply H, bool_decide_eq_false_1 in He.
  - intros H [e ep] He%elem_of_btree_iter. apply bool_decide_eq_false_2. eauto.
Qed.

Definition with_nonces (n : NonceState) (ep : Epoch) : Epoch :=
  {| epoch_group := epoch_group ep; epoch_key_share := epoch_key_share ep;
     epoch_nonces := n |}.
End state.

(** [safenet_core]'s commands and messages at the validator's types. *)
Abbreviation Command := (Core.Command Action Effect).
Abbreviation EventLog := (Core.EventLog Event).
Abbreviation Message := (Core.Message Event Resume).


Section packet_message.
Context {AL : Alloy} {FL : FrostLib}.

(** The consensus-domain hash a packet is signed over, which keys its signing
    session. *)
Definition packet_message (domain : ConsensusDomain) (p : Packet) : B256 :=
  match p with
  | EpochRollover active_epoch proposed_epoch rollover_block _ group_key =>
      epoch_rollover_hash domain active_epoch proposed_epoch rollover_block group_key
  | Transaction epoch oracle oracle_data transaction =>
      transaction_packet_hash domain epoch oracle oracle_data transaction
  end.
End packet_message.
