(* ===== verification/NonceStream.v ===== *)
(** * Background nonce generation: [secrets/nonces.rs]

    One stream of the generator: the worker thread, the semaphore with its
    single permit, the request channel, and the futures of [NonceStream::next],
    as an interleaving of atomic steps. A future that is dropped gives up its
    permit and its receiver in two separate steps, in either order. The chunks
    are numbered in the order they are sampled. *)

From S2P Require Import Prelude.

Section stream.
Context {Chunk : Type}.

(** The future's end of its request: no permit was available; the worker's end
    of the channel was gone; the oneshot receiver, with the chunk once sent; or
    the receiver has been dropped. *)
Inductive Receiver :=
  | Refused
  | Disconnected
  | Open (chunk : option (nat * Chunk))
  | Closed.

Record Request := {
  live : bool;     (* neither completed nor dropped *)
  permit : bool;   (* still holds the semaphore's permit *)
  receiver : Receiver;
}.

(** Where the worker is in [stream] and [send_nonces]. *)
Inductive Worker :=
  | Sampling
  | Waiting (chunk : nat * Chunk)
  | Draining (chunk : nat * Chunk) (request : nat)
  | Sending (chunk : nat * Chunk) (request : nat)
  | Stopped.

Record NonceStream := {
  worker : Worker;
  pending : bool;                (* the permit is available *)
  requests : list nat;           (* queued in the channel *)
  sender : bool;                 (* the generator still holds the stream *)
  futures : list Request;        (* by request number *)
  sampled : nat;
  sent : list (nat * nat);       (* chunk and request, in order *)
}.

Definition NonceStream_new : NonceStream :=
  {| worker := Sampling; pending := true; requests := []; sender := true;
     futures := []; sampled := 0; sent := [] |}.

(** The request the worker holds. *)
Definition held (w : Worker) : list nat :=
  match w with Draining _ r | Sending _ r => [r] | _ => [] end.

(** The chunk the worker holds. *)
Definition holding (w : Worker) : option (nat * Chunk) :=
  match w with
  | Waiting c | Draining c _ | Sending c _ => Some c
  | _ => None
  end.

Definition is_stopped (w : Worker) : bool :=
  match w with Stopped => true | _ => false end.

(** ** The steps *)

Definition set_worker (s : NonceStream) (w : Worker) (queue : list nat) : NonceStream :=
  {| worker := w; pending := pending s; requests := queue; sender := sender s;
     futures := futures s; sampled := sampled s; sent := sent s |}.

(** The worker returns: the channel and the requests in it are dropped. *)
Definition stop (s : NonceStream) : NonceStream := set_worker s Stopped [].

(** [NonceStream::next]. *)
Definition next (s : NonceStream) : NonceStream :=
  let id := length (futures s) in
  if pending s then
    {| worker := worker s; pending := false;
       requests := if is_stopped (worker s) then requests s else requests s ++ [id];
       sender := sender s;
       futures := futures s ++
         [{| live := true; permit := true;
             receiver := if is_stopped (worker s) then Disconnected else Open None |}];
       sampled := sampled s; sent := sent s |}
  else
    {| worker := worker s; pending := pending s; requests := requests s;
       sender := sender s;
       futures := futures s ++ [{| live := true; permit := false; receiver := Refused |}];
       sampled := sampled s; sent := sent s |}.

(** What polling a live future gives: the chunk or nothing, an error, or, as
    [None], that it is still pending. *)
Definition poll (s : NonceStream) (id : nat) : option (option (option (nat * Chunk))) :=
  future ← futures s !! id;
  if negb (live future) then None else
  match receiver future with
  | Refused => Some (Some None)
  | Disconnected | Closed => Some None
  | Open (Some chunk) => Some (Some (Some chunk))
  | Open None =>
      if decide (id ∈ held (worker s) ++ requests s) then None else Some None
  end.

Definition set_future (s : NonceStream) (available : bool) (id : nat) (f : Request)
    : NonceStream :=
  {| worker := worker s; pending := available; requests := requests s;
     sender := sender s; futures := <[id := f]> (futures s);
     sampled := sampled s; sent := sent s |}.

(** A future that completes drops its receiver first. *)
Definition complete (s : NonceStream) (id : nat) : option NonceStream :=
  _ ← poll s id;
  future ← futures s !! id;
  Some (set_future s (pending s) id
    {| live := false; permit := permit future; receiver := Closed |}).

(** A future is dropped before it completes. *)
Definition cancel (s : NonceStream) (id : nat) : option NonceStream :=
  future ← futures s !! id;
  Some (set_future s (pending s) id
    {| live := false; permit := permit future; receiver := receiver future |}).

Definition close_receiver (s : NonceStream) (id : nat) : option NonceStream :=
  future ← futures s !! id;
  if live future then None else
  Some (set_future s (pending s) id
    {| live := false; permit := permit future; receiver := Closed |}).

Definition release_permit (s : NonceStream) (id : nat) : option NonceStream :=
  future ← futures s !! id;
  if live future || negb (permit future) then None else
  Some (set_future s true id
    {| live := false; permit := false; receiver := receiver future |}).

(** [Sampler::nonces_chunk] in [stream]. *)
Definition sample (s : NonceStream) (chunk : option Chunk) : option NonceStream :=
  match worker s, chunk with
  | Sampling, Some c =>
      Some {| worker := Waiting (sampled s, c); pending := pending s;
              requests := requests s; sender := sender s; futures := futures s;
              sampled := S (sampled s); sent := sent s |}
  | Sampling, None => Some (stop s)
  | _, _ => None
  end.

(** [requests.recv()], which blocks on an empty channel. *)
Definition recv (s : NonceStream) : option NonceStream :=
  match worker s, requests s with
  | Waiting c, request :: queue => Some (set_worker s (Draining c request) queue)
  | Waiting c, [] => if sender s then None else Some (stop s)
  | _, _ => None
  end.

(** [requests.try_recv()]. *)
Definition try_recv (s : NonceStream) : option NonceStream :=
  match worker s, requests s with
  | Draining c _, request :: queue => Some (set_worker s (Draining c request) queue)
  | Draining c request, [] =>
      if sender s then Some (set_worker s (Sending c request) []) else Some (stop s)
  | _, _ => None
  end.

(** [request.send(nonces)], which gives the chunk back when the receiver is
    gone. *)
Definition send (s : NonceStream) : option NonceStream :=
  match worker s with
  | Sending c request =>
      future ← futures s !! request;
      match receiver future with
      | Open None =>
          Some {| worker := Sampling; pending := pending s; requests := requests s;
                  sender := sender s;
                  futures := <[request := {| live := live future;
                    permit := permit future; receiver := Open (Some c) |}]> (futures s);
                  sampled := sampled s; sent := sent s ++ [(c.1, request)] |}
      | _ => Some (set_worker s (Waiting c) (requests s))
      end
  | _ => None
  end.

(** [NonceGenerator::retain] drops the stream. *)
Definition drop_stream (s : NonceStream) : NonceStream :=
  {| worker := worker s; pending := pending s; requests := requests s;
     sender := false; futures := futures s; sampled := sampled s; sent := sent s |}.

Inductive Step :=
  | Next | Complete (id : nat) | Cancel (id : nat) | CloseReceiver (id : nat)
  | ReleasePermit (id : nat) | DropStream
  | Sample (chunk : option Chunk) | Recv | TryRecv | Send.

(** One step, [None] where it is not enabled. *)
Definition take_step (s : NonceStream) (l : Step) : option NonceStream :=
  match l with
  | Next => if sender s then Some (next s) else None
  | Complete id => complete s id
  | Cancel id => cancel s id
  | CloseReceiver id => close_receiver s id
  | ReleasePermit id => release_permit s id
  | DropStream => Some (drop_stream s)
  | Sample chunk => sample s chunk
  | Recv => recv s
  | TryRecv => try_recv s
  | Send => send s
  end.

Definition is_worker_step (l : Step) : bool :=
  match l with
  | Sample (Some _) | Recv | TryRecv | Send => true
  | _ => false
  end.

Fixpoint take_steps (s : NonceStream) (ls : list Step) : option NonceStream :=
  match ls with
  | [] => Some s
  | l :: ls => s ← take_step s l; take_steps s ls
  end.

(** ** The invariant *)

Definition awaiting (s : NonceStream) (id : nat) : Prop :=
  ∃ p, futures s !! id = Some {| live := true; permit := p; receiver := Open None |}.

Record stream_ok (s : NonceStream) : Prop := {
  ok_permit_free : ∀ id f, futures s !! id = Some f → permit f = true → pending s = false;
  ok_permit_unique : ∀ id id' f f', futures s !! id = Some f → futures s !! id' = Some f' →
    permit f = true → permit f' = true → id = id';
  ok_open_permit : ∀ id f c, futures s !! id = Some f → live f = true →
    receiver f = Open c → permit f = true;
  ok_bounded : ∀ id, id ∈ held (worker s) ++ requests s → (id < length (futures s))%nat;
  ok_active_last : ∀ id, worker s ≠ Stopped → awaiting s id →
    last (held (worker s) ++ requests s) = Some id;
  ok_holding : ∀ c, holding (worker s) = Some c →
    sampled s = S c.1 ∧ ∀ k id, (k, id) ∈ sent s → (k < c.1)%nat;
  ok_sent : ∀ k id, (k, id) ∈ sent s → (k < sampled s)%nat;
  ok_sorted : StronglySorted lt (sent s).*1;
  ok_delivered : ∀ id f k c, futures s !! id = Some f →
    receiver f = Open (Some (k, c)) → (k, id) ∈ sent s;
  ok_once : NoDup (sent s).*2;
  ok_served : ∀ k id, (k, id) ∈ sent s →
    ∃ f, futures s !! id = Some f ∧ receiver f ≠ Open None;
}.

Lemma new_stream_ok : stream_ok NonceStream_new.
Proof.
  split; simpl; try done.
  - intros id H. by apply elem_of_nil in H.
  - intros id _ [p Hp]. done.
  - intros k id H. by apply elem_of_nil in H.
  - constructor.
  - constructor.
  - intros k id H. by apply elem_of_nil in H.
Qed.

(** Setting the worker and the queue, the chunk in hand and the last request
    unchanged. *)
Lemma set_worker_ok s w queue :
  stream_ok s →
  (∀ id, id ∈ held w ++ queue → id ∈ held (worker s) ++ requests s) →
  (∀ id, w ≠ Stopped → awaiting s id → last (held w ++ queue) = Some id) →
  (∀ c, holding w = Some c → holding (worker s) = Some c) →
  stream_ok (set_worker s w queue).
Proof.
  intros [] Hin Hlast Hhold. split; simpl; eauto.
Qed.

(** Setting a future that is not live. *)
Lemma set_future_ok s b id f f' :
  stream_ok s → futures s !! id = Some f → live f' = false →
  (permit f' = true → permit f = true ∧ b = pending s) →
  (b = pending s ∨ permit f = true) →
  (receiver f' = receiver f ∨ receiver f' = Closed) →
  stream_ok (set_future s b id f').
Proof.
  intros Hok Hf Hlive Hpermit Hb Hr. pose proof Hok as [].
  assert (Hlt := lookup_lt_Some _ _ _ Hf).
  assert (∀ id' f0, <[id:=f']> (futures s) !! id' = Some f0 →
    (id' = id ∧ f0 = f') ∨ (id' ≠ id ∧ futures s !! id' = Some f0)) as Hcases.
  { intros id' f0 H. destruct (decide (id = id')) as [<-|Hne].
    - rewrite list_lookup_insert_eq in H by done. left. by injection H as <-.
    - rewrite list_lookup_insert_ne in H by done. right. by split. }
  split; simpl; rewrite ?length_insert; try done.
  - intros i g [[-> ->]|[Hne Hg]]%Hcases Hp.
    + destruct (Hpermit Hp) as [Hpf ->]. eauto.
    + destruct Hb as [->|Hpf]; [eauto|]. exfalso. by eapply Hne, ok_permit_unique0.
  - intros i j g h [[-> ->]|[Hne Hg]]%Hcases [[-> ->]|[Hne' Hh]]%Hcases Hp Hp';
      try done; try (destruct (Hpermit ltac:(eassumption)) as [Hpf _]); eauto.
  - intros i g c [[-> ->]|[Hne Hg]]%Hcases Hl; [congruence|eauto].
  - intros i Hw [p [[-> Heq]|[Hne Hg]]%Hcases]; [simplify_eq/=|].
    apply ok_active_last0; [done|]. by exists p.
  - intros i g k c [[-> ->]|[Hne Hg]]%Hcases Hrx; [|eauto].
    destruct Hr as [Hr|Hr]; rewrite Hr in Hrx; [eauto|done].
  - intros k i Hi. destruct (ok_served0 _ _ Hi) as (g & Hg & Hrx).
    destruct (decide (id = i)) as [<-|Hne].
    + exists f'. rewrite list_lookup_insert_eq by done. split; [done|].
      destruct Hr as [->| ->]; [congruence|done].
    + exists g. by rewrite list_lookup_insert_ne.
Qed.

Lemma stop_ok s : stream_ok s → stream_ok (stop s).
Proof.
  intros Hok. apply set_worker_ok; try done. intros id H. by apply elem_of_nil in H.
Qed.

Lemma next_ok s : stream_ok s → stream_ok (next s).
Proof.
  intros Hok. pose proof Hok as []. unfold next.
  assert (∀ f i g, (futures s ++ [f]) !! i = Some g →
    futures s !! i = Some g ∨ (i = length (futures s) ∧ g = f)) as Hcases.
  { intros f i g [H|[? H]]%lookup_app_Some; [by left|].
    apply list_lookup_singleton_Some in H as [??]. right. split; [lia|done]. }
  destruct (pending s) eqn:Hpending.
  - assert (∀ i f, futures s !! i = Some f → permit f = true → False) as Hnone.
    { intros i f Hf Hp. by specialize (ok_permit_free0 i f Hf Hp). }
    split; simpl; try done.
    + intros i j f g [Hf|[-> ->]]%Hcases [Hg|[-> ->]]%Hcases Hp Hp'; try done;
        exfalso; eauto.
    + intros i f c [Hf|[-> ->]]%Hcases; eauto.
    + intros i Hi. rewrite length_app; simpl.
      destruct (is_stopped (worker s)); [specialize (ok_bounded0 i Hi); lia|].
      rewrite app_assoc in Hi. apply elem_of_app in Hi as [Hi|Hi].
      * specialize (ok_bounded0 i Hi). lia.
      * apply list_elem_of_singleton in Hi. lia.
    + intros i Hw [p [Hf|[-> Hf]]%Hcases].
      * exfalso. eapply (Hnone i); [done|]. by eapply ok_open_permit0.
      * destruct (worker s); simplify_eq/=; rewrite ?app_comm_cons; apply last_snoc.
    + intros i f k c [Hf|[-> ->]]%Hcases; [eauto|]; simpl.
      by destruct (is_stopped (worker s)).
    + intros k i Hi. destruct (ok_served0 _ _ Hi) as (g & Hg & Hrx).
      exists g. split; [|done]. by apply lookup_app_l_Some.
  - split; simpl; try done.
    + intros i j f g [Hf|[-> ->]]%Hcases [Hg|[-> ->]]%Hcases Hp Hp'; eauto; done.
    + intros i f c [Hf|[-> ->]]%Hcases; [eauto|done].
    + intros i Hi. rewrite length_app; simpl. specialize (ok_bounded0 i Hi). lia.
    + intros i Hw [p [Hf|[-> Hf]]%Hcases]; [|done]. apply ok_active_last0; [done|by exists p].
    + intros i f k c [Hf|[-> ->]]%Hcases; [eauto|done].
    + intros k i Hi. destruct (ok_served0 _ _ Hi) as (g & Hg & Hrx).
      exists g. split; [|done]. by apply lookup_app_l_Some.
Qed.

Lemma sample_ok s chunk s' : stream_ok s → sample s chunk = Some s' → stream_ok s'.
Proof.
  intros Hok H. pose proof Hok as []. unfold sample in H.
  destruct (worker s) eqn:Hw; try done. destruct chunk as [c|]; simplify_eq/=.
  2: { by apply stop_ok. }
  split; simpl; try done.
  - intros id _ Hid. apply ok_active_last0; [done|]. exact Hid.
  - intros c' [= <-]. split; [done|]. simpl. eauto.
  - intros k id Hin. specialize (ok_sent0 k id Hin). lia.
Qed.

Lemma recv_ok s s' : stream_ok s → recv s = Some s' → stream_ok s'.
Proof.
  intros Hok H. pose proof Hok as []. unfold recv in H.
  destruct (worker s) eqn:Hw; try done. destruct (requests s) as [|r queue] eqn:Hq.
  - destruct (sender s); simplify_eq. by apply stop_ok.
  - simplify_eq. apply set_worker_ok; rewrite ?Hw, ?Hq; auto.
Qed.

Lemma try_recv_ok s s' : stream_ok s → try_recv s = Some s' → stream_ok s'.
Proof.
  intros Hok H. pose proof Hok as []. unfold try_recv in H.
  destruct (worker s) eqn:Hw; try done. destruct (requests s) as [|r queue] eqn:Hq.
  - destruct (sender s); simplify_eq; [|by apply stop_ok].
    apply set_worker_ok; rewrite ?Hw, ?Hq; auto.
  - simplify_eq. apply set_worker_ok; rewrite ?Hw, ?Hq; auto; simpl.
    intros id Hid. by right.
Qed.

Lemma send_ok s s' : stream_ok s → send s = Some s' → stream_ok s'.
Proof.
  intros Hok H. pose proof Hok as []. unfold send in H.
  destruct (worker s) as [| | |[k c] r|] eqn:Hw; try done.
  destruct (futures s !! r) as [f|] eqn:Hf; [|done]; simpl in H.
  assert (receiver f = Open None ∨ receiver f ≠ Open None) as [Hrx|Hrx].
  { destruct (receiver f) as [| |[?|]|]; auto. }
  2: { assert (s' = set_worker s (Waiting (k, c)) (requests s)) as ->.
       { destruct (receiver f) as [| |[?|]|]; congruence. }
       apply set_worker_ok; rewrite ?Hw; auto; simpl.
       - intros id Hid. by right.
       - intros id _ Hid. specialize (ok_active_last0 id ltac:(done) Hid).
         destruct (requests s); [|done]. destruct Hid as [p Hid]. simplify_eq/=. }
  rewrite Hrx in H. simplify_eq/=. destruct (ok_holding0 _ eq_refl) as [Hsampled Hlt]; simpl in *.
  assert (Hlen := lookup_lt_Some _ _ _ Hf).
  set (f' := {| live := live f; permit := permit f; receiver := Open (Some (k, c)) |}).
  assert (∀ i g, <[r:=f']> (futures s) !! i = Some g →
    (i = r ∧ g = f') ∨ (i ≠ r ∧ futures s !! i = Some g)) as Hcases.
  { intros i g H. destruct (decide (r = i)) as [<-|Hne].
    - rewrite list_lookup_insert_eq in H by done. left. by injection H as <-.
    - rewrite list_lookup_insert_ne in H by done. right. by split. }
  split; simpl; rewrite ?length_insert; try done.
  - intros i g [[-> ->]|[_ Hg]]%Hcases Hp; eauto.
  - intros i j g h [[-> ->]|[_ Hg]]%Hcases [[-> ->]|[_ Hh]]%Hcases Hp Hp'; eauto.
  - intros i g x [[-> ->]|[_ Hg]]%Hcases Hl Hx; [|eauto]. exact (ok_open_permit0 r f None Hf Hl Hrx).
  - intros i Hi. apply ok_bounded0. by right.
  - intros i _ [p [[-> Heq]|[Hne Hg]]%Hcases]; [done|].
    assert (last (r :: requests s) = Some i) as Hlast.
    { apply ok_active_last0; [done|by exists p]. }
    destruct (requests s); [simplify_eq/=|done].
  - intros k' i [Hi|Hi%list_elem_of_singleton]%elem_of_app; [eauto|simplify_eq; lia].
  - rewrite fmap_app. simpl. apply StronglySorted_app_2; [|done|repeat constructor].
    intros x y Hx Hy%list_elem_of_singleton. subst.
    apply list_elem_of_fmap in Hx as ([k' i] & -> & Hi). eauto.
  - intros i g k' c' [[-> ->]|[_ Hg]]%Hcases Hx; simplify_eq/=; apply elem_of_app.
    + right. by apply list_elem_of_singleton.
    + left. eauto.
  - rewrite fmap_app. apply NoDup_app. split_and!; [done| |apply NoDup_singleton].
    intros x Hx Hy%list_elem_of_singleton. simpl in Hy. subst.
    apply list_elem_of_fmap in Hx as ([k' i] & -> & Hi).
    destruct (ok_served0 _ _ Hi) as (g & Hg & Hgr). simpl in *. congruence.
  - intros k' i [Hi|Hi%list_elem_of_singleton]%elem_of_app.
    + destruct (ok_served0 _ _ Hi) as (g & Hg & Hgr).
      assert (r ≠ i) by congruence. exists g. by rewrite list_lookup_insert_ne.
    + simplify_eq. exists f'. by rewrite list_lookup_insert_eq.
Qed.

Lemma take_step_ok s l s' : stream_ok s → take_step s l = Some s' → stream_ok s'.
Proof.
  intros Hok H.
  destruct l as [|id|id|id|id| |chunk| | |]; simpl in H;
    eauto using sample_ok, recv_ok, try_recv_ok, send_ok.
  - destruct (sender s); simplify_eq. by apply next_ok.
  - unfold complete in H. destruct (poll s id); [|done]; simpl in H.
    destruct (futures s !! id) as [f|] eqn:Hf; simplify_eq/=.
    eapply set_future_ok; eauto.
  - unfold cancel in H. destruct (futures s !! id) as [f|] eqn:Hf; simplify_eq/=.
    eapply set_future_ok; eauto.
  - unfold close_receiver in H. destruct (futures s !! id) as [f|] eqn:Hf; [|done].
    simpl in H. destruct (live f); simplify_eq. eapply set_future_ok; eauto.
  - unfold release_permit in H. destruct (futures s !! id) as [f|] eqn:Hf; [|done].
    simpl in H. destruct (live f), (permit f) eqn:Hp; simplify_eq/=.
    eapply set_future_ok; eauto; done.
  - simplify_eq. by destruct Hok; split.
Qed.

Lemma take_steps_ok s ls s' : stream_ok s → take_steps s ls = Some s' → stream_ok s'.
Proof.
  revert s. induction ls as [|l ls IH]; intros s Hok H; simplify_eq/=; [done|].
  destruct (take_step s l) as [s1|] eqn:Hl; [|done].
  eapply IH; [|exact H]. by eapply take_step_ok.
Qed.

Lemma sorted_fst_inj (l : list (nat * nat)) k id id' :
  StronglySorted lt l.*1 → (k, id) ∈ l → (k, id') ∈ l → id = id'.
Proof.
  induction l as [|[k0 i0] l IH]; simpl; intros Hs Hi Hi'; [by apply elem_of_nil in Hi|].
  apply StronglySorted_inv in Hs as [Hs Hall].
  assert (∀ i, (k0, i) ∈ l → False) as Hno.
  { intros i Hin. rewrite Forall_forall in Hall.
    specialize (Hall k0). apply (Nat.lt_irrefl k0), Hall.
    apply list_elem_of_fmap. by exists (k0, i). }
  apply elem_of_cons in Hi as [Hi|Hi], Hi' as [Hi'|Hi']; simplify_eq; eauto;
    exfalso; eauto.
Qed.

(** ** Progress of the worker *)

(** The worker takes a step, sampling any chunk where it samples. *)
Definition worker_step (s s' : NonceStream) : Prop :=
  ∃ l, is_worker_step l = true ∧ take_step s l = Some s'.

(** Whatever steps the worker takes, it comes to a state with [P] after finitely
    many, and is never stuck before. *)
Inductive inevitably (P : NonceStream → Prop) (s : NonceStream) : Prop :=
  | inevitably_now : P s → inevitably P s
  | inevitably_step : (∃ s', worker_step s s') →
      (∀ s', worker_step s s' → inevitably P s') → inevitably P s.

(** The request has received a chunk. *)
Definition has_chunk (id : nat) (s : NonceStream) : Prop :=
  ∃ k c, poll s id = Some (Some (Some (k, c))).

(** One kind of step is enabled: [l], or any sampling. *)
Lemma inevitably_only P s l s' :
  is_worker_step l = true → take_step s l = Some s' →
  (∀ l', is_worker_step l' = true → is_Some (take_step s l') → l' = l) →
  inevitably P s' → inevitably P s.
Proof.
  intros Hl Hs Honly HP. apply inevitably_step; [by exists s', l|].
  intros s'' (l' & Hl' & Hs'). rewrite (Honly l' Hl') in Hs' by done. by simplify_eq.
Qed.

(** Each state of the worker enables one kind of step. *)
Ltac only_step Hw :=
  intros l' ? [? Hs']; destruct l' as [| | | | | |[]| | |]; try done;
  simpl in Hs'; unfold sample, recv, try_recv, send in Hs'; rewrite Hw in Hs'; done.

Lemma sending_serves s c id :
  worker s = Sending c id → awaiting s id → inevitably (has_chunk id) s.
Proof.
  intros Hw [p Hid]. destruct c as [k c].
  destruct (send s) as [s'|] eqn:Hs; [|by unfold send in Hs; rewrite Hw, Hid in Hs].
  apply (inevitably_only _ _ Send s'); [done|done|only_step Hw|]. apply inevitably_now.
  unfold send in Hs. rewrite Hw, Hid in Hs. simplify_eq/=. exists k, c. unfold poll; simpl.
  by rewrite list_lookup_insert_eq by (by eapply lookup_lt_Some).
Qed.

Lemma draining_serves s c r queue id :
  worker s = Draining c r → requests s = queue → sender s = true →
  last (r :: queue) = Some id → awaiting s id → inevitably (has_chunk id) s.
Proof.
  revert s r. induction queue as [|r' queue IH]; intros s r Hw Hq Hs Hlast Hid;
    (eapply (inevitably_only _ _ TryRecv);
     [done|by simpl; unfold try_recv; rewrite Hw, Hq, ?Hs|only_step Hw|]).
  - simplify_eq/=. eapply sending_serves; [done|exact Hid].
  - eapply IH; [done..|]. exact Hid.
Qed.

Lemma waiting_serves s c id :
  worker s = Waiting c → last (requests s) = Some id → sender s = true →
  awaiting s id → inevitably (has_chunk id) s.
Proof.
  intros Hw Hlast Hs Hid. destruct (requests s) as [|r queue] eqn:Hq; [done|].
  eapply (inevitably_only _ _ Recv); [done|by simpl; unfold recv; rewrite Hw, Hq|only_step Hw|].
  eapply draining_serves; [done..|]. exact Hid.
Qed.

(** The chunk that is sampled is any. *)
Lemma sampling_serves s (c : Chunk) id :
  worker s = Sampling → last (requests s) = Some id → sender s = true →
  awaiting s id → inevitably (has_chunk id) s.
Proof.
  intros Hw Hlast Hs Hid. apply inevitably_step.
  - eexists _, (Sample (Some c)). split; [done|]. simpl. unfold sample. by rewrite Hw.
  - intros s' (l & Hl & Hs'). destruct l as [| | | | | |[c'|]| | |]; try done;
      simpl in Hs'; unfold sample, recv, try_recv, send in Hs'; rewrite Hw in Hs'; try done.
    simplify_eq. by eapply waiting_serves.
Qed.

Lemma awaiting_served s (c : Chunk) id :
  stream_ok s → worker s ≠ Stopped → sender s = true → awaiting s id →
  inevitably (has_chunk id) s.
Proof.
  intros Hok Hns Hs Hid. pose proof (ok_active_last s Hok id Hns Hid) as Hlast.
  destruct (worker s) as [|c'|c' r|c' r|] eqn:Hw; [| | | |done].
  - by eapply (sampling_serves s c).
  - by eapply waiting_serves.
  - by eapply draining_serves.
  - destruct (decide (r = id)) as [->|Hne]; [by eapply sending_serves|].
    assert (last (requests s) = Some id) as Hq.
    { simpl in Hlast. destruct (requests s); [by simplify_eq/=|done]. }
    assert (r < length (futures s))%nat as Hr.
    { apply (ok_bounded s Hok). rewrite Hw. by left. }
    destruct (lookup_lt_is_Some_2 _ _ Hr) as [f Hf].
    destruct (take_step s Send) as [s'|] eqn:Hstep.
    2: { simpl in Hstep. unfold send in Hstep. rewrite Hw, Hf in Hstep; simpl in Hstep.
         by destruct (receiver f) as [| |[?|]|]. }
    eapply (inevitably_only _ _ Send); [done|exact Hstep|only_step Hw|].
    simpl in Hstep. unfold send in Hstep. rewrite Hw, Hf in Hstep; simpl in Hstep.
    destruct (receiver f) as [| |[?|]|]; simplify_eq;
      try by (eapply waiting_serves; [done..|]; exact Hid).
    eapply (sampling_serves _ c); [done..|]. destruct Hid as [p Hid].
    exists p. simpl. by rewrite list_lookup_insert_ne.
Qed.

(** ** Properties *)

(** Whatever the interleaving of requests, cancellations and the worker,
    the chunks sent are in the order they were sampled, without repetition, no
    request receives two, no two requests hold the same chunk, and at most one
    live request awaits an answer. *)
Theorem nonce_chunks_sent_once ls s :
  take_steps NonceStream_new ls = Some s →
  StronglySorted lt (sent s).*1 ∧ NoDup (sent s).*2 ∧
  (∀ id id' f f' k c c', futures s !! id = Some f → futures s !! id' = Some f' →
     receiver f = Open (Some (k, c)) → receiver f' = Open (Some (k, c')) → id = id') ∧
  (∀ id id', awaiting s id → awaiting s id' → id = id').
Proof.
  intros H. pose proof (take_steps_ok _ _ _ new_stream_ok H) as Hok. pose proof Hok as [].
  split_and!; [done..| |].
  - intros id id' f f' k c c' Hf Hf' Hr Hr'.
    pose proof (ok_delivered0 _ _ _ _ Hf Hr) as Hin.
    pose proof (ok_delivered0 _ _ _ _ Hf' Hr') as Hin'.
    apply (sorted_fst_inj (sent s) k); done.
  - intros id id' [p Hid] [p' Hid'].
    eapply ok_permit_unique0; [done..| |].
    + by eapply ok_open_permit0.
    + by eapply ok_open_permit0.
Qed.

(** [C38] A live request is never dropped while the stream runs: it stays
    pending, and the worker brings it its chunk: on every path of steps the worker
    may take, whatever chunks it samples on the way (sampling that fails ends the
    stream and is no such step), the request has received one after finitely many
    steps, and the worker is never blocked before. *)
Theorem nonce_requests_served ls s id (chunk : Chunk) :
  take_steps NonceStream_new ls = Some s →
  worker s ≠ Stopped → sender s = true → awaiting s id →
  poll s id = None ∧ inevitably (has_chunk id) s.
Proof.
  intros H Hns Hs Hid. pose proof (take_steps_ok _ _ _ new_stream_ok H) as Hok. split.
  - pose proof (ok_active_last s Hok id Hns Hid) as Hlast. destruct Hid as [p Hid].
    unfold poll. rewrite Hid; simpl. rewrite decide_True; [done|].
    by apply last_Some_elem_of.
  - by apply (awaiting_served s chunk).
Qed.

End stream.
Arguments NonceStream : clear implicits.
Arguments Step : clear implicits.
