(* ===== verification/Secrets.v ===== *)
(** * The secret store: [secrets/store.rs]

    The three SQLite tables, with the statements the store executes on them
    (see [Database.v]). The fixed-width keys are their numbers: [encode_hex] is
    injective at a fixed width. *)

From S2P Require Import Prelude.
From S2P Require Import Bytes.
From S2P Require Import Database.
From S2P Require Import Bindings.
From S2P Require Import Alloy.
From S2P Require Import FrostLib.
From S2P Require Import Frost.
From S2P Require Import FrostKeygen.
From S2P Require Import FrostSign.

(** [serde_json] on the two kinds of secret. *)
Class SecretsJson {AL : Alloy} {FL : FrostLib} := {
  Json : Type;
  secrets_to_string : Secrets → option Json;
  secrets_from_str : Json → option Secrets;
  nonces_to_string : Nonces → option Json;
  nonces_from_str : Json → option Nonces;
}.

(** What is written parses back as what was written. *)
Definition json_roundtrip {AL : Alloy} {FL : FrostLib} (J : SecretsJson) : Prop :=
  (∀ s j, secrets_to_string s = Some j → secrets_from_str j = Some s) ∧
  (∀ n j, nonces_to_string n = Some j → nonces_from_str j = Some n).

Inductive SecretError :=
  | Database
  | Serialization
  | Overflow.

Section secrets.
Context {AL : Alloy} {FL : FrostLib} {SJ : SecretsJson}.
Open Scope safenet_scope.

Record SecretTables := {
  keygen_secrets : gmap (B256 * Address) Json;       (* (group_id, address) *)
  nonces_chunks : gmap B256 (B256 * Address);        (* root -> group_id, address *)
  nonces_table : gmap (B256 * N) Json;               (* (root, offs) *)
}.

Definition SecretStore : Type := Db SecretTables.

Abbreviation store A := (io SecretStore A SecretError).
Abbreviation statement := (statement Database).
Abbreviation transaction := (transaction Database).

Definition set_keygen_secrets (s : SecretTables) (m : gmap (B256 * Address) Json)
    : SecretTables :=
  {| keygen_secrets := m; nonces_chunks := nonces_chunks s;
     nonces_table := nonces_table s |}.
Definition set_nonces (s : SecretTables) (chunks : gmap B256 (B256 * Address))
    (nonces : gmap (B256 * N) Json) : SecretTables :=
  {| keygen_secrets := keygen_secrets s; nonces_chunks := chunks;
     nonces_table := nonces |}.

(** ** Key generation secrets *)

Definition store_keygen_secrets (group : B256) (me : Address) (secrets : Secrets)
    : store Secrets :=
  text ←! io_lift (ok_or Serialization (secrets_to_string secrets));
  stored ←! statement (λ s,
    match keygen_secrets s !! (group, me) with
    | Some existing => (Ok existing, s)
    | None => (Ok text, set_keygen_secrets s (<[(group, me) := text]> (keygen_secrets s)))
    end);
  io_lift (ok_or Serialization (secrets_from_str stored)).

(** [DELETE FROM keygen_secrets], for every row or those of other groups. *)
Definition retain_keygen_secrets (groups : list B256) : store () :=
  statement (λ s,
    (Ok (), set_keygen_secrets s
      (match groups with
       | [] => ∅
       | _ => filter (λ row, row.1.1 ∈ groups) (keygen_secrets s)
       end))).

(** ** Nonces *)

(** The two [INSERT]s, with the primary keys and the foreign key checked. *)
Definition insert_chunk (root group : B256) (me : Address) : store () :=
  statement (λ s,
    match nonces_chunks s !! root with
    | Some _ => (Err Database, s)
    | None =>
        (Ok (), set_nonces s (<[root := (group, me)]> (nonces_chunks s)) (nonces_table s))
    end).

Definition insert_nonce (root : B256) (offset : N) (nonce : Nonces) : store () :=
  offs ←! io_lift (i64_try_from Overflow offset);
  text ←! io_lift (ok_or Serialization (nonces_to_string nonce));
  statement (λ s,
    match nonces_table s !! (root, offs), nonces_chunks s !! root with
    | None, Some _ =>
        (Ok (), set_nonces s (nonces_chunks s) (<[(root, offs) := text]> (nonces_table s)))
    | _, _ => (Err Database, s)
    end).

Definition register_nonces_chunk (group : B256) (me : Address) (chunk : NonceChunk)
    : store B256 :=
  let root := chunk_commitment chunk in
  transaction
    (_ ←! insert_chunk root group me;
     _ ←! io_for (λ '(offset, nonce), insert_nonce root offset nonce)
       (imap (λ i nonce, (N.of_nat i, nonce)) (chunk_nonces chunk));
     io_ret root).

(** [SecretStore::nonces_reveal]. *)
Definition store_nonces_reveal (root : B256) (offset : N)
    : store (option (SignNonces * list B256)) :=
  offs ←! io_lift (i64_try_from Overflow offset);
  row ←! statement (λ s, (Ok (nonces_table s !! (root, offs)), s));
  match row with
  | None => io_ret None
  | Some text =>
      nonce ←! io_lift (ok_or Serialization (nonces_from_str text));
      io_ret (Some (nonces_reveal nonce))
  end.

Definition take_nonce (root : B256) (offset : N) : store (option Nonces) :=
  offs ←! io_lift (i64_try_from Overflow offset);
  row ←! statement (λ s,
    (Ok (nonces_table s !! (root, offs)),
     set_nonces s (nonces_chunks s) (delete (root, offs) (nonces_table s))));
  match row with
  | None => io_ret None
  | Some text =>
      nonce ←! io_lift (ok_or Serialization (nonces_from_str text));
      io_ret (Some nonce)
  end.

(** [DELETE FROM nonces_chunks], for every row or those of other groups; it
    cascades to the nonces of the deleted roots. *)
Definition retain_nonces (groups : list B256) : store () :=
  statement (λ s,
    let chunks :=
      match groups with
      | [] => ∅
      | _ => filter (λ row, row.2.1 ∈ groups) (nonces_chunks s)
      end in
    let kept :=
      filter (λ row : (B256 * N) * Json,
        ¬ (is_Some (nonces_chunks s !! row.1.1) ∧ chunks !! row.1.1 = None))
        (nonces_table s) in
    (Ok (), set_nonces s chunks kept)).

(** ** Invariants of the tables *)

Abbreviation preserves P := (io_preserves (λ s : SecretStore, P (tables s))).

(** Every nonce belongs to a registered chunk. *)
Definition foreign_keys (s : SecretTables) : Prop :=
  ∀ root offs, is_Some (nonces_table s !! (root, offs)) → is_Some (nonces_chunks s !! root).

(** The nonce is gone while its chunk is still registered for [group]. *)
Definition burned (root : B256) (offs : N) (group : B256) (s : SecretTables) : Prop :=
  nonces_table s !! (root, offs) = None ∧ ∃ me, nonces_chunks s !! root = Some (group, me).

(** The row of the key generation secrets of [group]. *)
Definition keygen_row (group : B256) (me : Address) (text : Json) (s : SecretTables) : Prop :=
  keygen_secrets s !! (group, me) = Some text.

(** What the statements preserve, the operations do. *)
Lemma store_keygen_secrets_preserves P group me secrets :
  (∀ s text, P s → secrets_to_string secrets = Some text →
     keygen_secrets s !! (group, me) = None →
     P (set_keygen_secrets s (<[(group, me) := text]> (keygen_secrets s)))) →
  preserves P (store_keygen_secrets group me secrets).
Proof.
  intros H. unfold store_keygen_secrets.
  destruct (secrets_to_string secrets) as [text|] eqn:Ht; [|by intros s Hs].
  apply io_bind_lift_preserves, io_bind_preserves; [|auto with io]. apply statement_preserves.
  intros s Hs. destruct (keygen_secrets s !! (group, me)) eqn:E; simpl; auto.
Qed.

Lemma retain_keygen_secrets_preserves P groups :
  (∀ s m, P s → P (set_keygen_secrets s m)) → preserves P (retain_keygen_secrets groups).
Proof. intros H. apply statement_preserves. intros s Hs. by apply H. Qed.

Lemma register_nonces_chunk_preserves P group me chunk :
  (∀ s, P s → nonces_chunks s !! chunk_commitment chunk = None →
     P (set_nonces s (<[chunk_commitment chunk := (group, me)]> (nonces_chunks s))
          (nonces_table s))) →
  (∀ s offs text, P s → is_Some (nonces_chunks s !! chunk_commitment chunk) →
     nonces_table s !! (chunk_commitment chunk, offs) = None →
     P (set_nonces s (nonces_chunks s)
          (<[(chunk_commitment chunk, offs) := text]> (nonces_table s)))) →
  preserves P (register_nonces_chunk group me chunk).
Proof.
  intros Hc Hn. apply transaction_preserves.
  apply io_bind_preserves.
  { apply statement_preserves. intros s Hs.
    destruct (nonces_chunks s !! _) eqn:E; simpl; auto. }
  intros _. apply io_bind_preserves; [|auto with io].
  apply io_for_preserves. intros [offset nonce] _.
  do 2 (apply io_bind_preserves; [auto with io|]; intros ?).
  apply statement_preserves. intros s Hs.
  destruct (nonces_table s !! (chunk_commitment chunk, _)) eqn:E,
    (nonces_chunks s !! chunk_commitment chunk) eqn:E'; simpl; eauto.
Qed.

Lemma store_nonces_reveal_preserves P root offset :
  preserves P (store_nonces_reveal root offset).
Proof.
  apply io_bind_preserves; [auto with io|]. intros offs. apply io_bind_preserves.
  - apply statement_preserves. by intros s.
  - intros [text|]; auto with io.
Qed.

Lemma take_nonce_preserves P root offset :
  (∀ s offs, P s → P (set_nonces s (nonces_chunks s) (delete (root, offs) (nonces_table s)))) →
  preserves P (take_nonce root offset).
Proof.
  intros H. apply io_bind_preserves; [auto with io|]. intros offs. apply io_bind_preserves.
  - apply statement_preserves. intros s Hs. simpl. auto.
  - intros [text|]; auto with io.
Qed.

(** The two reconciling deletes, the empty list included. *)
Lemma retained_keygen_secrets (groups : list B256) (m : gmap (B256 * Address) Json) k :
  (match groups with [] => ∅ | _ => filter (λ row, row.1.1 ∈ groups) m end) !! k =
  if decide (k.1 ∈ groups) then m !! k else None.
Proof.
  destruct groups as [|g groups]; [by rewrite lookup_empty, decide_False by set_solver|].
  rewrite map_lookup_filter. destruct (m !! k); simpl; repeat case_guard;
    repeat case_decide; naive_solver.
Qed.

Lemma retained_chunks (groups : list B256) (m : gmap B256 (B256 * Address)) root :
  (match groups with [] => ∅ | _ => filter (λ row, row.2.1 ∈ groups) m end) !! root =
  row ← m !! root; if decide (row.1 ∈ groups) then Some row else None.
Proof.
  destruct groups as [|g groups].
  - rewrite lookup_empty. by destruct (m !! root).
  - rewrite map_lookup_filter. destruct (m !! root); simpl; [|done].
    repeat case_guard; repeat case_decide; naive_solver.
Qed.

(** ** The invariants and the operations *)

Lemma register_foreign_keys group me chunk :
  preserves foreign_keys (register_nonces_chunk group me chunk).
Proof.
  apply register_nonces_chunk_preserves.
  - intros s Hs Hnone root offs H. simpl in *.
    destruct (decide (root = chunk_commitment chunk)) as [->|Hne].
    + by rewrite lookup_insert_eq.
    + rewrite lookup_insert_ne by done. eauto.
  - intros s offs text Hs Hroot _ root offs' H. simpl in *.
    destruct (decide (root = chunk_commitment chunk)) as [->|Hne]; [done|].
    rewrite lookup_insert_ne in H by naive_solver. eauto.
Qed.

Lemma take_foreign_keys root offset : preserves foreign_keys (take_nonce root offset).
Proof.
  apply take_nonce_preserves.
  intros s offs Hs root' offs' [text H]. simpl in *.
  apply lookup_delete_Some in H as [_ H]. eauto.
Qed.

Lemma retain_nonces_foreign_keys groups :
  preserves foreign_keys (retain_nonces groups).
Proof.
  apply statement_preserves. intros s Hs root offs [text H]; simpl in *.
  apply map_lookup_filter_Some in H as [H Hkept]; simpl in Hkept.
  destruct (Hs root offs) as [row Hrow]; [by eexists|].
  apply not_eq_None_Some. intros Hnone. apply Hkept. split; [by exists row|done].
Qed.

(** A root that is registered cannot be registered again. *)
Lemma register_duplicate s group me chunk r s' :
  is_Some (nonces_chunks (tables s) !! chunk_commitment chunk) →
  register_nonces_chunk group me chunk s = (r, s') → tables s' = tables s.
Proof.
  intros [row Hrow] H. destruct r as [a|e]; [|by eapply transaction_Err].
  apply transaction_Ok in H as (s1 & s2 & Hs1 & H & _).
  apply io_bind_Ok in H as ([] & s3 & [[??]|H]%statement_inv & _); [done|].
  by rewrite Hs1, Hrow in H.
Qed.

Lemma register_burned root offs g group me chunk :
  preserves (burned root offs g) (register_nonces_chunk group me chunk).
Proof.
  destruct (decide (root = chunk_commitment chunk)) as [->|Hne].
  - intros s [Hn [a Ha]].
    destruct (register_nonces_chunk group me chunk s) as [r s'] eqn:H; simpl.
    apply register_duplicate in H as ->; [by split; [|exists a]|by rewrite Ha].
  - apply register_nonces_chunk_preserves.
    + intros s [Hn [a Ha]] _. split; [done|]. exists a. simpl.
      by rewrite lookup_insert_ne.
    + intros s offs' text [Hn [a Ha]] _ _. split; [|by exists a]. simpl.
      by rewrite lookup_insert_ne by congruence.
Qed.

Lemma take_burned root offs g root' offset :
  preserves (burned root offs g) (take_nonce root' offset).
Proof.
  apply take_nonce_preserves.
  intros s offs' [Hn [a Ha]]. split; [|by exists a]. simpl.
  apply lookup_delete_None. by right.
Qed.

Lemma retain_nonces_burned root offs g groups :
  g ∈ groups → preserves (burned root offs g) (retain_nonces groups).
Proof.
  intros Hg. apply statement_preserves. intros s [Hn [a Ha]].
  split; simpl.
  - apply map_lookup_filter_None. by left.
  - exists a. rewrite retained_chunks, Ha; simpl. by rewrite decide_True.
Qed.

(** Key generation rows are only ever added, and dropped by a reconciliation
    without the group. *)
Lemma store_keygen_row group me text group' me' secrets :
  preserves (keygen_row group me text) (store_keygen_secrets group' me' secrets).
Proof.
  apply store_keygen_secrets_preserves.
  intros s text' Hs _ Hnone. unfold keygen_row in *. simpl.
  by rewrite lookup_insert_ne by congruence.
Qed.

Lemma retain_keygen_row group me text groups :
  group ∈ groups → preserves (keygen_row group me text) (retain_keygen_secrets groups).
Proof.
  intros Hg. apply statement_preserves. intros s Hs.
  unfold keygen_row in *. simpl. by rewrite retained_keygen_secrets, decide_True.
Qed.

(** ** What the operations return *)

(** A nonce that is returned was stored and is burned. *)
Lemma take_nonce_Some root offset s n s' :
  take_nonce root offset s = (Ok (Some n), s') →
  (∃ text, nonces_table (tables s) !! (root, offset) = Some text ∧
     nonces_from_str text = Some n) ∧
  nonces_chunks (tables s') = nonces_chunks (tables s) ∧
  nonces_table (tables s') !! (root, offset) = None.
Proof.
  unfold take_nonce, i64_try_from, io_lift. intros H.
  apply io_bind_Ok in H as (offs & s1 & H1 & H'). case_decide as Hle; simplify_eq.
  apply io_bind_Ok in H' as (row & s2 & [[??]|H2]%statement_inv & Hrow); [done|].
  injection H2 as Hrow' Hs2.
  destruct row as [text|]; [|done].
  apply io_bind_Ok in Hrow as (n' & s4 & H3 & H4).
  destruct (nonces_from_str text) eqn:Ht; simplify_eq/=. unfold io_ret in H4. simplify_eq/=.
  rewrite <-Hs2. split_and!; [by eexists|done|apply lookup_delete_eq].
Qed.

(** A nonce that is not stored is not returned. *)
Lemma take_nonce_absent root offset s n :
  nonces_table (tables s) !! (root, offset) = None →
  (take_nonce root offset s).1 ≠ Ok (Some n).
Proof.
  intros Hn Hr. destruct (take_nonce root offset s) as [r s'] eqn:H. simpl in Hr. subst.
  apply take_nonce_Some in H as [(text & Ht & _) _]. congruence.
Qed.

(** What is stored is what the row holds afterwards; a row is never replaced. *)
Lemma store_keygen_secrets_Ok group me secrets s stored s' :
  store_keygen_secrets group me secrets s = (Ok stored, s') →
  ∃ text, keygen_row group me text (tables s') ∧ secrets_from_str text = Some stored ∧
    (keygen_secrets (tables s) !! (group, me) = None → secrets_to_string secrets = Some text).
Proof.
  unfold store_keygen_secrets, io_lift. intros H.
  apply io_bind_Ok in H as (text & s1 & H1 & H').
  destruct (secrets_to_string secrets) as [text'|]; simplify_eq/=.
  apply io_bind_Ok in H' as (row & s2 & [[??]|H2]%statement_inv & Hrow); [done|].
  destruct (secrets_from_str row) eqn:Ht; simplify_eq/=. exists row. revert H2.
  unfold keygen_row. destruct (keygen_secrets (tables s1) !! (group, me)) as [old|] eqn:E;
    intros [= <- <-]; simpl; split_and!; try done. apply lookup_insert_eq.
Qed.

Lemma store_keygen_secrets_row group me text secrets s stored s' :
  keygen_row group me text (tables s) →
  store_keygen_secrets group me secrets s = (Ok stored, s') →
  secrets_from_str text = Some stored.
Proof.
  intros Hrow H. destruct (store_keygen_secrets_Ok _ _ _ _ _ _ H) as (text' & Hrow' & Hp & _).
  pose proof (store_keygen_row group me text group me secrets s Hrow) as Hkept.
  rewrite H in Hkept. unfold keygen_row in *. simpl in Hkept. congruence.
Qed.

(** ** Registering a chunk *)

Definition nonce_row (root : B256) (offs : N) (text : Json) (s : SecretTables) : Prop :=
  nonces_table s !! (root, offs) = Some text.

Lemma insert_nonce_keeps root offs text root' offset nonce :
  preserves (nonce_row root offs text) (insert_nonce root' offset nonce).
Proof.
  do 2 (apply io_bind_preserves; [auto with io|]; intros ?).
  apply statement_preserves. intros s Hs.
  destruct (nonces_table s !! (root', _)) eqn:E; [done|].
  destruct (nonces_chunks s !! root'); [|done]. unfold nonce_row in *. simpl.
  by rewrite lookup_insert_ne by congruence.
Qed.

Lemma insert_nonce_Ok root offset nonce s s' :
  insert_nonce root offset nonce s = (Ok (), s') →
  offset ≤ i64_max ∧ nonces_chunks (tables s') = nonces_chunks (tables s) ∧
  ∃ text, nonces_to_string nonce = Some text ∧ nonce_row root offset text (tables s').
Proof.
  unfold insert_nonce, i64_try_from, io_lift. intros H.
  apply io_bind_Ok in H as (offs & s1 & H1 & H'). case_decide as Hle; simplify_eq.
  apply io_bind_Ok in H' as (text & s2 & H2 & H3).
  destruct (nonces_to_string nonce) as [text'|] eqn:Ht; simplify_eq/=.
  apply statement_inv in H3 as [[??]|H3]; [done|]. revert H3. unfold nonce_row.
  destruct (nonces_table (tables s2) !! (root, offs)), (nonces_chunks (tables s2) !! root);
    intros [= <-]; simpl.
  split_and!; [done|done|]. exists text. split; [done|]. by rewrite lookup_insert_eq.
Qed.

Lemma insert_nonces_Ok root (l : list (N * Nonces)) s s' :
  io_for (λ '(offset, nonce), insert_nonce root offset nonce) l s = (Ok (), s') →
  nonces_chunks (tables s') = nonces_chunks (tables s) ∧
  ∀ offset nonce, (offset, nonce) ∈ l → offset ≤ i64_max ∧
    ∃ text, nonces_to_string nonce = Some text ∧ nonce_row root offset text (tables s').
Proof.
  revert s. induction l as [|[o n] l IH]; intros s H; simpl in H.
  - unfold io_ret in H. simplify_eq. split; [done|]. intros ?? Hin. by apply elem_of_nil in Hin.
  - apply io_bind_Ok in H as ([] & s1 & (Hle & Hc & text & Ht & Hrow)%insert_nonce_Ok & H2).
    pose proof (IH _ H2) as [Hc' Hin']. split; [congruence|].
    intros offset nonce [Heq|Hin]%elem_of_cons; [|by apply Hin'].
    simplify_eq. split; [done|]. exists text. split; [done|].
    assert (preserves (nonce_row root o text)
      (io_for (λ '(offset, nonce), insert_nonce root offset nonce) l)) as Hkeep.
    { apply io_for_preserves. intros [??] _. apply insert_nonce_keeps. }
    specialize (Hkeep s1 Hrow). by rewrite H2 in Hkeep.
Qed.

Lemma register_Ok group me chunk s root s' :
  register_nonces_chunk group me chunk s = (Ok root, s') →
  root = chunk_commitment chunk ∧ nonces_chunks (tables s) !! root = None ∧
  nonces_chunks (tables s') !! root = Some (group, me) ∧
  ∀ i nonce, chunk_nonces chunk !! i = Some nonce → N.of_nat i ≤ i64_max ∧
    ∃ text, nonces_to_string nonce = Some text ∧ nonce_row root (N.of_nat i) text (tables s').
Proof.
  intros (s1 & s2 & Hs1 & Hbody & Hs2)%transaction_Ok. rewrite <-Hs1, Hs2.
  apply io_bind_Ok in Hbody as ([] & s3 & [[??]|Hins]%statement_inv & Hbody); [done|].
  apply io_bind_Ok in Hbody as ([] & s4 & [Hc Hrows]%insert_nonces_Ok & Hbody).
  unfold io_ret in Hbody. simplify_eq. revert Hins.
  destruct (nonces_chunks (tables s1) !! chunk_commitment chunk) eqn:Hnone; intros [= Ht].
  split_and!; [done|done|rewrite Hc, <-Ht; apply lookup_insert_eq|].
  intros i nonce Hi. apply Hrows. apply elem_of_lookup_imap. exists i, nonce. done.
Qed.

(** ** Reading a stored nonce *)

Lemma reveal_row (J : json_roundtrip SJ) root offs text nonce s :
  offs ≤ i64_max → nonces_to_string nonce = Some text → nonce_row root offs text (tables s) →
  answering s = None →
  store_nonces_reveal root offs s = (Ok (Some (nonces_reveal nonce)), mkDb (tables s) None).
Proof.
  intros Hle Ht Hrow Ha. unfold store_nonces_reveal, i64_try_from, io_bind, io_lift.
  rewrite decide_True, statement_answered by done. cbn [fst snd]. rewrite Hrow.
  by rewrite (proj2 J _ _ Ht).
Qed.

Lemma take_row (J : json_roundtrip SJ) root offs text nonce s :
  offs ≤ i64_max → nonces_to_string nonce = Some text → nonce_row root offs text (tables s) →
  answering s = None →
  take_nonce root offs s = (Ok (Some nonce),
    mkDb (set_nonces (tables s) (nonces_chunks (tables s))
      (delete (root, offs) (nonces_table (tables s)))) None).
Proof.
  intros Hle Ht Hrow Ha. unfold take_nonce, i64_try_from, io_bind, io_lift.
  rewrite decide_True, statement_answered by done. cbn [fst snd]. rewrite Hrow.
  by rewrite (proj2 J _ _ Ht).
Qed.

End secrets.
