(* ===== verification/Effects.v ===== *)
(** * The effect handler: [service/effect.rs]

    The handler over the secret store and the process-local nonce generator.
    What an effect finds outside of the program comes with it as a [World]: the
    random numbers of its thread, how many database statements are answered,
    whether the system spawns a worker, and what the worker of a stream
    answers (see [NonceStream.v]). *)

From S2P Require Import Prelude.
From S2P Require Import Bytes.
From S2P Require Import Database.
From S2P Require Import Bindings.
From S2P Require Import Alloy.
From S2P Require Import FrostLib.
From S2P Require Import Frost.
From S2P Require Import FrostKeygen.
From S2P Require Import FrostSign.
From S2P Require Import Core.
From S2P Require Import State.
From S2P Require Import Secrets.

(** [secrets::nonces::Error]. *)
Inductive GeneratorError := Spawn | Unavailable.

(** [InternalError] holds the text of any of these. *)
Inductive InternalError :=
  | FrostFailed (error : FrostErr)
  | StoreFailed (error : SecretError)
  | GeneratorFailed (error : GeneratorError).

Section effects.
Context {AL : Alloy} {FL : FrostLib} {SJ : SecretsJson}.
Open Scope safenet_scope.

Record World := {
  thread_rng : Rng;
  answers : option nat;
  spawns : B256 → bool;
  streamed : B256 → result (option NonceChunk) GeneratorError;
}.

(** A stream of the generator is known by its sampler's key share. *)
Record Handler := {
  account : Address;
  secrets : SecretStore;
  nonce_generator : gmap B256 KeyShare;
}.

Definition SecretStore_new : SecretStore :=
  mkDb {| keygen_secrets := ∅; nonces_chunks := ∅; nonces_table := ∅ |} None.

Definition Handler_new (account : Address) (secrets : SecretStore) : Handler :=
  {| account := account; secrets := secrets; nonce_generator := ∅ |}.

Abbreviation handler A := (io Handler A InternalError).

Definition on_store {A} (m : io SecretStore A SecretError) : handler A := λ h,
  let '(r, s) := m (secrets h) in
  (rmap_err StoreFailed r,
   {| account := account h; secrets := s; nonce_generator := nonce_generator h |}).

Definition set_generator (h : Handler) (groups : gmap B256 KeyShare) : Handler :=
  {| account := account h; secrets := secrets h; nonce_generator := groups |}.

(** ** The nonce generator *)

(** [NonceGenerator::start]. *)
Definition generator_start (w : World) (group_id : B256) (key_share : KeyShare)
    : handler () := λ h,
  match nonce_generator h !! group_id with
  | Some _ => (Ok (), h)
  | None =>
      if spawns w group_id then
        (Ok (), set_generator h (<[group_id := key_share]> (nonce_generator h)))
      else (Err (GeneratorFailed Spawn), h)
  end.

(** [NonceGenerator::next]. *)
Definition generator_next (w : World) (group_id : B256)
    : handler (option NonceChunk) := λ h,
  match nonce_generator h !! group_id with
  | None => (Err (GeneratorFailed Unavailable), h)
  | Some _ => (rmap_err GeneratorFailed (streamed w group_id), h)
  end.

(** [NonceGenerator::retain]. *)
Definition generator_retain (keep : B256 → bool) : handler () := λ h,
  (Ok (), set_generator h (filter (λ p, keep p.1) (nonce_generator h))).

(** ** Performing an effect *)

(** The groups with and without a key share. *)
Definition split_groups (groups : gmap B256 (option KeyShare))
    : list B256 * gmap B256 KeyShare :=
  ((filter (λ p : B256 * option KeyShare, p.2 = None) (btree_iter groups)).*1,
   omap id groups).

Definition try_perform_effect (w : World) (effect : Effect) : handler Resume :=
  match effect with
  | KeyGenSetup group_id count threshold => λ h,
      (secrets ←! io_lift (rmap_err FrostFailed
         (setup (thread_rng w) (account h) count threshold).1);
       stored ←! on_store (store_keygen_secrets group_id (account h) secrets);
       io_ret (Setup group_id stored)) h
  | StartNonceGeneration group_id key_share =>
      _ ←! generator_start w group_id key_share;
      io_ret Noop
  | NonceTree group_id => λ h,
      (next ←! generator_next w group_id;
       match next with
       | None => io_ret Noop
       | Some nonce_chunk =>
           commitment ←! on_store (register_nonces_chunk group_id (account h) nonce_chunk);
           io_ret (ResumeNonceTree group_id commitment)
       end) h
  | RevealNonceCommitments signature_id message root offset =>
      revealed ←! on_store (store_nonces_reveal root offset);
      io_ret (match revealed with
              | Some (nonces, proof) => NonceCommitments signature_id message nonces proof
              | None => Noop
              end)
  | UseNonce message root offset =>
      taken ←! on_store (take_nonce root offset);
      io_ret (match taken with
              | Some nonces => Nonce message nonces
              | None => Noop
              end)
  | ReconcileGroupSecrets groups =>
      let '(keygen, nonces) := split_groups groups in
      _ ←! on_store (retain_nonces (keygen ++ btree_keys nonces));
      _ ←! on_store (retain_keygen_secrets keygen);
      _ ←! generator_retain (λ group_id, bool_decide (is_Some (nonces !! group_id)));
      _ ←! io_for (λ '(group_id, key_share), generator_start w group_id key_share)
        (btree_iter nonces);
      io_ret Noop
  end.

Definition with_answers (w : World) (h : Handler) : Handler :=
  {| account := account h; secrets := mkDb (tables (secrets h)) (answers w);
     nonce_generator := nonce_generator h |}.

(** A failed effect resumes with [Noop]. *)
Definition perform_effect (w : World) (h : Handler) (effect : Effect) : Resume * Handler :=
  match try_perform_effect w effect (with_answers w h) with
  | (Ok resume, h) => (resume, h)
  | (Err _, h) => (Noop, h)
  end.

Definition perform_effects (h : Handler) (effects : list (World * Effect)) : Handler :=
  foldl (λ h '(w, effect), (perform_effect w h effect).2) h effects.

(** ** What every effect preserves *)

(** The tables of the handler's store. *)
Definition stored (h : Handler) : SecretTables := tables (secrets h).

Abbreviation keeps P := (io_preserves (λ h : Handler, P (stored h))).

Lemma on_store_preserves {A} P (m : io SecretStore A SecretError) :
  io_preserves (λ s, P (tables s)) m → keeps P (on_store m).
Proof.
  intros Hm h Hh. specialize (Hm _ Hh). unfold on_store. by destruct (m (secrets h)).
Qed.

Lemma generator_start_preserves P w g k : keeps P (generator_start w g k).
Proof.
  intros h Hh. unfold generator_start.
  destruct (nonce_generator h !! g); [done|]. by destruct (spawns w g).
Qed.

(** The properties of the tables, one hypothesis per operation that may break
    them. *)
Lemma try_perform_effect_preserves P w e :
  (∀ group me count threshold rng s, e = KeyGenSetup group count threshold →
     (setup rng me count threshold).1 = Ok s →
     io_preserves (λ s, P (tables s)) (store_keygen_secrets group me s)) →
  (∀ group me c, streamed w group = Ok (Some c) →
     io_preserves (λ s, P (tables s)) (register_nonces_chunk group me c)) →
  (∀ root offset, io_preserves (λ s, P (tables s)) (take_nonce root offset)) →
  (∀ groups, e = ReconcileGroupSecrets groups →
     io_preserves (λ s, P (tables s))
       (retain_nonces ((split_groups groups).1 ++ btree_keys (split_groups groups).2)) ∧
     io_preserves (λ s, P (tables s)) (retain_keygen_secrets (split_groups groups).1)) →
  keeps P (try_perform_effect w e).
Proof.
  intros Hkeygen Hregister Htake Hreconcile.
  destruct e as [g c t|g k|g|sid m root o|m root o|groups]; cbn [try_perform_effect].
  - intros h. destruct (setup (thread_rng w) (account h) c t).1 as [s|] eqn:Hs; [|done].
    apply (io_bind_lift_preserves (λ h, P (stored h))), io_bind_preserves; [|auto with io].
    by eapply on_store_preserves, Hkeygen.
  - apply io_bind_preserves; [apply generator_start_preserves|auto with io].
  - intros h Hh. unfold io_bind at 1, generator_next.
    destruct (nonce_generator h !! g); [|done].
    destruct (streamed w g) as [[chunk|]|] eqn:Hc; [|done..].
    apply (io_bind_preserves (λ h, P (stored h))); [|auto with io|done].
    apply on_store_preserves. by apply Hregister.
  - apply io_bind_preserves; [|auto with io].
    by apply on_store_preserves, store_nonces_reveal_preserves.
  - apply io_bind_preserves; [by apply on_store_preserves|auto with io].
  - destruct (Hreconcile _ eq_refl) as [Hn Hk]. destruct (split_groups groups) as [keygen nonces].
    apply io_bind_preserves; [by apply on_store_preserves|]. intros _.
    apply io_bind_preserves; [by apply on_store_preserves|]. intros _.
    apply io_bind_preserves; [by intros h Hh|]. intros _.
    apply io_bind_preserves; [|auto with io].
    apply io_for_preserves. intros [g k] _. apply generator_start_preserves.
Qed.

Lemma perform_effect_preserves P w e :
  keeps P (try_perform_effect w e) →
  ∀ h, P (stored h) → P (stored (perform_effect w h e).2).
Proof.
  intros Hp h Hh. unfold perform_effect. specialize (Hp (with_answers w h) Hh).
  by destruct (try_perform_effect w e (with_answers w h)) as [[?|?] ?].
Qed.

Lemma try_perform_effect_account a w e :
  io_preserves (λ h, account h = a) (try_perform_effect w e).
Proof.
  assert (∀ A (m : io SecretStore A SecretError),
    io_preserves (λ h, account h = a) (on_store m)) as Hstore.
  { intros A m h Hh. unfold on_store. by destruct (m (secrets h)). }
  assert (∀ g k, io_preserves (λ h, account h = a) (generator_start w g k)) as Hstart.
  { intros g k h Hh. unfold generator_start.
    destruct (nonce_generator h !! g); [done|]. by destruct (spawns w g). }
  destruct e as [g c t|g k|g|sid m root o|m root o|groups]; cbn [try_perform_effect].
  - intros h Hh. apply (io_bind_preserves (λ h, account h = a)); [auto with io| |done].
    intros s. auto with io.
  - auto with io.
  - intros h Hh. apply (io_bind_preserves (λ h, account h = a)); [| |done].
    + intros h' Hh'. unfold generator_next. by destruct (nonce_generator h' !! g).
    + intros [chunk|]; auto with io.
  - auto with io.
  - auto with io.
  - destruct (split_groups groups) as [keygen nonces].
    do 2 (apply io_bind_preserves; [done|]; intros _).
    apply io_bind_preserves; [by intros h Hh|]. intros _.
    apply io_bind_preserves; [|auto with io].
    apply io_for_preserves. intros [g k] _. apply Hstart.
Qed.

(** The groups a reconciliation retains in the two tables. *)
Lemma split_groups_keygen groups g :
  g ∈ (split_groups groups).1 ↔ groups !! g = Some None.
Proof.
  unfold split_groups; simpl. rewrite list_elem_of_fmap. split.
  - intros ([g' k] & -> & [Hk Hin%elem_of_btree_iter]%list_elem_of_filter).
    simpl in *. congruence.
  - intros H. exists (g, None). split; [done|]. apply list_elem_of_filter.
    by rewrite elem_of_btree_iter.
Qed.

Lemma split_groups_nonces groups g k :
  (split_groups groups).2 !! g = Some k ↔ groups !! g = Some (Some k).
Proof.
  unfold split_groups; simpl. rewrite lookup_omap_Some. split.
  - intros (k' & H & Hg). unfold id in H. congruence.
  - intros H. by exists (Some k).
Qed.

Lemma split_groups_all groups g :
  g ∈ (split_groups groups).1 ++ btree_keys (split_groups groups).2 ↔
  is_Some (groups !! g).
Proof.
  rewrite elem_of_app, split_groups_keygen, elem_of_btree_keys. unfold is_Some at 1.
  setoid_rewrite split_groups_nonces. split; [by intros [H|[k H]]; rewrite H|].
  intros [[k|] H]; [right; by exists k|by left].
Qed.

(** A table invariant through a sequence of effects. *)
Lemma perform_effects_preserves P es :
  (∀ w e, (w, e) ∈ es → keeps P (try_perform_effect w e)) →
  ∀ h, P (stored h) → P (stored (perform_effects h es)).
Proof.
  induction es as [|[w e] es IH]; intros Hes h Hh; [done|].
  unfold perform_effects; simpl. apply IH.
  - intros w' e' Hin. apply Hes. by right.
  - apply perform_effect_preserves; [|done]. apply Hes. left.
Qed.

Lemma try_foreign_keys w e : keeps foreign_keys (try_perform_effect w e).
Proof.
  apply try_perform_effect_preserves.
  - intros. by apply store_keygen_secrets_preserves.
  - intros. apply register_foreign_keys.
  - intros. apply take_foreign_keys.
  - intros groups _. split; [apply retain_nonces_foreign_keys|].
    by apply retain_keygen_secrets_preserves.
Qed.

Lemma try_burned root offs g w e :
  (∀ groups, e = ReconcileGroupSecrets groups → is_Some (groups !! g)) →
  keeps (burned root offs g) (try_perform_effect w e).
Proof.
  intros Hkeep. apply try_perform_effect_preserves.
  - intros. by apply store_keygen_secrets_preserves.
  - intros. apply register_burned.
  - intros. apply take_burned.
  - intros groups He. split; [|by apply retain_keygen_secrets_preserves].
    apply retain_nonces_burned. apply split_groups_all. eauto.
Qed.

Lemma try_keygen_row g me text w e :
  (∀ groups, e = ReconcileGroupSecrets groups → groups !! g = Some None) →
  keeps (keygen_row g me text) (try_perform_effect w e).
Proof.
  intros Hkeep. apply try_perform_effect_preserves.
  - intros. apply store_keygen_row.
  - intros. by apply register_nonces_chunk_preserves.
  - intros. by apply take_nonce_preserves.
  - intros groups He. split; [by apply statement_preserves; intros s Hs|].
    apply retain_keygen_row. apply split_groups_keygen. eauto.
Qed.

Lemma perform_foreign_keys es h :
  foreign_keys (stored h) → foreign_keys (stored (perform_effects h es)).
Proof. apply perform_effects_preserves. intros. apply try_foreign_keys. Qed.

Lemma perform_effects_account es h :
  account (perform_effects h es) = account h.
Proof.
  revert h. induction es as [|[w e] es IH]; intros h; [done|].
  unfold perform_effects in *; simpl. rewrite IH. unfold perform_effect.
  pose proof (try_perform_effect_account (account h) w e (with_answers w h) eq_refl) as Ha.
  by destruct (try_perform_effect w e (with_answers w h)) as [[?|?] ?].
Qed.

(** ** Single effects *)

Lemma use_nonce_inv w h m root offset m' n h' :
  perform_effect w h (UseNonce m root offset) = (Nonce m' n, h') →
  (∃ text, nonces_table (stored h) !! (root, offset) = Some text) ∧
  nonces_chunks (stored h') = nonces_chunks (stored h) ∧
  nonces_table (stored h') !! (root, offset) = None.
Proof.
  unfold perform_effect; cbn [try_perform_effect].
  unfold io_bind, on_store. destruct (take_nonce root offset _) as [r s] eqn:Hs.
  destruct r as [[n'|]|e]; simpl; intros H; simplify_eq/=.
  apply take_nonce_Some in Hs as [(text & Ht & _) [Hc Hn]]. eauto.
Qed.

Lemma use_nonce_absent w h m root offset :
  nonces_table (stored h) !! (root, offset) = None →
  (perform_effect w h (UseNonce m root offset)).1 = Noop.
Proof.
  intros Hn. unfold perform_effect; cbn [try_perform_effect].
  unfold io_bind, on_store. destruct (take_nonce root offset _) as [r s] eqn:Hs.
  destruct r as [[n'|]|e]; simpl; [|done..].
  exfalso. eapply take_nonce_absent; [|by rewrite Hs]. exact Hn.
Qed.

Lemma key_gen_setup_inv w h g c t r h' :
  perform_effect w h (KeyGenSetup g c t) = (r, h') →
  r = Noop ∨ ∃ s s1 sec,
    store_keygen_secrets g (account h) s (secrets (with_answers w h)) = (Ok sec, s1) ∧
    secrets h' = s1 ∧ r = Setup g sec.
Proof.
  unfold perform_effect; cbn [try_perform_effect].
  unfold io_bind, on_store, io_lift.
  destruct (setup _ _ c t).1 as [s|e]; simpl; [|intros H; simplify_eq; by left].
  destruct (store_keygen_secrets _ _ s _) as [[sec|e] s1] eqn:Hs; simpl;
    intros H; simplify_eq; [|by left].
  right. by exists s, s1, sec.
Qed.

(** Starting the streams of all groups, when the system spawns the workers. *)
Lemma start_all w h (l : list (B256 * KeyShare)) :
  (∀ g, spawns w g = true) → NoDup l.*1 →
  ∃ h', io_for (λ '(group_id, key_share), generator_start w group_id key_share) l h = (Ok (), h') ∧
    secrets h' = secrets h ∧
    ∀ g, nonce_generator h' !! g =
      match nonce_generator h !! g with
      | Some k => Some k
      | None => (list_to_map l : gmap B256 KeyShare) !! g
      end.
Proof.
  intros Hw. revert h. induction l as [|[g0 k0] l IH]; intros h Hnd.
  - exists h. split_and!; [done..|]. intros g. by destruct (nonce_generator h !! g).
  - apply NoDup_cons in Hnd as [Hg0 Hnd]. rewrite io_for_cons.
    unfold io_bind. cbn beta iota. unfold generator_start at 1.
    rewrite list_to_map_cons.
    destruct (nonce_generator h !! g0) as [k|] eqn:E.
    + destruct (IH h Hnd) as (h' & -> & Hs & Hg). exists h'. split_and!; [done..|].
      intros g. rewrite Hg. destruct (decide (g = g0)) as [->|Hne]; [by rewrite E|].
      by rewrite lookup_insert_ne.
    + rewrite Hw.
      destruct (IH (set_generator h (<[g0 := k0]> (nonce_generator h))) Hnd)
        as (h' & -> & Hs & Hg). exists h'. split_and!; [done..|].
      intros g. rewrite Hg. simpl. destruct (decide (g = g0)) as [->|Hne].
      * by rewrite lookup_insert_eq, E, lookup_insert_eq.
      * by rewrite !lookup_insert_ne by done.
Qed.

(** [self.secrets.retain_nonces(..)] with the database answering. *)
Lemma retain_answered s groups :
  answering s = None →
  ∃ t, retain_nonces groups s = (Ok (), mkDb t None) ∧
  keygen_secrets t = keygen_secrets (tables s) ∧
  nonces_chunks t =
    match groups with
    | [] => ∅
    | _ => filter (λ row, row.2.1 ∈ groups) (nonces_chunks (tables s))
    end ∧
  (foreign_keys (tables s) → ∀ root offs, nonces_table t !! (root, offs) =
     match nonces_chunks t !! root with
     | Some _ => nonces_table (tables s) !! (root, offs)
     | None => None
     end).
Proof.
  intros Ha. eexists. split_and!.
  - unfold retain_nonces. by rewrite statement_answered.
  - done.
  - done.
  - intros Hfk root offs. simpl. rewrite map_lookup_filter.
    destruct (nonces_table (tables s) !! (root, offs)) as [text|] eqn:Ht; simpl;
      [|by destruct (_ !! root)].
    destruct (Hfk root offs) as [row Hrow]; [by eexists|].
    match goal with |- context [?m !! root = None] => set (chunks := m) end.
    rewrite Hrow. case_guard as Hkept; destruct (chunks !! root) eqn:E; try done; exfalso.
    + by apply Hkept.
    + by destruct Hkept as [_ ?].
Qed.

Lemma retained_streams (nonces streams : gmap B256 KeyShare) g :
  filter (λ p : B256 * KeyShare, bool_decide (is_Some (nonces !! p.1))) streams !! g =
    match nonces !! g with Some _ => streams !! g | None => None end.
Proof.
  rewrite map_lookup_filter. destruct (streams !! g) as [k|]; simpl; [|by destruct (nonces !! g)].
  case_guard as Hc.
  - pose proof Hc as Hs. apply bool_decide_unpack in Hs as [x Hx]; simpl in Hx.
    transitivity (Some k); [done|by rewrite Hx].
  - destruct (nonces !! g) as [x|] eqn:Hx; [|done].
    exfalso. apply Hc, bool_decide_pack. by exists x.
Qed.

(** A reconciliation that meets no failure. *)
Lemma reconcile_answered w h groups t :
  let keygen := (split_groups groups).1 in
  let nonces := (split_groups groups).2 in
  answers w = None → (∀ g, spawns w g = true) →
  retain_nonces (keygen ++ btree_keys nonces) (secrets (with_answers w h)) =
    (Ok (), mkDb t None) →
  ∃ h', perform_effect w h (ReconcileGroupSecrets groups) = (Noop, h') ∧
    stored h' = set_keygen_secrets t
      (match keygen with
       | [] => ∅
       | _ => filter (λ row, row.1.1 ∈ keygen) (keygen_secrets t)
       end) ∧
    ∀ g, nonce_generator h' !! g =
      k ← nonces !! g; Some (default k (nonce_generator h !! g)).
Proof.
  intros keygen nonces Ha Hw Ht.
  unfold perform_effect; cbn [try_perform_effect].
  rewrite (surjective_pairing (split_groups groups)).
  fold keygen nonces. unfold io_bind at 1, on_store at 1. rewrite Ht. cbn [rmap_err].
  unfold io_bind at 1, on_store at 1. cbn [secrets].
  unfold retain_keygen_secrets. rewrite statement_answered by done. cbn [fst snd rmap_err].
  unfold io_bind at 1, generator_retain. unfold io_bind at 1.
  match goal with |- context [io_for _ _ ?h2] =>
    destruct (start_all w h2 (btree_iter nonces) Hw) as (h3 & -> & Hs3 & Hg3)
  end; [apply btree_keys_NoDup|].
  exists h3. split_and!; [done|unfold stored; by rewrite Hs3|].
  intros g. rewrite Hg3. cbn [nonce_generator set_generator].
  rewrite retained_streams.
  assert ((list_to_map (btree_iter nonces) : gmap B256 KeyShare) !! g = nonces !! g) as ->.
  { by rewrite (list_to_map_proper _ (map_to_list nonces)), list_to_map_to_list;
      [|apply btree_keys_NoDup|apply btree_iter_perm]. }
  change (nonce_generator (with_answers w h)) with (nonce_generator h).
  by destruct (nonces !! g), (nonce_generator h !! g).
Qed.

(** ** Properties *)

(** [C28] A nonce the handler has given out is burned: whatever effects follow,
    interleaved with whatever failures, a second request for it resumes with
    nothing, as long as every reconciliation retains the nonce's group. *)
Theorem used_nonce_burned me es w m root offset n h :
  perform_effect w (perform_effects (Handler_new me SecretStore_new) es)
    (UseNonce m root offset) = (Nonce m n, h) →
  ∃ g, (∃ a, nonces_chunks (stored h) !! root = Some (g, a)) ∧
    ∀ later w' m',
      (∀ w'' groups, (w'', ReconcileGroupSecrets groups) ∈ later → is_Some (groups !! g)) →
      (perform_effect w' (perform_effects h later) (UseNonce m' root offset)).1 = Noop.
Proof.
  intros H. apply use_nonce_inv in H as [[text Ht] [Hc Hn]].
  assert (foreign_keys (stored (perform_effects (Handler_new me SecretStore_new) es)))
    as Hfk.
  { apply perform_foreign_keys. by intros ?? [??]. }
  destruct (Hfk root offset) as [[g a] Hg]; [by eexists|].
  exists g. rewrite Hc. split; [by exists a|]. intros later w' m' Hlater.
  apply use_nonce_absent.
  assert (burned root offset g (stored (perform_effects h later))) as [Hb _]; [|done].
  apply perform_effects_preserves.
  - intros w1 e He. apply try_burned. intros groups ->. eauto.
  - split; [done|]. exists a. by rewrite Hc.
Qed.

(** The secrets a key generation was set up with are the ones every later
    set-up of the group resumes with, for instance after a reorg, as long as
    every reconciliation retains them. *)
Theorem key_gen_secrets_kept w h g c t s h1 later w' c' t' :
  perform_effect w h (KeyGenSetup g c t) = (Setup g s, h1) →
  (∀ w'' groups, (w'', ReconcileGroupSecrets groups) ∈ later → groups !! g = Some None) →
  (perform_effect w' (perform_effects h1 later) (KeyGenSetup g c' t')).1 ∈
    [Setup g s; Noop].
Proof.
  intros H Hlater.
  pose proof (try_perform_effect_account (account h) w (KeyGenSetup g c t)
    (with_answers w h) eq_refl) as Ha.
  assert (account h1 = account h) as Ha1.
  { unfold perform_effect in H.
    destruct (try_perform_effect w _ (with_answers w h)) as [[?|?] ?]; by simplify_eq/=. }
  clear Ha. apply key_gen_setup_inv in H as [?|(s0 & s1 & sec & Hs & Hh1 & Hr)]; [done|].
  simplify_eq. apply store_keygen_secrets_Ok in Hs as (text & Hrow & Hp & _).
  destruct (perform_effect w' (perform_effects h1 later) (KeyGenSetup g c' t'))
    as [r h2] eqn:H2; simpl.
  apply key_gen_setup_inv in H2 as [->|(s2 & s3 & sec' & Hs & _ & ->)]; [right; left|].
  assert (keygen_row g (account h) text (stored (perform_effects h1 later))) as Hkept.
  { apply perform_effects_preserves; [|done].
    intros w1 e He. apply try_keygen_row. intros groups ->. eauto. }
  rewrite perform_effects_account, Ha1 in Hs.
  eapply store_keygen_secrets_row in Hs; [|exact Hkept].
  assert (sec' = sec) as -> by congruence. left.
Qed.

(** A reconciliation that meets no failure retains exactly: the key
    generation secrets of the groups without a key share, the nonces of all the
    groups, and one stream for each group with a key share, an existing stream
    going on as it was. *)
Theorem reconciliation_exact me es w groups :
  let h := perform_effects (Handler_new me SecretStore_new) es in
  let h' := (perform_effect w h (ReconcileGroupSecrets groups)).2 in
  answers w = None → (∀ g, spawns w g = true) →
  (∀ g a, keygen_secrets (stored h') !! (g, a) =
     match groups !! g with Some None => keygen_secrets (stored h) !! (g, a) | _ => None end) ∧
  (∀ root, nonces_chunks (stored h') !! root =
     row ← nonces_chunks (stored h) !! root;
     if decide (is_Some (groups !! row.1)) then Some row else None) ∧
  (∀ root offs, nonces_table (stored h') !! (root, offs) =
     match nonces_chunks (stored h') !! root with
     | Some _ => nonces_table (stored h) !! (root, offs)
     | None => None
     end) ∧
  (∀ g, nonce_generator h' !! g =
     match groups !! g with
     | Some (Some k) => Some (default k (nonce_generator h !! g))
     | _ => None
     end).
Proof.
  intros h h' Ha Hw.
  assert (foreign_keys (stored (with_answers w h))) as Hfk.
  { apply (perform_foreign_keys es (Handler_new me SecretStore_new)). by intros ?? [??]. }
  destruct (retain_answered (secrets (with_answers w h))
    ((split_groups groups).1 ++ btree_keys (split_groups groups).2) Ha)
    as (t & Ht & Hk1 & Hc1 & Hn1).
  destruct (reconcile_answered w h groups t Ha Hw Ht) as (h3 & Hh3 & Hs & Hg).
  subst h'. rewrite Hh3; cbn [snd]. rewrite Hs. revert Hc1 Hg. clear Ht Hh3 Hs.
  pose proof (split_groups_keygen groups) as Hkeygen.
  pose proof (split_groups_nonces groups) as Hnonces.
  pose proof (split_groups_all groups) as Hall.
  destruct (split_groups groups) as [keygen nonces]; cbn [fst snd] in *. intros Hc1 Hg.
  cbn [keygen_secrets nonces_chunks nonces_table set_keygen_secrets]. split_and!.
  - intros g a. rewrite retained_keygen_secrets, Hk1. cbn.
    case_decide as Hd; [by rewrite (proj1 (Hkeygen g) Hd)|].
    destruct (groups !! g) as [[k|]|] eqn:E; try done. by destruct Hd; apply Hkeygen.
  - intros root. rewrite Hc1, retained_chunks. unfold stored. cbn.
    destruct (nonces_chunks _ !! root) as [row|]; [|done]. cbn.
    specialize (Hall row.1). repeat case_decide; tauto.
  - intros root offs. exact (Hn1 Hfk root offs).
  - intros g. rewrite Hg. destruct (nonces !! g) as [k|] eqn:Hk.
    + apply Hnonces in Hk as Hk'. by rewrite Hk'.
    + destruct (groups !! g) as [[k|]|] eqn:Hgr; [|done..].
      apply Hnonces in Hgr. congruence.
Qed.

(** Each nonce of a chunk the handler registered can be revealed, as
    often as needed, and used, once: it is the nonce that was generated at that
    position of the tree. *)
Theorem registered_nonces_usable w h g chunk root h1 i n w' sid m :
  json_roundtrip SJ →
  streamed w g = Ok (Some chunk) →
  perform_effect w h (NonceTree g) = (ResumeNonceTree g root, h1) →
  chunk_nonces chunk !! i = Some n → answers w' = None →
  let offs := N.of_nat i in
  root = chunk_commitment chunk ∧
  perform_effect w' h1 (RevealNonceCommitments sid m root offs) =
    (NonceCommitments sid m (nonces_reveal n).1 (nonces_reveal n).2, with_answers w' h1) ∧
  (perform_effect w' h1 (UseNonce m root offs)).1 = Nonce m n ∧
  (perform_effect w' (perform_effect w' h1 (UseNonce m root offs)).2
     (UseNonce m root offs)).1 = Noop.
Proof.
  intros J Hc H Hi Ha; cbn zeta.
  unfold perform_effect in H; cbn [try_perform_effect] in H.
  unfold io_bind, generator_next in H.
  destruct (nonce_generator _ !! g); [|done]. rewrite Hc in H; cbn [rmap_err] in H.
  unfold on_store in H.
  destruct (register_nonces_chunk _ _ _ _) as [[root'|e] s1] eqn:Hreg; simplify_eq/=.
  apply register_Ok in Hreg as (-> & _ & _ & Hrows).
  destruct (Hrows i n Hi) as [Hle (text & Ht & Hrow)]. split; [done|].
  match goal with |- context [with_answers w' ?h] => set (h1 := h) end.
  assert (nonce_row (chunk_commitment chunk) (N.of_nat i) text (tables (secrets (with_answers w' h1)))) as Hrow'.
  { exact Hrow. }
  assert (answering (secrets (with_answers w' h1)) = None) as Ha' by exact Ha.
  split_and!.
  - unfold perform_effect; cbn [try_perform_effect]. unfold io_bind, on_store.
    rewrite (reveal_row J _ _ _ _ _ Hle Ht Hrow' Ha').
    unfold with_answers. by rewrite Ha.
  - unfold perform_effect; cbn [try_perform_effect]. unfold io_bind, on_store.
    by rewrite (take_row J _ _ _ _ _ Hle Ht Hrow' Ha').
  - apply use_nonce_absent.
    unfold perform_effect; cbn [try_perform_effect]. unfold io_bind, on_store.
    rewrite (take_row J _ _ _ _ _ Hle Ht Hrow' Ha'). cbn. apply lookup_delete_eq.
Qed.

End effects.
