(* ===== verification/StateMachine.v ===== *)
(** * The reorg-aware state machine: [core/state/mod.rs], [core/state/storage.rs]

    The snapshot store and the state machine over any service state with its
    transition, and the history of messages the live state is the result of. *)

From S2P Require Import Prelude.
From S2P Require Import Bytes.
From S2P Require Import Database.
From S2P Require Import Core.

(** [serde_json] on the service state. *)
Class StateJson (S : Type) := {
  StateText : Type;
  state_to_string : S → option StateText;
  state_from_str : StateText → option S;
}.
Arguments StateText S {_}.

Definition state_roundtrip {S} (J : StateJson S) : Prop :=
  ∀ s t, state_to_string s = Some t → state_from_str t = Some s.

(** [storage::Error]. *)
Inductive StorageError :=
  | StorageDatabase
  | StorageSerialization
  | BlockNumberOverflow
  | MissingSnapshot (block : N).

(** [state::Error]. *)
Inductive StateError :=
  | Storage (error : StorageError)
  | EndOfChain
  | BadUpdate
  | Poisoned.

(** ** The snapshot store *)

Section snapshots.
Context {S : Type} {SJ : StateJson S}.
Open Scope safenet_scope.

(** The [snapshots] table: the state's text by block number. *)
Definition SnapshotStore : Type := Db (gmap N (StateText S)).

Abbreviation snapshot A := (io SnapshotStore A StorageError).
Abbreviation statement := (statement StorageDatabase).
Abbreviation transaction := (transaction StorageDatabase).
Abbreviation block_try_from x := (io_lift (i64_try_from BlockNumberOverflow x)).
Abbreviation parse_state text := (io_lift (ok_or StorageSerialization (state_from_str text))).

Definition current : snapshot (option (N * S)) :=
  row ←! statement (λ rows, (Ok (btree_last rows), rows));
  match row with
  | None => io_ret None
  | Some (block_number, text) =>
      state ←! parse_state text;
      io_ret (Some (block_number, state))
  end.

(** [SnapshotStore::status]: the blocks of the last and the first snapshot. *)
Definition rows_status {A} (rows : gmap N A) : option BlockStatus :=
  first ← head (btree_iter rows);
  last ← btree_last rows;
  Some {| status_latest := last.1; status_safe := first.1 |}.

Definition snapshots_status : snapshot (option BlockStatus) :=
  statement (λ rows, (Ok (rows_status rows), rows)).

Definition commit (block_number : N) (state : S) : snapshot () :=
  text ←! io_lift (ok_or StorageSerialization (state_to_string state));
  block_number ←! block_try_from block_number;
  statement (λ rows, (Ok (), <[block_number := text]> rows)).

Definition reorg (uncle : N) : snapshot (N * S) :=
  parent ←! io_lift (ok_or BlockNumberOverflow (checked_sub uncle 1));
  transaction
    (uncle ←! block_try_from uncle;
     _ ←! statement (λ rows, (Ok (), filter (λ row, ¬ uncle ≤ row.1) rows));
     number ←! block_try_from parent;
     row ←! statement (λ rows, (Ok (rows !! number), rows));
     text ←! io_lift (ok_or (MissingSnapshot parent) row);
     state ←! parse_state text;
     io_ret (parent, state)).

(** [SnapshotStore::prune]. *)
Definition prune_snapshots (safe_block : N) : snapshot () :=
  safe_block ←! block_try_from safe_block;
  statement (λ rows,
    let max := from_option fst 0 (btree_last rows) in
    (Ok (), filter (λ row, ¬ (row.1 < safe_block ∧ row.1 < max)) rows)).
Lemma snapshots_status_inv st r st' :
  snapshots_status st = (r, st') →
  tables st' = tables st ∧ ∀ indexed, r = Ok indexed → indexed = rows_status (tables st).
Proof. intros [[-> ->]|[= <- <-]]%statement_inv; naive_solver. Qed.
End snapshots.
Arguments SnapshotStore S {_}.

(** ** The state machine *)

Inductive Status :=
  | Initialized
  | BlockPending (pending : N)
  | BlockEvents (latest : N)
  | WarpEvents (range : BlockRange).

Definition next_block (number : N) : result N StateError :=
  ok_or EndOfChain (checked_add number 1).

Definition block_range (from to : N) : result BlockRange StateError :=
  if decide (from ≤ to) then Ok (mkRange from to) else Err BadUpdate.

Definition range_contains (range : BlockRange) (x : N) : bool :=
  bool_decide (range_start range ≤ x ∧ x ≤ range_last range).

Definition is_next_in_range (range sub : BlockRange) : bool :=
  bool_decide (range_start range = range_start sub) && range_contains range (range_last sub).

(** [(a.block, a.index) < (b.block, b.index)]. *)
Definition log_before {E} (a b : EventLog E) : bool :=
  bool_decide (log_block a < log_block b ∨
    (log_block a = log_block b ∧ log_index a < log_index b)).

(** [is_sorted_by]. *)
Fixpoint is_sorted_by {A} (lt : A → A → bool) (l : list A) : bool :=
  match l with
  | a :: (b :: _) as l => lt a b && is_sorted_by lt l
  | _ => true
  end.

Section machine.
Context {S Event Action Effect Resume : Type} {SJ : StateJson S}.
Context (apply_transition : S → Message Event Resume → S * list (Command Action Effect)).
Open Scope safenet_scope.

Record StateMachine := {
  inner : option (S * Status);
  snapshots : SnapshotStore S;
}.

Abbreviation Commands := (list (Command Action Effect)).

Definition storage {A} (m : io (SnapshotStore S) A StorageError)
    : io (SnapshotStore S) A StateError :=
  io_map_err Storage m.

(** [StateMachine::with_init], over the database of an earlier process. *)
Definition with_init (init : S) (store : SnapshotStore S)
    : result StateMachine StateError :=
  let '(r, store) := storage current store in
  current ←? r;
  inner ←? match current with
           | Some (latest, state) =>
               pending ←? ok_or EndOfChain (checked_add latest 1);
               Ok (state, BlockPending pending)
           | None => Ok (init, Initialized)
           end;
  Ok {| inner := Some inner; snapshots := store |}.

(** The events of an update, in order. *)
Definition apply_logs (state : S) (logs : list (EventLog Event)) : S * Commands :=
  foldl (λ '(state, commands) log,
    let '(state, new_commands) := apply_transition state (MEvent log) in
    (state, commands ++ new_commands)) (state, []) logs.

(** [handle_update], after the state was taken out of the lock. *)
Definition apply_update (state : S) (status : Status) (update : Update Event)
    : io (SnapshotStore S) (S * Status * Commands) StateError :=
  match update, status with
  | UBlock (Warp from to), Initialized =>
      range ←! io_lift (block_range from to);
      io_ret (state, WarpEvents range, [])
  | UBlock (Warp from to), BlockPending pending =>
      if decide (pending = from) then
        range ←! io_lift (block_range from to);
        io_ret (state, WarpEvents range, [])
      else io_fail BadUpdate
  | UBlock (Uncle number), (BlockPending _ | BlockEvents _) =>
      let accepted :=
        match status with
        | BlockPending pending => bool_decide (number < pending)
        | BlockEvents latest => bool_decide (number ≤ latest)
        | _ => false
        end in
      if accepted then
        '(_, state) ←! storage (reorg number);
        io_ret (state, BlockPending number, [])
      else io_fail BadUpdate
  | UBlock (New number _ _), (Initialized | BlockPending _) =>
      let accepted :=
        match status with
        | BlockPending pending => bool_decide (pending = number)
        | _ => true
        end in
      if accepted then
        let '(state, commands) := apply_transition state (NewBlock number) in
        io_ret (state, BlockEvents number, commands)
      else io_fail BadUpdate
  | ULogs {| update_blocks := blocks; update_logs := logs |}, (BlockEvents _ | WarpEvents _) =>
      let accepted :=
        match status with
        | BlockEvents latest => is_next_in_range (mkRange latest latest) blocks
        | WarpEvents range => is_next_in_range range blocks
        | _ => false
        end in
      if accepted then
        if negb (is_sorted_by log_before logs) ||
           existsb (λ log, negb (range_contains blocks (log_block log))) logs
        then io_fail BadUpdate
        else
          let '(state, commands) := apply_logs state logs in
          status ←! io_lift
            (let last := range_last blocks in
             match status with
             | WarpEvents range =>
                 if decide (last < range_last range) then
                   next ←? next_block last;
                   range ←? block_range next (range_last range);
                   Ok (WarpEvents range)
                 else pending ←? next_block last; Ok (BlockPending pending)
             | _ => pending ←? next_block last; Ok (BlockPending pending)
             end);
          _ ←! storage (commit (range_last blocks) state);
          io_ret (state, status, commands)
      else io_fail BadUpdate
  | _, _ => io_fail BadUpdate
  end.

Definition handle_update (update : Update Event) : io StateMachine Commands StateError := λ m,
  match inner m with
  | None => (Err Poisoned, {| inner := None; snapshots := snapshots m |})
  | Some (state, status) =>
      match apply_update state status update (snapshots m) with
      | (Ok (state, status, commands), store) =>
          (Ok commands, {| inner := Some (state, status); snapshots := store |})
      | (Err e, store) => (Err e, {| inner := None; snapshots := store |})
      end
  end.

Definition handle_resume (resume : Resume) : io StateMachine Commands StateError := λ m,
  match inner m with
  | None => (Err Poisoned, {| inner := None; snapshots := snapshots m |})
  | Some (state, status) =>
      let '(state, commands) := apply_transition state (MResume resume) in
      (Ok commands, {| inner := Some (state, status); snapshots := snapshots m |})
  end.

(** [StateMachine::prune]. *)
Definition machine_prune (safe : N) : io StateMachine () StateError := λ m,
  let '(r, store) := storage (prune_snapshots safe) (snapshots m) in
  (r, {| inner := inner m; snapshots := store |}).

(** ** The history of messages *)

(** What has been applied: the committed messages by the last block of their
    update, and those since the last commit. *)
Record History := {
  committed : list (N * list (Message Event Resume));
  uncommitted : list (Message Event Resume);
}.

Definition History_new : History := {| committed := []; uncommitted := [] |}.

(** The messages an update stands for; an uncled block takes its messages, and
    all the later ones, out of the history. *)
Definition history_update (h : History) (update : Update Event) : History :=
  match update with
  | UBlock (Warp _ _) => h
  | UBlock (Uncle number) =>
      {| committed := filter (λ c, c.1 < number) (committed h); uncommitted := [] |}
  | UBlock (New number _ _) =>
      {| committed := committed h; uncommitted := uncommitted h ++ [NewBlock number] |}
  | ULogs u =>
      {| committed := committed h ++
           [(range_last (update_blocks u), uncommitted h ++ (MEvent <$> update_logs u))];
         uncommitted := [] |}
  end.

Definition committed_messages (cs : list (N * list (Message Event Resume)))
    : list (Message Event Resume) := concat cs.*2.
Definition messages (h : History) : list (Message Event Resume) :=
  committed_messages (committed h) ++ uncommitted h.

(** The state a list of messages leads to. *)
Definition replay (init : S) (ms : list (Message Event Resume)) : S :=
  foldl (λ s m, (apply_transition s m).1) init ms.

(** What may happen to the machine: the database gives answers to an operation
    or fails in it, and the process may be restarted at any point. *)
Inductive Operation :=
  | OpUpdate (update : Update Event)
  | OpResume (resume : Resume)
  | OpPrune (safe : N)
  | OpRestart.

Definition with_answers (answers : option nat) (m : StateMachine) : StateMachine :=
  {| inner := inner m; snapshots := mkDb (tables (snapshots m)) answers |}.

(** One operation, with the history it leads to. A failed operation adds
    nothing to the history; a restart loses what was not committed. *)
Definition operate (init : S) (s : StateMachine * History)
    (op : option nat * Operation) : StateMachine * History :=
  let '(m, h) := s in
  let m := with_answers op.1 m in
  match op.2 with
  | OpUpdate update =>
      match handle_update update m with
      | (Ok _, m) => (m, history_update h update)
      | (Err _, m) => (m, h)
      end
  | OpResume resume =>
      match handle_resume resume m with
      | (Ok _, m) =>
          (m, {| committed := committed h; uncommitted := uncommitted h ++ [MResume resume] |})
      | (Err _, m) => (m, h)
      end
  | OpPrune safe => ((machine_prune safe m).2, h)
  | OpRestart =>
      let h := {| committed := committed h; uncommitted := [] |} in
      match with_init init (snapshots m) with
      | Ok m => (m, h)
      | Err _ => ({| inner := None; snapshots := snapshots m |}, h)
      end
  end.

Definition StateMachine_new (init : S) : StateMachine :=
  {| inner := Some (init, Initialized); snapshots := mkDb ∅ None |}.

Definition operations (init : S) (ops : list (option nat * Operation))
    : StateMachine * History :=
  foldl (operate init) (StateMachine_new init, History_new) ops.
(** ** Positions in the chain *)

(** The place of a message: a block comes before its events. *)
Definition position (m : Message Event Resume) : option (N * N) :=
  match m with
  | NewBlock n => Some (n, 0)
  | MEvent log => Some (log_block log, log_index log + 1)
  | MResume _ => None
  end.
Definition positions (ms : list (Message Event Resume)) : list (N * N) := omap position ms.

Definition pos_lt (p q : N * N) : Prop := p.1 < q.1 ∨ (p.1 = q.1 ∧ p.2 < q.2).

#[local] Instance pos_lt_trans : Transitive pos_lt.
Proof. intros p q r. unfold pos_lt. lia. Qed.

Lemma positions_app ms ms' : positions (ms ++ ms') = positions ms ++ positions ms'.
Proof. apply omap_app. Qed.

Lemma elem_of_positions ms p :
  p ∈ positions ms ↔ ∃ m, m ∈ ms ∧ position m = Some p.
Proof. apply list_elem_of_omap. Qed.

Lemma sorted_logs (logs : list (EventLog Event)) :
  is_sorted_by log_before logs = true → StronglySorted pos_lt (positions (MEvent <$> logs)).
Proof.
  intros H. apply Sorted_StronglySorted; [apply _|].
  induction logs as [|a logs IH]; [constructor|].
  destruct logs as [|b logs]; [by repeat constructor|]. simpl in H.
  apply andb_true_iff in H as [Hab H]. specialize (IH H).
  change (Sorted pos_lt ((log_block a, log_index a + 1) :: positions (MEvent <$> b :: logs))).
  constructor; [done|]. simpl. constructor. unfold pos_lt; simpl.
  apply bool_decide_eq_true in Hab. lia.
Qed.

Lemma log_positions blocks (logs : list (EventLog Event)) p :
  existsb (λ log, negb (range_contains blocks (log_block log))) logs = false →
  p ∈ positions (MEvent <$> logs) → range_start blocks ≤ p.1 ∧ p.1 ≤ range_last blocks ∧ 0 < p.2.
Proof.
  intros Hall (m & (log & -> & Hin)%list_elem_of_fmap & Hp)%elem_of_positions.
  simplify_eq/=. rewrite <-not_true_iff_false, existsb_exists in Hall.
  destruct (range_contains blocks (log_block log)) eqn:E.
  - apply bool_decide_eq_true in E. lia.
  - exfalso. apply Hall. exists log. rewrite E. split; [|done].
    by apply list_elem_of_In.
Qed.

Lemma apply_logs_replay state logs :
  (apply_logs state logs).1 = replay state (MEvent <$> logs).
Proof.
  unfold apply_logs, replay. generalize (@nil (Command Action Effect)) as cs.
  revert state. induction logs as [|log logs IH]; intros state cs; simpl; [done|].
  destruct (apply_transition state (MEvent log)) as [s' cs']. apply IH.
Qed.

Lemma replay_app state ms ms' : replay state (ms ++ ms') = replay (replay state ms) ms'.
Proof. apply foldl_app. Qed.

Lemma committed_messages_app cs cs' :
  committed_messages (cs ++ cs') = committed_messages cs ++ committed_messages cs'.
Proof. unfold committed_messages. by rewrite fmap_app, concat_app. Qed.

Lemma elem_of_committed_messages cs m :
  m ∈ committed_messages cs ↔ ∃ c, c ∈ cs ∧ m ∈ c.2.
Proof.
  unfold committed_messages. induction cs as [|c cs IH]; simpl.
  - split; [intros H|intros (c & H & _)]; by apply elem_of_nil in H.
  - rewrite elem_of_app, IH. split.
    + intros [H|(c' & ? & ?)]; [exists c|exists c']; set_solver.
    + intros (c' & [->|Hc]%elem_of_cons & Hm); eauto.
Qed.

(** ** The invariant *)

Context (init : S).

Definition status_ok (h : History) (status : Status) : Prop :=
  match status with
  | Initialized => positions (uncommitted h) = [] ∧ committed h = []
  | BlockPending p => positions (uncommitted h) = [] ∧ ∀ c, c ∈ committed h → c.1 < p
  | BlockEvents l =>
      positions (uncommitted h) = [(l, 0)] ∧ ∀ c, c ∈ committed h → c.1 < l
  | WarpEvents r =>
      positions (uncommitted h) = [] ∧ ∀ c, c ∈ committed h → c.1 < range_start r
  end.

(** The history alone: its updates ascend, and so do its messages. *)
Record history_ok (h : History) : Prop := {
  ok_blocks : StronglySorted N.lt (committed h).*1;
  ok_within : ∀ c m p, c ∈ committed h → m ∈ c.2 → position m = Some p → p.1 ≤ c.1;
  ok_positions : StronglySorted pos_lt (positions (messages h));
}.

Record rows_ok (h : History) (rows : gmap N (StateText S)) : Prop := {
  ok_row : ∀ b text, rows !! b = Some text → ∃ c1 ms c2,
    committed h = c1 ++ (b, ms) :: c2 ∧
    state_from_str text = Some (replay init (committed_messages (c1 ++ [(b, ms)])));
  ok_last_row : ∀ c, last (committed h) = Some c → is_Some (rows !! c.1);
}.

Record machine_ok (s : StateMachine * History) : Prop := {
  ok_history : history_ok s.2;
  ok_rows : rows_ok s.2 (tables (snapshots s.1));
  ok_live : ∀ state status, inner s.1 = Some (state, status) →
    state = replay init (messages s.2) ∧ status_ok s.2 status;
}.

(** ** The snapshot operations and the history *)

Lemma sorted_fst_middle (c1 c2 : list (N * list (Message Event Resume))) b ms :
  StronglySorted N.lt (c1 ++ (b, ms) :: c2).*1 →
  (∀ c, c ∈ c1 → c.1 < b) ∧ (∀ c, c ∈ c2 → b < c.1).
Proof.
  rewrite fmap_app. simpl. rewrite StronglySorted_app. intros (Hlt & _ & Hs).
  apply StronglySorted_inv in Hs as [_ Hall]. split.
  - intros c Hc. apply Hlt; [|left]. apply list_elem_of_fmap. by exists c.
  - intros c Hc. rewrite Forall_forall in Hall. apply Hall.
    apply list_elem_of_fmap. by exists c.
Qed.

(** The history up to before [n], when [n - 1] ends an update. *)
Lemma filter_before (c1 c2 : list (N * list (Message Event Resume))) b ms n :
  StronglySorted N.lt (c1 ++ (b, ms) :: c2).*1 → n = b + 1 →
  filter (λ c, c.1 < n) (c1 ++ (b, ms) :: c2) = c1 ++ [(b, ms)].
Proof.
  intros [H1 H2]%sorted_fst_middle ->.
  rewrite filter_app, filter_cons_True by (simpl; lia). f_equal.
  - apply list_filter_all. intros c Hc. specialize (H1 c Hc). lia.
  - f_equal. apply list_filter_none. intros c Hc. specialize (H2 c Hc). lia.
Qed.

(** The tip snapshot is the last committed update's. *)
Lemma tip_row h rows :
  history_ok h → rows_ok h rows →
  match btree_last rows with
  | None => committed h = []
  | Some (b, text) =>
      (∃ c, last (committed h) = Some c ∧ c.1 = b) ∧
      state_from_str text = Some (replay init (committed_messages (committed h)))
  end.
Proof.
  intros Hh [Hrow Hlast]. destruct (btree_last rows) as [[b text]|] eqn:E.
  - apply btree_last_Some in E as [Hb Hmax].
    destruct (Hrow _ _ Hb) as (c1 & ms & c2 & Hc & Hs).
    destruct (last (committed h)) as [c|] eqn:El.
    2: { apply last_None in El. rewrite El in Hc. by destruct c1. }
    assert (c.1 ≤ b) as Hle by (by apply Hmax, Hlast).
    pose proof (ok_blocks h Hh) as Hsorted. rewrite Hc in Hsorted.
    apply sorted_fst_middle in Hsorted as [_ H2].
    assert (c2 = []) as ->.
    { destruct c2 as [|c0 c2 _] using rev_ind; [done|].
      rewrite Hc, app_comm_cons, app_assoc, last_snoc in El. simplify_eq.
      specialize (H2 c ltac:(set_solver)). lia. }
    rewrite Hc, last_snoc in El. simplify_eq. rewrite Hc. split; [by eexists|done].
  - apply btree_last_None in E as ->.
    destruct (last (committed h)) as [c|] eqn:El; [|by apply last_None].
    destruct (Hlast _ eq_refl) as [text Ht]. by rewrite lookup_empty in Ht.
Qed.

(** ** The history of each operation *)

Lemma committed_position h p :
  history_ok h → p ∈ positions (committed_messages (committed h)) →
  ∃ c, c ∈ committed h ∧ p.1 ≤ c.1.
Proof.
  intros Hh (m & (c & Hc & Hm)%elem_of_committed_messages & Hp)%elem_of_positions.
  exists c. split; [done|]. by eapply ok_within.
Qed.

(** Going back to an earlier update. *)
Lemma history_prefix h c1 c2 :
  history_ok h → committed h = c1 ++ c2 →
  history_ok {| committed := c1; uncommitted := [] |}.
Proof.
  intros [Hb Hw Hp] Hc. rewrite Hc in Hb. split; simpl.
  - rewrite fmap_app in Hb. by eapply StronglySorted_app_1_l.
  - intros c m p Hin. apply Hw. rewrite Hc. apply elem_of_app. by left.
  - unfold messages in *. simpl. rewrite app_nil_r.
    rewrite Hc, committed_messages_app, <-app_assoc, positions_app in Hp.
    by eapply StronglySorted_app_1_l.
Qed.

Lemma history_append h ms :
  history_ok h → StronglySorted pos_lt (positions ms) →
  (∀ p q, p ∈ positions (messages h) → q ∈ positions ms → pos_lt p q) →
  history_ok {| committed := committed h; uncommitted := uncommitted h ++ ms |}.
Proof.
  intros [Hb Hw Hp] Hs Hlt. split; [done|done|]. unfold messages in *. simpl.
  rewrite app_assoc, positions_app. by apply StronglySorted_app_2.
Qed.

Lemma history_commit h b :
  history_ok h → (∀ c, c ∈ committed h → c.1 < b) →
  (∀ p, p ∈ positions (uncommitted h) → p.1 ≤ b) →
  history_ok {| committed := committed h ++ [(b, uncommitted h)]; uncommitted := [] |}.
Proof.
  intros [Hb Hw Hp] Hlt Hle. split; simpl.
  - rewrite fmap_app. simpl. apply StronglySorted_app_2; [|done|repeat constructor].
    intros x y (c & -> & Hc)%list_elem_of_fmap ->%list_elem_of_singleton. by apply Hlt.
  - intros c m p [Hc| ->%list_elem_of_singleton]%elem_of_app Hm Hpos; [by eapply Hw|].
    apply Hle, elem_of_positions. by exists m.
  - unfold messages in *. simpl.
    rewrite committed_messages_app. unfold committed_messages at 2. simpl.
    by rewrite !app_nil_r.
Qed.

Lemma history_new_block h n :
  history_ok h → positions (uncommitted h) = [] → (∀ c, c ∈ committed h → c.1 < n) →
  history_ok {| committed := committed h; uncommitted := uncommitted h ++ [NewBlock n] |}.
Proof.
  intros Hh Hu Hlt. apply history_append; [done|repeat constructor|].
  intros p q Hp ->%list_elem_of_singleton.
  unfold messages in Hp. rewrite positions_app, Hu, app_nil_r in Hp.
  apply committed_position in Hp as (c & Hc & Hle); [|done].
  left. simpl. specialize (Hlt c Hc). lia.
Qed.

Lemma history_logs h blocks (logs : list (EventLog Event)) :
  history_ok h → is_sorted_by log_before logs = true →
  existsb (λ log, negb (range_contains blocks (log_block log))) logs = false →
  range_start blocks ≤ range_last blocks →
  (∀ c, c ∈ committed h → c.1 < range_start blocks) →
  (∀ p, p ∈ positions (uncommitted h) → p = (range_start blocks, 0)) →
  history_ok {| committed := committed h ++
                  [(range_last blocks, uncommitted h ++ (MEvent <$> logs))];
                uncommitted := [] |}.
Proof.
  intros Hh Hs Hin Hrange Hc Hu.
  apply (history_commit
    {| committed := committed h; uncommitted := uncommitted h ++ (MEvent <$> logs) |}).
  - apply history_append; [done|by apply sorted_logs|].
    intros p q Hp Hq. pose proof (log_positions _ _ _ Hin Hq) as (? & ? & ?).
    unfold messages in Hp. rewrite positions_app in Hp. apply elem_of_app in Hp as [Hp|Hp].
    + apply committed_position in Hp as (c & Hc' & Hle); [|done].
      left. specialize (Hc c Hc'). lia.
    + rewrite (Hu p Hp). unfold pos_lt. simpl. lia.
  - simpl. intros c Hc'. specialize (Hc c Hc'). lia.
  - simpl. intros p Hp. rewrite positions_app in Hp. apply elem_of_app in Hp as [Hp|Hp].
    + by rewrite (Hu p Hp).
    + by pose proof (log_positions _ _ _ Hin Hp) as (? & ? & ?).
Qed.

(** ** The snapshots of each operation *)

Lemma rows_commit h rows b text ms :
  rows_ok h rows → (∀ c, c ∈ committed h → c.1 < b) →
  state_from_str text =
    Some (replay init (committed_messages (committed h ++ [(b, ms)]))) →
  rows_ok {| committed := committed h ++ [(b, ms)]; uncommitted := [] |}
    (<[b := text]> rows).
Proof.
  intros [Hrow Hlast] Hlt Ht. split; simpl.
  - intros b' text' [[<- <-]|[Hne Hb]]%lookup_insert_Some.
    + exists (committed h), ms, []. done.
    + destruct (Hrow _ _ Hb) as (c1 & ms' & c2 & Hc & Hs).
      exists c1, ms', (c2 ++ [(b, ms)]). split; [|done]. by rewrite Hc, <-app_assoc.
  - intros c. rewrite last_snoc. intros [= <-]. simpl. by rewrite lookup_insert_eq.
Qed.

Lemma rows_uncle h rows b text n :
  history_ok h → rows_ok h rows → n = b + 1 → rows !! b = Some text →
  let cs := filter (λ c, c.1 < n) (committed h) in
  rows_ok {| committed := cs; uncommitted := [] |}
    (filter (λ row : N * StateText S, ¬ n ≤ row.1) rows) ∧
  state_from_str text = Some (replay init (committed_messages cs)) ∧
  ∃ c2, committed h = cs ++ c2.
Proof.
  intros Hh [Hrow Hlast] Hn Hb.
  destruct (Hrow _ _ Hb) as (c1 & ms & c2 & Hc & Hs).
  pose proof (ok_blocks h Hh) as Hsorted. rewrite Hc in Hsorted.
  cbn zeta. rewrite Hc, (filter_before c1 c2 b ms n) by done. split_and!; [|done|].
  - split; simpl.
    + intros b' text' [Hb' Hlt]%map_lookup_filter_Some. simpl in Hlt.
      destruct (Hrow _ _ Hb') as (c1' & ms' & c2' & Hc' & Hs').
      assert ((b', ms') ∈ c1 ++ [(b, ms)]) as Hin.
      { rewrite <-(filter_before c1 c2 b ms n), <-Hc by done.
        apply list_elem_of_filter. simpl. split; [lia|]. rewrite Hc'. set_solver. }
      apply list_elem_of_split in Hin as (d1 & d2 & Hd).
      exists d1, ms', d2. split; [done|]. rewrite Hs'.
      assert (d1 ++ (b', ms') :: (d2 ++ c2) = c1' ++ (b', ms') :: c2') as Heq.
      { rewrite <-Hc', Hc, app_comm_cons, app_assoc, <-Hd, <-app_assoc. done. }
      pose proof (ok_blocks h Hh) as Hs1. rewrite Hc' in Hs1.
      do 3 f_equal. rewrite <-(filter_before c1' c2' b' ms' (b' + 1)) by done.
      rewrite <-Heq in Hs1 |- *. by apply filter_before.
    + intros c. rewrite last_snoc. intros [= <-]. exists text.
      apply map_lookup_filter_Some. simpl. split; [done|lia].
  - exists c2. by rewrite <-app_assoc.
Qed.

(** ** The storage operations *)

Lemma commit_inv b s st r st' :
  commit b s st = (r, st') →
  (r = Ok () ∧ ∃ text, state_to_string s = Some text ∧
     tables st' = <[b := text]> (tables st)) ∨
  ((∃ e, r = Err e) ∧ tables st' = tables st).
Proof.
  unfold commit, io_bind, io_lift. destruct (state_to_string s) as [text|]; simpl.
  2: { intros [= <- <-]. right. eauto. }
  destruct (i64_try_from _ b) as [b'|e] eqn:Hb; simpl.
  2: { intros [= <- <-]. right. eauto. }
  apply i64_try_from_Ok in Hb as [-> _].
  intros [[-> ->]|[= <- <-]]%statement_inv; [right|left]; eauto.
Qed.

Lemma prune_inv n st r st' :
  prune_snapshots n st = (r, st') →
  tables st' = tables st ∨
  tables st' = filter (λ row : N * StateText S, ¬ (row.1 < n ∧
    row.1 < from_option fst 0 (btree_last (tables st)))) (tables st).
Proof.
  unfold prune_snapshots, io_bind, io_lift.
  destruct (i64_try_from _ n) as [n'|e] eqn:Hn; simpl; [|intros [= <- <-]; by left].
  apply i64_try_from_Ok in Hn as [-> _].
  intros [[-> ->]|[= <- <-]]%statement_inv; [by left|by right].
Qed.

Lemma current_inv st r st' :
  current st = (r, st') →
  tables st' = tables st ∧
  match r with
  | Ok None => btree_last (tables st) = None
  | Ok (Some (b, s)) => ∃ text, btree_last (tables st) = Some (b, text) ∧
      state_from_str text = Some s
  | Err _ => True
  end.
Proof.
  unfold current, io_bind, io_lift.
  destruct (statement _ _ st) as [[row|e] st1] eqn:H; simpl.
  2: { intros [= <- <-]. by apply statement_inv in H as [[_ ->]|[=]]. }
  apply statement_inv in H as [[??]|[= Hrow Ht]]; [done|].
  destruct row as [[b text]|]; simpl.
  2: { intros [= <- <-]. rewrite Hrow. by split. }
  destruct (state_from_str text) as [s|] eqn:Hs; simpl; intros [= <- <-];
    (split; [done|]); [|done]. exists text. by rewrite Hrow.
Qed.

Lemma reorg_inv n st r st' :
  reorg n st = (r, st') →
  (∃ b text s, r = Ok (b, s) ∧ n = b + 1 ∧ tables st !! b = Some text ∧
     state_from_str text = Some s ∧
     tables st' = filter (λ row : N * StateText S, ¬ n ≤ row.1) (tables st)) ∨
  ((∃ e, r = Err e) ∧ tables st' = tables st).
Proof.
  unfold reorg. unfold io_bind at 1, io_lift at 1, checked_sub.
  case_decide as Hn; simpl; [|intros [= <- <-]; right; eauto].
  destruct (transaction _ _ st) as [[[b s]|e] st1] eqn:H; intros [= <- <-];
    [left|right; split; [eauto|by eapply transaction_Err]].
  apply transaction_Ok in H as (s1 & s2 & Hs1 & H & ->).
  apply io_bind_Ok in H as (n' & s3 & Hn' & H). unfold io_lift in Hn'.
  injection Hn' as Hn' <-. apply i64_try_from_Ok in Hn' as [-> _].
  apply io_bind_Ok in H as ([] & s4 & [[??]|[= Ht4]]%statement_inv & H2); [done|].
  apply io_bind_Ok in H2 as (p & s5 & Hp & H). unfold io_lift in Hp.
  injection Hp as Hp <-. apply i64_try_from_Ok in Hp as [-> _].
  apply io_bind_Ok in H as (row & s6 & [[??]|[= Hrow Ht6]]%statement_inv & H2); [done|].
  apply io_bind_Ok in H2 as (text & s7 & Htext & H). unfold io_lift in Htext.
  destruct row as [text'|]; simplify_eq/=.
  apply io_bind_Ok in H as (s' & s8 & Hs' & H). unfold io_lift in Hs'.
  destruct (state_from_str text) as [s0|] eqn:Hs0; simplify_eq/=.
  unfold io_ret in H. simplify_eq.
  exists (n - 1), text, s. rewrite <-Ht6, <-Ht4, Hs1. split_and!; [done|lia| |done|done].
  rewrite <-Ht4, Hs1 in Hrow. by apply map_lookup_filter_Some in Hrow as [? _].
Qed.

Lemma rows_prune h rows n :
  history_ok h → rows_ok h rows →
  rows_ok h (filter (λ row : N * StateText S, ¬ (row.1 < n ∧
    row.1 < from_option fst 0 (btree_last rows))) rows).
Proof.
  intros Hh Hr. pose proof (tip_row h rows Hh Hr) as Htip. destruct Hr as [Hrow Hlast].
  split.
  - intros b text [Hb _]%map_lookup_filter_Some. by apply Hrow.
  - intros c Hc. destruct (Hlast c Hc) as [text Ht]. exists text.
    apply map_lookup_filter_Some. split; [done|]. simpl.
    destruct (btree_last rows) as [[b text']|].
    + destruct Htip as [(c' & Hc' & <-) _]. simplify_eq. simpl. lia.
    + by rewrite Htip in Hc.
Qed.

Lemma rows_uncommitted h rows us :
  rows_ok h rows → rows_ok {| committed := committed h; uncommitted := us |} rows.
Proof. by intros [? ?]. Qed.

(** ** Updates keep the invariant *)

Definition updated_ok (h : History) (store : SnapshotStore S)
    (result : result (S * Status * Commands) StateError * SnapshotStore S) : Prop :=
  match result with
  | (Ok (state, status, _), store') =>
      history_ok h ∧ rows_ok h (tables store') ∧
      state = replay init (messages h) ∧ status_ok h status
  | (Err _, store') => tables store' = tables store
  end.

Lemma fail_updated_ok h store e : updated_ok h store (io_fail e store).
Proof. done. Qed.

Lemma warp_ok h store state from to :
  history_ok h → rows_ok h (tables store) → state = replay init (messages h) →
  positions (uncommitted h) = [] → (∀ c, c ∈ committed h → c.1 < from) →
  updated_ok h store
    ((range ←! io_lift (block_range from to); io_ret (state, WarpEvents range, [])) store).
Proof.
  intros Hh Hr Hs Hu Hc. unfold block_range, io_bind, io_lift.
  by case_decide.
Qed.

Lemma uncle_ok h store number :
  history_ok h → rows_ok h (tables store) →
  updated_ok (history_update h (UBlock (Uncle number))) store
    (('(_, state) ←! storage (reorg number); io_ret (state, BlockPending number, [])) store).
Proof.
  intros Hh Hr. unfold io_bind, storage, io_map_err.
  destruct (reorg number store) as [r store'] eqn:H.
  apply reorg_inv in H as [(b & text & s & -> & -> & Hb & Ht & Hrows)|[[e ->] Hrows]]; [|done].
  destruct (rows_uncle h _ b text (b + 1) Hh Hr eq_refl Hb) as (Hr' & Hs & c2 & Hc).
  simpl. split_and!.
  - by eapply history_prefix.
  - by rewrite Hrows.
  - unfold messages; simpl. rewrite app_nil_r. congruence.
  - done.
  - simpl. intros c [Hlt _]%list_elem_of_filter. done.
Qed.

Lemma new_update_ok h store state number hash bloom :
  history_ok h → rows_ok h (tables store) → state = replay init (messages h) →
  positions (uncommitted h) = [] → (∀ c, c ∈ committed h → c.1 < number) →
  updated_ok (history_update h (UBlock (New number hash bloom))) store
    ((let '(state, commands) := apply_transition state (NewBlock number) in
      io_ret (state, BlockEvents number, commands)) store).
Proof.
  intros Hh Hr -> Hu Hc.
  destruct (apply_transition _ _) as [state' commands] eqn:H. simpl. split_and!.
  - by apply history_new_block.
  - by apply rows_uncommitted.
  - unfold messages; simpl. rewrite app_assoc, replay_app.
    unfold replay at 1; simpl. fold (messages h). by rewrite H.
  - by rewrite positions_app, Hu.
  - done.
Qed.

Lemma next_block_Ok n n' : next_block n = Ok n' → n' = n + 1.
Proof.
  unfold next_block. destruct (checked_add n 1) as [m|] eqn:E; intros; simplify_eq/=.
  by apply checked_add_Some in E as [-> _].
Qed.

(** The status after the logs of [blocks]. *)
Lemma next_status_ok h status (last : N) status' :
  committed h ≠ [] → uncommitted h = [] → (∀ c, c ∈ committed h → c.1 ≤ last) →
  match status with
  | WarpEvents range =>
      if decide (last < range_last range) then
        next ←? next_block last;
        range ←? block_range next (range_last range);
        Ok (WarpEvents range)
      else pending ←? next_block last; Ok (BlockPending pending)
  | _ => pending ←? next_block last; Ok (BlockPending pending)
  end = Ok status' → status_ok h status'.
Proof.
  intros Hne Hu Hc. destruct (next_block last) as [n|e] eqn:Hn; simpl.
  2: { destruct status; simpl; try done. by case_decide. }
  apply next_block_Ok in Hn as ->.
  assert (∀ c, c ∈ committed h → c.1 < last + 1) as Hlt.
  { intros c Hin. specialize (Hc c Hin). lia. }
  destruct status as [| | |range]; simpl; intros; simplify_eq; simpl; rewrite ?Hu; try done.
  case_decide; simplify_eq; simpl; rewrite ?Hu; [|done].
  unfold block_range in *. case_decide; simplify_eq/=. by rewrite Hu.
Qed.

Lemma logs_ok (J : state_roundtrip SJ) h store state status blocks logs :
  history_ok h → rows_ok h (tables store) → state = replay init (messages h) →
  range_start blocks ≤ range_last blocks →
  (∀ c, c ∈ committed h → c.1 < range_start blocks) →
  (∀ p, p ∈ positions (uncommitted h) → p = (range_start blocks, 0)) →
  let update := {| update_blocks := blocks; update_logs := logs |} in
  updated_ok (history_update h (ULogs update)) store
    ((if negb (is_sorted_by log_before logs) ||
         existsb (λ log, negb (range_contains blocks (log_block log))) logs
      then io_fail BadUpdate
      else
        let '(state, commands) := apply_logs state logs in
        status ←! io_lift
          (let last := range_last blocks in
           match status with
           | WarpEvents range =>
               if decide (last < range_last range) then
                 next ←? next_block last;
                 range ←? block_range next (range_last range);
                 Ok (WarpEvents range)
               else pending ←? next_block last; Ok (BlockPending pending)
           | _ => pending ←? next_block last; Ok (BlockPending pending)
           end);
        _ ←! storage (commit (range_last blocks) state);
        io_ret (state, status, commands)) store).
Proof.
  intros Hh Hr -> Hrange Hc Hu update.
  destruct (is_sorted_by log_before logs) eqn:Hsorted; simpl; [|done].
  destruct (existsb _ logs) eqn:Hin; [done|].
  pose proof (apply_logs_replay (replay init (messages h)) logs) as Hreplay.
  destruct (apply_logs _ logs) as [state' commands]. simpl in Hreplay.
  assert (history_ok (history_update h (ULogs update))) as Hh'.
  { by apply history_logs. }
  assert (state' = replay init (messages (history_update h (ULogs update)))) as Hs'.
  { rewrite Hreplay, <-replay_app. unfold messages; simpl.
    rewrite committed_messages_app. unfold committed_messages at 3; simpl.
    by rewrite !app_nil_r, app_assoc. }
  unfold io_bind at 1, io_lift.
  destruct (match status with WarpEvents _ => _ | _ => _ end) as [status'|e] eqn:Hst; [|done].
  unfold io_bind, storage, io_map_err.
  destruct (commit _ _ store) as [r store'] eqn:Hcommit.
  apply commit_inv in Hcommit as [(-> & text & Ht & Hrows)|[[e ->] Hrows]]; [|done].
  simpl. split_and!; [done| |done|].
  - rewrite Hrows. apply rows_commit; [done| |].
    + intros c Hc'. specialize (Hc c Hc'). lia.
    + rewrite (J _ _ Ht), Hs'. do 2 f_equal. unfold messages; simpl. by rewrite app_nil_r.
  - eapply (next_status_ok _ status (range_last blocks)); [by destruct (committed h)|done| |exact Hst].
    simpl. intros c [Hc'| ->%list_elem_of_singleton]%elem_of_app; [|done].
    specialize (Hc c Hc'). lia.
Qed.

Lemma next_in_range range sub :
  is_next_in_range range sub = true →
  range_start range = range_start sub ∧ range_start sub ≤ range_last sub ∧
  range_last sub ≤ range_last range.
Proof.
  intros [H1%bool_decide_eq_true H2%bool_decide_eq_true]%andb_true_iff. lia.
Qed.

Lemma apply_update_ok (J : state_roundtrip SJ) h store state status update :
  history_ok h → rows_ok h (tables store) → state = replay init (messages h) →
  status_ok h status →
  updated_ok (history_update h update) store (apply_update state status update store).
Proof.
  intros Hh Hr Hs Hst.
  destruct update as [[from to|number|number hash bloom]|[blocks logs]]; simpl.
  - destruct status as [|p| |]; simpl in Hst; try done.
    + apply warp_ok; try done; [naive_solver|].
      destruct Hst as [_ Hc]. intros c Hin. rewrite Hc in Hin. by apply elem_of_nil in Hin.
    + case_decide; [|done]. subst. apply warp_ok; naive_solver.
  - destruct status as [|p|l|]; try done; (case_bool_decide; [|done]); by apply uncle_ok.
  - destruct status as [|p| |]; simpl in Hst; try done.
    + apply (new_update_ok h store state number hash bloom); try done; [naive_solver|].
      destruct Hst as [_ Hc]. intros c Hin. rewrite Hc in Hin. by apply elem_of_nil in Hin.
    + case_bool_decide; [|done]. subst p.
      apply (new_update_ok h store state number hash bloom); naive_solver.
  - destruct status as [| |l|range]; simpl in Hst; try done.
    + destruct (is_next_in_range _ _) eqn:Hn; [|done].
      apply next_in_range in Hn as (Hn & ? & _). simpl in Hn. destruct Hst as [Hu Hc].
      apply (logs_ok J h store state (BlockEvents l)); try done.
      * intros c Hin. rewrite <-Hn. by apply Hc.
      * intros p Hp. rewrite Hu in Hp. apply list_elem_of_singleton in Hp. congruence.
    + destruct (is_next_in_range _ _) eqn:Hn; [|done].
      apply next_in_range in Hn as (Hn & ? & _). destruct Hst as [Hu Hc].
      apply (logs_ok J h store state (WarpEvents range)); try done.
      * intros c Hin. rewrite <-Hn. by apply Hc.
      * intros p Hp. rewrite Hu in Hp. by apply elem_of_nil in Hp.
Qed.

Lemma operate_ok (J : state_roundtrip SJ) s op :
  machine_ok s → machine_ok (operate init s op).
Proof.
  destruct s as [m h], op as [answers [update|resume|safe|]]; intros [Hh Hr Hl]; simpl in *.
  - unfold handle_update; simpl. destruct (inner m) as [[state status]|] eqn:Hi; [|by split].
    destruct (Hl _ _ eq_refl) as [Hs Hst].
    pose proof (apply_update_ok J h (mkDb (tables (snapshots m)) answers) state status update
      Hh Hr Hs Hst) as Hok.
    destruct (apply_update _ _ _ _) as [[[[state' status'] commands]|e] store]; simpl in *.
    + destruct Hok as (? & ? & ? & ?). split; simpl; try done. intros; by simplify_eq.
    + split; simpl; [done|by rewrite Hok|done].
  - unfold handle_resume; simpl. destruct (inner m) as [[state status]|] eqn:Hi; [|by split].
    destruct (Hl _ _ eq_refl) as [-> Hst].
    destruct (apply_transition _ _) as [state' commands] eqn:Htr. split; simpl.
    + apply history_append; [done|constructor|]. intros p q _ Hq. by apply elem_of_nil in Hq.
    + by apply rows_uncommitted.
    + intros ? ? [= <- <-]. split.
      * unfold messages; simpl. rewrite app_assoc, replay_app. unfold replay at 1; simpl.
        fold (messages h). by rewrite Htr.
      * assert (positions (uncommitted h ++ [MResume resume]) = positions (uncommitted h))
          as Hu by (rewrite positions_app; apply app_nil_r).
        destruct status; simpl in *; by rewrite Hu.
  - unfold machine_prune, storage, io_map_err; simpl.
    destruct (prune_snapshots safe _) as [r store] eqn:Hp. split; simpl; [done| |done].
    apply prune_inv in Hp as [->| ->]; [done|]. by apply rows_prune.
  - assert (history_ok {| committed := committed h; uncommitted := [] |}) as Hh'.
    { eapply (history_prefix h _ []); [done|by rewrite app_nil_r]. }
    assert (rows_ok {| committed := committed h; uncommitted := [] |} (tables (snapshots m)))
      as Hr' by by apply rows_uncommitted.
    unfold with_init, storage, io_map_err; simpl.
    destruct (current _) as [r store] eqn:Hc. apply current_inv in Hc as [Ht Hc].
    pose proof (tip_row _ _ Hh Hr) as Htip. simpl in *.
    destruct r as [[[b state]|]|e]; simpl; [| |by split].
    + destruct Hc as (text & Hb & Hs). rewrite Hb in Htip.
      destruct Htip as [(c & Hc & <-) Htip].
      destruct (checked_add c.1 1) as [p|] eqn:Hp; simpl; [|by split].
      apply checked_add_Some in Hp as [-> _].
      split; simpl; [done|by rewrite Ht|]. intros ? ? [= <- <-]. split.
      * unfold messages; simpl. rewrite app_nil_r. congruence.
      * split; [done|]. simpl. intros c' Hc'.
        apply last_Some in Hc as [cs Hc]. pose proof (ok_blocks h Hh) as Hsorted.
        rewrite Hc, fmap_app in Hsorted. rewrite Hc in Hc'.
        apply elem_of_app in Hc' as [Hc'| ->%list_elem_of_singleton]; [|lia].
        assert (c'.1 < c.1); [|lia].
        eapply (StronglySorted_app_1_elem_of _ _ _ _ _ Hsorted);
          [apply list_elem_of_fmap; by exists c'|left].
    + rewrite Hc in Htip. split; simpl; [done|by rewrite Ht|]. intros ? ? [= <- <-].
      unfold messages; simpl. by rewrite Htip.
Qed.

Lemma operations_ok (J : state_roundtrip SJ) ops : machine_ok (operations init ops).
Proof.
  induction ops as [|op ops IH] using rev_ind.
  - split; simpl.
    + split; simpl; [constructor| |constructor].
      intros c m p Hc. by apply elem_of_nil in Hc.
    + split; simpl; [|done]. intros b text Hb. by rewrite lookup_empty in Hb.
    + intros ? ? [= <- <-]. done.
  - unfold operations. rewrite foldl_app. by apply operate_ok.
Qed.
(** ** A reorg the snapshots reach *)

Lemma reorg_answered b text state store :
  answering store = None → b + 1 ≤ i64_max → tables store !! b = Some text →
  state_from_str text = Some state →
  ∃ store', reorg (b + 1) store = (Ok (b, state), store').
Proof.
  intros Ha Hle Hb Hs. eexists.
  unfold reorg, checked_sub, io_bind, io_lift, transaction.
  rewrite decide_True by lia. cbn [ok_or]. unfold io_bind.
  rewrite statement_answered by done. cbn [io_ret fst snd].
  unfold i64_try_from. rewrite (decide_True (P := b + 1 ≤ i64_max)) by done.
  rewrite statement_answered by done. cbn [fst snd tables].
  replace (b + 1 - 1) with b by lia. rewrite decide_True by lia.
  rewrite statement_answered by done. cbn [fst snd tables].
  assert (filter (λ row : N * StateText S, ¬ b + 1 ≤ row.1) (tables store) !! b = Some text)
    as Hrow by (apply map_lookup_filter_Some; split; [done|simpl; lia]).
  rewrite Hrow. cbn [ok_or]. rewrite Hs. cbn [ok_or].
  unfold io_ret. rewrite statement_answered by done. reflexivity.
Qed.

End machine.

(** ** Properties *)

Section properties.
Context {S Event Action Effect Resume : Type} {SJ : StateJson S}.
Context (apply_transition : S → Message Event Resume → S * list (Command Action Effect)).

(** [C3] Whatever updates, reorgs, resumes, prunings, database failures and
    restarts the machine goes through, its live state is what the messages of
    its history lead to from the initial state, each snapshot is what the
    history up to its block leads to, and the history applies the blocks and
    events of the chain at most once and in chain order: an uncled block has
    left it together with everything above it. *)
Theorem machine_replays_history init ops :
  state_roundtrip SJ →
  let '(m, h) := operations apply_transition init ops in
  (∀ state status, inner m = Some (state, status) →
     state = replay apply_transition init (messages h)) ∧
  (∀ b text, tables (snapshots m) !! b = Some text → ∃ c1 ms c2,
     committed h = c1 ++ (b, ms) :: c2 ∧
     state_from_str text =
       Some (replay apply_transition init (committed_messages (c1 ++ [(b, ms)])))) ∧
  StronglySorted N.lt (committed h).*1 ∧
  StronglySorted pos_lt (positions (messages h)).
Proof.
  intros J. pose proof (operations_ok apply_transition init J ops) as [Hh Hr Hl].
  destruct (operations apply_transition init ops) as [m h]; simpl in *.
  split_and!.
  - intros state status Hi. by destruct (Hl _ _ Hi).
  - apply (ok_row _ _ _ _ Hr).
  - apply (ok_blocks _ Hh).
  - apply (ok_positions _ Hh).
Qed.
(** A reorg is recovered from as long as the parent of the uncled block
    has its snapshot: the update is accepted, and the machine is back in the
    state it committed at the parent, waiting for the block that replaces the
    uncled one, with nothing of the uncled blocks left in its history. *)
Theorem reorg_restores init ops state status b text :
  state_roundtrip SJ →
  let s := operations apply_transition init ops in
  inner s.1 = Some (state, status) →
  match status with
  | BlockPending pending => b + 1 < pending
  | BlockEvents latest => b + 1 ≤ latest
  | _ => False
  end →
  tables (snapshots s.1) !! b = Some text → b + 1 ≤ i64_max →
  let s' := operate apply_transition init s (None, OpUpdate (UBlock (Uncle (b + 1)))) in
  ∃ restored, state_from_str text = Some restored ∧
    inner s'.1 = Some (restored, BlockPending (b + 1)) ∧
    s'.2 = history_update s.2 (UBlock (Uncle (b + 1))) ∧
    restored = replay apply_transition init (messages s'.2) ∧
    ∀ p, p ∈ positions (messages s'.2) → p.1 ≤ b.
Proof.
  intros J s. pose proof (operations_ok apply_transition init J ops) as Hok.
  subst s. destruct (operations apply_transition init ops) as [m h]; cbn [fst snd].
  intros Hi Hst Hb Hle. destruct (ok_row _ _ _ _ (ok_rows _ _ _ Hok) _ _ Hb)
    as (c1 & ms & c2 & _ & Hs).
  destruct (reorg_answered b text _ (mkDb (tables (snapshots m)) None) eq_refl Hle Hb Hs)
    as [store' Hreorg].
  pose proof (operate_ok apply_transition init J (m, h)
    (None, OpUpdate (UBlock (Uncle (b + 1)))) Hok) as Hok'.
  assert (∃ m', operate apply_transition init (m, h)
    (None, OpUpdate (UBlock (Uncle (b + 1)))) =
      (m', history_update h (UBlock (Uncle (b + 1)))) ∧
    inner m' = Some (replay apply_transition init (committed_messages (c1 ++ [(b, ms)])),
      BlockPending (b + 1))) as (m' & Heq & Hi').
  { simpl. unfold handle_update; simpl. rewrite Hi. simpl.
    destruct status as [|p|l|]; try done;
      rewrite bool_decide_true by done; unfold io_bind, storage, io_map_err;
      rewrite Hreorg; simpl; by eexists. }
  rewrite Heq in Hok' |- *. exists (replay apply_transition init
    (committed_messages (c1 ++ [(b, ms)]))).
  split_and!; [done|done|done|by destruct (ok_live _ _ _ Hok' _ _ Hi')|].
  intros p Hp. unfold messages in Hp. simpl in Hp. rewrite app_nil_r in Hp.
  apply (committed_position (history_update h (UBlock (Uncle (b + 1)))))
    in Hp as (c & [Hc _]%list_elem_of_filter & Hpc); [lia|].
  apply (ok_history _ _ _ Hok').
Qed.
End properties.
