(* ===== verification/TxQueue.v ===== *)
(** * The transaction queue: [core/tx/mod.rs], [storage.rs], [types.rs], [fees.rs]

    The persistent table of transactions, the fee rules, and the queue that
    submits, resubmits and reconciles. What the node answers to one operation
    is a [Node]. The table's rows are listed in the order of their row ids, and
    the [request] column is the object its JSON text stands for. *)

From Stdlib Require Strings.String.
From S2P Require Import Prelude.
From S2P Require Import Bytes.
From S2P Require Import Database.
From S2P Require Import Core.

(** ** Fees *)

Definition u128_max : N := 340282366920938463463374607431768211455. (* 2^128 - 1 *)

(** [u128::saturating_add], [saturating_mul]. *)
Definition saturating_add_u128 (x y : N) : N := N.min (x + y) u128_max.
Definition saturating_mul_u128 (x y : N) : N := N.min (x * y) u128_max.

(** [x.div_ceil(10)]. *)
Definition div_ceil_ten (x : N) : N :=
  x / 10 + (if decide (x mod 10 = 0) then 0 else 1).

(** Raised to at least 10% above [previous]. *)
Definition bump_fee (fresh previous : N) : N :=
  N.max fresh (saturating_add_u128 previous (div_ceil_ten previous)).

Definition bump (fresh : Fees) (previous : option Fees) : Fees :=
  match previous with
  | None => fresh
  | Some previous =>
      {| max_fee_per_gas := bump_fee (max_fee_per_gas fresh) (max_fee_per_gas previous);
         max_priority_fee_per_gas :=
           bump_fee (max_priority_fee_per_gas fresh) (max_priority_fee_per_gas previous) |}
  end.

Definition PRECISION : N := 1000000.

(** With the percentage already scaled to millionths of one. *)
Definition cap_priority_fee (fees : Fees) (scaled_percent : N) : Fees :=
  if decide (PRECISION ≤ scaled_percent) then fees else
  let base_fee := max_fee_per_gas fees - max_priority_fee_per_gas fees in
  let capped := saturating_mul_u128 base_fee scaled_percent / (PRECISION - scaled_percent) in
  let priority := N.min (max_priority_fee_per_gas fees) capped in
  {| max_fee_per_gas := base_fee + priority; max_priority_fee_per_gas := priority |}.

(** [TxEip1559], less the empty access list. *)
Record TxEip1559 := {
  eip_chain_id : N;
  eip_nonce : N;
  eip_gas_limit : N;
  eip_fees : Fees;
  eip_to : Address;
  eip_value : U256;
  eip_input : Bytes;
}.

(** [AllocatedTransaction::fees]. *)
Definition allocated_fees (t : AllocatedTransaction) : option Fees :=
  max_fee ← at_max_fee_per_gas t;
  max_priority_fee ← at_max_priority_fee_per_gas t;
  Some {| max_fee_per_gas := max_fee; max_priority_fee_per_gas := max_priority_fee |}.

(** [AllocatedTransaction::build]. *)
Definition build_transaction (t : AllocatedTransaction) (chain_id : N) (estimate : Fees)
    : TxEip1559 :=
  let fees := bump estimate (allocated_fees t) in
  {| eip_chain_id := chain_id; eip_nonce := at_nonce t;
     eip_gas_limit := tx_gas (at_transaction t); eip_fees := fees;
     eip_to := tx_to (at_transaction t); eip_value := tx_value (at_transaction t);
     eip_input := tx_data (at_transaction t) |}.

(** ** Storage *)

(** [tx::storage::Error]. *)
Inductive TxStorageError :=
  | TxDatabase
  | TxOverflow
  | NonceNotFound (nonce : N).

Record TxRow := {
  row_request : Transaction;
  row_max_fee_per_gas : option N;            (* of the request object *)
  row_max_priority_fee_per_gas : option N;   (* of the request object *)
  row_expires_at : option N;
  row_nonce : option N;
  row_submitted_at : option N;
  row_executed_at : option N;
}.

Definition TransactionStorage : Type := Db (list TxRow).

Section storage.
Open Scope safenet_scope.

Abbreviation store A := (io TransactionStorage A TxStorageError).
Abbreviation statement := (statement TxDatabase).
Abbreviation transaction := (transaction TxDatabase).
Abbreviation to_i64 x := (io_lift (i64_try_from TxOverflow x)).

(** [option.map(i64::try_from).transpose()?]. *)
Definition to_i64_opt (x : option N) : store (option N) :=
  match x with
  | None => io_ret None
  | Some x => y ←! to_i64 x; io_ret (Some y)
  end.

Definition queued_row (request : Transaction) (expires_at : option N) : TxRow :=
  {| row_request := request; row_max_fee_per_gas := None;
     row_max_priority_fee_per_gas := None; row_expires_at := expires_at;
     row_nonce := None; row_submitted_at := None; row_executed_at := None |}.

Definition set_nonce (row : TxRow) (nonce : N) : TxRow :=
  {| row_request := row_request row; row_max_fee_per_gas := row_max_fee_per_gas row;
     row_max_priority_fee_per_gas := row_max_priority_fee_per_gas row;
     row_expires_at := row_expires_at row; row_nonce := Some nonce;
     row_submitted_at := row_submitted_at row; row_executed_at := row_executed_at row |}.

Definition set_executed (row : TxRow) (block : option N) : TxRow :=
  {| row_request := row_request row; row_max_fee_per_gas := row_max_fee_per_gas row;
     row_max_priority_fee_per_gas := row_max_priority_fee_per_gas row;
     row_expires_at := row_expires_at row; row_nonce := row_nonce row;
     row_submitted_at := row_submitted_at row; row_executed_at := block |}.

Definition set_submission (row : TxRow) (block : option N) (fees : Fees) : TxRow :=
  {| row_request := row_request row; row_max_fee_per_gas := Some (max_fee_per_gas fees);
     row_max_priority_fee_per_gas := Some (max_priority_fee_per_gas fees);
     row_expires_at := row_expires_at row; row_nonce := row_nonce row;
     row_submitted_at := block; row_executed_at := row_executed_at row |}.

Definition enqueue (transactions : list (Transaction * option N)) : store () :=
  transaction
    (io_for (λ '(request, expires_at),
       expires_at ←! to_i64_opt expires_at;
       statement (λ rows, (Ok (), rows ++ [queued_row request expires_at])))
     transactions).

Definition in_flight (row : TxRow) : bool :=
  bool_decide (is_Some (row_nonce row)) && bool_decide (row_executed_at row = None).

Definition count_where (p : TxRow → bool) (rows : list TxRow) : N :=
  N.of_nat (length (filter (λ row, p row) rows)).

Definition count_in_flight : store N :=
  statement (λ rows, (Ok (count_where in_flight rows), rows)).

(** [expires_at IS NULL OR expires_at > ?]. *)
Definition unexpired (block : N) (row : TxRow) : bool :=
  match row_expires_at row with None => true | Some e => bool_decide (block < e) end.

Definition eligible (block : N) (row : TxRow) : bool :=
  bool_decide (row_nonce row = None) && unexpired block row.

(** [MAX(?, COALESCE((SELECT MAX(nonce) + 1 ..), 0))]. *)
Definition free_nonce (nonce : N) (rows : list TxRow) : N :=
  N.max nonce (foldr (λ n m, N.max (n + 1) m) 0 (omap row_nonce rows)).

(** Updates the first row that satisfies [p], and returns it. *)
Fixpoint update_first (p : TxRow → bool) (f : TxRow → TxRow) (rows : list TxRow)
    : option (TxRow * list TxRow) :=
  match rows with
  | [] => None
  | row :: rows =>
      if p row then Some (f row, f row :: rows)
      else '(found, rows) ← update_first p f rows; Some (found, row :: rows)
  end.

(** [json_set(request, '$.nonce', nonce)], as an [AllocatedTransaction]. *)
Definition allocated (row : TxRow) (nonce : N) : AllocatedTransaction :=
  {| at_nonce := nonce; at_transaction := row_request row;
     at_max_fee_per_gas := row_max_fee_per_gas row;
     at_max_priority_fee_per_gas := row_max_priority_fee_per_gas row |}.

Definition next_transaction (nonce block : N) : store (option AllocatedTransaction) :=
  nonce ←! to_i64 nonce;
  block ←! to_i64 block;
  statement (λ rows,
    let nonce := free_nonce nonce rows in
    match update_first (eligible block) (λ row, set_nonce row nonce) rows with
    | None => (Ok None, rows)
    | Some (row, rows) => (Ok (Some (allocated row nonce)), rows)
    end).

Definition has_nonce (nonce : N) (row : TxRow) : bool :=
  bool_decide (row_nonce row = Some nonce).

Definition record_submission (block : option N) (nonce : N) (fees : Fees) : store () :=
  block ←! to_i64_opt block;
  number ←! to_i64 nonce;
  updated ←! statement (λ rows,
    (Ok (count_where (has_nonce number) rows),
     (λ row, if has_nonce number row then set_submission row block fees else row) <$> rows));
  if decide (updated = 0) then io_fail (NonceNotFound nonce) else io_ret ().

Definition count_outstanding (block : N) : store N :=
  block ←! to_i64 block;
  statement (λ rows,
    (Ok (count_where (λ row, bool_decide (row_executed_at row = None) &&
       (bool_decide (is_Some (row_nonce row)) || unexpired block row)) rows), rows)).

(** [nonce IS NOT NULL AND nonce < ? AND executed_at IS NULL]. *)
Definition passed (nonce : N) (row : TxRow) : bool :=
  match row_nonce row with
  | Some n => bool_decide (n < nonce) && bool_decide (row_executed_at row = None)
  | None => false
  end.

Definition mark_executed (block nonce : N) : store () :=
  block ←! to_i64 block;
  nonce ←! to_i64 nonce;
  statement (λ rows,
    (Ok (), (λ row, if passed nonce row then set_executed row (Some block) else row) <$> rows)).

(** [executed_at <= safe]; [nonce IS NULL AND expires_at <= safe]. *)
Definition executed_by (safe : N) (row : TxRow) : bool :=
  match row_executed_at row with Some e => bool_decide (e ≤ safe) | None => false end.
Definition expired_by (safe : N) (row : TxRow) : bool :=
  match row_nonce row, row_expires_at row with
  | None, Some e => bool_decide (e ≤ safe)
  | _, _ => false
  end.

(** [TransactionStorage::prune]. *)
Definition prune_transactions (safe : N) : store () :=
  safe ←! to_i64 safe;
  transaction
    (_ ←! statement (λ rows, (Ok (), filter (λ row, ¬ executed_by safe row) rows));
     statement (λ rows, (Ok (), filter (λ row, ¬ expired_by safe row) rows))).

Definition executed_since (block : N) (row : TxRow) : bool :=
  match row_executed_at row with Some e => bool_decide (block ≤ e) | None => false end.

Definition unmark_executed (block : N) : store () :=
  block ←! to_i64 block;
  statement (λ rows,
    (Ok (), (λ row, if executed_since block row then set_executed row None else row) <$> rows)).

Definition stale (submitted_before : option N) (row : TxRow) : bool :=
  in_flight row &&
  match row_submitted_at row, submitted_before with
  | None, _ => true
  | Some at_block, Some bound => bool_decide (at_block ≤ bound)
  | Some _, None => false
  end.

Definition nonce_le : relation AllocatedTransaction := λ a b, at_nonce a ≤ at_nonce b.
#[local] Instance nonce_le_dec : RelDecision nonce_le.
Proof. intros a b. unfold nonce_le. apply _. Defined.

(** [ORDER BY nonce ASC]. *)
Definition stale_submissions (submitted_before : option N)
    : store (list AllocatedTransaction) :=
  bound ←! to_i64_opt submitted_before;
  statement (λ rows,
    (Ok (merge_sort nonce_le
       (omap (λ row, nonce ← row_nonce row;
                     if stale bound row then Some (allocated row nonce) else None) rows)),
     rows)).
End storage.

(** ** The queue *)

(** [tx::Error]. *)
Inductive QueueError :=
  | QueueStorage (error : TxStorageError)
  | QueueRpc
  | QueueSigning.

(** [is_intermittent], and [lift_intermittent_error] as the driver uses it. *)
Definition is_intermittent (e : QueueError) : bool :=
  match e with QueueRpc => true | _ => false end.
Definition lift_intermittent_error {A} (r : result A QueueError)
    : result (result A QueueError) QueueError :=
  match r with
  | Ok a => Ok (Ok a)
  | Err e => if is_intermittent e then Ok (Err e) else Err e
  end.

(** [TransportError]: an error response, with the characters of its message, or a
    failure without one. *)
Inductive TransportError :=
  | ErrorResp (message : list N)
  | TransportFailure.

Definition as_error_resp (e : TransportError) : option (list N) :=
  match e with ErrorResp message => Some message | TransportFailure => None end.

Import String.StringSyntax.
Delimit Scope string_scope with string.
Definition characters (s : String.string) : list N := to_N <$> String.list_byte_of_string s.

Record Node := {
  node_chain_id : N;
  transaction_count : option N → option N;    (* at a block, or the latest *)
  estimate_eip1559_fees : option Fees;
  can_sign : TxEip1559 → bool;
  send_raw_transaction : TxEip1559 → result () TransportError;
  (** [RegexBuilder::new(re).case_insensitive(true)] on a message. *)
  iregex : list N → list N → bool;
}.

Record TxConfig := {
  max_in_flight_transactions : N;
  blocks_before_resubmit : N;
  priority_fee_cap : option N;                (* in millionths *)
}.

Record TransactionQueue := {
  queue_storage : TransactionStorage;
  queue_config : TxConfig;
  block_status : option BlockStatus;
  nonce_cache : option N;
  fee_cache : option Fees;
}.

Section queue.
Context (node : Node).
Open Scope safenet_scope.

Abbreviation queue_io A := (io TransactionQueue A QueueError).

Definition on_storage {A} (m : io TransactionStorage A TxStorageError) : queue_io A := λ q,
  let '(r, s) := m (queue_storage q) in
  (rmap_err QueueStorage r,
   {| queue_storage := s; queue_config := queue_config q; block_status := block_status q;
      nonce_cache := nonce_cache q; fee_cache := fee_cache q |}).

Definition set_status (status : BlockStatus) : queue_io () := λ q,
  (Ok (), {| queue_storage := queue_storage q; queue_config := queue_config q;
             block_status := Some status; nonce_cache := nonce_cache q;
             fee_cache := fee_cache q |}).
Definition set_caches (nonce : option N) (fees : option Fees) : queue_io () := λ q,
  (Ok (), {| queue_storage := queue_storage q; queue_config := queue_config q;
             block_status := block_status q; nonce_cache := nonce; fee_cache := fees |}).

Definition nonce : queue_io N := λ q,
  match nonce_cache q with
  | Some nonce => (Ok nonce, q)
  | None =>
      (nonce ←! io_lift (ok_or QueueRpc
         (transaction_count node (status_latest <$> block_status q)));
       _ ←! set_caches (Some nonce) (fee_cache q);
       io_ret nonce) q
  end.

(** [TransactionQueue::fees]. *)
Definition queue_fees : queue_io Fees := λ q,
  match fee_cache q with
  | Some fees => (Ok fees, q)
  | None =>
      (fees ←! io_lift (ok_or QueueRpc (estimate_eip1559_fees node));
       let fees :=
         match priority_fee_cap (queue_config q) with
         | Some cap => cap_priority_fee fees cap
         | None => fees
         end in
       _ ←! set_caches (nonce_cache q) (Some fees);
       io_ret fees) q
  end.

(** A rejection for fees that are too low for the mempool. *)
Definition is_transaction_underpriced (err : TransportError) : bool :=
  match as_error_resp err with
  | Some message =>
      (iregex node (characters "replacement transaction"%string) message &&
       iregex node (characters "underpriced"%string) message)
      || iregex node (characters "INTERNAL_ERROR: could not replace existing tx"%string) message
  | None => false
  end.

Definition submit_transaction (t : AllocatedTransaction) (block : N) : queue_io () :=
  fees ←! queue_fees;
  let built := build_transaction t (node_chain_id node) fees in
  _ ←! io_lift (if can_sign node built then Ok () else Err QueueSigning);
  match send_raw_transaction node built with
  | Ok _ => on_storage (record_submission (Some block) (eip_nonce built) (eip_fees built))
  | Err err =>
      if is_transaction_underpriced err
      then on_storage (record_submission None (eip_nonce built) (eip_fees built))
      else io_ret ()
  end.

(** The loop over the free places, which stops when nothing is queued. *)
Fixpoint submit_up_to (places : nat) (block : N) : queue_io () :=
  match places with
  | O => io_ret ()
  | S places =>
      nonce ←! nonce;
      next ←! on_storage (next_transaction nonce block);
      match next with
      | None => io_ret ()
      | Some t => _ ←! submit_transaction t block; submit_up_to places block
      end
  end.

Definition submit_pending (block : N) : queue_io () := λ q,
  (flying ←! on_storage count_in_flight;
   submit_up_to (N.to_nat (max_in_flight_transactions (queue_config q) - flying)) block) q.

Definition resubmit_stale (block : N) : queue_io () := λ q,
  (let submitted_before := checked_sub block (blocks_before_resubmit (queue_config q)) in
   stale ←! on_storage (stale_submissions submitted_before);
   io_for (λ t, submit_transaction t block) stale) q.

(** [TransactionQueue::queue]. *)
Definition queue (transactions : list (Transaction * option N)) : queue_io () :=
  _ ←! on_storage (enqueue transactions);
  λ q, match block_status q with
       | Some status => submit_pending (status_latest status) q
       | None => (Ok (), q)
       end.

(** The executed markers to clear. *)
Definition invalidated_from (previous : option BlockStatus) (status : BlockStatus)
    : option N :=
  match previous with
  | None => checked_add (status_safe status) 1
  | Some previous =>
      if decide (status_latest status < status_latest previous)
      then checked_add (status_latest status) 1 else None
  end.

Definition is_none_or {A} (p : A → bool) (x : option A) : bool :=
  match x with None => true | Some a => p a end.

Definition update_block_status (status : BlockStatus) : queue_io () := λ q,
  let previous := block_status q in
  if decide (previous = Some status) then (Ok (), q) else
  (_ ←! set_status status;
   _ ←! (if is_none_or (λ p, bool_decide (status_latest p ≠ status_latest status)) previous
         then set_caches None None else io_ret ());
   _ ←! (if is_none_or (λ p, bool_decide (status_safe p ≠ status_safe status)) previous
         then on_storage (prune_transactions (status_safe status)) else io_ret ());
   _ ←! (match invalidated_from previous status with
         | Some block => on_storage (unmark_executed block)
         | None => io_ret ()
         end);
   if is_none_or (λ p, bool_decide (status_latest p < status_latest status)) previous then
     outstanding ←! on_storage (count_outstanding (status_latest status));
     if decide (0 < outstanding) then
       nonce ←! nonce;
       _ ←! on_storage (mark_executed (status_latest status) nonce);
       _ ←! resubmit_stale (status_latest status);
       submit_pending (status_latest status)
     else io_ret ()
   else io_ret ()) q.
End queue.

(** ** Runs of the queue *)

Inductive QueueOperation :=
  | OpQueue (transactions : list (Transaction * option N))
  | OpBlockStatus (status : BlockStatus)
  | OpRestartQueue.

(** One operation, against a node and a database that answer as they do. A
    restart keeps the table and nothing else. *)
Definition queue_operate (q : TransactionQueue)
    (op : Node * option nat * QueueOperation) : TransactionQueue :=
  let '(node, answers, op) := op in
  let q := {| queue_storage := mkDb (tables (queue_storage q)) answers;
              queue_config := queue_config q; block_status := block_status q;
              nonce_cache := nonce_cache q; fee_cache := fee_cache q |} in
  match op with
  | OpQueue transactions => (queue node transactions q).2
  | OpBlockStatus status => (update_block_status node status q).2
  | OpRestartQueue =>
      {| queue_storage := queue_storage q; queue_config := queue_config q;
         block_status := None; nonce_cache := None; fee_cache := None |}
  end.

Definition TransactionQueue_new (config : TxConfig) : TransactionQueue :=
  {| queue_storage := mkDb [] None; queue_config := config; block_status := None;
     nonce_cache := None; fee_cache := None |}.

Definition queue_operations (config : TxConfig)
    (ops : list (Node * option nat * QueueOperation)) : TransactionQueue :=
  foldl queue_operate (TransactionQueue_new config) ops.

(** ** Lemmas on the table *)

Lemma update_first_Some p f rows row rows' :
  update_first p f rows = Some (row, rows') →
  ∃ l1 old l2, rows = l1 ++ old :: l2 ∧ rows' = l1 ++ f old :: l2 ∧ row = f old ∧
    p old = true ∧ ∀ r, r ∈ l1 → p r = false.
Proof.
  revert rows'. induction rows as [|r rows IH]; intros rows' H; simpl in H; [done|].
  destruct (p r) eqn:Hp; simplify_eq/=.
  - exists [], r, rows. split_and!; try done. intros r' Hr. by apply elem_of_nil in Hr.
  - destruct (update_first p f rows) as [[found rs]|] eqn:E; simplify_eq/=.
    destruct (IH _ eq_refl) as (l1 & old & l2 & -> & -> & -> & Hold & Hl1).
    exists (r :: l1), old, l2. split_and!; try done.
    intros r' [->|Hr]%elem_of_cons; auto.
Qed.

Lemma update_first_None p f rows :
  update_first p f rows = None → ∀ r, r ∈ rows → p r = false.
Proof.
  induction rows as [|r rows IH]; simpl; intros H r' Hr; [by apply elem_of_nil in Hr|].
  destruct (p r) eqn:Hp; simplify_eq/=.
  destruct (update_first p f rows) as [[??]|]; [done|].
  apply elem_of_cons in Hr as [->|Hr]; auto.
Qed.

Lemma free_nonce_above nonce rows n :
  n ∈ omap row_nonce rows → n < free_nonce nonce rows.
Proof.
  unfold free_nonce. intros Hn. apply N.lt_le_trans with (n + 1); [lia|].
  etransitivity; [|apply N.le_max_r].
  induction (omap row_nonce rows) as [|m ns IH]; [by apply elem_of_nil in Hn|].
  apply elem_of_cons in Hn as [->|Hn]; simpl; [lia|]. specialize (IH Hn). lia.
Qed.

(** The transaction that is given a nonce. *)
Lemma next_transaction_inv n b s r s' :
  next_transaction n b s = (r, s') →
  ((∃ e, r = Err e) ∧ tables s' = tables s) ∨
  (r = Ok None ∧ tables s' = tables s ∧ ∀ row, row ∈ tables s → eligible b row = false) ∨
  (∃ l1 old l2, let m := free_nonce n (tables s) in
     tables s = l1 ++ old :: l2 ∧ tables s' = l1 ++ set_nonce old m :: l2 ∧
     r = Ok (Some (allocated old m)) ∧ eligible b old = true ∧
     ∀ row, row ∈ l1 → eligible b row = false).
Proof.
  unfold next_transaction, io_bind, io_lift.
  destruct (i64_try_from _ n) as [n'|e] eqn:Hn; [|intros [= <- <-]; left; eauto].
  apply i64_try_from_Ok in Hn as [-> _].
  destruct (i64_try_from _ b) as [b'|e] eqn:Hb; [|intros [= <- <-]; left; eauto].
  apply i64_try_from_Ok in Hb as [-> _]. cbn beta zeta.
  intros [[-> ->]|H]%statement_inv; [left; eauto|right]. revert H.
  destruct (update_first _ _ _) as [[row rows']|] eqn:Hu.
  - intros [= <- <-]. right.
    apply update_first_Some in Hu as (l1 & old & l2 & -> & -> & -> & Hold & Hl1).
    exists l1, old, l2. done.
  - intros [= <- <-]. left. split_and!; [done|done|]. by eapply update_first_None.
Qed.

(** ** The invariant *)

Record rows_distinct (rows : list TxRow) : Prop := {
  ok_nonces : NoDup (omap row_nonce rows);
  ok_executed : ∀ row, row ∈ rows → is_Some (row_executed_at row) → is_Some (row_nonce row);
}.

Abbreviation keeps_table := (io_preserves (λ s : TransactionStorage, rows_distinct (tables s))).

Lemma rows_distinct_map (f : TxRow → TxRow) rows :
  (∀ row, row_nonce (f row) = row_nonce row) →
  (∀ row, is_Some (row_executed_at (f row)) → is_Some (row_executed_at row) ∨ is_Some (row_nonce row)) →
  rows_distinct rows → rows_distinct (f <$> rows).
Proof.
  intros Hn He [Hd Hx]. split.
  - replace (omap row_nonce (f <$> rows)) with (omap row_nonce rows); [done|].
    clear Hd Hx. induction rows as [|row rows IH]; csimpl; [done|].
    by rewrite Hn, IH.
  - intros row (old & -> & Hold)%list_elem_of_fmap H. rewrite Hn.
    destruct (He old H); eauto.
Qed.

Lemma rows_distinct_filter (P : TxRow → Prop) `{∀ r, Decision (P r)} rows :
  rows_distinct rows → rows_distinct (filter P rows).
Proof.
  intros [Hd Hx]. split.
  - eapply sublist_NoDup; [exact Hd|].
    clear Hd Hx. induction rows as [|row rows IH]; [constructor|].
    rewrite filter_cons. case_decide; simpl; destruct (row_nonce row); try done;
      by constructor.
  - intros row [_ Hin]%list_elem_of_filter. auto.
Qed.

Lemma to_i64_opt_preserves P x : io_preserves P (to_i64_opt x).
Proof. unfold to_i64_opt. destruct x; auto with io. Qed.
#[local] Hint Resolve to_i64_opt_preserves : io.

Lemma enqueue_distinct l : keeps_table (enqueue l).
Proof.
  apply transaction_preserves, io_for_preserves. intros [request expires_at] _.
  apply io_bind_preserves; [auto with io|]. intros e. apply statement_preserves.
  intros rows [Hd Hx]. split; simpl.
  - rewrite omap_app. simpl. by rewrite app_nil_r.
  - intros row [Hin| ->%list_elem_of_singleton]%elem_of_app; [auto|]. intros [? [=]].
Qed.

Lemma next_transaction_distinct n b : keeps_table (next_transaction n b).
Proof.
  do 2 (apply io_bind_preserves; [auto with io|]; intros ?).
  apply statement_preserves. intros rows [Hd Hx]; simpl.
  destruct (update_first _ _ _) as [[row rows']|] eqn:Hu; [|done]. simpl.
  pose proof (free_nonce_above a rows) as Hfree.
  apply update_first_Some in Hu as (l1 & old & l2 & -> & -> & _ & Hp & _).
  apply andb_true_iff in Hp as [Hold%bool_decide_eq_true _].
  rewrite omap_app in Hd, Hfree. simpl in Hd, Hfree. rewrite Hold in Hd, Hfree. split.
  - rewrite omap_app. simpl. apply NoDup_Permutation_proper with
      (free_nonce a (l1 ++ old :: l2) :: omap row_nonce l1 ++ omap row_nonce l2);
      [by rewrite Permutation_middle|].
    constructor; [|done]. intros Hin%Hfree. lia.
  - intros row'. rewrite elem_of_app, elem_of_cons. intros [Hin|[->|Hin]] He.
    + apply Hx; [set_solver|done].
    + by eexists.
    + apply Hx; [set_solver|done].
Qed.

Lemma record_submission_distinct b n f : keeps_table (record_submission b n f).
Proof.
  do 2 (apply io_bind_preserves; [auto with io|]; intros ?).
  apply io_bind_preserves.
  - apply statement_preserves. intros rows Hrows. simpl.
    apply rows_distinct_map; [| |done]; intros row; destruct (has_nonce _ row); auto.
  - intros updated. case_decide; auto with io.
Qed.

Lemma mark_executed_distinct b n : keeps_table (mark_executed b n).
Proof.
  do 2 (apply io_bind_preserves; [auto with io|]; intros ?).
  apply statement_preserves. intros rows Hrows. simpl.
  apply rows_distinct_map; [| |done]; intros row; destruct (passed _ row) eqn:Hp; auto.
  intros _. right. unfold passed in Hp. by destruct (row_nonce row).
Qed.

Lemma unmark_executed_distinct b : keeps_table (unmark_executed b).
Proof.
  apply io_bind_preserves; [auto with io|]; intros ?.
  apply statement_preserves. intros rows Hrows. simpl.
  apply rows_distinct_map; [| |done]; intros row; destruct (executed_since _ row); auto.
  intros [? [=]].
Qed.

Lemma prune_transactions_distinct safe : keeps_table (prune_transactions safe).
Proof.
  apply io_bind_preserves; [auto with io|]; intros ?. apply transaction_preserves.
  apply io_bind_preserves; [|intros _]; apply statement_preserves; intros rows Hrows;
    by apply rows_distinct_filter.
Qed.

(** The transactions of the table, each with its expiry, satisfy [R]. *)
Definition rows_from (R : Transaction * option N → Prop) (rows : list TxRow) : Prop :=
  Forall (λ row, R (row_request row, row_expires_at row)) rows.

(** What the statements keep that neither add nor drop a row, and what those keep
    that add none. *)
Record kept_rows (P : list TxRow → Prop) : Prop := {
  kept_next n b : io_preserves (λ s : TransactionStorage, P (tables s)) (next_transaction n b);
  kept_record b n f :
    io_preserves (λ s : TransactionStorage, P (tables s)) (record_submission b n f);
  kept_mark b n : io_preserves (λ s : TransactionStorage, P (tables s)) (mark_executed b n);
  kept_unmark b : io_preserves (λ s : TransactionStorage, P (tables s)) (unmark_executed b);
}.
Record kept (P : list TxRow → Prop) : Prop := {
  kept_kept_rows : kept_rows P;
  kept_prune s : io_preserves (λ s : TransactionStorage, P (tables s)) (prune_transactions s);
}.

Lemma rows_distinct_kept : kept rows_distinct.
Proof.
  split; [split|]; auto using next_transaction_distinct, record_submission_distinct,
    prune_transactions_distinct, mark_executed_distinct, unmark_executed_distinct.
Qed.

(** The transactions of the table with their expiry. *)
Definition requests (rows : list TxRow) : list (Transaction * option N) :=
  (λ row, (row_request row, row_expires_at row)) <$> rows.

Lemma rows_from_requests R rows : rows_from R rows ↔ Forall R (requests rows).
Proof. unfold rows_from, requests. by rewrite Forall_fmap. Qed.

Lemma requests_map (f : TxRow → TxRow) rows :
  (∀ row, row_request (f row) = row_request row ∧ row_expires_at (f row) = row_expires_at row) →
  requests (f <$> rows) = requests rows.
Proof.
  intros Hf. unfold requests. rewrite <- list_fmap_compose. apply list_fmap_ext.
  intros i row _. simpl. by destruct (Hf row) as [-> ->].
Qed.

(** The statements neither add nor drop nor change a request. *)
Lemma requests_kept_rows (P : list (Transaction * option N) → Prop) :
  kept_rows (λ rows, P (requests rows)).
Proof.
  split.
  - intros n b. do 2 (apply io_bind_preserves; [auto with io|]; intros ?).
    apply (statement_preserves _ (λ rows, P (requests rows))). intros rows Hrows; simpl.
    destruct (update_first _ _ _) as [[row rows']|] eqn:Hu; [|done]. simpl.
    apply update_first_Some in Hu as (l1 & old & l2 & -> & -> & _).
    unfold requests in *. by rewrite fmap_app, fmap_cons in *.
  - intros b n f. do 2 (apply io_bind_preserves; [auto with io|]; intros ?).
    apply io_bind_preserves; [|intros updated; case_decide; auto with io].
    apply (statement_preserves _ (λ rows, P (requests rows))). intros rows Hrows. simpl. rewrite requests_map; [done|].
    intros row. by destruct (has_nonce _ row).
  - intros b n. do 2 (apply io_bind_preserves; [auto with io|]; intros ?).
    apply (statement_preserves _ (λ rows, P (requests rows))). intros rows Hrows. simpl. rewrite requests_map; [done|].
    intros row. by destruct (passed _ row).
  - intros b. apply io_bind_preserves; [auto with io|]; intros ?.
    apply (statement_preserves _ (λ rows, P (requests rows))). intros rows Hrows. simpl. rewrite requests_map; [done|].
    intros row. by destruct (executed_since _ row).
Qed.

Lemma to_i64_opt_inv x (s : TransactionStorage) e s' :
  to_i64_opt x s = (Ok e, s') → e = x ∧ s' = s.
Proof.
  unfold to_i64_opt. destruct x as [x|]; [|by intros [= <- <-]].
  unfold io_bind, io_lift. destruct (i64_try_from _ x) as [y|] eqn:Hx; [|done].
  apply i64_try_from_Ok in Hx as [-> _]. by intros [= <- <-].
Qed.

Section rows_from.
Context (R : Transaction * option N → Prop).

Abbreviation keeps_rows := (io_preserves (λ s : TransactionStorage, rows_from R (tables s))).

Lemma rows_from_filter (P : TxRow → Prop) `{∀ r, Decision (P r)} rows :
  rows_from R rows → rows_from R (filter P rows).
Proof. unfold rows_from. rewrite !Forall_forall. intros Hall r [_ ?]%list_elem_of_filter. auto. Qed.

Lemma enqueue_from l : Forall R l → keeps_rows (enqueue l).
Proof.
  rewrite Forall_forall. intros Hl. apply transaction_preserves, io_for_preserves.
  intros [request expires_at] Hin%Hl s Hs. unfold io_bind.
  pose proof (to_i64_opt_preserves (λ s, rows_from R (tables s)) expires_at s Hs) as Hs'.
  destruct (to_i64_opt expires_at s) as [[e|e] s'] eqn:He; [|done].
  apply to_i64_opt_inv in He as [-> _]. simpl in Hs'. revert Hs'. apply statement_preserves.
  intros rows Hrows. apply Forall_app. split; [done|]. by constructor.
Qed.

Lemma rows_from_kept : kept (rows_from R).
Proof.
  split.
  - assert (∀ A (m : io TransactionStorage A TxStorageError), io_preserves (λ s, Forall R (requests (tables s))) m →
      keeps_rows m)
      as H by (intros A m Hm s; rewrite !rows_from_requests; apply Hm).
    destruct (requests_kept_rows (Forall R)). by split; intros; apply H.
  - intros safe. apply io_bind_preserves; [auto with io|]; intros ?.
    apply transaction_preserves. apply io_bind_preserves; [|intros _];
      apply statement_preserves; intros rows; by apply rows_from_filter.
Qed.
End rows_from.

(** What holds of the rows and each statement keeps, the queue's operations keep. *)
Lemma kept_and P Q : kept P → kept Q → kept (λ rows, P rows ∧ Q rows).
Proof.
  intros [[] ?] [[] ?]. split; [split|]; intros; intros store [HP HQ]; split;
    match goal with H : _ |- _ => solve [by apply H] end.
Qed.

Section through_queue.
Context (node : Node) (P : list TxRow → Prop).

Abbreviation keeps := (io_preserves (λ q : TransactionQueue, P (tables (queue_storage q)))).
Abbreviation keeps_storage := (io_preserves (λ s : TransactionStorage, P (tables s))).


Lemma on_storage_preserves {A} (m : io TransactionStorage A TxStorageError) :
  keeps_storage m → keeps (on_storage m).
Proof.
  intros Hm q Hq. specialize (Hm _ Hq). unfold on_storage. by destruct (m (queue_storage q)).
Qed.

Lemma nonce_preserves : keeps (nonce node).
Proof.
  intros q Hq. unfold nonce. destruct (nonce_cache q); [done|].
  unfold io_bind, io_lift. by destruct (transaction_count node _).
Qed.

Lemma queue_fees_preserves : keeps (queue_fees node).
Proof.
  intros q Hq. unfold queue_fees. destruct (fee_cache q); [done|].
  unfold io_bind, io_lift. by destruct (estimate_eip1559_fees node).
Qed.

Lemma submit_transaction_preserves t b :
  (∀ b n f, keeps_storage (record_submission b n f)) → keeps (submit_transaction node t b).
Proof.
  intros Hrecord. apply io_bind_preserves; [apply queue_fees_preserves|]. intros fees. cbn zeta.
  apply io_bind_preserves; [auto with io|]. intros _.
  destruct (send_raw_transaction _ _) as [|err]; [|destruct (is_transaction_underpriced node err)];
    auto using on_storage_preserves with io.
Qed.

Context (K : kept_rows P).
#[local] Hint Resolve kept_next kept_record kept_mark kept_unmark : io.
#[local] Hint Resolve submit_transaction_preserves : io.

Lemma submit_up_to_preserves places b : keeps (submit_up_to node places b).
Proof.
  induction places as [|places IH]; simpl; [auto with io|].
  apply io_bind_preserves; [apply nonce_preserves|]. intros n.
  apply io_bind_preserves; [apply on_storage_preserves; auto with io|].
  intros [t|]; [|auto with io].
  apply io_bind_preserves; [auto with io|done].
Qed.

Lemma count_preserves {A} (f : list TxRow → A) :
  keeps_storage (statement TxDatabase (λ rows, (Ok (f rows), rows))).
Proof. apply statement_preserves. by intros rows. Qed.

Lemma submit_pending_preserves b : keeps (submit_pending node b).
Proof.
  intros q Hq. apply (io_bind_preserves (λ q, P (tables (queue_storage q)))); [| |done].
  - apply on_storage_preserves, count_preserves.
  - intros n. apply submit_up_to_preserves.
Qed.

Lemma resubmit_stale_preserves b : keeps (resubmit_stale node b).
Proof.
  intros q Hq. apply (io_bind_preserves (λ q, P (tables (queue_storage q)))); [| |done].
  - apply on_storage_preserves. apply io_bind_preserves.
    + unfold to_i64_opt. destruct (checked_sub _ _); auto with io.
    + intros bound. apply count_preserves.
  - intros l. apply io_for_preserves. intros t _. auto with io.
Qed.

Lemma queue_preserves l : keeps_storage (enqueue l) → keeps (queue node l).
Proof.
  intros Henqueue. apply io_bind_preserves; [by apply on_storage_preserves|]. intros _ q Hq.
  destruct (block_status q); [by apply submit_pending_preserves|done].
Qed.

(** [update_block_status] prunes if the safe block is new to it; the rest neither
    adds nor drops a row. *)
Definition prunes (status : BlockStatus) (q : TransactionQueue) : bool :=
  is_none_or (λ p, bool_decide (status_safe p ≠ status_safe status)) (block_status q).

Lemma update_block_status_spec (X : QueueError → TransactionQueue → Prop) status q0 :
  (∀ e q, P (tables (queue_storage q)) → X e q) →
  (if prunes status q0
   then io_spec (λ q, queue_storage q = queue_storage q0)
          (on_storage (prune_transactions (status_safe status)))
          (λ _ q, P (tables (queue_storage q))) X
   else P (tables (queue_storage q0))) →
  io_spec (λ q, q = q0) (update_block_status node status)
    (λ _ q, P (tables (queue_storage q))) X.
Proof.
  intros HX Hprune q ->. unfold update_block_status, prunes in *.
  generalize dependent (block_status q0). intros previous Hprune. case_decide as Hp.
  { subst previous. simpl in Hprune. by rewrite bool_decide_false in Hprune by naive_solver. }
  assert (∀ (m : io TransactionQueue () QueueError), keeps m →
    io_spec (λ q, P (tables (queue_storage q))) m (λ _ q, P (tables (queue_storage q))) X) as Hk.
  { intros m Hm q Hq. specialize (Hm q Hq). destruct (m q) as [[[]|e] q']; auto. }
  set (same := λ q, queue_storage q = queue_storage q0).
  apply (io_spec_bind same _ _ _ (λ _, same)); [by intros q Hq| |done]. intros _.
  apply (io_spec_bind _ _ _ _ (λ _, same));
    [destruct (is_none_or (λ p, bool_decide (status_latest p ≠ _)) _); intros q Hq; exact Hq|]. intros _.
  apply (io_spec_bind _ _ _ _ (λ _ q, P (tables (queue_storage q)))).
  { destruct (is_none_or _ _); [done|]. intros q Hq. simpl. by rewrite Hq. }
  intros _. apply Hk. clear Hprune.
  apply io_bind_preserves;
    [destruct (invalidated_from _ _); auto using on_storage_preserves with io|]. intros _.
  destruct (is_none_or _ _); [|auto with io].
  apply io_bind_preserves.
  { apply on_storage_preserves, io_bind_preserves; [auto with io|]. intros b.
    apply count_preserves. }
  intros n. case_decide; [|auto with io].
  apply io_bind_preserves; [apply nonce_preserves|]. intros m.
  apply io_bind_preserves; [apply on_storage_preserves; auto with io|]. intros _.
  apply io_bind_preserves; [apply resubmit_stale_preserves|]. intros _.
  apply submit_pending_preserves.
Qed.
End through_queue.

Lemma update_block_status_preserves node P status :
  kept P → io_preserves (λ q, P (tables (queue_storage q))) (update_block_status node status).
Proof.
  intros [K Kprune] q Hq.
  pose proof (update_block_status_spec node P K (λ _ q, P (tables (queue_storage q))) status q
    (λ _ _ H, H)) as Hs.
  refine (_ (Hs _ q eq_refl)); [by destruct (update_block_status node status q) as [[]]|].
  destruct (prunes status q); [|done]. intros q' Hq'.
  rewrite <- Hq' in Hq. pose proof (on_storage_preserves P _ (Kprune (status_safe status)) q' Hq).
  by destruct (on_storage _ q') as [[]].
Qed.

(** ** Places in flight *)

Lemma count_where_app p l1 l2 : count_where p (l1 ++ l2) = count_where p l1 + count_where p l2.
Proof. unfold count_where. rewrite filter_app, length_app. lia. Qed.

Lemma count_where_cons p r l :
  count_where p (r :: l) = (if p r then 1 else 0) + count_where p l.
Proof.
  unfold count_where. destruct (p r) eqn:Hr.
  - rewrite filter_cons_True by (by rewrite Hr). simpl. lia.
  - rewrite filter_cons_False by (by rewrite Hr; intros []). simpl. lia.
Qed.

Lemma count_where_map p (f : TxRow → TxRow) l :
  (∀ r, p (f r) = p r) → count_where p (f <$> l) = count_where p l.
Proof.
  intros Hp. induction l as [|r l IH]; [done|]. csimpl.
  by rewrite !count_where_cons, Hp, IH.
Qed.

Definition flying (q : TransactionQueue) : N := count_where in_flight (tables (queue_storage q)).

Lemma next_transaction_flying n b s :
  count_where in_flight (tables (next_transaction n b s).2) ≤
    count_where in_flight (tables s) + 1.
Proof.
  destruct (next_transaction n b s) as [r s'] eqn:H; simpl.
  apply next_transaction_inv in H
    as [[_ ->]|[(_ & -> & _)|(l1 & old & l2 & -> & -> & _)]]; [lia|lia|].
  rewrite !count_where_app, !count_where_cons. destruct (in_flight _), (in_flight old); lia.
Qed.

Lemma record_submission_flying b n f s :
  count_where in_flight (tables (record_submission b n f s).2) =
    count_where in_flight (tables s).
Proof.
  assert (io_preserves (λ s', count_where in_flight (tables s') = count_where in_flight (tables s))
    (record_submission b n f)) as Hp; [|by apply Hp].
  apply io_bind_preserves; [unfold to_i64_opt; destruct b; auto with io|]. intros block.
  apply io_bind_preserves; [auto with io|]. intros number.
  apply io_bind_preserves; [|intros m; case_decide; auto with io].
  apply (statement_preserves _ (λ rows, count_where in_flight rows = _)).
  intros rows Hrows. simpl. rewrite count_where_map; [done|].
  intros r. by destruct (has_nonce _ r).
Qed.

Lemma submit_up_to_flying node places b q :
  flying (submit_up_to node places b q).2 ≤ flying q + N.of_nat places.
Proof.
  revert q. induction places as [|places IH]; intros q; simpl; [lia|].
  pose proof (nonce_preserves node (λ rows, count_where in_flight rows = flying q) q eq_refl)
    as Hn. unfold io_bind.
  destruct (nonce node q) as [[n|e] q1]; simpl in *; [|unfold flying in *; lia].
  pose proof (next_transaction_flying n b (queue_storage q1)) as Hnext. unfold on_storage at 1.
  destruct (next_transaction n b (queue_storage q1)) as [[[t|]|e] s]; simpl in *;
    [|unfold flying in *; simpl in *; lia..].
  match goal with |- context [submit_transaction node t b ?q2] => set (q' := q2) end.
  assert (flying (submit_transaction node t b q').2 = flying q') as Hs.
  { refine (submit_transaction_preserves node
      (λ rows, count_where in_flight rows = flying q') t b _ q' eq_refl).
    intros block n' f s' Hs'. by rewrite record_submission_flying. }
  destruct (submit_transaction node t b q') as [[[]|e] q2]; simpl in *.
  - etransitivity; [apply IH|]. rewrite Hs. unfold flying in *; simpl in *. lia.
  - unfold flying in *; simpl in *. lia.
Qed.

Lemma div_ceil_ten_ge x : x ≤ 10 * div_ceil_ten x.
Proof.
  unfold div_ceil_ten. div_facts x 10. case_decide; lia.
Qed.

Lemma bump_fee_spec fresh previous :
  fresh ≤ bump_fee fresh previous ∧
  (11 * previous ≤ 10 * bump_fee fresh previous ∨ u128_max ≤ bump_fee fresh previous).
Proof.
  unfold bump_fee, saturating_add_u128. pose proof (div_ceil_ten_ge previous). lia.
Qed.

(** ** Properties *)

(** Whatever the node and the database answer, and whenever the process
    restarts, no two transactions of the queue ever hold the same nonce, and
    only transactions with a nonce are ever marked executed. *)
Theorem queue_nonces_distinct config ops :
  let rows := tables (queue_storage (queue_operations config ops)) in
  NoDup (omap row_nonce rows) ∧
  ∀ row, row ∈ rows → is_Some (row_executed_at row) → is_Some (row_nonce row).
Proof.
  cbn zeta. cut (rows_distinct (tables (queue_storage (queue_operations config ops)))).
  { by intros []. }
  unfold queue_operations. induction ops as [|[[node answers] op] ops IH] using rev_ind.
  - split; simpl; [constructor|]. intros row Hrow. by apply elem_of_nil in Hrow.
  - rewrite foldl_app. simpl. destruct op as [l|status|]; [| |done].
    + by apply (queue_preserves node rows_distinct (kept_kept_rows _ rows_distinct_kept) _ (enqueue_distinct l)).
    + by apply (update_block_status_preserves node rows_distinct _ rows_distinct_kept).
Qed.

(** Submitting never puts more transactions in flight than configured. *)
Theorem in_flight_bounded node b q :
  flying (submit_pending node b q).2 ≤
    N.max (flying q) (max_in_flight_transactions (queue_config q)).
Proof.
  unfold submit_pending, io_bind, on_storage at 1.
  destruct (count_in_flight (queue_storage q)) as [r s] eqn:H.
  apply statement_inv in H as [[-> ->]|[= <- Ht]]; simpl; [unfold flying; simpl; lia|].
  match goal with |- context [submit_up_to node ?k b ?q'] =>
    pose proof (submit_up_to_flying node k b q') as Hf end.
  unfold flying at 2 in Hf; simpl in Hf. rewrite <-Ht in Hf. unfold flying at 2. lia.
Qed.

(** The transaction that is given a nonce is the oldest one that waits
    for submission and has not expired, and its nonce is not below the
    account's and above every nonce of the queue; the rest of the table stays. *)
Theorem oldest_unexpired_next n b s t s' :
  next_transaction n b s = (Ok (Some t), s') →
  ∃ l1 old l2, tables s = l1 ++ old :: l2 ∧
    tables s' = l1 ++ set_nonce old (at_nonce t) :: l2 ∧
    at_transaction t = row_request old ∧
    row_nonce old = None ∧ (∀ e, row_expires_at old = Some e → b < e) ∧
    (∀ row, row ∈ l1 → is_Some (row_nonce row) ∨ ∃ e, row_expires_at row = Some e ∧ e ≤ b) ∧
    n ≤ at_nonce t ∧ ∀ m, m ∈ omap row_nonce (tables s) → m < at_nonce t.
Proof.
  intros [[[e H] _]|[[H _]|(l1 & old & l2 & Ht & Ht' & [= ->] & Hold & Hl1)]]%next_transaction_inv;
    [done|done|].
  apply andb_true_iff in Hold as [Hn%bool_decide_eq_true He].
  exists l1, old, l2. split_and!; try done.
  - intros e Hexp. unfold unexpired in He. rewrite Hexp in He. by apply bool_decide_eq_true in He.
  - intros row Hrow. specialize (Hl1 row Hrow). unfold eligible, unexpired in Hl1.
    destruct (row_nonce row) eqn:En; [left; eauto|right]. simpl in Hl1.
    destruct (row_expires_at row) as [e|]; [|done].
    apply bool_decide_eq_false in Hl1. exists e. split; [done|lia].
  - simpl. unfold free_nonce. lia.
  - intros m Hm. by apply free_nonce_above.
Qed.

(** A transaction submitted before is built with both fees at least the
    fresh estimate and at least 10% above the recorded ones (saturating at the
    type's maximum), and a recorded submission is what the next one must
    outbid. *)
Theorem replacement_outbids row n chain_id estimate block :
  let built := build_transaction (allocated row n) chain_id estimate in
  let fees := eip_fees built in
  (∀ max priority, row_max_fee_per_gas row = Some max →
     row_max_priority_fee_per_gas row = Some priority →
     (11 * max ≤ 10 * max_fee_per_gas fees ∨ u128_max ≤ max_fee_per_gas fees) ∧
     (11 * priority ≤ 10 * max_priority_fee_per_gas fees ∨
      u128_max ≤ max_priority_fee_per_gas fees)) ∧
  max_fee_per_gas estimate ≤ max_fee_per_gas fees ∧
  max_priority_fee_per_gas estimate ≤ max_priority_fee_per_gas fees ∧
  allocated_fees (allocated (set_submission row block fees) n) = Some fees.
Proof.
  cbn zeta. unfold build_transaction; cbn [eip_fees].
  split_and!.
  - intros max priority Hm Hp. unfold allocated_fees, allocated; simpl. rewrite Hm, Hp. simpl.
    split; apply bump_fee_spec.
  - destruct (allocated_fees _); simpl; [apply bump_fee_spec|done].
  - destruct (allocated_fees _); simpl; [apply bump_fee_spec|done].
  - unfold allocated_fees; simpl. by destruct (bump _ _).
Qed.

(** Capping only ever lowers the priority fee, leaves the base fee part,
    and keeps the priority fee within its share of the total. *)
Theorem priority_fee_capped fees scaled :
  max_priority_fee_per_gas fees ≤ max_fee_per_gas fees →
  let capped := cap_priority_fee fees scaled in
  max_priority_fee_per_gas capped ≤ max_priority_fee_per_gas fees ∧
  max_priority_fee_per_gas capped ≤ max_fee_per_gas capped ∧
  max_fee_per_gas capped - max_priority_fee_per_gas capped =
    max_fee_per_gas fees - max_priority_fee_per_gas fees ∧
  (scaled < PRECISION →
   PRECISION * max_priority_fee_per_gas capped ≤ scaled * max_fee_per_gas capped).
Proof.
  intros Hle. unfold cap_priority_fee. cbn zeta.
  case_decide as Hs; [split_and!; try done; lia|].
  cbn [max_fee_per_gas max_priority_fee_per_gas].
  set (base := max_fee_per_gas fees - max_priority_fee_per_gas fees).
  set (capped := saturating_mul_u128 base scaled / (PRECISION - scaled)).
  set (p := N.min (max_priority_fee_per_gas fees) capped).
  split_and!; [lia|lia|lia|]. intros Hlt.
  assert (p * (PRECISION - scaled) ≤ base * scaled) as Hp.
  { transitivity (capped * (PRECISION - scaled)); [apply N.mul_le_mono_r; lia|].
    transitivity (saturating_mul_u128 base scaled); [|unfold saturating_mul_u128; lia].
    unfold capped. rewrite N.mul_comm. apply N.Div0.mul_div_le. }
  rewrite N.mul_sub_distr_l in Hp. nia.
Qed.
