(* ===== verification/Encoder.v ===== *)
(** * Actions as transactions: [service/action.rs] *)

From S2P Require Import Prelude.
From S2P Require Import Bytes.
From S2P Require Import Core.
From S2P Require Import Epoch.
From S2P Require Import Bindings.
From S2P Require Import Alloy.
From S2P Require Import FrostLib.
From S2P Require Import FrostSign.
From S2P Require Import State.

Record Encoder := {
  coordinator : Address;
  consensus : Address;
}.

Section encoder.
Context {AL : Alloy}.

Definition coordinator_transaction (e : Encoder) (call : Coordinator.CoordinatorCalls)
    (gas : N) : Core.Transaction :=
  {| tx_to := coordinator e; tx_value := 0;
     tx_data := coordinator_abi_encode call; tx_gas := gas |}.
Definition consensus_transaction (e : Encoder) (call : Consensus.ConsensusCalls)
    (gas : N) : Core.Transaction :=
  {| tx_to := consensus e; tx_value := 0;
     tx_data := consensus_abi_encode call; tx_gas := gas |}.

(** [250_000 + 25_000 * len as u64], which wraps in a release build. *)
Definition secret_share_gas (len : N) : N :=
  (250000 + (25000 * (len mod (u64_max + 1))) mod (u64_max + 1)) mod (u64_max + 1).

Definition encode_action (e : Encoder) (action : Action) : Core.Transaction * option N :=
  match action with
  | KeyGenAndCommit participants count threshold context poap commitment expires_at =>
      (coordinator_transaction e
         (Coordinator.keyGenAndCommitCall participants count threshold context poap
            commitment) 250000, expires_at)
  | KeyGenSecretShare group_id share expires_at =>
      let gas := secret_share_gas (N.of_nat (length (KeyGenSecretShare.f share))) in
      (coordinator_transaction e (Coordinator.keyGenSecretShareCall group_id share) gas,
       expires_at)
  | KeyGenComplain group_id accused expires_at =>
      (coordinator_transaction e (Coordinator.keyGenComplainCall group_id accused) 300000,
       expires_at)
  | KeyGenConfirm group_id callback expires_at =>
      (match callback with
       | Some callback =>
           coordinator_transaction e
             (Coordinator.keyGenConfirmWithCallbackCall group_id callback) 300000
       | None => coordinator_transaction e (Coordinator.keyGenConfirmCall group_id) 200000
       end, expires_at)
  | KeyGenComplaintResponse group_id plaintiff secret_share expires_at =>
      (coordinator_transaction e
         (Coordinator.keyGenComplaintResponseCall group_id plaintiff secret_share) 300000,
       expires_at)
  | Preprocess group_id nonces_commitment =>
      (coordinator_transaction e (Coordinator.preprocessCall group_id nonces_commitment)
         250000, None)
  | ARevealNonceCommitments signature_id nonces proof expires_at =>
      (coordinator_transaction e (Coordinator.signRevealNoncesCall signature_id nonces proof)
         250000, Some expires_at)
  | SignShare signature_id selection share proof callback expires_at =>
      (coordinator_transaction e
         (Coordinator.signShareWithCallbackCall signature_id selection share proof callback)
         400000, Some expires_at)
  | Sign group_id message expires_at =>
      (coordinator_transaction e (Coordinator.signCall group_id message) 150000,
       Some expires_at)
  | AttestTransaction epoch oracle oracle_data_hash chain_id safe safe_tx_struct_hash
      signature_id expires_at =>
      (consensus_transaction e
         (Consensus.attestTransactionCall (EpochId.raw_value epoch) oracle oracle_data_hash
            chain_id safe safe_tx_struct_hash signature_id) 250000, Some expires_at)
  | StageEpoch proposed_epoch rollover_block group_id signature_id expires_at =>
      (consensus_transaction e
         (Consensus.stageEpochCall (nonzero_get proposed_epoch) rollover_block group_id
            signature_id) 250000, Some expires_at)
  | SetValidatorStaker staker =>
      (consensus_transaction e (Consensus.setValidatorStakerCall staker) 100000, None)
  end.

(** Two calls with the same encoding. *)
Definition abi_collision : Prop :=
  (∃ c c', c ≠ c' ∧ coordinator_abi_encode c = coordinator_abi_encode c') ∨
  (∃ c c', c ≠ c' ∧ consensus_abi_encode c = consensus_abi_encode c').

(** The call an action is encoded to. *)
Definition action_call (action : Action)
    : Coordinator.CoordinatorCalls + Consensus.ConsensusCalls :=
  match action with
  | KeyGenAndCommit participants count threshold context poap commitment _ =>
      inl (Coordinator.keyGenAndCommitCall participants count threshold context poap commitment)
  | KeyGenSecretShare group_id share _ => inl (Coordinator.keyGenSecretShareCall group_id share)
  | KeyGenComplain group_id accused _ => inl (Coordinator.keyGenComplainCall group_id accused)
  | KeyGenConfirm group_id None _ => inl (Coordinator.keyGenConfirmCall group_id)
  | KeyGenConfirm group_id (Some callback) _ =>
      inl (Coordinator.keyGenConfirmWithCallbackCall group_id callback)
  | KeyGenComplaintResponse group_id plaintiff secret_share _ =>
      inl (Coordinator.keyGenComplaintResponseCall group_id plaintiff secret_share)
  | Preprocess group_id nonces_commitment =>
      inl (Coordinator.preprocessCall group_id nonces_commitment)
  | ARevealNonceCommitments signature_id nonces proof _ =>
      inl (Coordinator.signRevealNoncesCall signature_id nonces proof)
  | SignShare signature_id selection share proof callback _ =>
      inl (Coordinator.signShareWithCallbackCall signature_id selection share proof callback)
  | Sign group_id message _ => inl (Coordinator.signCall group_id message)
  | AttestTransaction epoch oracle data chain_id safe tx signature_id _ =>
      inr (Consensus.attestTransactionCall (EpochId.raw_value epoch) oracle data chain_id
        safe tx signature_id)
  | StageEpoch proposed_epoch rollover_block group_id signature_id _ =>
      inr (Consensus.stageEpochCall (nonzero_get proposed_epoch) rollover_block group_id
        signature_id)
  | SetValidatorStaker staker => inr (Consensus.setValidatorStakerCall staker)
  end.

Lemma encode_action_call e action :
  tx_to (encode_action e action).1 =
    match action_call action with inl _ => coordinator e | inr _ => consensus e end ∧
  tx_data (encode_action e action).1 =
    match action_call action with
    | inl call => coordinator_abi_encode call
    | inr call => consensus_abi_encode call
    end ∧
  tx_value (encode_action e action).1 = 0.
Proof. by destruct action as [| | |? [?|]| | | | | | | |]. Qed.

(** The call and the expiry are all of the action. *)
Lemma action_call_inj e a a' :
  action_call a = action_call a' → (encode_action e a).2 = (encode_action e a').2 → a = a'.
Proof.
  destruct a as [| | |? [?|]| | | | | | | |], a' as [| | |? [?|]| | | | | | | |];
    simpl; intros Hc He; simplify_eq; try done.
  injection Hc as He. intros. apply (inj EpochId.raw_value) in He. by subst.
Qed.

(** The queue is handed nothing but zero-value calls of the coordinator
    and consensus contracts, and two different actions never become the same
    transaction with the same expiry, short of a collision of the ABI
    encoding. *)
Theorem encode_action_faithful e a a' :
  coordinator e ≠ consensus e → a ≠ a' → encode_action e a = encode_action e a' →
  abi_collision ∧ tx_value (encode_action e a).1 = 0 ∧
  (tx_to (encode_action e a).1 = coordinator e ∨ tx_to (encode_action e a).1 = consensus e).
Proof.
  intros He Hne Heq.
  destruct (encode_action_call e a) as (Hto & Hdata & Hvalue).
  destruct (encode_action_call e a') as (Hto' & Hdata' & _).
  pose proof (action_call_inj e a a') as Hinj. rewrite Heq in Hto, Hdata, Hinj.
  rewrite Hvalue. split_and!; [|done|rewrite Heq, Hto; destruct (action_call a); auto].
  destruct (action_call a) as [c|c], (action_call a') as [c'|c']; try congruence.
  - left. exists c, c'. split; [|congruence]. intros ->. by apply Hne, Hinj.
  - right. exists c, c'. split; [|congruence]. intros ->. by apply Hne, Hinj.
Qed.

(** The gas of a secret share covers its encrypted shares without
    overflow for every group size. *)
Lemma secret_share_gas_exact len :
  len < u16_modulus → secret_share_gas len = 250000 + 25000 * len.
Proof.
  unfold secret_share_gas, u16_modulus, u64_max. intros H.
  rewrite (N.mod_small len), (N.mod_small (25000 * len)) by lia.
  rewrite N.mod_small; lia.
Qed.
End encoder.
