(* ===== verification/Provider.v ===== *)
(** * The RPC provider and the clock: [core/provider/mod.rs], [core/index/clock.rs]

    The node the indexer asks, as the replies it gives to the requests of one
    run, in order. A reply answers whatever is asked; it may be wrong, late or
    inconsistent with the reply before it. When no reply is left, the future
    that waits for one is dropped there: the driver drops the indexer's future
    whenever an effect completes first. *)

From S2P Require Import Prelude.
From S2P Require Import Bytes.

(** ** Blocks and logs as the node serves them *)

(** [BlockId::latest()] and [BlockId::number(_)]. *)
Inductive BlockId := IdLatest | IdNumber (number : N).

(** [Bloom], a 2048-bit number. *)
Abbreviation Bloom := N.

Record BlockHeader := {
  header_number : N;
  header_hash : B256;
  header_parent_hash : B256;
  header_timestamp : N;
  header_logs_bloom : Bloom;
}.

(** [alloy::rpc::types::Log]. *)
Record Log := {
  raw_address : Address;
  raw_topics : list B256;
  raw_data : Bytes;
  raw_block_number : option N;
  raw_block_hash : option B256;
  raw_log_index : option N;
}.

Definition topic0 (log : Log) : option B256 := head (raw_topics log).

(** The blocks an [eth_getLogs] request is scoped to. *)
Inductive BlockFilter :=
  | FilterHash (hash : B256)
  | FilterRange (from to : N).

(** [Filter]; an empty list of addresses or of first topics matches any. *)
Record Filter := {
  filter_blocks : BlockFilter;
  filter_addresses : list Address;
  filter_topics : list B256;
}.

(** [TransportError], as far as the indexer tells errors apart. *)
Inductive RpcError := ResourceNotFound | OtherRpc.

Record Reply := {
  latency : N;                                              (* milliseconds *)
  reply_block : BlockId → result (option BlockHeader) RpcError;
  reply_logs : Filter → result (list Log) RpcError;
}.

(** [now_ms] is the clock when the run is at this point. *)
Record Network := {
  now_ms : N;
  replies : list Reply;
}.

(** How a future ends without a value: dropped while waiting, failed, or in a
    panic of its own code. *)
Inductive Interrupt (E : Type) := Waiting | Failed (error : E) | Panicked.
Arguments Waiting {E}.
Arguments Failed {E} _.
Arguments Panicked {E}.

(** ** The clock *)

Definition sleep (duration : N) (net : Network) : Network :=
  {| now_ms := now_ms net + duration; replies := replies net |}.

(** [Clock::sleep_until]. *)
Definition sleep_until (target : N) (net : Network) : Network :=
  if decide (now_ms net < target) then sleep (target - now_ms net) net else net.

(** ** Requests *)

Definition next_reply (net : Network) : option (Reply * Network) :=
  match replies net with
  | [] => None
  | reply :: rest =>
      Some (reply, {| now_ms := now_ms net + latency reply; replies := rest |})
  end.

(** A request awaited on its own. *)
Definition request {A E} (rpc : RpcError → E) (ask : Reply → result A RpcError)
    : io Network A (Interrupt E) := λ net,
  match next_reply net with
  | None => (Err Waiting, net)
  | Some (reply, net) => (rmap_err (λ e, Failed (rpc e)) (ask reply), net)
  end.

Lemma sleep_until_now target net : now_ms (sleep_until target net) = N.max (now_ms net) target.
Proof. unfold sleep_until. case_decide; simpl; lia. Qed.

Lemma sleep_until_replies target net : replies (sleep_until target net) = replies net.
Proof. unfold sleep_until. by case_decide. Qed.

Lemma request_replies {A E} (rpc : RpcError → E) (ask : Reply → result A RpcError) net r net' :
  request rpc ask net = (r, net') →
  (replies net = [] ∧ net' = net ∧ r = Err Waiting) ∨
  ∃ reply, replies net = reply :: replies net' ∧
    now_ms net' = now_ms net + latency reply ∧
    r = rmap_err (λ e, Failed (rpc e)) (ask reply).
Proof.
  unfold request, next_reply. destruct (replies net) as [|reply rest]; intros [= <- <-].
  - by left.
  - right. by exists reply.
Qed.

(** Operations that use the network beside a state of their own. *)
Definition on_network {W A E} (m : io Network A E) : io (W * Network) A E := λ s,
  let '(r, net) := m s.2 in (r, (s.1, net)).
Definition get_self {W E} : io (W * Network) W E := λ s, (Ok s.1, s).
Definition set_self {W E} (w : W) : io (W * Network) () E := λ s, (Ok (), (w, s.2)).
