(* ===== verification/Blocks.v ===== *)
(** * The block watcher: [core/index/blocks.rs]

    Follows the head of the chain block by block, detects reorgs against the
    recent blocks, and emits the updates a service applies. *)

From S2P Require Import Prelude.
From S2P Require Import Bytes.
From S2P Require Import Core.
From S2P Require Import Provider.

(** [blocks::Error]. *)
Inductive BlocksError :=
  | BlocksRpc (error : RpcError)
  | UnknownBlockTime (chain_id : N)
  | MissingBlock (id : BlockId)
  | ExceededMaxReorgDepth (depth : N).

Inductive BlockTime := Auto | Millis (block_time : N).

(** [BlockTime::resolve]. *)
Definition resolve (block_time : BlockTime) (chain_id : N) : result N BlocksError :=
  match block_time with
  | Millis block_time => Ok block_time
  | Auto =>
      match chain_id with
      | 100 => Ok 5000
      | 11155111 => Ok 12000
      | chain_id => Err (UnknownBlockTime chain_id)
      end
  end.

(** [blocks::Config], with its defaults. *)
Record BlocksConfig := {
  block_time : BlockTime;
  block_propagation_delay : N;
  block_retry_delays : list N;
  max_reorg_depth : N;
  start_block : option N;
}.

Definition BlocksConfig_default : BlocksConfig :=
  {| block_time := Auto; block_propagation_delay := 500;
     block_retry_delays := [200; 100; 100]; max_reorg_depth := 5; start_block := None |}.

Record InvalidatedBlock := { invalidated_number : N; invalidated_hash : B256 }.
Record PendingBlock := { pending_number : N; pending_timestamp_ms : N }.
Record SafeBlock := { safe_number : N; safe_hash : B256 }.

Record BlockWatcher := {
  watcher_config : BlocksConfig;
  watcher_block_time : N;
  watcher_pending : PendingBlock;
  watcher_safe : SafeBlock;
  recent : list BlockHeader;
  updates : list BlockUpdate;            (* the field [queue] *)
}.

Definition with_pending (p : PendingBlock) (w : BlockWatcher) : BlockWatcher :=
  {| watcher_config := watcher_config w; watcher_block_time := watcher_block_time w;
     watcher_pending := p; watcher_safe := watcher_safe w; recent := recent w;
     updates := updates w |}.
Definition with_blocks (s : SafeBlock) (r : list BlockHeader) (w : BlockWatcher)
    : BlockWatcher :=
  {| watcher_config := watcher_config w; watcher_block_time := watcher_block_time w;
     watcher_pending := watcher_pending w; watcher_safe := s; recent := r;
     updates := updates w |}.
Definition with_updates (q : list BlockUpdate) (w : BlockWatcher) : BlockWatcher :=
  {| watcher_config := watcher_config w; watcher_block_time := watcher_block_time w;
     watcher_pending := watcher_pending w; watcher_safe := watcher_safe w;
     recent := recent w; updates := q |}.

Definition as_safe (block : BlockHeader) : SafeBlock :=
  {| safe_number := header_number block; safe_hash := header_hash block |}.
Definition as_new (block : BlockHeader) : BlockUpdate :=
  New (header_number block) (header_hash block) (header_logs_bloom block).

(** [VecDeque::pop_back_if] and [Iterator::rposition]. *)
Definition pop_back_if {A} (p : A → bool) (l : list A) : option (A * list A) :=
  x ← last l;
  if p x then Some (x, take (pred (length l)) l) else None.

Fixpoint rposition {A} (p : A → bool) (l : list A) : option nat :=
  match l with
  | [] => None
  | x :: l =>
      match rposition p l with
      | Some i => Some (S i)
      | None => if p x then Some O else None
      end
  end.

Open Scope safenet_scope.

Abbreviation awaiting W A := (io (W * Network) A (Interrupt BlocksError)).

(** ** Requests *)

Definition get_block (id : BlockId) : io Network (option BlockHeader) (Interrupt BlocksError) :=
  request BlocksRpc (λ reply, reply_block reply id).

Definition require_block (id : BlockId) : io Network BlockHeader (Interrupt BlocksError) :=
  block ←! get_block id;
  io_lift (ok_or (Failed (MissingBlock id)) block).

Definition update_next_pending_block (number timestamp : N) (w : BlockWatcher)
    : BlockWatcher :=
  with_pending {| pending_number := wrapping_add number 1;
                  pending_timestamp_ms :=
                    wrapping_add (wrapping_mul timestamp 1000) (watcher_block_time w) |} w.

(** The pending block rewound to a block that was uncled. *)
Definition rewind_to (block : BlockHeader) (w : BlockWatcher) : BlockWatcher :=
  with_pending {| pending_number := header_number block;
                  pending_timestamp_ms := wrapping_mul (header_timestamp block) 1000 |} w.

(** [wait_for_pending_block]. *)
Definition wait_for_pending_block : awaiting BlockWatcher () := λ s,
  let '(w, net) := s in
  (Ok (), (w, sleep_until (wrapping_add (pending_timestamp_ms (watcher_pending w))
    (block_propagation_delay (watcher_config w))) net)).

(** ** Initialization *)

(** The loop over the range [safe..=latest_number]. Each turn but one takes a
    reply, so [fuel] two above the number of replies is never used up. *)
Fixpoint scan (fuel : nat) (safe latest_number number : N) (parent_hash : option B256)
    (canonical_latest : option BlockHeader) (blocks : list BlockHeader)
    : io Network (list BlockHeader) (Interrupt BlocksError) :=
  if decide (number ≤ latest_number) then
    match fuel with
    | O => io_fail Waiting
    | S fuel =>
        let '(cached_block, canonical_latest) :=
          if decide (number = latest_number) then (canonical_latest, None)
          else (None, canonical_latest) in
        block ←! match cached_block with
                 | Some block => io_ret block
                 | None => require_block (IdNumber number)
                 end;
        if match parent_hash with
           | None => true
           | Some hash => bool_decide (hash = header_parent_hash block)
           end
        then
          scan fuel safe latest_number (wrapping_add number 1) (Some (header_hash block))
            canonical_latest (blocks ++ [block])
        else scan fuel safe latest_number safe None None []
    end
  else io_ret blocks.

Definition full_scan (safe : N) (latest : BlockHeader)
    : io Network (list BlockHeader) (Interrupt BlocksError) := λ net,
  scan (2 + length (replies net)) safe (header_number latest) safe None (Some latest) [] net.

(** The updates queued ahead of the recent blocks. *)
Definition initial_updates (config : BlocksConfig) (indexed : option BlockStatus) (safe : N)
    : list BlockUpdate :=
  match indexed with
  | Some indexed =>
      match checked_add (status_safe indexed) 1 with
      | Some uncle =>
          (if decide (uncle ≤ status_latest indexed) then [Uncle uncle] else []) ++
          (if decide (uncle ≤ safe) then [Warp uncle safe] else [])
      | None => []
      end
  | None =>
      match start_block config with
      | Some start_block => if decide (start_block ≤ safe) then [Warp start_block safe] else []
      | None => []
      end
  end.

(** Whether a recent block is still to be emitted. *)
Definition emits (config : BlocksConfig) (indexed : option BlockStatus) (number : N) : bool :=
  match indexed with
  | Some indexed =>
      match checked_add (status_safe indexed) 1 with
      | Some from => bool_decide (from ≤ number)
      | None => false
      end
  | None =>
      match start_block config with
      | Some start_block => bool_decide (start_block ≤ number)
      | None => true
      end
  end.

Definition initialize (indexed : option BlockStatus) : awaiting BlockWatcher () :=
  w ←! get_self;
  latest ←! on_network (require_block IdLatest);
  let safe := saturating_sub (header_number latest) (max_reorg_depth (watcher_config w)) in
  let w := update_next_pending_block (header_number latest) (header_timestamp latest) w in
  let w := with_updates (updates w ++ initial_updates (watcher_config w) indexed safe) w in
  blocks ←! on_network (full_scan safe latest);
  match blocks with
  | [] => io_fail Panicked
  | safe :: blocks =>
      let w := with_blocks (as_safe safe) blocks w in
      set_self (with_updates (updates w ++ (as_new <$>
        filter (λ block, emits (watcher_config w) indexed (header_number block)) (recent w))) w)
  end.

(** [BlockWatcher::new]. *)
Definition BlockWatcher_new (chain_id : N) (config : BlocksConfig)
    (indexed : option BlockStatus) : io Network BlockWatcher (Interrupt BlocksError) :=
  block_time ←! io_lift (rmap_err Failed (resolve (block_time config) chain_id));
  λ net,
    let w := {| watcher_config := config; watcher_block_time := block_time;
                watcher_pending := {| pending_number := 0; pending_timestamp_ms := 0 |};
                watcher_safe := {| safe_number := 0; safe_hash := B256_ZERO |};
                recent := []; updates := [] |} in
    let '(r, (w, net)) := initialize indexed (w, net) in
    (rmap (λ _, w) r, net).

(** ** Following the chain *)

(** [BlockWatcher::status]. *)
Definition watcher_status (w : BlockWatcher) : BlockStatus :=
  {| status_latest := saturating_sub (pending_number (watcher_pending w)) 1;
     status_safe := safe_number (watcher_safe w) |}.

(** [BlockWatcher::ready], all of whose updates are taken. *)
Definition ready (w : BlockWatcher) : list BlockUpdate * BlockWatcher :=
  (updates w, with_updates [] w).

(** The loop of [next]; each turn takes a reply. *)
Fixpoint await_pending (fuel : nat) (retry_count : nat) : awaiting BlockWatcher BlockHeader :=
  match fuel with
  | O => io_fail Waiting
  | S fuel =>
      _ ←! wait_for_pending_block;
      w ←! get_self;
      block ←! on_network (get_block (IdNumber (pending_number (watcher_pending w))));
      match block with
      | Some block => io_ret block
      | None =>
          let delays := block_retry_delays (watcher_config w) in
          let index := Nat.modulo retry_count (length delays + 1) in
          _ ←! match delays !! index with
               | Some delay => λ s, (Ok (), (s.1, sleep delay s.2))
               | None =>
                   set_self (with_pending
                     {| pending_number := pending_number (watcher_pending w);
                        pending_timestamp_ms :=
                          wrapping_add (pending_timestamp_ms (watcher_pending w))
                            (watcher_block_time w) |} w)
               end;
          await_pending fuel (S retry_count)
      end
  end.

Definition fetch_pending : awaiting BlockWatcher BlockHeader := λ s,
  await_pending (1 + length (replies s.2)) 0 s.

(** A new block that builds on the last one. *)
Definition extend (block : BlockHeader) : awaiting BlockWatcher BlockUpdate :=
  w ←! get_self;
  let w := update_next_pending_block (header_number block) (header_timestamp block) w in
  let w := with_blocks (watcher_safe w) (recent w ++ [block]) w in
  _ ←! (if decide (max_reorg_depth (watcher_config w) < N.of_nat (length (recent w))) then
          match recent w with
          | evicted :: rest => set_self (with_blocks (as_safe evicted) rest w)
          | [] => io_fail Panicked
          end
        else set_self w);
  io_ret (as_new block).

(** [BlockWatcher::next]. *)
Definition next_block_update : awaiting BlockWatcher BlockUpdate :=
  w ←! get_self;
  match updates w with
  | update :: rest => _ ←! set_self (with_updates rest w); io_ret update
  | [] =>
      block ←! fetch_pending;
      w ←! get_self;
      match pop_back_if (λ last, bool_decide (header_hash last ≠ header_parent_hash block))
              (recent w) with
      | Some (last, rest) =>
          _ ←! set_self (with_blocks (watcher_safe w) rest (rewind_to last w));
          io_ret (Uncle (header_number last))
      | None =>
          if bool_decide (recent w = []) &&
             bool_decide (safe_hash (watcher_safe w) ≠ header_parent_hash block)
          then io_fail (Failed (ExceededMaxReorgDepth (max_reorg_depth (watcher_config w))))
          else extend block
      end
  end.

(** [BlockWatcher::revalidate_last_block], from the number of the next queued
    block on. *)
Definition revalidate_before (next_number : option N)
    : awaiting BlockWatcher (option InvalidatedBlock) :=
  w ←! get_self;
  match rposition (λ block,
          match next_number with
          | None => true
          | Some number => bool_decide (header_number block < number)
          end) (recent w) with
  | None => io_ret None
  | Some last_index =>
      match recent w !! last_index with
      | None => io_fail Panicked
      | Some last =>
          current ←! on_network (get_block (IdNumber (header_number last)));
          if decide (header_hash <$> current = Some (header_hash last)) then io_ret None
          else
            _ ←! set_self (with_updates [Uncle (header_number last)]
                   (with_blocks (watcher_safe w) (take last_index (recent w))
                      (rewind_to last w)));
            io_ret (Some {| invalidated_number := header_number last;
                            invalidated_hash := header_hash last |})
      end
  end.

Definition revalidate_last_block : awaiting BlockWatcher (option InvalidatedBlock) :=
  w ←! get_self;
  match updates w with
  | New number _ _ :: _ => revalidate_before (Some number)
  | _ :: _ => io_ret None
  | [] => revalidate_before None
  end.
