(* ===== verification/BlocksInvariant.v ===== *)
(** * The block watcher's invariants

    What the node is relied on for, what each operation of [Blocks] does to the
    window of recent blocks and to the queue of updates, and that the loops end. *)

From S2P Require Import Prelude.
From S2P Require Import Bytes.
From S2P Require Import Core.
From S2P Require Import Provider.
From S2P Require Import Blocks.

Open Scope safenet_scope.

(** ** What is assumed of the node

    Documented behaviour of [eth_getBlockByNumber]: a block asked for by number
    has that number. Every block the node serves is [good]. *)
Record block_replies_ok (good : BlockHeader → Prop) (reply : Reply) : Prop := {
  reply_by_number n b : reply_block reply (IdNumber n) = Ok (Some b) → header_number b = n;
  reply_good id b : reply_block reply id = Ok (Some b) → good b;
}.

Definition serves_good (good : BlockHeader → Prop) (net : Network) : Prop :=
  Forall (block_replies_ok good) (replies net).

(** ** Chains of blocks *)

(** Each block follows the one before it, the first the block [number], [hash]. *)
Fixpoint linked (number : N) (hash : B256) (l : list BlockHeader) : Prop :=
  match l with
  | [] => True
  | b :: l =>
      header_number b = number + 1 ∧ header_parent_hash b = hash ∧
      linked (header_number b) (header_hash b) l
  end.

(** The hash at the end of a chain. *)
Definition tip (hash : B256) (l : list BlockHeader) : B256 :=
  from_option header_hash hash (last l).

Lemma tip_cons hash b l : tip hash (b :: l) = tip (header_hash b) l.
Proof. unfold tip. rewrite last_cons. by destruct (last l). Qed.

Lemma tip_snoc hash b l : tip hash (l ++ [b]) = header_hash b.
Proof. unfold tip. by rewrite last_snoc. Qed.

Lemma linked_snoc number hash l b :
  linked number hash (l ++ [b]) ↔
  linked number hash l ∧ header_number b = number + N.of_nat (length l) + 1 ∧
  header_parent_hash b = tip hash l.
Proof.
  revert number hash. induction l as [|a l IH]; intros number hash; simpl.
  - unfold tip; simpl. rewrite N.add_0_r. tauto.
  - rewrite IH, tip_cons. split; intros H; destruct_and!; split_and!; try done; lia.
Qed.

Lemma linked_app number hash l l' :
  linked number hash (l ++ l') ↔
  linked number hash l ∧ linked (number + N.of_nat (length l)) (tip hash l) l'.
Proof.
  revert number hash. induction l as [|a l IH]; intros number hash; simpl.
  - unfold tip; simpl. rewrite N.add_0_r. tauto.
  - rewrite IH, tip_cons. clear IH.
    enough (header_number a = number + 1 → header_number a + N.of_nat (length l) =
      number + N.of_nat (S (length l))) as Hn.
    { split; intros H; destruct_and!; rewrite Hn in * || rewrite <-Hn in *; tauto. }
    lia.
Qed.

(** The block at a place of a chain has the number of that place. *)
Lemma linked_lookup number hash l i b :
  linked number hash l → l !! i = Some b → header_number b = number + N.of_nat i + 1.
Proof.
  revert number hash i. induction l as [|a l IH]; intros number hash i Hl Hi; [done|].
  destruct Hl as (Hn & _ & Hl). destruct i as [|i]; simplify_eq/=; [lia|].
  rewrite (IH _ _ _ Hl Hi). lia.
Qed.

Lemma linked_elem number hash l b :
  linked number hash l → b ∈ l →
  number < header_number b ∧ header_number b ≤ number + N.of_nat (length l).
Proof.
  intros Hl [i Hi]%list_elem_of_lookup. rewrite (linked_lookup _ _ _ _ _ Hl Hi).
  apply lookup_lt_Some in Hi. lia.
Qed.

Lemma linked_take number hash l n : linked number hash l → linked number hash (take n l).
Proof. intros Hl. rewrite <-(take_drop n l) in Hl. by apply linked_app in Hl as [? _]. Qed.

Lemma rposition_None {A} (p : A → bool) l :
  rposition p l = None → ∀ x, x ∈ l → p x = false.
Proof.
  induction l as [|x l IH]; intros H y Hy; [by apply elem_of_nil in Hy|].
  simpl in H. destruct (rposition p l) eqn:Hl; [done|]. destruct (p x) eqn:Hx; [done|].
  apply elem_of_cons in Hy as [->|Hy]; auto.
Qed.

Lemma rposition_Some {A} (p : A → bool) l i :
  rposition p l = Some i →
  ∃ x, l !! i = Some x ∧ p x = true ∧ ∀ j y, (i < j)%nat → l !! j = Some y → p y = false.
Proof.
  revert i. induction l as [|x l IH]; intros i H; simpl in H; [done|].
  destruct (rposition p l) as [k|] eqn:Hk; [|destruct (p x) eqn:Hx]; simplify_eq.
  - destruct (IH k eq_refl) as (y & ? & ? & Hj). exists y. split_and!; [done..|].
    intros [|j] z ? Hz; [lia|]. apply (Hj j z); [lia|done].
  - exists x. split_and!; [done..|]. intros [|j] z ? Hz; [lia|].
    eapply rposition_None; [done|]. by eapply list_elem_of_lookup_2.
Qed.

(** The numbers of good blocks leave room for the next one. *)
Class Bounded (good : BlockHeader → Prop) : Prop :=
  good_bounded b : good b → header_number b < u64_max.

Section watcher.
Context {good : BlockHeader → Prop} `{!Bounded good}.

Abbreviation node_ok := (serves_good good).

(** ** Initialization *)

(** What a reply for [id] tells of its block. *)
Definition block_for (id : BlockId) (b : BlockHeader) : Prop :=
  good b ∧ ∀ n, id = IdNumber n → header_number b = n.

Abbreviation error_ok := (λ (e : Interrupt BlocksError) net,
  e ≠ Panicked ∧ (∀ depth, e ≠ Failed (ExceededMaxReorgDepth depth)) ∧ node_ok net).

Lemma get_block_spec id :
  io_spec node_ok (get_block id)
    (λ b net, node_ok net ∧ ∀ b', b = Some b' → block_for id b') error_ok.
Proof.
  intros net Hnet. unfold serves_good in *. destruct (get_block id net) as [r net'] eqn:H.
  apply request_replies in H as [(_ & -> & ->)|(reply & Hr & _ & ->)]; [done|].
  rewrite Hr in Hnet. inversion Hnet as [|? ? Hok Hrest]; subst.
  destruct (reply_block reply id) as [b|e] eqn:Hb; simpl; [|done].
  split; [done|]. intros b' ->. split; [by eapply reply_good|].
  intros n ->. by eapply reply_by_number.
Qed.

Lemma require_block_spec id :
  io_spec node_ok (require_block id) (λ b net, node_ok net ∧ block_for id b) error_ok.
Proof.
  unfold require_block. eapply io_spec_bind; [apply get_block_spec|].
  intros [b|] net [Hnet Hb]; simpl; [|done]. auto.
Qed.

(** The blocks of a scan so far: a chain from [safe]. *)
Definition scanned (safe : N) (blocks : list BlockHeader) : Prop :=
  match blocks with
  | [] => True
  | b :: l => header_number b = safe ∧ linked safe (header_hash b) l
  end.

Lemma scanned_snoc safe blocks b :
  scanned safe blocks → header_number b = safe + N.of_nat (length blocks) →
  (∀ hash, header_hash <$> last blocks = Some hash → header_parent_hash b = hash) →
  scanned safe (blocks ++ [b]).
Proof.
  destruct blocks as [|a l]; simpl; intros Hs Hn Hp.
  - split; [lia|done].
  - destruct Hs as [Ha Hl]. split; [done|]. apply linked_snoc. split_and!; [done|lia|].
    apply Hp. rewrite last_cons. unfold tip. by destruct (last l).
Qed.

Lemma scan_spec fuel safe latest_number number parent_hash canonical_latest blocks :
  safe ≤ latest_number → latest_number < u64_max → number ≤ latest_number + 1 →
  (∀ b, canonical_latest = Some b → header_number b = latest_number ∧ good b) →
  Forall good blocks → number = safe + N.of_nat (length blocks) → scanned safe blocks →
  parent_hash = header_hash <$> last blocks →
  io_spec node_ok
    (scan fuel safe latest_number number parent_hash canonical_latest blocks)
    (λ l net, node_ok net ∧ scanned safe l ∧ Forall good l ∧
      latest_number + 1 = safe + N.of_nat (length l))
    error_ok.
Proof.
  intros Hsl Hb. revert number parent_hash canonical_latest blocks.
  induction fuel as [|fuel IH];
    intros number parent_hash latest blocks Hle Hlatest Hgood Hn Hs Hp; simpl;
    (destruct (decide (number ≤ latest_number));
      [|intros net Hnet; split_and!; [done..|lia]]); [by intros net Hnet|].
  destruct (if decide (number = latest_number) then _ else _) as [cached latest'] eqn:Hc.
  assert ((∀ b, cached = Some b → header_number b = number ∧ good b) ∧
    (∀ b, latest' = Some b → header_number b = latest_number ∧ good b)) as [Hcached Hlatest'].
  { case_decide; simplify_eq; split; try done. }
  eapply io_spec_bind with (Q := λ b net, node_ok net ∧ header_number b = number ∧ good b).
  { destruct cached as [b|]; [apply io_spec_ret; auto|].
    eapply io_spec_conseq; [apply require_block_spec|done| |done].
    intros b net [Hnet [? Hb']]. auto. }
  intros b net (Hnet & Hbn & Hbg).
  destruct (match parent_hash with None => true | Some _ => _ end) eqn:Hparent.
  - apply IH; try done.
    + rewrite wrapping_add_small by lia. lia.
    + apply Forall_app. by split; [|apply Forall_singleton].
    + rewrite wrapping_add_small by lia. rewrite length_app; simpl. lia.
    + apply scanned_snoc; [done|lia|]. intros hash Hh. rewrite Hp, Hh in Hparent.
      by apply bool_decide_eq_true in Hparent.
    + by rewrite last_snoc.
  - apply IH; try done; simpl; lia.
Qed.

(** ** Termination of the scan *)

(** A reply in a run where the range up to [latest] is served, and one where it
    is served from the chain [chain]. *)
Definition serves (latest : N) (reply : Reply) : Prop :=
  ∀ n, n ≤ latest → ∃ b, reply_block reply (IdNumber n) = Ok (Some b).
Definition serves_chain (chain : N → BlockHeader) (latest : N) (reply : Reply) : Prop :=
  ∀ n, n ≤ latest → reply_block reply (IdNumber n) = Ok (Some (chain n)).

Definition is_chain (chain : N → BlockHeader) : Prop :=
  ∀ n, header_parent_hash (chain (n + 1)) = header_hash (chain n).

Lemma require_block_served id net reply rest b :
  replies net = reply :: rest → reply_block reply id = Ok (Some b) →
  require_block id net =
    (Ok b, {| now_ms := now_ms net + latency reply; replies := rest |}).
Proof.
  intros Hr Hb. unfold require_block, get_block, request, io_bind, next_reply.
  rewrite Hr. by rewrite Hb.
Qed.

Section scanning.
Context (safe latest_number : N).
Hypothesis Hsafe : safe ≤ latest_number.
Hypothesis Hlatest : latest_number < u64_max.

Abbreviation completes m := (∀ net, ∃ l net', m net = (Ok l, net')).

(** The scan along a chain that the node serves. *)
Lemma scan_chain chain (Hc : is_chain chain) k : ∀ fuel number parent_hash blocks net,
  (k ≤ fuel)%nat → latest_number + 1 = number + N.of_nat k →
  match parent_hash with
  | None => True
  | Some hash => number ≠ 0 ∧ hash = header_hash (chain (number - 1))
  end →
  (k ≤ length (replies net))%nat → Forall (serves_chain chain latest_number) (replies net) →
  ∃ l net', scan fuel safe latest_number number parent_hash None blocks net = (Ok l, net').
Proof.
  induction k as [|k IH]; intros fuel number parent_hash blocks net Hf Hk Hp Hl Hs.
  - assert (¬ number ≤ latest_number) as Hn by lia.
    destruct fuel; simpl; rewrite decide_False by done; by do 2 eexists.
  - destruct fuel as [|fuel]; [lia|]. simpl. rewrite decide_True by lia.
    destruct (replies net) as [|reply rest] eqn:Hr; simpl in Hl; [lia|].
    inversion Hs as [|? ? Hreply Hrest]; subst.
    replace (if decide (number = latest_number) then _ else _)
      with (@None BlockHeader, @None BlockHeader) by by case_decide.
    unfold io_bind at 1.
    rewrite (require_block_served _ _ _ _ _ Hr (Hreply number ltac:(lia))).
    replace (match parent_hash with None => true | Some _ => _ end) with true.
    2: { destruct parent_hash as [hash|]; [|done]. destruct Hp as [Hp ->].
         symmetry. apply bool_decide_eq_true.
         rewrite <-(Hc (number - 1)). do 2 f_equal. lia. }
    apply IH; simpl; try done; try lia.
    + rewrite wrapping_add_small by lia. lia.
    + rewrite wrapping_add_small by lia. split; [lia|]. do 2 f_equal. lia.
Qed.

(** From any point of the scan, a node that keeps to a chain lets it end: the
    chain may turn out to be another one than that of the blocks so far once. *)
Lemma scan_still chain (Hc : is_chain chain) k : ∀ fuel number parent_hash latest blocks net,
  (k + 2 + N.to_nat (latest_number - safe) ≤ fuel)%nat →
  latest_number + 1 = number + N.of_nat k →
  (k + 1 + N.to_nat (latest_number - safe) ≤ length (replies net))%nat →
  Forall (serves_chain chain latest_number) (replies net) →
  ∃ l net', scan fuel safe latest_number number parent_hash latest blocks net = (Ok l, net').
Proof.
  induction k as [|k IH]; intros fuel number parent_hash latest blocks net Hf Hk Hl Hs.
  - assert (¬ number ≤ latest_number) as Hn by lia.
    destruct fuel; simpl; rewrite decide_False by done; by do 2 eexists.
  - destruct fuel as [|fuel]; [lia|]. simpl. rewrite decide_True by lia.
    destruct (replies net) as [|reply rest] eqn:Hr; simpl in Hl; [lia|].
    inversion Hs as [|? ? Hreply Hrest]; subst.
    destruct (if decide (number = latest_number) then _ else _) as [cached latest'] eqn:Hcd.
    assert (∃ b net', (match cached with
        | Some block => io_ret block
        | None => require_block (IdNumber number)
        end) net = (Ok b, net') ∧
      (k + 1 + N.to_nat (latest_number - safe) ≤ length (replies net'))%nat ∧
      Forall (serves_chain chain latest_number) (replies net')) as (b & net' & Hb & Hl' & Hs').
    { destruct cached as [b|].
      - exists b, net. rewrite Hr. split_and!; [done|simpl; lia|done].
      - rewrite (require_block_served _ _ _ _ _ Hr (Hreply number ltac:(lia))).
        do 2 eexists. split_and!; [done|simpl; lia|done]. }
    unfold io_bind at 1. rewrite Hb.
    destruct (match parent_hash with None => true | Some _ => _ end).
    + apply IH; try done; [lia|]. rewrite wrapping_add_small by lia. lia.
    + apply (scan_chain chain Hc (N.to_nat (latest_number + 1 - safe))); try done; lia.
Qed.

(** Replies of other chains, before the node keeps to one, only delay it. *)
Lemma scan_settles chain (Hc : is_chain chain) pre : ∀ fuel number parent_hash latest blocks net,
  Forall (serves latest_number) pre →
  (length pre + 3 + 2 * N.to_nat (latest_number - safe) +
    match latest with Some _ => 1 | None => 0 end ≤ fuel)%nat →
  safe ≤ number → number ≤ latest_number + 1 →
  (∃ rest, replies net = pre ++ rest ∧ Forall (serves_chain chain latest_number) rest ∧
    (2 * N.to_nat (latest_number - safe) + 2 ≤ length rest)%nat) →
  ∃ l net', scan fuel safe latest_number number parent_hash latest blocks net = (Ok l, net').
Proof.
  induction pre as [|reply pre IH];
    intros fuel number parent_hash latest blocks net Hpre Hf Hn Hn' (rest & Hr & Hs & Hl).
  { apply (scan_still chain Hc (N.to_nat (latest_number + 1 - number)));
      rewrite ?Hr; simpl; try done; lia. }
  revert Hf. induction fuel as [|fuel IHf] in number, parent_hash, latest, blocks, Hn, Hn' |- *;
    intros Hf; simpl in Hf; [lia|].
  simpl. destruct (decide (number ≤ latest_number)); [|by do 2 eexists].
  inversion Hpre as [|? ? Hreply Hpre']; subst.
  destruct (if decide (number = latest_number) then _ else _) as [cached latest'] eqn:Hcd.
  destruct cached as [b|].
  - assert (latest = Some b ∧ latest' = None) as [-> ->] by (case_decide; by simplify_eq).
    unfold io_bind at 1, io_ret at 1. destruct (match parent_hash with None => true | _ => _ end).
    + apply IHf; rewrite ?wrapping_add_small by lia; simpl in *; lia.
    + apply IHf; simpl in *; lia.
  - destruct (Hreply number) as [b Hb]; [done|].
    unfold io_bind at 1. rewrite (require_block_served _ _ _ _ _ Hr Hb).
    assert (match latest' with Some _ => 1 | None => 0 end ≤
      match latest with Some _ => 1 | None => 0 end)%nat as Hlat.
    { case_decide; simplify_eq; [lia|done]. }
    destruct (match parent_hash with None => true | _ => _ end).
    + apply IH; rewrite ?wrapping_add_small by lia; try done; try lia.
      by exists rest.
    + apply IH; try done; try lia. by exists rest.
Qed.
End scanning.

(** ** The order of the updates

    What a consumer of the updates expects next: anything if it has nothing
    yet, or the block [p] and, in its place, an uncle below it. [accept] is the
    expectation after an update and its logs, if it may come then. *)
Definition accept (expected : option N) (update : BlockUpdate) : option (option N) :=
  match update, expected with
  | Warp from to, None => if decide (from ≤ to) then Some (Some (to + 1)) else None
  | Warp from to, Some p =>
      if decide (p = from ∧ from ≤ to) then Some (Some (to + 1)) else None
  | Uncle number, Some p => if decide (number < p) then Some (Some number) else None
  | Uncle _, None => None
  | New number _ _, None => Some (Some (number + 1))
  | New number _ _, Some p => if decide (p = number) then Some (Some (number + 1)) else None
  end.

Fixpoint accept_all (expected : option N) (us : list BlockUpdate) : option (option N) :=
  match us with
  | [] => Some expected
  | u :: us => expected ← accept expected u; accept_all expected us
  end.

(** The watcher's view of the chain: the recent blocks are a chain above the
    safe block, no longer than the reorg window, up to the pending block. *)
Record window_ok (w : BlockWatcher) : Prop := {
  ok_linked : linked (safe_number (watcher_safe w)) (safe_hash (watcher_safe w)) (recent w);
  ok_depth : N.of_nat (length (recent w)) ≤ max_reorg_depth (watcher_config w);
  ok_pending : pending_number (watcher_pending w) =
    safe_number (watcher_safe w) + N.of_nat (length (recent w)) + 1;
  ok_bounded : pending_number (watcher_pending w) ≤ u64_max;
  ok_good : Forall good (recent w);
}.

(** The new blocks come last in the queue, and are the last recent ones. *)
Definition queued_news (w : BlockWatcher) : Prop :=
  ∃ first k, updates w = first ++ (as_new <$> drop k (recent w)) ∧
    ∀ number hash bloom, New number hash bloom ∉ first.

(** The queued updates: what they stand for, and the order they come in. *)
Record queue_ok (expected : option N) (w : BlockWatcher) : Prop := {
  queued_warp from to : Warp from to ∈ updates w → to ≤ safe_number (watcher_safe w);
  queued_new : queued_news w;
  queued_order : ∃ last, accept_all expected (updates w) = Some last ∧
    (last = Some (pending_number (watcher_pending w)) ∨ (last = None ∧ recent w = []));
}.

Lemma accept_all_app expected us us' :
  accept_all expected (us ++ us') =
  expected ← accept_all expected us; accept_all expected us'.
Proof.
  revert expected. induction us as [|u us IH]; intros expected; [done|].
  simpl. destruct (accept expected u); simpl; auto.
Qed.

(** The updates of a chain of blocks come in order. *)
Lemma accept_chain expected number hash l :
  linked number hash l → expected = None ∨ expected = Some (number + 1) →
  accept_all expected (as_new <$> l) =
    Some (match l with [] => expected | _ => Some (number + N.of_nat (length l) + 1) end).
Proof.
  revert expected number hash. induction l as [|b l IH]; intros expected number hash Hl He; [done|].
  destruct Hl as (Hb & _ & Hl). cbn [fmap list_fmap accept_all].
  replace (accept expected (as_new b)) with (Some (Some (header_number b + 1))).
  2: { destruct He as [-> | ->]; simpl; [done|]. by rewrite decide_True. }
  cbn [mbind option_bind]. rewrite (IH _ _ _ Hl) by auto. simpl length.
  destruct l; f_equal; simpl length; f_equal; lia.
Qed.

(** The part of a chain from a number on. *)
Lemma linked_from number hash l from :
  linked number hash l →
  filter (λ b, from ≤ header_number b) l = drop (N.to_nat (from - (number + 1))) l.
Proof.
  revert number hash. induction l as [|b l IH]; intros number hash Hl; [by rewrite drop_nil|].
  pose proof Hl as (Hb & _ & Hl'). rewrite filter_cons. case_decide as Hle.
  - replace (N.to_nat _) with O by lia. simpl. f_equal. apply list_filter_all.
    intros c Hc. destruct (linked_elem _ _ _ _ Hl' Hc). lia.
  - rewrite (IH _ _ Hl').
    replace (N.to_nat (from - (number + 1)))
      with (S (N.to_nat (from - (header_number b + 1)))) by lia. done.
Qed.

(** The first block the watcher tells of. *)
Definition first_emitted (config : BlocksConfig) (indexed : option BlockStatus) : N :=
  match indexed with
  | Some indexed => status_safe indexed + 1
  | None => default 0 (start_block config)
  end.

Lemma emits_spec config indexed n :
  n < u64_max → Is_true (emits config indexed n) ↔ first_emitted config indexed ≤ n.
Proof.
  intros Hn. unfold emits, first_emitted.
  destruct indexed as [i|]; [|destruct (start_block config)]; simpl; [|by rewrite bool_decide_spec|].
  - unfold checked_add. case_decide; simpl; [by rewrite bool_decide_spec|]. split; [done|lia].
  - split; [lia|done].
Qed.

Definition expected_from (indexed : option BlockStatus) : option N :=
  (λ i, status_latest i + 1) <$> indexed.

(** A resume point of a state machine that is not at the end of the chain. *)
Definition resumable (indexed : option BlockStatus) : Prop :=
  ∀ i, indexed = Some i → status_safe i ≤ status_latest i ∧ status_latest i < u64_max.

(** The node's head is not behind the resume point, or the configured start. *)
Definition in_reach (config : BlocksConfig) (indexed : option BlockStatus) (latest : N) : Prop :=
  match indexed with
  | Some i => status_safe i ≤ latest
  | None => default 0 (start_block config) ≤ latest
  end.

Lemma initial_order config indexed safe hash blocks :
  let latest := safe + N.of_nat (length blocks) in
  linked safe hash blocks → latest < u64_max → resumable indexed →
  in_reach config indexed latest →
  ∃ last, accept_all (expected_from indexed)
    (initial_updates config indexed safe ++
      (as_new <$> filter (λ b, emits config indexed (header_number b)) blocks)) = Some last ∧
    (last = Some (latest + 1) ∨ (last = None ∧ blocks = [])).
Proof.
  intros latest Hl Hb Hi Hr. subst latest.
  rewrite (list_filter_ext _ (λ b, first_emitted config indexed ≤ header_number b)).
  2: { intros b Hin. apply emits_spec. destruct (linked_elem _ _ _ _ Hl Hin). lia. }
  rewrite (linked_from _ _ _ _ Hl), accept_all_app.
  set (k := N.to_nat _). pose proof Hl as Htail. rewrite <-(take_drop k blocks) in Htail.
  apply linked_app in Htail as [_ Htail].
  (* what the first updates lead to is what the rest continues *)
  assert (∃ e, accept_all (expected_from indexed) (initial_updates config indexed safe) = Some e ∧
    (e = None ∧ k = O ∨ e = None ∧ (k < length blocks)%nat ∨
     e = Some (safe + N.of_nat (length (take k blocks)) + 1))) as (e & -> & He).
  { rewrite length_take. unfold k, first_emitted. destruct indexed as [i|]; simpl in *.
    - destruct (Hi i eq_refl) as [Hle Hlt]. unfold checked_add. rewrite decide_True by lia.
      repeat (case_decide; simpl; try lia); (eexists; split; [done|]; right; right; f_equal; lia).
    - destruct (start_block config) as [s|]; simpl in *;
        repeat (case_decide; simpl; try lia); (eexists; split; [done|]);
        [right; right; f_equal; lia|right; left; split; [done|lia]|left; split; [done|lia]]. }
  cbn [mbind option_bind]. rewrite (accept_chain _ _ _ _ Htail) by naive_solver.
  eexists. split; [done|]. pose proof (length_drop blocks k) as Hd.
  assert (length (take k blocks) + length (drop k blocks) = length blocks)%nat as Htd
    by (rewrite <-length_app, take_drop; done).
  destruct (drop k blocks) as [|b l] eqn:Hdrop.
  - destruct He as [[-> Hk]|[[-> Hk]| ->]]; simpl in *; [|lia|].
    + right. split; [done|]. rewrite Hk in Hdrop. by rewrite drop_0 in Hdrop.
    + left. f_equal. lia.
  - left. f_equal. lia.
Qed.

Lemma initial_warp config indexed safe from to :
  Warp from to ∈ initial_updates config indexed safe → to ≤ safe.
Proof.
  unfold initial_updates. destruct indexed; [|destruct (start_block config)]; simpl;
    repeat (case_decide || destruct_match); set_solver.
Qed.

Lemma initial_new config indexed safe number hash bloom :
  New number hash bloom ∉ initial_updates config indexed safe.
Proof.
  unfold initial_updates. destruct indexed; [|destruct (start_block config)]; simpl;
    repeat (case_decide || destruct_match); set_solver.
Qed.

(** ** What the operations do *)

(** Only the time to poll at has changed. *)
Record waited (w w' : BlockWatcher) : Prop := {
  waited_config : watcher_config w' = watcher_config w;
  waited_pending : pending_number (watcher_pending w') = pending_number (watcher_pending w);
  waited_safe : watcher_safe w' = watcher_safe w;
  waited_recent : recent w' = recent w;
  waited_updates : updates w' = updates w;
}.

(** [next] returned an update: a queued one, a block that builds on the last
    one, or an uncle of the last one. *)
Inductive advanced (w : BlockWatcher) : BlockUpdate → BlockWatcher → Prop :=
  | advanced_queued u rest :
      updates w = u :: rest → advanced w u (with_updates rest w)
  | advanced_new b w' :
      updates w = [] → header_number b = pending_number (watcher_pending w) →
      good b →
      header_parent_hash b = tip (safe_hash (watcher_safe w)) (recent w) →
      watcher_config w' = watcher_config w → updates w' = [] →
      pending_number (watcher_pending w') = header_number b + 1 →
      (watcher_safe w' = watcher_safe w ∧ recent w' = recent w ++ [b] ∧
         N.of_nat (length (recent w')) ≤ max_reorg_depth (watcher_config w) ∨
       ∃ evicted, recent w ++ [b] = evicted :: recent w' ∧ watcher_safe w' = as_safe evicted) →
      advanced w (as_new b) w'
  | advanced_uncle last w' :
      updates w = [] → recent w = recent w' ++ [last] →
      watcher_safe w' = watcher_safe w → watcher_config w' = watcher_config w →
      updates w' = [] → pending_number (watcher_pending w') = header_number last →
      advanced w (Uncle (header_number last)) w'.

(** [revalidate_last_block] found the last emitted block, [last], uncled. *)
Record invalidated (w : BlockWatcher) (last : BlockHeader) (w' : BlockWatcher) : Prop := {
  invalid_config : watcher_config w' = watcher_config w;
  invalid_safe : watcher_safe w' = watcher_safe w;
  invalid_pending : pending_number (watcher_pending w') = header_number last;
  invalid_updates : updates w' = [Uncle (header_number last)];
  invalid_recent : ∃ tail, recent w = recent w' ++ last :: tail ∧
    match updates w with
    | [] => tail = []
    | New number _ _ :: _ =>
        header_number last < number ∧ ∀ b, b ∈ tail → number ≤ header_number b
    | _ => False
    end;
}.

Lemma waited_refl w : waited w w.
Proof. done. Qed.
#[local] Hint Resolve waited_refl : core.

Lemma waited_trans w1 w2 w3 : waited w1 w2 → waited w2 w3 → waited w1 w3.
Proof. intros [] []. split; congruence. Qed.

(** The watcher polls for the pending block until it is there. *)
Lemma await_pending_spec fuel w retry_count :
  io_spec (λ s, waited w s.1 ∧ node_ok s.2) (await_pending fuel retry_count)
    (λ b s, (waited w s.1 ∧ node_ok s.2) ∧
      header_number b = pending_number (watcher_pending w) ∧ good b)
    (λ e s, (waited w s.1 ∧ node_ok s.2) ∧ e ≠ Panicked ∧
      ∀ depth, e ≠ Failed (ExceededMaxReorgDepth depth)).
Proof.
  revert retry_count.
  induction fuel as [|fuel IH]; intros retry_count [w0 net] [Hw Hnet]; [by split_and!|].
  simpl in *. unfold io_bind, wait_for_pending_block, get_self, on_network; simpl.
  set (net1 := sleep_until _ net).
  assert (node_ok net1) as Hnet1 by (unfold serves_good, net1; by rewrite sleep_until_replies).
  pose proof (get_block_spec (IdNumber (pending_number (watcher_pending w0))) net1 Hnet1) as Hb.
  destruct (get_block _ net1) as [[[b|]|e] net2]; simpl.
  - destruct Hb as [Hnet2 Hb]. destruct (Hb b eq_refl) as [Hlt Hn].
    split; [done|]. split; [|done]. rewrite (Hn _ eq_refl). apply Hw.
  - destruct Hb as [Hnet2 _]. destruct (_ !! _) as [delay|]; simpl.
    + by apply IH.
    + apply IH. split; [|done]. destruct Hw. by split.
  - destruct Hb as (? & ? & ?). by split_and!.
Qed.

Lemma pop_back_if_Some {A} (p : A → bool) l x rest :
  pop_back_if p l = Some (x, rest) → l = rest ++ [x] ∧ p x = true.
Proof.
  unfold pop_back_if. destruct (last l) as [y|] eqn:Hl; [|done]. simpl.
  apply last_Some in Hl as [l' ->]. destruct (p y) eqn:Hp; [|done]. intros [= <- <-].
  rewrite length_app; simpl. replace (pred _) with (length l') by lia.
  by rewrite take_app_length.
Qed.

Lemma pop_back_if_None {A} (p : A → bool) l :
  pop_back_if p l = None → ∀ x, last l = Some x → p x = false.
Proof.
  unfold pop_back_if. destruct (last l) as [y|]; simpl; [|done].
  destruct (p y) eqn:Hp; [done|]. by intros _ x [= <-].
Qed.

Lemma extend_advanced w w1 b net :
  waited w w1 → updates w = [] →
  header_number b = pending_number (watcher_pending w) → good b →
  header_parent_hash b = tip (safe_hash (watcher_safe w)) (recent w) →
  ∃ w', extend b (w1, net) = (Ok (as_new b), (w', net)) ∧ advanced w (as_new b) w'.
Proof.
  intros Hw Hu Hn Hb Hp. pose proof (good_bounded b Hb). unfold extend, io_bind, get_self, set_self, io_ret; simpl.
  rewrite (waited_config _ _ Hw), (waited_recent _ _ Hw), (waited_safe _ _ Hw).
  assert (updates w1 = []) as Hu1 by (rewrite (waited_updates _ _ Hw); done).
  pose proof (waited_config _ _ Hw) as Hc. case_decide as Hd.
  - destruct (recent w ++ [b]) as [|evicted rest] eqn:Hr; [by destruct (recent w)|].
    simpl. eexists. split; [done|].
    apply advanced_new; simpl; try done; [by rewrite wrapping_add_small by lia|].
    right. by exists evicted.
  - simpl. eexists. split; [done|].
    apply advanced_new; simpl; try done; [by rewrite wrapping_add_small by lia|].
    left. split_and!; [done..|]. lia.
Qed.

Lemma next_block_update_spec w :
  io_spec (λ s, s.1 = w ∧ node_ok s.2) next_block_update
    (λ u s, advanced w u s.1 ∧ node_ok s.2)
    (λ e s, waited w s.1 ∧ node_ok s.2 ∧ e ≠ Panicked ∧
      ∀ depth, e = Failed (ExceededMaxReorgDepth depth) → updates w = [] ∧ recent w = []).
Proof.
  intros [w0 net] [Heq Hnet]; simpl in Heq, Hnet; subst w0.
  unfold next_block_update. unfold io_bind at 1, get_self at 1. simpl.
  destruct (updates w) as [|u rest] eqn:Hu; [|simpl; split; [by constructor|done]].
  pose proof (await_pending_spec (1 + length (replies net)) w 0 (w, net)
    (conj (waited_refl w) Hnet)) as Hawait.
  unfold io_bind at 1, fetch_pending. simpl snd.
  destruct (await_pending _ 0 (w, net)) as [[b|e] [w1 net1]]; simpl in Hawait.
  2: { destruct Hawait as [[Hw Hnet1] He]. simpl. split_and!; try done; [apply He|].
       intros depth ->. by destruct (proj2 He depth). }
  destruct Hawait as ([Hw Hnet1] & Hn & Hlt).
  unfold io_bind at 1, get_self; simpl. rewrite (waited_recent _ _ Hw).
  destruct (pop_back_if _ (recent w)) as [[last rest]|] eqn:Hpop.
  - apply pop_back_if_Some in Hpop as [Hr _]. simpl. split; [|done].
    apply advanced_uncle; simpl; try done; try apply Hw; by rewrite (waited_updates _ _ Hw).
  - rewrite (waited_safe _ _ Hw), (waited_config _ _ Hw).
    assert (recent w = [] ∨ header_parent_hash b = tip (safe_hash (watcher_safe w)) (recent w))
      as Htip.
    { unfold tip. destruct (list.last (recent w)) as [tip|] eqn:Hl; simpl.
      - right. apply (pop_back_if_None _ _ Hpop) in Hl. apply bool_decide_eq_false in Hl.
        symmetry. by apply dec_stable.
      - left. by apply last_None. }
    destruct (bool_decide (recent w = []) && _) eqn:Hdeep; simpl.
    + apply andb_true_iff in Hdeep as [->%bool_decide_eq_true _]. by split_and!.
    + edestruct (extend_advanced w w1 b net1) as (w' & -> & ?); try done.
      destruct Htip as [Hr|]; [|done]. rewrite Hr in Hdeep |- *. unfold tip; simpl.
      apply andb_false_iff in Hdeep as [Hd|Hd]; apply bool_decide_eq_false in Hd; [done|].
      symmetry. by apply dec_stable.
Qed.

Abbreviation revalidated w := (λ found s, node_ok s.2 ∧
  match found with
  | None => s.1 = w
  | Some block => ∃ last, invalidated w last s.1 ∧
      block = {| invalidated_number := header_number last;
                 invalidated_hash := header_hash last |}
  end).
Abbreviation unchanged w :=
  (λ (e : Interrupt BlocksError) s, s.1 = w ∧ node_ok s.2 ∧ e ≠ Panicked).

Lemma revalidate_before_spec w next_number :
  match updates w with
  | [] => next_number = None
  | New number _ _ :: _ => next_number = Some number
  | _ => False
  end →
  io_spec (λ s, s.1 = w ∧ node_ok s.2) (revalidate_before next_number)
    (revalidated w) (unchanged w).
Proof.
  intros Hnext [w0 net] [Heq Hnet]; simpl in Heq, Hnet; subst w0.
  unfold revalidate_before. unfold io_bind at 1, get_self at 1. simpl.
  destruct (rposition _ _) as [i|] eqn:Hi; [|done].
  apply rposition_Some in Hi as (last & Hlast & Hbefore & Htail). rewrite Hlast.
  unfold io_bind at 1, on_network at 1; simpl.
  pose proof (get_block_spec (IdNumber (header_number last)) net Hnet) as Hb.
  destruct (get_block _ net) as [[b|e] net']; simpl; [|by destruct Hb as (? & ? & ?)].
  destruct Hb as [Hnet' _]. case_decide; simpl; [done|]. split; [done|].
  exists last. split; [|done]. split; simpl; try done.
  exists (drop (S i) (recent w)). split; [by rewrite take_drop_middle|].
  destruct (updates w) as [|[| |number hash bloom] rest]; try done; rewrite Hnext in *.
  - destruct (drop (S i) (recent w)) as [|c l] eqn:Hd; [done|].
    assert (recent w !! S i = Some c) as Hc by (rewrite <-(Nat.add_0_r (S i)),
      <-lookup_drop, Hd; done).
    by specialize (Htail (S i) c ltac:(lia) Hc).
  - split; [by apply bool_decide_eq_true in Hbefore|].
    intros c [j Hj]%list_elem_of_lookup. rewrite lookup_drop in Hj.
    specialize (Htail (S i + j)%nat c ltac:(lia) Hj).
    apply bool_decide_eq_false in Htail. lia.
Qed.

Lemma revalidate_last_block_spec w :
  io_spec (λ s, s.1 = w ∧ node_ok s.2) revalidate_last_block (revalidated w) (unchanged w).
Proof.
  intros [w0 net] [Heq Hnet]; simpl in Heq, Hnet; subst w0.
  unfold revalidate_last_block. unfold io_bind at 1, get_self at 1. simpl.
  destruct (updates w) as [|[| |number hash bloom] rest] eqn:Hu; try done;
    (apply revalidate_before_spec; [by rewrite Hu|done]).
Qed.

Record initialized (config : BlocksConfig) (indexed : option BlockStatus) (w : BlockWatcher)
    : Prop := {
  init_config : watcher_config w = config;
  init_window : window_ok w;
  init_queue : resumable indexed → in_reach config indexed (status_latest (watcher_status w)) →
    queue_ok (expected_from indexed) w;
  init_updates : queued_news w;
  init_exact : updates w =
    initial_updates config indexed (safe_number (watcher_safe w)) ++
    (as_new <$> filter (λ block, emits config indexed (header_number block)) (recent w));
}.

Lemma initialize_spec config indexed w0 :
  watcher_config w0 = config → updates w0 = [] →
  io_spec (λ s, s.1 = w0 ∧ node_ok s.2) (initialize indexed)
    (λ _ s, initialized config indexed s.1 ∧ node_ok s.2)
    (λ e s, e ≠ Panicked ∧ node_ok s.2).
Proof.
  intros Hc Hu [w net] [Heq Hnet]; simpl in Heq, Hnet; subst w config.
  unfold initialize. unfold io_bind at 1, get_self at 1; simpl.
  unfold io_bind at 1, on_network at 1; simpl.
  pose proof (require_block_spec IdLatest net Hnet) as Hlatest.
  destruct (require_block IdLatest net) as [[latest|e] net1]; [|naive_solver].
  destruct Hlatest as [Hnet1 [Hlatest _]]. pose proof (good_bounded _ Hlatest) as Hlt. simpl.
  set (safe := saturating_sub _ _).
  assert (safe ≤ header_number latest ∧ header_number latest - safe ≤
    max_reorg_depth (watcher_config w0)) as [Hsafe Hdepth]
    by (unfold safe, saturating_sub; lia).
  unfold io_bind at 1, on_network at 1; simpl.
  pose proof (scan_spec (2 + length (replies net1)) safe (header_number latest) safe None
    (Some latest) [] Hsafe Hlt ltac:(lia) ltac:(by intros ? [= <-]) ltac:(done)
    ltac:(simpl; lia) I eq_refl net1 Hnet1) as Hscan. fold (full_scan safe latest net1) in Hscan.
  destruct (full_scan safe latest net1) as [[blocks|e] net2]; [|naive_solver].
  destruct Hscan as (Hnet2 & Hs & Hg & Hlen). simpl.
  destruct blocks as [|b l]; simpl in *; [lia|]. destruct Hs as [Hb Hl]. split; [|done].
  apply Forall_cons in Hg as [_ Hg].
  rewrite Hu. simpl.
  assert (window_ok (with_blocks (as_safe b) l
    (update_next_pending_block (header_number latest) (header_timestamp latest) w0))) as Hw.
  { split; simpl; [by rewrite Hb|lia| | |done]; rewrite wrapping_add_small by lia; lia. }
  destruct Hw as [Hw1 Hw2 Hw3 Hw4 Hw5].
  assert (∃ k, filter (λ block, emits (watcher_config w0) indexed (header_number block)) l =
    drop k l) as [k Hk].
  { eexists. rewrite <-(linked_from _ _ _ (first_emitted (watcher_config w0) indexed) Hl).
    apply list_filter_ext. intros c Hin. apply emits_spec.
    destruct (linked_elem _ _ _ _ Hl Hin). lia. }
  split; simpl; [done|by split| | |by rewrite Hb].
  - rewrite wrapping_add_small, N.add_sub by lia. intros Hi Hr. split; simpl.
    + intros from to [Hin|(? & ? & _)%list_elem_of_fmap]%elem_of_app; [|done].
      apply initial_warp in Hin. lia.
    + exists (initial_updates (watcher_config w0) indexed safe), k. rewrite Hk.
      split; [done|]. intros. apply initial_new.
    + rewrite wrapping_add_small by lia.
      destruct (initial_order (watcher_config w0) indexed safe (header_hash b) l)
        as (last & ? & Hlast); try done; try lia.
      * replace (safe + N.of_nat (length l)) with (header_number latest) by lia. done.
      * exists last. split; [done|].
        replace (safe + N.of_nat (length l)) with (header_number latest) in Hlast by lia. done.
  - exists (initial_updates (watcher_config w0) indexed safe), k. rewrite Hk.
    split; [done|]. intros. apply initial_new.
Qed.

Lemma BlockWatcher_new_spec chain_id config indexed :
  io_spec node_ok (BlockWatcher_new chain_id config indexed)
    (λ w net, initialized config indexed w ∧ node_ok net)
    (λ e net, e ≠ Panicked ∧ node_ok net).
Proof.
  unfold BlockWatcher_new. eapply io_spec_bind with (Q := λ _ net, node_ok net).
  - intros net Hnet. unfold io_lift. by destruct (resolve _ _).
  - intros block_time net Hnet. set (w0 := Build_BlockWatcher _ _ _ _ _ _).
    pose proof (initialize_spec config indexed w0 eq_refl eq_refl (w0, net) (conj eq_refl Hnet)).
    by destruct (initialize indexed (w0, net)) as [[[]|e] [w net']].
Qed.

(** ** Preservation *)

Lemma waited_window w w' : window_ok w → waited w w' → window_ok w'.
Proof. intros [] [? ? ? Hr]. split; congruence. Qed.

Lemma waited_queue e w w' : queue_ok e w → waited w w' → queue_ok e w'.
Proof.
  intros [H1 H2 H3] [Hc Hp Hs Hr Hu].
  split; [rewrite Hu, Hs|unfold queued_news; rewrite Hu, Hr|rewrite Hu, Hp, Hr]; auto.
Qed.

Lemma advanced_window w u w' : window_ok w → advanced w u w' → window_ok w'.
Proof.
  intros [Hl Hd Hp Hb Hg] Hadv.
  destruct Hadv as [u rest Hu|b w' Hu Hn Hbg Hpar Hc Hu' Hp' [(Hs & Hr & Hle)|(evicted & Hr & Hs)]
    |last w' Hu Hr Hs Hc Hu' Hp']; [by split| |
    |rewrite Hr in Hg; apply Forall_app in Hg as [Hg _]];
    try (pose proof (good_bounded _ Hbg) as Hlt;
      assert (Forall good (recent w ++ [b])) as Hg' by
        (apply Forall_app; split; [done|by apply Forall_singleton])).
  - split; rewrite ?Hs, ?Hr, ?Hc; [|by rewrite <-Hr|rewrite length_app; simpl; lia|lia|done].
    apply linked_snoc. split_and!; [done|lia|done].
  - assert (linked (safe_number (watcher_safe w)) (safe_hash (watcher_safe w))
      (recent w ++ [b])) as Hlink by (apply linked_snoc; split_and!; [done|lia|done]).
    assert (length (recent w ++ [b]) = S (length (recent w'))) as Hlen by by rewrite Hr.
    rewrite length_app in Hlen; simpl in Hlen.
    rewrite Hr in Hlink, Hg'. destruct Hlink as (He & _ & Hlink).
    apply Forall_cons in Hg' as [_ Hg'].
    split; rewrite ?Hs, ?Hc; simpl; [done|lia|lia|lia|done].
  - rewrite Hr in Hl, Hd, Hp. apply linked_snoc in Hl as (Hl & Hn & _).
    rewrite length_app in *; simpl in *.
    split; rewrite ?Hs, ?Hc; [done|lia|lia|lia|done].
Qed.

Lemma with_updates_window w q : window_ok w → window_ok (with_updates q w).
Proof. intros []. by split. Qed.

(** After the queue has been emptied, the pending block is what comes next. *)
Lemma queue_empty expected w :
  queue_ok expected w → updates w = [] →
  expected = Some (pending_number (watcher_pending w)) ∨ (expected = None ∧ recent w = []).
Proof. intros [_ _ (last & Hl & Hlast)] Hu. rewrite Hu in Hl. by simplify_eq/=. Qed.

Lemma empty_queue_ok w expected :
  updates w = [] → expected = Some (pending_number (watcher_pending w)) → queue_ok expected w.
Proof.
  intros Hu ->. split; unfold queued_news; rewrite Hu.
  - intros from to H. by apply elem_of_nil in H.
  - exists [], (length (recent w)). rewrite drop_all. split; [done|].
    intros number hash bloom H. by apply elem_of_nil in H.
  - eexists. split; [done|]. by left.
Qed.

Lemma advanced_config w u w' : advanced w u w' → watcher_config w' = watcher_config w.
Proof. by intros []. Qed.

Lemma advanced_news w u w' : queued_news w → advanced w u w' → queued_news w'.
Proof.
  intros (first & k & Hu & Hfirst) Hadv.
  assert (∀ w1, updates w1 = [] → queued_news w1) as Hempty.
  { intros w1 H1. exists [], (length (recent w1)). rewrite H1, drop_all.
    split; [done|]. intros n h l Hin. by apply elem_of_nil in Hin. }
  destruct Hadv as [u rest Hu'| |]; [|by apply Hempty..].
  rewrite Hu' in Hu. destruct first as [|u' first]; simplify_eq/=.
  - exists [], (S k). destruct (drop k (recent w)) as [|b l] eqn:Hd; simplify_eq/=.
    replace (S k) with (k + 1)%nat by lia. rewrite <-drop_drop, Hd. split; [done|].
    intros n h bl H. by apply elem_of_nil in H.
  - exists first, k. split; [done|]. intros n h l Hin. apply (Hfirst n h l). by right.
Qed.

Lemma advanced_queue expected w u w' :
  window_ok w → queue_ok expected w → advanced w u w' →
  ∃ expected', accept expected u = Some expected' ∧ queue_ok expected' w'.
Proof.
  intros Hw Hq Hadv.
  destruct Hadv as [u rest Hu|b w' Hu Hn Hlt Hpar Hc Hu' Hp' Hsafe|last w' Hu Hr Hs Hc Hu' Hp'].
  - destruct Hq as [H1 H2 (e & H4 & H5)]. rewrite Hu in H1, H4. simpl in H4.
    destruct (accept expected u) as [e'|] eqn:He; [|done]. exists e'. split; [done|].
    split; simpl.
    + intros from to Hin. apply (H1 from to). by right.
    + eapply advanced_news; [done|]. by apply advanced_queued.
    + by exists e.
  - apply (queue_empty _ _ Hq) in Hu as [-> | [-> Hr]].
    + exists (Some (header_number b + 1)). split; [by simpl; rewrite decide_True|].
      by apply empty_queue_ok; [|f_equal].
    + exists (Some (header_number b + 1)). split; [done|].
      by apply empty_queue_ok; [|f_equal].
  - apply (queue_empty _ _ Hq) in Hu as [-> | [-> Hr']]; [|by rewrite Hr' in Hr; destruct (recent w')].
    exists (Some (header_number last)). destruct Hw as [Hl _ Hp _]. rewrite Hr in Hl, Hp.
    apply linked_snoc in Hl as (_ & Hn & _). rewrite length_app in Hp; simpl in Hp.
    split; [by simpl; rewrite decide_True by lia|]. by apply empty_queue_ok; [|f_equal].
Qed.

Lemma linked_number_inj number hash l b b' :
  linked number hash l → b ∈ l → b' ∈ l → header_number b = header_number b' → b = b'.
Proof.
  intros Hl [i Hi]%list_elem_of_lookup [j Hj]%list_elem_of_lookup Heq.
  rewrite (linked_lookup _ _ _ _ _ Hl Hi), (linked_lookup _ _ _ _ _ Hl Hj) in Heq.
  replace j with i in Hj by lia. congruence.
Qed.

(** The block of a new update is the one the watcher holds under its number. *)
Lemma advanced_held expected w number hash bloom w' b :
  window_ok w → queue_ok expected w → advanced w (New number hash bloom) w' →
  b ∈ recent w' → header_number b = number → header_hash b = hash.
Proof.
  remember (New number hash bloom) as u eqn:Hnew.
  intros Hw Hq Hadv Hin Hnum. pose proof (advanced_window _ _ _ Hw Hadv) as [Hl' _ _ _].
  subst number.
  destruct Hadv as [u rest Hu| b' w' Hu Hn Hlt Hpar Hc Hu' Hp' Hsafe|]; [subst u| |done].
  - destruct Hq as [_ (first & k & H2 & H3) _]. rewrite Hu in H2.
    destruct first as [|u' first]; simplify_eq/=.
    2: { exfalso. eapply H3. left. }
    destruct (drop k (recent w)) as [|c l] eqn:Hd; simplify_eq/=.
    assert (c ∈ recent w) as Hc.
    { rewrite <-(take_drop k (recent w)), Hd. set_solver. }
    match goal with E : New _ _ _ = as_new c |- _ => injection E as ? ? ? end. subst hash.
    by rewrite (linked_number_inj _ _ _ _ _ Hl' Hin Hc ltac:(congruence)).
  - injection Hnew as Hnum' <- _. destruct Hsafe as [(_ & Hr & _)|(evicted & Hr & _)].
    + assert (b' ∈ recent w') as Hb' by (rewrite Hr; set_solver).
      by rewrite (linked_number_inj _ _ _ _ _ Hl' Hin Hb' ltac:(congruence)).
    + destruct (recent w') as [|c l] using rev_ind; [by apply elem_of_nil in Hin|].
      assert (c = b') as ->.
      { rewrite app_comm_cons in Hr. by apply app_inj_2 in Hr as [_ [= ->]]. }
      assert (b' ∈ l ++ [b']) as Hb' by set_solver.
      by rewrite (linked_number_inj _ _ _ _ _ Hl' Hin Hb' ltac:(congruence)).
Qed.

Lemma invalidated_linked w last w' :
  window_ok w → invalidated w last w' →
  linked (safe_number (watcher_safe w)) (safe_hash (watcher_safe w)) (recent w') ∧
  header_number last = safe_number (watcher_safe w) + N.of_nat (length (recent w')) + 1.
Proof.
  intros [Hl _ _ _] [_ _ _ _ (tail & Hr & _)]. rewrite Hr, cons_middle, app_assoc in Hl.
  apply linked_app in Hl as [Hl _]. by apply linked_snoc in Hl as (? & ? & _).
Qed.

Lemma invalidated_window w last w' :
  window_ok w → invalidated w last w' → window_ok w'.
Proof.
  intros Hw Hi. destruct (invalidated_linked _ _ _ Hw Hi) as [Hl Hn].
  destruct Hw as [_ Hd Hp Hb Hg], Hi as [Hc Hs Hp' _ (tail & Hr & _)].
  rewrite Hr, length_app in Hd, Hp; simpl in Hd, Hp. rewrite Hr in Hg.
  apply Forall_app in Hg as [Hg _].
  split; rewrite ?Hs, ?Hc; [done|lia|lia|lia|done].
Qed.

(** The invalidated block is the one below the expected block. *)
Lemma invalidated_last p w last w' :
  window_ok w → queue_ok (Some p) w → invalidated w last w' → header_number last + 1 = p.
Proof.
  intros Hw Hq Hi. destruct (invalidated_linked _ _ _ Hw Hi) as [_ Hn].
  destruct Hi as [_ _ _ _ (tail & Hr & Htail)]. pose proof Hw as [Hl _ Hp _].
  destruct (updates w) as [|[| |number hash bloom] rest] eqn:Hu; try done.
  - subst tail. destruct (queue_empty _ _ Hq Hu) as [[= ->]|[? _]]; [|done].
    rewrite Hp, Hr, length_app; simpl. lia.
  - destruct Hq as [_ (first & k & H2 & H3) (e & H4 & _)]. rewrite Hu in H2, H4. simpl in H4.
    case_decide as Hpn; simpl in H4; [subst number|done]. destruct Htail as [Hlt Hge].
    rewrite Hr, cons_middle, app_assoc in Hl. apply linked_app in Hl as [_ Hl].
    rewrite length_app in Hl; simpl in Hl. destruct tail as [|c tail].
    + destruct first as [|u first]; simplify_eq/=; [|exfalso; eapply H3; left].
      destruct (drop k (recent w)) as [|c l] eqn:Hd; simplify_eq/=.
      assert (c ∈ recent w) as Hc by (rewrite <-(take_drop k (recent w)), Hd; set_solver).
      destruct (linked_elem _ _ _ _ (ok_linked w Hw) Hc) as [_ Hle].
      match goal with E : New _ _ _ = as_new c |- _ => injection E as ? ? ? end.
      rewrite Hr, length_app in Hle; simpl in Hle. lia.
    + destruct Hl as [Hc _]. specialize (Hge c ltac:(left)). lia.
Qed.

Lemma invalidated_queue p w last w' :
  window_ok w → queue_ok (Some p) w → invalidated w last w' → queue_ok (Some p) w'.
Proof.
  intros Hw Hq Hi. pose proof (invalidated_last _ _ _ _ Hw Hq Hi) as Hp.
  destruct Hi as [_ _ Hp' Hu _]. split; unfold queued_news; rewrite Hu.
  - intros from to Hin. by apply list_elem_of_singleton in Hin.
  - exists [Uncle (header_number last)], (length (recent w')). rewrite drop_all.
    split; [done|]. intros number hash bloom Hin. by apply list_elem_of_singleton in Hin.
  - simpl. rewrite decide_True by lia. eexists. split; [done|]. left. by rewrite Hp'.
Qed.

(** Nothing is invalidated while the queue is warped over. *)
Lemma warping_not_invalidated to w last w' :
  window_ok w → queue_ok (Some (to + 1)) w → to ≤ safe_number (watcher_safe w) →
  ¬ invalidated w last w'.
Proof.
  intros Hw Hq Hto Hi. pose proof (invalidated_last _ _ _ _ Hw Hq Hi).
  destruct (invalidated_linked _ _ _ Hw Hi) as [_ Hn]. lia.
Qed.

(** The safe block never goes back, and uncles stay above it. *)
Lemma advanced_safe w u w' :
  window_ok w → advanced w u w' →
  safe_number (watcher_safe w) ≤ safe_number (watcher_safe w') ∧
  (safe_number (watcher_safe w) = safe_number (watcher_safe w') →
     watcher_safe w = watcher_safe w') ∧
  (updates w = [] → ∀ number, u = Uncle number → safe_number (watcher_safe w) < number).
Proof.
  intros Hw Hadv. pose proof (advanced_window _ _ _ Hw Hadv) as Hw'.
  destruct Hadv as [u rest Hu|b w' Hu Hn Hlt Hpar Hc Hu' Hp' [(Hs & Hr & Hle)|(evicted & Hr & Hs)]
    |last w' Hu Hr Hs Hc Hu' Hp']; simpl.
  - split_and!; [done..|]. intros Hu'. congruence.
  - rewrite Hs. by split_and!.
  - assert (linked (safe_number (watcher_safe w)) (safe_hash (watcher_safe w))
      (evicted :: recent w')) as Hl.
    { rewrite <-Hr. apply linked_snoc. split_and!; [apply Hw|destruct Hw; lia|done]. }
    destruct Hl as [He _]. rewrite Hs; simpl. split_and!; [lia|lia|done].
  - rewrite Hs. split_and!; [done..|]. intros _ number [= <-].
    destruct Hw as [Hl _ _ _]. rewrite Hr in Hl. apply linked_snoc in Hl. lia.
Qed.
End watcher.
Arguments window_ok good w : clear implicits.
Arguments initialized good config indexed w : clear implicits.
Arguments advanced good w u w' : clear implicits.
