(* ===== verification/BlocksFollow.v ===== *)
(** * Following the chain

    Runs of the block watcher: whatever the node answers, the blocks its
    updates leave a consumer with are one hash-linked chain, reorgs stay within
    the window, initialization ends once the node holds still, and the node is
    polled at a bounded rate. *)

From S2P Require Import Prelude.
From S2P Require Import Bytes.
From S2P Require Import Core.
From S2P Require Import Provider.
From S2P Require Import Blocks.
From S2P Require Import BlocksInvariant.

Open Scope safenet_scope.

(** ** Runs *)

Inductive BlockCall := CallNext | CallRevalidate.

(** A call, with the clock and the node as it finds them; the update it returns,
    if any. *)
Definition block_call (w : BlockWatcher) (call : BlockCall * Network)
    : list BlockUpdate * BlockWatcher :=
  match call.1 with
  | CallNext =>
      let '(r, (w, _)) := next_block_update (w, call.2) in
      (match r with Ok u => [u] | Err _ => [] end, w)
  | CallRevalidate => let '(_, (w, _)) := revalidate_last_block (w, call.2) in ([], w)
  end.

Definition follow (w : BlockWatcher) (calls : list (BlockCall * Network))
    : list BlockUpdate * BlockWatcher :=
  foldl (λ '(us, w) call, let '(us', w) := block_call w call in (us ++ us', w)) ([], w) calls.

Lemma follow_snoc w calls call :
  follow w (calls ++ [call]) =
  let '(us, w1) := follow w calls in
  let '(us', w2) := block_call w1 call in (us ++ us', w2).
Proof. unfold follow. rewrite foldl_app. by destruct (foldl _ _ calls). Qed.

(** The blocks a consumer of the updates holds, by number and hash. *)
Definition view_apply (view : list (N * B256)) (u : BlockUpdate) : list (N * B256) :=
  match u with
  | Warp _ _ => view
  | Uncle number => filter (λ b, b.1 < number) view
  | New number hash _ => view ++ [(number, hash)]
  end.
Definition view (us : list BlockUpdate) : list (N * B256) := foldl view_apply [] us.

Definition block_key (b : BlockHeader) : N * B256 := (header_number b, header_hash b).

Lemma view_news v l :
  foldl view_apply v (as_new <$> l) = v ++ (block_key <$> l).
Proof.
  revert v. induction l as [|b l IH]; intros v; simpl; [by rewrite app_nil_r|].
  rewrite IH, <-app_assoc. done.
Qed.

Lemma view_first first :
  (∀ number hash bloom, New number hash bloom ∉ first) → view first = [].
Proof.
  unfold view. induction first as [|u first IH] using rev_ind; intros Hf; [done|].
  rewrite foldl_app. simpl. rewrite IH.
  - destruct u as [| |n h bl]; simpl; try done.
    destruct (Hf n h bl). apply elem_of_app. right. left.
  - intros n h l Hin. apply (Hf n h l). apply elem_of_app. by left.
Qed.

(** Cutting a chain at a number. *)
Lemma linked_cut number hash l l' k cut :
  linked number hash (l ++ l') →
  (∀ b, b ∈ l' → cut ≤ header_number b) → cut = number + N.of_nat (length l) + 1 →
  filter (λ b, b.1 < cut) (block_key <$> drop k (l ++ l')) = block_key <$> drop k l.
Proof.
  intros [Hl _]%linked_app Hl' Hcut. rewrite drop_app, fmap_app, filter_app.
  rewrite list_filter_all.
  - rewrite list_filter_none; [apply app_nil_r|].
    intros b (c & -> & Hc)%list_elem_of_fmap. simpl.
    assert (c ∈ l') as Hin by (rewrite <-(take_drop (k - length l) l'); set_solver).
    specialize (Hl' c Hin). lia.
  - intros b (c & -> & Hc)%list_elem_of_fmap. simpl.
    assert (c ∈ l) as Hin by (rewrite <-(take_drop k l); set_solver).
    destruct (linked_elem _ _ _ _ Hl Hin). lia.
Qed.

(** ** What a run maintains *)

(** The node's block numbers are below the last [u64]. *)
Definition bounded_block (b : BlockHeader) : Prop := header_number b < u64_max.
#[export] Instance bounded_block_bounded : Bounded bounded_block.
Proof. by intros b. Qed.
Definition node_ok (net : Network) : Prop := serves_good bounded_block net.
Arguments node_ok /.

Section follows.
Context {good : BlockHeader → Prop} `{!Bounded good}.

(** The consumer, once it has the queued updates, holds the end of one chain:
    the blocks that became safe since the start, then the recent ones. *)
Record follows (config : BlocksConfig) (safe : SafeBlock) (v : list (N * B256))
    (w : BlockWatcher) : Prop := {
  follows_config : watcher_config w = config;
  follows_window : window_ok good w;
  follows_news : queued_news w;
  follows_chain : ∃ past k,
    linked (safe_number safe) (safe_hash safe) (past ++ recent w) ∧
    tip (safe_hash safe) past = safe_hash (watcher_safe w) ∧
    safe_number safe + N.of_nat (length past) = safe_number (watcher_safe w) ∧
    foldl view_apply v (updates w) = block_key <$> drop k (past ++ recent w);
}.

Lemma waited_follows config safe v w w' : follows config safe v w → waited w w' → follows config safe v w'.
Proof.
  intros [Hconf Hw Hn Hc] Hwait.
  split; [by rewrite (waited_config _ _ Hwait)|by eapply waited_window| |].
  - unfold queued_news. by rewrite (waited_updates _ _ Hwait), (waited_recent _ _ Hwait).
  - by rewrite (waited_updates _ _ Hwait), (waited_recent _ _ Hwait), (waited_safe _ _ Hwait).
Qed.

Lemma advanced_follows config safe v w u w' :
  follows config safe v w → advanced good w u w' → follows config safe (view_apply v u) w'.
Proof.
  intros [Hconf Hw Hnews (past & k & Hl & Ht & Hs & Hv)] Hadv.
  split; [|by eapply advanced_window|by eapply advanced_news|].
  { destruct Hadv; simpl; congruence. }
  destruct Hadv as [u rest Hu|b w' Hu Hn Hlt Hpar Hc Hu' Hp' Hcase
    |last w' Hu Hr Hs' Hc Hu' Hp'].
  - exists past, k. rewrite Hu in Hv. by split_and!.
  - rewrite Hu in Hv. rewrite Hu'. simpl in *.
    set (chain := past ++ recent w) in *.
    assert (v ++ [block_key b] = block_key <$> drop (k `min` length chain) (chain ++ [b])) as Hv'.
    { rewrite Hv, drop_app_le by lia. rewrite fmap_app; simpl. f_equal.
      destruct (Nat.min_spec k (length chain)) as [[_ ->]|[? ->]]; [done|].
      rewrite drop_all, drop_ge by lia. done. }
    assert (linked (safe_number safe) (safe_hash safe) (chain ++ [b])) as Hl'.
    { apply linked_snoc. split_and!; [done| |].
      - rewrite Hn, (ok_pending w Hw). unfold chain. rewrite length_app. lia.
      - rewrite Hpar, <-Ht. unfold chain, tip.
        rewrite last_app. by destruct (list.last (recent w)). }
    destruct Hcase as [(-> & Hr & _)|(evicted & Hr & ->)].
    + exists past, (k `min` length chain)%nat. rewrite Hr, app_assoc. by split_and!.
    + exists (past ++ [evicted]), (k `min` length chain)%nat.
      rewrite <-app_assoc; simpl. rewrite <-Hr. rewrite app_assoc. fold chain.
      split_and!; [done|by rewrite tip_snoc| |done].
      unfold chain in Hl'. rewrite <-app_assoc, Hr in Hl'.
      apply linked_app in Hl' as [_ [He _]]. rewrite length_app; simpl. lia.
  - rewrite Hu in Hv. rewrite Hu'. simpl in *. exists past, k. rewrite Hs'.
    rewrite Hr, app_assoc in Hl, Hv.
    pose proof Hl as (Hl1 & Hnum & _)%linked_snoc. split_and!; [done..|].
    rewrite Hv. eapply linked_cut; [done| |lia]. intros c ->%list_elem_of_singleton. done.
Qed.

Lemma invalidated_follows config safe v w last w' :
  follows config safe v w → invalidated w last w' → follows config safe v w'.
Proof.
  intros [Hconf Hw Hnews (past & k & Hl & Ht & Hs & Hv)] Hi.
  destruct (invalidated_linked _ _ _ Hw Hi) as [_ Hn].
  split; [by rewrite (invalid_config _ _ _ Hi)|by eapply invalidated_window| |].
  - exists [Uncle (header_number last)], (length (recent w')).
    rewrite (invalid_updates _ _ _ Hi), drop_all. split; [done|].
    intros n h bl Hin. by apply list_elem_of_singleton in Hin.
  - destruct Hi as [_ Hs' _ Hu' (tail & Hr & Htail)]. rewrite Hu', Hs'. simpl.
    exists past, k. rewrite Hr, app_assoc in Hl, Hv.
    pose proof Hl as [Hl1 Hl2]%linked_app. split_and!; [done..|].
    rewrite <-(linked_cut _ _ _ _ k (header_number last) Hl).
    2: { intros b Hb. destruct Hl2 as (_ & _ & Hl2).
         apply elem_of_cons in Hb as [->|Hb]; [done|].
         destruct (linked_elem _ _ _ _ Hl2 Hb). lia. }
    2: { rewrite length_app. lia. }
    rewrite <-Hv. destruct (updates w) as [|[| |number hash bloom] rest] eqn:Hu; try done.
    destruct Hnews as (first & j & Hj & Hfirst).
    rewrite Hu in Hj. destruct first as [|u first].
    2: { injection Hj as <- _. exfalso. eapply Hfirst. left. }
    rewrite Hj. simpl app. rewrite view_news, filter_app.
    rewrite (list_filter_none _ (block_key <$> _)); [by rewrite app_nil_r|].
    intros b (c & -> & Hc)%list_elem_of_fmap. simpl.
    destruct (drop j (recent w)) as [|a l] eqn:Hd; [by apply elem_of_nil in Hc|].
    injection Hj as -> _ _ _. destruct Htail as [Hlt _].
    pose proof (ok_linked w Hw) as Hlw. rewrite <-(take_drop j (recent w)), Hd in Hlw.
    apply linked_app in Hlw as [_ (Ha & _ & Hlw)].
    apply elem_of_cons in Hc as [->|Hc]; [lia|]. destruct (linked_elem _ _ _ _ Hlw Hc). lia.
Qed.

Lemma block_call_follows config safe us w call us' w' :
  follows config safe (view us) w → serves_good good call.2 → block_call w call = (us', w') →
  follows config safe (view (us ++ us')) w'.
Proof.
  intros Hf Hnet Hcall. destruct call as [[] net]; unfold block_call in Hcall; simpl in *.
  - pose proof (next_block_update_spec w (w, net) (conj eq_refl Hnet)) as Hspec.
    destruct (next_block_update (w, net)) as [[u|e] [w1 net']]; simplify_eq/=.
    + destruct Hspec as [Hadv _]. unfold view. rewrite foldl_app. simpl.
      by apply (advanced_follows _ _ _ w).
    + rewrite app_nil_r. destruct Hspec as [Hw _]. by eapply waited_follows.
  - pose proof (revalidate_last_block_spec w (w, net) (conj eq_refl Hnet)) as Hspec.
    destruct (revalidate_last_block (w, net)) as [[[b|]|e] [w1 net']]; simplify_eq/=;
      rewrite app_nil_r.
    + destruct Hspec as (_ & last & Hi & _). by eapply invalidated_follows.
    + destruct Hspec as [_ ->]. done.
    + destruct Hspec as [-> _]. done.
Qed.

Lemma follow_follows config indexed w0 calls us w :
  initialized good config indexed w0 → Forall (λ call, serves_good good call.2) calls →
  follow w0 calls = (us, w) → follows config (watcher_safe w0) (view us) w.
Proof.
  intros [Hc Hw _ Hnews]. revert us w.
  induction calls as [|call calls IH] using rev_ind; intros us w Hcalls Hrun.
  - unfold follow in Hrun. simpl in Hrun. simplify_eq. split; [done|done|done|].
    destruct Hnews as (first & k & Hu & Hfirst). exists [], k. simpl.
    split_and!; [apply Hw|done|lia|]. rewrite Hu, foldl_app. fold (view first).
    rewrite view_first by done. by rewrite view_news.
  - rewrite follow_snoc in Hrun. apply Forall_app in Hcalls as [Hcalls [Hcall _]%Forall_cons].
    destruct (follow w0 calls) as [us1 w1] eqn:H1.
    destruct (block_call w1 call) as [us2 w2] eqn:H2. simplify_eq.
    eapply block_call_follows; [by apply IH|done|done].
Qed.

End follows.
Arguments follows good config safe v w : clear implicits.

(** ** Polling *)

Definition missing (number : N) (reply : Reply) : Prop :=
  reply_block reply (IdNumber number) = Ok None.

(** The time a watcher polls at next. *)
Definition polls_at (w : BlockWatcher) : N :=
  pending_timestamp_ms (watcher_pending w) + block_propagation_delay (watcher_config w).

Definition round (w : BlockWatcher) : nat := length (block_retry_delays (watcher_config w)) + 1.

Lemma next_round c n :
  (0 < n)%nat →
  (S c / n = if decide (S (c mod n) = n) then S (c / n) else c / n)%nat.
Proof.
  intros Hn. pose proof (Nat.div_mod_eq c n) as Hc.
  pose proof (Nat.mod_upper_bound c n ltac:(lia)) as Hm. case_decide as Hd.
  - symmetry. apply (Nat.div_unique _ _ _ 0); lia.
  - symmetry. apply (Nat.div_unique _ _ _ (S (c mod n))); lia.
Qed.

(** One turn of the loop: nobody answers, the block is there or the node fails,
    or the loop goes on, after a delay or from the next block time. *)
Lemma await_turn fuel c w net turn :
  await_pending (S fuel) c (w, net) = turn →
  polls_at w ≤ u64_max → watcher_block_time w + polls_at w ≤ u64_max →
  (replies net = [] ∧ replies turn.2.2 = [] ∧ now_ms net ≤ now_ms turn.2.2) ∨
  ∃ reply rest now, replies net = reply :: rest ∧ N.max (now_ms net) (polls_at w) ≤ now ∧
    (turn.2 = (w, {| now_ms := now; replies := rest |}) ∨
     ∃ w' now', now ≤ now' ∧
       await_pending fuel (S c) (w', {| now_ms := now'; replies := rest |}) = turn ∧
       watcher_block_time w' = watcher_block_time w ∧ round w' = round w ∧
       polls_at w' = polls_at w +
         if decide (S (c mod round w) = round w)%nat then watcher_block_time w else 0).
Proof.
  intros Hrun Hpolls Hbound. simpl in Hrun.
  unfold io_bind, wait_for_pending_block, get_self, on_network in Hrun. simpl in Hrun.
  rewrite wrapping_add_small in Hrun by done. fold (polls_at w) in Hrun.
  set (net1 := sleep_until (polls_at w) net) in *.
  pose proof (sleep_until_now (polls_at w) net) as Hnow1. fold net1 in Hnow1.
  pose proof (sleep_until_replies (polls_at w) net) as Hr1. fold net1 in Hr1.
  destruct (get_block _ net1) as [r1 net2] eqn:Hget. rewrite <-Hr1.
  apply request_replies in Hget as [(Hnil & -> & ->)|(reply & Hr & Hnow2 & ->)].
  { left. subst turn. simpl. split_and!; [done..|lia]. }
  right. destruct net2 as [now2 rest]. simpl in *. exists reply, rest, now2.
  split; [done|]. split; [lia|].
  destruct (reply_block reply _) as [[b|]|e]; simpl in Hrun; [by subst; left| |by subst; left].
  right. fold (round w) in Hrun.
  pose proof (Nat.mod_upper_bound c (round w) ltac:(unfold round; lia)) as Hmod.
  destruct (block_retry_delays (watcher_config w) !! _) as [delay|] eqn:Hdelay; simpl in Hrun.
  - apply lookup_lt_Some in Hdelay. exists w, (now2 + delay). split_and!; [lia|done..|].
    rewrite decide_False; [lia|]. unfold round in *. lia.
  - apply lookup_ge_None in Hdelay. do 2 eexists. split_and!; [reflexivity|done..|].
    rewrite decide_True by (unfold round in *; lia).
    unfold polls_at in *; simpl. rewrite wrapping_add_small by lia. lia.
Qed.

(** The clock only moves on, and [m] requests, the first of them the [c]th of
    the run, take as many block times as they make full rounds. *)
Lemma await_polls fuel : ∀ c w net r s base,
  await_pending fuel c (w, net) = (r, s) →
  let m := (length (replies net) - length (replies s.2))%nat in
  polls_at w = base + watcher_block_time w * N.of_nat (c / round w) →
  polls_at w + watcher_block_time w * (2 + N.of_nat (length (replies net))) ≤ u64_max →
  now_ms net ≤ now_ms s.2 ∧ (length (replies s.2) ≤ length (replies net))%nat ∧
  (m = O ∨ base + watcher_block_time w * N.of_nat ((c + m - 1) / round w) ≤ now_ms s.2).
Proof.
  induction fuel as [|fuel IH]; intros c w net r s base Hrun m Hbase Hbound; subst m.
  { simpl in Hrun. unfold io_fail in Hrun. simplify_eq. simpl. split_and!; [lia|lia|left; lia]. }
  apply await_turn in Hrun as [(Hnil & Hnil' & Hnow)|(reply & rest & now & Hr & Hnow & Hrun)];
    [..|lia|lia].
  { simpl in *. rewrite Hnil, Hnil'. simpl. split_and!; [lia|lia|by left]. }
  simpl in *. rewrite Hr in *. cbn [length] in *.
  destruct Hrun as [Hs|(w' & now' & Hnow' & Hrun & Hbt & Hrd & Hp)].
  { rewrite Hs. simpl. split_and!; [lia|lia|]. right.
    replace (c + _ - 1)%nat with c by lia. lia. }
  apply (IH _ _ _ _ _ base) in Hrun as (Hmono & Hlen & Hm); simpl in *.
  - rewrite Hbt, Hrd in Hm. split_and!; [lia|lia|]. right. destruct Hm as [Hm|Hm].
    + replace (c + _ - 1)%nat with c by lia. lia.
    + replace (c + _ - 1)%nat with (S c + (length rest - length (replies s.2)) - 1)%nat by lia.
      done.
  - rewrite Hp, Hbase, Hbt, Hrd, next_round by (unfold round; lia). case_decide; lia.
  - rewrite Hp, Hbt. case_decide; lia.
Qed.

(** ** The fuel of the loops

    More turns than there are replies, and two, change nothing. *)
Lemma scan_fuel fuel fuel' safe latest_number : ∀ number parent_hash latest blocks net,
  (length (replies net) + match latest with Some _ => 1 | None => 0 end < fuel)%nat →
  (fuel ≤ fuel')%nat →
  scan fuel safe latest_number number parent_hash latest blocks net =
  scan fuel' safe latest_number number parent_hash latest blocks net.
Proof.
  revert fuel'. induction fuel as [|fuel IH];
    intros [|fuel'] number parent_hash latest blocks net Hf Hle; try lia.
  simpl. destruct (decide (number ≤ latest_number)); [|done].
  destruct (if decide (number = latest_number) then _ else _) as [cached latest'] eqn:Hcd.
  assert (match cached with Some _ => 1 | None => 0 end +
    match latest' with Some _ => 1 | None => 0 end =
    match latest with Some _ => 1 | None => 0 end)%nat as Hlat.
  { case_decide; simplify_eq; [by destruct cached|done]. }
  unfold io_bind. destruct cached as [b|]; simpl.
  - destruct (match parent_hash with None => true | Some _ => _ end); apply IH; simpl in *; lia.
  - unfold require_block, io_bind, get_block.
    destruct (request _ _ net) as [r net1] eqn:Hreq.
    apply request_replies in Hreq as [(_ & _ & ->)|(reply & Hr & _ & ->)]; [done|].
    rewrite Hr in Hf. simpl in Hf. destruct (reply_block reply _) as [[b|]|]; simpl; [|done..].
    destruct (match parent_hash with None => true | Some _ => _ end); apply IH; simpl in *; lia.
Qed.

Lemma await_fuel fuel fuel' : ∀ c w net,
  (length (replies net) < fuel)%nat → (fuel ≤ fuel')%nat →
  await_pending fuel c (w, net) = await_pending fuel' c (w, net).
Proof.
  revert fuel'. induction fuel as [|fuel IH]; intros [|fuel'] c w net Hf Hle; try lia.
  simpl. unfold io_bind, wait_for_pending_block, get_self, on_network; simpl.
  destruct (get_block _ _) as [r net1] eqn:Hreq.
  apply request_replies in Hreq as [(_ & _ & ->)|(reply & Hr & _ & ->)]; [done|].
  rewrite sleep_until_replies in Hr. rewrite Hr in Hf. simpl in Hf.
  destruct (reply_block reply _) as [[b|]|]; simpl; [done| |done].
  destruct (_ !! _); simpl; apply IH; simpl; lia.
Qed.

(** ** Properties *)

(** [C10] Whatever chain the node answers with, and however often its answers
    change (a block asked for by number has that number, below the last [u64]), the
    blocks that a consumer of the watcher's updates is left with (new blocks
    added, uncled ones taken back) are the end of one chain, each block's parent
    hash the hash of the block before it, that starts at the safe block the
    watcher started from and ends at the last block it has seen. *)
Theorem watcher_follows_chain chain_id config indexed net w0 net0 calls us w :
  BlockWatcher_new chain_id config indexed net = (Ok w0, net0) →
  node_ok net → Forall (λ call, node_ok call.2) calls → follow w0 calls = (us, w) →
  ∃ chain k,
    linked (safe_number (watcher_safe w0)) (safe_hash (watcher_safe w0)) chain ∧
    suffix (recent w) chain ∧
    safe_number (watcher_safe w0) + N.of_nat (length chain) = status_latest (watcher_status w) ∧
    view (us ++ updates w) = block_key <$> drop k chain.
Proof.
  intros Hnew Hnet Hcalls Hrun.
  pose proof (BlockWatcher_new_spec chain_id config indexed net Hnet) as Hspec.
  rewrite Hnew in Hspec. destruct Hspec as [Hinit _].
  destruct (follow_follows _ _ _ _ _ _ Hinit Hcalls Hrun)
    as [_ Hw _ (past & k & Hl & _ & Hs & Hv)].
  exists (past ++ recent w), k. split_and!; [done|by exists past| |].
  - simpl. rewrite (ok_pending w Hw), length_app. unfold saturating_sub. lia.
  - unfold view. by rewrite foldl_app.
Qed.

(** [C26] Reorgs stay within the window: at any point of a run against a node that
    answers with the block of the number asked for, the blocks above the safe block are at most
    [max_reorg_depth]; the next update never moves the safe block back or replaces
    it, and an uncle it newly observes (none is queued) lies above it; and an update
    is refused with [ExceededMaxReorgDepth] only when no block above the safe one is
    left to uncle. *)
Theorem reorgs_bounded chain_id config indexed net w0 net0 calls us w call :
  BlockWatcher_new chain_id config indexed net = (Ok w0, net0) →
  node_ok net → Forall (λ call, node_ok call.2) calls → follow w0 calls = (us, w) →
  node_ok call →
  let '(r, (w', _)) := next_block_update (w, call) in
  let before := watcher_status w in
  let after := watcher_status w' in
  status_latest after ≤ status_safe after + max_reorg_depth config ∧
  status_safe before ≤ status_safe after ∧
  (status_safe before = status_safe after → watcher_safe w = watcher_safe w') ∧
  (updates w = [] → ∀ number, r = Ok (Uncle number) → status_safe before < number) ∧
  (∀ depth, r = Err (Failed (ExceededMaxReorgDepth depth)) →
     status_latest before = status_safe before).
Proof.
  intros Hnew Hnet Hcalls Hrun Hcall.
  pose proof (BlockWatcher_new_spec chain_id config indexed net Hnet) as Hspec.
  rewrite Hnew in Hspec. destruct Hspec as [Hinit _].
  destruct (follow_follows _ _ _ _ _ _ Hinit Hcalls Hrun) as [Hconfig Hw _ _].
  assert (∀ w, window_ok bounded_block w → status_latest (watcher_status w) =
    status_safe (watcher_status w) + N.of_nat (length (recent w))) as Hlatest.
  { intros w1 Hw1. simpl. rewrite (ok_pending w1 Hw1). unfold saturating_sub. lia. }
  pose proof (next_block_update_spec w (w, call) (conj eq_refl Hcall)) as Hstep.
  destruct (next_block_update (w, call)) as [[u|e] [w' net']]; cbn zeta.
  - destruct Hstep as [Hadv _]. simpl in Hadv.
    pose proof (advanced_window _ _ _ Hw Hadv) as Hw'.
    destruct (advanced_safe _ _ _ Hw Hadv) as (Hle & Heq & Huncle).
    pose proof (advanced_config _ _ _ Hadv) as Hconfig'. simpl in Hconfig'.
    split_and!; [|done|done| |done].
    + rewrite (Hlatest _ Hw'), <-Hconfig, <-Hconfig'. pose proof (ok_depth _ Hw'). lia.
    + intros Hu number [= ->]. by eapply Huncle.
  - destruct Hstep as (Hwait & _ & _ & Hdeep). simpl in Hwait.
    pose proof (waited_window _ _ Hw Hwait) as Hw'.
    split_and!; [|by simpl; rewrite (waited_safe _ _ Hwait)|by rewrite (waited_safe _ _ Hwait)|done|].
    + rewrite (Hlatest _ Hw'), <-Hconfig, <-(waited_config _ _ Hwait).
      pose proof (ok_depth _ Hw'). lia.
    + intros depth [= ->]. destruct (Hdeep depth eq_refl) as [_ Hr].
      rewrite (Hlatest _ Hw), Hr. simpl. lia.
Qed.

(** [C37] Starting up ends, whatever reorgs the node goes through meanwhile:
    once it serves one chain for twice the reorg window and two more requests,
    the watcher has been initialized. *)
Theorem initialization_completes chain_id config indexed block_time net first latest pre rest
    (chain : N → BlockHeader) :
  resolve (Blocks.block_time config) chain_id = Ok block_time → node_ok net →
  replies net = first :: pre ++ rest → reply_block first IdLatest = Ok (Some latest) →
  Forall (serves (header_number latest)) pre →
  is_chain chain → Forall (serves_chain chain (header_number latest)) rest →
  (2 * N.to_nat (max_reorg_depth config) + 2 ≤ length rest)%nat →
  ∃ w net', BlockWatcher_new chain_id config indexed net = (Ok w, net').
Proof.
  intros Hres Hnet Hr Hlatest Hpre Hchain Hrest Hlen.
  unfold BlockWatcher_new. unfold io_bind at 1, io_lift. rewrite Hres. simpl.
  set (w0 := Build_BlockWatcher _ _ _ _ _ _). unfold initialize.
  unfold io_bind at 1, get_self at 1. simpl. unfold io_bind at 1, on_network at 1. simpl.
  rewrite (require_block_served _ _ _ _ _ Hr Hlatest). simpl.
  assert (header_number latest < u64_max) as Hlt.
  { unfold node_ok, serves_good in Hnet. rewrite Hr in Hnet. inversion Hnet.
    by eapply (reply_good bounded_block). }
  set (safe := saturating_sub _ _).
  assert (safe ≤ header_number latest ∧ header_number latest - safe ≤ max_reorg_depth config)
    as [Hsafe Hdepth] by (unfold safe, saturating_sub; lia).
  set (net1 := Build_Network _ _).
  assert (node_ok net1) as Hnet1.
  { unfold node_ok, serves_good in *. rewrite Hr in Hnet. by inversion Hnet. }
  destruct (scan_settles safe (header_number latest) Hsafe Hlt chain Hchain pre
    (2 + length (replies net1)) safe None (Some latest) [] net1) as (l & net2 & Hscan);
    try done; [|lia|by exists rest; split_and!; [done|done|lia]|].
  { simpl. rewrite length_app. lia. }
  unfold io_bind at 1, on_network at 1. cbn [fst snd].
  change (full_scan safe latest net1) with (scan (2 + length (replies net1)) safe
    (header_number latest) safe None (Some latest) [] net1). rewrite Hscan.
  pose proof (scan_spec (good := bounded_block) (2 + length (replies net1)) safe (header_number latest) safe None
    (Some latest) [] Hsafe Hlt ltac:(lia) ltac:(intros ? [= <-]; split; [done|exact Hlt])
    ltac:(done) ltac:(simpl; lia) I eq_refl net1 Hnet1) as Hspec. rewrite Hscan in Hspec.
  destruct Hspec as (_ & _ & _ & Hlen'). destruct l as [|b l]; simpl in Hlen'; [lia|].
  simpl. by do 2 eexists.
Qed.

(** The node is not hammered while a block is late or its slot is skipped:
    [m] requests for it take at least one block time for each time all the retry
    delays have been used up, counted from when the block is first due. *)
Theorem polling_rate w net :
  polls_at w + watcher_block_time w * (2 + N.of_nat (length (replies net))) ≤ u64_max →
  let '(_, (_, net')) := fetch_pending (w, net) in
  let m := (length (replies net) - length (replies net'))%nat in
  m = O ∨
  polls_at w + watcher_block_time w * N.of_nat ((m - 1) / round w) ≤ now_ms net'.
Proof.
  intros Hbound. unfold fetch_pending. cbn [snd].
  destruct (await_pending (1 + length (replies net)) 0 (w, net)) as [r [w' net']] eqn:Hrun.
  apply (await_polls _ _ _ _ _ _ (polls_at w)) in Hrun as (_ & _ & Hm).
  - exact Hm.
  - rewrite Nat.Div0.div_0_l. lia.
  - exact Hbound.
Qed.

(** A configured start block that the chain has not reached yet is not waited
    for: nothing is queued, and the first block the watcher tells of is the one
    after the head it started at. *)
Theorem future_start_block_ignored chain_id config start net w net' next number hash bloom w' next' :
  start_block config = Some start → node_ok net → node_ok next →
  BlockWatcher_new chain_id config None net = (Ok w, net') →
  status_latest (watcher_status w) < start →
  next_block_update (w, next) = (Ok (New number hash bloom), (w', next')) →
  number = status_latest (watcher_status w) + 1 ∧ number ≤ start.
Proof.
  intros Hstart Hnet Hnext Hnew Hfuture Hrun.
  pose proof (BlockWatcher_new_spec chain_id config None net Hnet) as Hspec.
  rewrite Hnew in Hspec. destruct Hspec as [[_ Hw _ _ Hexact] _].
  pose proof (ok_linked w Hw) as Hl. pose proof (ok_pending w Hw) as Hp.
  simpl in Hfuture. unfold saturating_sub in Hfuture.
  assert (updates w = []) as Hempty.
  { rewrite Hexact. unfold initial_updates. rewrite Hstart. rewrite decide_False by lia.
    rewrite list_filter_none; [done|]. intros b Hin.
    destruct (linked_elem _ _ _ _ Hl Hin). simpl. rewrite Hstart, bool_decide_spec. lia. }
  pose proof (next_block_update_spec w (w, next) (conj eq_refl Hnext)) as Hstep.
  rewrite Hrun in Hstep. destruct Hstep as [Hadv _].
  inversion Hadv as [u rest Hu|b w1 Hu Hn|]; subst; [congruence|].
  simpl. unfold saturating_sub. lia.
Qed.
