(* ===== verification/Events.v ===== *)
(** * The event watcher: [core/index/events.rs], [core/index/bloom.rs]

    Fetches the logs of the blocks the block watcher tells of, in pages over a
    warp or block by block, and decodes them into a service's events. *)

From S2P Require Import Prelude.
From S2P Require Import Bytes.
From S2P Require Import Core.
From S2P Require Import Provider.

(** [events::Error]. *)
Inductive EventsError :=
  | EventsRpc (error : RpcError)
  | DecodeLog (block_hash : B256) (log_index : N)
  | TooManyLogs
  | IncompleteLogs (block_hash : B256)
  | UnexpectedBlockUpdate
  | UnexpectedBlockInvalidation.

(** ** Events *)

Class Events (E : Type) := {
  topics : list B256;
  decode_log : list B256 → Bytes → option E;
}.
Arguments topics E {_}.

(** What [watcher_events!] defines: an enum of several sets of events, each
    tried in order. *)
Definition sum_events {E F} `{!Events E, !Events F} : Events (E + F) := {|
  topics := topics E ++ topics F;
  decode_log topics data :=
    match decode_log topics data with
    | Some event => Some (inl event)
    | None => inr <$> decode_log topics data
    end;
|}.
#[export] Existing Instance sum_events.

(** ** Bloom filters *)

(** The bloom filters of [alloy::primitives]. *)
Class AlloyBloom := {
  contains_input : Bloom → Bytes → bool;
  alloy_logs_bloom : list Log → Bloom;
}.

Section bloom.
Context {AB : AlloyBloom}.

Definition may_contain_log (bloom : Bloom) (addresses : list Address) (topics : list B256)
    : bool :=
  existsb (λ address, contains_input bloom (to_be_bytes 20 address)) addresses &&
  existsb (λ topic, contains_input bloom (to_be_bytes 32 topic)) topics.

Definition compute_logs_bloom (logs : list Log) : Bloom := alloy_logs_bloom logs.
End bloom.

(** ** Decoding *)

Definition event_key {E} (log : EventLog E) : N * N := (log_block log, log_index log).

(** The order of [sort_unstable_by_key]. *)
Definition event_le {E} : relation (EventLog E) := λ a b,
  log_block a < log_block b ∨ (log_block a = log_block b ∧ log_index a ≤ log_index b).

#[export] Instance event_le_dec {E} : RelDecision (@event_le E).
Proof. intros a b. unfold event_le. apply _. Defined.
#[export] Instance event_le_trans {E} : Transitive (@event_le E).
Proof. intros a b c. unfold event_le. lia. Qed.
#[export] Instance event_le_total {E} : Total (@event_le E).
Proof. intros a b. unfold event_le. lia. Qed.

Definition u64_MAX : N := u64_max.
(** [B256::repeat_byte(0xff)]. *)
Definition B256_FF : B256 := 2 ^ 256 - 1.

Section events.
Context {E : Type} `{!Events E} {AB : AlloyBloom}.
Open Scope safenet_scope.

Definition decode_event (log : Log) : result (EventLog E) EventsError :=
  ok_or (DecodeLog (default B256_FF (raw_block_hash log)) (default u64_MAX (raw_log_index log)))
    (data ← decode_log (raw_topics log) (raw_data log);
     block ← raw_block_number log;
     index ← raw_log_index log;
     Some {| log_block := block; log_index := index; log_address := raw_address log;
             log_data := data |}).

Definition decode_and_sort (logs : list Log) : result (list (EventLog E)) EventsError :=
  logs ←? rcollect (decode_event <$> logs);
  Ok (merge_sort event_le logs).

(** ** The watcher *)

(** [events::Config]. *)
Record EventsConfig := {
  block_page_size : positive;
  block_single_query_retry_count : positive;
  use_client_filtering : bool;
  max_logs_per_query : option positive;
  fallible_events : gset B256;
}.

Definition EventsConfig_default : EventsConfig :=
  {| block_page_size := 100; block_single_query_retry_count := 3;
     use_client_filtering := false; max_logs_per_query := None; fallible_events := ∅ |}.

Inductive Fetch :=
  | SingleQuery (blocks : BlockFilter)
  | MultipleQueries (blocks : BlockFilter)
  | ClientFiltered (block_hash : B256) (logs_bloom : Bloom).

Inductive Step :=
  | Idle
  | Warping (from_block to_block : N) (page_size : positive)
  | StepBlock (block_number : N) (block_hash : B256) (logs_bloom : Bloom) (retries : N).

Record EventWatcher := {
  events_config : EventsConfig;
  addresses : list Address;
  watched_topics : list B256;
  step : Step;
}.

Definition with_step (s : Step) (w : EventWatcher) : EventWatcher :=
  {| events_config := events_config w; addresses := addresses w;
     watched_topics := watched_topics w; step := s |}.

(** [EventWatcher::new]. *)
Definition EventWatcher_new (config : EventsConfig) (addresses : list Address) : EventWatcher :=
  {| events_config := config; addresses := addresses; watched_topics := topics E;
     step := Idle |}.

Definition on_block_update (update : BlockUpdate) : io EventWatcher () EventsError := λ w,
  match step w with
  | Idle =>
      (Ok (), with_step
         match update with
         | Warp from to => Warping from to (block_page_size (events_config w))
         | Uncle _ => Idle
         | New number hash logs_bloom => StepBlock number hash logs_bloom 0
         end w)
  | _ => (Err UnexpectedBlockUpdate, w)
  end.

Definition on_block_invalidated (block_hash : B256) : io EventWatcher () EventsError := λ w,
  match step w with
  | StepBlock _ current _ _ =>
      if decide (current = block_hash) then (Ok (), with_step Idle w)
      else (Err UnexpectedBlockInvalidation, w)
  | _ => (Err UnexpectedBlockInvalidation, w)
  end.

(** ** Queries *)

Abbreviation querying A := (io Network A (Interrupt EventsError)).

(** [try_join_all] of requests sent together: each takes a reply, which arrives
    at some time; the first error to arrive ends them, and otherwise the last
    answer does. A request without a reply never ends. *)
Definition arrivals {A F} (now : N) (asks : list (Reply → result A F)) (replies : list Reply)
    : list (option (N * result A F)) :=
  imap (λ i ask, reply ← replies !! i; Some (now + latency reply, ask reply)) asks.

Definition first_error {A F} (rs : list (option (N * result A F))) : option (N * F) :=
  foldr (λ r acc,
    match r with
    | Some (at_ms, Err e) =>
        match acc with
        | Some (first, _) => if decide (first < at_ms) then acc else Some (at_ms, e)
        | None => Some (at_ms, e)
        end
    | _ => acc
    end) None rs.

Fixpoint all_answers {A F} (now : N) (rs : list (option (N * result A F)))
    : option (N * list A) :=
  match rs with
  | [] => Some (now, [])
  | Some (at_ms, Ok a) :: rs =>
      '(last, answers) ← all_answers now rs; Some (N.max at_ms last, a :: answers)
  | _ => None
  end.

Definition try_join_all {A F} (asks : list (Reply → result A F))
    : io Network (list A) (Interrupt F) := λ net,
  let rs := arrivals (now_ms net) asks (replies net) in
  let rest := drop (length asks) (replies net) in
  match first_error rs with
  | Some (at_ms, e) => (Err (Failed e), {| now_ms := at_ms; replies := rest |})
  | None =>
      match all_answers (now_ms net) rs with
      | Some (at_ms, answers) => (Ok answers, {| now_ms := at_ms; replies := rest |})
      | None => (Err Waiting, {| now_ms := now_ms net; replies := rest |})
      end
  end.

Section fetching.
Context (w : EventWatcher).

Definition check_logs_limit (logs : list Log) : result (list Log) EventsError :=
  match max_logs_per_query (events_config w) with
  | Some max =>
      if decide (nonzero_get max ≤ N.of_nat (length logs)) then Err TooManyLogs else Ok logs
  | None => Ok logs
  end.

Definition get_logs (filter : Filter) (reply : Reply) : result (list Log) EventsError :=
  rmap_err EventsRpc (reply_logs reply filter).

(** The query for one event of [MultipleQueries]. *)
Definition query_event (blocks : BlockFilter) (topic : B256) (reply : Reply)
    : result (list Log) EventsError :=
  let r := logs ←? get_logs {| filter_blocks := blocks; filter_addresses := addresses w;
                               filter_topics := [topic] |} reply;
           check_logs_limit logs in
  match r with
  | Err e => if decide (topic ∈ fallible_events (events_config w)) then Ok [] else Err e
  | Ok logs => Ok logs
  end.

(** A query awaited on its own. *)
Definition query {A} (ask : Reply → result A EventsError) : querying A := λ net,
  match next_reply net with
  | None => (Err Waiting, net)
  | Some (reply, net) => (rmap_err Failed (ask reply), net)
  end.

(** Whether the client keeps a log of a block's full set. *)
Definition keeps (log : Log) : bool :=
  bool_decide (raw_address log ∈ addresses w) &&
  match topic0 log with
  | Some topic => bool_decide (topic ∈ watched_topics w)
  | None => false
  end.

Definition fetch_raw_logs (fetch : Fetch) : querying (list Log) :=
  match fetch with
  | SingleQuery blocks =>
      query (λ reply,
        logs ←? get_logs {| filter_blocks := blocks; filter_addresses := addresses w;
                            filter_topics := watched_topics w |} reply;
        check_logs_limit logs)
  | MultipleQueries blocks =>
      logs ←! try_join_all (query_event blocks <$> watched_topics w);
      io_ret (concat logs)
  | ClientFiltered block_hash logs_bloom =>
      query (λ reply,
        logs ←? get_logs {| filter_blocks := FilterHash block_hash; filter_addresses := [];
                            filter_topics := [] |} reply;
        if decide (compute_logs_bloom logs ≠ logs_bloom) then Err (IncompleteLogs block_hash)
        else Ok (filter (λ log, keeps log) logs))
  end.

Definition fetch_logs (fetch : Fetch) : querying (list (EventLog E)) :=
  logs ←! fetch_raw_logs fetch;
  io_lift (rmap_err Failed (decode_and_sort logs)).
End fetching.

(** ** Steps *)

(** A fetch and the step it leads to; a fetch that is dropped leads nowhere. *)
Definition fetching (fetch : Fetch) (done failed : Step)
    : io (EventWatcher * Network) (list (EventLog E)) (Interrupt EventsError) := λ s,
  let '(w, net) := s in
  match fetch_logs w fetch net with
  | (Ok logs, net) => (Ok logs, (with_step done w, net))
  | (Err Waiting, net) => (Err Waiting, (w, net))
  | (Err e, net) => (Err e, (with_step failed w, net))
  end.

Definition warp (from_block to_block : N) (page_size : positive)
    : io (EventWatcher * Network) (EventUpdate E) (Interrupt EventsError) :=
  w ←! get_self;
  let query_to_block := N.min to_block (saturating_add from_block (nonzero_get page_size - 1)) in
  let blocks := FilterRange from_block query_to_block in
  let fetch := if decide (1 < nonzero_get page_size) then SingleQuery blocks
               else MultipleQueries blocks in
  logs ←! fetching fetch
    (if decide (query_to_block = to_block) then Idle
     else Warping (wrapping_add query_to_block 1) to_block (block_page_size (events_config w)))
    (Warping from_block to_block (Pos.div2_up page_size));
  io_ret {| update_blocks := mkRange from_block query_to_block; update_logs := logs |}.

Definition block (block_number : N) (block_hash : B256) (logs_bloom : Bloom) (retries : N)
    : io (EventWatcher * Network) (EventUpdate E) (Interrupt EventsError) :=
  w ←! get_self;
  let fetch :=
    if decide (retries < nonzero_get (block_single_query_retry_count (events_config w))) then
      if use_client_filtering (events_config w) then ClientFiltered block_hash logs_bloom
      else SingleQuery (FilterHash block_hash)
    else MultipleQueries (FilterHash block_hash) in
  logs ←! fetching fetch Idle
    (StepBlock block_number block_hash logs_bloom (wrapping_add retries 1));
  io_ret {| update_blocks := mkRange block_number block_number; update_logs := logs |}.

(** [EventWatcher::next]. *)
Definition next_event_update
    : io (EventWatcher * Network) (option (EventUpdate E)) (Interrupt EventsError) :=
  w ←! get_self;
  match step w with
  | Idle => io_ret None
  | Warping from_block to_block page_size =>
      update ←! warp from_block to_block page_size; io_ret (Some update)
  | StepBlock block_number block_hash logs_bloom retries =>
      update ←! block block_number block_hash logs_bloom retries; io_ret (Some update)
  end.
End events.
