(* ===== verification/EventsFetch.v ===== *)
(** * Fetching logs

    The strategies for fetching a block's logs agree on a node that serves its
    logs, and the pages of a warp cover its range, whatever fails meanwhile. *)

From S2P Require Import Prelude.
From S2P Require Import Bytes.
From S2P Require Import Core.
From S2P Require Import Provider.
From S2P Require Import Events.

Open Scope safenet_scope.

(** ** What a filter selects *)

(** Documented behaviour of [eth_getLogs]. *)
Definition in_blocks (blocks : BlockFilter) (log : Log) : Prop :=
  match blocks with
  | FilterHash hash => raw_block_hash log = Some hash
  | FilterRange from to =>
      match raw_block_number log with
      | Some number => from ≤ number ∧ number ≤ to
      | None => False
      end
  end.

Definition topic_in (topics : list B256) (log : Log) : Prop :=
  match topic0 log with Some topic => topic ∈ topics | None => False end.

Definition matches (f : Filter) (log : Log) : Prop :=
  in_blocks (filter_blocks f) log ∧
  (filter_addresses f = [] ∨ raw_address log ∈ filter_addresses f) ∧
  (filter_topics f = [] ∨ topic_in (filter_topics f) log).

#[export] Instance in_blocks_dec blocks log : Decision (in_blocks blocks log).
Proof. destruct blocks; simpl; [|destruct (raw_block_number log)]; apply _. Defined.
#[export] Instance topic_in_dec topics log : Decision (topic_in topics log).
Proof. unfold topic_in. destruct (topic0 log); apply _. Defined.
#[export] Instance matches_dec f log : Decision (matches f log).
Proof. unfold matches. apply _. Defined.

(** ** Sorting *)

Lemma rcollect_permutation {A F} (l l' : list (result A F)) xs :
  l ≡ₚ l' → rcollect l = Ok xs → ∃ xs', rcollect l' = Ok xs' ∧ xs ≡ₚ xs'.
Proof.
  intros Hp. revert xs. induction Hp as [|r l l' _ IH|r1 r2 l|l1 l2 l3 _ IH1 _ IH2]; intros xs Hx.
  - by exists xs.
  - simpl in *. destruct r as [a|]; [|done]. simpl in *.
    destruct (rcollect l) as [ys|]; [|done]. simplify_eq/=.
    destruct (IH ys eq_refl) as (ys' & -> & Hys). exists (a :: ys'). by rewrite Hys.
  - simpl in *. destruct r2 as [b|], r1 as [a|]; simpl in *; try done.
    destruct (rcollect l) as [ys|]; [|done]. simplify_eq/=. eexists. split; [done|]. constructor.
  - destruct (IH1 _ Hx) as (ys & Hy & Hxy). destruct (IH2 _ Hy) as (zs & Hz & Hyz).
    exists zs. split; [done|]. by rewrite Hxy.
Qed.

Lemma rcollect_permutation_Err {A F} (l l' : list (result A F)) e :
  l ≡ₚ l' → rcollect l = Err e → ∃ e', rcollect l' = Err e'.
Proof.
  intros Hp He. destruct (rcollect l') as [xs|e'] eqn:Hl; [|by eexists].
  symmetry in Hp. destruct (rcollect_permutation _ _ _ Hp Hl) as (xs' & Hxs & _). congruence.
Qed.

Section fetching.
Context {E : Type} `{!Events E} {AB : AlloyBloom}.

(** Logs that are told apart by their block and index. *)
Definition keyed (logs : list Log) : Prop :=
  NoDup logs ∧ ∀ a b, a ∈ logs → b ∈ logs → raw_block_number a = raw_block_number b →
    raw_log_index a = raw_log_index b → a = b.

Lemma decode_event_Ok log (event : EventLog E) :
  decode_event log = Ok event →
  raw_block_number log = Some (log_block event) ∧ raw_log_index log = Some (log_index event) ∧
  raw_address log = log_address event ∧
  decode_log (raw_topics log) (raw_data log) = Some (log_data event).
Proof.
  unfold decode_event. destruct (decode_log _ _), (raw_block_number log), (raw_log_index log);
    simpl; intros [= <-]; done.
Qed.

Lemma keyed_permutation logs logs' : logs ≡ₚ logs' → keyed logs → keyed logs'.
Proof.
  intros Hp [H1 H2]. split; [by rewrite <-Hp|]. intros a b. rewrite <-!Hp. apply H2.
Qed.

Lemma keyed_filter (P : Log → Prop) `{∀ x, Decision (P x)} logs :
  keyed logs → keyed (filter P logs).
Proof.
  intros [H1 H2]. split; [by apply NoDup_filter|].
  intros a b [_ Ha]%list_elem_of_filter [_ Hb]%list_elem_of_filter. by apply H2.
Qed.

(** Decoded logs have distinct keys. *)
Lemma decoded_keys logs (events : list (EventLog E)) :
  keyed logs → Forall2 (λ log event, decode_event log = Ok event) logs events →
  NoDup (event_key <$> events).
Proof.
  intros [Hnd Hk] Hf. induction Hf as [|log event logs events Hd Hf IH]; [constructor|].
  inversion Hnd as [|? ? Hnin Hnd']; subst. simpl. constructor.
  - intros (event' & Heq & Hin)%list_elem_of_fmap. apply Hnin.
    apply list_elem_of_lookup in Hin as [i Hi].
    destruct (Forall2_lookup_r _ _ _ _ _ Hf Hi) as (log' & Hl & Hd').
    apply decode_event_Ok in Hd as (Hb & Hx & _). apply decode_event_Ok in Hd' as (Hb' & Hx' & _).
    unfold event_key in Heq. simplify_eq.
    rewrite (Hk log log'); [by eapply list_elem_of_lookup_2|left| |congruence|congruence].
    right. by eapply list_elem_of_lookup_2.
  - apply IH; [done|]. intros a b Ha Hb. apply Hk; by right.
Qed.

Lemma keys_injective (events : list (EventLog E)) a b :
  NoDup (event_key <$> events) → a ∈ events → b ∈ events → event_key a = event_key b → a = b.
Proof.
  intros Hnd [i Hi]%list_elem_of_lookup [j Hj]%list_elem_of_lookup Heq.
  assert (i = j) as ->; [|congruence].
  eapply NoDup_lookup; [done| |]; rewrite list_lookup_fmap.
  - by rewrite Hi.
  - by rewrite Hj; simpl; rewrite Heq.
Qed.

(** The decoded logs do not depend on the order the node serves them in. *)
Lemma decode_and_sort_permutation logs logs' (events : list (EventLog E)) :
  keyed logs → logs ≡ₚ logs' → decode_and_sort logs = Ok events →
  decode_and_sort logs' = Ok events.
Proof.
  intros Hk Hp. unfold decode_and_sort.
  destruct (rcollect (decode_event <$> logs)) as [es|] eqn:Hes; [|done]. simpl. intros [= <-].
  apply (fmap_Permutation decode_event) in Hp.
  destruct (rcollect_permutation _ _ _ Hp Hes) as (es' & -> & Hes'). simpl. f_equal.
  apply rcollect_Ok, Forall2_fmap_l in Hes.
  pose proof (decoded_keys _ _ Hk Hes) as Hnd.
  apply (StronglySorted_unique_strong event_le); try apply StronglySorted_merge_sort; try apply _.
  - intros a b. rewrite !merge_sort_Permutation, <-Hes'. intros Ha Hb Hab Hba.
    eapply keys_injective; [done..|].
    unfold event_le, event_key in *. f_equal; lia.
  - by rewrite !merge_sort_Permutation.
Qed.

Lemma decode_and_sort_permutation_Err logs logs' e :
  logs ≡ₚ logs' → decode_and_sort (E := E) logs = Err e →
  ∃ e', decode_and_sort (E := E) logs' = Err e'.
Proof.
  intros Hp. unfold decode_and_sort.
  destruct (rcollect (decode_event <$> logs)) as [|e1] eqn:Hes; [done|]. intros _.
  apply (fmap_Permutation (decode_event (E := E))) in Hp.
  destruct (rcollect_permutation_Err _ _ _ Hp Hes) as [e' ->]. by eexists.
Qed.

Lemma decode_and_sort_Err logs e :
  decode_and_sort (E := E) logs = Err e → ∃ hash index, e = DecodeLog hash index.
Proof.
  unfold decode_and_sort. enough (∀ e', rcollect (decode_event (E := E) <$> logs) = Err e' →
    ∃ hash index, e' = DecodeLog hash index) as H.
  { destruct (rcollect _); simpl; [done|]. intros [= <-]. by apply H. }
  induction logs as [|log logs IH]; [done|]. simpl. intros e'.
  destruct (decode_event log) as [event|e1] eqn:Hd; simpl.
  - destruct (rcollect _); simpl; [done|]. intros [= <-]. by apply IH.
  - intros [= <-]. unfold decode_event, ok_or in Hd. destruct (_ ≫= _) in Hd; simplify_eq. eauto.
Qed.

(** What is decoded comes in order. *)
Lemma decode_and_sort_sorted logs (events : list (EventLog E)) :
  decode_and_sort logs = Ok events → StronglySorted event_le events.
Proof.
  unfold decode_and_sort. destruct (rcollect _); [|done]. intros [= <-].
  apply StronglySorted_merge_sort; apply _.
Qed.

(** ** An honest node *)

(** The node serves, for every filter, the logs of [chain_logs] it selects, in
    whatever order. *)
Definition honest (chain_logs : list Log) (reply : Reply) : Prop :=
  ∀ f, ∃ logs, reply_logs reply f = Ok logs ∧ logs ≡ₚ filter (matches f) chain_logs.

(** What the watcher is to fetch for some blocks. *)
Definition watched (w : EventWatcher) (blocks : BlockFilter) : Filter :=
  {| filter_blocks := blocks; filter_addresses := addresses w;
     filter_topics := watched_topics w |}.

(** The blocks of a fetch; the bloom filter of a client-filtered one is the one
    of its block. *)
Definition fetches (chain_logs : list Log) (fetch : Fetch) (blocks : BlockFilter) : Prop :=
  match fetch with
  | SingleQuery b | MultipleQueries b => b = blocks
  | ClientFiltered hash bloom => blocks = FilterHash hash ∧
      ∀ logs, logs ≡ₚ filter (in_blocks blocks) chain_logs → compute_logs_bloom logs = bloom
  end.

(** The logs of each topic make up the logs of all. *)
Lemma topics_partition (P : Log → Prop) `{∀ x, Decision (P x)} (ts : list B256) logs :
  NoDup ts →
  concat ((λ t, filter (λ log, P log ∧ topic0 log = Some t) logs) <$> ts) ≡ₚ
  filter (λ log, P log ∧ topic_in ts log) logs.
Proof.
  intros Hts. induction Hts as [|t ts Hnin Hts IH]; simpl.
  - rewrite list_filter_none; [done|]. intros log _ [_ Hin]. unfold topic_in in Hin.
    destruct (topic0 log); [by apply elem_of_nil in Hin|done].
  - rewrite IH. clear IH. induction logs as [|log logs IH]; [done|]. rewrite !filter_cons.
    assert (topic_in (t :: ts) log ↔ topic0 log = Some t ∨ topic_in ts log) as Hcons.
    { unfold topic_in. destruct (topic0 log); [|naive_solver].
      rewrite elem_of_cons. naive_solver. }
    assert (topic0 log = Some t → ¬ topic_in ts log) as Hdisj.
    { unfold topic_in. by intros ->. }
    repeat case_decide; try tauto; simpl; rewrite <-IH; try done;
      by rewrite Permutation_middle.
Qed.

(** Requests that are all answered. *)
Lemma try_join_all_Ok {A} (asks : list (Reply → result A EventsError)) net answers :
  (length asks ≤ length (replies net))%nat →
  Forall2 (λ ask r, ∀ reply, reply ∈ replies net → ∃ a, ask reply = Ok a ∧ r a) asks answers →
  ∃ xs net', try_join_all asks net = (Ok xs, net') ∧ Forall2 (λ r x, r x) answers xs.
Proof.
  destruct net as [now rs]. simpl. intros Hlen Hf. unfold try_join_all. simpl.
  assert (∃ xs at_ms, first_error (arrivals now asks rs) = None ∧
    all_answers now (arrivals now asks rs) = Some (at_ms, xs) ∧ Forall2 (λ r x, r x) answers xs)
    as (xs & at_ms & -> & -> & Hxs); [|by do 2 eexists].
  revert rs Hlen Hf. induction asks as [|ask asks IH] in answers |- *; intros rs Hlen Hf;
    inversion Hf as [|? r ? answers' Hask Hf']; subst.
  { exists [], now. by split_and!. }
  destruct rs as [|reply rs]; simpl in Hlen; [lia|].
  destruct (Hask reply ltac:(left)) as (a & Ha & Hr).
  destruct (IH answers' rs) as (xs & at_ms & Hfirst & Hall & Hxs).
  { lia. }
  { eapply Forall2_impl; [done|]. intros ask' r' H' reply' Hin. apply H'. by right. }
  unfold arrivals in *. simpl. rewrite Ha.
  replace (imap _ asks) with (imap (λ i ask, reply ← rs !! i;
    Some (now + latency reply, ask reply)) asks) by (by apply imap_ext).
  rewrite Hfirst, Hall. simpl. do 2 eexists. split_and!; [done|done|by constructor].
Qed.

Lemma first_error_from {A F} (rs : list (option (N * result A F))) at_ms e :
  first_error rs = Some (at_ms, e) → ∃ now, Some (now, Err e) ∈ rs.
Proof.
  induction rs as [|r rs IH]; [done|]. intros H.
  assert (first_error rs = Some (at_ms, e) → ∃ now, Some (now, Err e) ∈ r :: rs) as Hrest.
  { intros [now Hin]%IH. exists now. by right. }
  simpl in H. destruct r as [[now [a|e']]|]; try by apply Hrest.
  fold (first_error rs) in H. destruct (first_error rs) as [[first e'']|].
  - case_decide; simplify_eq; [by apply Hrest|exists at_ms; left].
  - simplify_eq. exists at_ms. left.
Qed.

Lemma first_error_None {A F} (rs : list (option (N * result A F))) :
  first_error rs = None → ∀ at_ms e, Some (at_ms, Err e) ∉ rs.
Proof.
  induction rs as [|r rs IH]; intros H at_ms e; [apply not_elem_of_nil|].
  simpl in H. fold (first_error rs) in H. rewrite not_elem_of_cons.
  destruct r as [[at_ms' [a|e']]|]; [split; [done|by apply IH]| |split; [done|by apply IH]].
  destruct (first_error rs) as [[first e'']|]; [case_decide|]; done.
Qed.

(** Requests of which one is refused, all for the same reason. *)
Lemma try_join_all_Err {A} (asks : list (Reply → result A EventsError)) net e :
  (length asks ≤ length (replies net))%nat →
  (∀ ask reply e', ask ∈ asks → reply ∈ replies net → ask reply = Err e' → e' = e) →
  (∃ ask, ask ∈ asks ∧ ∀ reply, reply ∈ replies net → ask reply = Err e) →
  ∃ net', try_join_all asks net = (Err (Failed e), net').
Proof.
  intros Hlen Honly (ask & [i Hi]%list_elem_of_lookup & Hask).
  destruct net as [now rs]; simpl in *. unfold try_join_all; simpl.
  destruct (first_error (arrivals now asks rs)) as [[at_ms e']|] eqn:Hfirst.
  - apply first_error_from in Hfirst as (at_ms' & [j Hj]%list_elem_of_lookup).
    unfold arrivals in Hj. rewrite list_lookup_imap in Hj.
    destruct (asks !! j) as [ask'|] eqn:Ha, (rs !! j) as [reply|] eqn:Hr; simplify_eq/=.
    rewrite (Honly ask' reply e'); [by eexists|by eapply list_elem_of_lookup_2..|done].
  - destruct (lookup_lt_is_Some_2 rs i) as [reply Hr].
    { apply lookup_lt_Some in Hi. lia. }
    destruct (first_error_None _ Hfirst (now + latency reply) e).
    apply list_elem_of_lookup. exists i. unfold arrivals. rewrite list_lookup_imap, Hi. simpl.
    rewrite Hr. simpl. rewrite (Hask reply); [done|by eapply list_elem_of_lookup_2].
Qed.

(** ** What a fetch is to bring *)

(** The configured limit is reached. *)
Definition at_limit (w : EventWatcher) (logs : list Log) : Prop :=
  match max_logs_per_query (events_config w) with
  | Some max => nonzero_get max ≤ N.of_nat (length logs)
  | None => False
  end.
#[export] Instance at_limit_dec w logs : Decision (at_limit w logs).
Proof. unfold at_limit. destruct (max_logs_per_query _); apply _. Defined.

Lemma check_logs_limit_spec w logs :
  check_logs_limit w logs = if decide (at_limit w logs) then Err TooManyLogs else Ok logs.
Proof.
  unfold check_logs_limit. destruct (decide (at_limit w logs)) as [Hat|Hat]; unfold at_limit in Hat.
  - destruct (max_logs_per_query _); [by rewrite decide_True|done].
  - destruct (max_logs_per_query _); [by rewrite decide_False|done].
Qed.

Lemma at_limit_permutation w logs logs' : logs ≡ₚ logs' → at_limit w logs ↔ at_limit w logs'.
Proof. intros Hp. unfold at_limit. by rewrite (Permutation_length Hp). Qed.

Section honest.
Context (w : EventWatcher) (chain_logs : list Log).

(** The logs of [chain_logs] of some topics, and those of one. *)
Definition wanted (blocks : BlockFilter) (ts : list B256) : list Log :=
  filter (λ log, (in_blocks blocks log ∧ raw_address log ∈ addresses w) ∧ topic_in ts log)
    chain_logs.
Definition wanted_of (blocks : BlockFilter) (topic : B256) : list Log :=
  filter (λ log, (in_blocks blocks log ∧ raw_address log ∈ addresses w) ∧
    topic0 log = Some topic) chain_logs.

(** One query for all events is refused at the limit; one query per event drops
    a fallible event at the limit, and is refused for another; the client takes
    all of a block's logs. *)
Definition to_fetch (fetch : Fetch) (blocks : BlockFilter) : option (list Log) :=
  match fetch with
  | SingleQuery _ =>
      if decide (at_limit w (wanted blocks (watched_topics w))) then None
      else Some (wanted blocks (watched_topics w))
  | MultipleQueries _ =>
      if decide (Exists (λ topic, topic ∉ fallible_events (events_config w) ∧
        at_limit w (wanted_of blocks topic)) (watched_topics w)) then None
      else Some (wanted blocks
        (filter (λ topic, ¬ at_limit w (wanted_of blocks topic)) (watched_topics w)))
  | ClientFiltered _ _ => Some (wanted blocks (watched_topics w))
  end.

(** Below the limit all logs are fetched, whichever way. *)
Lemma to_fetch_below fetch blocks :
  ¬ at_limit w (wanted blocks (watched_topics w)) →
  to_fetch fetch blocks = Some (wanted blocks (watched_topics w)).
Proof.
  intros Hbelow.
  assert (∀ topic, topic ∈ watched_topics w → ¬ at_limit w (wanted_of blocks topic)) as Hone.
  { intros topic Hin Hat. apply Hbelow. clear Hbelow. unfold at_limit in *.
    destruct (max_logs_per_query _) as [max|]; [|done].
    enough (length (wanted_of blocks topic) ≤ length (wanted blocks (watched_topics w)))%nat
      by lia.
    unfold wanted_of, wanted. clear Hat.
    induction chain_logs as [|log logs IH]; [done|]. rewrite !filter_cons.
    repeat case_decide; simpl; try lia.
    exfalso. clear IH. unfold topic_in in *. destruct (topic0 log); naive_solver. }
  destruct fetch as [b|b|hash bloom]; simpl; [by rewrite decide_False| |done].
  rewrite decide_False.
  - do 2 f_equal. rewrite list_filter_all; [done|]. exact Hone.
  - intros (topic & Hin & _ & Hat)%Exists_exists. by eapply Hone.
Qed.

Lemma to_fetch_keyed fetch blocks logs :
  to_fetch fetch blocks = Some logs → keyed chain_logs → keyed logs.
Proof.
  intros Hto Hk. destruct fetch; simpl in Hto; try case_decide; simplify_eq; by apply keyed_filter.
Qed.

Hypothesis Haddresses : addresses w ≠ [].
Hypothesis Htopics : watched_topics w ≠ [].
Hypothesis Hdistinct : NoDup (watched_topics w).

Lemma watched_matches blocks log :
  matches (watched w blocks) log ↔
  (in_blocks blocks log ∧ raw_address log ∈ addresses w) ∧ topic_in (watched_topics w) log.
Proof. unfold matches, watched; simpl. tauto. Qed.

Lemma keeps_spec log :
  Is_true (keeps w log) ↔ raw_address log ∈ addresses w ∧ topic_in (watched_topics w) log.
Proof.
  unfold keeps, topic_in. rewrite andb_True, bool_decide_spec.
  destruct (topic0 log); [by rewrite bool_decide_spec|]. simpl. tauto.
Qed.

Lemma query_event_honest blocks topic reply :
  honest chain_logs reply →
  if decide (at_limit w (wanted_of blocks topic)) then
    query_event w blocks topic reply =
      if decide (topic ∈ fallible_events (events_config w)) then Ok [] else Err TooManyLogs
  else ∃ logs, query_event w blocks topic reply = Ok logs ∧ logs ≡ₚ wanted_of blocks topic.
Proof.
  intros Hh. unfold query_event, get_logs.
  destruct (Hh {| filter_blocks := blocks; filter_addresses := addresses w;
    filter_topics := [topic] |}) as (logs & -> & Hlogs). simpl.
  assert (logs ≡ₚ wanted_of blocks topic) as Hp.
  { rewrite Hlogs. apply reflexive_eq, list_filter_ext. intros log _.
    unfold matches, topic_in; simpl. destruct (topic0 log); [|naive_solver].
    rewrite list_elem_of_singleton. naive_solver. }
  rewrite check_logs_limit_spec, (decide_ext _ _ _ _ (at_limit_permutation w _ _ Hp)).
  case_decide; simpl; [by case_decide|by exists logs].
Qed.

Lemma fetch_multiple_honest b blocks net :
  b = blocks → Forall (honest chain_logs) (replies net) →
  (length (watched_topics w) ≤ length (replies net))%nat →
  match to_fetch (MultipleQueries b) blocks with
  | None => ∃ net', fetch_raw_logs w (MultipleQueries b) net = (Err (Failed TooManyLogs), net')
  | Some logs => ∃ logs' net', fetch_raw_logs w (MultipleQueries b) net = (Ok logs', net') ∧
      logs' ≡ₚ logs
  end.
Proof.
  intros -> Hh Hlen. rewrite Forall_forall in Hh. simpl. unfold io_bind. case_decide as Hex.
  - apply Exists_exists in Hex as (topic & Hin & Hfall & Hat).
    destruct (try_join_all_Err (query_event w blocks <$> watched_topics w) net TooManyLogs)
      as [net' ->]; [by rewrite length_fmap| | |by eexists].
    + intros ask reply e' (topic' & -> & _)%list_elem_of_fmap Hreply Hask.
      pose proof (query_event_honest blocks topic' reply (Hh _ Hreply)) as Hq.
      case_decide; [case_decide|]; naive_solver congruence.
    + exists (query_event w blocks topic). split; [by apply list_elem_of_fmap_2|].
      intros reply Hreply.
      pose proof (query_event_honest blocks topic reply (Hh _ Hreply)) as Hq.
      by rewrite decide_True, decide_False in Hq.
  - destruct (try_join_all_Ok (query_event w blocks <$> watched_topics w) net
      ((λ topic logs, logs ≡ₚ if decide (¬ at_limit w (wanted_of blocks topic))
          then wanted_of blocks topic else []) <$> watched_topics w))
      as (xs & net' & Hjoin & Hxs); [by rewrite length_fmap| |].
    { apply Forall2_fmap_2, Forall_Forall2_diag, Forall_forall. intros topic Hin reply Hreply.
      pose proof (query_event_honest blocks topic reply (Hh _ Hreply)) as Hq.
      destruct (decide (at_limit w (wanted_of blocks topic))) as [Hat|Hat].
      - rewrite decide_False by tauto. exists []. split; [|done]. rewrite Hq, decide_True; [done|].
        destruct (decide (topic ∈ fallible_events (events_config w))); [done|].
        destruct Hex. apply Exists_exists. eauto.
      - by rewrite decide_True. }
    rewrite Hjoin. exists (concat xs), net'. split; [done|].
    unfold wanted. rewrite <-topics_partition by (by apply NoDup_filter).
    apply Forall2_fmap_l in Hxs. clear -Hxs.
    induction Hxs as [|topic x topics xs Hx Hxs IH]; [done|]. rewrite filter_cons. simpl.
    rewrite Hx, IH. case_decide; reflexivity.
Qed.

(** What a fetch brings from a node that serves what its filters select. *)
Lemma fetch_raw_limited fetch blocks net :
  fetches chain_logs fetch blocks → Forall (honest chain_logs) (replies net) →
  (length (watched_topics w) ≤ length (replies net))%nat →
  match to_fetch fetch blocks with
  | None => ∃ net', fetch_raw_logs w fetch net = (Err (Failed TooManyLogs), net')
  | Some logs => ∃ logs' net', fetch_raw_logs w fetch net = (Ok logs', net') ∧ logs' ≡ₚ logs
  end.
Proof.
  intros Hf Hh Hlen.
  assert (∃ reply rest, replies net = reply :: rest ∧ honest chain_logs reply)
    as (reply & rest & Hr & Hreply).
  { destruct (replies net) as [|reply rest]; [destruct (watched_topics w); simpl in Hlen; [done|lia]|].
    inversion Hh. by do 2 eexists. }
  destruct fetch as [b|b|hash bloom]; [|by apply fetch_multiple_honest|]; simpl in Hf.
  - subst b. simpl. unfold query, next_reply. rewrite Hr. unfold get_logs.
    destruct (Hreply (watched w blocks)) as (logs & Hl & Hp). unfold watched in Hl.
    rewrite Hl. simpl. assert (logs ≡ₚ wanted blocks (watched_topics w)) as Hp'.
    { rewrite Hp. apply reflexive_eq, list_filter_ext. intros log _. apply watched_matches. }
    rewrite check_logs_limit_spec, (decide_ext _ _ _ _ (at_limit_permutation w _ _ Hp')).
    case_decide; simpl; by do 2 eexists.
  - destruct Hf as [-> Hbloom]. simpl. unfold query, next_reply. rewrite Hr.
    unfold get_logs. destruct (Hreply {| filter_blocks := FilterHash hash;
      filter_addresses := []; filter_topics := [] |}) as (logs & -> & Hp). simpl.
    assert (logs ≡ₚ filter (in_blocks (FilterHash hash)) chain_logs) as Hp'.
    { rewrite Hp. apply reflexive_eq, list_filter_ext. intros log _.
      unfold matches; simpl. tauto. }
    rewrite (Hbloom _ Hp'), decide_False by tauto. simpl. do 2 eexists. split; [done|].
    rewrite Hp', list_filter_filter. apply reflexive_eq, list_filter_ext.
    intros log _. rewrite keeps_spec. tauto.
Qed.

(** Without a limit, that is everything watched. *)
Lemma fetch_raw_honest fetch blocks net :
  max_logs_per_query (events_config w) = None →
  fetches chain_logs fetch blocks → Forall (honest chain_logs) (replies net) →
  (length (watched_topics w) ≤ length (replies net))%nat →
  ∃ logs net', fetch_raw_logs w fetch net = (Ok logs, net') ∧
    logs ≡ₚ filter (matches (watched w blocks)) chain_logs.
Proof.
  intros Hlimit Hf Hh Hlen. pose proof (fetch_raw_limited fetch blocks net Hf Hh Hlen) as H.
  rewrite to_fetch_below in H by (unfold at_limit; rewrite Hlimit; tauto).
  rewrite (list_filter_ext _ _ chain_logs (λ log _, watched_matches blocks log)). exact H.
Qed.
End honest.

(** ** Properties *)

End fetching.
