(* ===== verification/EventsWarp.v ===== *)
(** * Warping

    The pages a warp is fetched in cover its range once, in order, whatever
    fails meanwhile, and together hold its watched logs. *)

From S2P Require Import Prelude.
From S2P Require Import Bytes.
From S2P Require Import Core.
From S2P Require Import Provider.
From S2P Require Import Events.
From S2P Require Import EventsFetch.

Open Scope safenet_scope.

(** [page_size.div_ceil(2)]. *)
Lemma div2_up_le p : (Pos.div2_up p ≤ p)%positive.
Proof. destruct p; simpl; lia. Qed.

Section warping.
Context {E : Type} `{!Events E} {AB : AlloyBloom}.

(** ** Runs *)

(** A call, with the node as it finds it, and the update it returns, if any. *)
Definition event_call (w : EventWatcher) (net : Network)
    : list (EventUpdate E) * EventWatcher :=
  let '(r, (w, _)) := next_event_update (w, net) in
  (match r with Ok (Some u) => [u] | _ => [] end, w).

Definition event_calls (w : EventWatcher) (nets : list Network)
    : list (EventUpdate E) * EventWatcher :=
  foldl (λ '(us, w) net, let '(us', w) := event_call w net in (us ++ us', w)) ([], w) nets.

Lemma event_calls_snoc w nets net :
  event_calls w (nets ++ [net]) =
  let '(us, w1) := event_calls w nets in
  let '(us', w2) := event_call w1 net in (us ++ us', w2).
Proof. unfold event_calls. rewrite foldl_app. by destruct (foldl _ _ nets). Qed.

(** Ranges that follow each other from a block on, and the block after them. *)
Fixpoint covers (from : N) (rs : list BlockRange) : option N :=
  match rs with
  | [] => Some from
  | r :: rs =>
      if decide (range_start r = from ∧ from ≤ range_last r) then covers (range_last r + 1) rs
      else None
  end.

Lemma covers_snoc from rs r next :
  covers from rs = Some next → range_start r = next → next ≤ range_last r →
  covers from (rs ++ [r]) = Some (range_last r + 1).
Proof.
  revert from. induction rs as [|r' rs IH]; intros from H Hs Hl; simpl in *.
  - simplify_eq. by rewrite decide_True.
  - case_decide; [by apply IH|done].
Qed.

Lemma covers_le from rs next :
  covers from rs = Some next → from + N.of_nat (length rs) ≤ next.
Proof.
  revert from. induction rs as [|r rs IH]; intros from H; simpl in *; [simplify_eq; lia|].
  case_decide; [|done]. specialize (IH _ H). lia.
Qed.

(** ** What a fetch holds *)

(** The node serves what a filter selects from [chain_logs], or fails. *)
Definition truthful (chain_logs : list Log) (reply : Reply) : Prop :=
  ∀ f logs, reply_logs reply f = Ok logs → logs ≡ₚ filter (matches f) chain_logs.

Lemma honest_truthful chain_logs reply : honest chain_logs reply → truthful chain_logs reply.
Proof. intros Hh f logs Hl. destruct (Hh f) as (logs' & Hl' & Hp). congruence. Qed.

Lemma try_join_all_inv {A F} (asks : list (Reply → result A F)) net xs net' :
  try_join_all asks net = (Ok xs, net') →
  Forall2 (λ ask x, ∃ reply, reply ∈ replies net ∧ ask reply = Ok x) asks xs.
Proof.
  unfold try_join_all. destruct net as [now rs]; simpl.
  destruct (first_error _) as [[]|]; [done|].
  destruct (all_answers _ _) as [[at_ms ys]|] eqn:Hall; [|done]. intros [= -> _].
  revert rs at_ms xs Hall. unfold arrivals.
  induction asks as [|ask asks IH]; intros rs at_ms xs Hall; simpl in Hall; [by simplify_eq|].
  destruct rs as [|reply rs]; simpl in Hall; [done|].
  destruct (ask reply) as [a|] eqn:Ha; [|done].
  rewrite (imap_ext _ (λ i ask, reply ← rs !! i; Some (now + latency reply, ask reply)))
    in Hall by done.
  destruct (all_answers _ _) as [[last ys]|] eqn:Hrest; simplify_eq/=.
  constructor; [exists reply; split; [left|done]|].
  eapply Forall2_impl; [by apply (IH _ _ _ Hrest)|].
  intros ask' x (reply' & Hin & Hx). exists reply'. split; [by right|done].
Qed.

Context (chain_logs : list Log) (Hkeyed : keyed chain_logs).

(** The configuration under which nothing is dropped on purpose. *)
Record lossless (w : EventWatcher) : Prop := {
  has_addresses : addresses w ≠ [];
  has_topics : watched_topics w ≠ [];
  distinct_topics : NoDup (watched_topics w);
  nothing_fallible : fallible_events (events_config w) = ∅;
}.

Lemma check_logs_limit_Ok w logs logs' : check_logs_limit w logs = Ok logs' → logs' = logs.
Proof. unfold check_logs_limit. destruct (max_logs_per_query _); [case_decide|]; naive_solver. Qed.

Lemma query_event_truthful w blocks topic reply logs :
  lossless w → truthful chain_logs reply → query_event w blocks topic reply = Ok logs →
  logs ≡ₚ filter (λ log, (in_blocks blocks log ∧ raw_address log ∈ addresses w) ∧
    topic0 log = Some topic) chain_logs.
Proof.
  intros Hw Ht. unfold query_event, get_logs. rewrite (nothing_fallible w Hw).
  destruct (reply_logs reply _) as [logs'|] eqn:Hl; simpl; [|by rewrite decide_False by set_solver].
  destruct (check_logs_limit w logs') as [logs1|] eqn:Hlimit;
    [|by rewrite decide_False by set_solver].
  intros [= <-]. apply check_logs_limit_Ok in Hlimit as ->.
  rewrite (Ht _ _ Hl). apply reflexive_eq, list_filter_ext.
  intros log _. unfold matches, topic_in; simpl. pose proof (has_addresses w Hw).
  destruct (topic0 log); [|naive_solver]. rewrite list_elem_of_singleton. naive_solver.
Qed.

Lemma fetch_raw_truthful w fetch blocks net logs net' :
  lossless w → (fetch = SingleQuery blocks ∨ fetch = MultipleQueries blocks) →
  Forall (truthful chain_logs) (replies net) →
  fetch_raw_logs w fetch net = (Ok logs, net') →
  logs ≡ₚ filter (matches (watched w blocks)) chain_logs.
Proof.
  intros Hw Hfetch Ht. destruct Hfetch as [-> | ->]; simpl.
  - unfold query, next_reply. destruct (replies net) as [|reply rest]; [done|].
    inversion Ht as [|? ? Hreply _]; subst. unfold get_logs, watched.
    destruct (reply_logs reply _) as [logs'|] eqn:Hl; simpl; [|done].
    destruct (check_logs_limit w logs') as [logs1|] eqn:Hlimit; simpl; [|done].
    intros [= <- _]. apply check_logs_limit_Ok in Hlimit as ->. by apply Hreply.
  - unfold io_bind. destruct (try_join_all _ net) as [[xs|] net1] eqn:Hjoin; [|done].
    intros [= <- _]. apply try_join_all_inv, Forall2_fmap_l in Hjoin.
    rewrite (list_filter_ext (matches (watched w blocks)) (λ log, (in_blocks blocks log ∧
      raw_address log ∈ addresses w) ∧ topic_in (watched_topics w) log))
      by (intros log _; destruct Hw; by apply watched_matches).
    rewrite <-topics_partition by apply Hw. rewrite Forall_forall in Ht.
    set (ts := watched_topics w) in *. clearbody ts.
    induction Hjoin as [|topic x topics xs (reply & Hin & Hx) Hxs IH]; [done|]. simpl.
    apply Permutation_app; [|exact IH]. eapply query_event_truthful; eauto.
Qed.

(** ** The logs of a warp *)

(** The watched logs of the blocks from [from] up to, and without, [next]. *)
Definition between (w : EventWatcher) (from next : N) (log : Log) : Prop :=
  match raw_block_number log with Some n => from ≤ n ∧ n < next | None => False end ∧
  raw_address log ∈ addresses w ∧ topic_in (watched_topics w) log.

#[export] Instance between_dec w from next log : Decision (between w from next log).
Proof. unfold between. destruct (raw_block_number log); apply _. Defined.

Lemma between_page w from last :
  lossless w →
  filter (matches (watched w (FilterRange from last))) chain_logs =
  filter (between w from (last + 1)) chain_logs.
Proof.
  intros Hw. apply list_filter_ext. intros log _.
  rewrite watched_matches by apply Hw. unfold between; simpl.
  destruct (raw_block_number log); [|tauto].
  assert (n < last + 1 ↔ n ≤ last) as -> by lia. tauto.
Qed.

Lemma between_app w from mid next :
  from ≤ mid → mid ≤ next →
  filter (between w from next) chain_logs ≡ₚ
  filter (between w from mid) chain_logs ++ filter (between w mid next) chain_logs.
Proof.
  intros H1 H2. clear Hkeyed. induction chain_logs as [|log logs IH]; [done|]. rewrite !filter_cons.
  assert (between w from next log ↔ between w from mid log ∨ between w mid next log) as Hor.
  { unfold between. destruct (raw_block_number log); [|tauto]. split; [|naive_solver lia].
    intros [[? ?] ?]. destruct (decide (n < mid)); [left|right]; naive_solver lia. }
  assert (between w from mid log → ¬ between w mid next log) as Hdisj.
  { unfold between. destruct (raw_block_number log); [|tauto]. intros [[]] [[]]. lia. }
  repeat case_decide; try tauto; simpl; rewrite IH; try done;
    by rewrite Permutation_middle.
Qed.

(** ** Decoding page by page *)

Lemma rcollect_app {A F} (l l' : list (result A F)) xs xs' :
  rcollect l = Ok xs → rcollect l' = Ok xs' → rcollect (l ++ l') = Ok (xs ++ xs').
Proof. rewrite !rcollect_Ok. apply Forall2_app. Qed.

Lemma decoded_from logs (events : list (EventLog E)) event :
  decode_and_sort logs = Ok events → event ∈ events →
  ∃ log, log ∈ logs ∧ decode_event log = Ok event.
Proof.
  unfold decode_and_sort. destruct (rcollect _) as [es|] eqn:Hes; [|done]. intros [= <-].
  rewrite merge_sort_Permutation. intros [i Hi]%list_elem_of_lookup.
  apply rcollect_Ok, Forall2_fmap_l in Hes.
  destruct (Forall2_lookup_r _ _ _ _ _ Hes Hi) as (log & Hl & Hd).
  exists log. split; [by eapply list_elem_of_lookup_2|done].
Qed.

Lemma decode_and_sort_app logs l1 l2 (e1 e2 : list (EventLog E)) :
  keyed logs → l1 ++ l2 ≡ₚ logs →
  decode_and_sort l1 = Ok e1 → decode_and_sort l2 = Ok e2 →
  (∀ a b, a ∈ e1 → b ∈ e2 → log_block a < log_block b) →
  decode_and_sort logs = Ok (e1 ++ e2).
Proof.
  intros Hk Hp H1 H2 Hlt.
  pose proof (decode_and_sort_sorted _ _ H1) as Hs1.
  pose proof (decode_and_sort_sorted _ _ H2) as Hs2.
  apply (decode_and_sort_permutation (l1 ++ l2));
    [eapply keyed_permutation; [by symmetry|done]|done|].
  unfold decode_and_sort in *.
  destruct (rcollect (decode_event <$> l1)) as [x1|] eqn:Hx1; [|done].
  destruct (rcollect (decode_event <$> l2)) as [x2|] eqn:Hx2; [|done]. simplify_eq/=.
  rewrite fmap_app, (rcollect_app _ _ _ _ Hx1 Hx2). simpl. f_equal.
  assert (merge_sort event_le (x1 ++ x2) ≡ₚ merge_sort event_le x1 ++ merge_sort event_le x2)
    as Hperm by by rewrite !merge_sort_Permutation.
  apply (StronglySorted_unique_strong event_le); [|apply StronglySorted_merge_sort; apply _| |done].
  - intros a b Ha Hb Hab Hba.
    assert (keyed (l1 ++ l2)) as Hk' by (eapply keyed_permutation; [by symmetry|done]).
    assert (NoDup (event_key <$> (x1 ++ x2))) as Hnd.
    { apply rcollect_Ok, Forall2_fmap_l in Hx1, Hx2.
      eapply decoded_keys; [exact Hk'|]. by apply Forall2_app. }
    rewrite merge_sort_Permutation in Ha. rewrite <-Hperm, merge_sort_Permutation in Hb.
    eapply keys_injective; [done..|]. unfold event_le, event_key in *. f_equal; lia.
  - apply StronglySorted_app_2; [|done..]. intros a b Ha Hb. left. by apply Hlt.
Qed.

(** ** The invariant of a warp *)

Record warped (w0 : EventWatcher) (from to : N) (us : list (EventUpdate E)) (w : EventWatcher)
    : Prop := {
  warped_config : events_config w = events_config w0;
  warped_addresses : addresses w = addresses w0;
  warped_topics : watched_topics w = watched_topics w0;
  warped_next : ∃ next, covers from (update_blocks <$> us) = Some next ∧
    match step w with
    | Idle => next = to + 1
    | Warping f t page =>
        f = next ∧ t = to ∧ next ≤ to ∧
        nonzero_get page ≤ nonzero_get (block_page_size (events_config w0))
    | StepBlock _ _ _ _ => False
    end ∧
    decode_and_sort (filter (between w0 from next) chain_logs) = Ok (concat (update_logs <$> us));
  warped_pages : Forall (λ u, range_last (update_blocks u) <
    range_start (update_blocks u) + nonzero_get (block_page_size (events_config w0))) us;
}.

Lemma lossless_same w0 w :
  events_config w = events_config w0 → addresses w = addresses w0 →
  watched_topics w = watched_topics w0 → lossless w0 → lossless w.
Proof. intros H1 H2 H3 []. split; congruence. Qed.

(** The next page, once its logs are there. *)
Lemma warped_page w0 from to us w next last logs net net' fetch page :
  let update := {| update_blocks := mkRange next last; update_logs := logs |} in
  let done := if decide (last = to) then Idle
              else Warping (wrapping_add last 1) to (block_page_size (events_config w)) in
  lossless w0 → to < u64_max → warped w0 from to us w → step w = Warping next to page →
  (fetch = SingleQuery (FilterRange next last) ∨ fetch = MultipleQueries (FilterRange next last)) →
  next ≤ last → last ≤ to → last < next + nonzero_get page →
  Forall (truthful chain_logs) (replies net) →
  fetch_logs w fetch net = (Ok logs, net') →
  warped w0 from to (us ++ [update]) (with_step done w).
Proof.
  intros update done Hw0 Hto [Hc Ha Ht (next' & Hcov & Hstep & Hlogs) Hpages] Hst Hfetch
    Hle Hlast Hpage Htruth Hok.
  rewrite Hst in Hstep. destruct Hstep as (<- & _ & _ & Hsize).
  pose proof (lossless_same _ _ Hc Ha Ht Hw0) as Hw.
  unfold fetch_logs, io_bind, io_lift in Hok.
  destruct (fetch_raw_logs w fetch net) as [[raw|] net1] eqn:Hraw; [|done].
  destruct (decode_and_sort raw) as [es|] eqn:Hdec; simplify_eq/=.
  pose proof (fetch_raw_truthful _ _ _ _ _ _ Hw Hfetch Htruth Hraw) as Hp.
  rewrite between_page in Hp by done.
  assert (∀ log, between w next (last + 1) log ↔ between w0 next (last + 1) log) as Hsame.
  { intros log. unfold between. by rewrite Ha, Ht. }
  rewrite (list_filter_ext _ _ _ (λ log _, Hsame log)) in Hp.
  pose proof (covers_le _ _ _ Hcov) as Hge.
  split; simpl; try done; [|by apply Forall_app; split; [done|]; constructor; simpl; [lia|]].
  exists (last + 1). rewrite fmap_app. simpl. split; [by eapply covers_snoc|]. split.
  { unfold done. case_decide; [by subst|].
    rewrite wrapping_add_small by lia. rewrite Hc. split_and!; [done|done|lia|done]. }
  rewrite fmap_app, concat_app. simpl. rewrite app_nil_r.
  eapply decode_and_sort_app; [by apply keyed_filter| |exact Hlogs|exact Hdec|].
  - rewrite Hp. symmetry. apply between_app; lia.
  - intros a b Hin1 Hin2.
    destruct (decoded_from _ _ _ Hlogs Hin1) as (l1 & Hl1 & Hd1).
    destruct (decoded_from _ _ _ Hdec Hin2) as (l2 & Hl2 & Hd2).
    rewrite Hp in Hl2. apply list_elem_of_filter in Hl1 as [[Hl1 _] _], Hl2 as [[Hl2 _] _].
    apply decode_event_Ok in Hd1 as (Hb1 & _), Hd2 as (Hb2 & _).
    rewrite Hb1 in Hl1. rewrite Hb2 in Hl2. lia.
Qed.

Lemma event_call_warped w0 from to us w net us' w' :
  lossless w0 → to < u64_max → warped w0 from to us w →
  Forall (truthful chain_logs) (replies net) → event_call w net = (us', w') →
  warped w0 from to (us ++ us') w'.
Proof.
  intros Hw0 Hto Hwarped Htruth Hcall. unfold event_call, next_event_update in Hcall.
  unfold io_bind at 1, get_self at 1 in Hcall. simpl in Hcall.
  pose proof Hwarped as [Hc Ha Ht (next & Hcov & Hstep & Hlogs) Hpages].
  destruct (step w) as [|f t page|] eqn:Hst; [|destruct Hstep as (-> & -> & Hle & Hsize)|done].
  { simplify_eq/=. by rewrite app_nil_r. }
  unfold io_bind at 1, warp in Hcall. unfold io_bind at 1, get_self, io_bind, fetching in Hcall.
  simpl in Hcall. set (last := N.min to (saturating_add next (nonzero_get page - 1))) in *.
  assert (next ≤ last ∧ last ≤ to ∧ last < next + nonzero_get page) as (H1 & H2 & H3).
  { unfold last, saturating_add, nonzero_get. lia. }
  set (fetch := if decide (1 < nonzero_get page) then _ else _) in Hcall.
  assert (fetch = SingleQuery (FilterRange next last) ∨
    fetch = MultipleQueries (FilterRange next last)) as Hfetch
    by (subst fetch; destruct (decide _); [by left|by right]).
  destruct (fetch_logs w fetch net) as [[logs|[|e|]] net'] eqn:Hok; simplify_eq/=.
  - by eapply warped_page.
  - by rewrite app_nil_r.
  - rewrite app_nil_r. split; simpl; try done. exists next. split_and!; try done.
    unfold nonzero_get in *. pose proof (div2_up_le page). lia.
  - rewrite app_nil_r. split; simpl; try done. exists next. split_and!; try done.
    unfold nonzero_get in *. pose proof (div2_up_le page). lia.
Qed.

Lemma event_calls_warped w0 from to page nets us w :
  lossless w0 → from ≤ to → to < u64_max → step w0 = Warping from to page →
  nonzero_get page ≤ nonzero_get (block_page_size (events_config w0)) →
  Forall (λ net, Forall (truthful chain_logs) (replies net)) nets →
  event_calls w0 nets = (us, w) → warped w0 from to us w.
Proof.
  intros Hw0 Hle Hto Hst Hpage. revert us w.
  induction nets as [|net nets IH] using rev_ind; intros us w Hnets Hrun.
  - unfold event_calls in Hrun. simpl in Hrun. simplify_eq. split; try done.
    exists from. rewrite Hst. split_and!; try done.
    rewrite list_filter_none; [done|]. intros log _ [Hin _].
    destruct (raw_block_number log); [lia|done].
  - rewrite event_calls_snoc in Hrun. apply Forall_app in Hnets as [Hnets [Hnet _]%Forall_cons].
    destruct (event_calls w0 nets) as [us1 w1] eqn:H1.
    destruct (event_call w1 net) as [us2 w2] eqn:H2. simplify_eq.
    eapply event_call_warped; [done|done| |done|done]. by apply IH.
Qed.

(** ** A served warp *)

Lemma decodable logs :
  (∃ events : list (EventLog E), decode_and_sort logs = Ok events) ↔
  ∀ log, log ∈ logs → ∃ event : EventLog E, decode_event log = Ok event.
Proof.
  unfold decode_and_sort. split.
  - intros [events Hok] log [i Hi]%list_elem_of_lookup.
    destruct (rcollect _) as [es|] eqn:Hes; [|done].
    apply rcollect_Ok, Forall2_fmap_l in Hes.
    destruct (Forall2_lookup_l _ _ _ _ _ Hes Hi) as (event & _ & Hd). by exists event.
  - intros Hall. assert (∃ es, rcollect (decode_event (E := E) <$> logs) = Ok es) as [es ->].
    { induction logs as [|log logs IH]; [by exists []|]. csimpl.
      destruct (Hall log) as [event ->]; [left|]. cbn [rbind].
      destruct IH as [es ->]; [|by eexists]. intros l Hin. apply Hall. by right. }
    by eexists.
Qed.

(** A call the node serves in full. *)
Definition served (w : EventWatcher) (net : Network) : Prop :=
  Forall (honest chain_logs) (replies net) ∧
  (length (watched_topics w) ≤ length (replies net))%nat.

Lemma served_page w0 from to us w net us' w' :
  lossless w0 → max_logs_per_query (events_config w0) = None → to < u64_max →
  (∃ events : list (EventLog E),
     decode_and_sort (filter (between w0 from (to + 1)) chain_logs) = Ok events) →
  warped w0 from to us w → served w0 net → event_call w net = (us', w') →
  step w = Idle ∨ length us' = 1%nat.
Proof.
  intros Hw0 Hlimit Hto Hdecodable [Hc Ha Ht (next & Hcov & Hstep & Hlogs) Hpages]
    [Hhonest Hlen] Hcall.
  destruct (step w) as [|f t page|] eqn:Hst; [by left|right|done].
  destruct Hstep as (-> & -> & Hle & Hsize).
  unfold event_call, next_event_update in Hcall.
  unfold io_bind at 1, get_self at 1 in Hcall. simpl in Hcall. rewrite Hst in Hcall.
  unfold io_bind at 1, warp in Hcall. unfold io_bind at 1, get_self, io_bind, fetching in Hcall.
  simpl in Hcall. set (last := N.min to (saturating_add next (nonzero_get page - 1))) in *.
  assert (next ≤ last ∧ last ≤ to) as [H1 H2] by (unfold last, saturating_add, nonzero_get; lia).
  set (fetch := if decide (1 < nonzero_get page) then _ else _) in Hcall.
  assert (fetches chain_logs fetch (FilterRange next last)) as Hfetch
    by (subst fetch; by destruct (decide _)).
  pose proof (lossless_same _ _ Hc Ha Ht Hw0) as Hw.
  rewrite <-Hc in Hlimit. rewrite <-Ht in Hlen.
  destruct (fetch_raw_honest w chain_logs (has_addresses w Hw) (has_topics w Hw)
    (distinct_topics w Hw) fetch _ net Hlimit Hfetch Hhonest Hlen) as (raw & net' & Hraw & Hp).
  assert (∃ es : list (EventLog E), decode_and_sort raw = Ok es) as [es Hes].
  { apply decodable. intros log Hin. apply (proj1 (decodable _) Hdecodable).
    rewrite Hp, between_page in Hin by done.
    apply list_elem_of_filter in Hin as [Hb Hin]. apply list_elem_of_filter. split; [|done].
    pose proof (covers_le _ _ _ Hcov). unfold between in *. rewrite <-Ha, <-Ht.
    destruct (raw_block_number log); [|naive_solver]. destruct Hb as [? Hb]. split; [lia|done]. }
  unfold fetch_logs, io_bind, io_lift in Hcall. rewrite Hraw in Hcall. simpl in Hcall.
  rewrite Hes in Hcall. by simplify_eq/=.
Qed.

(** ** Properties *)

(** [C11] With no event configured as fallible ([lossless]), the pages of a warp
    cover its range from the start, block after block and each block once, whatever
    queries fail or are dropped meanwhile; no page exceeds the configured size; and
    together the pages hold the decoded watched logs of the blocks covered, in
    order. The watcher is idle exactly when the whole range has been covered. *)
Theorem warp_fetches_all w0 from to page nets us w :
  lossless w0 → from ≤ to → to < u64_max → step w0 = Warping from to page →
  nonzero_get page ≤ nonzero_get (block_page_size (events_config w0)) →
  Forall (λ net, Forall (truthful chain_logs) (replies net)) nets →
  event_calls w0 nets = (us, w) →
  Forall (λ u, range_last (update_blocks u) <
    range_start (update_blocks u) + nonzero_get (block_page_size (events_config w0))) us ∧
  ∃ next, covers from (update_blocks <$> us) = Some next ∧ next ≤ to + 1 ∧
    (step w = Idle ↔ next = to + 1) ∧
    decode_and_sort (filter (between w0 from next) chain_logs) = Ok (concat (update_logs <$> us)).
Proof.
  intros Hw0 Hle Hto Hst Hpage Hnets Hrun.
  destruct (event_calls_warped _ _ _ _ _ _ _ Hw0 Hle Hto Hst Hpage Hnets Hrun)
    as [_ _ _ (next & Hcov & Hstep & Hlogs) Hpages].
  split; [done|]. exists next.
  split_and!; [done| | |done]; destruct (step w) as [|f t p|]; try done; try lia.
  destruct Hstep as (_ & _ & ? & _). split; [done|lia].
Qed.

(** A warp ends: with as many calls that the node serves as the range has
    blocks, anywhere among calls that fail or are dropped, the watcher is idle
    and has returned the logs of the whole range. *)
Theorem warp_completes w0 from to page calls us w events :
  lossless w0 → max_logs_per_query (events_config w0) = None →
  from ≤ to → to < u64_max → step w0 = Warping from to page →
  nonzero_get page ≤ nonzero_get (block_page_size (events_config w0)) →
  decode_and_sort (filter (between w0 from (to + 1)) chain_logs) = Ok events →
  Forall (λ call : bool * Network, Forall (truthful chain_logs) (replies call.2) ∧
    (call.1 = true → served w0 call.2)) calls →
  to - from < N.of_nat (length (filter (λ call, call.1 = true) calls)) →
  event_calls w0 calls.*2 = (us, w) →
  step w = Idle ∧ concat (update_logs <$> us) = events.
Proof.
  intros Hw0 Hlimit Hle Hto Hst Hpage Hevents Hcalls Hcount Hrun.
  assert (∀ us w, Forall (λ call : bool * Network, Forall (truthful chain_logs) (replies call.2) ∧
      (call.1 = true → served w0 call.2)) calls →
    event_calls w0 calls.*2 = (us, w) → warped w0 from to us w ∧
    (step w = Idle ∨ (length (filter (λ call, call.1 = true) calls) ≤ length us)%nat)) as Hinv.
  { clear us w Hrun Hcount Hcalls.
    induction calls as [|call calls IH] using rev_ind; intros us w Hcalls Hrun.
    { split; [|right; simpl; lia]. by eapply (event_calls_warped _ _ _ _ []). }
    rewrite fmap_app in Hrun. simpl in Hrun. rewrite event_calls_snoc in Hrun.
    apply Forall_app in Hcalls as [Hcalls [[Htruth Hserved] _]%Forall_cons].
    destruct (event_calls w0 calls.*2) as [us1 w1] eqn:H1.
    destruct (event_call w1 call.2) as [us2 w2] eqn:H2. simplify_eq.
    destruct (IH us1 w1 Hcalls eq_refl) as [Hwarped Hor].
    split; [by eapply event_call_warped|].
    rewrite filter_app, !length_app. destruct Hor as [Hidle|Hor].
    - left. unfold event_call, next_event_update, io_bind, get_self in H2. simpl in H2.
      rewrite Hidle in H2. by simplify_eq/=.
    - rewrite filter_cons, filter_nil. case_decide as Hs; simpl; [|right; lia].
      destruct (served_page _ _ _ _ _ _ _ _ Hw0 Hlimit Hto (ex_intro _ events Hevents) Hwarped
        (Hserved Hs) H2) as [Hidle|Hone]; [|right; lia].
      left. unfold event_call, next_event_update, io_bind, get_self in H2. simpl in H2.
      rewrite Hidle in H2. by simplify_eq/=. }
  destruct (Hinv us w Hcalls Hrun) as [[_ _ _ (next & Hcov & Hstep & Hlogs) _] Hor].
  pose proof (covers_le _ _ _ Hcov) as Hge. rewrite length_fmap in Hge.
  destruct (step w) as [|f t p|]; [|destruct Hor as [|Hor]; [done|]|done].
  - subst next. split; [done|]. congruence.
  - destruct Hstep as (_ & _ & ? & _). lia.
Qed.
End warping.
