(* ===== verification/Watcher.v ===== *)
(** * The indexer: [core/index/mod.rs]

    The block watcher and the event watcher as one stream of updates, and the
    state machine that consumes it. *)

From S2P Require Import Prelude.
From S2P Require Import Bytes.
From S2P Require Import Database.
From S2P Require Import Core.
From S2P Require Import StateMachine.
From S2P Require Import Provider.
From S2P Require Import Blocks.
From S2P Require Import BlocksInvariant.
From S2P Require Import Events.
From S2P Require Import EventsFetch.

Open Scope safenet_scope.

(** [index::Error]. *)
Inductive IndexError :=
  | IndexBlocks (error : BlocksError)
  | IndexEvents (error : EventsError).

(** [index::Config]. *)
Record IndexConfig := { blocks_config : BlocksConfig; watch_config : EventsConfig }.

Record Watcher := { watcher_blocks : BlockWatcher; watcher_events : EventWatcher }.

Definition map_interrupt {A B} (f : A → B) (i : Interrupt A) : Interrupt B :=
  match i with Waiting => Waiting | Failed e => Failed (f e) | Panicked => Panicked end.

Abbreviation indexing A := (io (Watcher * Network) A (Interrupt IndexError)).

Definition on_blocks {A} (m : io (BlockWatcher * Network) A (Interrupt BlocksError))
    : indexing A := λ s,
  let '(r, (b, net)) := m (watcher_blocks s.1, s.2) in
  (rmap_err (map_interrupt IndexBlocks) r,
   ({| watcher_blocks := b; watcher_events := watcher_events s.1 |}, net)).
Definition on_events {A} (m : io (EventWatcher * Network) A (Interrupt EventsError))
    : io (Watcher * Network) A (Interrupt EventsError) := λ s,
  let '(r, (e, net)) := m (watcher_events s.1, s.2) in
  (r, ({| watcher_blocks := watcher_blocks s.1; watcher_events := e |}, net)).
Definition on_event_state (m : io EventWatcher () EventsError) : indexing () := λ s,
  let '(r, e) := m (watcher_events s.1) in
  (rmap_err (λ e, Failed (IndexEvents e)) r,
   ({| watcher_blocks := watcher_blocks s.1; watcher_events := e |}, s.2)).

(** [is_resource_not_found]. *)
Definition is_resource_not_found (err : EventsError) : bool :=
  match err with EventsRpc ResourceNotFound => true | _ => false end.

Section indexer.
Context {E : Type} `{!Events E} {AB : AlloyBloom}.

(** [Watcher::new]. *)
Definition Watcher_new (chain_id : N) (config : IndexConfig) (addresses : list Address)
    (indexed : option BlockStatus) : io Network Watcher (Interrupt IndexError) :=
  blocks ←! io_map_err (map_interrupt IndexBlocks)
              (BlockWatcher_new chain_id (blocks_config config) indexed);
  io_ret {| watcher_blocks := blocks;
            watcher_events := EventWatcher_new (E := E) (watch_config config) addresses |}.

Definition next_logs : indexing (option (EventUpdate E)) := λ s,
  match on_events next_event_update s with
  | (Ok logs, s) => (Ok logs, s)
  | (Err (Failed err), s) =>
      if is_resource_not_found err then
        (found ←! on_blocks revalidate_last_block;
         match found with
         | Some invalidated =>
             _ ←! on_event_state (on_block_invalidated (invalidated_hash invalidated));
             io_ret None
         | None => io_fail (Failed (IndexEvents err))
         end) s
      else (Err (Failed (IndexEvents err)), s)
  | (Err e, s) => (Err (map_interrupt IndexEvents e), s)
  end.

(** [Watcher::next]. *)
Definition next_update : indexing (Update E) :=
  logs ←! next_logs;
  match logs with
  | Some events => io_ret (ULogs events)
  | None =>
      update ←! on_blocks next_block_update;
      _ ←! on_event_state (on_block_update update);
      io_ret (UBlock update)
  end.

(** [Watcher::block_status]. *)
Definition indexer_status (w : Watcher) : BlockStatus := watcher_status (watcher_blocks w).

(** ** What is assumed of the node *)

(** Documented behaviour of the node: a block's hash identifies it, so that
    [number_of] the hash is its number; the logs served for a filter are logs it
    selects, those of a block hash are of that block; within a reply, and
    between the replies to one call about the same blocks, a block number and
    log index identify a log, once. *)
Definition numbered (number_of : B256 → N) (b : BlockHeader) : Prop :=
  header_number b < u64_max ∧ number_of (header_hash b) = header_number b.

#[export] Instance numbered_bounded number_of : Bounded (numbered number_of).
Proof. by intros b []. Qed.

Record log_replies_ok (number_of : B256 → N) (reply : Reply) : Prop := {
  served_once f logs : reply_logs reply f = Ok logs → keyed logs;
  served_match f logs log : reply_logs reply f = Ok logs → log ∈ logs → matches f log;
  served_block f logs log hash : reply_logs reply f = Ok logs → log ∈ logs →
    filter_blocks f = FilterHash hash → raw_block_number log = Some (number_of hash);
}.

Definition agree (r1 r2 : Reply) : Prop := ∀ f1 f2 logs1 logs2 a b,
  filter_blocks f1 = filter_blocks f2 → reply_logs r1 f1 = Ok logs1 → reply_logs r2 f2 = Ok logs2 → a ∈ logs1 → b ∈ logs2 →
  raw_block_number a = raw_block_number b → raw_log_index a = raw_log_index b → a = b.

Record index_node_ok (number_of : B256 → N) (net : Network) : Prop := {
  node_blocks : serves_good (numbered number_of) net;
  node_logs : Forall (log_replies_ok number_of) (replies net);
  node_agrees r1 r2 : r1 ∈ replies net → r2 ∈ replies net → agree r1 r2;
}.

Lemma node_suffix number_of net net' :
  index_node_ok number_of net → suffix (replies net') (replies net) →
  index_node_ok number_of net'.
Proof.
  intros [Hb Hl Ha] [pre Hr]. unfold serves_good in *. rewrite Hr in Hb, Hl, Ha.
  apply Forall_app in Hb as [_ Hb], Hl as [_ Hl]. split; [done|done|].
  intros r1 r2 H1 H2. apply Ha; apply elem_of_app; by right.
Qed.

(** ** Fetched logs *)

(** The logs the machine takes for a range of blocks. *)
Definition logs_ordered (from last : N) (logs : list (EventLog E)) : Prop :=
  is_sorted_by log_before logs = true ∧
  ∀ log, log ∈ logs → from ≤ log_block log ∧ log_block log ≤ last.

Lemma strictly_sorted (logs : list (EventLog E)) :
  StronglySorted event_le logs → NoDup (event_key <$> logs) → is_sorted_by log_before logs = true.
Proof.
  intros Hs Hnd. induction Hs as [|a logs Hs IH Ha]; [done|].
  inversion Hnd as [|? ? Hnin Hnd']; subst. destruct logs as [|b logs]; [done|].
  simpl. apply andb_true_iff. split; [|by apply IH].
  apply bool_decide_eq_true. inversion Ha as [|? ? Hab _]; subst.
  assert (event_key a ≠ event_key b) as Hne.
  { intros Heq. apply Hnin. rewrite Heq. simpl. left. }
  unfold event_le, event_key in *.
  destruct (decide (log_block a = log_block b)); [|lia].
  destruct (decide (log_index a = log_index b)); [|lia]. congruence.
Qed.

(** The logs of one call, whatever the strategy. *)
Record raw_ok (from last : N) (logs : list Log) : Prop := {
  raw_keyed : keyed logs;
  raw_range log : log ∈ logs → ∃ n, raw_block_number log = Some n ∧ from ≤ n ∧ n ≤ last;
}.

Lemma decode_ordered from last raw (logs : list (EventLog E)) :
  raw_ok from last raw → decode_and_sort raw = Ok logs → logs_ordered from last logs.
Proof.
  intros [Hk Hr] Hdec. pose proof (decode_and_sort_sorted _ _ Hdec) as Hs.
  unfold decode_and_sort in Hdec.
  destruct (rcollect _) as [es|] eqn:Hes; [|done]. simplify_eq/=.
  apply rcollect_Ok, Forall2_fmap_l in Hes. split.
  - apply strictly_sorted; [done|]. rewrite merge_sort_Permutation. by eapply decoded_keys.
  - intros log. rewrite merge_sort_Permutation. intros [i Hi]%list_elem_of_lookup.
    destruct (Forall2_lookup_r _ _ _ _ _ Hes Hi) as (l & Hl & Hd).
    apply decode_event_Ok in Hd as (Hb & _).
    destruct (Hr l) as (n & Hn & ?); [by eapply list_elem_of_lookup_2|].
    by simplify_eq.
Qed.
End indexer.
