(* ===== verification/Driver.v ===== *)
(** * The service driver: [core/driver.rs], [core/effects.rs]

    One input of the service processed to completion: the transaction queue
    learns of the chain, the state machine advances, and its commands become
    queued transactions and spawned effects; and that they all do. *)

From S2P Require Import Prelude.
From S2P Require Import Bytes.
From S2P Require Import Database.
From S2P Require Import Core.
From S2P Require Import StateMachine.
From S2P Require Import TxQueue.
From S2P Require Import Provider.
From S2P Require Import Watcher.

(** [driver::Config]. *)
Record DriverConfig := {
  config_index : IndexConfig;
  config_transactions : TxConfig;
}.

(** [driver::Error]. *)
Inductive DriverError :=
  | DriverIndex (error : IndexError)
  | DriverState (error : StateError)
  | DriverTransactions (error : QueueError).

(** ** The services *)

(** [Service], by what its [components] do: the transition with its initial
    state; the encoder; the effect handler, over the databases it keeps and what
    happens outside while an effect is performed. A new process reopens the
    handler over the databases the last one left, and may find one action to
    queue before the driver runs. *)
Class Service (V S Event Action Effect Resume Handler World : Type) := {
  initial_state : S;
  transition : V → S → Message Event Resume → S * list (Command Action Effect);
  encode : V → Action → Core.Transaction * option N;
  handler : V → Handler;
  perform : World → Handler → Effect → Resume * Handler;
  reopen : V → Handler → Handler;
  startup : V → option Action;
}.

(** ** The driver *)

Section driver.
Context {S Event Action Effect Resume : Type} {SJ : StateJson S}.
Context (apply_transition : S → Message Event Resume → S * list (Command Action Effect)).
Context (encode_action : Action → Core.Transaction * option N).
Open Scope safenet_scope.

Inductive Input :=
  | InputUpdate (update : Update Event)
  | InputResume (resume : Resume).

(** [tasks] are the effects of the [EffectManager] that are in progress. *)
Record Driver := {
  state : StateMachine (S := S);
  tasks : list Effect;
  transactions : TransactionQueue;
}.

Abbreviation driver A := (io Driver A DriverError).

Definition on_state {A} (m : io StateMachine A StateError) : driver A := λ d,
  let '(r, s) := m (state d) in
  (rmap_err DriverState r,
   {| state := s; tasks := tasks d; transactions := transactions d |}).

(** The queue's errors that are not intermittent end the update; the others are
    logged. *)
Definition on_queue (m : io TransactionQueue () QueueError) : driver () := λ d,
  let '(r, q) := m (transactions d) in
  (match lift_intermittent_error r with
   | Ok _ => Ok ()
   | Err e => Err (DriverTransactions e)
   end, {| state := state d; tasks := tasks d; transactions := q |}).

(** [EffectManager::spawn]. *)
Definition spawn (effects : list Effect) : driver () := λ d,
  (Ok (), {| state := state d; tasks := tasks d ++ effects; transactions := transactions d |}).

Definition encoded (commands : list (Command Action Effect))
    : list (Core.Transaction * option N) :=
  omap (λ c, match c with CAction a => Some (encode_action a) | CEffect _ => None end) commands.
Definition spawned (commands : list (Command Action Effect)) : list Effect :=
  omap (λ c, match c with CEffect e => Some e | CAction _ => None end) commands.

(** [Driver::update]; [chain] is the watcher's view of the chain. *)
Definition driver_update (node : Node) (chain : BlockStatus) (input : Input) : driver () :=
  commands ←! match input with
              | InputUpdate update =>
                  _ ←! on_queue (update_block_status node chain);
                  commands ←! on_state (handle_update apply_transition update);
                  _ ←! on_state (machine_prune (status_safe chain));
                  io_ret commands
              | InputResume resume => on_state (handle_resume apply_transition resume)
              end;
  _ ←! spawn (spawned commands);
  match encoded commands with
  | [] => io_ret ()
  | queued => on_queue (queue node queued)
  end.

(** [Driver::queue_action]. *)
Definition queue_action (node : Node) (action : Action) : driver () := λ d,
  let '(r, q) := queue node [encode_action action] (transactions d) in
  (rmap_err DriverTransactions r, {| state := state d; tasks := tasks d; transactions := q |}).

(** ** What the components establish, the driver does *)

Section specs.
Context (Q : list TxRow → Prop) (R : Effect → Prop).
Context (X : DriverError → Prop) (PE : StateMachine → Prop).

Definition driver_ok (P : StateMachine → Prop) (d : Driver) : Prop :=
  P (state d) ∧ Q (tables (queue_storage (transactions d))) ∧ Forall R (tasks d).

(** What an error leaves. *)
Abbreviation failed := (λ e d, X e ∧ driver_ok PE d).

Lemma on_state_spec {A} P (m : io StateMachine A StateError) (P' : A → StateMachine → Prop) :
  io_spec P m P' (λ e s, X (DriverState e) ∧ PE s) →
  io_spec (driver_ok P) (on_state m) (λ a, driver_ok (P' a)) failed.
Proof.
  intros Hm d (Hd & ? & ?). specialize (Hm _ Hd). unfold on_state.
  destruct (m (state d)) as [[a|e] s]; simpl; [by split|]. by destruct Hm.
Qed.

Lemma on_queue_spec P (m : io TransactionQueue () QueueError) :
  (∀ s, P s → PE s) → (∀ e, is_intermittent e = false → X (DriverTransactions e)) →
  io_preserves (λ q, Q (tables (queue_storage q))) m →
  io_spec (driver_ok P) (on_queue m) (λ _, driver_ok P) failed.
Proof.
  intros HPE HX Hm d (? & Hd & ?). specialize (Hm _ Hd). unfold on_queue.
  destruct (m (transactions d)) as [[[]|e] q]; [done|]. simpl.
  destruct (is_intermittent e) eqn:He; [done|]. split; [by apply HX|].
  split_and!; [by apply HPE|done|done].
Qed.

Lemma spawn_spec P effects :
  Forall R effects →
  io_spec (driver_ok P) (spawn effects) (λ _, driver_ok P) failed.
Proof. intros He d (? & ? & ?). split; [done|]. split; [done|]. by apply Forall_app. Qed.

(** The actions among the commands. *)
Lemma encoded_from (F : Core.Transaction * option N → Prop) commands :
  (∀ a, CAction a ∈ commands → F (encode_action a)) → Forall F (encoded commands).
Proof.
  intros HF. apply Forall_forall. intros x ([a|e] & Hc & [= <-])%list_elem_of_omap. by apply HF.
Qed.
Lemma spawned_from commands :
  (∀ e, CEffect e ∈ commands → R e) → Forall R (spawned commands).
Proof.
  intros HR. apply Forall_forall. intros x ([a|e] & Hc & [= <-])%list_elem_of_omap. by apply HR.
Qed.

(** What an input means to the machine. *)
Definition take_input (chain : BlockStatus) (input : Input)
    : io StateMachine (list (Command Action Effect)) StateError :=
  match input with
  | InputUpdate update =>
      commands ←! handle_update apply_transition update;
      _ ←! machine_prune (status_safe chain);
      io_ret commands
  | InputResume resume => handle_resume apply_transition resume
  end.

(** [Driver::update]: the machine takes the input, after which [P'] is what holds
    of it. *)
Lemma driver_update_spec (F : Core.Transaction * option N → Prop) P P' node chain input :
  (∀ s, P s → PE s) → (∀ s, P' s → PE s) →
  (∀ e, is_intermittent e = false → X (DriverTransactions e)) →
  kept Q → (∀ l, Forall F l → io_preserves (λ s : TransactionStorage, Q (tables s)) (enqueue l)) →
  let taken (commands : list (Command Action Effect)) s :=
    P' s ∧ (∀ a, CAction a ∈ commands → F (encode_action a)) ∧
    (∀ e, CEffect e ∈ commands → R e) in
  io_spec P (take_input chain input) taken (λ e s, X (DriverState e) ∧ PE s) →
  io_spec (driver_ok P) (driver_update node chain input) (λ _, driver_ok P') failed.
Proof.
  intros HP HP' HX K HF taken Htake.
  assert (∀ commands, io_spec (driver_ok (taken commands))
    (_ ←! spawn (spawned commands);
     match encoded commands with [] => io_ret () | queued => on_queue (queue node queued) end)
    (λ _, driver_ok P') failed) as Hdispatch.
  { intros commands d ((Hd & Ha & He) & HQd & HRd).
    assert (io_spec (driver_ok P')
      (_ ←! spawn (spawned commands);
       match encoded commands with [] => io_ret () | queued => on_queue (queue node queued) end)
      (λ _, driver_ok P') failed) as Hs.
    { apply (io_spec_bind _ _ _ _ (λ _, driver_ok P')); [by apply spawn_spec, spawned_from|].
      intros _.
      pose proof (encoded_from F _ Ha) as Henc. destruct (encoded commands) as [|x l].
      - by apply io_spec_ret.
      - apply on_queue_spec; [done|done|]. apply queue_preserves; [by apply kept_kept_rows|]. by apply HF. }
    by apply Hs. }
  unfold driver_update. apply (io_spec_bind _ _ _ _ (λ c, driver_ok (taken c))); [|exact Hdispatch]. destruct input as [update|resume].
  - apply (io_spec_bind _ _ _ _ (λ _, driver_ok P));
      [apply on_queue_spec; [done|done|by apply update_block_status_preserves]|].
    intros _ d (Hd & ? & ?). specialize (Htake _ Hd).
    unfold take_input, io_bind, on_state, io_ret in *.
    destruct (handle_update _ _ (state d)) as [[commands|e] s]; cbn [fst snd state] in *.
    + destruct (machine_prune _ s) as [[[]|e] s']; simpl in *; [done|]. by destruct Htake.
    + by destruct Htake.
  - by apply on_state_spec.
Qed.
End specs.
End driver.
Arguments Driver S Effect {_}.
Arguments Input : clear implicits.

(** ** What becomes of commands *)

Abbreviation table q := (tables (queue_storage q)).

(** ** The queue's table *)

(** [prune_transactions] drops the rows that are settled at the safe block. *)
Definition settled_by (safe : N) (row : TxRow) : Prop :=
  executed_by safe row ∨ expired_by safe row.
#[export] Instance settled_by_dec safe row : Decision (settled_by safe row).
Proof. unfold settled_by. apply _. Defined.

Lemma prune_transactions_exact safe s s' :
  prune_transactions safe s = (Ok (), s') →
  tables s' = filter (λ row, ¬ settled_by safe row) (tables s).
Proof.
  unfold prune_transactions. intros (n & s1 & Hn & H)%io_bind_Ok.
  unfold io_lift in Hn. injection Hn as Hn <-. apply i64_try_from_Ok in Hn as [-> _].
  apply transaction_Ok in H as (s2 & s3 & Hs2 & H & ->). rewrite <- Hs2. clear s Hs2.
  apply io_bind_Ok in H as ([] & s & H1 & H2).
  apply statement_inv in H1 as [[??]|H1]; [done|].
  apply statement_inv in H2 as [[??]|H2]; [done|].
  injection H1 as H1. injection H2 as H2. rewrite <- H2, <- H1, list_filter_filter.
  apply list_filter_iff. intros row. unfold settled_by. tauto.
Qed.

Lemma enqueue_exact l s s' :
  enqueue l s = (Ok (), s') → requests (tables s') = requests (tables s) ++ l.
Proof.
  intros (s1 & s2 & <- & H & ->)%transaction_Ok. revert s1 H.
  induction l as [|[request expires_at] l IH]; intros s1 H.
  - injection H as <-. by rewrite app_nil_r.
  - rewrite io_for_cons in H. apply io_bind_Ok in H as ([] & s3 & H & Hl).
    rewrite (IH _ Hl). apply io_bind_Ok in H as (e & s4 & [-> ->]%to_i64_opt_inv & H).
    apply statement_inv in H as [[??]|H]; [done|]. injection H as H. rewrite <- H.
    unfold requests. rewrite fmap_app. by rewrite <- app_assoc.
Qed.

(** The table keeps these requests, or the error ends the process. *)
Definition holds (l : list (Core.Transaction * option N)) (e : QueueError)
    (q : TransactionQueue) : Prop :=
  is_intermittent e = false ∨ requests (table q) = l.

Lemma queue_exact node l base :
  io_spec (λ q, requests (table q) = base) (queue node l)
    (λ _ q, requests (table q) = base ++ l) (holds (base ++ l)).
Proof.
  apply (io_spec_bind _ _ _ _ (λ _ q, requests (table q) = base ++ l)).
  - intros q <-. unfold on_storage. destruct (enqueue l (queue_storage q)) as [[[]|e] s] eqn:H.
    + by apply enqueue_exact in H.
    + by left.
  - intros _ q Hq. destruct (block_status q) as [status|]; [|done].
    pose proof (submit_pending_preserves node (λ rows, requests rows = base ++ l)
      (requests_kept_rows (λ rs, rs = base ++ l)) (status_latest status) q Hq) as H.
    destruct (submit_pending _ _ q) as [[[]|e] q']; [done|by right].
Qed.

(** ** The driver's queue *)

(** What the queue has left of its transactions when the block status is
    updated. *)
Definition remaining (status : BlockStatus) (q : TransactionQueue) : list TxRow :=
  if prunes status q then filter (λ row, ¬ settled_by (status_safe status) row) (table q)
  else table q.

Lemma update_block_status_exact node status q :
  io_spec (λ q', q' = q) (update_block_status node status)
    (λ _ q', requests (table q') = requests (remaining status q))
    (holds (requests (remaining status q))).
Proof.
  apply (update_block_status_spec node _
    (requests_kept_rows (λ rs, rs = requests (remaining status q)))); [by right|].
  unfold remaining. destruct (prunes status q); [|done].
  intros q' Hq'. unfold on_storage. rewrite Hq'.
  destruct (prune_transactions _ _) as [[[]|e] s] eqn:H; [|by left].
  apply prune_transactions_exact in H. simpl. by rewrite H.
Qed.

Section driver.
Context {S Event Action Effect Resume : Type} {SJ : StateJson S}.
Context (T : S → Message Event Resume → S * list (Command Action Effect)).
Context (encode_action : Action → Core.Transaction * option N).

(** The driver goes on after the operation exactly if it left the table as
    expected. *)
Lemma on_queue_exact (m : io TransactionQueue () QueueError) (d d' : Driver S Effect) l P :
  io_spec P m (λ _ q, requests (table q) = l) (holds l) → P (transactions d) →
  on_queue m d = (Ok (), d') →
  state d' = state d ∧ tasks d' = tasks d ∧ requests (table (transactions d')) = l.
Proof.
  intros Hm Hd. specialize (Hm _ Hd). unfold on_queue.
  destruct (m (transactions d)) as [[[]|e] q]; simpl; [by intros [= <-]|].
  unfold holds in Hm. destruct (is_intermittent e); [|done]. intros [= <-]. by destruct Hm.
Qed.

Lemma on_state_exact {A} (m : io StateMachine A StateError) (d d' : Driver S Effect) a :
  on_state m d = (Ok a, d') →
  m (state d) = (Ok a, state d') ∧ tasks d' = tasks d ∧ transactions d' = transactions d.
Proof.
  unfold on_state. destruct (m (state d)) as [[b|e] s]; [|done]. by intros [= <- <-].
Qed.

(** What the queue has left when an input has been taken. *)
Definition left_over (chain : BlockStatus) (input : Input Event Resume) (q : TransactionQueue)
    : list TxRow :=
  match input with InputUpdate _ => remaining chain q | InputResume _ => table q end.

(** [C7] No command is lost or made up: as long as the driver runs on, the
    actions an input makes the machine command are appended to the queue, in
    order, each with its expiry, behind all that was queued before and is not
    settled at the safe block; and its effects are started. A failure to submit
    them changes nothing about that. *)
Theorem commands_dispatched node chain input (d d' : Driver S Effect) :
  driver_update T encode_action node chain input d = (Ok (), d') →
  ∃ commands, take_input T chain input (state d) = (Ok commands, state d') ∧
    tasks d' = tasks d ++ spawned commands ∧
    requests (table (transactions d')) =
      requests (left_over chain input (transactions d)) ++ encoded encode_action commands.
Proof.
  unfold driver_update. intros (commands & d2 & Htake & H)%io_bind_Ok. exists commands.
  assert (take_input T chain input (state d) = (Ok commands, state d2) ∧ tasks d2 = tasks d ∧
    requests (table (transactions d2)) = requests (left_over chain input (transactions d)))
    as (Hm & Ht & Hr).
  { destruct input as [update|resume].
    - apply io_bind_Ok in Htake as ([] & d3 & Hq & Htake).
      eapply on_queue_exact in Hq as (Hs & Ht & Hr);
        [|by apply update_block_status_exact|done].
      apply io_bind_Ok in Htake as (c & d4 & [H1 [Ht1 Hq1]]%on_state_exact & Htake).
      apply io_bind_Ok in Htake as ([] & d5 & [H2 [Ht2 Hq2]]%on_state_exact & [= -> ->]).
      unfold take_input. rewrite <- Hs. split_and!; [|congruence|by rewrite Hq2, Hq1].
      apply io_bind_Ok. exists commands, (state d4). split; [done|].
      apply io_bind_Ok. by exists (), (state d2).
    - apply on_state_exact in Htake as (H1 & Ht & Hq). split_and!; [done|done|by rewrite Hq]. }
  apply io_bind_Ok in H as ([] & d3 & [= <-] & H). rewrite <- Ht, <- Hr.
  destruct (encoded encode_action commands) as [|x l]; [injection H as <-; by rewrite app_nil_r|].
  eapply on_queue_exact in H as (-> & -> & ->); [done|by apply queue_exact|done].
Qed.
End driver.
