(* ===== verification/Indexing.v ===== *)
(** * The indexer and the state machine

    The stream of updates of [Watcher] is one the state machine of
    [StateMachine] accepts: block updates and logs alternate and follow each
    other as it expects them, through reorgs, warps, retries and resumes. *)

From S2P Require Import Prelude.
From S2P Require Import Bytes.
From S2P Require Import Database.
From S2P Require Import Core.
From S2P Require Import StateMachine.
From S2P Require Import Provider.
From S2P Require Import Blocks.
From S2P Require Import BlocksInvariant.
From S2P Require Import Events.
From S2P Require Import EventsFetch.
From S2P Require Import EventsWarp.
From S2P Require Import Watcher.

Open Scope safenet_scope.

Section indexing.
Context {E : Type} `{!Events E} {AB : AlloyBloom} (number_of : B256 → N).

(** ** Fetching *)

(** The blocks a fetch is for. *)
Definition blocks_within (blocks : BlockFilter) (from last : N) : Prop :=
  match blocks with
  | FilterRange f l => f = from ∧ l = last
  | FilterHash hash => from = number_of hash ∧ last = number_of hash
  end.
Definition fetch_within (fetch : Fetch) (from last : N) : Prop :=
  match fetch with
  | SingleQuery b | MultipleQueries b => blocks_within b from last
  | ClientFiltered hash _ => blocks_within (FilterHash hash) from last
  end.

Definition served_by (net : Network) (blocks : BlockFilter) (log : Log) : Prop :=
  ∃ reply f logs, reply ∈ replies net ∧ filter_blocks f = blocks ∧ reply_logs reply f = Ok logs ∧ log ∈ logs.

Lemma served_agree net blocks a b :
  index_node_ok number_of net → served_by net blocks a → served_by net blocks b →
  raw_block_number a = raw_block_number b → raw_log_index a = raw_log_index b → a = b.
Proof.
  intros Hnet (r1 & f1 & l1 & H1 & Hf1 & Hl1 & Ha) (r2 & f2 & l2 & H2 & Hf2 & Hl2 & Hb).
  eapply (node_agrees _ _ Hnet r1 r2 H1 H2 f1 f2); [congruence|done..].
Qed.

Lemma served_within net reply f logs log from last :
  index_node_ok number_of net → reply ∈ replies net → reply_logs reply f = Ok logs → log ∈ logs →
  blocks_within (filter_blocks f) from last →
  ∃ n, raw_block_number log = Some n ∧ from ≤ n ∧ n ≤ last.
Proof.
  intros [_ Hlogs _] Hr Hl Hin Hb. rewrite Forall_forall in Hlogs.
  specialize (Hlogs _ Hr). destruct (filter_blocks f) as [hash|f' l'] eqn:Hf; simpl in Hb.
  - exists (number_of hash). rewrite (served_block _ _ Hlogs _ _ _ _ Hl Hin Hf).
    split; [done|]. destruct Hb. lia.
  - pose proof (served_match _ _ Hlogs _ _ _ Hl Hin) as [Hm _]. rewrite Hf in Hm.
    simpl in Hm. destruct (raw_block_number log) as [n|]; [|done]. exists n.
    split; [done|]. destruct Hb. lia.
Qed.

(** The logs of one topic's query. *)
Record topic_logs (net : Network) (blocks : BlockFilter) (from last : N) (topic : B256) (logs : list Log) : Prop := {
  topic_keyed : keyed logs;
  topic_served log : log ∈ logs → served_by net blocks log;
  topic_within log : log ∈ logs → ∃ n, raw_block_number log = Some n ∧ from ≤ n ∧ n ≤ last;
  topic_own log : log ∈ logs → topic0 log = Some topic;
}.

Lemma query_event_topic w net blocks topic reply logs from last :
  index_node_ok number_of net → reply ∈ replies net → blocks_within blocks from last →
  query_event w blocks topic reply = Ok logs → topic_logs net blocks from last topic logs.
Proof.
  intros Hnet Hr Hb Hq. unfold query_event, get_logs in Hq.
  assert (topic_logs net blocks from last topic []) as Hnil.
  { split; [split; [constructor|]|..]; set_solver. }
  destruct (reply_logs reply _) as [logs'|] eqn:Hl; simpl in Hq; [|case_decide; by simplify_eq].
  destruct (check_logs_limit w logs') as [l|] eqn:Hlimit; [|case_decide; by simplify_eq].
  apply check_logs_limit_Ok in Hlimit as ->. simplify_eq.
  pose proof (node_logs _ _ Hnet) as Hlogs. rewrite Forall_forall in Hlogs.
  specialize (Hlogs _ Hr). split.
  - by eapply served_once.
  - intros log Hin. exists reply. eexists _, logs.
    split; [done|]. split; [|split; [exact Hl|done]]. done.
  - intros log Hin. by eapply served_within.
  - intros log Hin. destruct (served_match _ _ Hlogs _ _ _ Hl Hin) as (_ & _ & [|Ht]); [done|].
    unfold topic_in in Ht. simpl in Ht. destruct (topic0 log); [|done].
    apply list_elem_of_singleton in Ht. by subst.
Qed.

Lemma topics_raw_ok net blocks from last ts xs :
  index_node_ok number_of net → NoDup ts →
  Forall2 (topic_logs net blocks from last) ts xs → raw_ok from last (concat xs).
Proof.
  intros Hnet Hts Hf.
  assert ((∀ log, log ∈ concat xs → served_by net blocks log ∧
      (∃ n, raw_block_number log = Some n ∧ from ≤ n ∧ n ≤ last) ∧
      ∃ t, t ∈ ts ∧ topic0 log = Some t) ∧ NoDup (concat xs)) as [Hall Hnd].
  { induction Hf as [|t x ts xs Hx Hf IH]; simpl.
    { split; [|constructor]. intros log Hin. by apply elem_of_nil in Hin. }
    inversion Hts as [|? ? Hnin Hts']; subst. destruct (IH Hts') as [Hall Hnd]. split.
    - intros log [Hin|Hin]%elem_of_app.
      + split_and!; [by eapply topic_served|by eapply topic_within|].
        exists t. split; [left|by eapply topic_own].
      + destruct (Hall _ Hin) as (? & ? & t' & ? & ?). split_and!; [done..|].
        exists t'. split; [by right|done].
    - apply NoDup_app. split_and!; [apply (topic_keyed _ _ _ _ _ _ Hx)| |done].
      intros log Hin Hin'. destruct (Hall _ Hin') as (_ & _ & t' & Ht' & Htopic).
      rewrite (topic_own _ _ _ _ _ _ Hx _ Hin) in Htopic. by simplify_eq. }
  split; [split; [done|]|].
  - intros a b Ha Hb. eapply served_agree; [done|by apply Hall..].
  - intros log Hin. by apply Hall.
Qed.

Lemma next_reply_suffix net reply net' :
  next_reply net = Some (reply, net') → reply ∈ replies net ∧ suffix (replies net') (replies net).
Proof.
  unfold next_reply. destruct (replies net) as [|r rest] eqn:Hr; [done|]. intros [= <- <-].
  simpl. split; [left|by exists [r]].
Qed.

Lemma query_suffix {A} (ask : Reply → result A EventsError) net r net' :
  query ask net = (r, net') → suffix (replies net') (replies net) ∧
  ∀ a, r = Ok a → ∃ reply, reply ∈ replies net ∧ ask reply = Ok a.
Proof.
  unfold query. destruct (next_reply net) as [[reply net1]|] eqn:Hn; intros [= <- <-]; [|done].
  apply next_reply_suffix in Hn as [Hin Hs]. split; [done|].
  intros a Ha. exists reply. split; [done|]. by destruct (ask reply); simplify_eq/=.
Qed.

Lemma try_join_all_suffix {A F} (asks : list (Reply → result A F)) net r net' :
  try_join_all asks net = (r, net') → suffix (replies net') (replies net).
Proof.
  unfold try_join_all. intros H.
  assert (replies net' = drop (length asks) (replies net)) as ->.
  { destruct (first_error _) as [[]|]; [|destruct (all_answers _ _) as [[]|]]; by simplify_eq/=. }
  apply suffix_drop.
Qed.

(** The errors of a fetch are not those of a call out of turn. *)
Definition fetch_error (i : Interrupt EventsError) : Prop :=
  match i with
  | Failed UnexpectedBlockUpdate | Failed UnexpectedBlockInvalidation | Panicked => False
  | _ => True
  end.

Lemma fetch_raw_error w fetch net i net' :
  fetch_raw_logs w fetch net = (Err i, net') → fetch_error i.
Proof.
  assert (∀ f reply, match (logs ←? get_logs f reply; check_logs_limit w logs) with
    | Ok _ => True | Err e => fetch_error (Failed e) end) as Hask.
  { intros f reply. unfold get_logs. destruct (reply_logs reply f) as [logs|]; simpl; [|done].
    unfold check_logs_limit. destruct (max_logs_per_query _); [case_decide|]; done. }
  destruct fetch as [b|b|hash bloom]; simpl; unfold query, io_bind.
  - destruct (next_reply net) as [[reply net1]|]; [|by intros [= <- _]].
    specialize (Hask {| filter_blocks := b; filter_addresses := addresses w;
      filter_topics := watched_topics w |} reply).
    destruct (rbind _ _) as [|e]; intros [= <- _]. done.
  - destruct (try_join_all _ net) as [[xs|e] net1] eqn:Hjoin; [done|]. intros [= -> _].
    unfold try_join_all in Hjoin. destruct (first_error _) as [[at_ms e]|] eqn:He.
    2: { destruct (all_answers _ _) as [[]|]; simplify_eq. done. }
    simplify_eq. apply first_error_from in He as [now Hin].
    unfold arrivals in Hin. apply elem_of_lookup_imap in Hin as (j & ask & Heq & Hl).
    destruct (replies net !! j) as [reply|]; simplify_eq/=.
    apply list_lookup_fmap_Some in Hl as (topic & -> & _). unfold query_event in H0.
    specialize (Hask {| filter_blocks := b; filter_addresses := addresses w;
      filter_topics := [topic] |} reply).
    destruct (rbind _ _) as [|e']; [done|]. case_decide; by simplify_eq.
  - destruct (next_reply net) as [[reply net1]|]; [|by intros [= <- _]]. unfold get_logs.
    destruct (reply_logs reply _) as [logs|]; simpl; [|by intros [= <- _]].
    case_decide; simpl; intros [= <- _]. done.
Qed.

Lemma fetch_raw_ok w fetch net r net' from last :
  index_node_ok number_of net → NoDup (watched_topics w) → fetch_within fetch from last →
  fetch_raw_logs w fetch net = (r, net') →
  suffix (replies net') (replies net) ∧ ∀ logs, r = Ok logs → raw_ok from last logs.
Proof.
  intros Hnet Hts Hfetch Hraw.
  pose proof (node_logs _ _ Hnet) as Hlogs. rewrite Forall_forall in Hlogs.
  destruct fetch as [b|b|hash bloom]; simpl in *.
  - apply query_suffix in Hraw as [Hs Hok]. split; [done|]. intros logs ->.
    destruct (Hok logs eq_refl) as (reply & Hr & Hask). unfold get_logs in Hask.
    destruct (reply_logs reply _) as [logs'|] eqn:Hl; simpl in Hask; [|done].
    apply check_logs_limit_Ok in Hask as ->. split; [by eapply served_once; [apply Hlogs|]|].
    intros log Hin. by eapply served_within.
  - unfold io_bind, io_ret in Hraw. destruct (try_join_all _ net) as [[xs|e] net1] eqn:Hjoin;
      simplify_eq/=; (split; [by eapply try_join_all_suffix|]); [|done].
    intros logs [= <-]. apply try_join_all_inv, Forall2_fmap_l in Hjoin.
    eapply topics_raw_ok; [done|done|]. eapply Forall2_impl; [exact Hjoin|].
    intros topic x (reply & Hin & Hq). by eapply query_event_topic.
  - apply query_suffix in Hraw as [Hs Hok]. split; [done|]. intros logs ->.
    destruct (Hok logs eq_refl) as (reply & Hr & Hask). unfold get_logs in Hask.
    destruct (reply_logs reply _) as [logs'|] eqn:Hl; simpl in Hask; [|done].
    case_decide; [done|]. simplify_eq. split.
    + apply keyed_filter. by eapply served_once; [apply Hlogs|].
    + intros log [_ Hin]%list_elem_of_filter. by eapply served_within.
Qed.

Lemma fetching_spec w net fetch done failed from last r s :
  index_node_ok number_of net → NoDup (watched_topics w) → fetch_within fetch from last →
  fetching (E := E) fetch done failed (w, net) = (r, s) →
  suffix (replies s.2) (replies net) ∧
  match r with
  | Ok logs => s.1 = with_step done w ∧ logs_ordered from last logs
  | Err Waiting => s.1 = w
  | Err i => s.1 = with_step failed w ∧ fetch_error i
  end.
Proof.
  intros Hnet Hts Hfetch Hf. unfold fetching, fetch_logs, io_bind, io_lift in Hf.
  destruct (fetch_raw_logs w fetch net) as [raw net1] eqn:Hraw.
  destruct (fetch_raw_ok _ _ _ _ _ _ _ Hnet Hts Hfetch Hraw) as [Hs Hok].
  destruct raw as [raw|[|e|]]; [|by simplify_eq/=|..].
  2: { pose proof (fetch_raw_error _ _ _ _ _ Hraw). by simplify_eq/=. }
  2: { by pose proof (fetch_raw_error _ _ _ _ _ Hraw). }
  simpl in Hf. destruct (decode_and_sort raw) as [logs|e] eqn:Hdec; simplify_eq/=.
  2: { split; [done|]. split; [done|]. unfold decode_and_sort in Hdec.
       destruct (rcollect _) as [|e'] eqn:Hes; [done|]. simplify_eq/=.
       clear -Hes. induction raw as [|log raw IH]; [done|]. simpl in Hes.
       unfold decode_event at 1 in Hes. destruct (mbind _ _); simpl in Hes; [|by simplify_eq].
       destruct (rcollect _); [done|]. simplify_eq/=. by apply IH. }
  split; [done|]. split; [done|]. eapply decode_ordered; [|done]. by apply Hok.
Qed.

(** ** One step of the event watcher *)

#[local] Arguments fetching : simpl never.

Lemma next_event_update_spec w net r s :
  index_node_ok number_of net → NoDup (watched_topics w) →
  match step w with
  | Warping f t _ => f ≤ t ∧ t < u64_max
  | StepBlock n h _ _ => number_of h = n
  | Idle => True
  end →
  next_event_update (E := E) (w, net) = (r, s) →
  suffix (replies s.2) (replies net) ∧
  match step w, r with
  | Idle, _ => r = Ok None ∧ s.1 = w
  | Warping f t _, Ok update => ∃ last logs,
      update = Some {| update_blocks := mkRange f last; update_logs := logs |} ∧
      f ≤ last ∧ last ≤ t ∧ logs_ordered f last logs ∧
      ∃ page, s.1 = with_step (if decide (last = t) then Idle
                               else Warping (wrapping_add last 1) t page) w
  | Warping f t _, Err i => fetch_error i ∧ ∃ page, s.1 = with_step (Warping f t page) w
  | StepBlock n h bloom _, Ok update => ∃ logs,
      update = Some {| update_blocks := mkRange n n; update_logs := logs |} ∧
      logs_ordered n n logs ∧ s.1 = with_step Idle w
  | StepBlock n h bloom _, Err i =>
      fetch_error i ∧ ∃ retries, s.1 = with_step (StepBlock n h bloom retries) w
  end.
Proof.
  intros Hnet Hts Hstep Hrun. unfold next_event_update in Hrun.
  unfold io_bind at 1, get_self at 1 in Hrun. simpl in Hrun.
  assert (with_step (step w) w = w) as Hsame by by destruct w.
  destruct (step w) as [|f t page|n h bloom retries] eqn:Hst.
  - unfold io_ret in Hrun. by simplify_eq/=.
  - unfold io_bind at 1, warp in Hrun. unfold io_bind at 1, get_self in Hrun.
    unfold io_bind in Hrun. simpl in Hrun.
    set (last := N.min t (saturating_add f (nonzero_get page - 1))) in *.
    assert (f ≤ last ∧ last ≤ t) as [H1 H2] by (unfold last, saturating_add, nonzero_get; lia).
    destruct (fetching _ _ _ (w, net)) as [r1 s1] eqn:Hf.
    apply (fetching_spec _ _ _ _ _ f last) in Hf as [Hs Hr]; [|done|done|by case_decide].
    destruct r1 as [logs|i]; unfold io_ret in Hrun; simplify_eq/=; (split; [done|]).
    + destruct Hr as [-> Hlogs]. exists last, logs. split_and!; try done. by eexists.
    + destruct i as [|e|].
      * split; [done|]. exists page. congruence.
      * destruct Hr. split; [done|]. by eexists.
      * by destruct Hr.
  - unfold io_bind at 1, block in Hrun. unfold io_bind at 1, get_self in Hrun.
    unfold io_bind in Hrun. simpl in Hrun.
    destruct (fetching _ _ _ (w, net)) as [r1 s1] eqn:Hf.
    apply (fetching_spec _ _ _ _ _ n n) in Hf as [Hs Hr]; [|done|done|].
    2: { destruct (decide _); [destruct (use_client_filtering _)|]; simpl; by subst n. }
    destruct r1 as [logs|i]; unfold io_ret in Hrun; simplify_eq/=; (split; [done|]).
    + destruct Hr as [-> Hlogs]. by exists logs.
    + destruct i as [|e|].
      * split; [done|]. exists retries. congruence.
      * destruct Hr. split; [done|]. by eexists.
      * by destruct Hr.
Qed.
End indexing.
