(* ===== verification/IndexSafety.v ===== *)
(** * The indexer serves the state machine

    Whatever reorgs, failures, dropped calls and restarts happen, the updates
    the indexer produces are the ones the state machine is waiting for. *)

From S2P Require Import Prelude.
From S2P Require Import Bytes.
From S2P Require Import Database.
From S2P Require Import Core.
From S2P Require Import StateMachine.
From S2P Require Import Provider.
From S2P Require Import Blocks.
From S2P Require Import BlocksInvariant.
From S2P Require Import Events.
From S2P Require Import EventsFetch.
From S2P Require Import EventsWarp.
From S2P Require Import Watcher.
From S2P Require Import Indexing.

Open Scope safenet_scope.

(** ** The order of updates

    What the machine is waiting for, as the indexer sees it. *)
Definition status_of (expected : option N) : Status :=
  match expected with None => Initialized | Some p => BlockPending p end.

Definition block_status (u : BlockUpdate) : Status :=
  match u with
  | Warp from to => WarpEvents (mkRange from to)
  | Uncle number => BlockPending number
  | New number _ _ => BlockEvents number
  end.

Section serves.
Context {E : Type} `{!Events E} {AB : AlloyBloom}.

(** An update in its turn, and what is waited for after it. *)
Inductive delivers : Status → Update E → Status → Prop :=
  | delivers_block expected u expected' :
      accept expected u = Some expected' →
      (∀ from to, u = Warp from to → to < u64_max) →
      delivers (status_of expected) (UBlock u) (block_status u)
  | delivers_uncle n : delivers (BlockEvents n) (UBlock (Uncle n)) (BlockPending n)
  | delivers_page from to last logs :
      from ≤ last → last ≤ to → to < u64_max → logs_ordered from last logs →
      delivers (WarpEvents (mkRange from to))
        (ULogs {| update_blocks := mkRange from last; update_logs := logs |})
        (if decide (last < to) then WarpEvents (mkRange (last + 1) to) else BlockPending (to + 1))
  | delivers_logs n logs :
      n < u64_max → logs_ordered n n logs →
      delivers (BlockEvents n)
        (ULogs {| update_blocks := mkRange n n; update_logs := logs |}) (BlockPending (n + 1)).

(** ** The indexer's invariant *)

Context (number_of : B256 → N).

Definition step_ok (w : Watcher) (status : Status) : Prop :=
  match step (watcher_events w) with
  | Idle => ∃ expected, status = status_of expected ∧ queue_ok expected (watcher_blocks w)
  | Warping from to _ =>
      status = WarpEvents (mkRange from to) ∧ from ≤ to ∧
      to ≤ safe_number (watcher_safe (watcher_blocks w)) ∧
      queue_ok (Some (to + 1)) (watcher_blocks w)
  | StepBlock n hash _ _ =>
      status = BlockEvents n ∧ number_of hash = n ∧ n < u64_max ∧
      queue_ok (Some (n + 1)) (watcher_blocks w) ∧
      ∀ b, b ∈ recent (watcher_blocks w) → header_number b = n → header_hash b = hash
  end.

Record indexing_ok (w : Watcher) (status : Status) : Prop := {
  indexing_window : window_ok (numbered number_of) (watcher_blocks w);
  indexing_topics : NoDup (watched_topics (watcher_events w));
  indexing_step : step_ok w status;
}.

(** The blocks told of have the number of their hash. *)
Lemma advanced_numbered w number hash bloom w' :
  window_ok (numbered number_of) w → queued_news w →
  advanced (numbered number_of) w (New number hash bloom) w' →
  number_of hash = number ∧ number < u64_max.
Proof.
  remember (New number hash bloom) as u eqn:Hnew. intros Hw (first & k & Hq & Hfirst) Hadv.
  destruct Hadv as [u rest Hu|b w' _ _ [Hlt Hb] _ _ _ _ _|]; [subst u| |done].
  - rewrite Hu in Hq. destruct first as [|u first].
    2: { injection Hq as <- _. exfalso. eapply Hfirst. left. }
    destruct (drop k (recent w)) as [|b l] eqn:Hd; [done|]. injection Hq as -> -> _ _.
    pose proof (ok_good w Hw) as Hg. rewrite Forall_forall in Hg. destruct (Hg b) as [? ?]; [|done].
    rewrite <-(take_drop k (recent w)), Hd. apply elem_of_app. right. left.
  - injection Hnew as <- <- _. done.
Qed.

Lemma safe_bounded w :
  window_ok (numbered number_of) w → safe_number (watcher_safe w) < u64_max.
Proof. intros [_ _ Hp Hb _]. lia. Qed.

(** The block watcher moves on while the event watcher is idle. *)
Lemma advanced_step expected w u b' e' :
  window_ok (numbered number_of) (watcher_blocks w) → queue_ok expected (watcher_blocks w) →
  advanced (numbered number_of) (watcher_blocks w) u b' →
  step (watcher_events w) = Idle → on_block_update u (watcher_events w) = (Ok (), e') →
  delivers (status_of expected) (UBlock u) (block_status u) ∧
  step_ok {| watcher_blocks := b'; watcher_events := e' |} (block_status u).
Proof.
  intros Hw Hq Hadv Hidle Hupdate.
  destruct (advanced_queue _ _ _ _ Hw Hq Hadv) as (expected' & Hacc & Hq').
  destruct (advanced_safe _ _ _ Hw Hadv) as [Hsafe _].
  pose proof (advanced_window _ _ _ Hw Hadv) as Hw'.
  assert (∀ from to, u = Warp from to → to ≤ safe_number (watcher_safe (watcher_blocks w)))
    as Hwarp.
  { intros from to ->. inversion Hadv; subst.
    eapply (queued_warp _ _ Hq). by match goal with H : updates _ = _ |- _ => rewrite H; left end. }
  pose proof (safe_bounded _ Hw).
  split. { econstructor; [done|]. intros from to ->. specialize (Hwarp _ _ eq_refl). lia. }
  unfold on_block_update in Hupdate. rewrite Hidle in Hupdate. simplify_eq.
  unfold step_ok. destruct u as [from to|number|number hash bloom]; simpl.
  - specialize (Hwarp _ _ eq_refl).
    assert (from ≤ to ∧ expected' = Some (to + 1)) as [Hle ->]
      by (destruct expected; simpl in Hacc; repeat case_decide; simplify_eq; split; naive_solver).
    split_and!; [done|done|lia|done].
  - assert (expected' = Some number) as -> by (destruct expected; simpl in Hacc; repeat case_decide;
      by simplify_eq). by exists (Some number).
  - destruct (advanced_numbered _ _ _ _ _ Hw (queued_new _ _ Hq) Hadv) as [Hn Hlt].
    assert (expected' = Some (number + 1)) as ->
      by (destruct expected; simpl in Hacc; repeat case_decide; by simplify_eq).
    split_and!; try done. intros b.
    exact (advanced_held _ _ _ _ _ _ _ Hw Hq Hadv).
Qed.

(** ** One call of the indexer *)

(** Errors of the node and of a reorg that is too deep; none of a call out of
    turn, and no panic. *)
Definition index_error (i : Interrupt IndexError) : Prop :=
  match i with
  | Panicked => False
  | Failed (IndexEvents e) => fetch_error (Failed e)
  | _ => True
  end.

(** Once no logs are left: the event watcher is idle, and the machine waits for
    the next block, or for the uncle of the block whose logs were given up. *)
Record drained (w : Watcher) (status : Status) : Prop := {
  drained_window : window_ok (numbered number_of) (watcher_blocks w);
  drained_topics : NoDup (watched_topics (watcher_events w));
  drained_idle : step (watcher_events w) = Idle;
  drained_queue : ∃ expected, queue_ok expected (watcher_blocks w) ∧
    (status = status_of expected ∨
     ∃ n, status = BlockEvents n ∧ updates (watcher_blocks w) = [Uncle n]);
}.

Lemma page_status (to last : N) :
  last ≤ to → (if decide (last < to) then WarpEvents (mkRange (last + 1) to)
               else BlockPending (to + 1)) =
  (if decide (last = to) then BlockPending (to + 1) else WarpEvents (mkRange (last + 1) to)).
Proof. intros. repeat case_decide; try done; lia. Qed.

(** A batch of logs is one the machine waits for. *)
Lemma logs_delivered w status u e' :
  indexing_ok w status →
  match step (watcher_events w) with
  | Idle => False
  | Warping f t _ => ∃ last logs,
      u = {| update_blocks := mkRange f last; update_logs := logs |} ∧
      f ≤ last ∧ last ≤ t ∧ logs_ordered f last logs ∧
      ∃ page, e' = with_step (if decide (last = t) then Idle
                              else Warping (wrapping_add last 1) t page) (watcher_events w)
  | StepBlock n h bloom _ => ∃ logs,
      u = {| update_blocks := mkRange n n; update_logs := logs |} ∧
      logs_ordered n n logs ∧ e' = with_step Idle (watcher_events w)
  end →
  ∃ status', delivers status (ULogs u) status' ∧
    indexing_ok {| watcher_blocks := watcher_blocks w; watcher_events := e' |} status'.
Proof.
  intros [Hw Hts Hstep] Hu. unfold step_ok in Hstep.
  destruct (step (watcher_events w)) as [|f t page|n h bloom retries]; [done| |].
  - destruct Hstep as (-> & Hle & Hsafe & Hq). pose proof (safe_bounded _ Hw).
    destruct Hu as (last & logs & -> & H1 & H2 & Hlogs & page' & ->).
    eexists. split; [apply delivers_page; [done|done|lia|done]|].
    split; [done|exact Hts|]. rewrite page_status by done.
    unfold step_ok; simpl. case_decide as Hlast; simpl.
    + by exists (Some (t + 1)).
    + rewrite wrapping_add_small by lia. split_and!; [done|lia|done|done].
  - destruct Hstep as (-> & Hn & Hlt & Hq & _). destruct Hu as (logs & -> & Hlogs & ->).
    eexists. split; [by apply delivers_logs|].
    split; [done|exact Hts|]. by exists (Some (n + 1)).
Qed.

(** A failed or dropped fetch leaves the watcher where it was. *)
Lemma fetch_retried w status e' :
  indexing_ok w status →
  match step (watcher_events w) with
  | Idle => False
  | Warping f t _ => ∃ page, e' = with_step (Warping f t page) (watcher_events w)
  | StepBlock n h bloom _ => ∃ retries, e' = with_step (StepBlock n h bloom retries) (watcher_events w)
  end →
  indexing_ok {| watcher_blocks := watcher_blocks w; watcher_events := e' |} status.
Proof.
  intros [Hw Hts Hstep] Hu. unfold step_ok in Hstep.
  destruct (step (watcher_events w)); [done|destruct Hu as [? ->]..];
    (split; [done|exact Hts|exact Hstep]).
Qed.

(** Revalidation after a fetch that found nothing. *)
Lemma revalidate_ok w status net r s err :
  index_node_ok number_of net → indexing_ok w status → step (watcher_events w) ≠ Idle →
  fetch_error (Failed err) →
  (found ←! on_blocks revalidate_last_block;
   match found with
   | Some invalidated =>
       _ ←! on_event_state (on_block_invalidated (invalidated_hash invalidated));
       io_ret (@None (EventUpdate E))
   | None => io_fail (Failed (IndexEvents err))
   end) (w, net) = (r, s) →
  match r with
  | Ok found => found = None ∧ drained s.1 status ∧ serves_good (numbered number_of) s.2
  | Err i => indexing_ok s.1 status ∧ index_error i
  end.
Proof.
  intros Hnet Hok Hbusy Herr Hrun. unfold io_bind at 1, on_blocks in Hrun.
  cbn [fst snd] in Hrun.
  pose proof (revalidate_last_block_spec (watcher_blocks w) (watcher_blocks w, net)
    (conj eq_refl (node_blocks _ _ Hnet))) as Hspec.
  destruct (revalidate_last_block _) as [[[block|]|i] [b' net']]; simpl in Hrun, Hspec.
  - destruct Hspec as (Hnet' & last & Hinv & ->). destruct Hok as [Hw Hts Hstep].
    unfold step_ok in Hstep. unfold io_bind, on_event_state, on_block_invalidated in Hrun.
    simpl in Hrun.
    destruct (step (watcher_events w)) as [|f t page|n h bloom retries] eqn:Hst; [done| |].
    + destruct Hstep as (_ & _ & Hsafe & Hq).
      by destruct (warping_not_invalidated _ _ _ _ Hw Hq Hsafe Hinv).
    + destruct Hstep as (-> & Hn & Hlt & Hq & Hhash).
      pose proof (invalidated_last _ _ _ _ Hw Hq Hinv) as Hlast.
      assert (h = header_hash last) as ->.
      { symmetry. apply Hhash; [|lia]. destruct (invalid_recent _ _ _ Hinv) as (tail & -> & _).
        apply elem_of_app. right. left. }
      rewrite decide_True in Hrun by done. injection Hrun as <- <-. simpl.
      split; [done|]. split; [|done]. split; simpl; [by eapply invalidated_window|done|done|].
      exists (Some (n + 1)). split; [by eapply invalidated_queue|]. right. exists n.
      split; [done|]. rewrite (invalid_updates _ _ _ Hinv). do 2 f_equal. lia.
  - destruct Hspec as [_ ->]. unfold io_fail in Hrun. simplify_eq/=. by destruct w.
  - destruct Hspec as (-> & _ & Hi). simplify_eq/=. split; [by destruct w|]. by destruct i.
Qed.

Lemma next_logs_ok w status net r s :
  index_node_ok number_of net → indexing_ok w status →
  next_logs (E := E) (w, net) = (r, s) →
  match r with
  | Ok (Some u) => ∃ status', delivers status (ULogs u) status' ∧ indexing_ok s.1 status'
  | Ok None => drained s.1 status ∧ serves_good (numbered number_of) s.2
  | Err i => indexing_ok s.1 status ∧ index_error i
  end.
Proof.
  intros Hnet Hok Hrun. unfold next_logs, on_events in Hrun. cbn [fst snd] in Hrun.
  pose proof Hok as [Hw Hts Hstep].
  destruct (next_event_update (watcher_events w, net)) as [r1 [e' net']] eqn:Hnext.
  apply (next_event_update_spec number_of) in Hnext as [Hsuf Hspec]; [|done|done|].
  2: { unfold step_ok in Hstep. destruct (step (watcher_events w)); [done| |naive_solver].
       pose proof (safe_bounded _ Hw). naive_solver lia. }
  simpl in Hsuf, Hspec. pose proof (node_suffix _ _ _ Hnet Hsuf) as Hnet'.
  destruct r1 as [[u|]|i].
  - simplify_eq/=. apply logs_delivered; [done|].
    destruct (step (watcher_events w)); naive_solver.
  - simplify_eq/=.
    destruct (step (watcher_events w)) eqn:Hst; [|by naive_solver..].
    destruct Hspec as [_ ->]. unfold step_ok in Hstep. rewrite Hst in Hstep.
    destruct Hstep as (expected & -> & Hq). split; [|apply Hnet'].
    split; simpl; [done..|]. exists expected. auto.
  - assert (step (watcher_events w) ≠ Idle ∧ fetch_error i ∧
      indexing_ok {| watcher_blocks := watcher_blocks w; watcher_events := e' |} status)
      as (Hbusy & Herr & Hok').
    { split_and!; [destruct (step (watcher_events w)); naive_solver..|].
      apply fetch_retried; [done|]. destruct (step (watcher_events w)); naive_solver. }
    destruct i as [|err|]; [by simplify_eq/=| |done].
    destruct (is_resource_not_found err) eqn:Hnf; [|by simplify_eq/=].
    eapply revalidate_ok in Hrun; [|done|done| |done].
    + destruct r as [[u|]|i]; naive_solver.
    + simpl. destruct (step (watcher_events w)); naive_solver.
Qed.

Lemma next_block_update_queued w u rest net :
  updates w = u :: rest → next_block_update (w, net) = (Ok u, (with_updates rest w, net)).
Proof. intros Hu. unfold next_block_update, io_bind, get_self; simpl. by rewrite Hu. Qed.

Lemma next_update_ok w status net r s :
  index_node_ok number_of net → indexing_ok w status →
  next_update (E := E) (w, net) = (r, s) →
  match r with
  | Ok u => ∃ status', delivers status u status' ∧ indexing_ok s.1 status'
  | Err i => indexing_ok s.1 status ∧ index_error i
  end.
Proof.
  intros Hnet Hok Hrun. unfold next_update in Hrun. unfold io_bind at 1 in Hrun.
  destruct (next_logs (w, net)) as [r1 [w1 net1]] eqn:Hlogs.
  apply next_logs_ok with (status := status) in Hlogs; [|done|done].
  destruct r1 as [[u|]|i]; simpl in Hlogs; [unfold io_ret in Hrun; by simplify_eq/=| |by simplify_eq/=].
  destruct Hlogs as [[Hw Hts Hidle (expected & Hq & Hstatus)] Hnet1].
  unfold io_bind at 1, on_blocks in Hrun. cbn [fst snd] in Hrun.
  pose proof (next_block_update_spec (watcher_blocks w1) (watcher_blocks w1, net1)
    (conj eq_refl Hnet1)) as Hspec.
  destruct (next_block_update (watcher_blocks w1, net1)) as [[u|i] [b' net']] eqn:Hnext.
  - destruct Hspec as [Hadv _]. cbn [fst snd rmap_err] in Hrun, Hadv.
    unfold io_bind, on_event_state in Hrun. simpl in Hrun.
    destruct (on_block_update u (watcher_events w1)) as [r2 e'] eqn:Hu.
    assert (r2 = Ok () ∧ NoDup (watched_topics e')) as [-> Hts'].
    { unfold on_block_update in Hu. rewrite Hidle in Hu. by simplify_eq. }
    injection Hrun as <- <-. simpl.
    destruct (advanced_step _ _ _ _ _ Hw Hq Hadv Hidle Hu) as [Hdel Hstep].
    exists (block_status u). split; [|split; [by eapply advanced_window|done|done]].
    destruct Hstatus as [-> |(n & -> & Hupdates)]; [done|].
    rewrite (next_block_update_queued _ _ _ _ Hupdates) in Hnext. simplify_eq.
    apply delivers_uncle.
  - destruct Hstatus as [-> |(n & -> & Hupdates)].
    2: { by rewrite (next_block_update_queued _ _ _ _ Hupdates) in Hnext. }
    destruct Hspec as (Hwait & _ & Hi & _). simpl in Hrun. simplify_eq/=.
    split; [|by destruct i]. split; simpl; [by eapply waited_window|done|].
    unfold step_ok; simpl. rewrite Hidle. exists expected.
    split; [done|]. by eapply waited_queue.
Qed.
End serves.

(** ** The machine *)

Section machine.
Context {S E Action Effect Resume : Type} {SJ : StateJson S} `{!Events E} {AB : AlloyBloom}.
Context (apply_transition : S → Message E Resume → S * list (Command Action Effect)).

Lemma ordered_accepted from last (logs : list (EventLog E)) :
  logs_ordered from last logs →
  negb (is_sorted_by log_before logs) ||
    existsb (λ log, negb (range_contains (mkRange from last) (log_block log))) logs = false.
Proof.
  intros [-> Hin]. simpl. apply not_true_iff_false. rewrite existsb_exists.
  intros (log & Hl & Hc). apply list_elem_of_In, Hin in Hl.
  unfold range_contains in Hc. simpl in Hc. by rewrite bool_decide_true in Hc.
Qed.

Lemma starts_range from last to :
  from ≤ last → last ≤ to → is_next_in_range (mkRange from to) (mkRange from last) = true.
Proof.
  intros. unfold is_next_in_range, range_contains. simpl. by rewrite !bool_decide_true.
Qed.

(** The machine takes an update in its turn, unless its database fails. *)
Lemma update_delivered state status u status' store :
  delivers status u status' →
  match apply_update apply_transition state status u store with
  | (Ok (_, next, _), _) => next = status'
  | (Err e, _) => ∃ error, e = Storage error
  end.
Proof.
  intros Hdel. destruct Hdel as [expected u expected' Hacc Hwarp|n|from to last logs H1 H2 H3 Hlogs
    |n logs Hn Hlogs].
  - destruct u as [from to|number|number hash bloom]; simpl in Hacc.
    + assert (from ≤ to ∧ match expected with Some p => p = from | None => True end) as [Hle Hp]
        by (destruct expected; repeat case_decide; naive_solver).
      destruct expected; simpl; rewrite ?decide_True by done;
        unfold block_range, io_bind, io_lift; by rewrite decide_True.
    + destruct expected as [p|]; [|done]. case_decide; [|done]. simpl.
      rewrite bool_decide_true by done. unfold io_bind, storage, io_map_err.
      destruct (reorg number store) as [[[b s]|e] store']; simpl; [done|by eexists].
    + destruct expected as [p|]; simpl; [case_decide; [|done]; rewrite bool_decide_true by done|];
        by destruct (apply_transition state (NewBlock number)).
  - simpl. rewrite bool_decide_true by done. unfold io_bind, storage, io_map_err.
    destruct (reorg n store) as [[[b s]|e] store']; simpl; [done|by eexists].
  - unfold apply_update. rewrite starts_range by done. rewrite ordered_accepted by done.
    destruct (apply_logs apply_transition state logs) as [s' commands].
    unfold io_bind, io_lift, next_block, checked_add, block_range, storage, io_map_err.
    simpl. destruct (decide (last < to)); simpl;
      repeat (rewrite decide_True by lia; simpl);
      destruct (commit last s' store) as [[[]|e] store']; simpl; try done; try by eexists.
    f_equal. lia.
  - unfold apply_update. rewrite starts_range by done. rewrite ordered_accepted by done.
    destruct (apply_logs apply_transition state logs) as [s' commands].
    unfold io_bind, io_lift, next_block, checked_add, storage, io_map_err.
    simpl. rewrite (decide_True (P := n + 1 ≤ u64_max)) by lia. simpl.
    destruct (commit n s' store) as [[[]|e] store']; simpl; try done; by eexists.
Qed.

(** ** Starting up *)

(** The machine of a new process waits for the block after the one its
    snapshots end with. *)
Lemma status_resumable init rows answers m :
  with_init init (mkDb rows answers) = Ok m →
  resumable (rows_status rows) ∧ tables (snapshots m) = rows ∧
  ∃ state, inner m = Some (state, status_of (expected_from (rows_status rows))).
Proof.
  unfold with_init, storage, io_map_err. intros Hinit.
  destruct (current (mkDb rows answers)) as [r store] eqn:Hc.
  apply current_inv in Hc as [Ht Hc]. simpl in Ht, Hc. unfold rows_status.
  destruct r as [[[latest state]|]|e]; simpl in Hinit; [| |done].
  - destruct Hc as (text & Hlast & _). rewrite Hlast.
    destruct (checked_add latest 1) as [p|] eqn:Hp; simpl in Hinit; [|done].
    apply checked_add_Some in Hp as [-> Hp]. simplify_eq/=.
    apply btree_last_Some in Hlast as [Hl Hmax].
    destruct (head (btree_iter (tables store))) as [[first t]|] eqn:Hhead; simpl in *.
    2: { apply head_None in Hhead. apply elem_of_btree_iter in Hl. rewrite Hhead in Hl.
         by apply not_elem_of_nil in Hl. }
    split; [|by split; [|exists state]]. intros i [= <-]. simpl. split; [|lia].
    apply (Hmax first). exists t. apply elem_of_btree_iter.
    apply head_Some_elem_of in Hhead. done.
  - simplify_eq/=. rewrite Hc.
    destruct (head (btree_iter (tables store))); simpl; (split; [done|]); (split; [done|]); by eexists.
Qed.

Lemma Watcher_new_ok number_of chain_id config addresses indexed net w net' :
  NoDup (topics E) → serves_good (numbered number_of) net → resumable indexed →
  Watcher_new (E := E) chain_id config addresses indexed net = (Ok w, net') →
  in_reach (blocks_config config) indexed (status_latest (indexer_status w)) →
  indexing_ok number_of w (status_of (expected_from indexed)).
Proof.
  intros Hts Hnet Hi Hnew Hreach. unfold Watcher_new, io_bind, io_map_err in Hnew.
  pose proof (BlockWatcher_new_spec (good := numbered number_of) chain_id (blocks_config config)
    indexed net Hnet) as Hspec.
  destruct (BlockWatcher_new _ _ _ net) as [[b|e] net1]; simplify_eq/=.
  destruct Hspec as [[_ Hw Hq _] _]. unfold io_ret in Hnew. simplify_eq/=.
  split; [done|done|]. unfold step_ok; simpl. eexists. split; [done|]. by apply Hq.
Qed.
End machine.

(** ** Properties *)

Section properties.
Context {S E Action Effect Resume : Type} {SJ : StateJson S} `{!Events E} {AB : AlloyBloom}.
Context (apply_transition : S → Message E Resume → S * list (Command Action Effect)).

(** A reorg of the first block that was indexed has no snapshot to go back to,
    however recent the block is: the update fails, and a restart takes up the
    snapshot of the uncled block itself, as if it were still canonical. *)
Theorem first_block_reorg_unrecoverable init rows n text state live :
  rows !! n = Some text → state_from_str text = Some state →
  (∀ b, is_Some (rows !! b) → n ≤ b ∧ b ≤ n) → 0 < n → n < i64_max →
  let m := {| inner := Some (live, BlockPending (n + 1)); snapshots := mkDb rows None |} in
  let '(r, m') := handle_update apply_transition (UBlock (Uncle n)) m in
  r = Err (Storage (MissingSnapshot (n - 1))) ∧ inner m' = None ∧
  ∃ restarted, with_init init (snapshots m') = Ok restarted ∧
    inner restarted = Some (state, BlockPending (n + 1)).
Proof.
  intros Hn Hstate Honly Hpos Hmax m. subst m. unfold handle_update. simpl.
  rewrite bool_decide_true by lia. unfold io_bind, storage, io_map_err, reorg, io_bind, io_lift.
  unfold checked_sub. rewrite decide_True by lia. cbn [ok_or].
  unfold transaction, io_bind, io_lift, i64_try_from.
  rewrite (decide_True (P := n ≤ i64_max)) by lia.
  rewrite statement_answered by done. cbn [io_ret fst snd tables].
  rewrite statement_answered by done. cbn [fst snd tables].
  rewrite (decide_True (P := n - 1 ≤ i64_max)) by lia.
  rewrite statement_answered by done. cbn [fst snd tables].
  assert (filter (λ row : N * StateText S, ¬ n ≤ row.1) rows !! (n - 1) = None) as ->.
  { apply map_lookup_filter_None. left. destruct (rows !! (n - 1)) eqn:Hr; [|done].
    destruct (Honly (n - 1)); [by eexists|lia]. }
  cbn [ok_or rmap_err]. split; [done|]. split; [done|].
  unfold with_init, storage, io_map_err, current, io_bind. cbn [snapshots].
  rewrite statement_answered by done. cbn [fst snd tables answering].
  destruct (btree_last rows) as [[latest text']|] eqn:Hlast.
  2: { apply btree_last_None in Hlast. subst rows. by rewrite lookup_empty in Hn. }
  apply btree_last_Some in Hlast as [Hl _].
  destruct (Honly latest) as [? ?]; [by eexists|]. replace latest with n in * by lia.
  simplify_eq. cbn [io_lift ok_or]. rewrite Hstate. unfold io_lift, io_ret. simpl.
  unfold checked_add. unfold i64_max in Hmax. rewrite decide_True by (unfold u64_max; lia).
  simpl. by eexists.
Qed.
End properties.
