(* ===== verification/Process.v ===== *)
(** * The running service: [Driver::new], [Driver::run]

    A service's process around the driver: the indexer, the machine, the queue
    and the effects in progress, through starts, crashes and restarts. What it
    has on its disk and on the network is accounted for by the pure transition:
    every message, command, effect and transaction comes from a run of it over
    what the indexer delivered. *)

From S2P Require Import Prelude.
From S2P Require Import Bytes.
From S2P Require Import Database.
From S2P Require Import Core.
From S2P Require Import StateMachine.
From S2P Require Import TxQueue.
From S2P Require Import Provider.
From S2P Require Import Blocks.
From S2P Require Import Events.
From S2P Require Import Watcher.
From S2P Require Import Driver.

(** ** The process *)

(** Why a process ended. *)
Inductive Exit :=
  | ExitError (error : DriverError)
  | ExitPanic.

(** [Starting] is a process that was cut off before its driver ran. *)
Inductive Life :=
  | Starting
  | Up (watcher : Watcher)
  | Down (exit : Exit).

(** What [main] builds the driver with. *)
Record Deployment := {
  deployed_chain : N;
  deployed_addresses : list Address;
  deployed_config : DriverConfig;
}.

(** What may happen next: a start of the process, with the replies of the node
    to it; the driver waiting for an update while the node gives some replies;
    the completion of an effect in progress, or its failure; the driver taking the result of a
    completed effect. The databases answer as they do, and any of it may come
    at any time. *)
Inductive Happening (World : Type) :=
  | HStart (net : Network) (node : Node) (answers : option nat * option nat) (reconcile : bool)
  | HUpdate (net : Network) (node : Node) (answers : option nat * option nat)
  | HEffect (task : nat) (world : World)
  | HEffectLost (task : nat)
  | HResume (node : Node) (answers : option nat * option nat) (index : nat).
Arguments HStart {World} _ _ _ _.
Arguments HUpdate {World} _ _ _.
Arguments HEffect {World} _ _.
Arguments HEffectLost {World} _.
Arguments HResume {World} _ _ _.

Section process.
Context {V S Event Action Effect Resume Handler World : Type}.
Context {SV : Service V S Event Action Effect Resume Handler World}.
Context {SJ : StateJson S} `{!Events Event} {AB : AlloyBloom}.
Open Scope safenet_scope.

(** The databases outlive the process; [completed] are the results of effects
    the driver has not taken, and [seen] the updates it has been given in any of
    its lives. *)
Record Process := {
  life : Life;
  driver : Driver S Effect;
  process_handler : Handler;
  completed : list Resume;
  seen : list (Update Event);
}.

(** [Driver::new]: the indexer resumes from the snapshots. *)
Definition Driver_new (dep : Deployment) (store : SnapshotStore S) (net : Network)
    : result (Watcher * StateMachine (S := S)) (Interrupt DriverError) :=
  machine ←? rmap_err (λ e, Failed (DriverState e)) (with_init initial_state store);
  let '(r, store) := storage snapshots_status (snapshots machine) in
  indexed ←? rmap_err (λ e, Failed (DriverState e)) r;
  watcher ←? rmap_err (map_interrupt DriverIndex)
    (Watcher_new (E := Event) (deployed_chain dep) (config_index (deployed_config dep))
       (deployed_addresses dep) indexed net).1;
  Ok (watcher, {| inner := inner machine; snapshots := store |}).

Definition opened_queue (dep : Deployment) (rows : list TxRow) (answers : option nat)
    : TransactionQueue :=
  {| queue_storage := mkDb rows answers;
     queue_config := config_transactions (deployed_config dep);
     block_status := None; nonce_cache := None; fee_cache := None |}.

(** The driver runs on, or has ended with an error. *)
Definition settled (r : result () DriverError) (w : Watcher) : Life :=
  match r with Ok _ => Up w | Err e => Down (ExitError e) end.

Context (v : V) (dep : Deployment).

Definition start (net : Network) (node : Node) (answers : option nat * option nat)
    (reconcile : bool) (p : Process) : Process :=
  let store := mkDb (tables (snapshots (state (driver p)))) answers.1 in
  let queue :=
    opened_queue dep (tables (queue_storage (transactions (driver p)))) answers.2 in
  let begun l d :=
    {| life := l; driver := d; process_handler := reopen v (process_handler p);
       completed := []; seen := seen p |} in
  let idle := {| state := {| inner := None; snapshots := store |}; tasks := [];
                 transactions := queue |} in
  match Driver_new dep store net with
  | Ok (w, machine) =>
      let d := {| state := machine; tasks := []; transactions := queue |} in
      let '(r, d) :=
        match startup v with
        | Some action => if reconcile then queue_action (encode v) node action d else (Ok (), d)
        | None => (Ok (), d)
        end in
      begun (settled r w) d
  | Err Waiting => begun Starting idle
  | Err (Failed e) => begun (Down (ExitError e)) idle
  | Err Panicked => begun (Down ExitPanic) idle
  end.

Definition driver_answers (answers : option nat * option nat) (d : Driver S Effect)
    : Driver S Effect :=
  {| state := with_answers answers.1 (state d); tasks := tasks d;
     transactions :=
       let q := transactions d in
       {| queue_storage := mkDb (tables (queue_storage q)) answers.2;
          queue_config := queue_config q; block_status := block_status q;
          nonce_cache := nonce_cache q; fee_cache := fee_cache q |} |}.

(** An input is processed to completion; an error ends the loop of [run]. *)
Definition process_input (w : Watcher) (node : Node) (answers : option nat * option nat)
    (input : Input Event Resume) (p : Process) : Process :=
  let '(r, d) := driver_update (transition v) (encode v) node (indexer_status w) input
                   (driver_answers answers (driver p)) in
  {| life := settled r w; driver := d; process_handler := process_handler p;
     completed := completed p; seen := seen p |}.

Definition with_life (l : Life) (p : Process) : Process :=
  {| life := l; driver := driver p; process_handler := process_handler p;
     completed := completed p; seen := seen p |}.
Definition with_seen (update : Update Event) (p : Process) : Process :=
  {| life := life p; driver := driver p; process_handler := process_handler p;
     completed := completed p; seen := seen p ++ [update] |}.
Definition with_completed (rs : list Resume) (p : Process) : Process :=
  {| life := life p; driver := driver p; process_handler := process_handler p;
     completed := rs; seen := seen p |}.

(** One turn of [Driver::run], with [next_input]: a failure of the indexer is
    retried at the next turn, but for a reorg that is too deep. *)
Definition happen (p : Process) (event : Happening World) : Process :=
  match event with
  | HStart net node answers reconcile => start net node answers reconcile p
  | HUpdate net node answers =>
      match life p with
      | Up w =>
          match next_update (w, net) with
          | (Ok update, (w, _)) =>
              process_input w node answers (InputUpdate update) (with_seen update p)
          | (Err (Failed (IndexBlocks (ExceededMaxReorgDepth _) as e)), _) =>
              with_life (Down (ExitError (DriverIndex e))) p
          | (Err Panicked, _) => with_life (Down ExitPanic) p
          | (Err _, (w, _)) => with_life (Up w) p
          end
      | _ => p
      end
  | HEffect task world =>
      match life p, tasks (driver p) !! task with
      | Up _, Some effect =>
          let '(resume, h) := perform world (process_handler p) effect in
          {| life := life p;
             driver := {| state := state (driver p); tasks := delete task (tasks (driver p));
                          transactions := transactions (driver p) |};
             process_handler := h; completed := completed p ++ [resume]; seen := seen p |}
      | _, _ => p
      end
  | HEffectLost task =>
      {| life := life p;
         driver := {| state := state (driver p); tasks := delete task (tasks (driver p));
                      transactions := transactions (driver p) |};
         process_handler := process_handler p; completed := completed p; seen := seen p |}
  | HResume node answers index =>
      match life p, completed p !! index with
      | Up w, Some resume =>
          process_input w node answers (InputResume resume)
            (with_completed (delete index (completed p)) p)
      | _, _ => p
      end
  end.

(** Before its first start, with empty databases. *)
Definition Process_new : Process :=
  {| life := Starting;
     driver := {| state := {| inner := None; snapshots := mkDb ∅ None |}; tasks := [];
                  transactions := opened_queue dep [] None |};
     process_handler := handler v; completed := []; seen := [] |}.

Definition process (events : list (Happening World)) : Process :=
  foldl happen Process_new events.

(** ** What is accounted for *)

Abbreviation T := (transition v).

(** A message of the chain that some update delivered. *)
Definition on_chain (seen : list (Update Event)) (m : Message Event Resume) : Prop :=
  match m with
  | NewBlock n => ∃ hash bloom, UBlock (New n hash bloom) ∈ seen
  | MEvent log => log_block log ≤ u64_max ∧ ∃ u, ULogs u ∈ seen ∧ log ∈ update_logs u
  | MResume _ => False
  end.

(** Runs of the transition over what was delivered, and over the results of
    effects that a run commanded; not necessarily the same run, since a reorg
    replaces the one by another while the effect is in progress. *)
Inductive happened (seen : list (Update Event)) : list (Message Event Resume) → Prop :=
  | happened_nil : happened seen []
  | happened_chain ms m : happened seen ms → on_chain seen m → happened seen (ms ++ [m])
  | happened_resume ms ms' m e w h :
      happened seen ms → happened seen (ms' ++ [m]) →
      CEffect e ∈ (T (replay T initial_state ms') m).2 →
      happened seen (ms ++ [MResume (perform w h e).1]).

Definition commanded (seen : list (Update Event)) (c : Command Action Effect) : Prop :=
  ∃ ms m, happened seen (ms ++ [m]) ∧ c ∈ (T (replay T initial_state ms) m).2.

Definition performed (seen : list (Update Event)) (r : Resume) : Prop :=
  ∃ e w h, commanded seen (CEffect e) ∧ r = (perform w h e).1.

(** A transaction of the queue. *)
Definition accounted (seen : list (Update Event)) (row : Core.Transaction * option N) : Prop :=
  ∃ a, row = encode v a ∧ (commanded seen (CAction a) ∨ startup v = Some a).

Lemma on_chain_mono s s' m : s ⊆ s' → on_chain s m → on_chain s' m.
Proof. intros Hs. destruct m; simpl; naive_solver. Qed.

Lemma happened_mono s s' ms : s ⊆ s' → happened s ms → happened s' ms.
Proof.
  intros Hs. induction 1; [constructor|apply happened_chain|eapply happened_resume];
    eauto using on_chain_mono.
Qed.

Lemma commanded_mono s s' c : s ⊆ s' → commanded s c → commanded s' c.
Proof. intros Hs (ms & m & H & Hc). exists ms, m. eauto using happened_mono. Qed.
Lemma performed_mono s s' r : s ⊆ s' → performed s r → performed s' r.
Proof. intros Hs (e & w & h & H & ->). exists e, w, h. eauto using commanded_mono. Qed.
Lemma accounted_mono s s' row : s ⊆ s' → accounted s row → accounted s' row.
Proof. intros Hs (a & -> & [H|H]); exists a; eauto using commanded_mono. Qed.

Lemma happened_snoc s ms m : happened s (ms ++ [m]) → happened s ms.
Proof.
  intros H. remember (ms ++ [m]) as l eqn:El. destruct H as [|? ? H|? ? ? ? ? ? H];
    [by destruct ms|by simplify_list_eq..].
Qed.

Lemma happened_prefix s ms ms' : happened s (ms ++ ms') → happened s ms.
Proof.
  induction ms' as [|m ms' IH] using rev_ind; [by rewrite app_nil_r|].
  rewrite app_assoc. intros ?%happened_snoc. auto.
Qed.

Lemma happened_elem s ms m :
  happened s ms → m ∈ ms →
  match m with MResume r => performed s r | _ => on_chain s m end.
Proof.
  induction 1 as [|ms m' H IH Hm|ms ms' m' e w h H IH H' _ He]; [by intros ?%not_elem_of_nil| |];
    (intros [Hin|Hin]%elem_of_app; [by apply IH|]); apply list_elem_of_singleton in Hin as ->.
  - by destruct m'.
  - exists e, w, h. split; [|done]. by exists ms', m'.
Qed.

Lemma performed_happened s ms r :
  happened s ms → performed s r → happened s (ms ++ [MResume r]).
Proof. intros Hms (e & w & h & (ms' & m & H & He) & ->). by eapply happened_resume. Qed.

Lemma happened_logs s ms logs :
  happened s ms → (∀ log, log ∈ logs → on_chain s (MEvent log)) →
  happened s (ms ++ (MEvent <$> logs)).
Proof.
  intros Hms. induction logs as [|log logs IH] using rev_ind; intros Hlogs.
  { by rewrite app_nil_r. }
  rewrite fmap_app, app_assoc. apply happened_chain.
  - apply IH. intros l Hl. apply Hlogs, elem_of_app. by left.
  - apply Hlogs, elem_of_app. right. by left.
Qed.

(** ** The machine *)

(** The machine is where some run leads. *)
Definition explained (s : list (Update Event)) (m : StateMachine (S := S)) : Prop :=
  ∃ h, machine_ok T initial_state (m, h) ∧ happened s (messages h).

Definition commands_explained (s : list (Update Event)) (commands : list (Command Action Effect))
    : Prop := ∀ c, c ∈ commands → commanded s c.

Lemma explained_mono s s' m : s ⊆ s' → explained s m → explained s' m.
Proof. intros Hs (h & H & Hh). exists h. eauto using happened_mono. Qed.

(** What is left of an ascending list below a bound is a prefix of it. *)
Lemma filter_below_prefix {A} (l : list (N * A)) n :
  StronglySorted N.lt l.*1 → ∃ rest, l = filter (λ c, c.1 < n) l ++ rest.
Proof.
  induction l as [|c l IH]; [by exists []|]. rewrite fmap_cons.
  intros [Hs Hall]%StronglySorted_inv. destruct (IH Hs) as [rest Hrest].
  destruct (decide (c.1 < n)).
  - exists rest. rewrite filter_cons_True by done. simpl. by f_equal.
  - exists (c :: l). rewrite filter_cons_False by done. rewrite list_filter_none; [done|].
    intros c' Hc'. rewrite Forall_fmap, Forall_forall in Hall. specialize (Hall c' Hc').
    simpl in Hall. lia.
Qed.

Lemma apply_logs_commands state logs c :
  c ∈ (apply_logs T state logs).2 →
  ∃ l1 log l2, logs = l1 ++ log :: l2 ∧ c ∈ (T (replay T state (MEvent <$> l1)) (MEvent log)).2.
Proof.
  induction logs as [|log logs IH] using rev_ind; [by intros ?%not_elem_of_nil|].
  pose proof (apply_logs_replay T state logs) as Hr.
  unfold apply_logs in *. rewrite foldl_app. simpl.
  destruct (foldl _ _ logs) as [state' commands]. simpl in Hr. subst state'.
  destruct (T _ (MEvent log)) as [state'' more] eqn:E. simpl. intros [Hc|Hc]%elem_of_app.
  - destruct (IH Hc) as (l1 & log' & l2 & -> & Hc'). exists l1, log', (l2 ++ [log]).
    by rewrite <-app_assoc.
  - exists logs, log, []. by rewrite E.
Qed.

Lemma logs_explained s ms state logs :
  happened s ms → state = replay T initial_state ms →
  (∀ log, log ∈ logs → on_chain s (MEvent log)) →
  happened s (ms ++ (MEvent <$> logs)) ∧ commands_explained s (apply_logs T state logs).2.
Proof.
  intros Hms -> Hlogs. split; [by apply happened_logs|].
  intros c (l1 & log & l2 & -> & Hc)%apply_logs_commands.
  exists (ms ++ (MEvent <$> l1)), (MEvent log). rewrite replay_app. split; [|done].
  apply happened_chain; [apply happened_logs; [done|]|]; set_solver.
Qed.

(** An applied batch of logs: what it leads to, over blocks with a number. *)
Lemma applied_logs state status u store out store' :
  apply_update T state status (ULogs u) store = (Ok out, store') →
  (out.1.1, out.2) = apply_logs T state (update_logs u) ∧
  ∀ log, log ∈ update_logs u → log_block log ≤ u64_max.
Proof.
  destruct u as [blocks logs]. intros H.
  assert (∀ n, next_block (range_last blocks) = Ok n → range_last blocks ≤ u64_max) as Hlast.
  { intros n Hn. unfold next_block in Hn. destruct (checked_add _ 1) eqn:E; [|done].
    apply checked_add_Some in E. lia. }
  cbn [apply_update update_logs] in *.
  destruct status as [|p|l|range]; try done; destruct (is_next_in_range _ _); try done;
    destruct (negb (is_sorted_by log_before logs) || _) eqn:Hr; try done;
    apply orb_false_iff in Hr as [_ Hr];
    destruct (apply_logs T state logs) as [st commands];
    unfold io_bind, io_lift in H;
    (destruct (next_block (range_last blocks)) as [n|] eqn:Hn;
      [|simpl in H; repeat case_decide; done]);
    (split; [|intros log Hin; transitivity (range_last blocks); [|by eapply Hlast];
      apply not_true_iff_false in Hr; rewrite existsb_exists in Hr;
      destruct (range_contains blocks (log_block log)) eqn:Hc;
        [by apply bool_decide_eq_true in Hc as [_ ?]|];
      destruct Hr; exists log; rewrite Hc; split; [by apply list_elem_of_In|done]]);
    simpl in H;
    repeat match type of H with
    | context [decide ?P] => destruct (decide P); simpl in H
    | context [block_range ?a ?b] => destruct (block_range a b); simpl in H
    end; try done;
    destruct (storage _ store) as [[[]|e] store1]; unfold io_ret in H; by simplify_eq/=.
Qed.

(** An applied update extends the run, or takes an end of it away. *)
Lemma applied_explained s h state status update store state' status' commands store' :
  update ∈ s → history_ok h → happened s (messages h) →
  state = replay T initial_state (messages h) →
  apply_update T state status update store = (Ok (state', status', commands), store') →
  happened s (messages (history_update h update)) ∧ commands_explained s commands.
Proof.
  intros Hu Hok Hh Hs Happ.
  assert (commands_explained s []) as Hnone by by intros c ?%not_elem_of_nil.
  destruct update as [[from to|number|number hash bloom]|[blocks logs]]; [simpl in Happ..|].
  - split; [done|]. unfold io_bind, io_lift, io_fail in Happ.
    destruct status as [|p| |]; simplify_eq/=; [|case_decide; [|done]];
      destruct (block_range from to); unfold io_ret in Happ; by simplify_eq/=.
  - assert (commands = []) as ->.
    { unfold io_bind, storage, io_map_err, io_fail in Happ.
      destruct status; simplify_eq/=; case_bool_decide; try done;
        destruct (reorg number store) as [[[? ?]|?] ?]; unfold io_ret in Happ; by simplify_eq/=. }
    split; [|done]. destruct (filter_below_prefix (committed h) number (ok_blocks _ Hok))
      as [rest Hrest].
    unfold messages in Hh. rewrite Hrest, committed_messages_app, <-app_assoc in Hh.
    unfold messages. simpl. rewrite app_nil_r. by eapply happened_prefix.
  - assert ((∃ st, T state (NewBlock number) = (st, commands))) as [st Hst].
    { destruct status; simpl in Happ; try case_bool_decide; try done;
        destruct (T state (NewBlock number)) as [st c]; unfold io_ret in Happ; simplify_eq/=;
        by exists state'. }
    assert (happened s (messages h ++ [NewBlock number])) as Hn.
    { apply happened_chain; [done|]. by exists hash, bloom. }
    unfold messages in *. simpl. rewrite app_assoc. split; [done|].
    intros c Hc. exists (committed_messages (committed h) ++ uncommitted h), (NewBlock number).
    subst state. by rewrite Hst.
  - apply applied_logs in Happ as [Hlogs Hblocks]. simpl in *.
    assert (∀ log, log ∈ logs → on_chain s (MEvent log)) as Hon.
    { intros log Hin. split; [by apply Hblocks|]. by eexists. }
    destruct (logs_explained s (messages h) state logs Hh Hs Hon) as [Hm Hc].
    rewrite <-Hlogs in Hc. unfold messages in *. simpl. rewrite committed_messages_app.
    unfold committed_messages at 2. simpl. by rewrite !app_nil_r, app_assoc.
Qed.

Context (J : state_roundtrip SJ).

Lemma with_answers_id (m : StateMachine (S := S)) :
  with_answers (answering (snapshots m)) m = m.
Proof. by destruct m as [i [t a]]. Qed.

(** The machine's operations, by [operate_ok]. *)
Lemma handle_update_explained s update :
  update ∈ s →
  io_spec (explained s) (handle_update T update)
    (λ commands m, explained s m ∧ commands_explained s commands) (λ _, explained s).
Proof.
  intros Hu m (h & Hok & Hh).
  pose proof (operate_ok T initial_state J (m, h) (answering (snapshots m), OpUpdate update) Hok)
    as Hok'.
  unfold operate in Hok'; cbn [fst snd] in Hok'. rewrite with_answers_id in Hok'.
  unfold handle_update in *. destruct (inner m) as [[state status]|] eqn:Hi; [|by exists h].
  destruct (apply_update T state status update _) as [[[[state' status'] commands]|e] store] eqn:E;
    [|by exists h].
  destruct (ok_live _ _ _ Hok _ _ Hi) as [Hs _].
  destruct (applied_explained s h _ _ _ _ _ _ _ _ Hu (ok_history _ _ _ Hok) Hh Hs E) as [Hm Hc].
  split; [by eexists|done].
Qed.

Lemma handle_resume_explained s resume :
  performed s resume →
  io_spec (explained s) (handle_resume T resume)
    (λ commands m, explained s m ∧ commands_explained s commands) (λ _, explained s).
Proof.
  intros Hr m (h & Hok & Hh).
  pose proof (operate_ok T initial_state J (m, h) (answering (snapshots m), OpResume resume) Hok)
    as Hok'.
  unfold operate in Hok'; cbn [fst snd] in Hok'. rewrite with_answers_id in Hok'.
  unfold handle_resume in *. destruct (inner m) as [[state status]|] eqn:Hi; [|by exists h].
  destruct (T state (MResume resume)) as [state' commands] eqn:E.
  destruct (ok_live _ _ _ Hok _ _ Hi) as [-> _].
  cbn [snd] in *. pose proof (performed_happened s _ _ Hh Hr) as Hh'. split.
  - eexists. split; [exact Hok'|]. unfold messages in *. simpl. by rewrite app_assoc.
  - intros c Hc. exists (messages h), (MResume resume). by rewrite E.
Qed.

Lemma machine_prune_explained s safe : io_preserves (explained s) (machine_prune safe).
Proof.
  intros m (h & Hok & Hh).
  pose proof (operate_ok T initial_state J (m, h) (answering (snapshots m), OpPrune safe) Hok)
    as Hok'.
  unfold operate in Hok'; cbn [fst snd] in Hok'. rewrite with_answers_id in Hok'. by exists h.
Qed.

Lemma with_answers_explained s answers m :
  explained s m → explained s (with_answers answers m).
Proof. intros (h & [Hh Hr Hl] & Hs). exists h. by split. Qed.

(** A new process has the run up to the last snapshot. *)
Lemma Driver_new_explained s m answers net w m' :
  explained s m →
  Driver_new dep (mkDb (tables (snapshots m)) answers) net = Ok (w, m') → explained s m'.
Proof.
  intros (h & Hok & Hh) Hnew.
  pose proof (operate_ok T initial_state J (m, h) (answers, OpRestart) Hok) as Hok'.
  simpl in Hok'. unfold Driver_new in Hnew.
  destruct (with_init initial_state _) as [machine|e]; [|done]. simpl in Hnew.
  unfold storage, io_map_err in Hnew.
  destruct (snapshots_status (snapshots machine)) as [r store] eqn:Hst.
  apply snapshots_status_inv in Hst as [Htab _].
  destruct r as [indexed|e]; [|done]. simpl in Hnew.
  destruct ((Watcher_new _ _ _ _ net).1) as [w'|e]; [|done]. simpl in Hnew. simplify_eq.
  exists {| committed := committed h; uncommitted := [] |}. split.
  - destruct Hok' as [H1 H2 H3]. split; [done| |done]. simpl in *. by rewrite Htab.
  - unfold messages in *. simpl. rewrite app_nil_r. by eapply happened_prefix.
Qed.

Lemma stopped_explained s m answers :
  explained s m →
  explained s {| inner := None; snapshots := mkDb (tables (snapshots m)) answers |}.
Proof. intros (h & [Hh Hr Hl] & Hs). exists h. by split. Qed.

(** ** The invariant of the process *)

Context (handler_ok : Handler → Prop).
Hypothesis perform_ok : ∀ w h e, handler_ok h → handler_ok (perform w h e).2.
Hypothesis reopen_ok : ∀ h, handler_ok h → handler_ok (reopen v h).
Hypothesis opened_ok : handler_ok (handler v).

Definition rows_ok (s : list (Update Event)) (rows : list TxRow) : Prop :=
  rows_distinct rows ∧ rows_from (accounted s) rows.

Lemma rows_ok_kept s : kept (rows_ok s).
Proof. apply kept_and; [apply rows_distinct_kept|apply rows_from_kept]. Qed.

Lemma enqueue_ok s l :
  Forall (accounted s) l → io_preserves (λ st : TransactionStorage, rows_ok s (tables st)) (enqueue l).
Proof.
  intros Hl st [Hd Hf]. split; [by apply enqueue_distinct|by apply enqueue_from].
Qed.

Record process_ok (p : Process) : Prop := {
  process_driver_ok : driver_ok (rows_ok (seen p)) (λ e, commanded (seen p) (CEffect e))
    (explained (seen p)) (driver p);
  process_completed : Forall (performed (seen p)) (completed p);
  process_stored : handler_ok (process_handler p);
}.

Lemma driver_answers_ok s answers d :
  driver_ok (rows_ok s) (λ e, commanded s (CEffect e)) (explained s) d →
  driver_ok (rows_ok s) (λ e, commanded s (CEffect e)) (explained s) (driver_answers answers d).
Proof. intros (Hm & Hq & Ht). split; [by apply with_answers_explained|done]. Qed.

(** An input the process may be given. *)
Definition input_ok (s : list (Update Event)) (input : Input Event Resume) : Prop :=
  match input with InputUpdate u => u ∈ s | InputResume r => performed s r end.

Lemma take_input_explained s chain input :
  input_ok s input →
  io_spec (explained s) (take_input T chain input)
    (λ commands m, explained s m ∧
       (∀ a, CAction a ∈ commands → accounted s (encode v a)) ∧
       ∀ e, CEffect e ∈ commands → commanded s (CEffect e))
    (λ _ m, True ∧ explained s m).
Proof.
  intros Hin.
  assert (∀ commands, commands_explained s commands →
    (∀ a, CAction a ∈ commands → accounted s (encode v a)) ∧
    ∀ e, CEffect e ∈ commands → commanded s (CEffect e)) as Hcommands.
  { intros commands H. split; [intros a Ha%H; exists a; auto|by intros e ?%H]. }
  intros m Hm. destruct input as [update|resume]; simpl in *.
  - pose proof (handle_update_explained s update Hin m Hm) as Hu. unfold io_bind.
    destruct (handle_update T update m) as [[commands|e] m1]; [|done]. destruct Hu as [Hm1 Hc].
    pose proof (machine_prune_explained s (status_safe chain) m1 Hm1) as Hp.
    destruct (machine_prune _ m1) as [[[]|e] m2]; [|done]. split; [done|auto].
  - pose proof (handle_resume_explained s resume Hin m Hm) as Hr.
    destruct (handle_resume T resume m) as [[commands|e] m1]; [|done]. destruct Hr. auto.
Qed.

Lemma process_input_ok w node answers input p :
  input_ok (seen p) input → process_ok p → process_ok (process_input w node answers input p).
Proof.
  intros Hin [Hd Hc Hs]. unfold process_input.
  pose proof (driver_update_spec T (encode v) (rows_ok (seen p))
    (λ e, commanded (seen p) (CEffect e)) (λ _, True) (explained (seen p)) (accounted (seen p))
    (explained (seen p)) (explained (seen p)) node (indexer_status w) input
    (λ _ H, H) (λ _ H, H) (λ _ _, I) (rows_ok_kept _) (enqueue_ok _)
    (take_input_explained (seen p) _ input Hin) _ (driver_answers_ok _ answers _ Hd)) as Hspec.
  destruct (driver_update _ _ _ _ _ _) as [[[]|e] d]; [by split|]. destruct Hspec. by split.
Qed.

Lemma happened_nothing : process_ok Process_new.
Proof.
  split; [|constructor|done]. split_and!; simpl; [| |constructor].
  - exists History_new. split; [|constructor].
    destruct (operations_ok T initial_state J []) as [H1 H2 _]. by split.
  - split; [split; [constructor|]|constructor]. by intros row ?%not_elem_of_nil.
Qed.

Lemma with_seen_ok update p : process_ok p → process_ok (with_seen update p).
Proof.
  assert (seen p ⊆ seen p ++ [update]) as Hsub by set_solver.
  intros [(Hm & [Hd Hf] & Ht) Hc Hs]. split; simpl; [| |done].
  - split; [by eapply explained_mono|]. split; [split; [done|]|].
    + eapply Forall_impl; [exact Hf|]. intros row. by apply accounted_mono.
    + eapply Forall_impl; [exact Ht|]. intros e. by apply commanded_mono.
  - eapply Forall_impl; [exact Hc|]. intros r. by apply performed_mono.
Qed.

Lemma start_ok net node answers reconcile p :
  process_ok p → process_ok (start net node answers reconcile p).
Proof.
  intros [(Hm & Hq & Ht) Hc Hs]. unfold start.
  set (queue := opened_queue dep _ _).
  assert (∀ l m, explained (seen p) m →
    process_ok {| life := l; driver := {| state := m; tasks := []; transactions := queue |};
                  process_handler := reopen v (process_handler p); completed := [];
                  seen := seen p |}) as Hbegun.
  { intros l m Hm'. split; [by split_and!|constructor|by apply reopen_ok]. }
  pose proof (stopped_explained _ _ answers.1 Hm) as Hidle.
  destruct (Driver_new _ _ net) as [[w machine]|[|e|]] eqn:E; [|by apply Hbegun..].
  apply (Driver_new_explained (seen p)) in E; [|done].
  destruct (startup v) as [action|] eqn:Ha; [|by apply Hbegun].
  destruct reconcile; [|by apply Hbegun]. unfold queue_action. cbn [transactions].
  assert (rows_ok (seen p) (tables (queue_storage
    (TxQueue.queue node [encode v action] queue).2))) as Hrows.
  { apply (queue_preserves node _ (kept_kept_rows _ (rows_ok_kept (seen p)))); [|done]. apply enqueue_ok.
    constructor; [|constructor]. exists action. auto. }
  destruct (TxQueue.queue _ _ _) as [r q]. split; [by split_and!|constructor|by apply reopen_ok].
Qed.

Lemma happen_ok p event : process_ok p → process_ok (happen p event).
Proof.
  intros Hok. pose proof Hok as [(Hm & Hq & Ht) Hc Hs].
  destruct event as [net node answers reconcile|net node answers|task world|task|
    node answers index]; simpl.
  - by apply start_ok.
  - destruct (life p) as [|w|]; [done| |done].
    destruct (next_update (w, net)) as [[update|i] [w' net']].
    + apply process_input_ok; [|by apply with_seen_ok]. simpl. set_solver.
    + destruct i as [|[[]|]|]; by split.
  - destruct (life p) as [|w|]; [done| |done].
    destruct (tasks (driver p) !! task) as [effect|] eqn:He; [|done].
    pose proof (perform_ok world (process_handler p) effect Hs) as Hs'.
    assert (performed (seen p) (perform world (process_handler p) effect).1) as Hp.
    { exists effect, world, (process_handler p). split; [|done].
      rewrite Forall_forall in Ht. by eapply Ht, list_elem_of_lookup_2. }
    destruct (perform _ _ _) as [resume h]. split; [|apply Forall_app; by repeat constructor|done].
    split; [done|]. split; [done|]. by apply Forall_delete.
  - split; [|done..]. split; [done|]. split; [done|]. by apply Forall_delete.
  - destruct (life p) as [|w|]; [done| |done].
    destruct (completed p !! index) as [resume|] eqn:Hr; [|done].
    apply process_input_ok.
    + simpl. rewrite Forall_forall in Hc. by eapply Hc, list_elem_of_lookup_2.
    + split; [done| |done]. by apply Forall_delete.
Qed.

(** What the process has is accounted for, whatever happens. *)
Lemma process_accounted events : process_ok (process events).
Proof.
  induction events as [|event events IH] using rev_ind; [apply happened_nothing|].
  unfold process. rewrite foldl_app. by apply happen_ok.
Qed.
End process.
Arguments Process S Event Effect Resume Handler {SJ}.
