(* ===== verification/InStep.v ===== *)
(** * The running service does not lose step

    Through every restart, failure and reorg, the machine of the running service
    is waiting for the update its indexer delivers next, once the node had caught
    up with the snapshots when the process was started. *)

From S2P Require Import Prelude.
From S2P Require Import Bytes.
From S2P Require Import Database.
From S2P Require Import Core.
From S2P Require Import StateMachine.
From S2P Require Import TxQueue.
From S2P Require Import Provider.
From S2P Require Import Blocks.
From S2P Require Import BlocksInvariant.
From S2P Require Import Events.
From S2P Require Import Watcher.
From S2P Require Import Driver.
From S2P Require Import Indexing.
From S2P Require Import IndexSafety.
From S2P Require Import Process.

Section in_step.
Context {V S Event Action Effect Resume Handler World : Type}.
Context {SV : Service V S Event Action Effect Resume Handler World}.
Context {SJ : StateJson S} `{!Events Event} {AB : AlloyBloom}.
Context (v : V) (dep : Deployment) (number_of : B256 → N).
Open Scope safenet_scope.

Abbreviation T := (transition v).
Abbreviation Process := (Process S Event Effect Resume Handler).

(** The ends a process may come to: a failure of its database, of the node's
    answers or of signing, or a reorg that is too deep; never an update out of
    turn, a poisoned state, the end of the chain or a panic. *)
Definition exit_ok (exit : Exit) : Prop :=
  match exit with
  | ExitError (DriverIndex e) => index_error (Failed e)
  | ExitError (DriverState e) => ∃ error, e = Storage error
  | ExitError (DriverTransactions e) => is_intermittent e = false
  | ExitPanic => False
  end.

(** ** Blocks of snapshots *)

Definition bounded (rows : gmap N (StateText S)) : Prop :=
  ∀ b, is_Some (rows !! b) → b ≤ i64_max.
Abbreviation bounded_rows := (λ store : SnapshotStore S, bounded (tables store)).

Lemma commit_bounded b s : io_preserves bounded_rows (commit b s).
Proof.
  apply io_bind_preserves; [auto with io|]. intros text store Hs. unfold io_bind, io_lift.
  destruct (i64_try_from _ b) as [b'|] eqn:Hb; [|done].
  apply i64_try_from_Ok in Hb as [-> Hb]. revert store Hs.
  apply (statement_preserves _ bounded).
  intros rows Hrows b' [text' Ht]. simpl in Ht.
  destruct (decide (b' = b)) as [->|Hne]; [done|].
  rewrite lookup_insert_ne in Ht by done. by apply Hrows.
Qed.

Lemma filter_bounded (P : N * StateText S → Prop) `{∀ row, Decision (P row)} rows :
  bounded rows → bounded (filter P rows).
Proof. intros Hrows b [text [Ht _]%map_lookup_filter_Some]. apply Hrows. by eexists. Qed.

Lemma reorg_bounded n : io_preserves bounded_rows (reorg n).
Proof.
  intros store Hs. destruct (reorg n store) as [r store'] eqn:H. simpl.
  apply reorg_inv in H as [(b & text & s & _ & _ & _ & _ & ->)|[_ ->]]; [|done].
  by apply filter_bounded.
Qed.

Lemma prune_bounded n : io_preserves bounded_rows (prune_snapshots n).
Proof.
  intros store Hs. destruct (prune_snapshots n store) as [r store'] eqn:H. simpl.
  apply prune_inv in H as [->| ->]; [done|]. by apply filter_bounded.
Qed.

Lemma storage_bounded {A} (m : io (SnapshotStore S) A StorageError) :
  io_preserves bounded_rows m → io_preserves bounded_rows (storage m).
Proof. apply io_map_err_preserves. Qed.

#[local] Hint Resolve commit_bounded reorg_bounded prune_bounded storage_bounded : io.

Lemma apply_update_bounded state status update :
  io_preserves bounded_rows (apply_update T state status update).
Proof.
  destruct update as [[from to|n|n h b]|[blocks logs]], status as [|p|l|range]; simpl;
    repeat case_decide; repeat case_bool_decide; auto with io;
    repeat match goal with
    | |- context [let '(_, _) := ?x in _] => destruct x
    | |- context [if ?c then _ else _] => destruct c
    end; auto with io.
  all: apply io_bind_preserves; [auto with io|]; intros next.
  all: first [by destruct next; auto with io|apply io_bind_preserves; auto with io].
Qed.

(** ** An input *)

(** The machine is at [status]. *)
Definition at_status (status : Status) (m : StateMachine (S := S)) : Prop :=
  (∃ state, inner m = Some (state, status)) ∧ bounded (tables (snapshots m)).

(** What is given to the machine in its turn. *)
Definition in_turn (input : Input Event Resume) (status status' : Status) : Prop :=
  match input with
  | InputUpdate update => delivers status update status'
  | InputResume _ => status' = status
  end.

Lemma take_input_in_turn chain input status status' :
  in_turn input status status' →
  io_spec (at_status status) (take_input T chain input) (λ _, at_status status')
    (λ e m, exit_ok (ExitError (DriverState e)) ∧ bounded (tables (snapshots m))).
Proof.
  intros Hturn m [[state Hm] Hb]. destruct input as [update|resume]; simpl in *.
  - unfold io_bind, handle_update. rewrite Hm.
    pose proof (update_delivered T state status update status' (snapshots m) Hturn) as Hdel.
    pose proof (apply_update_bounded state status update (snapshots m) Hb) as Hb'.
    destruct (apply_update T state status update _) as [[[[state' next] commands]|e] store];
      [|done]. subst next. unfold machine_prune.
    pose proof (storage_bounded _ (prune_bounded (status_safe chain)) store Hb') as Hb''.
    unfold storage, io_map_err in *. cbn [snapshots].
    destruct (prune_snapshots (status_safe chain) store) as [[[]|e] store'];
      [|split; [by eexists|done]].
    split; [by exists state'|done].
  - subst status'. unfold handle_resume. rewrite Hm.
    destruct (T state (MResume resume)) as [state' commands]. split; [by exists state'|done].
Qed.

Abbreviation bounded_machine :=
  (λ m : StateMachine (S := S), bounded (tables (snapshots m))).

(** In whatever turn. *)
Lemma take_input_bounded chain input : io_preserves bounded_machine (take_input T chain input).
Proof.
  intros m Hb. destruct input as [update|resume]; simpl.
  - unfold io_bind, handle_update. destruct (inner m) as [[state status]|]; [|done].
    pose proof (apply_update_bounded state status update (snapshots m) Hb) as Hb'.
    destruct (apply_update T state status update _) as [[[[state' next] commands]|e] store]; [|done].
    pose proof (storage_bounded _ (prune_bounded (status_safe chain)) store Hb') as Hb''.
    unfold machine_prune. cbn [snapshots].
    by destruct (storage (prune_snapshots (status_safe chain)) store) as [[[]|e] store'].
  - unfold handle_resume. destruct (inner m) as [[state status]|]; [|done].
    by destruct (T state (MResume resume)) as [state' commands].
Qed.

Lemma kept_True : kept (λ _, True).
Proof. by split. Qed.

Lemma process_input_bounded w node answers input p :
  bounded_machine (state (driver p)) →
  bounded_machine (state (driver (process_input v w node answers input p))).
Proof.
  intros Hb. unfold process_input.
  pose proof (driver_update_spec T (encode v) (λ _, True) (λ _, True) (λ _, True)
    bounded_machine (λ _, True) bounded_machine bounded_machine node (indexer_status w) input
    (λ m H, H) (λ m H, H) (λ _ _, I) kept_True (λ _ _ _ _, I)) as Hspec. cbv zeta in Hspec.
  assert (driver_ok (λ _, True) (λ _, True) bounded_machine (driver_answers answers (driver p)))
    as Hd.
  { split; [done|]. split; [done|]. by apply Forall_true. }
  refine (_ (Hspec _ _ Hd)).
  - destruct (driver_update _ _ _ _ _ _) as [[[]|e] d]; simpl; [by intros [Hi _]|].
    by intros (_ & Hi & _).
  - intros m Hm. pose proof (take_input_bounded (indexer_status w) input m Hm) as H.
    destruct (take_input _ _ _ m) as [[commands|e] m']; by split_and?.
Qed.

(** The process after an input in its turn runs on, in step, or has ended as it
    may. *)
Lemma process_input_in_step w node answers input p status status' :
  in_turn input status status' → indexing_ok number_of w status' →
  at_status status (state (driver p)) →
  let p' := process_input v w node answers input p in
  bounded (tables (snapshots (state (driver p')))) ∧
  match life p' with
  | Starting => False
  | Up w' => w' = w ∧ at_status status' (state (driver p'))
  | Down exit => exit_ok exit
  end.
Proof.
  intros Hturn Hw Hat. unfold process_input.
  pose proof (driver_update_spec T (encode v) (λ _, True) (λ _, True)
    (λ e, exit_ok (ExitError e)) (λ m, bounded (tables (snapshots m))) (λ _, True)
    (at_status status) (at_status status') node (indexer_status w) input
    (λ m (H : at_status status m), proj2 H) (λ m (H : at_status status' m), proj2 H)
    (λ e He, He) kept_True (λ _ _ _ _, I)) as Hspec. cbv zeta in Hspec.
  assert (driver_ok (λ _, True) (λ _, True) (at_status status)
    (driver_answers answers (driver p))) as Hd.
  { split; [done|]. split; [done|]. by apply Forall_true. }
  refine (_ (Hspec _ _ Hd)).
  - destruct (driver_update _ _ _ _ _ _) as [[[]|e] d]; simpl.
    + intros ([Hi Hb] & _). by split.
    + intros [He [Hb _]]. by split.
  - eapply io_spec_conseq; [by apply take_input_in_turn|done| |done]. by intros commands m H.
Qed.

(** ** Starts *)

(** The node is not behind the first snapshot when the process starts. *)
Definition head_in_reach (p : Process) (net : Network) (answers : option nat) : Prop :=
  let rows := tables (snapshots (state (driver p))) in
  ∀ w m, Driver_new dep (mkDb rows answers) net = Ok (w, m) →
    in_reach (blocks_config (config_index (deployed_config dep))) (rows_status rows)
      (status_latest (indexer_status w)).

Lemma with_init_error init (rows : gmap N (StateText S)) answers e :
  with_init init (mkDb rows answers) = Err e → bounded rows → ∃ error, e = Storage error.
Proof.
  unfold with_init, storage, io_map_err. intros Hinit Hb.
  destruct (current (mkDb rows answers)) as [r store] eqn:Hc.
  apply current_inv in Hc as [Ht Hc]. simpl in Ht, Hc.
  destruct r as [[[latest state]|]|err]; simpl in Hinit; [|done|simplify_eq; by eexists].
  destruct Hc as (text & [Hl _]%btree_last_Some & _).
  assert (latest ≤ i64_max) as Hle by (apply Hb; by eexists).
  unfold checked_add in Hinit. rewrite decide_True in Hinit; [done|].
  unfold i64_max, u64_max in *. lia.
Qed.

Lemma Watcher_new_error chain_id config addresses indexed net i net' :
  serves_good (numbered number_of) net →
  Watcher_new (E := Event) chain_id config addresses indexed net = (Err i, net') →
  i ≠ Panicked ∧ ∀ e, i = Failed e → index_error (Failed e).
Proof.
  intros Hnet Hnew. unfold Watcher_new, io_bind, io_map_err in Hnew.
  pose proof (BlockWatcher_new_spec (good := numbered number_of) chain_id (blocks_config config)
    indexed net Hnet) as Hspec.
  destruct (BlockWatcher_new _ _ _ net) as [[b|e] net1]; simplify_eq/=.
  destruct Hspec as [He _]. destruct e; simpl; naive_solver.
Qed.

Lemma Driver_new_in_step p net answers :
  NoDup (topics Event) → index_node_ok number_of net →
  bounded (tables (snapshots (state (driver p)))) → head_in_reach p net answers →
  match Driver_new dep (mkDb (tables (snapshots (state (driver p)))) answers) net with
  | Ok (w, m) => ∃ status, indexing_ok number_of w status ∧ at_status status m
  | Err Waiting => True
  | Err (Failed e) => exit_ok (ExitError e)
  | Err Panicked => False
  end.
Proof.
  intros Hts Hnet Hb Hreach. unfold head_in_reach in Hreach. revert Hreach Hb.
  generalize (tables (snapshots (state (driver p)))) as rows. intros rows Hreach Hb.
  unfold Driver_new in *.
  destruct (with_init initial_state (mkDb rows answers)) as [m|e] eqn:Hinit; simpl in *.
  2: { by eapply with_init_error. }
  apply status_resumable in Hinit as (Hres & Htab & state & Hi).
  unfold storage, io_map_err in *.
  destruct (snapshots_status (snapshots m)) as [r store] eqn:Hst.
  apply snapshots_status_inv in Hst as [Htab' Hst]. rewrite Htab in Htab', Hst.
  destruct r as [indexed|e]; simpl in *; [|by eexists]. rewrite (Hst _ eq_refl) in *.
  destruct (Watcher_new _ _ _ _ net) as [r net'] eqn:Hnew; simpl in *.
  destruct r as [w|i]; simpl in *.
  - exists (status_of (expected_from (rows_status rows))). split.
    + eapply (Watcher_new_ok number_of); [done|by apply node_blocks|done|exact Hnew|].
      by eapply Hreach.
    + split; [by exists state|]. simpl. by rewrite Htab'.
  - apply Watcher_new_error in Hnew as [Hp Hf]; [|by apply node_blocks].
    destruct i as [|e|]; simpl; [done|by apply Hf|done].
Qed.

(** ** The process *)

Record in_step (p : Process) : Prop := {
  in_step_rows : bounded (tables (snapshots (state (driver p))));
  in_step_life :
    match life p with
    | Starting => True
    | Up w => ∃ status, indexing_ok number_of w status ∧ at_status status (state (driver p))
    | Down exit => exit_ok exit
    end;
}.

(** The node numbers its blocks, and serves and places their logs, as documented. *)
Definition node_numbers (event : Happening World) : Prop :=
  match event with
  | HStart net _ _ _ | HUpdate net _ _ => index_node_ok number_of net
  | _ => True
  end.

(** The last start of a run found the node's head in reach. *)
Fixpoint last_start_in_reach (p : Process) (events : list (Happening World)) (reached : Prop)
    : Prop :=
  match events with
  | [] => reached
  | event :: events =>
      last_start_in_reach (happen v dep p event) events
        match event with
        | HStart net _ answers _ => head_in_reach p net answers.1
        | _ => reached
        end
  end.

Lemma start_bounded net node answers reconcile p :
  bounded_machine (state (driver p)) →
  bounded_machine (state (driver (start v dep net node answers reconcile p))).
Proof.
  intros Hb. unfold start.
  destruct (Driver_new _ _ net) as [[w m]|[|e|]] eqn:Hnew; try done.
  assert (bounded_machine m) as Hm.
  { unfold Driver_new in Hnew.
    destruct (with_init initial_state _) as [m0|e] eqn:Hinit; simpl in Hnew; [|done].
    apply status_resumable in Hinit as (_ & Htab & _). unfold storage, io_map_err in Hnew.
    destruct (snapshots_status (snapshots m0)) as [r store] eqn:Hst.
    apply snapshots_status_inv in Hst as [Htab' _].
    destruct r as [indexed|e]; simpl in Hnew; [|done].
    destruct (Watcher_new _ _ _ _ net) as [[w'|i] net']; simplify_eq/=. by rewrite Htab', Htab. }
  destruct (startup v) as [action|]; [|done]. destruct reconcile; [|done].
  unfold queue_action. destruct (queue _ _ _) as [r q] eqn:Hq.
  by destruct r.
Qed.

Lemma happen_bounded p event :
  bounded_machine (state (driver p)) → bounded_machine (state (driver (happen v dep p event))).
Proof.
  intros Hb. destruct event as [net node answers reconcile|net node answers|task world|task|
    node answers index]; simpl.
  - by apply start_bounded.
  - destruct (life p) as [|w|]; [done| |done].
    destruct (next_update (w, net)) as [[update|i] [w' net']];
      [by apply process_input_bounded|by destruct i as [|[[]|]|]].
  - destruct (life p) as [|w|]; [done| |done]. destruct (tasks (driver p) !! task); [|done].
    by destruct (perform _ _ _).
  - done.
  - destruct (life p) as [|w|]; [done| |done]. destruct (completed p !! index); [|done].
    by apply process_input_bounded.
Qed.

Lemma start_in_step net node answers reconcile p :
  NoDup (topics Event) → index_node_ok number_of net → head_in_reach p net answers.1 →
  bounded_machine (state (driver p)) → in_step (start v dep net node answers reconcile p).
Proof.
  intros Hts Hnet Hreach Hb. unfold start.
  pose proof (Driver_new_in_step p net answers.1 Hts Hnet Hb Hreach) as Hnew.
  destruct (Driver_new _ _ net) as [[w m]|[|e|]]; [|by split..|done].
  destruct Hnew as (status & Hw & Hat).
  assert (∀ r d, state d = m → match r with Err e => exit_ok (ExitError e) | Ok _ => True end →
    in_step {| life := settled r w; driver := d;
      process_handler := reopen v (process_handler p); completed := []; seen := seen p |}) as Hup.
  { intros r d <- Hr. split; simpl; [by destruct Hat|]. destruct r; [by exists status|done]. }
  destruct (startup v) as [action|]; [|by apply Hup]. destruct reconcile; [|by apply Hup].
  unfold queue_action. destruct (queue _ _ _) as [r q] eqn:Hq. cbn [transactions] in Hq.
  apply Hup; [done|]. unfold queue, io_bind, on_storage in Hq. simpl in Hq.
  destruct (enqueue _ _) as [[[]|e] store]; by simplify_eq/=.
Qed.

Lemma input_in_step w node answers input status status' p :
  in_turn input status status' → indexing_ok number_of w status' →
  at_status status (state (driver p)) →
  in_step (process_input v w node answers input p).
Proof.
  intros Hturn Hw Hat.
  pose proof (process_input_in_step w node answers input p status status' Hturn Hw Hat)
    as [Hb' Hl']. split; [done|].
  destruct (life (process_input _ _ _ _ _ _)); [done| |done]. destruct Hl' as [-> ?]. by exists status'.
Qed.

Lemma happen_in_step p event :
  NoDup (topics Event) → node_numbers event → bounded_machine (state (driver p)) →
  match event with
  | HStart net _ answers _ => head_in_reach p net answers.1
  | _ => in_step p
  end → in_step (happen v dep p event).
Proof.
  intros Hts Hnode Hrows Hok.
  destruct event as [net node answers reconcile|net node answers|task world|task|
    node answers index]; [by apply start_in_step|..]; simpl in *; pose proof Hok as [Hb Hl].
  - destruct (life p) as [|w|] eqn:Hlife; [done| |done]. destruct Hl as (status & Hw & Hat).
    destruct (next_update (w, net)) as [r [w' net']] eqn:Hnext.
    apply (next_update_ok number_of _ status) in Hnext; [|done|done]. cbn [fst] in Hnext.
    destruct r as [update|i].
    + destruct Hnext as (status' & Hdel & Hw').
      by apply (input_in_step _ _ _ (InputUpdate update) status status').
    + destruct Hnext as [Hw' Hi].
      destruct i as [|[[]|]|]; try done; split; simpl; try done; by exists status.
  - destruct (life p) as [|w|] eqn:Hlife; [done| |done].
    destruct (tasks (driver p) !! task); [|done].
    destruct (perform _ _ _) as [resume h]. split; simpl; [done|]. done.
  - by split.
  - destruct (life p) as [|w|] eqn:Hlife; [done| |done]. destruct Hl as (status & Hw & Hat).
    destruct (completed p !! index) as [resume|]; [|by split; [|rewrite Hlife; exists status]].
    by apply (input_in_step _ _ _ (InputResume resume) status status).
Qed.

Lemma run_in_step p events (reached : Prop) :
  NoDup (topics Event) → Forall node_numbers events →
  bounded_machine (state (driver p)) → (reached → in_step p) →
  last_start_in_reach p events reached → in_step (foldl (happen v dep) p events).
Proof.
  intros Hts Hnode. revert p reached.
  induction Hnode as [|event events He Hes IH]; intros p reached Hb Hp Hr; [by apply Hp|].
  simpl in *. eapply IH; [by apply happen_bounded| |exact Hr].
  intros Hreach. apply happen_in_step; [done..|]. destruct event; auto.
Qed.

Lemma Process_new_in_step : in_step (Process_new v dep).
Proof. split; [|done]. intros b [text Ht]. simpl in Ht. by rewrite lookup_empty in Ht. Qed.
End in_step.

