(* ===== verification/SentinelBindings.v ===== *)
(** * The sentinel's contract bindings: [sentinel/bindings.rs]

    The events and calls that [sol!] declares for the [SentinelOracle] and
    [ERC20] contracts, and what the sentinel takes from third-party crates: the
    encoding of its calls, EIP-712 hashing of its proposal struct, and HKDF. *)

From S2P Require Import Prelude.
From S2P Require Import Bytes.
From S2P Require Import Bindings.
From S2P Require Import Alloy.

Abbreviation U96 := N.

Module SentinelOracle.
(** [RequestState]. *)
Inductive RequestState := NONE | PENDING | FROZEN | RESOLVED_APPROVED | RESOLVED_DENIED | TIMED_OUT.

#[export] Instance RequestState_eq_dec : EqDecision RequestState.
Proof. solve_decision. Defined.

Module NewRequest.
Record t := mk {
  requestId : B256; sponsor : Address; fee : U96; bondTarget : U96; slashAmount : U96;
  commitDeadline : N; revealDeadline : N;
}.
End NewRequest.
Module Committed.
Record t := mk { requestId : B256; sentinel : Address; bondAmount : U96 }.
End Committed.
Module Revealed.
Record t := mk {
  requestId : B256; sentinel : Address; approved : bool; bondAmount : U96; reason : Bytes;
}.
End Revealed.
Module DisputeTriggered.
Record t := mk { requestId : B256; deadline : N }.
End DisputeTriggered.
Module DisputeResolved.
Record t := mk { requestId : B256; outcome : RequestState; slashed : N; context : Bytes }.
End DisputeResolved.
Module RequestTimedOut.
Record t := mk { requestId : B256 }.
End RequestTimedOut.
Module OracleResult.
Record t := mk { requestId : B256; sponsor : Address; result : Bytes; approved : bool }.
End OracleResult.
Module ArbitrationTimedOut.
Record t := mk { requestId : B256 }.
End ArbitrationTimedOut.
Module DisputeOutOfScope.
Record t := mk { requestId : B256; context : Bytes }.
End DisputeOutOfScope.
Module Claimed.
Record t := mk { requestId : B256; sentinel : Address; bondReturn : U96; feeReward : U96 }.
End Claimed.

Inductive SentinelOracleEvents :=
  | EvNewRequest (event : NewRequest.t)
  | EvCommitted (event : Committed.t)
  | EvRevealed (event : Revealed.t)
  | EvDisputeTriggered (event : DisputeTriggered.t)
  | EvDisputeResolved (event : DisputeResolved.t)
  | EvRequestTimedOut (event : RequestTimedOut.t)
  | EvOracleResult (event : OracleResult.t)
  | EvArbitrationTimedOut (event : ArbitrationTimedOut.t)
  | EvDisputeOutOfScope (event : DisputeOutOfScope.t)
  | EvClaimed (event : Claimed.t).

Inductive SentinelOracleCalls :=
  | commitCall (requestId commitHash : B256)
  | revealCall (requestId : B256) (approve : bool) (salt : B256) (reason : Bytes)
  | finalizeCall (requestId : B256)
  | claimCall (requestId : B256).
End SentinelOracle.

Module ERC20.
Inductive ERC20Calls := approveCall (spender : Address) (amount : U256).
End ERC20.

(** [consensus::TransactionProposal]. *)
Module TransactionProposal.
Record t := mk { epoch : N; oracle : Address; oracleData : Bytes; safeTxHash : B256 }.
End TransactionProposal.

(** [SentinelEvents]; the sentinel's [Consensus] declares one event. *)
Inductive SentinelEvents :=
  | SOracle (event : SentinelOracle.SentinelOracleEvents)
  | SConsensus (event : Consensus.TransactionProposed.t).

Class SentinelLibs := {
  (** [SolCall::abi_encode] of the generated calls. *)
  sentinel_oracle_abi_encode : SentinelOracle.SentinelOracleCalls → Bytes;
  erc20_abi_encode : ERC20.ERC20Calls → Bytes;
  (** [TransactionProposal::eip712_signing_hash]. *)
  proposal_eip712_signing_hash : TransactionProposal.t → Eip712Domain.t → B256;
  (** [Hkdf::<Sha256>::new(salt, ikm)], expanded with the parts of the info to 32 bytes. *)
  hkdf_sha256 : Bytes → Bytes → list Bytes → B256;
}.
