(* ===== verification/Sentinel.v ===== *)
(** * The sentinel service: [sentinel/]

    The commit-reveal game of one sentinel: its per-request state ([state.rs]),
    actions and effects ([action.rs], [effect.rs], [engine.rs]), the hashing of
    its commitments ([hashing.rs]) and the state transition and encoder of
    [service.rs]. Logging and metrics are left out. *)

From S2P Require Import Prelude.
From S2P Require Import Bytes.
From S2P Require Import Core.
From S2P Require Import Bindings.
From S2P Require Import Alloy.
From S2P Require Import SentinelBindings.
From Stdlib Require Import DecimalN.

(** ** Rule identifiers: [engine.rs] *)

Module RuleId.
Record t := new { section : N; rule : N }.

#[export] Instance t_eq_dec : EqDecision t.
Proof. solve_decision. Defined.
End RuleId.
Abbreviation RuleId := RuleId.t.

(** The decimal digits of a number, as [Display] prints them. *)
Fixpoint uint_bytes (u : Decimal.uint) : Bytes :=
  match u with
  | Decimal.Nil => []
  | Decimal.D0 u => x30 :: uint_bytes u
  | Decimal.D1 u => x31 :: uint_bytes u
  | Decimal.D2 u => x32 :: uint_bytes u
  | Decimal.D3 u => x33 :: uint_bytes u
  | Decimal.D4 u => x34 :: uint_bytes u
  | Decimal.D5 u => x35 :: uint_bytes u
  | Decimal.D6 u => x36 :: uint_bytes u
  | Decimal.D7 u => x37 :: uint_bytes u
  | Decimal.D8 u => x38 :: uint_bytes u
  | Decimal.D9 u => x39 :: uint_bytes u
  end.
Definition decimal (n : N) : Bytes := uint_bytes (N.to_uint n).

(** [u32::from_str]: an optional sign, then digits, within the width. *)
Definition digit (b : byte) : option N :=
  let n := Byte.to_N b in if decide (48 ≤ n ∧ n ≤ 57) then Some (n - 48) else None.
Definition u32_max : N := 4294967295.
Fixpoint parse_digits (acc : N) (l : Bytes) : option N :=
  match l with
  | [] => Some acc
  | b :: l =>
      d ← digit b;
      let acc := acc * 10 + d in
      if decide (acc ≤ u32_max) then parse_digits acc l else None
  end.
Definition parse_u32 (l : Bytes) : option N :=
  match l with
  | [] => None
  | b :: l' =>
      let digits := if decide (b = x2b) then l' else l in
      match digits with [] => None | _ => parse_digits 0 digits end
  end.

(** [str::split_once]. *)
Fixpoint split_once (sep : byte) (l : Bytes) : option (Bytes * Bytes) :=
  match l with
  | [] => None
  | b :: l =>
      if decide (b = sep) then Some ([], l)
      else '(before, after) ← split_once sep l; Some (b :: before, after)
  end.

(** [impl Display for RuleId] and [RuleId::parse]. *)
Definition rule_to_string (r : RuleId) : Bytes :=
  [x52; x2d] ++ decimal (RuleId.section r) ++ [x2e] ++ decimal (RuleId.rule r).
Definition rule_parse (code : Bytes) : option RuleId :=
  match code with
  | x52 :: x2d :: rest =>
      '(section, rule) ← split_once x2e rest;
      section ← parse_u32 section;
      rule ← parse_u32 rule;
      Some (RuleId.new section rule)
  | _ => None
  end.

Inductive CheckOutcome := Approved | Denied (rule : RuleId) | Unknown.

(** ** State: [state.rs] *)

Record Request := {
  bond_target : U96;
  slash_amount : U96;
  commit_deadline : N;
  reveal_deadline : N;
}.

Inductive SentinelRequestState :=
  | WaitingForEngineCheck (deadline : N) (request : option Request)
  | WaitingForRequest (approve : bool) (reason : Bytes) (deadline : N)
  | CollectingCommitments (approve : bool) (reason : Bytes) (slash_amount : U96)
      (commit_deadline reveal_deadline committed_count : N) (self_committed : bool)
  | CollectingVotes (approve : bool) (slash_amount : U96)
      (reveal_deadline committed_count revealed_count approve_count deny_count : N)
      (self_revealed : bool)
  | WaitingForOutcome (approve : bool) (slash_amount : U96)
  | WaitingForDisputeResolution (approve : bool) (slash_amount : U96).

(** [approve_and_slash_amount]. *)
Definition approve_and_slash_amount (s : SentinelRequestState) : option (bool * U96) :=
  match s with
  | WaitingForEngineCheck _ _ | WaitingForRequest _ _ _ => None
  | CollectingCommitments approve _ slash_amount _ _ _ self_committed =>
      if self_committed then Some (approve, slash_amount) else None
  | CollectingVotes approve slash_amount _ _ _ _ _ _
  | WaitingForOutcome approve slash_amount
  | WaitingForDisputeResolution approve slash_amount => Some (approve, slash_amount)
  end.

(** [state::State]: a [HashMap]. *)
Abbreviation SentinelState := (gmap B256 SentinelRequestState).

(** A [HashMap] visits its entries in some order. *)
Class Visit := {
  visit : SentinelState → list (B256 * SentinelRequestState);
  visit_entries m : visit m ≡ₚ map_to_list m;
}.

(** ** Actions and effects *)

Inductive SentinelActionKind :=
  | ApproveToken (bond : U256)
  | Commit (id hash : B256)
  | Reveal (id : B256) (approve : bool) (salt : B256) (reason : Bytes)
  | Finalize (id : B256)
  | Claim (id : B256).

Record SentinelAction := { kind : SentinelActionKind; expires_at : option N }.

(** [effect::Effect] and [effect::Resume]. *)
Inductive SentinelEffect :=
  | EngineCheck (request_id : B256) (transaction : SafeTransaction) (block : N).
Inductive SentinelResume :=
  | EngineCheckResult (request_id : B256) (outcome : CheckOutcome).

Abbreviation SentinelCommand := (Command SentinelAction SentinelEffect).

(** ** Hashing: [hashing.rs], [core/kdf.rs], [core/tx/signer.rs] *)

(** [Signer]: the account's address and private key. *)
Record Signer := { signer_address : Address; signer_key : Bytes }.

Section sentinel.
Context {AL : Alloy} {SL : SentinelLibs} {VI : Visit}.

(** [kdf::derive_key]; [None] is its panic on an empty domain. *)
Definition derive_key (ikm domain : Bytes) (message : list Bytes) : option B256 :=
  match domain with [] => None | _ => Some (hkdf_sha256 domain ikm message) end.

Definition signer_derive_key (s : Signer) (domain message : Bytes) : option B256 :=
  derive_key (signer_key s) domain [message].

(** [b"safenet-sentinel-reveal-salt"]. *)
Definition REVEAL_SALT_DOMAIN : Bytes :=
  [x73; x61; x66; x65; x6e; x65; x74; x2d; x73; x65; x6e; x74; x69; x6e; x65; x6c; x2d;
   x72; x65; x76; x65; x61; x6c; x2d; x73; x61; x6c; x74].

(** [RevealSalt::reveal_salt]; the domain is not empty. *)
Definition reveal_salt (s : Signer) (request_id : B256) : B256 :=
  default B256_ZERO (signer_derive_key s REVEAL_SALT_DOMAIN (to_be_bytes 32 request_id)).

(** The bytes [commit_hash] feeds the hasher. *)
Definition commit_preimage (sentinel : Address) (request_id : B256) (approve : bool)
    (salt : B256) (reason : Bytes) : Bytes :=
  [if approve then x01 else x00] ++ to_be_bytes 32 salt ++ to_be_bytes 20 sentinel ++
  to_be_bytes 32 request_id ++ reason.

Definition commit_hash (sentinel : Address) (request_id : B256) (approve : bool)
    (salt : B256) (reason : Bytes) : B256 :=
  keccak256 (commit_preimage sentinel request_id approve salt reason).

Definition oracle_tx_proposal_hash (chain_id : U256) (consensus : Address) (epoch : N)
    (oracle : Address) (oracle_data : Bytes) (stx_hash : B256) : B256 :=
  proposal_eip712_signing_hash (TransactionProposal.mk epoch oracle oracle_data stx_hash)
    (Eip712Domain.mk chain_id consensus).

(** ** The state transition: [service.rs] *)

(** [SentinelTransition]. *)
Record SentinelTransition := {
  oracle : Address;
  consensus : Address;
  signer : Signer;
  chain_id : U256;
  voting_window : N;
}.

Context (T : SentinelTransition).

Definition action (kind : SentinelActionKind) (expires_at : option N) : SentinelCommand :=
  CAction {| kind := kind; expires_at := expires_at |}.

Definition proposal_id (event : Consensus.TransactionProposed.t) : B256 :=
  oracle_tx_proposal_hash (chain_id T) (consensus T)
    (Consensus.TransactionProposed.epoch event) (Consensus.TransactionProposed.oracle event)
    (Consensus.TransactionProposed.oracleData event)
    (Consensus.TransactionProposed.safeTxHash event).

Definition handle_oracle_transaction_proposed (state : SentinelState) (block : N)
    (event : Consensus.TransactionProposed.t) : SentinelState * list SentinelCommand :=
  if decide (Consensus.TransactionProposed.oracle event ≠ oracle T) then (state, []) else
  let request_id := proposal_id event in
  match state !! request_id with
  | Some _ => (state, [])
  | None =>
      let deadline := saturating_add block (voting_window T) in
      (<[request_id := WaitingForEngineCheck deadline None]> state,
       [CEffect (EngineCheck request_id
          (Consensus.TransactionProposed.transaction event) block)])
  end.

Definition commit_vote (state : SentinelState) (request_id : B256) (approve : bool)
    (reason : Bytes) (request : Request) : SentinelState * list SentinelCommand :=
  let salt := reveal_salt (signer T) request_id in
  let hash := commit_hash (signer_address (signer T)) request_id approve salt reason in
  (<[request_id := CollectingCommitments approve reason (slash_amount request)
       (commit_deadline request) (reveal_deadline request) 0 false]> state,
   [action (ApproveToken (bond_target request)) (Some (commit_deadline request));
    action (Commit request_id hash) (Some (commit_deadline request))]).

(** The vote an engine's verdict calls for. *)
Definition verdict (outcome : CheckOutcome) : option (bool * Bytes) :=
  match outcome with
  | Approved => Some (true, [])
  | Denied rule => Some (false, rule_to_string rule)
  | Unknown => None
  end.

Definition handle_engine_check_result (state : SentinelState) (request_id : B256)
    (outcome : CheckOutcome) : SentinelState * list SentinelCommand :=
  match state !! request_id with
  | Some (WaitingForEngineCheck deadline request) =>
      let state := delete request_id state in
      match verdict outcome with
      | None => (state, [])
      | Some (approve, reason) =>
          match request with
          | Some request => commit_vote state request_id approve reason request
          | None => (<[request_id := WaitingForRequest approve reason deadline]> state, [])
          end
      end
  | _ => (state, [])
  end.

Definition handle_new_request (state : SentinelState) (event : SentinelOracle.NewRequest.t)
    : SentinelState * list SentinelCommand :=
  let request_id := SentinelOracle.NewRequest.requestId event in
  let request :=
    {| bond_target := SentinelOracle.NewRequest.bondTarget event;
       slash_amount := SentinelOracle.NewRequest.slashAmount event;
       commit_deadline := SentinelOracle.NewRequest.commitDeadline event;
       reveal_deadline := SentinelOracle.NewRequest.revealDeadline event |} in
  match state !! request_id with
  | Some (WaitingForRequest approve reason _) =>
      commit_vote (delete request_id state) request_id approve reason request
  | Some (WaitingForEngineCheck deadline None) =>
      (<[request_id := WaitingForEngineCheck deadline (Some request)]> state, [])
  | _ => (state, [])
  end.

Definition handle_committed (state : SentinelState) (event : SentinelOracle.Committed.t)
    : SentinelState * list SentinelCommand :=
  let request_id := SentinelOracle.Committed.requestId event in
  match state !! request_id with
  | Some (CollectingCommitments approve reason slash_amount commit_deadline reveal_deadline
            committed_count self_committed) =>
      let own := bool_decide (SentinelOracle.Committed.sentinel event =
                   signer_address (signer T)) in
      (<[request_id := CollectingCommitments approve reason slash_amount commit_deadline
           reveal_deadline (wrapping_add committed_count 1) (self_committed || own)]> state, [])
  | _ => (state, [])
  end.

(** [finalize]. *)
Definition finalize (state : SentinelRequestState) (request_id : B256)
    : option SentinelRequestState * list SentinelCommand :=
  match state with
  | CollectingVotes approve slash_amount _ _ revealed_count _ _ self_revealed =>
      let timed_out := bool_decide (revealed_count = 0) in
      if negb self_revealed && negb timed_out then (None, [])
      else (Some (WaitingForOutcome approve slash_amount), [action (Finalize request_id) None])
  | _ => (None, [])
  end.

Definition handle_revealed (state : SentinelState) (event : SentinelOracle.Revealed.t)
    : SentinelState * list SentinelCommand :=
  let request_id := SentinelOracle.Revealed.requestId event in
  match state !! request_id with
  | Some (CollectingVotes approve slash_amount reveal_deadline committed_count revealed_count
            approve_count deny_count self_revealed) =>
      let revealed_count := wrapping_add revealed_count 1 in
      let approved := SentinelOracle.Revealed.approved event in
      let approve_count := if approved then wrapping_add approve_count 1 else approve_count in
      let deny_count := if approved then deny_count else wrapping_add deny_count 1 in
      let own := bool_decide (SentinelOracle.Revealed.sentinel event =
                   signer_address (signer T)) in
      let entry := CollectingVotes approve slash_amount reveal_deadline committed_count
                     revealed_count approve_count deny_count (self_revealed || own) in
      if decide (revealed_count < committed_count) then (<[request_id := entry]> state, [])
      else
        let '(update, actions) := finalize entry request_id in
        (match update with
         | None => delete request_id state
         | Some entry => <[request_id := entry]> state
         end, actions)
  | _ => (state, [])
  end.

(** One turn of the [retain] of [handle_block_advance]. *)
Definition advance_entry (block : N) (id : B256) (entry : SentinelRequestState)
    : option SentinelRequestState * list SentinelCommand :=
  match entry with
  | WaitingForEngineCheck deadline request =>
      (if decide (block ≤ from_option commit_deadline deadline request)
       then Some entry else None, [])
  | WaitingForRequest _ _ deadline => (if decide (block ≤ deadline) then Some entry else None, [])
  | CollectingCommitments approve reason slash_amount commit_deadline reveal_deadline
      committed_count self_committed =>
      if decide (block ≤ commit_deadline) then (Some entry, [])
      else if negb self_committed then (None, [])
      else
        (Some (CollectingVotes approve slash_amount reveal_deadline committed_count 0 0 0 false),
         [action (Reveal id approve (reveal_salt (signer T) id) reason) (Some reveal_deadline)])
  | CollectingVotes _ _ reveal_deadline _ _ _ _ _ =>
      if decide (block ≤ reveal_deadline) then (Some entry, []) else finalize entry id
  | WaitingForOutcome _ _ | WaitingForDisputeResolution _ _ => (Some entry, [])
  end.

Definition handle_block_advance (state : SentinelState) (block : N)
    : SentinelState * list SentinelCommand :=
  (map_imap (λ id entry, (advance_entry block id entry).1) state,
   p ← visit state; (advance_entry block p.1 p.2).2).

Definition claim (request_id : B256) : list SentinelCommand := [action (Claim request_id) None].

Definition handle_resolved (state : SentinelState) (event : SentinelOracle.DisputeResolved.t)
    : SentinelState * list SentinelCommand :=
  let request_id := SentinelOracle.DisputeResolved.requestId event in
  match state !! request_id with
  | Some (WaitingForDisputeResolution _ _) => (delete request_id state, claim request_id)
  | _ => (state, [])
  end.

Definition handle_arbitration_timeout (state : SentinelState) (request_id : B256)
    : SentinelState * list SentinelCommand :=
  match state !! request_id with
  | Some _ => (delete request_id state, claim request_id)
  | None => (state, [])
  end.

(** Only metrics come of a claim. *)
Definition handle_claimed (state : SentinelState) (event : SentinelOracle.Claimed.t)
    : SentinelState * list SentinelCommand := (state, []).

Definition handle_request_timed_out (state : SentinelState)
    (event : SentinelOracle.RequestTimedOut.t) : SentinelState * list SentinelCommand :=
  let request_id := SentinelOracle.RequestTimedOut.requestId event in
  match state !! request_id with
  | Some entry =>
      (delete request_id state,
       match approve_and_slash_amount entry with None => [] | Some _ => claim request_id end)
  | None => (state, [])
  end.

Definition handle_dispute_triggered (state : SentinelState)
    (event : SentinelOracle.DisputeTriggered.t) : SentinelState * list SentinelCommand :=
  let request_id := SentinelOracle.DisputeTriggered.requestId event in
  match state !! request_id with
  | Some entry =>
      (match approve_and_slash_amount entry with
       | Some (approve, slash_amount) =>
           <[request_id := WaitingForDisputeResolution approve slash_amount]> state
       | None => delete request_id state
       end, [])
  | None => (state, [])
  end.

Definition handle_oracle_result (state : SentinelState) (event : SentinelOracle.OracleResult.t)
    : SentinelState * list SentinelCommand :=
  let request_id := SentinelOracle.OracleResult.requestId event in
  match state !! request_id with
  | Some entry =>
      (delete request_id state,
       match approve_and_slash_amount entry with None => [] | Some _ => claim request_id end)
  | None => (state, [])
  end.

(** [StateTransition::apply_transition]. *)
Definition sentinel_transition (state : SentinelState)
    (message : Message SentinelEvents SentinelResume) : SentinelState * list SentinelCommand :=
  match message with
  | NewBlock block => handle_block_advance state block
  | MEvent log =>
      match log_data log with
      | SConsensus event => handle_oracle_transaction_proposed state (log_block log) event
      | SOracle event =>
          match event with
          | SentinelOracle.EvNewRequest event => handle_new_request state event
          | SentinelOracle.EvCommitted event => handle_committed state event
          | SentinelOracle.EvRevealed event => handle_revealed state event
          | SentinelOracle.EvRequestTimedOut event => handle_request_timed_out state event
          | SentinelOracle.EvOracleResult event => handle_oracle_result state event
          | SentinelOracle.EvDisputeTriggered event => handle_dispute_triggered state event
          | SentinelOracle.EvDisputeResolved event => handle_resolved state event
          | SentinelOracle.EvArbitrationTimedOut event =>
              handle_arbitration_timeout state
                (SentinelOracle.ArbitrationTimedOut.requestId event)
          | SentinelOracle.EvDisputeOutOfScope event =>
              handle_arbitration_timeout state (SentinelOracle.DisputeOutOfScope.requestId event)
          | SentinelOracle.EvClaimed event => handle_claimed state event
          end
      end
  | MResume (EngineCheckResult request_id outcome) =>
      handle_engine_check_result state request_id outcome
  end.
End sentinel.

(** ** The encoder *)

(** [SentinelEncoder]. *)
Record SentinelEncoder := { encoder_oracle : Address; fee_token : Address }.

Section encoder.
Context {SL : SentinelLibs}.

Definition encode_action_kind (e : SentinelEncoder) (kind : SentinelActionKind)
    : Core.Transaction :=
  let call call :=
    {| tx_to := encoder_oracle e; tx_value := 0; tx_data := sentinel_oracle_abi_encode call;
       tx_gas := 250000 |} in
  match kind with
  | ApproveToken bond =>
      {| tx_to := fee_token e; tx_value := 0;
         tx_data := erc20_abi_encode (ERC20.approveCall (encoder_oracle e) bond);
         tx_gas := 55000 |}
  | Commit id hash => call (SentinelOracle.commitCall id hash)
  | Reveal id approve salt reason => call (SentinelOracle.revealCall id approve salt reason)
  | Finalize id => call (SentinelOracle.finalizeCall id)
  | Claim id => call (SentinelOracle.claimCall id)
  end.

Definition sentinel_encode_action (e : SentinelEncoder) (action : SentinelAction)
    : Core.Transaction * option N :=
  (encode_action_kind e (kind action), expires_at action).
End encoder.

(** ** The service *)

(** The engine: its answer to a check, or a failure ([EngineClient]). *)
Inductive Response := Secure | Insecure (rule : RuleId) | Abstain.

(** [SecurityCheck::execute], from the response, if there is one. *)
Definition outcome_of (response : option Response) : CheckOutcome :=
  match response with
  | Some Secure => Approved
  | Some (Insecure rule) => Denied rule
  | Some Abstain => Unknown
  | None => Unknown
  end.

(** [Handler::perform_effect]; [engine] answers within the timeout, or not. *)
Definition sentinel_perform_effect
    (engine : B256 → N → SafeTransaction → option Response) (effect : SentinelEffect)
    : SentinelResume :=
  match effect with
  | EngineCheck request_id transaction block =>
      EngineCheckResult request_id (outcome_of (engine request_id block transaction))
  end.

(** [SentinelService], without its engine, and [Service::components]. *)
Record SentinelService := {
  service_oracle : Address;
  service_fee_token : Address;
  service_consensus : Address;
  service_signer : Signer;
  service_chain_id : U256;
  service_voting_window : N;
}.

Definition sentinel_components (s : SentinelService) : SentinelTransition * SentinelEncoder :=
  ({| oracle := service_oracle s; consensus := service_consensus s; signer := service_signer s;
      chain_id := service_chain_id s; voting_window := service_voting_window s |},
   {| encoder_oracle := service_oracle s; fee_token := service_fee_token s |}).

(** The engine's timeout, in milliseconds: three quarters of the voting window
    but its last block ([main.rs]). *)
Definition engine_timeout (voting_window block_time : N) : N :=
  N.max
    (let wide := N.min ((voting_window - 1) * block_time * 3) (2 ^ 128 - 1) / 4 in
     if decide (wide ≤ u64_max) then wide else u64_max)
    1000.
