(* ===== verification/SentinelSafety.v ===== *)
(** * What a sentinel votes, and what becomes of its bonds

    Properties of every run of the sentinel's transition: the votes it reveals,
    the requests it drops, and the bonds it has posted. *)

From S2P Require Import Prelude.
From S2P Require Import Bytes.
From S2P Require Import Core.
From S2P Require Import Bindings.
From S2P Require Import Alloy.
From S2P Require Import Hashing.
From S2P Require Import SentinelBindings.
From S2P Require Import Sentinel.
From Stdlib Require Import DecimalN.

Section safety.
Context {AL : Alloy} {SL : SentinelLibs} {VI : Visit} (T : SentinelTransition).

Abbreviation SentinelMessage := (Message SentinelEvents SentinelResume).

(** ** The block advance, entry by entry *)

Lemma advance_lookup state block id :
  (handle_block_advance T state block).1 !! id =
    state !! id ≫= λ entry, (advance_entry T block id entry).1.
Proof. unfold handle_block_advance. simpl. by rewrite map_lookup_imap. Qed.

Lemma advance_commands state block c :
  c ∈ (handle_block_advance T state block).2 ↔
  ∃ id entry, state !! id = Some entry ∧ c ∈ (advance_entry T block id entry).2.
Proof.
  unfold handle_block_advance. simpl. rewrite list_elem_of_bind. split.
  - intros ([id entry] & Hc & Hin). exists id, entry.
    rewrite visit_entries in Hin. by apply elem_of_map_to_list in Hin.
  - intros (id & entry & Hin & Hc). exists (id, entry). split; [done|].
    rewrite visit_entries. by apply elem_of_map_to_list.
Qed.

(** ** One request *)

(** The machine of one request: what a message does to the entry of [id], and
    the commands it gives. *)
Definition cast_vote (id : B256) (approve : bool) (reason : Bytes) (request : Request)
    : option SentinelRequestState * list SentinelCommand :=
  (Some (CollectingCommitments approve reason (slash_amount request) (commit_deadline request)
     (reveal_deadline request) 0 false),
   [action (ApproveToken (bond_target request)) (Some (commit_deadline request));
    action (Commit id (commit_hash (signer_address (signer T)) id approve
      (reveal_salt (signer T) id) reason)) (Some (commit_deadline request))]).

Definition settle (id : B256) (entry : option SentinelRequestState)
    : option SentinelRequestState * list SentinelCommand :=
  (None, match entry ≫= approve_and_slash_amount with None => [] | Some _ => claim id end).

(** The request an event is about. *)
Definition event_request (event : SentinelOracle.SentinelOracleEvents) : B256 :=
  match event with
  | SentinelOracle.EvNewRequest e => SentinelOracle.NewRequest.requestId e
  | SentinelOracle.EvCommitted e => SentinelOracle.Committed.requestId e
  | SentinelOracle.EvRevealed e => SentinelOracle.Revealed.requestId e
  | SentinelOracle.EvDisputeTriggered e => SentinelOracle.DisputeTriggered.requestId e
  | SentinelOracle.EvDisputeResolved e => SentinelOracle.DisputeResolved.requestId e
  | SentinelOracle.EvRequestTimedOut e => SentinelOracle.RequestTimedOut.requestId e
  | SentinelOracle.EvOracleResult e => SentinelOracle.OracleResult.requestId e
  | SentinelOracle.EvArbitrationTimedOut e => SentinelOracle.ArbitrationTimedOut.requestId e
  | SentinelOracle.EvDisputeOutOfScope e => SentinelOracle.DisputeOutOfScope.requestId e
  | SentinelOracle.EvClaimed e => SentinelOracle.Claimed.requestId e
  end.

Definition request_event (id : B256) (event : SentinelOracle.SentinelOracleEvents)
    (entry : option SentinelRequestState)
    : option SentinelRequestState * list SentinelCommand :=
  match event, entry with
  | SentinelOracle.EvNewRequest e, Some (WaitingForRequest approve reason _) =>
      cast_vote id approve reason
        {| bond_target := SentinelOracle.NewRequest.bondTarget e;
           slash_amount := SentinelOracle.NewRequest.slashAmount e;
           commit_deadline := SentinelOracle.NewRequest.commitDeadline e;
           reveal_deadline := SentinelOracle.NewRequest.revealDeadline e |}
  | SentinelOracle.EvNewRequest e, Some (WaitingForEngineCheck deadline None) =>
      (Some (WaitingForEngineCheck deadline (Some
        {| bond_target := SentinelOracle.NewRequest.bondTarget e;
           slash_amount := SentinelOracle.NewRequest.slashAmount e;
           commit_deadline := SentinelOracle.NewRequest.commitDeadline e;
           reveal_deadline := SentinelOracle.NewRequest.revealDeadline e |})), [])
  | SentinelOracle.EvCommitted e,
      Some (CollectingCommitments approve reason slash commit_by reveal_by committed own) =>
      (Some (CollectingCommitments approve reason slash commit_by reveal_by
         (wrapping_add committed 1)
         (own || bool_decide (SentinelOracle.Committed.sentinel e = signer_address (signer T)))),
       [])
  | SentinelOracle.EvRevealed e,
      Some (CollectingVotes approve slash reveal_by committed revealed approvals denials own) =>
      let approved := SentinelOracle.Revealed.approved e in
      let entry := CollectingVotes approve slash reveal_by committed (wrapping_add revealed 1)
        (if approved then wrapping_add approvals 1 else approvals)
        (if approved then denials else wrapping_add denials 1)
        (own || bool_decide (SentinelOracle.Revealed.sentinel e = signer_address (signer T))) in
      if decide (wrapping_add revealed 1 < committed) then (Some entry, []) else finalize entry id
  | SentinelOracle.EvDisputeResolved _, Some (WaitingForDisputeResolution _ _) =>
      (None, claim id)
  | (SentinelOracle.EvArbitrationTimedOut _ | SentinelOracle.EvDisputeOutOfScope _), Some _ =>
      (None, claim id)
  | (SentinelOracle.EvRequestTimedOut _ | SentinelOracle.EvOracleResult _), _ =>
      settle id entry
  | SentinelOracle.EvDisputeTriggered _, Some entry =>
      ((λ '(approve, slash), WaitingForDisputeResolution approve slash) <$>
         approve_and_slash_amount entry, [])
  | _, _ => (entry, [])
  end.

Definition request_step (id : B256) (m : SentinelMessage) (entry : option SentinelRequestState)
    : option SentinelRequestState * list SentinelCommand :=
  match m with
  | NewBlock block =>
      match entry with Some entry => advance_entry T block id entry | None => (None, []) end
  | MEvent log =>
      match log_data log with
      | SConsensus event =>
          if decide (Consensus.TransactionProposed.oracle event = oracle T ∧
                     proposal_id T event = id ∧ entry = None) then
            (Some (WaitingForEngineCheck (saturating_add (log_block log) (voting_window T)) None),
             [CEffect (EngineCheck id (Consensus.TransactionProposed.transaction event)
                (log_block log))])
          else (entry, [])
      | SOracle event =>
          if decide (event_request event = id) then request_event id event entry else (entry, [])
      end
  | MResume (EngineCheckResult request_id outcome) =>
      match entry with
      | Some (WaitingForEngineCheck deadline request) =>
          if decide (request_id = id) then
            match verdict outcome, request with
            | None, _ => (None, [])
            | Some (approve, reason), Some request => cast_vote id approve reason request
            | Some (approve, reason), None => (Some (WaitingForRequest approve reason deadline), [])
            end
          else (entry, [])
      | _ => (entry, [])
      end
  end.

(** Every handler but the block advance touches the entry of one request. *)
Definition store (id : B256) (r : option SentinelRequestState * list SentinelCommand)
    (state : SentinelState) : SentinelState * list SentinelCommand :=
  (partial_alter (λ _, r.1) id state, r.2).

Lemma store_same id state commands :
  store id (state !! id, commands) state = (state, commands).
Proof. unfold store. simpl. by rewrite partial_alter_self. Qed.

Ltac stored :=
  repeat first
    [ case_match; simplify_eq/=
    | rewrite insert_delete_eq
    | reflexivity
    | match goal with H : ?state !! ?id = ?e |- _ = store ?id (?e, _) ?state =>
        rewrite <-H, store_same end ].

Lemma event_stored state log event :
  log_data log = SOracle event →
  sentinel_transition T state (MEvent log) =
  store (event_request event)
    (request_event (event_request event) event (state !! event_request event)) state.
Proof.
  intros Hlog. unfold sentinel_transition. rewrite Hlog.
  destruct event as [e|e|e|e|e|e|e|e|e|e]; destruct e; simpl;
    unfold handle_new_request, handle_committed, handle_revealed, handle_dispute_triggered,
      handle_resolved, handle_request_timed_out, handle_oracle_result,
      handle_arbitration_timeout, handle_claimed, commit_vote, settle; simpl;
    destruct (state !! _) as [[]|] eqn:He; simpl; stored.
Qed.

Lemma result_stored state request_id outcome :
  sentinel_transition T state (MResume (EngineCheckResult request_id outcome)) =
  store request_id (request_step request_id (MResume (EngineCheckResult request_id outcome))
    (state !! request_id)) state.
Proof.
  simpl. unfold handle_engine_check_result, commit_vote.
  destruct (state !! request_id) as [[]|] eqn:He; simpl; try rewrite decide_True by done; stored.
Qed.

Lemma proposal_stored state log event :
  log_data log = SConsensus event →
  sentinel_transition T state (MEvent log) =
  store (proposal_id T event)
    (request_step (proposal_id T event) (MEvent log) (state !! proposal_id T event)) state.
Proof.
  intros Hlog. unfold sentinel_transition, request_step, handle_oracle_transaction_proposed.
  rewrite Hlog. repeat case_decide; try naive_solver;
    destruct (state !! proposal_id T event) eqn:He; simpl; stored; naive_solver.
Qed.

(** What a message other than a block is about. *)
Definition message_request (m : SentinelMessage) : option B256 :=
  match m with
  | NewBlock _ => None
  | MEvent log =>
      Some match log_data log with
           | SOracle event => event_request event
           | SConsensus event => proposal_id T event
           end
  | MResume (EngineCheckResult request_id _) => Some request_id
  end.

Lemma message_stored state m id :
  message_request m = Some id →
  sentinel_transition T state m = store id (request_step id m (state !! id)) state.
Proof.
  destruct m as [block|log|[request_id outcome]]; intros [= <-].
  - destruct (log_data log) as [event|event] eqn:Hlog; [|by apply proposal_stored].
    rewrite (event_stored _ _ event) by done. unfold request_step. by rewrite Hlog, decide_True.
  - apply result_stored.
Qed.

Lemma other_request m id id' entry :
  message_request m = Some id' → id ≠ id' → request_step id m entry = (entry, []).
Proof.
  destruct m as [block|log|[request_id outcome]]; intros [= <-] Hne; simpl.
  - destruct (log_data log); by rewrite decide_False by naive_solver.
  - destruct entry as [[]|]; try done. by rewrite decide_False by congruence.
Qed.

Lemma step_lookup state m id :
  (sentinel_transition T state m).1 !! id = (request_step id m (state !! id)).1.
Proof.
  destruct (message_request m) as [id'|] eqn:Hm.
  - rewrite (message_stored _ _ _ Hm). unfold store. simpl.
    destruct (decide (id = id')) as [<-|Hne]; [by rewrite lookup_partial_alter_eq|].
    rewrite lookup_partial_alter_ne by done. by rewrite (other_request _ _ _ _ Hm Hne).
  - destruct m as [block| |[]]; try done. cbn [sentinel_transition request_step].
    rewrite advance_lookup. by destruct (state !! id).
Qed.

Lemma step_commands state m c :
  c ∈ (sentinel_transition T state m).2 ↔ ∃ id, c ∈ (request_step id m (state !! id)).2.
Proof.
  destruct (message_request m) as [id'|] eqn:Hm.
  - rewrite (message_stored _ _ _ Hm). unfold store. simpl. split; [eauto|].
    intros [id Hc]. destruct (decide (id = id')) as [->|Hne]; [done|].
    rewrite (other_request _ _ _ _ Hm Hne) in Hc. by apply elem_of_nil in Hc.
  - destruct m as [block| |[]]; try done. cbn [sentinel_transition request_step].
    rewrite advance_commands. split.
    + intros (id & entry & He & Hc). exists id. by rewrite He.
    + intros [id Hc]. destruct (state !! id) as [entry|] eqn:He; [|by apply elem_of_nil in Hc].
      by exists id, entry.
Qed.

(** ** Runs *)

(** The state a sequence of messages leads to, and the commands on the way; and
    the same for one request. *)
Definition sentinel_from (state : SentinelState) (messages : list SentinelMessage)
    : SentinelState * list SentinelCommand :=
  foldl (λ '(state, out) m, let '(state, commands) := sentinel_transition T state m in
    (state, out ++ commands)) (state, []) messages.
Definition sentinel_run (messages : list SentinelMessage)
    : SentinelState * list SentinelCommand := sentinel_from ∅ messages.

Definition request_from (id : B256) (entry : option SentinelRequestState)
    (messages : list SentinelMessage) : option SentinelRequestState * list SentinelCommand :=
  foldl (λ '(entry, out) m, let '(entry, commands) := request_step id m entry in
    (entry, out ++ commands)) (entry, []) messages.
Definition request_run (id : B256) (messages : list SentinelMessage)
    : option SentinelRequestState * list SentinelCommand := request_from id None messages.

Lemma sentinel_from_snoc state messages m :
  sentinel_from state (messages ++ [m]) =
  let '(state, out) := sentinel_from state messages in
  let '(state, commands) := sentinel_transition T state m in (state, out ++ commands).
Proof. unfold sentinel_from. rewrite foldl_app. by destruct (foldl _ _ messages). Qed.

Lemma request_from_snoc id entry messages m :
  request_from id entry (messages ++ [m]) =
  let '(entry, out) := request_from id entry messages in
  let '(entry, commands) := request_step id m entry in (entry, out ++ commands).
Proof. unfold request_from. rewrite foldl_app. by destruct (foldl _ _ messages). Qed.

Lemma sentinel_run_snoc messages m :
  sentinel_run (messages ++ [m]) =
  let '(state, out) := sentinel_run messages in
  let '(state, commands) := sentinel_transition T state m in (state, out ++ commands).
Proof. apply sentinel_from_snoc. Qed.

Lemma request_run_snoc id messages m :
  request_run id (messages ++ [m]) =
  let '(entry, out) := request_run id messages in
  let '(entry, commands) := request_step id m entry in (entry, out ++ commands).
Proof. apply request_from_snoc. Qed.

Lemma from_lookup state messages id :
  (sentinel_from state messages).1 !! id = (request_from id (state !! id) messages).1.
Proof.
  induction messages as [|m messages IH] using rev_ind; [done|].
  rewrite sentinel_from_snoc, request_from_snoc.
  destruct (sentinel_from state messages) as [state' out].
  destruct (request_from id (state !! id) messages) as [entry out']. simpl in IH.
  pose proof (step_lookup state' m id) as Hm. rewrite IH in Hm.
  destruct (sentinel_transition T state' m), (request_step id m entry). exact Hm.
Qed.

Lemma from_commands state messages c :
  c ∈ (sentinel_from state messages).2 ↔ ∃ id, c ∈ (request_from id (state !! id) messages).2.
Proof.
  induction messages as [|m messages IH] using rev_ind; [simpl; set_solver|].
  pose proof (from_lookup state messages) as Hstate. rewrite sentinel_from_snoc.
  destruct (sentinel_from state messages) as [state' out]. simpl in Hstate, IH.
  pose proof (step_commands state' m c) as Hc.
  destruct (sentinel_transition T state' m) as [state1 commands]. simpl in Hc |- *.
  rewrite elem_of_app, IH, Hc.
  assert (∀ id, c ∈ (request_from id (state !! id) (messages ++ [m])).2 ↔
    c ∈ (request_from id (state !! id) messages).2 ∨ c ∈ (request_step id m (state' !! id)).2)
    as Hsplit.
  { intros id. rewrite request_from_snoc, Hstate.
    destruct (request_from id _ messages) as [entry out']. simpl.
    destruct (request_step id m entry). simpl. by rewrite elem_of_app. }
  setoid_rewrite Hsplit. naive_solver.
Qed.

Lemma run_lookup messages id :
  (sentinel_run messages).1 !! id = (request_run id messages).1.
Proof. unfold sentinel_run, request_run. by rewrite from_lookup, lookup_empty. Qed.

(** [C21] The sentinel is one machine per request: in every run, the entry of a
    request is what that request's machine makes of the messages, and the
    commands given are those of all the machines, so that no message about one
    request changes another. *)
Theorem requests_independent messages :
  let '(state, out) := sentinel_run messages in
  (∀ id, state !! id = (request_run id messages).1) ∧
  ∀ c, c ∈ out ↔ ∃ id, c ∈ (request_run id messages).2.
Proof.
  pose proof (run_lookup messages) as Hstate.
  pose proof (from_commands ∅ messages) as Hout. unfold sentinel_run in *.
  destruct (sentinel_from ∅ messages) as [state out]. split; [exact Hstate|]. intros c.
  specialize (Hout c). setoid_rewrite lookup_empty in Hout. exact Hout.
Qed.

(** ** Votes *)

Definition own_address : Address := signer_address (signer T).

(** The hash that commits to a vote. *)
Definition own_hash (id : B256) (approve : bool) (reason : Bytes) : B256 :=
  commit_hash own_address id approve (reveal_salt (signer T) id) reason.

(** What the messages and the commands so far tell of a request. *)
Definition engine_said (messages : list SentinelMessage) (id : B256) (approve : bool)
    (reason : Bytes) : Prop :=
  ∃ outcome, MResume (EngineCheckResult id outcome) ∈ messages ∧
    verdict outcome = Some (approve, reason).

Definition commit_landed (messages : list SentinelMessage) (id : B256) : Prop :=
  ∃ log event, MEvent log ∈ messages ∧ log_data log = SOracle (SentinelOracle.EvCommitted event) ∧
    SentinelOracle.Committed.requestId event = id ∧
    SentinelOracle.Committed.sentinel event = own_address.

Definition justified (messages : list SentinelMessage) (out : list SentinelCommand) (id : B256)
    (entry : SentinelRequestState) : Prop :=
  match entry with
  | WaitingForRequest approve reason _ => engine_said messages id approve reason
  | CollectingCommitments approve reason _ deadline _ _ self_committed =>
      engine_said messages id approve reason ∧
      action (Commit id (own_hash id approve reason)) (Some deadline) ∈ out ∧
      (self_committed = true → commit_landed messages id)
  | _ => True
  end.

Lemma justified_mono messages messages' out out' id entry :
  messages ⊆ messages' → out ⊆ out' → justified messages out id entry →
  justified messages' out' id entry.
Proof.
  intros Hm Ho. unfold justified, engine_said, commit_landed.
  destruct entry; [done| | |done..]; naive_solver.
Qed.

Lemma cast_vote_justified messages out id approve reason request entry' commands :
  engine_said messages id approve reason →
  cast_vote id approve reason request = (Some entry', commands) →
  justified messages (out ++ commands) id entry'.
Proof.
  intros Hsaid [= <- <-]. split; [done|]. split; [|done].
  apply elem_of_app. right. right. left.
Qed.

Lemma request_step_justified messages out id m entry entry' commands :
  (∀ e, entry = Some e → justified messages out id e) →
  request_step id m entry = (Some entry', commands) →
  justified (messages ++ [m]) (out ++ commands) id entry'.
Proof.
  intros Hj Hstep.
  assert (∀ e, entry = Some e → justified (messages ++ [m]) (out ++ commands) id e) as Hj'.
  { intros e He. eapply justified_mono; [..|by apply Hj]; set_solver. }
  clear Hj.
  destruct m as [block|log|[request_id outcome]]; simpl in Hstep.
  - destruct entry as [[]|]; simpl in Hstep; repeat case_match; simplify_eq/=; naive_solver.
  - destruct (log_data log) as [event|event] eqn:Hlog.
    + case_decide as Hid; [|simplify_eq/=; by apply Hj'].
      assert (∀ e, entry = Some e → justified (messages ++ [MEvent log]) (out ++ commands)
        (event_request event) e) as Hj by (rewrite Hid; exact Hj').
      clear Hj'. subst id.
      destruct event as [e|e|e|e|e|e|e|e|e|e], entry as [[]|]; simpl in Hstep;
        unfold finalize in Hstep; repeat case_match; simplify_eq/=; try done;
        try (by apply (Hj _ eq_refl)); specialize (Hj _ eq_refl); simpl in Hj.
      * by eapply cast_vote_justified.
      * destruct Hj as (Hsaid & Hc & Hown). split; [done|]. split; [done|].
        intros [Hs|Hs%bool_decide_eq_true]%orb_true_iff; [by apply Hown|].
        exists log, e. split_and!; try done. apply elem_of_app. right. left.
    + case_decide; simplify_eq/=; [exact I|by apply Hj'].
  - destruct entry as [[deadline request| | | | |]|]; simplify_eq/=;
      try by apply (Hj' _ eq_refl).
    case_decide as Hid; [subst|simplify_eq; by apply (Hj' _ eq_refl)].
    destruct (verdict outcome) as [[approve reason]|] eqn:Hv; [|done].
    assert (engine_said (messages ++ [MResume (EngineCheckResult id outcome)]) id approve reason)
      as Hsaid by (exists outcome; split; [apply elem_of_app; right; left|done]).
    destruct request; [by eapply cast_vote_justified|by simplify_eq].
Qed.

Lemma run_justified messages id entry :
  (request_run id messages).1 = Some entry →
  justified messages (request_run id messages).2 id entry.
Proof.
  revert entry. induction messages as [|m messages IH] using rev_ind; intros entry; [done|].
  rewrite request_run_snoc. destruct (request_run id messages) as [e out].
  destruct (request_step id m e) as [e' commands] eqn:Hm. simpl in *. intros ->.
  by apply (request_step_justified _ _ _ _ e).
Qed.

Lemma finalize_commands id entry c :
  c ∈ (finalize entry id).2 → c = action (Finalize id) None.
Proof.
  unfold finalize. destruct entry; simpl; try (by intros ?%elem_of_nil).
  destruct (_ && _); simpl; [by intros ?%elem_of_nil|]. by intros ?%list_elem_of_singleton.
Qed.

#[local] Arguments finalize : simpl never.

(** A reveal is the block advance's, past the commit deadline of a request
    whose commitment has landed. *)
Lemma reveal_step id m entry id' approve salt reason expires :
  action (Reveal id' approve salt reason) expires ∈ (request_step id m entry).2 →
  ∃ block slash commit_by reveal_by committed,
    m = NewBlock block ∧ id' = id ∧ salt = reveal_salt (signer T) id ∧
    entry = Some (CollectingCommitments approve reason slash commit_by reveal_by committed true) ∧
    expires = Some reveal_by ∧ commit_by < block.
Proof.
  intros Hc. destruct m as [block|log|[request_id outcome]]; simpl in Hc.
  - destruct entry as [[| |? ? ? ? ? ? []| | |]|]; simpl in Hc;
      repeat case_decide; simpl in Hc; try (by apply elem_of_nil in Hc).
    + apply list_elem_of_singleton in Hc. injection Hc as -> -> -> -> ->.
      do 5 eexists. split_and!; try done. lia.
    + by apply finalize_commands in Hc.
  - destruct (log_data log) as [event|event]; case_decide; simpl in Hc;
      try (by apply elem_of_nil in Hc); [|set_solver].
    destruct event as [e|e|e|e|e|e|e|e|e|e], entry as [[]|]; simpl in Hc;
      repeat case_match; simpl in Hc; set_unfold in Hc; try naive_solver.
    all: by apply finalize_commands in Hc.
  - destruct entry as [[]|]; simpl in Hc; try (by apply elem_of_nil in Hc).
    repeat case_match; simpl in Hc; set_unfold in Hc; naive_solver.
Qed.

Lemma run_commands messages c :
  (∃ id, c ∈ (request_run id messages).2) → c ∈ (sentinel_run messages).2.
Proof.
  intros [id Hc]. apply from_commands. exists id. by rewrite lookup_empty.
Qed.

(** [C22] A vote is revealed only past the commit deadline of the request, only
    as the engine decided it, only once its commitment has landed, and always so
    that it opens that commitment: a commitment by this account to this vote, its
    reason and the salt was sent before. *)
Theorem reveals_justified messages m id approve salt reason expires :
  let '(state, out) := sentinel_run messages in
  action (Reveal id approve salt reason) expires ∈ (sentinel_transition T state m).2 →
  engine_said messages id approve reason ∧ commit_landed messages id ∧
  ∃ deadline block,
    action (Commit id (commit_hash own_address id approve salt reason)) (Some deadline) ∈ out ∧
    m = NewBlock block ∧ deadline < block.
Proof.
  pose proof (run_lookup messages) as Hl. pose proof (run_commands messages) as Hrun.
  destruct (sentinel_run messages) as [state out]. simpl in Hl, Hrun.
  intros [id' Hc]%step_commands.
  apply reveal_step in Hc as (block & slash & commit_by & reveal_by & committed & -> & -> & -> &
    Hentry & _ & Hblock).
  rewrite Hl in Hentry. apply run_justified in Hentry as (Hsaid & Hcommit & Hlanded).
  split; [done|]. split; [by apply Hlanded|]. exists commit_by, block. split_and!; try done.
  apply Hrun. by exists id'.
Qed.

(** ** Bonds *)

(** The vote was not revealed, and others' were: nothing is left to do for the
    request, as the code has it. *)
Definition reveal_missed (entry : SentinelRequestState) (m : SentinelMessage) : Prop :=
  ∃ approve slash reveal_by committed revealed approvals denials,
    entry = CollectingVotes approve slash reveal_by committed revealed approvals denials false ∧
    ((∃ block, m = NewBlock block ∧ reveal_by < block ∧ revealed ≠ 0) ∨
     (∃ log event, m = MEvent log ∧
        log_data log = SOracle (SentinelOracle.EvRevealed event) ∧
        SentinelOracle.Revealed.sentinel event ≠ own_address ∧
        wrapping_add revealed 1 ≠ 0 ∧ committed ≤ wrapping_add revealed 1)).

Lemma finalize_outcome approve slash reveal_by committed revealed approvals denials own id :
  let entry := CollectingVotes approve slash reveal_by committed revealed approvals denials own in
  (finalize entry id).1 = None ∧ (finalize entry id).2 = [] ∧ own = false ∧ revealed ≠ 0 ∨
  (finalize entry id).1 = Some (WaitingForOutcome approve slash) ∧
  (finalize entry id).2 = [action (Finalize id) None] ∧ (own = true ∨ revealed = 0).
Proof. unfold finalize. destruct own; simpl; [by right; auto|]. case_bool_decide; auto. Qed.

Lemma advance_commands_id block id entry c :
  c ∈ (advance_entry T block id entry).2 →
  c = action (Finalize id) None ∨
  ∃ approve reason deadline, c = action (Reveal id approve (reveal_salt (signer T) id) reason) deadline.
Proof.
  intros Hc. destruct entry; simpl in Hc; repeat case_match; simpl in Hc; set_unfold in Hc;
    try naive_solver; left; by eapply finalize_commands.
Qed.

Lemma claim_step id m entry id' :
  action (Claim id') None ∈ (request_step id m entry).2 →
  id' = id ∧ (request_step id m entry).1 = None.
Proof.
  intros Hc. destruct m as [block|log|[request_id outcome]]; simpl in *.
  - destruct entry as [entry|]; [|by apply elem_of_nil in Hc].
    apply advance_commands_id in Hc as [|(? & ? & ? & ?)]; simplify_eq.
  - destruct (log_data log) as [event|event]; case_decide; simpl in *; set_unfold in Hc;
      try naive_solver.
    destruct event as [e|e|e|e|e|e|e|e|e|e], entry as [[]|]; simpl in *;
      repeat case_match; simpl in *; set_unfold in Hc; try naive_solver.
    all: by apply finalize_commands in Hc.
  - destruct entry as [[]|]; simpl in *; try (by apply elem_of_nil in Hc).
    repeat case_match; simpl in *; set_unfold in Hc; naive_solver.
Qed.

Lemma claim_transition state m id :
  action (Claim id) None ∈ (sentinel_transition T state m).2 ↔
  action (Claim id) None ∈ (request_step id m (state !! id)).2.
Proof.
  rewrite step_commands. split; [|eauto]. intros [id' Hc].
  by destruct (claim_step _ _ _ _ Hc) as [-> _].
Qed.

(** A request's machine claims for its own request. *)
Lemma claims_own id entry messages id' :
  action (Claim id') None ∈ (request_from id entry messages).2 → id' = id.
Proof.
  induction messages as [|m messages IH] using rev_ind; [by intros ?%elem_of_nil|].
  rewrite request_from_snoc. destruct (request_from id entry messages) as [e out].
  destruct (request_step id m e) as [e' commands] eqn:Hm. simpl.
  intros [Hc|Hc]%elem_of_app; [by apply IH|]. eapply claim_step. by rewrite Hm.
Qed.

(** What becomes of a request with a posted bond. *)
Definition kept (id : B256) (stake : bool * U96)
    (r : option SentinelRequestState * list SentinelCommand) : Prop :=
  ∃ entry, r.1 = Some entry ∧ approve_and_slash_amount entry = Some stake ∧
    action (Claim id) None ∉ r.2.

Lemma finalize_posted id stake approve slash reveal_by committed revealed approvals denials own :
  let entry := CollectingVotes approve slash reveal_by committed revealed approvals denials own in
  approve_and_slash_amount entry = Some stake →
  kept id stake (finalize entry id) ∨
  finalize entry id = (None, []) ∧ own = false ∧ revealed ≠ 0.
Proof.
  intros entry Hs. destruct (finalize_outcome approve slash reveal_by committed revealed approvals
    denials own id) as [(H1 & H2 & Ho)|(H1 & H2 & Ho)]; fold entry in H1, H2.
  - right. split; [|done]. rewrite <-H1, <-H2. by destruct (finalize entry id).
  - left. exists (WaitingForOutcome approve slash). rewrite H2. split_and!; try done.
    set_unfold. naive_solver.
Qed.

Definition accounted (id : B256) (stake : bool * U96) (entry : SentinelRequestState)
    (m : SentinelMessage) (r : option SentinelRequestState * list SentinelCommand) : Prop :=
  kept id stake r ∨ (r.1 = None ∧ action (Claim id) None ∈ r.2) ∨
  (r = (None, []) ∧ reveal_missed entry m).

Lemma kept_accounted id stake entry m entry' commands :
  approve_and_slash_amount entry' = Some stake →
  action (Claim id) None ∉ commands → accounted id stake entry m (Some entry', commands).
Proof. intros. left. by exists entry'. Qed.

Lemma claim_accounted id stake entry m : accounted id stake entry m (None, claim id).
Proof. right. left. split; [done|]. left. Qed.

#[local] Hint Resolve kept_accounted claim_accounted not_elem_of_nil : core.

Lemma advance_posted id block entry stake :
  approve_and_slash_amount entry = Some stake →
  accounted id stake entry (NewBlock block) (advance_entry T block id entry).
Proof.
  intros Hs. destruct entry as [| |approve reason slash commit_by reveal_by committed own|
    approve slash reveal_by committed revealed approvals denials own| |]; try done; simpl.
  - destruct own; [|done]. simpl. case_decide; apply kept_accounted; try done.
    all: set_unfold; naive_solver.
  - case_decide; [by apply kept_accounted|].
    destruct (finalize_posted id stake approve slash reveal_by committed revealed approvals
      denials own Hs) as [?|(-> & -> & Hr)]; [by left|].
    right. right. split; [done|]. do 7 eexists. split; [done|].
    left. exists block. split_and!; [done|lia|done].
  - by apply kept_accounted.
  - by apply kept_accounted.
Qed.

Lemma event_posted id log event entry stake :
  log_data log = SOracle event → approve_and_slash_amount entry = Some stake →
  accounted id stake entry (MEvent log) (request_event id event (Some entry)).
Proof.
  intros Hlog Hs.
  destruct event as [e|e|e|e|e|e|e|e|e|e]; unfold request_event, settle; simpl; rewrite ?Hs;
    try by (destruct entry; simpl in *; try case_match; auto).
  - destruct entry as [| | |approve slash reveal_by committed revealed approvals denials own| |];
      auto. case_decide as Hd; [by apply kept_accounted|].
    destruct (finalize_posted id stake approve slash reveal_by committed (wrapping_add revealed 1)
      (if SentinelOracle.Revealed.approved e then wrapping_add approvals 1 else approvals)
      (if SentinelOracle.Revealed.approved e then denials else wrapping_add denials 1)
      (own || bool_decide (SentinelOracle.Revealed.sentinel e = signer_address (signer T))) Hs)
      as [?|(-> & [-> Hown]%orb_false_iff & Hr)]; [by left|].
    right. right. split; [done|]. do 7 eexists. split; [done|]. right. exists log, e.
    apply bool_decide_eq_false in Hown. split_and!; try done. lia.
  - apply kept_accounted; [|done]. by destruct stake.
Qed.

Lemma posted_step id m entry stake :
  approve_and_slash_amount entry = Some stake →
  accounted id stake entry m (request_step id m (Some entry)).
Proof.
  intros Hs. destruct m as [block|log|[request_id outcome]]; simpl.
  - by apply advance_posted.
  - destruct (log_data log) as [event|event] eqn:Hlog; case_decide as Hd; auto;
      [by apply event_posted|naive_solver].
  - destruct entry; simpl in *; try done; auto.
Qed.

(** [C23] A posted bond is not forgotten: whatever the next message, a request
    our commitment has landed for either stays tracked, with the same vote and
    stake, or is claimed, or its reveal was missed while others revealed; and
    only a request that is no longer tracked is claimed. *)
Theorem posted_bonds_claimed state m id entry stake :
  state !! id = Some entry → approve_and_slash_amount entry = Some stake →
  let '(state', commands) := sentinel_transition T state m in
  (∃ entry', state' !! id = Some entry' ∧ approve_and_slash_amount entry' = Some stake ∧
     action (Claim id) None ∉ commands) ∨
  (state' !! id = None ∧ action (Claim id) None ∈ commands) ∨
  (state' !! id = None ∧ action (Claim id) None ∉ commands ∧ reveal_missed entry m).
Proof.
  intros He Hs. pose proof (step_lookup state m id) as Hl.
  pose proof (claim_transition state m id) as Hc.
  destruct (sentinel_transition T state m) as [state' commands]. simpl in Hl, Hc.
  rewrite He in Hl, Hc. rewrite Hl, Hc.
  destruct (posted_step id m entry stake Hs) as [(e & -> & ? & ?)|[?|[-> ?]]];
    [left; exists e; by rewrite Hc|by auto|]. right. right. split_and!; [done| |done]. apply not_elem_of_nil.
Qed.

(** ** Deadlines *)

(** The last block an entry may wait for; past it, the next block moves it on. *)
Definition waits_until (entry : SentinelRequestState) : option N :=
  match entry with
  | WaitingForEngineCheck deadline request => Some (from_option commit_deadline deadline request)
  | WaitingForRequest _ _ deadline => Some deadline
  | CollectingCommitments _ _ _ commit_by _ _ _ => Some commit_by
  | CollectingVotes _ _ reveal_by _ _ _ _ _ => Some reveal_by
  | WaitingForOutcome _ _ | WaitingForDisputeResolution _ _ => None
  end.

(** No request outlives its deadlines: after a block, what is tracked waits
    for that block or a later one, for the outcome of a vote that was cast, or
    has just begun to reveal its vote. *)
Theorem nothing_overdue state block id entry :
  (sentinel_transition T state (NewBlock block)).1 !! id = Some entry →
  match waits_until entry with
  | Some last => block ≤ last ∨
      ∃ approve reason slash commit_by reveal_by committed,
        state !! id =
          Some (CollectingCommitments approve reason slash commit_by reveal_by committed true) ∧
        commit_by < block ∧
        entry = CollectingVotes approve slash reveal_by committed 0 0 0 false
  | None => approve_and_slash_amount entry ≠ None
  end.
Proof.
  rewrite step_lookup. destruct (state !! id) as [before|]; [|done].
  destruct before as [| |approve reason slash commit_by reveal_by committed own|
    approve slash reveal_by committed revealed approvals denials own| |]; simpl.
  - case_decide; simpl; intros; simplify_eq/=. by left.
  - case_decide; simpl; intros; simplify_eq/=. by left.
  - case_decide; simpl; [intros [= <-]; by left|]. destruct own; simpl; [|done].
    intros [= <-]. simpl. right. do 6 eexists. split_and!; [done|lia|done].
  - case_decide; simpl; [intros [= <-]; by left|].
    destruct (finalize_outcome approve slash reveal_by committed revealed approvals denials own id)
      as [(-> & _)|(-> & _)]; intros; by simplify_eq/=.
  - intros [= <-]. done.
  - intros [= <-]. done.
Qed.

(** ** Commitments *)

(** A commitment binds: commitments of two votes, by any sentinels to any
    requests, are equal only if sentinel, request, vote, salt and reason are, or
    the two preimages are a Keccak-256 collision. *)
Theorem commitment_binding sentinel sentinel' id id' approve approve' salt salt' reason reason' :
  sentinel < 2 ^ 160 → sentinel' < 2 ^ 160 → id < 2 ^ 256 → id' < 2 ^ 256 →
  salt < 2 ^ 256 → salt' < 2 ^ 256 →
  commit_hash sentinel id approve salt reason = commit_hash sentinel' id' approve' salt' reason' →
  (sentinel = sentinel' ∧ id = id' ∧ approve = approve' ∧ salt = salt' ∧ reason = reason') ∨
  keccak_collide (commit_preimage sentinel id approve salt reason)
    (commit_preimage sentinel' id' approve' salt' reason').
Proof.
  intros Hs Hs' Hi Hi' Hsalt Hsalt' E.
  apply keccak_eq_or_collide in E as [E|]; [left|by right].
  unfold commit_preimage in E. apply app_inj_length in E as [Ea E]; [|done]. split_bytes E.
  split_and!; [by apply (to_be_bytes_inj 20)|by apply (to_be_bytes_inj 32)| |
    by apply (to_be_bytes_inj 32)|done].
  by destruct approve, approve'.
Qed.

(** ** A late verdict *)

Lemma request_from_app id entry before after :
  request_from id entry (before ++ after) =
  let '(entry, out) := request_from id entry before in
  let '(entry, out') := request_from id entry after in (entry, out ++ out').
Proof.
  induction after as [|m after IH] using rev_ind.
  - rewrite app_nil_r. destruct (request_from id entry before). simpl. by rewrite app_nil_r.
  - rewrite app_assoc, request_from_snoc, IH. destruct (request_from id entry before) as [e out].
    rewrite request_from_snoc. destruct (request_from id e after) as [e' out'].
    destruct (request_step id m e') as [e1 commands]. by rewrite app_assoc.
Qed.

Lemma request_from_cons id entry m messages :
  request_from id entry (m :: messages) =
  let '(entry, commands) := request_step id m entry in
  let '(entry, out) := request_from id entry messages in (entry, commands ++ out).
Proof.
  change (m :: messages) with ([m] ++ messages). rewrite request_from_app.
  unfold request_from at 1. simpl.
  by destruct (request_step id m entry).
Qed.

Lemma event_step id log event entry :
  log_data log = SOracle event → event_request event = id →
  request_step id (MEvent log) entry = request_event id event entry.
Proof. intros Hlog Hid. simpl. by rewrite Hlog, decide_True. Qed.

(** Messages about a request: a commitment to it, and a vote revealed for it. *)
Definition commitment_by (id : B256) (sentinel : Address) (m : SentinelMessage) : Prop :=
  ∃ log e, m = MEvent log ∧ log_data log = SOracle (SentinelOracle.EvCommitted e) ∧
    SentinelOracle.Committed.requestId e = id ∧ SentinelOracle.Committed.sentinel e = sentinel.
Definition vote_by (id : B256) (sentinel : Address) (m : SentinelMessage) : Prop :=
  ∃ log e, m = MEvent log ∧ log_data log = SOracle (SentinelOracle.EvRevealed e) ∧
    SentinelOracle.Revealed.requestId e = id ∧ SentinelOracle.Revealed.sentinel e = sentinel.

(** Up to block [last], all that is told about the request is what the sentinels
    did, in their order; of other requests, anything may be. *)
Inductive told (by_sentinel : Address → SentinelMessage → Prop) (id : B256) (last : N)
    : list Address → list SentinelMessage → Prop :=
  | told_nothing : told by_sentinel id last [] []
  | told_block block sentinels messages :
      block ≤ last → told by_sentinel id last sentinels messages →
      told by_sentinel id last sentinels (NewBlock block :: messages)
  | told_other id' m sentinels messages :
      message_request m = Some id' → id ≠ id' → told by_sentinel id last sentinels messages →
      told by_sentinel id last sentinels (m :: messages)
  | told_more sentinel m sentinels messages :
      by_sentinel sentinel m → told by_sentinel id last sentinels messages →
      told by_sentinel id last (sentinel :: sentinels) (m :: messages).

(** Commitments are not counted while the engine's check is outstanding. *)
Lemma told_unheard id deadline request early messages :
  told (commitment_by id) id (commit_deadline request) early messages →
  let entry := Some (WaitingForEngineCheck deadline (Some request)) in
  request_from id entry messages = (entry, []).
Proof.
  induction 1 as [|block early ms Hb _ IH|id' m early ms Hm Hne _ IH|a m early ms Hc _ IH];
    [done|..]; cbv zeta in *; rewrite request_from_cons.
  - simpl. rewrite decide_True by done. by rewrite IH.
  - rewrite (other_request _ _ _ _ Hm Hne). by rewrite IH.
  - destruct Hc as (log & e & -> & Hlog & Hid & _).
    rewrite (event_step _ _ _ _ Hlog) by done. simpl. by rewrite IH.
Qed.

(** They are counted after the vote is cast. *)
Lemma told_counted id approve reason slash commit_by reveal_by sentinels messages count own :
  told (commitment_by id) id commit_by sentinels messages →
  count + N.of_nat (length sentinels) ≤ u64_max →
  request_from id (Some (CollectingCommitments approve reason slash commit_by reveal_by count own))
    messages =
  (Some (CollectingCommitments approve reason slash commit_by reveal_by
     (count + N.of_nat (length sentinels)) (own || bool_decide (own_address ∈ sentinels))), []).
Proof.
  intros Htold. revert count own.
  induction Htold as [|block late ms Hb _ IH|id' m late ms Hm Hne _ IH|a m late ms Hc _ IH];
    intros count own Hcount; [by rewrite N.add_0_r, orb_false_r|..]; rewrite request_from_cons.
  - simpl. rewrite decide_True by done. by rewrite IH.
  - rewrite (other_request _ _ _ _ Hm Hne). by rewrite IH.
  - destruct Hc as (log & e & -> & Hlog & Hid & Ha).
    rewrite (event_step _ _ _ _ Hlog) by done. simpl in *. unfold wrapping_add.
    rewrite N.mod_small by lia. rewrite IH by lia. do 3 f_equal; [lia|].
    rewrite <-orb_assoc. f_equal. rewrite Ha. fold own_address.
    repeat case_bool_decide; set_solver.
Qed.

(** As many votes of others as were counted end the request. *)
Lemma told_dropped id approve slash reveal_by committed sentinels messages revealed approvals
    denials :
  told (vote_by id) id reveal_by sentinels messages → own_address ∉ sentinels →
  revealed < committed → committed ≤ revealed + N.of_nat (length sentinels) → committed ≤ u64_max →
  request_from id (Some (CollectingVotes approve slash reveal_by committed revealed approvals
    denials false)) messages = (None, []).
Proof.
  intros Htold. revert revealed approvals denials.
  assert (∀ sentinels messages, told (vote_by id) id reveal_by sentinels messages →
    request_from id None messages = (None, [])) as Hgone.
  { induction 1 as [|block l ms Hb _ IH|id' m l ms Hm Hne _ IH|a m l ms Hc _ IH]; [done|..];
      rewrite request_from_cons.
    - simpl. by rewrite IH.
    - rewrite (other_request _ _ _ _ Hm Hne). by rewrite IH.
    - destruct Hc as (log & e & -> & Hlog & Hid & _).
      rewrite (event_step _ _ _ _ Hlog) by done. simpl. by rewrite IH. }
  induction Htold as [|block l ms Hb _ IH|id' m l ms Hm Hne _ IH|a m l ms Hc Htold IH];
    intros revealed approvals denials Hown Hlt Hle Hmax; [simpl in Hle; lia|..];
    rewrite request_from_cons.
  - simpl. rewrite decide_True by done. by rewrite IH.
  - rewrite (other_request _ _ _ _ Hm Hne). by rewrite IH.
  - destruct Hc as (log & e & -> & Hlog & Hid & Ha). apply not_elem_of_cons in Hown as [Hne Hown].
    rewrite (event_step _ _ _ _ Hlog) by done. cbn [request_event]. cbv zeta.
    rewrite bool_decide_false by (rewrite Ha; unfold own_address in Hne; congruence).
    assert (wrapping_add revealed 1 = revealed + 1) as ->
      by (unfold wrapping_add; apply N.mod_small; lia).
    cbn [orb].
    case_decide as Hd.
    + simpl in Hle. rewrite IH by (done || lia). done.
    + unfold finalize. rewrite bool_decide_false by lia. cbn [negb andb].
      by rewrite (Hgone _ _ Htold).
Qed.

(** A message that does not propose the request. *)
Definition not_proposed (id : B256) (m : SentinelMessage) : Prop :=
  match m with
  | MEvent log =>
      match log_data log with SConsensus event => proposal_id T event ≠ id | SOracle _ => True end
  | _ => True
  end.

Lemma untracked_from id messages :
  Forall (not_proposed id) messages → request_from id None messages = (None, []).
Proof.
  induction 1 as [|m messages Hm _ IH]; [done|]. rewrite request_from_cons.
  assert (request_step id m None = (None, [])) as ->; [|by rewrite IH].
  destruct m as [block|log|[request_id outcome]]; [done| |done]. simpl in *.
  destruct (log_data log) as [event|event]; [|by rewrite decide_False by tauto].
  case_decide; [|done]. by destruct event.
Qed.

(** [C39] Commitments that land while the engine's check is outstanding are not
    counted, only those after the verdict are. So when as many other sentinels
    reveal as have committed after the verdict, this account included, which those
    that committed before it make possible, and they reveal before this account
    does, the request is taken for one whose votes are all revealed and is dropped,
    although this account's commitment has landed and its reveal is on the way. In
    any state, with any number of sentinels and whatever is told of other requests
    meanwhile; and whatever is told afterwards, short of a new proposal of the same
    request, nothing claims the bond. *)
Theorem late_verdict_strands_bond state id deadline request outcome early late revealers
    before collecting block voting later :
  state !! id = Some (WaitingForEngineCheck deadline (Some request)) →
  verdict outcome ≠ None →
  told (commitment_by id) id (commit_deadline request) early before →
  told (commitment_by id) id (commit_deadline request) late collecting →
  commit_deadline request < block →
  told (vote_by id) id (reveal_deadline request) revealers voting →
  own_address ∈ late → own_address ∉ revealers → (length late ≤ length revealers)%nat →
  N.of_nat (length late) ≤ u64_max → Forall (not_proposed id) later →
  let '(state', out) := sentinel_from state
    (before ++ MResume (EngineCheckResult id outcome) :: collecting ++ NewBlock block ::
     voting ++ later) in
  state' !! id = None ∧ action (Claim id) None ∉ out ∧
  ∃ approve salt reason,
    action (Commit id (commit_hash own_address id approve salt reason))
      (Some (commit_deadline request)) ∈ out ∧
    action (Reveal id approve salt reason) (Some (reveal_deadline request)) ∈ out.
Proof.
  intros Hentry Hv Hearly Hlate Hblock Hvotes Hown Hothers Hlen Hmax Hlater.
  destruct (verdict outcome) as [[approve why]|] eqn:Hverdict; [|done]. clear Hv.
  set (messages := before ++ _).
  assert (request_from id (state !! id) messages =
    (None, (cast_vote id approve why request).2 ++
       [action (Reveal id approve (reveal_salt (signer T) id) why)
          (Some (reveal_deadline request))])) as Hrun.
  { unfold messages. rewrite Hentry, request_from_app, (told_unheard _ _ _ _ _ Hearly).
    rewrite request_from_cons. cbn [request_step]. rewrite decide_True, Hverdict by done.
    unfold cast_vote. rewrite request_from_app, (told_counted _ _ _ _ _ _ _ _ _ _ Hlate) by lia.
    rewrite bool_decide_true, request_from_cons by done. cbn [request_step advance_entry].
    rewrite decide_False by lia. cbn [orb negb].
    rewrite request_from_app, (told_dropped _ _ _ _ _ _ _ _ _ _ Hvotes Hothers);
      [|destruct late; [by apply elem_of_nil in Hown|simpl; lia]|lia|lia].
    by rewrite untracked_from. }
  pose proof (from_lookup state messages id) as Hl. rewrite Hrun in Hl.
  pose proof (from_commands state messages) as Hc.
  destruct (sentinel_from state messages) as [state' out]. simpl in Hl, Hc.
  split; [done|]. split.
  - intros [id' Hin]%Hc.
    pose proof (claims_own _ _ _ _ Hin) as ->. rewrite Hrun in Hin. set_unfold. naive_solver.
  - exists approve, (reveal_salt (signer T) id), why.
    split; apply Hc; exists id; rewrite Hrun; set_solver.
Qed.
End safety.

(** ** Rule identifiers *)

(** The value of digits after [acc]. *)
Fixpoint uint_value (acc : N) (u : Decimal.uint) : N :=
  match u with
  | Decimal.Nil => acc
  | Decimal.D0 u => uint_value (acc * 10 + 0) u
  | Decimal.D1 u => uint_value (acc * 10 + 1) u
  | Decimal.D2 u => uint_value (acc * 10 + 2) u
  | Decimal.D3 u => uint_value (acc * 10 + 3) u
  | Decimal.D4 u => uint_value (acc * 10 + 4) u
  | Decimal.D5 u => uint_value (acc * 10 + 5) u
  | Decimal.D6 u => uint_value (acc * 10 + 6) u
  | Decimal.D7 u => uint_value (acc * 10 + 7) u
  | Decimal.D8 u => uint_value (acc * 10 + 8) u
  | Decimal.D9 u => uint_value (acc * 10 + 9) u
  end.

Lemma uint_value_ge u acc : acc ≤ uint_value acc u.
Proof.
  revert acc. induction u; intros acc; simpl; [lia|..];
    (etrans; [|apply IHu]); lia.
Qed.

Lemma uint_value_pos u p : uint_value (N.pos p) u = N.pos (Pos.of_uint_acc u p).
Proof.
  revert p. induction u; intros p; simpl uint_value; simpl Pos.of_uint_acc; [done|..];
    rewrite <-IHu; f_equal; lia.
Qed.

Lemma uint_value_of_uint u : uint_value 0 u = N.of_uint u.
Proof. induction u; simpl; [done|exact IHu|..]; apply uint_value_pos. Qed.

Lemma parse_digits_value u acc :
  uint_value acc u ≤ u32_max → parse_digits acc (uint_bytes u) = Some (uint_value acc u).
Proof.
  revert acc. induction u; intros acc Hmax; cbn [uint_value uint_bytes parse_digits] in *;
    [done|..];
    match goal with |- context [digit ?b] =>
      let d := eval vm_compute in (digit b) in change (digit b) with d end;
    cbn [mbind option_bind];
    (rewrite decide_True by (etrans; [apply uint_value_ge|exact Hmax])); by apply IHu.
Qed.

Lemma uint_bytes_digits u b : b ∈ uint_bytes u → is_Some (digit b).
Proof.
  induction u; simpl; [by intros ?%elem_of_nil|..];
    (intros [->|?]%elem_of_cons; [by eexists|by apply IHu]).
Qed.

Lemma decimal_nonempty n : decimal n ≠ [].
Proof.
  unfold decimal. intros Hn. assert (N.to_uint n = Decimal.Nil) as E.
  { by destruct (N.to_uint n). }
  pose proof (Unsigned.of_to n) as Hof. rewrite E in Hof. simpl in Hof. subst n. by vm_compute in E.
Qed.

Lemma parse_decimal n : n ≤ u32_max → parse_u32 (decimal n) = Some n.
Proof.
  intros Hn. pose proof (decimal_nonempty n) as Hne.
  assert (∀ b, b ∈ decimal n → is_Some (digit b)) as Hd by apply uint_bytes_digits.
  unfold parse_u32. destruct (decimal n) as [|b l] eqn:Hl; [done|].
  rewrite decide_False; [rewrite <-Hl|intros ->; destruct (Hd x2b ltac:(left)) as [? H];
    vm_compute in H; discriminate].
  unfold decimal. rewrite parse_digits_value; rewrite uint_value_of_uint, Unsigned.of_to; done.
Qed.

Lemma split_once_app sep l rest :
  sep ∉ l → split_once sep (l ++ sep :: rest) = Some (l, rest).
Proof.
  induction l as [|b l IH]; simpl; intros Hn; [by rewrite decide_True|].
  rewrite decide_False by set_solver. by rewrite IH by set_solver.
Qed.

(** The rule a denial cites survives the reason string: parsing the printed
    identifier gives the rule back. *)
Theorem rule_id_roundtrip r :
  RuleId.section r ≤ u32_max → RuleId.rule r ≤ u32_max →
  rule_parse (rule_to_string r) = Some r.
Proof.
  intros Hs Hr. destruct r as [section rule]. simpl in *.
  assert (x2e ∉ decimal section) as Hdot.
  { intros [? H]%uint_bytes_digits. vm_compute in H. discriminate. }
  unfold rule_to_string. simpl.
  rewrite (split_once_app _ _ _ Hdot). simpl. by rewrite !parse_decimal.
Qed.
