(* ===== verification/OracleContract.v ===== *)
(** * The sentinel oracle contract: [contracts/]

    The requests and commitments of [SentinelOracle.sol] with its libraries
    [SentinelOracleRequests.sol] and [SentinelOracleCommitments.sol], which the
    sentinels play the commit-reveal game on: there the governed parameters in
    effect are arguments of [postRequest], and a call that a role or the token
    refuses is a call that is not made. Around them, the whole contract: the
    governed parameters, the roles and the fee token. *)

From S2P Require Import Prelude.
From S2P Require Import Bytes.
From S2P Require Import Alloy.
From S2P Require Import SentinelBindings.
Import SentinelOracle.

Inductive OracleError :=
  | RequestAlreadyExists | RequestNotFound | CommitDeadlineInPast | RevealDeadlineNotAfterCommit
  | RequestNotPending | RequestNotFrozen | RequestNotResolved
  | CommitWindowClosed | RevealWindowNotOpen | RevealWindowClosed | FinalizeTooEarly
  | ArbitrationNotTimedOut
  | AlreadyCommitted | NotCommitted | AlreadyRevealed | InvalidReveal
  | NothingToClaim | AlreadyClaimed
  | NotArbitrator | NotGovernance | NotProposer | InvalidAddress | ZeroFee | ZeroWindow
  | SentinelNotActive | InvalidFeeShare | InvalidBondMultiplier | InvalidSlashingMultiplier
  | SentinelAlreadyScheduled | SentinelNotScheduled
  | TransferFailed
  | Panic. (* checked arithmetic *)

(** ** Storage *)

(** [SentinelOracleRequest.Terms] and [Progress]. *)
Record Terms := {
  commitDeadline : N;
  daoFeeShare : N;
  revealDeadline : N;
  bondTarget : U96;
  sponsor : Address;
  slashAmount : U96;
}.

Record Progress := {
  state : RequestState;
  fee : U96;
  arbitrationDeadline : N;
  committedCount : N;
  revealedCount : N;
  approveSentinelCount : N;
  denySentinelCount : N;
}.

Record OracleRequest := { terms : Terms; progress : Progress }.

(** [SentinelOracleCommitment.Vote] and [Commitment]. *)
Inductive Vote := VNone | VPending | VApproved | VDenied.

#[export] Instance Vote_eq_dec : EqDecision Vote.
Proof. solve_decision. Defined.

Record Commitment := {
  commitHash : B256;
  bondAmount : U96;
  vote : Vote;
  claimed : bool;
}.

(** A commitment that was never made reads as zeroes. *)
Definition Commitment_zero : Commitment :=
  {| commitHash := 0; bondAmount := 0; vote := VNone; claimed := false |}.

Record Contract := {
  requests : gmap B256 OracleRequest;
  commitments : gmap (B256 * Address) Commitment;
}.

Definition Contract_new : Contract := {| requests := ∅; commitments := ∅ |}.

Definition put_request (id : B256) (r : OracleRequest) (c : Contract) : Contract :=
  {| requests := <[id := r]> (requests c); commitments := commitments c |}.
Definition put_commitment (id : B256) (sentinel : Address) (m : Commitment) (c : Contract)
    : Contract :=
  {| requests := requests c; commitments := <[(id, sentinel) := m]> (commitments c) |}.
Definition commitment (c : Contract) (id : B256) (sentinel : Address) : Commitment :=
  default Commitment_zero (commitments c !! (id, sentinel)).

Open Scope safenet_scope.

(** Checked addition. *)
Definition u16_add (x y : N) : result N OracleError :=
  if decide (x + y < u16_modulus) then Ok (x + y) else Err Panic.

Definition u96_max : N := 2 ^ 96 - 1.
Definition u96_cast (x : N) : result N OracleError :=
  if decide (x ≤ u96_max) then Ok x else Err Panic.
Definition u64_cast (x : N) : result N OracleError :=
  if decide (x ≤ u64_max) then Ok x else Err Panic.

(** [SentinelOracleRequestMap.get]. *)
Definition get (c : Contract) (id : B256) : result OracleRequest OracleError :=
  r ←? ok_or RequestNotFound (requests c !! id);
  _ ←? require (state (progress r) ≠ NONE) RequestNotFound;
  Ok r.

(** ** Opening a request *)

(** [SentinelOracleRequestMap.create]. *)
Definition create (c : Contract) (id : B256) (terms : Terms) (fee : U96) (block : N)
    : result Contract OracleError :=
  _ ←? require (from_option (λ r, state (progress r)) NONE (requests c !! id) = NONE)
         RequestAlreadyExists;
  _ ←? require (block < commitDeadline terms) CommitDeadlineInPast;
  _ ←? require (commitDeadline terms < revealDeadline terms) RevealDeadlineNotAfterCommit;
  Ok (put_request id
    {| terms := terms;
       progress := {| state := PENDING; fee := fee; arbitrationDeadline := 0;
                      committedCount := 0; revealedCount := 0;
                      approveSentinelCount := 0; denySentinelCount := 0 |} |} c).

(** What [postRequest] reads of the configuration. *)
Record OracleConfig := {
  currentFee : U96;
  bondMultiplier : N;
  slashingMultiplier : N;
  currentDaoFeeShare : N;
  COMMIT_WINDOW : N;
  REVEAL_WINDOW : N;
}.

Definition postRequest (c : Contract) (config : OracleConfig) (id : B256) (sponsor : Address)
    (block : N) : result (Contract * SentinelOracleEvents) OracleError :=
  bondTarget ←? u96_cast (currentFee config * bondMultiplier config);
  slashAmount ←? u96_cast (currentFee config * slashingMultiplier config);
  commitDeadline ←? u64_cast (block + COMMIT_WINDOW config);
  revealDeadline ←? u64_cast (block + COMMIT_WINDOW config + REVEAL_WINDOW config);
  c ←? create c id {| commitDeadline := commitDeadline; daoFeeShare := currentDaoFeeShare config;
                      revealDeadline := revealDeadline; bondTarget := bondTarget;
                      sponsor := sponsor; slashAmount := slashAmount |}
         (currentFee config) block;
  Ok (c, EvNewRequest (NewRequest.mk id sponsor (currentFee config) bondTarget slashAmount
           commitDeadline revealDeadline)).

(** ** Voting *)

(** [applyCommit] and [SentinelOracleCommitmentMap.add]. *)
Definition applyCommit (r : OracleRequest) (block : N) : result OracleRequest OracleError :=
  let p := progress r in
  _ ←? require (state p = PENDING) RequestNotPending;
  _ ←? require (block ≤ commitDeadline (terms r)) CommitWindowClosed;
  count ←? u16_add (committedCount p) 1;
  Ok {| terms := terms r;
        progress := {| state := state p; fee := fee p;
                       arbitrationDeadline := arbitrationDeadline p; committedCount := count;
                       revealedCount := revealedCount p;
                       approveSentinelCount := approveSentinelCount p;
                       denySentinelCount := denySentinelCount p |} |}.

Definition commit (c : Contract) (sentinel : Address) (id hash : B256) (block : N)
    : result (Contract * SentinelOracleEvents) OracleError :=
  r ←? get c id;
  r ←? applyCommit r block;
  _ ←? require (commitHash (commitment c id sentinel) = 0) AlreadyCommitted;
  let bond := bondTarget (terms r) in
  Ok (put_commitment id sentinel
        {| commitHash := hash; bondAmount := bond; vote := VPending; claimed := false |}
        (put_request id r c),
      EvCommitted (Committed.mk id sentinel bond)).

(** [applyReveal]. *)
Definition applyReveal (r : OracleRequest) (approve : bool) (block : N)
    : result OracleRequest OracleError :=
  let p := progress r in
  _ ←? require (state p = PENDING) RequestNotPending;
  _ ←? require (commitDeadline (terms r) < block) RevealWindowNotOpen;
  _ ←? require (block ≤ revealDeadline (terms r)) RevealWindowClosed;
  revealed ←? u16_add (revealedCount p) 1;
  approvals ←? u16_add (approveSentinelCount p) (if approve then 1 else 0);
  denials ←? u16_add (denySentinelCount p) (if approve then 0 else 1);
  Ok {| terms := terms r;
        progress := {| state := state p; fee := fee p;
                       arbitrationDeadline := arbitrationDeadline p;
                       committedCount := committedCount p; revealedCount := revealed;
                       approveSentinelCount := approvals; denySentinelCount := denials |} |}.

Section contract.
Context {AL : Alloy}.

(** [SentinelOracleCommitment.computeHash], over the packed encoding. *)
Definition encodePacked (approve : bool) (salt : B256) (sentinel : Address) (id : B256)
    (reason : Bytes) : Bytes :=
  to_be_bytes 1 (if approve then 1 else 0) ++ to_be_bytes 32 salt ++ to_be_bytes 20 sentinel ++
  to_be_bytes 32 id ++ reason.
Definition computeHash (sentinel : Address) (id : B256) (approve : bool) (salt : B256)
    (reason : Bytes) : B256 := keccak256 (encodePacked approve salt sentinel id reason).

(** [SentinelOracleCommitmentMap.reveal] and [SentinelOracle.reveal]. *)
Definition reveal_commitment (m : Commitment) (id : B256) (sentinel : Address) (approve : bool)
    (salt : B256) (reason : Bytes) : result Commitment OracleError :=
  _ ←? require (vote m ≠ VNone) NotCommitted;
  _ ←? require (vote m = VPending) AlreadyRevealed;
  _ ←? require (computeHash sentinel id approve salt reason = commitHash m) InvalidReveal;
  Ok {| commitHash := commitHash m; bondAmount := bondAmount m;
        vote := if approve then VApproved else VDenied; claimed := claimed m |}.

Definition reveal (c : Contract) (sentinel : Address) (id : B256) (approve : bool) (salt : B256)
    (reason : Bytes) (block : N) : result (Contract * SentinelOracleEvents) OracleError :=
  r ←? get c id;
  m ←? reveal_commitment (commitment c id sentinel) id sentinel approve salt reason;
  r ←? applyReveal r approve block;
  Ok (put_commitment id sentinel m (put_request id r c),
      EvRevealed (Revealed.mk id sentinel approve (bondAmount m) reason)).

(** ** Resolution *)

(** [FEE_SHARE_DENOMINATOR]. *)
Definition FEE_SHARE_DENOMINATOR : N := 100000.

Definition with_outcome (outcome : RequestState) (fee deadline : N) (r : OracleRequest)
    : OracleRequest :=
  let p := progress r in
  {| terms := terms r;
     progress := {| state := outcome; fee := fee; arbitrationDeadline := deadline;
                    committedCount := committedCount p; revealedCount := revealedCount p;
                    approveSentinelCount := approveSentinelCount p;
                    denySentinelCount := denySentinelCount p |} |}.

(** [applyDaoFeeCut]: the cut, and what is left of the fee. *)
Definition daoCut (t : Terms) (feeAmount : U96) : U96 :=
  feeAmount * daoFeeShare t / FEE_SHARE_DENOMINATOR mod (u96_max + 1).
Definition applyDaoFeeCut (r : OracleRequest) (feeAmount : U96) : result U96 OracleError :=
  let cut := daoCut (terms r) feeAmount in
  if decide (cut ≤ feeAmount) then Ok (feeAmount - cut) else Err Panic.

(** [SentinelOracleRequest.finalize]. *)
Definition finalize_request (r : OracleRequest) (arbitrationDeadline' block : N)
    : result OracleRequest OracleError :=
  let p := progress r in
  _ ←? require (state p = PENDING) RequestNotPending;
  let everyoneRevealed := bool_decide (0 < committedCount p) &&
                          bool_decide (revealedCount p = committedCount p) in
  let nothingToReveal := bool_decide (committedCount p = 0) &&
                         bool_decide (commitDeadline (terms r) < block) in
  _ ←? require (bool_decide (revealDeadline (terms r) < block) || everyoneRevealed ||
                nothingToReveal = true) FinalizeTooEarly;
  let approveMet := bool_decide (0 < approveSentinelCount p) in
  let denyMet := bool_decide (0 < denySentinelCount p) in
  if approveMet || denyMet then
    r' ←? (if approveMet && denyMet then
             Ok (with_outcome FROZEN (fee p) arbitrationDeadline' r)
           else
             fee ←? applyDaoFeeCut r (fee p);
             Ok (with_outcome (if approveMet then RESOLVED_APPROVED else RESOLVED_DENIED) fee
                   (arbitrationDeadline p) r));
    _ ←? require (revealedCount p ≤ committedCount p) Panic;
    Ok r'
  else Ok (with_outcome TIMED_OUT 0 (arbitrationDeadline p) r).

(** [SentinelOracle.finalize]; the event tells the outcome. *)
Definition finalize (c : Contract) (ARBITRATION_TIMEOUT : N) (id : B256) (block : N)
    : result (Contract * SentinelOracleEvents) OracleError :=
  r ←? get c id;
  deadline ←? u64_cast (block + ARBITRATION_TIMEOUT);
  r ←? finalize_request r deadline block;
  Ok (put_request id r c,
      match state (progress r) with
      | FROZEN => EvDisputeTriggered (DisputeTriggered.mk id deadline)
      | TIMED_OUT => EvRequestTimedOut (RequestTimedOut.mk id)
      | outcome => EvOracleResult (OracleResult.mk id (sponsor (terms r)) []
                     (bool_decide (outcome = RESOLVED_APPROVED)))
      end).

(** [resolveDispute]. *)
Definition resolveDispute (c : Contract) (id : B256) (approveWins : bool) (context : Bytes)
    : result (Contract * SentinelOracleEvents) OracleError :=
  r ←? get c id;
  let p := progress r in
  _ ←? require (state p = FROZEN) RequestNotFrozen;
  let slashed := (if approveWins then denySentinelCount p else approveSentinelCount p) *
                 slashAmount (terms r) in
  let outcome := if approveWins then RESOLVED_APPROVED else RESOLVED_DENIED in
  fee ←? applyDaoFeeCut r (fee p);
  Ok (put_request id (with_outcome outcome fee (arbitrationDeadline p) r) c,
      EvDisputeResolved (DisputeResolved.mk id outcome slashed context)).

(** [outOfScope], for [timeoutArbitration] and [markOutOfScope]. *)
Definition outOfScope (r : OracleRequest) : result OracleRequest OracleError :=
  _ ←? require (state (progress r) = FROZEN) RequestNotFrozen;
  Ok (with_outcome TIMED_OUT 0 (arbitrationDeadline (progress r)) r).

Definition timeoutArbitration (c : Contract) (id : B256) (block : N)
    : result (Contract * SentinelOracleEvents) OracleError :=
  r ←? get c id;
  _ ←? require (arbitrationDeadline (progress r) < block) ArbitrationNotTimedOut;
  r ←? outOfScope r;
  Ok (put_request id r c, EvArbitrationTimedOut (ArbitrationTimedOut.mk id)).

Definition markOutOfScope (c : Contract) (id : B256) (context : Bytes)
    : result (Contract * SentinelOracleEvents) OracleError :=
  r ←? get c id;
  r ←? outOfScope r;
  Ok (put_request id r c, EvDisputeOutOfScope (DisputeOutOfScope.mk id context)).

(** ** Claiming *)

(** [requireResolved]. *)
Definition requireResolved (r : OracleRequest) : result RequestState OracleError :=
  let s := state (progress r) in
  _ ←? require (s = RESOLVED_APPROVED ∨ s = RESOLVED_DENIED ∨ s = TIMED_OUT) RequestNotResolved;
  Ok s.

(** [calcFeeReward]. *)
Definition calcFeeReward (r : OracleRequest) (s : RequestState) (v : Vote)
    : result U96 OracleError :=
  let p := progress r in
  match v, s with
  | VApproved, RESOLVED_APPROVED =>
      if decide (approveSentinelCount p = 0) then Err Panic
      else Ok (fee p / approveSentinelCount p)
  | VDenied, RESOLVED_DENIED =>
      if decide (denySentinelCount p = 0) then Err Panic
      else Ok (fee p / denySentinelCount p)
  | _, _ => Ok 0
  end.

(** [slashAmountFor]. *)
Definition slashAmountFor (r : OracleRequest) (s : RequestState) (v : Vote) : U96 :=
  let p := progress r in
  let lost :=
    match v with
    | VNone | VPending =>
        bool_decide (0 < approveSentinelCount p) || bool_decide (0 < denySentinelCount p)
    | VApproved =>
        bool_decide (s = RESOLVED_DENIED) &&
        bool_decide (approveSentinelCount p ≠ 0 ∧ denySentinelCount p ≠ 0)
    | VDenied =>
        bool_decide (s = RESOLVED_APPROVED) &&
        bool_decide (approveSentinelCount p ≠ 0 ∧ denySentinelCount p ≠ 0)
    end in
  if lost then slashAmount (terms r) else 0.

(** [SentinelOracle.claim]. *)
Definition claim (c : Contract) (sentinel : Address) (id : B256)
    : result (Contract * SentinelOracleEvents) OracleError :=
  r ←? get c id;
  s ←? requireResolved r;
  let m := commitment c id sentinel in
  _ ←? require (0 < bondAmount m) NothingToClaim;
  _ ←? require (claimed m = false) AlreadyClaimed;
  feeReward ←? calcFeeReward r s (vote m);
  _ ←? require (slashAmountFor r s (vote m) ≤ bondAmount m) Panic;
  let bondReturn := bondAmount m - slashAmountFor r s (vote m) in
  Ok (put_commitment id sentinel
        {| commitHash := commitHash m; bondAmount := bondAmount m; vote := vote m;
           claimed := true |} c,
      EvClaimed (Claimed.mk id sentinel bondReturn feeReward)).

(** ** Calls *)

(** A call of [sentinel] in a block; the arbitration timeout is a constant of the
    contract. *)
Definition call (ARBITRATION_TIMEOUT : N) (c : Contract) (sentinel : Address) (block : N)
    (x : SentinelOracleCalls) : result (Contract * SentinelOracleEvents) OracleError :=
  match x with
  | commitCall id hash => commit c sentinel id hash block
  | revealCall id approve salt reason => reveal c sentinel id approve salt reason block
  | finalizeCall id => finalize c ARBITRATION_TIMEOUT id block
  | claimCall id => claim c sentinel id
  end.
End contract.

(** ** Governed parameters

    [DelayedUint96.sol], [DelayedAddress.sol] and [BondConfig.sol]: a value, and one
    that replaces it from a block on. *)

Module Delayed.
Record t := mk { value : N; pendingActiveAt : N; pendingValue : N }.
Definition init (initialValue : N) : t := mk initialValue 0 0.
Definition applyPending (self : t) (block : N) : N * t :=
  if decide (pendingActiveAt self = 0 ∨ block < pendingActiveAt self) then (value self, self)
  else (pendingValue self, mk (pendingValue self) 0 0).
Definition schedule (self : t) (newValue delay block : N) : result t OracleError :=
  let '(_, self) := applyPending self block in
  activeAt ←? u64_cast (block + delay);
  Ok (mk (value self) activeAt newValue).
End Delayed.

Module BondConfig.
Record t := mk {
  bondMultiplier : N;
  slashingMultiplier : N;
  pendingActiveAt : N;
  pendingBondMultiplier : N;
  pendingSlashingMultiplier : N;
}.
Definition init (bond slashing : N) : result t OracleError :=
  _ ←? require (0 < bond) InvalidBondMultiplier;
  _ ←? require (0 < slashing ∧ slashing ≤ bond) InvalidSlashingMultiplier;
  Ok (mk bond slashing 0 0 0).
Definition applyPending (self : t) (block : N) : N * N * t :=
  if decide (pendingActiveAt self = 0 ∨ block < pendingActiveAt self)
  then (bondMultiplier self, slashingMultiplier self, self)
  else (pendingBondMultiplier self, pendingSlashingMultiplier self,
        mk (pendingBondMultiplier self) (pendingSlashingMultiplier self) 0 0 0).
Definition schedule (self : t) (bond slashing delay block : N) : result t OracleError :=
  _ ←? require (0 < bond) InvalidBondMultiplier;
  _ ←? require (0 < slashing ∧ slashing ≤ bond) InvalidSlashingMultiplier;
  let '(_, _, self) := applyPending self block in
  activeAt ←? u64_cast (block + delay);
  Ok (mk (bondMultiplier self) (slashingMultiplier self) activeAt bond slashing).
End BondConfig.

(** [SentinelMap.sol]: the block each sentinel is active from; zero for none. *)
Module SentinelMap.
Definition t := gmap Address N.
Definition getActiveAt (self : t) (sentinel : Address) : N := default 0 (self !! sentinel).
Definition add (self : t) (sentinel : Address) (delay block : N) : result t OracleError :=
  _ ←? require (sentinel ≠ 0) InvalidAddress;
  _ ←? require (getActiveAt self sentinel = 0) SentinelAlreadyScheduled;
  _ ←? require (block + delay < 2 ^ 256) Panic;
  Ok (<[sentinel := block + delay]> self).
Definition remove (self : t) (sentinel : Address) : result t OracleError :=
  _ ←? require (getActiveAt self sentinel ≠ 0) SentinelNotScheduled;
  Ok (delete sentinel self).
Definition isActive (self : t) (sentinel : Address) (block : N) : bool :=
  bool_decide (getActiveAt self sentinel ≠ 0) &&
  bool_decide (getActiveAt self sentinel ≤ block).
End SentinelMap.

(** ** The whole contract *)

(** The fee token, with OpenZeppelin's [SafeERC20]: a transfer of the contract's
    own tokens, and one that the contract makes of another's by its allowance. *)
Class FeeToken := {
  Token : Type;
  balanceOf : Token → Address → N;
  safeTransfer : Address → Address → N → Token → option Token;
  safeTransferFrom : Address → Address → Address → N → Token → option Token;
}.

(** [ConstructorParams]. *)
Module ConstructorParams.
Record t := mk {
  arbitrator : Address;
  governance : Address;
  protocolFundsReceiver : Address;
  proposer : Address;
  feeToken : Address;
  requestFee : U96;
  initialBondMultiplier : N;
  initialSlashingMultiplier : N;
  initialDaoFeeShare : N;
  commitWindow : N;
  revealWindow : N;
  governanceDelay : N;
  arbitrationTimeout : N;
}.
End ConstructorParams.

Section treasury.
Context {AL : Alloy} {FT : FeeToken}.
(** The contract's address, and its immutables. *)
Context (this : Address) (params : ConstructorParams.t).

Record SentinelOracle := {
  book : Contract;
  bondConfig : BondConfig.t;
  protocolFundsReceiverConfig : Delayed.t;
  feeConfig : Delayed.t;
  daoFeeShareConfig : Delayed.t;
  sentinelMap : SentinelMap.t;
  token : Token;
}.

Definition with_book (c : Contract) (o : SentinelOracle) : SentinelOracle :=
  {| book := c; bondConfig := bondConfig o;
     protocolFundsReceiverConfig := protocolFundsReceiverConfig o; feeConfig := feeConfig o;
     daoFeeShareConfig := daoFeeShareConfig o; sentinelMap := sentinelMap o; token := token o |}.
Definition with_bonds (b : BondConfig.t) (o : SentinelOracle) : SentinelOracle :=
  {| book := book o; bondConfig := b;
     protocolFundsReceiverConfig := protocolFundsReceiverConfig o; feeConfig := feeConfig o;
     daoFeeShareConfig := daoFeeShareConfig o; sentinelMap := sentinelMap o; token := token o |}.
Definition with_receiver (d : Delayed.t) (o : SentinelOracle) : SentinelOracle :=
  {| book := book o; bondConfig := bondConfig o; protocolFundsReceiverConfig := d;
     feeConfig := feeConfig o; daoFeeShareConfig := daoFeeShareConfig o;
     sentinelMap := sentinelMap o; token := token o |}.
Definition with_fee (d : Delayed.t) (o : SentinelOracle) : SentinelOracle :=
  {| book := book o; bondConfig := bondConfig o;
     protocolFundsReceiverConfig := protocolFundsReceiverConfig o; feeConfig := d;
     daoFeeShareConfig := daoFeeShareConfig o; sentinelMap := sentinelMap o; token := token o |}.
Definition with_share (d : Delayed.t) (o : SentinelOracle) : SentinelOracle :=
  {| book := book o; bondConfig := bondConfig o;
     protocolFundsReceiverConfig := protocolFundsReceiverConfig o; feeConfig := feeConfig o;
     daoFeeShareConfig := d; sentinelMap := sentinelMap o; token := token o |}.
Definition with_sentinels (m : SentinelMap.t) (o : SentinelOracle) : SentinelOracle :=
  {| book := book o; bondConfig := bondConfig o;
     protocolFundsReceiverConfig := protocolFundsReceiverConfig o; feeConfig := feeConfig o;
     daoFeeShareConfig := daoFeeShareConfig o; sentinelMap := m; token := token o |}.
Definition with_token (t : Token) (o : SentinelOracle) : SentinelOracle :=
  {| book := book o; bondConfig := bondConfig o;
     protocolFundsReceiverConfig := protocolFundsReceiverConfig o; feeConfig := feeConfig o;
     daoFeeShareConfig := daoFeeShareConfig o; sentinelMap := sentinelMap o; token := t |}.

(** The constructor. *)
Definition SentinelOracle_new (t : Token) : result SentinelOracle OracleError :=
  _ ←? require (ConstructorParams.arbitrator params ≠ 0) InvalidAddress;
  _ ←? require (ConstructorParams.governance params ≠ 0) InvalidAddress;
  _ ←? require (ConstructorParams.protocolFundsReceiver params ≠ 0) InvalidAddress;
  _ ←? require (ConstructorParams.proposer params ≠ 0) InvalidAddress;
  _ ←? require (ConstructorParams.feeToken params ≠ 0) InvalidAddress;
  _ ←? require (0 < ConstructorParams.requestFee params) ZeroFee;
  _ ←? require (0 < ConstructorParams.commitWindow params) ZeroWindow;
  _ ←? require (0 < ConstructorParams.revealWindow params) ZeroWindow;
  _ ←? require (ConstructorParams.initialDaoFeeShare params ≤ FEE_SHARE_DENOMINATOR)
         InvalidFeeShare;
  _ ←? require (0 < ConstructorParams.arbitrationTimeout params) ZeroWindow;
  bonds ←? BondConfig.init (ConstructorParams.initialBondMultiplier params)
    (ConstructorParams.initialSlashingMultiplier params);
  Ok {| book := Contract_new; bondConfig := bonds;
        protocolFundsReceiverConfig :=
          Delayed.init (ConstructorParams.protocolFundsReceiver params);
        feeConfig := Delayed.init (ConstructorParams.requestFee params);
        daoFeeShareConfig := Delayed.init (ConstructorParams.initialDaoFeeShare params);
        sentinelMap := ∅; token := t |}.

(** [FEE_TOKEN.safeTransfer] and [safeTransferFrom]. *)
Definition pay (to : Address) (amount : N) (o : SentinelOracle) : result SentinelOracle OracleError :=
  t ←? ok_or TransferFailed (safeTransfer this to amount (token o));
  Ok (with_token t o).
Definition pay_positive (to : Address) (amount : N) (o : SentinelOracle)
    : result SentinelOracle OracleError :=
  if decide (0 < amount) then pay to amount o else Ok o.
Definition collect (from : Address) (amount : N) (o : SentinelOracle)
    : result SentinelOracle OracleError :=
  t ←? ok_or TransferFailed (safeTransferFrom this from this amount (token o));
  Ok (with_token t o).

(** A request's storage; one that was never created reads as zeroes. *)
Definition OracleRequest_zero : OracleRequest :=
  {| terms := {| commitDeadline := 0; daoFeeShare := 0; revealDeadline := 0; bondTarget := 0;
                 sponsor := 0; slashAmount := 0 |};
     progress := {| state := NONE; fee := 0; arbitrationDeadline := 0; committedCount := 0;
                    revealedCount := 0; approveSentinelCount := 0; denySentinelCount := 0 |} |}.
Definition request_at (c : Contract) (id : B256) : OracleRequest :=
  default OracleRequest_zero (requests c !! id).

(** A call's new state, and the event the services read. *)
Abbreviation ran := (result (SentinelOracle * option SentinelOracleEvents) OracleError).

Definition treasury_postRequest (o : SentinelOracle) (caller : Address) (block : N) (id : B256)
    (sponsor : Address) : ran :=
  _ ←? require (caller = ConstructorParams.proposer params) NotProposer;
  let '(currentFee, fees) := Delayed.applyPending (feeConfig o) block in
  let '(currentBond, currentSlashing, bonds) := BondConfig.applyPending (bondConfig o) block in
  let '(currentShare, shares) := Delayed.applyPending (daoFeeShareConfig o) block in
  '(c, event) ←? postRequest (book o)
    {| currentFee := currentFee; bondMultiplier := currentBond;
       slashingMultiplier := currentSlashing; currentDaoFeeShare := currentShare;
       COMMIT_WINDOW := ConstructorParams.commitWindow params;
       REVEAL_WINDOW := ConstructorParams.revealWindow params |} id sponsor block;
  o ←? collect sponsor currentFee
    (with_book c (with_share shares (with_bonds bonds (with_fee fees o))));
  Ok (o, Some event).

Definition treasury_commit (o : SentinelOracle) (caller : Address) (block : N) (id hash : B256)
    : ran :=
  _ ←? require (SentinelMap.isActive (sentinelMap o) caller block = true) SentinelNotActive;
  '(c, event) ←? commit (book o) caller id hash block;
  o ←? collect caller (bondTarget (terms (request_at (book o) id))) (with_book c o);
  Ok (o, Some event).

Definition treasury_reveal (o : SentinelOracle) (caller : Address) (block : N) (id : B256)
    (approve : bool) (salt : B256) (reason : Bytes) : ran :=
  '(c, event) ←? reveal (book o) caller id approve salt reason block;
  Ok (with_book c o, Some event).

(** What [SentinelOracleRequest.finalize] returns beside the new state. *)
Definition refundFee (r r' : OracleRequest) : N :=
  if decide (state (progress r') = TIMED_OUT) then fee (progress r) else 0.
Definition unrevealedBond (r r' : OracleRequest) : N :=
  if decide (state (progress r') = TIMED_OUT) then 0
  else (committedCount (progress r) - revealedCount (progress r)) * slashAmount (terms r)
         mod 2 ^ 128.
Definition daoCutOf (r : OracleRequest) : N := daoCut (terms r) (fee (progress r)).

Definition treasury_finalize (o : SentinelOracle) (block : N) (id : B256) : ran :=
  '(c, event) ←? finalize (book o) (ConstructorParams.arbitrationTimeout params) id block;
  let r := request_at (book o) id in
  let r' := request_at c id in
  let '(fundsReceiver, receivers) :=
    Delayed.applyPending (protocolFundsReceiverConfig o) block in
  o ←? pay_positive fundsReceiver (unrevealedBond r r') (with_receiver receivers (with_book c o));
  o ←? match state (progress r') with
       | FROZEN => Ok o
       | TIMED_OUT => pay (sponsor (terms r)) (refundFee r r') o
       | _ => pay_positive fundsReceiver (daoCutOf r) o
       end;
  Ok (o, Some event).

Definition treasury_claim (o : SentinelOracle) (caller : Address) (id : B256) : ran :=
  '(c, event) ←? claim (book o) caller id;
  let total :=
    match event with EvClaimed (Claimed.mk _ _ bondReturn feeReward) => bondReturn + feeReward
    | _ => 0 end in
  o ←? pay_positive caller total (with_book c o);
  Ok (o, Some event).

Definition treasury_resolveDispute (o : SentinelOracle) (caller : Address) (block : N) (id : B256)
    (approveWins : bool) (context : Bytes) : ran :=
  _ ←? require (caller = ConstructorParams.arbitrator params) NotArbitrator;
  '(c, event) ←? resolveDispute (book o) id approveWins context;
  let r := request_at (book o) id in
  let feeAmount := fee (progress r) in
  let slashed :=
    match event with EvDisputeResolved (DisputeResolved.mk _ _ slashed _) => slashed | _ => 0 end in
  let '(fundsReceiver, receivers) :=
    Delayed.applyPending (protocolFundsReceiverConfig o) block in
  o ←? pay (sponsor (terms r)) feeAmount (with_receiver receivers (with_book c o));
  _ ←? require (feeAmount ≤ slashed) Panic;
  o ←? pay fundsReceiver (slashed - feeAmount + daoCutOf r) o;
  Ok (o, Some event).

Definition treasury_timeoutArbitration (o : SentinelOracle) (block : N) (id : B256) : ran :=
  '(c, event) ←? timeoutArbitration (book o) id block;
  let r := request_at (book o) id in
  o ←? pay (sponsor (terms r)) (fee (progress r)) (with_book c o);
  Ok (o, Some event).

Definition treasury_markOutOfScope (o : SentinelOracle) (caller : Address) (id : B256)
    (context : Bytes) : ran :=
  _ ←? require (caller = ConstructorParams.arbitrator params) NotArbitrator;
  '(c, event) ←? markOutOfScope (book o) id context;
  let r := request_at (book o) id in
  o ←? pay (sponsor (terms r)) (fee (progress r)) (with_book c o);
  Ok (o, Some event).

(** The functions of governance, and those that apply what is due. *)
Inductive GovernanceCall :=
  | addSentinel (sentinel : Address)
  | removeSentinel (sentinel : Address)
  | scheduleBondConfig (newBondMultiplier newSlashingMultiplier : N)
  | applyBondConfig
  | scheduleProtocolFundsReceiver (newValue : Address)
  | applyProtocolFundsReceiver
  | scheduleFee (newValue : U96)
  | applyFee
  | scheduleDaoFeeShare (newValue : N)
  | applyDaoFeeShare.

Definition govern (o : SentinelOracle) (caller : Address) (block : N) (call : GovernanceCall)
    : result SentinelOracle OracleError :=
  let delay := ConstructorParams.governanceDelay params in
  let onlyGovernance := require (caller = ConstructorParams.governance params) NotGovernance in
  match call with
  | addSentinel sentinel =>
      _ ←? onlyGovernance;
      m ←? SentinelMap.add (sentinelMap o) sentinel delay block;
      Ok (with_sentinels m o)
  | removeSentinel sentinel =>
      _ ←? onlyGovernance;
      m ←? SentinelMap.remove (sentinelMap o) sentinel;
      Ok (with_sentinels m o)
  | scheduleBondConfig bond slashing =>
      _ ←? onlyGovernance;
      b ←? BondConfig.schedule (bondConfig o) bond slashing delay block;
      Ok (with_bonds b o)
  | applyBondConfig => Ok (with_bonds (BondConfig.applyPending (bondConfig o) block).2 o)
  | scheduleProtocolFundsReceiver newValue =>
      _ ←? onlyGovernance;
      _ ←? require (newValue ≠ 0) InvalidAddress;
      d ←? Delayed.schedule (protocolFundsReceiverConfig o) newValue delay block;
      Ok (with_receiver d o)
  | applyProtocolFundsReceiver =>
      Ok (with_receiver (Delayed.applyPending (protocolFundsReceiverConfig o) block).2 o)
  | scheduleFee newValue =>
      _ ←? onlyGovernance;
      _ ←? require (0 < newValue) ZeroFee;
      d ←? Delayed.schedule (feeConfig o) newValue delay block;
      Ok (with_fee d o)
  | applyFee => Ok (with_fee (Delayed.applyPending (feeConfig o) block).2 o)
  | scheduleDaoFeeShare newValue =>
      _ ←? onlyGovernance;
      _ ←? require (newValue ≤ FEE_SHARE_DENOMINATOR) InvalidFeeShare;
      d ←? Delayed.schedule (daoFeeShareConfig o) newValue delay block;
      Ok (with_share d o)
  | applyDaoFeeShare => Ok (with_share (Delayed.applyPending (daoFeeShareConfig o) block).2 o)
  end.

(** Every function that changes state. *)
Inductive OracleCall :=
  | XPostRequest (id : B256) (sponsor : Address)
  | XSentinel (call : SentinelOracleCalls)
  | XResolveDispute (id : B256) (approveWins : bool) (context : Bytes)
  | XTimeoutArbitration (id : B256)
  | XMarkOutOfScope (id : B256) (context : Bytes)
  | XGovern (call : GovernanceCall).

Definition oracle_call (o : SentinelOracle) (caller : Address) (block : N) (call : OracleCall)
    : ran :=
  match call with
  | XPostRequest id sponsor => treasury_postRequest o caller block id sponsor
  | XSentinel (commitCall id hash) => treasury_commit o caller block id hash
  | XSentinel (revealCall id approve salt reason) =>
      treasury_reveal o caller block id approve salt reason
  | XSentinel (finalizeCall id) => treasury_finalize o block id
  | XSentinel (claimCall id) => treasury_claim o caller id
  | XResolveDispute id approveWins context =>
      treasury_resolveDispute o caller block id approveWins context
  | XTimeoutArbitration id => treasury_timeoutArbitration o block id
  | XMarkOutOfScope id context => treasury_markOutOfScope o caller id context
  | XGovern call => o ←? govern o caller block call; Ok (o, None)
  end.
End treasury.
