(* ===== verification/OracleInvariant.v ===== *)
(** * The invariant of the oracle contract

    The counts of a request are those of its commitments, voting happens in the
    windows, and the storage of requests that were never opened is empty; each
    call of the contract as the changes it makes. *)

From S2P Require Import Prelude.
From S2P Require Import Bytes.
From S2P Require Import Alloy.
From S2P Require Import SentinelBindings.
From S2P Require Import OracleContract.
Import SentinelOracle.

(** ** Results *)

Lemma u16_add_Ok x y z : u16_add x y = Ok z ↔ z = x + y ∧ x + y < u16_modulus.
Proof. unfold u16_add. case_decide; naive_solver. Qed.

Lemma get_Ok c id r :
  get c id = Ok r ↔ requests c !! id = Some r ∧ state (progress r) ≠ NONE.
Proof.
  unfold get. destruct (requests c !! id) as [r'|]; simpl; [|naive_solver].
  rewrite rbind_Ok. setoid_rewrite require_Ok. split; [|naive_solver].
  intros ([] & ? & [= <-]). done.
Qed.

(** Takes a successful computation apart. *)
Ltac succeeded H :=
  repeat match type of H with
  | rbind _ _ = Ok _ =>
      let x := fresh "x" in let Hx := fresh "Hx" in
      apply rbind_Ok in H as (x & Hx & H);
      first [ apply require_Ok in Hx; clear x
            | apply u16_add_Ok in Hx as [-> Hx]
            | apply get_Ok in Hx as [Hx ?] | idtac ]
  end.

(** ** Counting commitments *)

Definition among (c : Contract) (id : B256) (Q : Commitment → bool) : N :=
  N.of_nat (length (filter (λ p, p.1.1 = id ∧ Q p.2 = true) (map_to_list (commitments c)))).
Definition tally (c : Contract) (id : B256) (P : Vote → bool) : N :=
  among c id (λ m, P (vote m)).

Definition is_vote (v : Vote) : bool := match v with VNone => false | _ => true end.
Definition is_revealed (v : Vote) : bool :=
  match v with VApproved | VDenied => true | _ => false end.
Definition is_approval (v : Vote) : bool := match v with VApproved => true | _ => false end.
Definition is_denial (v : Vote) : bool := match v with VDenied => true | _ => false end.
Definition is_pending (v : Vote) : bool := match v with VPending => true | _ => false end.

Definition weigh (b : bool) : N := if b then 1 else 0.

Lemma among_delete cs id s m id' Q :
  cs !! (id, s) = Some m →
  N.of_nat (length (filter (λ p : B256 * Address * Commitment, p.1.1 = id' ∧ Q p.2 = true)
    (map_to_list cs))) =
  N.of_nat (length (filter (λ p : B256 * Address * Commitment, p.1.1 = id' ∧ Q p.2 = true)
    (map_to_list (delete (id, s) cs)))) + weigh (bool_decide (id = id') && Q m).
Proof.
  intros Hm. rewrite <-(map_to_list_delete cs (id, s) m Hm). rewrite filter_cons. simpl.
  destruct (Q m); case_decide as Hd; simpl; case_bool_decide; simpl; try naive_solver lia.
Qed.

Lemma among_put c id s m id' Q :
  Q Commitment_zero = false →
  among (put_commitment id s m c) id' Q + weigh (bool_decide (id = id') && Q (commitment c id s)) =
  among c id' Q + weigh (bool_decide (id = id') && Q m).
Proof.
  intros HQ. unfold among, commitment. simpl.
  rewrite (among_delete (<[(id, s):=m]> (commitments c)) id s m) by apply lookup_insert_eq.
  rewrite delete_insert_eq.
  destruct (commitments c !! (id, s)) as [m0|] eqn:Hm; simpl.
  - rewrite (among_delete (commitments c) id s m0 id' Q Hm). lia.
  - rewrite delete_id by done. rewrite HQ, andb_false_r. simpl. lia.
Qed.

Lemma among_put_other c id s m id' Q :
  Q Commitment_zero = false → id ≠ id' → among (put_commitment id s m c) id' Q = among c id' Q.
Proof.
  intros HQ Hne. pose proof (among_put c id s m id' Q HQ) as Ht.
  rewrite !bool_decide_false in Ht by done. simpl in Ht. lia.
Qed.

Lemma among_put_same c id s m Q :
  Q Commitment_zero = false →
  among (put_commitment id s m c) id Q + weigh (Q (commitment c id s)) = among c id Q + weigh (Q m).
Proof.
  intros HQ. pose proof (among_put c id s m id Q HQ) as Ht. by rewrite !bool_decide_true in Ht.
Qed.

Lemma among_mono c id Q R :
  (∀ m, Q m = true → R m = true) → among c id Q ≤ among c id R.
Proof.
  intros Hm. unfold among. induction (map_to_list (commitments c)) as [|p l IH]; [done|].
  rewrite !filter_cons. specialize (Hm p.2). repeat case_decide; simpl; try naive_solver lia.
Qed.

Lemma among_none c id Q :
  (∀ s m, commitments c !! (id, s) = Some m → Q m = false) → among c id Q = 0.
Proof.
  intros Hn. unfold among. rewrite list_filter_none; [done|].
  intros [[id' s] m] Hin [Hid HQ]. simpl in Hid, HQ. subst id'.
  apply elem_of_map_to_list in Hin. apply Hn in Hin. congruence.
Qed.

Lemma tally_put_other c id s m id' P :
  P VNone = false → id ≠ id' → tally (put_commitment id s m c) id' P = tally c id' P.
Proof. intros HP. by apply among_put_other. Qed.

Lemma tally_put_same c id s m P :
  P VNone = false →
  tally (put_commitment id s m c) id P + weigh (P (vote (commitment c id s))) =
  tally c id P + weigh (P (vote m)).
Proof. intros HP. exact (among_put_same c id s m (λ m, P (vote m)) HP). Qed.

Lemma tally_request c id r id' P : tally (put_request id r c) id' P = tally c id' P.
Proof. done. Qed.

Lemma tally_split c id P Q R :
  (∀ v, weigh (P v) = weigh (Q v) + weigh (R v)) → tally c id P = tally c id Q + tally c id R.
Proof.
  intros Hv. unfold tally, among. induction (map_to_list (commitments c)) as [|p l IH]; [done|].
  rewrite !filter_cons. specialize (Hv (vote p.2)). unfold weigh in Hv.
  destruct (P (vote p.2)), (Q (vote p.2)), (R (vote p.2)); try lia;
    repeat case_decide; simpl; try naive_solver lia.
Qed.

Lemma tally_positive c id s m P :
  commitments c !! (id, s) = Some m → P (vote m) = true → 0 < tally c id P.
Proof.
  intros Hm HP. unfold tally, among. apply elem_of_map_to_list in Hm.
  destruct (filter _ _) as [|p l] eqn:E; [|simpl; lia].
  assert ((id, s, m) ∈ filter (λ p, p.1.1 = id ∧ P (vote p.2) = true) (map_to_list (commitments c)))
    as Hin by (by apply list_elem_of_filter). rewrite E in Hin. by apply elem_of_nil in Hin.
Qed.

Lemma tally_empty c id P : (∀ s, commitments c !! (id, s) = None) → tally c id P = 0.
Proof. intros Hn. apply among_none. intros s m. by rewrite Hn. Qed.

(** ** The invariant *)

Record request_ok (c : Contract) (block : N) (id : B256) (r : OracleRequest) : Prop := {
  request_open : state (progress r) ≠ NONE;
  request_windows : commitDeadline (terms r) < revealDeadline (terms r);
  request_stake : 0 < bondTarget (terms r) ∧ slashAmount (terms r) ≤ bondTarget (terms r) ∧
    daoFeeShare (terms r) ≤ FEE_SHARE_DENOMINATOR;
  request_commits : tally c id is_vote ≤ committedCount (progress r);
  request_width : committedCount (progress r) < u16_modulus;
  request_approvals : approveSentinelCount (progress r) = tally c id is_approval;
  request_denials : denySentinelCount (progress r) = tally c id is_denial;
  request_reveals : revealedCount (progress r) =
    approveSentinelCount (progress r) + denySentinelCount (progress r);
  request_votes s m : commitments c !! (id, s) = Some m →
    vote m ≠ VNone ∧ bondAmount m = bondTarget (terms r);
  request_commit_phase : block ≤ commitDeadline (terms r) →
    state (progress r) = PENDING ∧ revealedCount (progress r) = 0;
}.

Definition contract_ok (c : Contract) (block : N) : Prop := ∀ id,
  match requests c !! id with
  | Some r => request_ok c block id r
  | None => ∀ s, commitments c !! (id, s) = None
  end.

Lemma contract_ok_request c block id r :
  contract_ok c block → requests c !! id = Some r → request_ok c block id r.
Proof. intros Hok Hr. specialize (Hok id). by rewrite Hr in Hok. Qed.

Lemma contract_ok_empty block : contract_ok Contract_new block.
Proof. intros id. unfold Contract_new. simpl. by rewrite lookup_empty. Qed.

(** Reveals are no more than commitments, and fewer while one is pending. *)
Lemma request_pending c block id r s m :
  request_ok c block id r → commitments c !! (id, s) = Some m → vote m = VPending →
  revealedCount (progress r) < committedCount (progress r).
Proof.
  intros Hok Hm Hv. destruct Hok.
  pose proof (tally_positive c id s m is_pending Hm ltac:(by rewrite Hv)).
  pose proof (tally_split c id is_vote is_revealed is_pending ltac:(by intros [])).
  pose proof (tally_split c id is_revealed is_approval is_denial ltac:(by intros [])). lia.
Qed.

Lemma request_reveals_le c block id r :
  request_ok c block id r → revealedCount (progress r) ≤ committedCount (progress r).
Proof.
  intros Hok. destruct Hok.
  pose proof (tally_split c id is_vote is_revealed is_pending ltac:(by intros [])).
  pose proof (tally_split c id is_revealed is_approval is_denial ltac:(by intros [])). lia.
Qed.

(** A request is untouched by what happens to others. *)
Lemma request_ok_other c c' block id r :
  request_ok c block id r →
  (∀ s, commitments c' !! (id, s) = commitments c !! (id, s)) →
  (∀ P, P VNone = false → tally c' id P = tally c id P) → request_ok c' block id r.
Proof.
  intros [] Hm Ht. split; try done; rewrite ?Ht by done; try done.
  intros s m. rewrite Hm. by apply request_votes0.
Qed.

Lemma put_commitment_ok c block id s m r :
  contract_ok c block → requests c !! id = Some r →
  request_ok (put_commitment id s m c) block id r →
  contract_ok (put_commitment id s m c) block.
Proof.
  intros Hok Hr Hnew id'. destruct (decide (id = id')) as [<-|Hne]; simpl; [by rewrite Hr|].
  specialize (Hok id'). destruct (requests c !! id') as [r'|] eqn:Hr'.
  - apply (request_ok_other c); [done| |intros; by apply tally_put_other].
    intros s'. simpl. apply lookup_insert_ne. congruence.
  - intros s'. simpl. rewrite lookup_insert_ne by congruence. apply Hok.
Qed.

Lemma put_both_ok c block id s m r :
  contract_ok c block → request_ok (put_commitment id s m (put_request id r c)) block id r →
  contract_ok (put_commitment id s m (put_request id r c)) block.
Proof.
  intros Hok Hnew id'. simpl. destruct (decide (id = id')) as [<-|Hne].
  - by rewrite lookup_insert_eq.
  - rewrite lookup_insert_ne by done. specialize (Hok id').
    destruct (requests c !! id') as [r'|] eqn:Hr'.
    + apply (request_ok_other c); [done| |].
      * intros s'. simpl. apply lookup_insert_ne. congruence.
      * intros P HP. by rewrite tally_put_other, tally_request by done.
    + intros s'. rewrite lookup_insert_ne by congruence. apply Hok.
Qed.

Lemma put_request_ok c block id r :
  contract_ok c block → request_ok c block id r → contract_ok (put_request id r c) block.
Proof.
  intros Hok Hnew id'. simpl. destruct (decide (id = id')) as [<-|Hne].
  - rewrite lookup_insert_eq. by apply (request_ok_other c).
  - rewrite lookup_insert_ne by done. specialize (Hok id').
    destruct (requests c !! id'); [|done]. by apply (request_ok_other c).
Qed.

(** ** The calls *)

Section calls.
Context {AL : Alloy}.

(** The parameters the configuration lets pass: a positive fee, a slash no more
    than the bond ([BondConfig.sol]) and a share of at most everything. *)
Definition config_ok (config : OracleConfig) : Prop :=
  0 < currentFee config ∧ 0 < bondMultiplier config ∧
  slashingMultiplier config ≤ bondMultiplier config ∧
  currentDaoFeeShare config ≤ FEE_SHARE_DENOMINATOR.

Definition opened (block : N) (config : OracleConfig) (id : B256) (s : Address) : OracleRequest :=
  {| terms := {| commitDeadline := block + COMMIT_WINDOW config;
                 daoFeeShare := currentDaoFeeShare config;
                 revealDeadline := block + COMMIT_WINDOW config + REVEAL_WINDOW config;
                 bondTarget := currentFee config * bondMultiplier config; sponsor := s;
                 slashAmount := currentFee config * slashingMultiplier config |};
     progress := {| state := PENDING; fee := currentFee config; arbitrationDeadline := 0;
                    committedCount := 0; revealedCount := 0; approveSentinelCount := 0;
                    denySentinelCount := 0 |} |}.

Lemma u96_cast_Ok x y : u96_cast x = Ok y → y = x.
Proof. unfold u96_cast. case_decide; naive_solver. Qed.
Lemma u64_cast_Ok x y : u64_cast x = Ok y → y = x.
Proof. unfold u64_cast. case_decide; naive_solver. Qed.

Lemma postRequest_Ok c config id s block c' event block' :
  contract_ok c block' →
  postRequest c config id s block = Ok (c', event) →
  let r := opened block config id s in
  requests c !! id = None ∧ c' = put_request id r c ∧
  event = EvNewRequest (NewRequest.mk id s (currentFee config) (bondTarget (terms r))
            (slashAmount (terms r)) (commitDeadline (terms r)) (revealDeadline (terms r))) ∧
  block < commitDeadline (terms r) ∧ commitDeadline (terms r) < revealDeadline (terms r).
Proof.
  intros Hok Hpost. unfold postRequest in Hpost. succeeded Hpost.
  apply u96_cast_Ok in Hx as ->, Hx0 as ->. apply u64_cast_Ok in Hx1 as ->, Hx2 as ->.
  unfold create in Hx3. succeeded Hx3. simplify_eq/=. split_and!; try done.
  destruct (requests c !! id) as [r|] eqn:Hr; [|done].
  by destruct (request_open _ _ _ _ (contract_ok_request _ _ _ _ Hok Hr)).
Qed.

Lemma commit_Ok c s id hash block c' event :
  commit c s id hash block = Ok (c', event) →
  ∃ r, requests c !! id = Some r ∧ state (progress r) = PENDING ∧
    block ≤ commitDeadline (terms r) ∧ committedCount (progress r) + 1 < u16_modulus ∧
    c' = put_commitment id s {| commitHash := hash; bondAmount := bondTarget (terms r);
             vote := VPending; claimed := false |}
           (put_request id {| terms := terms r; progress :=
              {| state := PENDING; fee := fee (progress r);
                 arbitrationDeadline := arbitrationDeadline (progress r);
                 committedCount := committedCount (progress r) + 1;
                 revealedCount := revealedCount (progress r);
                 approveSentinelCount := approveSentinelCount (progress r);
                 denySentinelCount := denySentinelCount (progress r) |} |} c) ∧
    event = EvCommitted (Committed.mk id s (bondTarget (terms r))).
Proof.
  intros H. unfold commit in H. succeeded H. unfold applyCommit in Hx0. succeeded Hx0.
  simplify_eq/=. exists x. split_and!; try done.
  by match goal with Hs : state _ = PENDING |- _ => rewrite Hs end.
Qed.

Definition revealed_as (approve : bool) : Vote := if approve then VApproved else VDenied.

Lemma reveal_Ok c s id approve salt reason block c' event :
  reveal c s id approve salt reason block = Ok (c', event) →
  ∃ r m, requests c !! id = Some r ∧ state (progress r) = PENDING ∧
    commitDeadline (terms r) < block ∧ block ≤ revealDeadline (terms r) ∧
    commitments c !! (id, s) = Some m ∧ vote m = VPending ∧
    commitHash m = computeHash s id approve salt reason ∧
    c' = put_commitment id s {| commitHash := commitHash m; bondAmount := bondAmount m;
             vote := revealed_as approve; claimed := claimed m |}
           (put_request id {| terms := terms r; progress :=
              {| state := PENDING; fee := fee (progress r);
                 arbitrationDeadline := arbitrationDeadline (progress r);
                 committedCount := committedCount (progress r);
                 revealedCount := revealedCount (progress r) + 1;
                 approveSentinelCount := approveSentinelCount (progress r) + weigh approve;
                 denySentinelCount := denySentinelCount (progress r) + weigh (negb approve)
              |} |} c) ∧
    event = EvRevealed (Revealed.mk id s approve (bondAmount m) reason).
Proof.
  intros H. unfold reveal in H. succeeded H. unfold reveal_commitment in Hx0. succeeded Hx0.
  unfold applyReveal in Hx1. succeeded Hx1. simplify_eq/=.
  unfold commitment in *. destruct (commitments c !! (id, s)) as [m|]; [simpl in *|done].
  exists x, m. split_and!; try done.
  match goal with Hs : state _ = PENDING |- _ => rewrite Hs end. by destruct approve.
Qed.

Definition resolved (s : RequestState) : Prop :=
  s = RESOLVED_APPROVED ∨ s = RESOLVED_DENIED ∨ s = TIMED_OUT.

(** When a pending request may be finalized. *)
Definition finalizable (r : OracleRequest) (block : N) : Prop :=
  revealDeadline (terms r) < block ∨
  (0 < committedCount (progress r) ∧ revealedCount (progress r) = committedCount (progress r)) ∨
  (committedCount (progress r) = 0 ∧ commitDeadline (terms r) < block).

(** What finalizing a request tells. *)
Definition outcome_event (id : B256) (r : OracleRequest) (outcome : RequestState)
    (event : SentinelOracleEvents) : Prop :=
  let approvals := approveSentinelCount (progress r) in
  let denials := denySentinelCount (progress r) in
  (outcome = FROZEN ∧ 0 < approvals ∧ 0 < denials ∧
     ∃ deadline, event = EvDisputeTriggered (DisputeTriggered.mk id deadline)) ∨
  (outcome = TIMED_OUT ∧ approvals = 0 ∧ denials = 0 ∧
     event = EvRequestTimedOut (RequestTimedOut.mk id)) ∨
  (∃ approved : bool, outcome = (if approved then RESOLVED_APPROVED else RESOLVED_DENIED) ∧
     (if approved then 0 < approvals ∧ denials = 0 else approvals = 0 ∧ 0 < denials) ∧
     event = EvOracleResult (OracleResult.mk id (sponsor (terms r)) [] approved)).

(** What is left of the fee. *)
Definition fee_left (r : OracleRequest) (outcome : RequestState) : N :=
  match outcome with
  | RESOLVED_APPROVED | RESOLVED_DENIED => fee (progress r) - daoCut (terms r) (fee (progress r))
  | TIMED_OUT => 0
  | _ => fee (progress r)
  end.

Lemma applyDaoFeeCut_Ok r amount rest :
  applyDaoFeeCut r amount = Ok rest → rest = amount - daoCut (terms r) amount.
Proof. unfold applyDaoFeeCut. case_decide; naive_solver. Qed.

Lemma finalize_request_Ok r deadline block r' :
  finalize_request r deadline block = Ok r' →
  state (progress r) = PENDING ∧ finalizable r block ∧
  ∃ outcome deadline', r' = with_outcome outcome (fee_left r outcome) deadline' r ∧
    (outcome = FROZEN → deadline' = deadline) ∧
    let approvals := approveSentinelCount (progress r) in
    let denials := denySentinelCount (progress r) in
    ((outcome = FROZEN ∧ 0 < approvals ∧ 0 < denials) ∨
     (outcome = TIMED_OUT ∧ approvals = 0 ∧ denials = 0) ∨
     (outcome = RESOLVED_APPROVED ∧ 0 < approvals ∧ denials = 0) ∨
     (outcome = RESOLVED_DENIED ∧ approvals = 0 ∧ 0 < denials)).
Proof.
  intros H. unfold finalize_request in H. succeeded H. split; [done|]. split.
  - unfold finalizable. apply orb_true_iff in Hx0 as [[?|?]%orb_true_iff|?];
      rewrite ?andb_true_iff, ?bool_decide_eq_true in *; auto.
  - case_bool_decide; case_bool_decide; simpl in H; succeeded H;
      try succeeded Hx1; try match goal with
      | Hcut : applyDaoFeeCut _ _ = Ok _ |- _ => apply applyDaoFeeCut_Ok in Hcut as ->
      end;
      exists (state (progress r')), (arbitrationDeadline (progress r')); simplify_eq/=;
      (split; [reflexivity|]); (split; [done|]); simpl; repeat match goal with H : ¬ 0 < ?x |- _ =>
        apply N.nlt_ge, N.le_0_r in H end; auto 8.
Qed.

Lemma finalize_Ok c A id block c' event :
  finalize c A id block = Ok (c', event) →
  ∃ r outcome deadline, requests c !! id = Some r ∧ state (progress r) = PENDING ∧
    finalizable r block ∧
    c' = put_request id (with_outcome outcome (fee_left r outcome) deadline r) c ∧
    outcome_event id r outcome event.
Proof.
  intros H. unfold finalize in H. succeeded H.
  apply finalize_request_Ok in Hx1 as (Hp & Hf & outcome & deadline & -> & Hfrozen & Ho).
  simplify_eq/=. exists x, outcome, deadline. split_and!; try done.
  unfold outcome_event. destruct Ho as [(-> & ? & ?)|[(-> & ? & ?)|[(-> & ? & ?)|(-> & ? & ?)]]].
  - left. split_and!; try done. by eexists.
  - right. left. done.
  - right. right. exists true. split_and!; done.
  - right. right. exists false. split_and!; done.
Qed.

(** What the arbitrator's ruling slashes. *)
Definition losing_slash (r : OracleRequest) (approveWins : bool) : N :=
  (if approveWins then denySentinelCount (progress r) else approveSentinelCount (progress r)) *
  slashAmount (terms r).

Lemma resolveDispute_Ok c id approveWins context c' event :
  resolveDispute c id approveWins context = Ok (c', event) →
  let outcome := if approveWins then RESOLVED_APPROVED else RESOLVED_DENIED in
  ∃ r, requests c !! id = Some r ∧ state (progress r) = FROZEN ∧
    c' = put_request id (with_outcome outcome (fee_left r outcome)
           (arbitrationDeadline (progress r)) r) c ∧
    event = EvDisputeResolved
      (DisputeResolved.mk id outcome (losing_slash r approveWins) context).
Proof.
  intros H. unfold resolveDispute in H. succeeded H. apply applyDaoFeeCut_Ok in Hx1 as ->.
  simplify_eq/=. exists x. split_and!; try done. by destruct approveWins.
Qed.

Lemma outOfScope_Ok r r' :
  outOfScope r = Ok r' →
  state (progress r) = FROZEN ∧ r' = with_outcome TIMED_OUT 0 (arbitrationDeadline (progress r)) r.
Proof. intros H. unfold outOfScope in H. succeeded H. by simplify_eq. Qed.

Lemma timeoutArbitration_Ok c id block c' event :
  timeoutArbitration c id block = Ok (c', event) →
  ∃ r, requests c !! id = Some r ∧ state (progress r) = FROZEN ∧
    c' = put_request id (with_outcome TIMED_OUT 0 (arbitrationDeadline (progress r)) r) c ∧
    event = EvArbitrationTimedOut (ArbitrationTimedOut.mk id).
Proof.
  intros H. unfold timeoutArbitration in H. succeeded H. apply outOfScope_Ok in Hx1 as [? ->].
  simplify_eq. by eexists.
Qed.

Lemma markOutOfScope_Ok c id context c' event :
  markOutOfScope c id context = Ok (c', event) →
  ∃ r, requests c !! id = Some r ∧ state (progress r) = FROZEN ∧
    c' = put_request id (with_outcome TIMED_OUT 0 (arbitrationDeadline (progress r)) r) c ∧
    event = EvDisputeOutOfScope (DisputeOutOfScope.mk id context).
Proof.
  intros H. unfold markOutOfScope in H. succeeded H. apply outOfScope_Ok in Hx0 as [? ->].
  simplify_eq. by eexists.
Qed.

Lemma claim_Ok c s id c' event :
  claim c s id = Ok (c', event) →
  ∃ r m feeReward, requests c !! id = Some r ∧ resolved (state (progress r)) ∧
    commitments c !! (id, s) = Some m ∧ claimed m = false ∧
    calcFeeReward r (state (progress r)) (vote m) = Ok feeReward ∧
    slashAmountFor r (state (progress r)) (vote m) ≤ bondAmount m ∧
    c' = put_commitment id s {| commitHash := commitHash m; bondAmount := bondAmount m;
           vote := vote m; claimed := true |} c ∧
    event = EvClaimed (Claimed.mk id s
      (bondAmount m - slashAmountFor r (state (progress r)) (vote m)) feeReward).
Proof.
  intros H. unfold claim in H. succeeded H. unfold requireResolved in Hx0. succeeded Hx0.
  simplify_eq/=. unfold commitment in *. destruct (commitments c !! (id, s)) as [m|]; [simpl in *|].
  - by do 3 eexists.
  - simpl in *. lia.
Qed.

(** ** Every call keeps the invariant *)

Lemma contract_ok_later c block block' :
  contract_ok c block → block ≤ block' → contract_ok c block'.
Proof.
  intros Hok Hle id. specialize (Hok id). destruct (requests c !! id) as [r|]; [|done].
  destruct Hok. split; try done. intros ?. apply request_commit_phase0. lia.
Qed.

Lemma with_outcome_ok c block id r outcome fee deadline :
  request_ok c block id r → outcome ≠ NONE → ¬ block ≤ commitDeadline (terms r) →
  request_ok c block id (with_outcome outcome fee deadline r).
Proof. intros [] Ho Hb. by split. Qed.

(** Past the commit phase a request is finalized. *)
Lemma finalizable_late c block id r :
  request_ok c block id r → finalizable r block → ¬ block ≤ commitDeadline (terms r).
Proof.
  intros Hok Hf Hb. pose proof (request_windows _ _ _ _ Hok).
  destruct (request_commit_phase _ _ _ _ Hok Hb) as [_ Hr].
  destruct Hf as [?|[[? ?]|[? ?]]]; lia.
Qed.

Lemma frozen_late c block id r :
  request_ok c block id r → state (progress r) ≠ PENDING → ¬ block ≤ commitDeadline (terms r).
Proof. intros Hok Hs Hb. by destruct (request_commit_phase _ _ _ _ Hok Hb). Qed.

Lemma postRequest_preserves c config id s block c' event :
  contract_ok c block → config_ok config → postRequest c config id s block = Ok (c', event) →
  contract_ok c' block.
Proof.
  intros Hok (Hfee & Hbond & Hslash & Hshare) H.
  apply (postRequest_Ok _ _ _ _ _ _ _ block Hok) in H as (Hr & -> & _ & Hb & Hw).
  pose proof (Hok id) as Hn. rewrite Hr in Hn.
  apply put_request_ok; [done|]. split; simpl in *; try done; rewrite ?tally_empty by done; try done.
  - split_and!; [by apply N.mul_pos_pos|by apply N.mul_le_mono_l|done].
  - intros s' m. by rewrite Hn.
Qed.

Lemma commit_preserves c s id hash block c' event :
  contract_ok c block → commit c s id hash block = Ok (c', event) → contract_ok c' block.
Proof.
  intros Hok H. apply commit_Ok in H as (r & Hr & Hp & Hb & Hw & -> & _).
  pose proof (contract_ok_request _ _ _ _ Hok Hr) as Hreq.
  set (r' := Build_OracleRequest _ _).
  destruct (request_commit_phase _ _ _ _ Hreq Hb) as [_ Hzero].
  pose proof (request_reveals _ _ _ _ Hreq) as Hsum.
  assert (∀ P, P VNone = false → P VPending = false → tally c id P = 0 →
    tally (put_commitment id s {| commitHash := hash; bondAmount := bondTarget (terms r);
      vote := VPending; claimed := false |} (put_request id r' c)) id P = 0) as Hkeep.
  { intros P HN HP Hz. pose proof (tally_put_same (put_request id r' c) id s
      {| commitHash := hash; bondAmount := bondTarget (terms r); vote := VPending;
         claimed := false |} P HN) as Ht.
    rewrite tally_request, Hz in Ht. simpl in Ht. rewrite HP in Ht. simpl in Ht. lia. }
  pose proof (request_approvals _ _ _ _ Hreq) as Ha.
  pose proof (request_denials _ _ _ _ Hreq) as Hd.
  apply put_both_ok; [done|]. destruct Hreq. split; simpl; try done.
  - pose proof (tally_put_same (put_request id r' c) id s
      {| commitHash := hash; bondAmount := bondTarget (terms r); vote := VPending;
         claimed := false |} is_vote eq_refl) as Ht.
    rewrite tally_request in Ht. simpl in Ht. lia.
  - rewrite Hkeep; [lia|done|done|lia].
  - rewrite Hkeep; [lia|done|done|lia].
  - intros s' m Hm. destruct (decide (s = s')) as [<-|Hne].
    + rewrite lookup_insert_eq in Hm. by simplify_eq/=.
    + rewrite lookup_insert_ne in Hm by congruence. by apply request_votes0 in Hm.
Qed.

Lemma reveal_preserves c s id approve salt reason block c' event :
  contract_ok c block → reveal c s id approve salt reason block = Ok (c', event) →
  contract_ok c' block.
Proof.
  intros Hok H.
  apply reveal_Ok in H as (r & m & Hr & Hp & Hb & Hb' & Hm & Hv & _ & -> & _).
  pose proof (contract_ok_request _ _ _ _ Hok Hr) as Hreq.
  set (r' := Build_OracleRequest _ _). set (m' := Build_Commitment _ _ _ _).
  assert (∀ P, P VNone = false → P VPending = false →
    tally (put_commitment id s m' (put_request id r' c)) id P =
    tally c id P + weigh (P (revealed_as approve))) as Ht.
  { intros P HN HP. pose proof (tally_put_same (put_request id r' c) id s m' P HN) as Ht.
    unfold commitment in Ht. simpl in Ht. rewrite Hm in Ht. simpl in Ht.
    rewrite Hv, HP, tally_request in Ht. simpl in Ht. lia. }
  apply put_both_ok; [done|]. pose proof (request_pending _ _ _ _ _ _ Hreq Hm Hv) as Hlt.
  destruct Hreq. split; simpl; try done.
  - pose proof (tally_put_same (put_request id r' c) id s m' is_vote eq_refl) as Hvotes.
    unfold commitment in Hvotes. simpl in Hvotes. rewrite Hm in Hvotes. simpl in Hvotes.
    rewrite Hv, tally_request in Hvotes. destruct approve; simpl in Hvotes; lia.
  - rewrite Ht by done. rewrite request_approvals0. by destruct approve.
  - rewrite Ht by done. rewrite request_denials0. by destruct approve.
  - rewrite request_reveals0. destruct approve; simpl; lia.
  - intros s' m1 Hm1. destruct (decide (s = s')) as [<-|Hne].
    + rewrite lookup_insert_eq in Hm1. simplify_eq/=.
      destruct (request_votes0 s m Hm). by destruct approve.
    + rewrite lookup_insert_ne in Hm1 by congruence. by apply request_votes0 in Hm1.
  - lia.
Qed.

Lemma finalize_preserves c A id block c' event :
  contract_ok c block → finalize c A id block = Ok (c', event) → contract_ok c' block.
Proof.
  intros Hok H. apply finalize_Ok in H as (r & outcome & deadline & Hr & _ & Hf & -> & Ho).
  pose proof (contract_ok_request _ _ _ _ Hok Hr) as Hreq.
  apply put_request_ok; [done|]. apply with_outcome_ok; [done| |by eapply finalizable_late].
  destruct Ho as [(-> & _)|[(-> & _)|(approved & -> & _)]]; try done. by destruct approved.
Qed.

Lemma settled_preserves c block id r outcome fee deadline :
  contract_ok c block → requests c !! id = Some r → state (progress r) = FROZEN →
  outcome ≠ NONE → contract_ok (put_request id (with_outcome outcome fee deadline r) c) block.
Proof.
  intros Hok Hr Hs Ho. pose proof (contract_ok_request _ _ _ _ Hok Hr) as Hreq.
  apply put_request_ok; [done|]. apply with_outcome_ok; [done|done|].
  eapply frozen_late; [done|]. by rewrite Hs.
Qed.

Lemma claim_preserves c s id block c' event :
  contract_ok c block → claim c s id = Ok (c', event) → contract_ok c' block.
Proof.
  intros Hok H. apply claim_Ok in H as (r & m & ? & Hr & _ & Hm & _ & _ & _ & -> & _).
  pose proof (contract_ok_request _ _ _ _ Hok Hr) as Hreq. set (m' := Build_Commitment _ _ _ _).
  apply (put_commitment_ok _ _ _ _ _ r); [done|done|].
  assert (∀ P, P VNone = false → tally (put_commitment id s m' c) id P = tally c id P) as Ht.
  { intros P HN. pose proof (tally_put_same c id s m' P HN) as Ht.
    unfold commitment in Ht. rewrite Hm in Ht. simpl in Ht. lia. }
  destruct Hreq. split; rewrite ?Ht by done; try done.
  intros s' m1. simpl. destruct (decide (s = s')) as [<-|Hne].
  - rewrite lookup_insert_eq. intros [= <-]. by apply (request_votes0 s m).
  - rewrite lookup_insert_ne by congruence. apply request_votes0.
Qed.

Lemma call_preserves A c s block x c' event :
  contract_ok c block → call A c s block x = Ok (c', event) → contract_ok c' block.
Proof.
  destruct x; simpl; eauto using commit_preserves, reveal_preserves, finalize_preserves,
    claim_preserves.
Qed.

(** ** When a call is accepted *)

Lemma get_request c block id r :
  contract_ok c block → requests c !! id = Some r → get c id = Ok r.
Proof.
  intros Hok Hr. apply get_Ok. split; [done|].
  by destruct (contract_ok_request _ _ _ _ Hok Hr).
Qed.

Lemma commit_accepted c block s id hash r :
  contract_ok c block → requests c !! id = Some r →
  state (progress r) = PENDING → block ≤ commitDeadline (terms r) →
  committedCount (progress r) + 1 < u16_modulus → commitHash (commitment c id s) = 0 →
  ∃ c', commit c s id hash block = Ok (c', EvCommitted (Committed.mk id s (bondTarget (terms r)))).
Proof.
  intros Hok Hr Hs Hb Hw Hm. unfold commit. rewrite (get_request _ _ _ _ Hok Hr). simpl.
  unfold applyCommit. rewrite !require_True by done. simpl.
  unfold u16_add. rewrite decide_True by done. simpl.
  by eexists.
Qed.

Lemma reveal_accepted c block s id approve salt reason r m :
  contract_ok c block → requests c !! id = Some r → state (progress r) = PENDING →
  commitDeadline (terms r) < block → block ≤ revealDeadline (terms r) →
  commitments c !! (id, s) = Some m → vote m = VPending →
  commitHash m = computeHash s id approve salt reason →
  ∃ c', reveal c s id approve salt reason block =
    Ok (c', EvRevealed (Revealed.mk id s approve (bondAmount m) reason)).
Proof.
  intros Hok Hr Hs Hb Hb' Hm Hv Hh. pose proof (contract_ok_request _ _ _ _ Hok Hr) as Hreq.
  pose proof (request_pending _ _ _ _ _ _ Hreq Hm Hv) as Hlt.
  pose proof (request_width _ _ _ _ Hreq). pose proof (request_reveals _ _ _ _ Hreq).
  unfold reveal. rewrite (get_request _ _ _ _ Hok Hr). simpl.
  unfold commitment. rewrite Hm. unfold reveal_commitment. simpl.
  rewrite !require_True; [|done|done|by rewrite Hv]. simpl.
  unfold applyReveal. rewrite !require_True by done. simpl.
  unfold u16_add. repeat (rewrite decide_True by (destruct approve; lia); simpl). by eexists.
Qed.

Lemma daoCut_le t amount : daoFeeShare t ≤ FEE_SHARE_DENOMINATOR → daoCut t amount ≤ amount.
Proof.
  intros Hshare. etrans; [apply N.Div0.mod_le|].
  apply N.Div0.div_le_upper_bound. rewrite (N.mul_comm FEE_SHARE_DENOMINATOR).
  by apply N.mul_le_mono_l.
Qed.

Lemma applyDaoFeeCut_accepted r amount :
  daoFeeShare (terms r) ≤ FEE_SHARE_DENOMINATOR → ∃ rest, applyDaoFeeCut r amount = Ok rest.
Proof.
  intros Hshare. unfold applyDaoFeeCut. rewrite decide_True by (by apply daoCut_le). by eexists.
Qed.

Lemma finalize_accepted c A block id r :
  contract_ok c block → requests c !! id = Some r → state (progress r) = PENDING →
  finalizable r block → block + A ≤ u64_max →
  ∃ c' event, finalize c A id block = Ok (c', event).
Proof.
  intros Hok Hr Hs Hf HA. pose proof (contract_ok_request _ _ _ _ Hok Hr) as Hreq.
  pose proof (request_reveals_le _ _ _ _ Hreq) as Hle.
  destruct (request_stake _ _ _ _ Hreq) as (_ & _ & Hshare).
  unfold finalize. rewrite (get_request _ _ _ _ Hok Hr). simpl.
  unfold u64_cast. rewrite decide_True by done. simpl.
  unfold finalize_request. rewrite require_True by done. simpl.
  rewrite require_True; [simpl|].
  - destruct (applyDaoFeeCut_accepted r (fee (progress r)) Hshare) as [rest Hrest].
    repeat case_bool_decide; simpl; rewrite ?Hrest, ?require_True by done; simpl; by do 2 eexists.
  - apply orb_true_iff. destruct Hf as [?|[[? ?]|[? ?]]].
    + left. apply orb_true_iff. left. by apply bool_decide_eq_true.
    + left. apply orb_true_iff. right. by rewrite !bool_decide_true.
    + right. by rewrite !bool_decide_true.
Qed.

Lemma claim_accepted c block s id r m :
  contract_ok c block → requests c !! id = Some r → resolved (state (progress r)) →
  commitments c !! (id, s) = Some m → claimed m = false →
  ∃ c' event, claim c s id = Ok (c', event).
Proof.
  intros Hok Hr Hs Hm Hc. pose proof (contract_ok_request _ _ _ _ Hok Hr) as Hreq.
  destruct (request_votes _ _ _ _ Hreq _ _ Hm) as [Hv Hbond].
  destruct (request_stake _ _ _ _ Hreq) as (Hpos & Hslash & _).
  unfold claim. rewrite (get_request _ _ _ _ Hok Hr). simpl.
  unfold requireResolved. rewrite require_True by done. simpl.
  unfold commitment. rewrite Hm. simpl. rewrite require_True by (by rewrite Hbond). simpl.
  rewrite require_True by done. simpl.
  assert (∃ reward, calcFeeReward r (state (progress r)) (vote m) = Ok reward) as [reward Hreward].
  { unfold calcFeeReward.
    pose proof (tally_positive c id s m is_approval Hm) as Ha.
    pose proof (tally_positive c id s m is_denial Hm) as Hd.
    pose proof (request_approvals _ _ _ _ Hreq). pose proof (request_denials _ _ _ _ Hreq).
    destruct (vote m), (state (progress r)); try by eexists.
    - rewrite decide_False; [by eexists|]. specialize (Ha eq_refl). lia.
    - rewrite decide_False; [by eexists|]. specialize (Hd eq_refl). lia. }
  rewrite Hreward. simpl. rewrite require_True; [by do 2 eexists|].
  rewrite Hbond. unfold slashAmountFor. case_match; [done|lia].
Qed.
End calls.
