(* ===== verification/OracleTreasury.v ===== *)
(** * The money of the oracle contract

    What the contract owes each party of its requests, as an account of the book
    of requests and commitments; what every call adds to it and pays off; and that
    the contract's tokens cover it in every reachable state, so that no transfer
    it makes can fail. *)

From S2P Require Import Prelude.
From S2P Require Import Bytes.
From S2P Require Import Alloy.
From S2P Require Import SentinelBindings.
From S2P Require Import OracleContract.
From S2P Require Import OracleInvariant.
Import SentinelOracle.

(** ** Sums over the requests *)

Section sums.
Context {A : Type}.

Definition sum_of (f : B256 * A → N) (l : list (B256 * A)) : N :=
  foldr (λ p n, f p + n) 0 l.

Lemma sum_of_permutation f l l' : l ≡ₚ l' → sum_of f l = sum_of f l'.
Proof. induction 1; simpl; lia. Qed.

Lemma sum_of_ext f g l : (∀ p, p ∈ l → f p = g p) → sum_of f l = sum_of g l.
Proof.
  induction l as [|p l IH]; intros Hfg; simpl; [done|].
  rewrite (Hfg p), IH; [done|set_solver|set_solver].
Qed.

Lemma sum_of_lookup f (m : gmap B256 A) id x :
  m !! id = Some x →
  sum_of f (map_to_list m) = f (id, x) + sum_of f (map_to_list (delete id m)).
Proof.
  intros Hx. by rewrite <-(sum_of_permutation f _ _ (map_to_list_delete m id x Hx)).
Qed.
End sums.

(** ** What a request owes *)

(** The fee, until it is refunded or split. *)
Definition pot (r : OracleRequest) : N :=
  match state (progress r) with PENDING | FROZEN => fee (progress r) | _ => 0 end.

(** The fee's share of a vote: what [calcFeeReward] computes. *)
Definition share_of_fee (r : OracleRequest) (v : Vote) : N :=
  match v, state (progress r) with
  | VApproved, RESOLVED_APPROVED => fee (progress r) / approveSentinelCount (progress r)
  | VDenied, RESOLVED_DENIED => fee (progress r) / denySentinelCount (progress r)
  | _, _ => 0
  end.

(** What an unclaimed commitment is worth. *)
Definition worth (r : OracleRequest) (v : Vote) : N :=
  match state (progress r) with
  | PENDING => bondTarget (terms r)
  | s => bondTarget (terms r) - slashAmountFor r s v + share_of_fee r v
  end.

Definition claims (c : Contract) (id : B256) (P : Vote → bool) : N :=
  among c id (λ m, claimed m && P (vote m)).

(** A commitment replaced by a later one of its sentinel is still counted, and its
    bond kept: the source overwrites a commitment whose hash is zero. *)
Definition owed (c : Contract) (id : B256) (r : OracleRequest) : N :=
  let p := progress r in
  pot r +
  (committedCount p - revealedCount p - claims c id is_pending) * worth r VPending +
  (approveSentinelCount p - claims c id is_approval) * worth r VApproved +
  (denySentinelCount p - claims c id is_denial) * worth r VDenied.

Definition total_owed (c : Contract) : N :=
  sum_of (λ p, owed c p.1 p.2) (map_to_list (requests c)).

Definition owed_at (c : Contract) (id : B256) : N :=
  from_option (owed c id) 0 (requests c !! id).

(** ** The account's invariant *)

Record account_ok (c : Contract) (id : B256) (r : OracleRequest) : Prop := {
  account_unclaimed : state (progress r) = PENDING ∨ state (progress r) = FROZEN →
    ∀ s m, commitments c !! (id, s) = Some m → claimed m = false;
  account_frozen : state (progress r) = FROZEN →
    0 < approveSentinelCount (progress r) ∧ 0 < denySentinelCount (progress r);
  account_fee : state (progress r) = PENDING ∨ state (progress r) = FROZEN →
    fee (progress r) ≤ slashAmount (terms r);
  account_sponsor : sponsor (terms r) ≠ 0;
}.

Definition accounts_ok (c : Contract) : Prop :=
  ∀ id r, requests c !! id = Some r → account_ok c id r.

Lemma accounts_ok_empty : accounts_ok Contract_new.
Proof. intros id r. unfold Contract_new. simpl. by rewrite lookup_empty. Qed.

Lemma total_owed_empty : total_owed Contract_new = 0.
Proof. done. Qed.

Lemma owed_other c c' id r :
  (∀ Q, Q Commitment_zero = false → among c' id Q = among c id Q) → owed c' id r = owed c id r.
Proof. intros Ha. unfold owed, claims. by rewrite !Ha. Qed.

(** Changing one request changes the total by what the request owes. *)
Lemma total_owed_change c c' id r :
  requests c' = <[id := r]> (requests c) →
  (∀ id' Q, id ≠ id' → Q Commitment_zero = false → among c' id' Q = among c id' Q) →
  total_owed c' + owed_at c id = total_owed c + owed c' id r.
Proof.
  intros Hr Ha. unfold total_owed, owed_at.
  rewrite Hr, (sum_of_lookup _ (<[id := r]> (requests c)) id r) by apply lookup_insert_eq.
  rewrite delete_insert_eq. simpl.
  assert (sum_of (λ p, owed c' p.1 p.2) (map_to_list (delete id (requests c))) =
    sum_of (λ p, owed c p.1 p.2) (map_to_list (delete id (requests c)))) as Hrest.
  { apply sum_of_ext. intros [id' r'] Hin. apply elem_of_map_to_list in Hin.
    apply lookup_delete_Some in Hin as [Hne _]. apply owed_other. intros Q. by apply Ha. }
  rewrite Hrest. destruct (requests c !! id) as [r0|] eqn:Hr0; simpl.
  - rewrite (sum_of_lookup _ (requests c) id r0 Hr0). simpl. lia.
  - rewrite delete_id by done. lia.
Qed.

Lemma owed_at_lookup c id r : requests c !! id = Some r → owed_at c id = owed c id r.
Proof. unfold owed_at. by intros ->. Qed.

Lemma total_owed_request c id r :
  total_owed (put_request id r c) + owed_at c id = total_owed c + owed c id r.
Proof. by rewrite (total_owed_change c (put_request id r c) id r). Qed.

Lemma total_owed_both c id s m r :
  total_owed (put_commitment id s m (put_request id r c)) + owed_at c id =
  total_owed c + owed (put_commitment id s m (put_request id r c)) id r.
Proof.
  apply total_owed_change; [done|]. intros id' Q Hne HQ. by rewrite among_put_other.
Qed.

(** Before a request is resolved nothing of it is claimed. *)
Lemma unclaimed c id r P :
  account_ok c id r → state (progress r) = PENDING ∨ state (progress r) = FROZEN →
  claims c id P = 0.
Proof.
  intros Hok Hs. apply among_none. intros s m Hm.
  by rewrite (account_unclaimed _ _ _ Hok Hs s m Hm).
Qed.

Lemma claims_le c id P : claims c id P ≤ tally c id P.
Proof. apply among_mono. intros m [_ ?]%andb_true_iff. done. Qed.

(** What a request owes before anything of it is claimed. *)
Definition owed_unclaimed (r : OracleRequest) : N :=
  let p := progress r in
  pot r + (committedCount p - revealedCount p) * worth r VPending +
  approveSentinelCount p * worth r VApproved + denySentinelCount p * worth r VDenied.

Lemma owed_if_unclaimed c id r :
  (∀ P, claims c id P = 0) → owed c id r = owed_unclaimed r.
Proof. intros Hc. unfold owed, owed_unclaimed. rewrite !Hc. by rewrite !N.sub_0_r. Qed.

Lemma owed_pending c block id r :
  request_ok c block id r → state (progress r) = PENDING →
  owed_unclaimed r = fee (progress r) + committedCount (progress r) * bondTarget (terms r).
Proof.
  intros Hok Hs. pose proof (request_reveals_le _ _ _ _ Hok).
  pose proof (request_reveals _ _ _ _ Hok).
  unfold owed_unclaimed, pot, worth. rewrite Hs, <-!N.add_assoc, <-!N.mul_add_distr_r.
  do 2 f_equal. lia.
Qed.

(** ** Keeping the account's invariant *)

Lemma put_request_accounts c id r :
  accounts_ok c → account_ok c id r → accounts_ok (put_request id r c).
Proof.
  intros Hok Hr id' r'. simpl. intros [[-> ->]|[_ Hr']]%lookup_insert_Some; [by destruct Hr|].
  by destruct (Hok _ _ Hr').
Qed.

Lemma put_commitment_accounts c id s m r :
  accounts_ok c → requests c !! id = Some r →
  (state (progress r) = PENDING ∨ state (progress r) = FROZEN → claimed m = false) →
  accounts_ok (put_commitment id s m c).
Proof.
  intros Hok Hr Hm id' r' Hr'. simpl in Hr'. destruct (Hok _ _ Hr'). split; [|done..].
  intros Hs s' m'. simpl. intros [[[= -> ->] ->]|[_ Hm']]%lookup_insert_Some.
  - apply Hm. rewrite Hr in Hr'. by injection Hr' as ->.
  - by apply (account_unclaimed0 Hs s').
Qed.

(** A request leaves the account's invariant as it is while its state, its terms
    and its fee do, or when it is resolved. *)
Lemma account_ok_resolved c id r r' :
  account_ok c id r → terms r' = terms r → resolved (state (progress r')) → account_ok c id r'.
Proof.
  intros [] Ht Hs. split; rewrite ?Ht; [|..|done];
    destruct Hs as [Hs|[Hs|Hs]]; rewrite Hs; naive_solver.
Qed.

Lemma account_ok_pending c id r r' :
  account_ok c id r → state (progress r) = PENDING → state (progress r') = PENDING →
  terms r' = terms r → fee (progress r') = fee (progress r) → account_ok c id r'.
Proof.
  intros [] Hs Hs' Ht Hf. rewrite Hs in *.
  split; rewrite ?Ht, ?Hf, ?Hs'; [intros _; apply account_unclaimed0; by left|done| |done].
  intros _. apply account_fee0. by left.
Qed.

(** ** The accounts of each call *)

Section calls.
Context {AL : Alloy}.

(** What [postRequest] needs of its parameters beside [config_ok]. *)
Lemma postRequest_account c config id s block c' event :
  contract_ok c block → accounts_ok c → 0 < slashingMultiplier config → s ≠ 0 →
  postRequest c config id s block = Ok (c', event) →
  accounts_ok c' ∧ total_owed c' = total_owed c + currentFee config.
Proof.
  intros Hok Hacc Hslash Hs H.
  apply (postRequest_Ok _ _ _ _ _ _ _ block Hok) in H as (Hr & -> & _ & _ & _).
  pose proof (Hok id) as Hn. rewrite Hr in Hn. split.
  - apply put_request_accounts; [done|]. split; simpl; [|done| |done].
    + intros _ s' m. by rewrite Hn.
    + intros _. rewrite <-(N.mul_1_r (currentFee config)) at 1. apply N.mul_le_mono_l. lia.
  - pose proof (total_owed_request c id (opened block config id s)) as Ht.
    unfold owed_at in Ht. rewrite Hr in Ht. simpl in Ht. rewrite N.add_0_r in Ht. rewrite Ht.
    f_equal. rewrite owed_if_unclaimed; [by unfold owed_unclaimed; simpl; rewrite !N.add_0_r|].
    intros P. apply among_none. intros s' m. simpl. by rewrite Hn.
Qed.

(** A vote of a pending request. *)
Lemma voting_account c block id s m r r' :
  let c' := put_commitment id s m (put_request id r' c) in
  contract_ok c block → contract_ok c' block → accounts_ok c → requests c !! id = Some r →
  state (progress r) = PENDING → state (progress r') = PENDING → terms r' = terms r →
  fee (progress r') = fee (progress r) → claimed m = false →
  accounts_ok c' ∧
  total_owed c' + committedCount (progress r) * bondTarget (terms r) =
  total_owed c + committedCount (progress r') * bondTarget (terms r).
Proof.
  intros c' Hok Hok' Hacc Hr Hs Hs' Hterms Hfee Hm.
  assert (accounts_ok c') as Hacc'.
  { eapply put_commitment_accounts; [|apply lookup_insert_eq|done].
    apply put_request_accounts; [done|]. by apply (account_ok_pending _ _ r); [apply Hacc|..]. }
  split; [done|].
  assert (requests c' !! id = Some r') as Hr' by apply lookup_insert_eq.
  pose proof (total_owed_both c id s m r') as Ht. rewrite (owed_at_lookup _ _ _ Hr) in Ht.
  fold c' in Ht. rewrite (owed_if_unclaimed c id r) in Ht
    by (intros P; apply (unclaimed _ _ r); [by apply Hacc|by left]).
  rewrite (owed_if_unclaimed c' id r') in Ht
    by (intros P; apply (unclaimed _ _ r'); [by apply Hacc'|by left]).
  rewrite (owed_pending c block id r) in Ht by (by eauto using contract_ok_request).
  rewrite (owed_pending c' block id r') in Ht by (by eauto using contract_ok_request).
  rewrite Hterms, Hfee in Ht. lia.
Qed.

Lemma commit_account c s id hash block c' event r :
  contract_ok c block → accounts_ok c → requests c !! id = Some r →
  commit c s id hash block = Ok (c', event) →
  accounts_ok c' ∧ total_owed c' = total_owed c + bondTarget (terms r).
Proof.
  intros Hok Hacc Hr H. pose proof (commit_preserves _ _ _ _ _ _ _ Hok H) as Hok'.
  apply commit_Ok in H as (r0 & Hr0 & Hs & _ & _ & -> & _). rewrite Hr in Hr0. injection Hr0 as <-.
  destruct (voting_account _ _ _ _ _ r _ Hok Hok' Hacc Hr Hs) as [? Ht]; [done..|].
  split; [done|]. simpl in Ht. lia.
Qed.

(** A commitment whose hash is zero reads as none: its sentinel may commit again,
    and pays another bond for the vote it already has. *)
Lemma zero_commitment_repeats c s id hash block r m :
  contract_ok c block → accounts_ok c → requests c !! id = Some r →
  state (progress r) = PENDING → block ≤ commitDeadline (terms r) →
  committedCount (progress r) + 1 < u16_modulus →
  commitments c !! (id, s) = Some m → commitHash m = 0 → vote m = VPending →
  ∃ c' event, commit c s id hash block = Ok (c', event) ∧
    total_owed c' = total_owed c + bondTarget (terms r) ∧
    tally c' id is_vote = tally c id is_vote.
Proof.
  intros Hok Hacc Hr Hs Hb Hw Hm Hh Hv.
  assert (commitment c id s = m) as Hc by (unfold commitment; by rewrite Hm).
  destruct (commit_accepted c block s id hash r) as [c' H]; [done..|by rewrite Hc|].
  exists c', (EvCommitted (Committed.mk id s (bondTarget (terms r)))). split; [done|].
  destruct (commit_account _ _ _ _ _ _ _ _ Hok Hacc Hr H) as [_ Ht]. split; [done|].
  apply commit_Ok in H as (r0 & Hr0 & _ & _ & _ & -> & _).
  match goal with |- tally (put_commitment id s ?m' ?c0) _ _ = _ =>
    pose proof (tally_put_same c0 id s m' is_vote eq_refl) as Hput end.
  rewrite tally_request in Hput. unfold commitment in Hput. simpl in Hput.
  rewrite Hm in Hput. simpl in Hput. rewrite Hv in Hput. simpl in Hput. lia.
Qed.

Lemma reveal_account c s id approve salt reason block c' event :
  contract_ok c block → accounts_ok c →
  reveal c s id approve salt reason block = Ok (c', event) →
  accounts_ok c' ∧ total_owed c' = total_owed c.
Proof.
  intros Hok Hacc H. pose proof (reveal_preserves _ _ _ _ _ _ _ _ _ Hok H) as Hok'.
  apply reveal_Ok in H as (r & m & Hr & Hs & _ & _ & Hm & _ & _ & -> & _).
  assert (claimed m = false) as Hclaimed.
  { eapply account_unclaimed; [by apply Hacc|by left|done]. }
  destruct (voting_account _ _ _ _ _ r _ Hok Hok' Hacc Hr Hs) as [? Ht]; [done..|].
  split; [done|]. simpl in Ht. lia.
Qed.

(** A request that takes an outcome. *)
Lemma outcome_account c id r outcome left deadline :
  let r' := with_outcome outcome left deadline r in
  accounts_ok c → requests c !! id = Some r →
  state (progress r) = PENDING ∨ state (progress r) = FROZEN →
  resolved outcome ∨ (outcome = FROZEN ∧ left = fee (progress r) ∧
    0 < approveSentinelCount (progress r) ∧ 0 < denySentinelCount (progress r)) →
  accounts_ok (put_request id r' c) ∧
  total_owed (put_request id r' c) + owed_unclaimed r = total_owed c + owed_unclaimed r'.
Proof.
  intros r' Hacc Hr Hs Ho. pose proof (Hacc id r Hr) as Hr0. split.
  - apply put_request_accounts; [done|].
    destruct Ho as [Ho|(-> & -> & Hsides)]; [by apply (account_ok_resolved _ _ r)|].
    destruct Hr0. split; simpl; eauto.
  - pose proof (total_owed_request c id r') as Ht. rewrite (owed_at_lookup _ _ _ Hr) in Ht.
    assert (∀ P, claims c id P = 0) as Hc by (intros P; by apply (unclaimed _ _ r)).
    by rewrite (owed_if_unclaimed c id r), (owed_if_unclaimed c id r') in Ht.
Qed.

(** Slashed bonds leave the rest of the bonds. *)
Lemma slashed_rest n bond slash : slash ≤ bond → n * (bond - slash) + n * slash = n * bond.
Proof. intros Hle. rewrite <-N.mul_add_distr_l. f_equal. lia. Qed.

Lemma shared_fee n bond left : n * (bond + left / n) ≤ n * bond + left.
Proof.
  rewrite N.mul_add_distr_l. apply N.add_le_mono_l. apply N.Div0.mul_div_le.
Qed.

(** What an outcome leaves owed; [established]: some sentinel revealed. *)
Definition established (r : OracleRequest) : bool :=
  bool_decide (0 < approveSentinelCount (progress r)) ||
  bool_decide (0 < denySentinelCount (progress r)).

Lemma owed_after c block id r outcome left deadline :
  let p := progress r in let t := terms r in
  request_ok c block id r →
  (outcome = RESOLVED_APPROVED ∨ outcome = RESOLVED_DENIED ∨ outcome = TIMED_OUT ∨
   outcome = FROZEN) →
  let unrevealed := if established r then committedCount p - revealedCount p else 0 in
  let losers := if decide (approveSentinelCount p ≠ 0 ∧ denySentinelCount p ≠ 0) then
      match outcome with
      | RESOLVED_APPROVED => denySentinelCount p
      | RESOLVED_DENIED => approveSentinelCount p
      | _ => 0
      end else 0 in
  owed_unclaimed (with_outcome outcome left deadline r) +
  (unrevealed + losers) * slashAmount t ≤
  committedCount p * bondTarget t + match outcome with TIMED_OUT => 0 | _ => left end.
Proof.
  intros p t Hok Ho unrevealed losers.
  destruct (request_stake _ _ _ _ Hok) as (_ & Hslash & _).
  pose proof (request_reveals_le _ _ _ _ Hok) as Hle.
  pose proof (request_reveals _ _ _ _ Hok) as Hsum.
  pose proof (shared_fee (approveSentinelCount p) (bondTarget t) left) as Ha.
  pose proof (shared_fee (denySentinelCount p) (bondTarget t) left) as Hd.
  pose proof (slashed_rest (committedCount p - revealedCount p) _ _ Hslash) as Hu.
  pose proof (slashed_rest (approveSentinelCount p) _ _ Hslash) as Ha'.
  pose proof (slashed_rest (denySentinelCount p) _ _ Hslash) as Hd'.
  assert (committedCount p * bondTarget t = (committedCount p - revealedCount p) * bondTarget t +
    approveSentinelCount p * bondTarget t + denySentinelCount p * bondTarget t) as ->.
  { rewrite <-!N.mul_add_distr_r. f_equal. unfold p. lia. }
  rewrite N.mul_add_distr_r. unfold owed_unclaimed, pot, worth, share_of_fee, slashAmountFor.
  subst losers unrevealed. unfold established. fold p t in Hle, Hsum, Hu, Ha', Hd' |- *.
  destruct Ho as [->|[->|[->| ->]]]; simpl; fold p t;
    repeat (case_bool_decide || case_decide); simpl in *; rewrite ?N.sub_0_r, ?N.add_0_r; try lia.
Qed.

Lemma request_at_lookup c id r : requests c !! id = Some r → request_at c id = r.
Proof. unfold request_at. by intros ->. Qed.

Lemma request_at_put c id r : request_at (put_request id r c) id = r.
Proof. apply request_at_lookup, lookup_insert_eq. Qed.

(** What finalizing pays beside the unrevealed bonds. *)
Definition split_off (r : OracleRequest) (outcome : RequestState) : N :=
  match outcome with FROZEN => 0 | TIMED_OUT => fee (progress r) | _ => daoCutOf r end.

Lemma fee_splits c block id r outcome :
  request_ok c block id r → resolved outcome ∨ outcome = FROZEN →
  fee_left r outcome + split_off r outcome = fee (progress r).
Proof.
  intros Hok Ho. destruct (request_stake _ _ _ _ Hok) as (_ & _ & Hshare).
  pose proof (daoCut_le (terms r) (fee (progress r)) Hshare) as Hle.
  unfold fee_left, split_off, daoCutOf. destruct Ho as [[->|[->| ->]]| ->]; lia.
Qed.

Lemma finalize_account c A id block c' event :
  contract_ok c block → accounts_ok c → finalize c A id block = Ok (c', event) →
  let r := request_at c id in let r' := request_at c' id in
  accounts_ok c' ∧
  total_owed c' + (unrevealedBond r r' + split_off r (state (progress r'))) ≤ total_owed c.
Proof.
  intros Hok Hacc H.
  apply finalize_Ok in H as (r & outcome & deadline & Hr & Hs & Hf & -> & Ho).
  rewrite (request_at_lookup _ _ _ Hr), request_at_put. simpl.
  pose proof (contract_ok_request _ _ _ _ Hok Hr) as Hreq.
  assert (resolved outcome ∨ (outcome = FROZEN ∧ fee_left r outcome = fee (progress r) ∧
    0 < approveSentinelCount (progress r) ∧ 0 < denySentinelCount (progress r))) as Hcase.
  { unfold resolved. destruct Ho as [(-> & ? & ? & _)|[(-> & _)|([] & -> & _)]]; auto. }
  destruct (outcome_account c id r outcome (fee_left r outcome) deadline Hacc Hr) as [Hacc' Ht];
    [by left|done|]. split; [done|].
  pose proof (fee_splits _ _ _ _ outcome Hreq ltac:(naive_solver)) as Hfee.
  rewrite (owed_pending _ _ _ _ Hreq Hs) in Ht.
  pose proof (owed_after _ _ _ _ outcome (fee_left r outcome) deadline Hreq
    ltac:(destruct Hcase as [[->|[->| ->]]|[-> _]]; auto)) as Hle. simpl in Hle.
  unfold unrevealedBond. simpl.
  pose proof (N.Div0.mod_le ((committedCount (progress r) - revealedCount (progress r)) *
    slashAmount (terms r)) (2 ^ 128)) as Hmod.
  unfold established in Hle.
  destruct Ho as [(-> & Ha & Hd & _)|[(-> & Ha & Hd & _)|([] & -> & [Ha Hd] & _)]]; simpl in *;
    repeat (case_bool_decide || case_decide); simpl in *; lia.
Qed.

Lemma frozen_case c id r :
  accounts_ok c → requests c !! id = Some r → state (progress r) = FROZEN →
  owed_unclaimed r = fee (progress r) +
    (committedCount (progress r) - revealedCount (progress r)) *
      (bondTarget (terms r) - slashAmount (terms r)) +
    (approveSentinelCount (progress r) + denySentinelCount (progress r)) * bondTarget (terms r).
Proof.
  intros Hacc Hr Hs. destruct (account_frozen _ _ _ (Hacc _ _ Hr) Hs) as [Ha Hd].
  unfold owed_unclaimed, pot, worth, share_of_fee, slashAmountFor. rewrite Hs. simpl.
  rewrite !N.sub_0_r, !N.add_0_r, N.mul_add_distr_r.
  repeat case_bool_decide; simpl; lia.
Qed.

(** A frozen request is resolved, with its losing side slashed or without. *)
Lemma frozen_account c block id r outcome deadline :
  let r' := with_outcome outcome (fee_left r outcome) deadline r in
  contract_ok c block → accounts_ok c → requests c !! id = Some r →
  state (progress r) = FROZEN → resolved outcome →
  accounts_ok (put_request id r' c) ∧
  total_owed (put_request id r' c) + (match outcome with
    | RESOLVED_APPROVED => losing_slash r true
    | RESOLVED_DENIED => losing_slash r false
    | _ => 0 end + split_off r outcome) ≤ total_owed c.
Proof.
  intros r' Hok Hacc Hr Hs Ho. pose proof (contract_ok_request _ _ _ _ Hok Hr) as Hreq.
  destruct (outcome_account c id r outcome (fee_left r outcome) deadline Hacc Hr) as [Hacc' Ht];
    [by right|by left|]. split; [done|].
  pose proof (fee_splits _ _ _ _ outcome Hreq ltac:(by left)) as Hfee.
  pose proof (owed_after _ _ _ _ outcome (fee_left r outcome) deadline Hreq
    ltac:(destruct Ho as [->|[->| ->]]; auto)) as Hle. simpl in Hle.
  rewrite (frozen_case _ _ _ Hacc Hr Hs) in Ht. fold r' in Ht, Hle.
  destruct (account_frozen _ _ _ (Hacc _ _ Hr) Hs) as [Ha Hd].
  destruct (request_stake _ _ _ _ Hreq) as (_ & Hslash & _).
  pose proof (request_reveals_le _ _ _ _ Hreq) as Hc.
  pose proof (request_reveals _ _ _ _ Hreq) as Hsum.
  pose proof (slashed_rest (committedCount (progress r) - revealedCount (progress r)) _ _ Hslash)
    as Hrest.
  assert (committedCount (progress r) * bondTarget (terms r) =
    (committedCount (progress r) - revealedCount (progress r)) * bondTarget (terms r) +
    (approveSentinelCount (progress r) + denySentinelCount (progress r)) * bondTarget (terms r))
    as Hall by (rewrite <-N.mul_add_distr_r; f_equal; lia).
  unfold established, losing_slash in *. rewrite decide_True in Hle by lia.
  rewrite !bool_decide_true, N.mul_add_distr_r in Hle by done. simpl in Hle.
  destruct Ho as [->|[->| ->]]; simpl in *; lia.
Qed.

Lemma resolveDispute_account c id approveWins context block c' event :
  contract_ok c block → accounts_ok c →
  resolveDispute c id approveWins context = Ok (c', event) →
  let r := request_at c id in
  accounts_ok c' ∧ fee (progress r) ≤ losing_slash r approveWins ∧
  total_owed c' + (losing_slash r approveWins + daoCutOf r) ≤ total_owed c.
Proof.
  intros Hok Hacc H. apply resolveDispute_Ok in H as (r & Hr & Hs & -> & _).
  rewrite (request_at_lookup _ _ _ Hr). set (outcome := if approveWins then _ else _).
  destruct (frozen_account c block id r outcome (arbitrationDeadline (progress r)) Hok Hacc Hr Hs)
    as [Hacc' Ht]; [unfold resolved, outcome; destruct approveWins; auto|].
  split_and!; [done| |by destruct approveWins].
  destruct (account_frozen _ _ _ (Hacc _ _ Hr) Hs) as [Ha Hd].
  pose proof (account_fee _ _ _ (Hacc _ _ Hr) ltac:(by right)) as Hfee.
  etrans; [done|]. unfold losing_slash. rewrite <-(N.mul_1_l (slashAmount _)) at 1.
  apply N.mul_le_mono_r. destruct approveWins; lia.
Qed.

Lemma outOfScope_account c block id r :
  contract_ok c block → accounts_ok c → requests c !! id = Some r →
  state (progress r) = FROZEN →
  let c' := put_request id (with_outcome TIMED_OUT 0 (arbitrationDeadline (progress r)) r) c in
  accounts_ok c' ∧ total_owed c' + fee (progress r) ≤ total_owed c.
Proof.
  intros Hok Hacc Hr Hs.
  apply (frozen_account c block id r TIMED_OUT (arbitrationDeadline (progress r)) Hok Hacc Hr Hs).
  by right; right.
Qed.

(** Claims are no more than the commitments they are of. *)
Lemma claims_bounded c block id r :
  request_ok c block id r →
  claims c id is_pending ≤ committedCount (progress r) - revealedCount (progress r) ∧
  claims c id is_approval ≤ approveSentinelCount (progress r) ∧
  claims c id is_denial ≤ denySentinelCount (progress r).
Proof.
  intros []. pose proof (tally_split c id is_vote is_revealed is_pending ltac:(by intros [])).
  pose proof (tally_split c id is_revealed is_approval is_denial ltac:(by intros [])).
  pose proof (claims_le c id is_pending). pose proof (claims_le c id is_approval).
  pose proof (claims_le c id is_denial). split_and!; lia.
Qed.

Lemma claims_put c id s m m' P :
  commitments c !! (id, s) = Some m → claimed m = false → claimed m' = true → vote m' = vote m →
  claims (put_commitment id s m' c) id P = claims c id P + weigh (P (vote m)).
Proof.
  intros Hm Hc Hc' Hv. pose proof (among_put_same c id s m' (λ m, claimed m && P (vote m)) eq_refl)
    as Ht. unfold commitment in Ht. rewrite Hm in Ht. simpl in Ht.
  rewrite Hc, Hc', Hv in Ht. simpl in Ht. unfold claims. lia.
Qed.

Lemma worth_resolved r v reward :
  resolved (state (progress r)) → calcFeeReward r (state (progress r)) v = Ok reward →
  worth r v = bondTarget (terms r) - slashAmountFor r (state (progress r)) v + reward.
Proof.
  intros Hs. unfold calcFeeReward, worth, share_of_fee.
  destruct Hs as [->|[->| ->]]; destruct v; simpl; try case_decide; naive_solver.
Qed.

(** A frozen request that is declined or times out still costs the sentinels that
    did not reveal. *)
Lemma timed_out_silent r :
  state (progress r) = TIMED_OUT → established r = true →
  worth r VPending = bondTarget (terms r) - slashAmount (terms r).
Proof.
  intros Hs He. unfold worth, slashAmountFor, share_of_fee. rewrite Hs.
  unfold established in He. rewrite He. apply N.add_0_r.
Qed.

Lemma claimed_off n u k w : u + k ≤ n → (n - u) * w = (n - (u + k)) * w + k * w.
Proof. intros Hle. rewrite <-N.mul_add_distr_r. f_equal. lia. Qed.

Lemma claim_ledger c s id block c' event :
  contract_ok c block → accounts_ok c → claim c s id = Ok (c', event) →
  ∃ bondReturn feeReward, event = EvClaimed (Claimed.mk id s bondReturn feeReward) ∧
    accounts_ok c' ∧ total_owed c' + (bondReturn + feeReward) = total_owed c.
Proof.
  intros Hok Hacc H. pose proof (claim_preserves _ _ _ _ _ _ Hok H) as Hok'.
  apply claim_Ok in H as (r & m & reward & Hr & Hs & Hm & Hc & Hreward & _ & -> & ->).
  set (m' := Build_Commitment _ _ _ _) in *. set (c' := put_commitment id s m' c) in *.
  pose proof (contract_ok_request _ _ _ _ Hok Hr) as Hreq.
  destruct (request_votes _ _ _ _ Hreq _ _ Hm) as [Hv ->]. do 2 eexists. split; [done|]. split.
  { eapply put_commitment_accounts; [done..|]. intros [Hs'|Hs'];
      unfold resolved in Hs; rewrite Hs' in Hs; naive_solver. }
  rewrite <-(worth_resolved r (vote m) reward) by done.
  pose proof (total_owed_change c c' id r) as Ht. rewrite (owed_at_lookup _ _ _ Hr) in Ht.
  specialize (Ht ltac:(by rewrite insert_id)
    ltac:(intros id' Q Hne HQ; by apply among_put_other)).
  destruct (claims_bounded c' block id r) as (Hp & Ha & Hd); [by eapply contract_ok_request|].
  assert (∀ P, claims c' id P = claims c id P + weigh (P (vote m))) as Hput
    by (intros P; by apply claims_put).
  unfold owed in Ht. rewrite (Hput is_pending) in Hp, Ht. rewrite (Hput is_approval) in Ha, Ht.
  rewrite (Hput is_denial) in Hd, Ht.
  apply (claimed_off _ _ _ (worth r VPending)) in Hp.
  apply (claimed_off _ _ _ (worth r VApproved)) in Ha.
  apply (claimed_off _ _ _ (worth r VDenied)) in Hd.
  destruct (vote m); [done|cbn [is_pending is_approval is_denial weigh] in *; lia..].
Qed.
End calls.

(** ** The token *)

Section treasury.
Context {AL : Alloy} {FT : FeeToken}.
Context (this : Address) (params : ConstructorParams.t).

(** What an ERC-20 token promises: a transfer of tokens that are there is made, to
    anyone but the zero address, and moves what it says. *)
Record token_laws : Prop := {
  transfer_made t to x : to ≠ 0 → x ≤ balanceOf t this → is_Some (safeTransfer this to x t);
  transfer_moves t to x t' : safeTransfer this to x t = Some t' →
    balanceOf t this ≤ balanceOf t' this + x ∧
    (to ≠ this → balanceOf t' to = balanceOf t to + x);
  transfer_from_moves t from x t' : safeTransferFrom this from this x t = Some t' →
    from ≠ 0 ∧ balanceOf t' this = balanceOf t this + x;
}.

Context (laws : token_laws).

(** A payment of [x] to [to]. *)
Definition pays (to : Address) (x : N) (o o' : SentinelOracle) : Prop :=
  ∃ t, o' = with_token t o ∧ balanceOf (token o) this ≤ balanceOf t this + x ∧
    (to ≠ this → balanceOf t to = balanceOf (token o) to + x).

Lemma pay_Ok to x o o' : pay this to x o = Ok o' → pays to x o o'.
Proof.
  intros H. unfold pay in H. destruct (safeTransfer this to x (token o)) as [t|] eqn:Ht; [|done].
  simplify_eq/=. exists t. by destruct (transfer_moves laws _ _ _ _ Ht).
Qed.

Lemma pay_positive_Ok to x o o' : pay_positive this to x o = Ok o' → pays to x o o'.
Proof.
  unfold pay_positive. case_decide as Hx; [apply pay_Ok|]. intros [= <-].
  exists (token o). replace x with 0 by lia. rewrite !N.add_0_r. by destruct o.
Qed.

Lemma collect_Ok from x o o' :
  collect this from x o = Ok o' →
  from ≠ 0 ∧ ∃ t, o' = with_token t o ∧ balanceOf t this = balanceOf (token o) this + x.
Proof.
  intros H. unfold collect in H.
  destruct (safeTransferFrom this from this x (token o)) as [t|] eqn:Ht; [|done].
  simplify_eq/=. destruct (transfer_from_moves laws _ _ _ _ Ht). eauto.
Qed.

Lemma pay_made to x o :
  to ≠ 0 → x ≤ balanceOf (token o) this → ∃ o', pay this to x o = Ok o' ∧ pays to x o o'.
Proof.
  intros Hto Hx. destruct (transfer_made laws (token o) to x Hto Hx) as [t Ht].
  assert (pay this to x o = Ok (with_token t o)) as Hpay by (unfold pay; by rewrite Ht).
  exists (with_token t o). split; [done|by apply pay_Ok].
Qed.

Lemma pay_positive_made to x o :
  to ≠ 0 → x ≤ balanceOf (token o) this → ∃ o', pay_positive this to x o = Ok o' ∧ pays to x o o'.
Proof.
  intros Hto Hx. destruct (decide (0 < x)) as [Hp|Hp].
  - destruct (pay_made to x o Hto Hx) as (o' & Hpay & ?). exists o'. split; [|done].
    unfold pay_positive. by rewrite decide_True.
  - exists o. assert (pay_positive this to x o = Ok o) as Hpay
      by (unfold pay_positive; by rewrite decide_False).
    split; [done|by apply pay_positive_Ok].
Qed.

(** ** The governed parameters stay in their bounds *)

Definition delayed_ok (P : N → Prop) (d : Delayed.t) : Prop :=
  P (Delayed.value d) ∧ (Delayed.pendingActiveAt d ≠ 0 → P (Delayed.pendingValue d)).

Definition multipliers_ok (bond slashing : N) : Prop := 0 < bond ∧ 0 < slashing ∧ slashing ≤ bond.
Definition bonds_ok (b : BondConfig.t) : Prop :=
  multipliers_ok (BondConfig.bondMultiplier b) (BondConfig.slashingMultiplier b) ∧
  (BondConfig.pendingActiveAt b ≠ 0 →
   multipliers_ok (BondConfig.pendingBondMultiplier b) (BondConfig.pendingSlashingMultiplier b)).

Record governed_ok (o : SentinelOracle) : Prop := {
  governed_fee : delayed_ok (λ v, 0 < v) (feeConfig o);
  governed_bonds : bonds_ok (bondConfig o);
  governed_share : delayed_ok (λ v, v ≤ FEE_SHARE_DENOMINATOR) (daoFeeShareConfig o);
  governed_receiver : delayed_ok (λ v, v ≠ 0) (protocolFundsReceiverConfig o);
}.

Lemma applyPending_ok P d block :
  delayed_ok P d →
  P (Delayed.applyPending d block).1 ∧ delayed_ok P (Delayed.applyPending d block).2.
Proof. intros [Hv Hp]. unfold Delayed.applyPending. case_decide; [done|]. split; simpl; [|split]; tauto. Qed.

Lemma schedule_ok P d v delay block d' :
  delayed_ok P d → P v → Delayed.schedule d v delay block = Ok d' → delayed_ok P d'.
Proof.
  intros Hd Hv H. unfold Delayed.schedule in H.
  pose proof (applyPending_ok P d block Hd) as [_ [Hval _]].
  destruct (Delayed.applyPending d block) as [? d1]. succeeded H. by simplify_eq/=.
Qed.

Lemma bonds_applyPending_ok b block :
  bonds_ok b →
  let '(bond, slashing, b') := BondConfig.applyPending b block in
  multipliers_ok bond slashing ∧ bonds_ok b'.
Proof.
  intros [Hv Hp]. unfold BondConfig.applyPending. case_decide; [done|].
  split; [|split]; simpl; tauto.
Qed.

Lemma bonds_schedule_ok b bond slashing delay block b' :
  bonds_ok b → BondConfig.schedule b bond slashing delay block = Ok b' → bonds_ok b'.
Proof.
  intros Hb H. unfold BondConfig.schedule in H. succeeded H.
  pose proof (bonds_applyPending_ok b block Hb) as Hok.
  destruct (BondConfig.applyPending b block) as [[? ?] b1]. destruct Hok as [_ [Hok _]].
  succeeded H. simplify_eq/=. split; simpl; [done|]. intros _. split; tauto.
Qed.

(** ** The invariant of the contract *)

Record sound (o : SentinelOracle) (block : N) : Prop := {
  sound_book : contract_ok (book o) block;
  sound_accounts : accounts_ok (book o);
  sound_governed : governed_ok o;
}.

(** The tokens cover what is owed, and a payment to come. *)
Definition covers (o : SentinelOracle) (due : N) : Prop :=
  total_owed (book o) + due ≤ balanceOf (token o) this.

Definition treasury_ok (o : SentinelOracle) (block : N) : Prop := sound o block ∧ covers o 0.

Lemma sound_with_token o t block : sound o block → sound (with_token t o) block.
Proof. by intros [? ? []]. Qed.

Lemma sound_with_book o c block :
  sound o block → contract_ok c block → accounts_ok c → sound (with_book c o) block.
Proof. by intros [_ _ []]. Qed.

Lemma pays_keeps to x y o o' block :
  pays to x o o' → sound o block → covers o (x + y) → sound o' block ∧ covers o' y.
Proof.
  intros (t & -> & Ht & _) Hs Hc. split; [by apply sound_with_token|].
  unfold covers in *. simpl. lia.
Qed.

(** Due parameters are applied. *)
Lemma receiver_applied o block :
  sound o block →
  let '(receiver, d) := Delayed.applyPending (protocolFundsReceiverConfig o) block in
  receiver ≠ 0 ∧ sound (with_receiver d o) block.
Proof.
  intros [Hb Ha []].
  pose proof (applyPending_ok _ _ block governed_receiver0) as [Hr Hd].
  by destruct (Delayed.applyPending _ _).
Qed.

Lemma govern_preserves o caller block call o' :
  treasury_ok o block → govern params o caller block call = Ok o' → treasury_ok o' block.
Proof.
  intros [[Hb Ha []] Hc] H. destruct call; simpl in H; succeeded H; simplify_eq/=;
    (split; [split; [done|done|split; simpl; try done]|done]);
    try (eapply schedule_ok; [| |done]; done);
    try (by eapply bonds_schedule_ok); try (by apply applyPending_ok).
  pose proof (bonds_applyPending_ok _ block governed_bonds0) as Hbonds.
  by destruct (BondConfig.applyPending _ _) as [[? ?] ?], Hbonds.
Qed.

Lemma treasury_postRequest_preserves o caller block id s o' event :
  treasury_ok o block →
  treasury_postRequest this params o caller block id s = Ok (o', event) → treasury_ok o' block.
Proof.
  intros [[Hb Ha []] Hc] H. unfold treasury_postRequest in H. succeeded H.
  pose proof (applyPending_ok _ _ block governed_fee0) as [Hfee Hfees].
  pose proof (bonds_applyPending_ok _ block governed_bonds0) as Hbonds.
  pose proof (applyPending_ok _ _ block governed_share0) as [Hshare Hshares].
  destruct (Delayed.applyPending (feeConfig o) block) as [currentFee fees].
  destruct (BondConfig.applyPending _ block) as [[bond slashing] bonds].
  destruct (Delayed.applyPending (daoFeeShareConfig o) block) as [share shares].
  destruct Hbonds as [(Hbond & Hslash & Hle) Hbonds]. simpl in *.
  succeeded H. destruct x as [c event']. succeeded H. simplify_eq.
  apply collect_Ok in Hx1 as (Hs & t & -> & Ht). simpl in Ht.
  set (config := Build_OracleConfig _ _ _ _ _ _) in Hx0.
  assert (config_ok config) as Hconfig by done.
  pose proof (postRequest_preserves _ _ _ _ _ _ _ Hb Hconfig Hx0) as Hb'.
  destruct (postRequest_account _ config _ _ _ _ _ Hb Ha Hslash Hs Hx0) as [Ha' Htotal].
  split; [by split|]. unfold covers in *. simpl in *. lia.
Qed.

Lemma treasury_commit_preserves o caller block id hash o' event :
  treasury_ok o block →
  treasury_commit this o caller block id hash = Ok (o', event) → treasury_ok o' block.
Proof.
  intros [Hs Hc] H. unfold treasury_commit in H. succeeded H. destruct x as [c event'].
  succeeded H. simplify_eq. apply collect_Ok in Hx1 as (_ & t & -> & Ht). simpl in Ht.
  pose proof (commit_preserves _ _ _ _ _ _ _ (sound_book _ _ Hs) Hx0) as Hb'.
  pose proof Hx0 as (r & Hr & _)%commit_Ok.
  destruct (commit_account _ _ _ _ _ _ _ r (sound_book _ _ Hs) (sound_accounts _ _ Hs) Hr Hx0)
    as [Ha' Htotal].
  rewrite (request_at_lookup _ _ _ Hr) in Ht.
  split; [by apply sound_with_token, sound_with_book|]. unfold covers in *. simpl in *. lia.
Qed.

Lemma treasury_reveal_preserves o caller block id approve salt reason o' event :
  treasury_ok o block →
  treasury_reveal o caller block id approve salt reason = Ok (o', event) → treasury_ok o' block.
Proof.
  intros [Hs Hc] H. unfold treasury_reveal in H. succeeded H. destruct x as [c event'].
  simplify_eq.
  pose proof (reveal_preserves _ _ _ _ _ _ _ _ _ (sound_book _ _ Hs) Hx) as Hb'.
  destruct (reveal_account _ _ _ _ _ _ _ _ _ (sound_book _ _ Hs) (sound_accounts _ _ Hs) Hx)
    as [Ha' Htotal].
  split; [by apply sound_with_book|]. unfold covers in *. simpl. by rewrite Htotal.
Qed.

(** ** Calls that pay *)

Lemma pays_nothing to o : pays to 0 o o.
Proof. exists (token o). rewrite !N.add_0_r. by destruct o. Qed.

(** What finalizing pays last. *)
Abbreviation second_payment r r' receiver o :=
  (match state (progress r') with
   | FROZEN => Ok o
   | TIMED_OUT => pay this (sponsor (terms r)) (refundFee r r') o
   | _ => pay_positive this receiver (daoCutOf r) o
   end).

Lemma second_payment_Ok r r' receiver o o' :
  second_payment r r' receiver o = Ok o' →
  ∃ to, pays to (split_off r (state (progress r'))) o o'.
Proof.
  unfold refundFee. destruct (state (progress r')); simpl; intros H;
    first [ by apply pay_positive_Ok in H; eauto | by apply pay_Ok in H; eauto
          | injection H as <-; exists 0; apply pays_nothing ].
Qed.

Lemma second_payment_made r r' receiver o :
  sponsor (terms r) ≠ 0 → receiver ≠ 0 →
  split_off r (state (progress r')) ≤ balanceOf (token o) this →
  ∃ o', second_payment r r' receiver o = Ok o'.
Proof.
  intros Hs Hr Hx. unfold refundFee. destruct (state (progress r')); simpl in *;
    first [ by destruct (pay_positive_made receiver (daoCutOf r) o Hr Hx) as (? & ? & _); eauto
          | by destruct (pay_made (sponsor (terms r)) (fee (progress r)) o Hs Hx) as (? & ? & _);
              eauto
          | by eexists ].
Qed.

(** The book after a finalization, and what is due of it. *)
Lemma finalize_due o block id c event :
  treasury_ok o block →
  finalize (book o) (ConstructorParams.arbitrationTimeout params) id block = Ok (c, event) →
  let r := request_at (book o) id in let r' := request_at c id in
  sponsor (terms r) ≠ 0 ∧ sound (with_book c o) block ∧
  covers (with_book c o) (unrevealedBond r r' + (split_off r (state (progress r')) + 0)).
Proof.
  intros [Hs Hc] H. pose proof (finalize_preserves _ _ _ _ _ _ (sound_book _ _ Hs) H) as Hb'.
  destruct (finalize_account _ _ _ _ _ _ (sound_book _ _ Hs) (sound_accounts _ _ Hs) H)
    as [Ha' Htotal].
  apply finalize_Ok in H as (r & ? & ? & Hr & _).
  split_and!; [|by apply sound_with_book|unfold covers in *; simpl in *; lia].
  rewrite (request_at_lookup _ _ _ Hr). apply (account_sponsor _ _ _ (sound_accounts _ _ Hs _ _ Hr)).
Qed.

Lemma treasury_finalize_preserves o block id o' event :
  treasury_ok o block →
  treasury_finalize this params o block id = Ok (o', event) → treasury_ok o' block.
Proof.
  intros Hok H. unfold treasury_finalize in H. succeeded H. destruct x as [c event'].
  destruct (finalize_due _ _ _ _ _ Hok Hx) as (_ & Hs & Hc).
  pose proof (receiver_applied _ _ Hs) as Hrec. simpl in Hrec.
  destruct (Delayed.applyPending _ _) as [receiver receivers]. destruct Hrec as [_ Hs1].
  succeeded H. simplify_eq. apply pay_positive_Ok in Hx0.
  apply second_payment_Ok in Hx1 as [to Hx1].
  destruct (pays_keeps _ _ _ _ _ _ Hx0 Hs1 Hc) as [Hs2 Hc2].
  apply (pays_keeps _ _ _ _ _ _ Hx1 Hs2 Hc2).
Qed.

Lemma treasury_finalize_made o block id c event :
  treasury_ok o block →
  finalize (book o) (ConstructorParams.arbitrationTimeout params) id block = Ok (c, event) →
  ∃ o', treasury_finalize this params o block id = Ok (o', Some event).
Proof.
  intros Hok H. destruct (finalize_due _ _ _ _ _ Hok H) as (Hsponsor & Hs & Hc).
  unfold treasury_finalize. rewrite H. simpl.
  pose proof (receiver_applied _ _ Hs) as Hrec. simpl in Hrec.
  destruct (Delayed.applyPending _ _) as [receiver receivers]. destruct Hrec as [Hr Hs1].
  destruct (pay_positive_made receiver (unrevealedBond (request_at (book o) id) (request_at c id))
    (with_receiver receivers (with_book c o)) Hr) as (o1 & -> & Hpay).
  { unfold covers in Hc. simpl in *. lia. }
  destruct (pays_keeps _ _ _ _ _ _ Hpay Hs1 Hc) as [Hs2 Hc2].
  destruct (second_payment_made (request_at (book o) id) (request_at c id) receiver o1) as [o2 Ho2];
    [done|done|unfold covers in Hc2; lia|].
  simpl. rewrite Ho2. by eexists.
Qed.

(** Claims. *)
Lemma claim_due o block s id c event :
  treasury_ok o block → claim (book o) s id = Ok (c, event) →
  ∃ bondReturn feeReward, event = EvClaimed (Claimed.mk id s bondReturn feeReward) ∧
    sound (with_book c o) block ∧ covers (with_book c o) (bondReturn + feeReward + 0).
Proof.
  intros [Hs Hc] H. pose proof (claim_preserves _ _ _ _ _ _ (sound_book _ _ Hs) H) as Hb'.
  destruct (claim_ledger _ _ _ _ _ _ (sound_book _ _ Hs) (sound_accounts _ _ Hs) H)
    as (bondReturn & feeReward & -> & Ha' & Htotal).
  exists bondReturn, feeReward. split_and!; [done|by apply sound_with_book|].
  unfold covers in *. simpl. lia.
Qed.

Lemma treasury_claim_preserves o block s id o' event :
  treasury_ok o block → treasury_claim this o s id = Ok (o', event) → treasury_ok o' block.
Proof.
  intros Hok H. unfold treasury_claim in H. succeeded H. destruct x as [c event'].
  destruct (claim_due _ _ _ _ _ _ Hok Hx) as (b & f & -> & Hs & Hc). succeeded H. simplify_eq.
  apply pay_positive_Ok in Hx0. apply (pays_keeps _ _ _ _ _ _ Hx0 Hs Hc).
Qed.

Lemma treasury_claim_made o block s id c event :
  treasury_ok o block → s ≠ 0 → claim (book o) s id = Ok (c, event) →
  ∃ o' bondReturn feeReward, event = EvClaimed (Claimed.mk id s bondReturn feeReward) ∧
    treasury_claim this o s id = Ok (o', Some event) ∧
    pays s (bondReturn + feeReward) (with_book c o) o'.
Proof.
  intros Hok Hne H. destruct (claim_due _ _ _ _ _ _ Hok H) as (b & f & -> & Hs & Hc).
  unfold treasury_claim. rewrite H. simpl.
  destruct (pay_positive_made s (b + f) (with_book c o) Hne) as (o' & -> & Hpay).
  { unfold covers in Hc. simpl in *. lia. }
  by exists o', b, f.
Qed.

(** Rulings. *)
Lemma resolveDispute_due o block id approveWins context c event :
  treasury_ok o block → resolveDispute (book o) id approveWins context = Ok (c, event) →
  let r := request_at (book o) id in let slashed := losing_slash r approveWins in
  ∃ outcome, event = EvDisputeResolved (DisputeResolved.mk id outcome slashed context) ∧
  sponsor (terms r) ≠ 0 ∧ fee (progress r) ≤ slashed ∧ sound (with_book c o) block ∧
  covers (with_book c o)
    (fee (progress r) + (slashed - fee (progress r) + daoCutOf r + 0)).
Proof.
  intros [Hs Hc] H.
  destruct (resolveDispute_account _ _ _ _ _ _ _ (sound_book _ _ Hs) (sound_accounts _ _ Hs) H)
    as (Ha' & Hle & Htotal).
  apply resolveDispute_Ok in H as (r & Hr & Hf & -> & ->).
  pose proof (account_sponsor _ _ _ (sound_accounts _ _ Hs _ _ Hr)) as Hsponsor.
  rewrite (request_at_lookup _ _ _ Hr) in *. eexists. split_and!; [done|done|done| |].
  - apply sound_with_book; [done| |done]. eapply settled_preserves; [apply Hs|done|done|].
    by destruct approveWins.
  - unfold covers in *. simpl in *. lia.
Qed.

Lemma treasury_resolveDispute_preserves o caller block id approveWins context o' event :
  treasury_ok o block →
  treasury_resolveDispute this params o caller block id approveWins context = Ok (o', event) →
  treasury_ok o' block.
Proof.
  intros Hok H. unfold treasury_resolveDispute in H. succeeded H. destruct x as [c event'].
  destruct (resolveDispute_due _ _ _ _ _ _ _ Hok Hx0) as (outcome & -> & _ & _ & Hs & Hc).
  pose proof (receiver_applied _ _ Hs) as Hrec. simpl in Hrec.
  destruct (Delayed.applyPending _ _) as [receiver receivers]. destruct Hrec as [_ Hs1].
  succeeded H. simplify_eq.
  apply pay_Ok in Hx1, Hx3. destruct (pays_keeps _ _ _ _ _ _ Hx1 Hs1 Hc) as [Hs2 Hc2].
  apply (pays_keeps _ _ _ _ _ _ Hx3 Hs2 Hc2).
Qed.

Lemma treasury_resolveDispute_made o block id approveWins context c event :
  treasury_ok o block → resolveDispute (book o) id approveWins context = Ok (c, event) →
  ∃ o', treasury_resolveDispute this params o (ConstructorParams.arbitrator params) block id
          approveWins context = Ok (o', Some event).
Proof.
  intros Hok H.
  destruct (resolveDispute_due _ _ _ _ _ _ _ Hok H) as (outcome & -> & Hsponsor & Hle & Hs & Hc).
  unfold treasury_resolveDispute. rewrite require_True, H by done. simpl.
  pose proof (receiver_applied _ _ Hs) as Hrec. simpl in Hrec.
  destruct (Delayed.applyPending _ _) as [receiver receivers]. destruct Hrec as [Hr Hs1].
  destruct (pay_made _ (fee (progress (request_at (book o) id)))
    (with_receiver receivers (with_book c o)) Hsponsor) as (o1 & -> & Hpay).
  { unfold covers in Hc. simpl in *. lia. }
  destruct (pays_keeps _ _ _ _ _ _ Hpay Hs1 Hc) as [_ Hc2]. simpl.
  rewrite require_True by done. simpl.
  destruct (pay_made receiver (losing_slash (request_at (book o) id) approveWins -
    fee (progress (request_at (book o) id)) + daoCutOf (request_at (book o) id)) o1 Hr)
    as (o2 & -> & _); [unfold covers in Hc2; lia|]. by eexists.
Qed.

(** Refusals to rule. *)
Lemma refusal_due o block id r :
  treasury_ok o block → requests (book o) !! id = Some r → state (progress r) = FROZEN →
  let c := put_request id (with_outcome TIMED_OUT 0 (arbitrationDeadline (progress r)) r) (book o) in
  sponsor (terms r) ≠ 0 ∧ sound (with_book c o) block ∧
  covers (with_book c o) (fee (progress r) + 0).
Proof.
  intros [Hs Hc] Hr Hf.
  destruct (outOfScope_account _ _ _ _ (sound_book _ _ Hs) (sound_accounts _ _ Hs) Hr Hf)
    as [Ha' Htotal].
  split_and!; [by apply (account_sponsor _ _ _ (sound_accounts _ _ Hs _ _ Hr))| |].
  - apply sound_with_book; [done| |done]. by eapply settled_preserves; [apply Hs|..].
  - unfold covers in *. simpl in *. lia.
Qed.

Lemma refusal_preserves o block id r o' :
  treasury_ok o block → requests (book o) !! id = Some r → state (progress r) = FROZEN →
  let c := put_request id (with_outcome TIMED_OUT 0 (arbitrationDeadline (progress r)) r) (book o) in
  pay this (sponsor (terms r)) (fee (progress r)) (with_book c o) = Ok o' → treasury_ok o' block.
Proof.
  intros Hok Hr Hf c Hpay. destruct (refusal_due _ _ _ _ Hok Hr Hf) as (_ & Hs & Hc).
  apply pay_Ok in Hpay. apply (pays_keeps _ _ _ _ _ _ Hpay Hs Hc).
Qed.

Lemma refusal_made o block id r :
  treasury_ok o block → requests (book o) !! id = Some r → state (progress r) = FROZEN →
  let c := put_request id (with_outcome TIMED_OUT 0 (arbitrationDeadline (progress r)) r) (book o) in
  ∃ o', pay this (sponsor (terms r)) (fee (progress r)) (with_book c o) = Ok o'.
Proof.
  intros Hok Hr Hf c. destruct (refusal_due _ _ _ _ Hok Hr Hf) as (Hne & _ & Hc).
  destruct (pay_made (sponsor (terms r)) (fee (progress r)) (with_book c o) Hne) as (o' & ? & _);
    [|by exists o']. unfold covers in Hc. simpl in *. lia.
Qed.

Lemma treasury_timeoutArbitration_preserves o block id o' event :
  treasury_ok o block →
  treasury_timeoutArbitration this o block id = Ok (o', event) → treasury_ok o' block.
Proof.
  intros Hok H. unfold treasury_timeoutArbitration in H. succeeded H. destruct x as [c event'].
  succeeded H. simplify_eq. apply timeoutArbitration_Ok in Hx as (r & Hr & Hf & -> & _).
  rewrite (request_at_lookup _ _ _ Hr) in Hx0. by apply (refusal_preserves _ _ _ _ _ Hok Hr Hf Hx0).
Qed.

Lemma treasury_markOutOfScope_preserves o caller block id context o' event :
  treasury_ok o block →
  treasury_markOutOfScope this params o caller id context = Ok (o', event) → treasury_ok o' block.
Proof.
  intros Hok H. unfold treasury_markOutOfScope in H. succeeded H. destruct x as [c event'].
  succeeded H. simplify_eq. apply markOutOfScope_Ok in Hx0 as (r & Hr & Hf & -> & _).
  rewrite (request_at_lookup _ _ _ Hr) in Hx1. by apply (refusal_preserves _ _ _ _ _ Hok Hr Hf Hx1).
Qed.

(** ** Every reachable state *)

Lemma oracle_call_preserves o caller block call o' event :
  treasury_ok o block → oracle_call this params o caller block call = Ok (o', event) →
  treasury_ok o' block.
Proof.
  intros Hok H. destruct call as [id s|[]| | | |call]; simpl in H;
    [by apply treasury_postRequest_preserves in H|by apply treasury_commit_preserves in H
    |by apply treasury_reveal_preserves in H|by apply treasury_finalize_preserves in H
    |by apply treasury_claim_preserves with (block := block) in H
    |by apply treasury_resolveDispute_preserves in H
    |by apply treasury_timeoutArbitration_preserves in H
    |by apply treasury_markOutOfScope_preserves with (block := block) in H|].
  succeeded H. simplify_eq. by eapply govern_preserves.
Qed.

Lemma SentinelOracle_new_ok t o block :
  SentinelOracle_new params t = Ok o → treasury_ok o block.
Proof.
  intros H. unfold SentinelOracle_new in H. succeeded H. unfold BondConfig.init in Hx9.
  succeeded Hx9. simplify_eq. split; [split|]; simpl.
  - apply contract_ok_empty.
  - apply accounts_ok_empty.
  - by split; split.
  - unfold covers. simpl. rewrite total_owed_empty. lia.
Qed.

(** The states of a deployed contract: after its constructor, calls, blocks, and
    whatever else moves the token without spending the contract's. *)
Inductive reachable : SentinelOracle → N → Prop :=
  | reach_new t o block : SentinelOracle_new params t = Ok o → reachable o block
  | reach_call o caller block call o' event :
      reachable o block → oracle_call this params o caller block call = Ok (o', event) →
      reachable o' block
  | reach_block o block block' : reachable o block → block ≤ block' → reachable o block'
  | reach_token o t block :
      reachable o block → balanceOf (token o) this ≤ balanceOf t this →
      reachable (with_token t o) block.

Lemma reachable_ok o block : reachable o block → treasury_ok o block.
Proof.
  induction 1 as [t o block Hnew|o caller block call o' event _ IH Hcall
    |o block block' _ [Hs Hc] Hle|o t block _ [Hs Hc] Hle].
  - by eapply SentinelOracle_new_ok.
  - by eapply oracle_call_preserves.
  - split; [|done]. destruct Hs. split; [|done..]. by eapply contract_ok_later.
  - split; [by apply sound_with_token|]. unfold covers in *. simpl. lia.
Qed.

Lemma resolveDispute_accepted c block id approveWins context r :
  contract_ok c block → requests c !! id = Some r → state (progress r) = FROZEN →
  ∃ c' event, resolveDispute c id approveWins context = Ok (c', event).
Proof.
  intros Hok Hr Hf.
  destruct (request_stake _ _ _ _ (contract_ok_request _ _ _ _ Hok Hr)) as (_ & _ & Hshare).
  destruct (applyDaoFeeCut_accepted r (fee (progress r)) Hshare) as [rest Hrest].
  unfold resolveDispute. rewrite (get_request _ _ _ _ Hok Hr). simpl.
  rewrite require_True by done. simpl. rewrite Hrest. simpl. by do 2 eexists.
Qed.

(** Every caller can end a frozen request past its deadline, and the arbitrator
    before it, either way. *)
Definition settleable (o : SentinelOracle) (block : N) (id : B256) (r : OracleRequest) : Prop :=
  (∀ approveWins context, ∃ o' event,
     oracle_call this params o (ConstructorParams.arbitrator params) block
       (XResolveDispute id approveWins context) = Ok (o', event)) ∧
  (∀ context, ∃ o' event,
     oracle_call this params o (ConstructorParams.arbitrator params) block
       (XMarkOutOfScope id context) = Ok (o', event)) ∧
  (arbitrationDeadline (progress r) < block → ∀ caller, ∃ o' event,
     oracle_call this params o caller block (XTimeoutArbitration id) = Ok (o', event)).

Lemma frozen_settleable o block id r :
  treasury_ok o block → requests (book o) !! id = Some r → state (progress r) = FROZEN →
  settleable o block id r.
Proof.
  intros Hok Hr Hf. pose proof (sound_book _ _ (proj1 Hok)) as Hb. split_and!.
  - intros approveWins context.
    destruct (resolveDispute_accepted _ _ _ approveWins context _ Hb Hr Hf) as (c & event & H).
    destruct (treasury_resolveDispute_made _ _ _ _ _ _ _ Hok H) as [o' Ho']. by do 2 eexists.
  - intros context. destruct (refusal_made _ _ _ _ Hok Hr Hf) as [o' Hpay]. simpl.
    unfold treasury_markOutOfScope, markOutOfScope, outOfScope. rewrite require_True by done.
    rewrite (get_request _ _ _ _ Hb Hr). simpl. rewrite require_True by done. simpl.
    rewrite (request_at_lookup _ _ _ Hr), Hpay. by do 2 eexists.
  - intros Hlate caller. destruct (refusal_made _ _ _ _ Hok Hr Hf) as [o' Hpay]. simpl.
    unfold treasury_timeoutArbitration, timeoutArbitration, outOfScope.
    rewrite (get_request _ _ _ _ Hb Hr). simpl. rewrite !require_True by done. simpl.
    rewrite (request_at_lookup _ _ _ Hr), Hpay. by do 2 eexists.
Qed.

(** An unclaimed commitment of a resolved request is paid out: the bond less the
    slash, and the share of the fee. *)
Lemma claim_paid o block id r s m :
  treasury_ok o block → requests (book o) !! id = Some r → resolved (state (progress r)) →
  commitments (book o) !! (id, s) = Some m → claimed m = false → s ≠ 0 →
  ∃ o' event, oracle_call this params o s block (XSentinel (claimCall id)) = Ok (o', event) ∧
    (s ≠ this → balanceOf (token o') s = balanceOf (token o) s + worth r (vote m)).
Proof.
  intros Hok Hr Hs Hm Hc Hne. pose proof (sound_book _ _ (proj1 Hok)) as Hb.
  destruct (claim_accepted _ _ _ _ _ _ Hb Hr Hs Hm Hc) as (c & event & Hclaim).
  destruct (treasury_claim_made _ _ _ _ _ _ Hok Hne Hclaim) as (o' & b & f & -> & Hcall & Hpay).
  exists o', (Some (EvClaimed (Claimed.mk id s b f))). split; [done|]. intros Hthis.
  apply claim_Ok in Hclaim as (r0 & m0 & reward & Hr0 & _ & Hm0 & _ & Hreward & _ & -> & [= -> ->]).
  rewrite Hr in Hr0. injection Hr0 as <-. rewrite Hm in Hm0. injection Hm0 as <-.
  destruct (request_votes _ _ _ _ (contract_ok_request _ _ _ _ Hb Hr) _ _ Hm) as [_ Hbond].
  rewrite (worth_resolved _ _ _ Hs Hreward), <-Hbond.
  destruct Hpay as (t & -> & _ & Hpaid). simpl in *. auto.
Qed.

(** [C20] The oracle contract never owes more than it holds. In every state that
    the constructor, any calls of anyone and transfers of the token by others lead
    to, the contract's balance covers the fees, the unslashed bonds and the fee
    shares of all its requests together; so each sentinel's claim of a resolved
    request goes through and pays that sentinel what its vote is worth, a
    request that can be finalized is, and a frozen one can be ruled on, declined
    or timed out: no payment of the contract fails, whatever governance did to
    its parameters. *)
Theorem oracle_solvent o block :
  reachable o block →
  total_owed (book o) ≤ balanceOf (token o) this ∧
  ∀ id r, requests (book o) !! id = Some r →
    (∀ s m, resolved (state (progress r)) → commitments (book o) !! (id, s) = Some m →
       claimed m = false → s ≠ 0 →
       ∃ o' event, oracle_call this params o s block (XSentinel (claimCall id)) = Ok (o', event) ∧
         (s ≠ this → balanceOf (token o') s = balanceOf (token o) s + worth r (vote m))) ∧
    (state (progress r) = PENDING → finalizable r block →
       block + ConstructorParams.arbitrationTimeout params ≤ u64_max →
       ∀ caller, ∃ o' event,
         oracle_call this params o caller block (XSentinel (finalizeCall id)) = Ok (o', event)) ∧
    (state (progress r) = FROZEN → settleable o block id r).
Proof.
  intros Hreach. pose proof (reachable_ok _ _ Hreach) as Hok.
  pose proof (sound_book _ _ (proj1 Hok)) as Hb. split.
  { destruct Hok as [_ Hc]. unfold covers in Hc. lia. }
  intros id r Hr. split_and!.
  - intros s m Hs Hm Hc Hne. by apply (claim_paid o block id r s m).
  - intros Hp Hf HA caller. destruct (finalize_accepted _ _ _ _ _ Hb Hr Hp Hf HA) as (c & ev & H).
    destruct (treasury_finalize_made _ _ _ _ _ Hok H) as [o' Ho']. by do 2 eexists.
  - by apply frozen_settleable.
Qed.
End treasury.
