(* ===== verification/SentinelGame.v ===== *)
(** * A sentinel at the oracle contract

    The sentinel's transition fed with the blocks and the events of the oracle
    contract, while anyone calls the contract and this sentinel's account makes
    only the calls its own actions are encoded to: what the sentinel sends, the
    contract accepts. *)

From S2P Require Import Prelude.
From S2P Require Import Bytes.
From S2P Require Import Core.
From S2P Require Import Bindings.
From S2P Require Import Alloy.
From S2P Require Import SentinelBindings.
From S2P Require Import Sentinel.
From S2P Require Import SentinelSafety.
From S2P Require Import OracleContract.
From S2P Require Import OracleInvariant.
Import SentinelOracle.

Section game.
Context {AL : Alloy} {SL : SentinelLibs} {VI : Visit} (T : SentinelTransition).
(** The constant of the contract. *)
Context (ARBITRATION_TIMEOUT : N).

(** ** Moves *)

(** [sent] are the actions the sentinel has given. *)
Record Game := {
  contract : Contract;
  block : N;
  sentinel : SentinelState;
  sent : list SentinelCommand;
}.

Definition Game_new (block : N) : Game :=
  {| contract := Contract_new; block := block; sentinel := ∅; sent := [] |}.

Inductive Move :=
  | MBlock
  | MPropose (event : Consensus.TransactionProposed.t)
  | MVerdict (id : B256) (outcome : CheckOutcome)
  | MPost (config : OracleConfig) (id : B256) (sponsor : Address)
  | MCall (caller : Address) (call : SentinelOracleCalls)
  | MResolve (id : B256) (approveWins : bool) (context : Bytes)
  | MArbitrationTimeout (id : B256)
  | MOutOfScope (id : B256) (context : Bytes).

Definition deliver (m : Message SentinelEvents SentinelResume) (g : Game) : Game :=
  let '(state, commands) := sentinel_transition T (sentinel g) m in
  {| contract := contract g; block := block g; sentinel := state; sent := sent g ++ commands |}.

Definition event_log (g : Game) (event : SentinelEvents) : EventLog SentinelEvents :=
  {| log_block := block g; log_index := 0; log_address := oracle T; log_data := event |}.

(** A call that succeeds changes the contract and is told to the sentinel; one
    that fails reverts. *)
Definition execute (r : result (Contract * SentinelOracleEvents) OracleError) (g : Game)
    : Game :=
  match r with
  | Ok (c, event) =>
      deliver (MEvent (event_log g (SOracle event)))
        {| contract := c; block := block g; sentinel := sentinel g; sent := sent g |}
  | Err _ => g
  end.

(** The call an action is encoded to. *)
Definition action_call (kind : SentinelActionKind) : option SentinelOracleCalls :=
  match kind with
  | ApproveToken _ => None
  | Commit id hash => Some (commitCall id hash)
  | Reveal id approve salt reason => Some (revealCall id approve salt reason)
  | Finalize id => Some (finalizeCall id)
  | Claim id => Some (claimCall id)
  end.

(** The calls this account may make. *)
Definition own_calls (g : Game) : list SentinelOracleCalls :=
  omap (λ c, match c with CAction a => action_call (kind a) | CEffect _ => None end) (sent g).

#[export] Instance call_eq_dec : EqDecision SentinelOracleCalls.
Proof. solve_decision. Defined.

Definition game_step (g : Game) (move : Move) : Game :=
  match move with
  | MBlock =>
      deliver (NewBlock (block g + 1))
        {| contract := contract g; block := block g + 1; sentinel := sentinel g; sent := sent g |}
  | MPropose event => deliver (MEvent (event_log g (SConsensus event))) g
  | MVerdict id outcome => deliver (MResume (EngineCheckResult id outcome)) g
  | MPost config id sponsor =>
      execute (postRequest (contract g) config id sponsor (block g)) g
  | MCall caller x =>
      if decide (caller = own_address T ∧ x ∉ own_calls g) then g
      else execute (call ARBITRATION_TIMEOUT (contract g) caller (block g) x) g
  | MResolve id approveWins context =>
      execute (resolveDispute (contract g) id approveWins context) g
  | MArbitrationTimeout id => execute (timeoutArbitration (contract g) id (block g)) g
  | MOutOfScope id context => execute (markOutOfScope (contract g) id context) g
  end.

Definition game (start : N) (moves : list Move) : Game := foldl game_step (Game_new start) moves.

Lemma game_snoc start moves move :
  game start (moves ++ [move]) = game_step (game start moves) move.
Proof. unfold game. by rewrite foldl_app. Qed.

(** The contract hashes a commitment as the sentinel does. *)
Lemma computeHash_commit_hash s id approve salt reason :
  computeHash s id approve salt reason = commit_hash s id approve salt reason.
Proof.
  unfold computeHash, commit_hash, encodePacked, commit_preimage. by destruct approve.
Qed.

(** ** One request of the game *)

(** The request an action is about. *)
Definition kind_id (kind : SentinelActionKind) : option B256 :=
  match kind with
  | ApproveToken _ => None
  | Commit id _ | Reveal id _ _ _ | Finalize id | Claim id => Some id
  end.

Lemma settle_commands id entry c : c ∈ (settle id entry).2 → c = action (Claim id) None.
Proof.
  unfold settle. simpl. destruct (_ ≫= _); [|by intros ?%elem_of_nil].
  by intros ?%list_elem_of_singleton.
Qed.

Lemma step_kind id m entry k expires :
  action k expires ∈ (request_step T id m entry).2 → kind_id k = None ∨ kind_id k = Some id.
Proof.
  intros Hc. destruct m as [b|log|[request_id outcome]]; simpl in Hc.
  - destruct entry as [entry|]; [|by apply elem_of_nil in Hc].
    apply advance_commands_id in Hc as [[= -> _]|(? & ? & ? & [= -> _])]; auto.
  - destruct (log_data log) as [event|event]; case_decide; simpl in Hc; set_unfold in Hc;
      try naive_solver.
    destruct event as [e|e|e|e|e|e|e|e|e|e], entry as [[]|]; simpl in Hc;
      repeat case_match; simpl in Hc; set_unfold in Hc; try naive_solver.
    all: apply finalize_commands in Hc; injection Hc as -> _; auto.
  - destruct entry as [[]|]; simpl in Hc; try (by apply elem_of_nil in Hc).
    repeat case_match; simpl in Hc; set_unfold in Hc; naive_solver.
Qed.

(** The commands about a request. *)
Definition same_for (id : B256) (out out' : list SentinelCommand) : Prop :=
  ∀ k expires, kind_id k = Some id → action k expires ∈ out' ↔ action k expires ∈ out.

Lemma transition_for state m id out :
  ∀ k expires, kind_id k = Some id →
  action k expires ∈ out ++ (sentinel_transition T state m).2 ↔
  action k expires ∈ out ++ (request_step T id m (state !! id)).2.
Proof.
  intros k expires Hk. rewrite !elem_of_app, step_commands. split; [|naive_solver].
  intros [?|[id' Hc]]; [by left|]. right.
  destruct (step_kind _ _ _ _ _ Hc) as [?|?]; naive_solver.
Qed.

Definition sent_commit (out : list SentinelCommand) (id hash : B256) : Prop :=
  ∃ expires, action (Commit id hash) expires ∈ out.

(** What is tracked of a request, against the contract: [r] its request, [m] this
    account's commitment. [prompt] requests have their verdict before they open. *)
Definition entry_ok (prompt : bool) (r : option OracleRequest) (m : option Commitment)
    (block : N) (out : list SentinelCommand) (id : B256) (entry : SentinelRequestState) : Prop :=
  match entry with
  | WaitingForEngineCheck _ None | WaitingForRequest _ _ _ => True
  | WaitingForEngineCheck _ (Some q) =>
      prompt = false ∧ (∀ hash, ¬ sent_commit out id hash) ∧
      ∃ r', r = Some r' ∧ commit_deadline q = commitDeadline (terms r') ∧
        reveal_deadline q = revealDeadline (terms r') ∧ block ≤ commit_deadline q
  | CollectingCommitments approve reason _ commit_by reveal_by committed landed =>
      sent_commit out id (own_hash T id approve reason) ∧
      (landed = true → is_Some m) ∧
      ∃ r', r = Some r' ∧ commit_by = commitDeadline (terms r') ∧
        reveal_by = revealDeadline (terms r') ∧ block ≤ commit_by ∧
        (if prompt then committed = committedCount (progress r')
         else committed ≤ committedCount (progress r'))
  | CollectingVotes _ _ reveal_by committed revealed _ _ _ =>
      is_Some m ∧
      ∃ r', r = Some r' ∧ reveal_by = revealDeadline (terms r') ∧
        commitDeadline (terms r') < block ∧ revealed = revealedCount (progress r') ∧
        (if prompt then committed = committedCount (progress r')
         else committed ≤ committedCount (progress r'))
  | WaitingForOutcome _ _ | WaitingForDisputeResolution _ _ => is_Some r
  end.

Record id_ok (prompt : bool) (r : option OracleRequest) (m : option Commitment) (block : N)
    (out : list SentinelCommand) (id : B256) (entry : option SentinelRequestState) : Prop := {
  id_entry e : entry = Some e → entry_ok prompt r m block out id e;
  id_unopened hash : r = None → ¬ sent_commit out id hash;
  id_once hash hash' : sent_commit out id hash → sent_commit out id hash' → hash = hash';
  id_commitment m' : m = Some m' → sent_commit out id (commitHash m');
  id_reveal approve salt reason expires : action (Reveal id approve salt reason) expires ∈ out →
    is_Some m ∧ sent_commit out id (commit_hash (own_address T) id approve salt reason);
  id_finalize expires r' : action (Finalize id) expires ∈ out → prompt = true → r = Some r' →
    state (progress r') = PENDING → commitDeadline (terms r') < block ∧ finalizable r' block;
  id_begun expires : action (Finalize id) expires ∈ out → is_Some r;
  id_claim expires : action (Claim id) expires ∈ out →
    ∃ r', r = Some r' ∧ resolved (state (progress r'));
}.

Lemma id_ok_same prompt r m block out out' id entry :
  same_for id out out' → id_ok prompt r m block out id entry → id_ok prompt r m block out' id entry.
Proof.
  intros Hs [He Hu Ho Hm Hr Hf Hb Hc].
  assert (∀ hash, sent_commit out' id hash ↔ sent_commit out id hash) as Hsc.
  { intros hash. unfold sent_commit. split; intros [expires ?]; exists expires;
      by apply (Hs (Commit id hash) expires). }
  split.
  - intros e H. specialize (He e H). destruct e as [? [?|]| | | | |]; simpl in *; try done;
      repeat setoid_rewrite Hsc; done.
  - intros hash. rewrite Hsc. apply Hu.
  - intros hash hash'. rewrite !Hsc. apply Ho.
  - intros m'. rewrite Hsc. apply Hm.
  - intros approve salt reason expires. rewrite Hsc, (Hs (Reveal id approve salt reason)) by done.
    apply Hr.
  - intros expires r'. rewrite (Hs (Finalize id)) by done. by apply Hf.
  - intros expires. rewrite (Hs (Finalize id)) by done. apply Hb.
  - intros expires. rewrite (Hs (Claim id)) by done. apply Hc.
Qed.

(** ** What the contract does to a request *)

Record evolves (out : list SentinelCommand) (id : B256) (r : option OracleRequest)
    (m : option Commitment) (b : N) (r' : option OracleRequest) (m' : option Commitment)
    (b' : N) : Prop := {
  evolves_open : r' = None → r = None;
  evolves_commitment x : m' = Some x → sent_commit out id (commitHash x);
  evolves_landed : is_Some m → is_Some m';
  evolves_pending r1 : r' = Some r1 → state (progress r1) = PENDING →
    r = None ∨ ∃ r0, r = Some r0 ∧ state (progress r0) = PENDING ∧
      (commitDeadline (terms r0) < b → finalizable r0 b →
       commitDeadline (terms r1) < b' ∧ finalizable r1 b');
  evolves_resolved r0 : r = Some r0 → resolved (state (progress r0)) →
    ∃ r1, r' = Some r1 ∧ resolved (state (progress r1));
}.

Definition entries_ok (prompt : bool) (r : option OracleRequest) (m : option Commitment) (b : N)
    (out : list SentinelCommand) (id : B256) (entry : option SentinelRequestState) : Prop :=
  ∀ e, entry = Some e → entry_ok prompt r m b out id e.

Lemma id_ok_evolves prompt r m b r' m' b' out id entry entry' :
  id_ok prompt r m b out id entry → evolves out id r m b r' m' b' →
  entries_ok prompt r' m' b' out id entry' → id_ok prompt r' m' b' out id entry'.
Proof.
  intros [_ Hu Ho _ Hr Hf Hb Hc] [Eo Em El Ep Er] He. split; try done.
  - intros hash ?. by apply Hu, Eo.
  - intros approve salt reason expires Hin. destruct (Hr _ _ _ _ Hin). split; [by apply El|done].
  - intros expires r1 Hin Hp Hr1 Hs. destruct (Ep _ Hr1 Hs) as [?|(r0 & Hr0 & Hs0 & Hk)].
    + subst r. by destruct (Hb _ Hin).
    + destruct (Hf _ _ Hin Hp Hr0 Hs0). by apply Hk.
  - intros expires Hin. destruct r' as [r1|]; [by eexists|].
    rewrite Eo in Hb by done. by destruct (Hb _ Hin).
  - intros expires Hin. destruct (Hc _ Hin) as (r0 & Hr0 & Hs0). by apply (Er r0).
Qed.

(** Commands of one request that say nothing of commitments. *)
Lemma sent_commit_app out id hash k expires :
  (∀ hash, k ≠ Commit id hash) →
  sent_commit (out ++ [action k expires]) id hash ↔ sent_commit out id hash.
Proof.
  intros Hk. unfold sent_commit. split; intros [e Hin]; exists e; set_unfold; naive_solver.
Qed.

Lemma entry_ok_app prompt r m b out id e k expires :
  (∀ hash, k ≠ Commit id hash) →
  entry_ok prompt r m b out id e → entry_ok prompt r m b (out ++ [action k expires]) id e.
Proof.
  intros Hk. pose proof (λ hash, sent_commit_app out id hash k expires Hk) as Hs.
  destruct e as [? [?|]| | | | |]; simpl; try done; setoid_rewrite Hs; done.
Qed.

(** Sending another command. *)
Lemma id_ok_send prompt r m b out id entry k expires :
  id_ok prompt r m b out id entry →
  (∀ hash, k ≠ Commit id hash) →
  (∀ approve salt reason, k = Reveal id approve salt reason →
     is_Some m ∧ sent_commit out id (commit_hash (own_address T) id approve salt reason)) →
  (∀ r', k = Finalize id → prompt = true → r = Some r' → state (progress r') = PENDING →
     commitDeadline (terms r') < b ∧ finalizable r' b) →
  (k = Finalize id → is_Some r) →
  (k = Claim id → ∃ r', r = Some r' ∧ resolved (state (progress r'))) →
  id_ok prompt r m b (out ++ [action k expires]) id entry.
Proof.
  intros [He Hu Ho Hm Hr Hf Hb Hc] Hk Hkr Hkf Hkb Hkc.
  pose proof (λ hash, sent_commit_app out id hash k expires Hk) as Hs. split.
  - intros e Hin. apply entry_ok_app; auto.
  - intros hash. rewrite Hs. apply Hu.
  - intros hash hash'. rewrite !Hs. apply Ho.
  - intros m'. rewrite Hs. apply Hm.
  - intros approve salt reason e' Hin. rewrite Hs.
    apply elem_of_app in Hin as [Hin|Hin]; [by eapply Hr|].
    apply list_elem_of_singleton in Hin. injection Hin as <- _. by apply Hkr.
  - intros e' r' Hin. apply elem_of_app in Hin as [Hin|Hin]; [by eapply Hf|].
    apply list_elem_of_singleton in Hin. injection Hin as <- _. by apply Hkf.
  - intros e' Hin. apply elem_of_app in Hin as [Hin|Hin]; [by eapply Hb|].
    apply list_elem_of_singleton in Hin. injection Hin as <- _. by apply Hkb.
  - intros e' Hin. apply elem_of_app in Hin as [Hin|Hin]; [by eapply Hc|].
    apply list_elem_of_singleton in Hin. injection Hin as <- _. by apply Hkc.
Qed.

(** Casting the vote of a request nothing was committed to. *)
Lemma id_ok_vote prompt r m b out id entry approve reason request r0 :
  id_ok prompt r m b out id entry → (∀ hash, ¬ sent_commit out id hash) →
  r = Some r0 → commit_deadline request = commitDeadline (terms r0) →
  reveal_deadline request = revealDeadline (terms r0) → b ≤ commit_deadline request →
  (prompt = true → committedCount (progress r0) = 0) →
  id_ok prompt r m b (out ++ (cast_vote T id approve reason request).2) id
    (cast_vote T id approve reason request).1.
Proof.
  intros [He Hu Ho Hm Hr Hf Hb Hc] Hnone Hr0 Hcd Hrd Hle Hcount.
  set (out' := out ++ _).
  assert (∀ hash, sent_commit out' id hash ↔ hash = own_hash T id approve reason) as Hs.
  { intros hash. unfold sent_commit, out', cast_vote. simpl. split.
    - intros [e Hin]. specialize (Hnone hash). unfold sent_commit in Hnone. set_unfold.
      naive_solver.
    - intros ->. eexists. apply elem_of_app. right. right. left. }
  assert (∀ k expires, kind_id k = Some id → (∀ hash, k ≠ Commit id hash) →
    action k expires ∈ out' ↔ action k expires ∈ out) as Hother.
  { intros k expires Hk Hne. unfold out', cast_vote. simpl. set_unfold. naive_solver. }
  split.
  - intros e [= <-]. simpl. split; [by apply Hs|]. split; [done|]. exists r0.
    split_and!; try done. destruct prompt; [by rewrite Hcount|lia].
  - intros hash. by rewrite Hr0.
  - intros hash hash'. rewrite !Hs. congruence.
  - intros m' Hm'. by destruct (Hnone (commitHash m') (Hm _ Hm')).
  - intros approve' salt reason' expires Hin. rewrite Hother in Hin by done.
    destruct (Hr _ _ _ _ Hin) as [_ Hsc]. by destruct (Hnone _ Hsc).
  - intros expires r'. rewrite Hother by done. by apply Hf.
  - intros expires. rewrite Hother by done. apply Hb.
  - intros expires. rewrite Hother by done. apply Hc.
Qed.

(** ** A block *)

#[local] Arguments Sentinel.finalize : simpl never.

Lemma finalizable_later r b b' : finalizable r b → b ≤ b' → finalizable r b'.
Proof. intros [?|[?|[? ?]]] Hle; unfold finalizable; [left; lia|by auto|right; right; lia]. Qed.

Lemma evolves_block prompt r m b out id entry :
  id_ok prompt r m b out id entry → evolves out id r m b r m (b + 1).
Proof.
  intros [_ _ _ Hm _ _ _ _]. split; try done.
  - intros r1 -> Hs. right. exists r1. split_and!; [done|done|]. intros ? Hf.
    split; [lia|]. by apply (finalizable_later _ _ _ Hf); lia.
  - intros r0 -> Hs. by exists r0.
Qed.

Lemma advance_ok prompt r m b out id e :
  (∀ r0, r = Some r0 → b ≤ commitDeadline (terms r0) → revealedCount (progress r0) = 0) →
  id_ok prompt r m b out id (Some e) →
  id_ok prompt r m (b + 1) (out ++ (advance_entry T (b + 1) id e).2) id
    (advance_entry T (b + 1) id e).1.
Proof.
  intros Hzero Hok. pose proof (id_entry _ _ _ _ _ _ _ Hok e eq_refl) as He.
  pose proof (evolves_block _ _ _ _ _ _ _ Hok) as Hev.
  destruct e as [deadline [q|]|approve reason deadline|
    approve reason slash commit_by reveal_by committed landed|
    approve slash reveal_by committed revealed approvals denials own|approve slash|approve slash];
    simpl in He |- *.
  - rewrite app_nil_r. destruct He as (Hp & Hn & r0 & Hr0 & Hcd & Hrd & Hle).
    apply (id_ok_evolves _ _ _ _ _ _ _ _ _ _ _ Hok Hev).
    case_decide; [|done]. intros e' [= <-]. simpl. split_and!; try done. by exists r0.
  - rewrite app_nil_r. apply (id_ok_evolves _ _ _ _ _ _ _ _ _ _ _ Hok Hev).
    case_decide; [|done]. by intros e' [= <-].
  - rewrite app_nil_r. apply (id_ok_evolves _ _ _ _ _ _ _ _ _ _ _ Hok Hev).
    case_decide; [|done]. by intros e' [= <-].
  - destruct He as (Hsent & Hland & r0 & Hr0 & Hcd & Hrd & Hle & Hcount).
    case_decide; [|destruct landed]; simpl.
    + rewrite app_nil_r. apply (id_ok_evolves _ _ _ _ _ _ _ _ _ _ _ Hok Hev).
      intros e' [= <-]. simpl. split_and!; try done. by exists r0.
    + apply id_ok_send; [|done| |done|done|done].
      * apply (id_ok_evolves _ _ _ _ _ _ _ _ _ _ _ Hok Hev). intros e' [= <-]. simpl.
        split; [by apply Hland|]. exists r0. split_and!; try done; [subst; lia|].
        symmetry. apply (Hzero r0 Hr0). lia.
      * intros ? ? ? [= <- <- <-]. split; [by apply Hland|done].
    + rewrite app_nil_r. by apply (id_ok_evolves _ _ _ _ _ _ _ _ _ _ _ Hok Hev).
  - destruct He as (Hm & r0 & Hr0 & Hrd & Hcd & Hrev & Hcount).
    case_decide; simpl.
    + rewrite app_nil_r. apply (id_ok_evolves _ _ _ _ _ _ _ _ _ _ _ Hok Hev).
      intros e' [= <-]. simpl. split; [done|]. exists r0. split_and!; try done. lia.
    + destruct (finalize_outcome approve slash reveal_by committed revealed approvals denials own id)
        as [(-> & -> & _)|(-> & -> & _)].
      * rewrite app_nil_r. by apply (id_ok_evolves _ _ _ _ _ _ _ _ _ _ _ Hok Hev).
      * apply id_ok_send; try done.
        -- apply (id_ok_evolves _ _ _ _ _ _ _ _ _ _ _ Hok Hev). intros e' [= <-]. by eexists.
        -- intros r' _ _ Hr' _. simplify_eq. split; [lia|left; lia].
  - rewrite app_nil_r. apply (id_ok_evolves _ _ _ _ _ _ _ _ _ _ _ Hok Hev). by intros e' [= <-].
  - rewrite app_nil_r. apply (id_ok_evolves _ _ _ _ _ _ _ _ _ _ _ Hok Hev). by intros e' [= <-].
Qed.

(** ** The events of the contract *)

Abbreviation event_step id event entry := (request_event T id event entry).

(** A hypothesis that no request satisfies. *)
Ltac no_request :=
  by repeat match goal with
     | H : _ ∧ _ |- _ => destruct H
     | H : ∃ _, _ |- _ => destruct H
     | H : is_Some None |- _ => destruct H
     end.

Lemma new_request_ok prompt m b out id entry r1 e :
  id_ok prompt None m b out id entry → m = None →
  (prompt = true → ∀ deadline, entry ≠ Some (WaitingForEngineCheck deadline None)) →
  b < commitDeadline (terms r1) → committedCount (progress r1) = 0 →
  NewRequest.commitDeadline e = commitDeadline (terms r1) →
  NewRequest.revealDeadline e = revealDeadline (terms r1) →
  id_ok prompt (Some r1) m b (out ++ (event_step id (EvNewRequest e) entry).2) id
    (event_step id (EvNewRequest e) entry).1.
Proof.
  intros Hok -> Hprompt Hb Hcount Hcd Hrd.
  pose proof (λ hash, id_unopened _ _ _ _ _ _ _ Hok hash eq_refl) as Hnone.
  assert (evolves out id None None b (Some r1) None b) as Hev by (split; try done; by left).
  assert (∀ entry', entries_ok prompt (Some r1) None b out id entry' →
    id_ok prompt (Some r1) None b out id entry') as Hstep
    by (intros entry'; by apply (id_ok_evolves _ _ _ _ _ _ _ _ _ _ _ Hok Hev)).
  destruct entry as [en|]; [|simpl; rewrite app_nil_r; by apply Hstep].
  pose proof (id_entry _ _ _ _ _ _ _ Hok en eq_refl) as He.
  destruct en as [deadline [q|]|approve reason deadline| | | |]; simpl in He; try no_request.
  - simpl. rewrite app_nil_r. apply Hstep. intros e' [= <-]. simpl.
    destruct prompt; [by destruct (Hprompt eq_refl deadline)|].
    split_and!; [done|done|]. exists r1. split_and!; try done. lia.
  - apply (id_ok_vote _ _ _ _ _ _ (Some (WaitingForRequest approve reason deadline)) _ _ _ r1).
    + apply Hstep. by intros e' [= <-].
    + done.
    + done.
    + done.
    + done.
    + simpl. lia.
    + done.
Qed.

(** A commitment, of this account or another. *)
Lemma committed_ok prompt r0 r1 m m' b out id entry e :
  id_ok prompt (Some r0) m b out id entry →
  terms r1 = terms r0 → revealedCount (progress r1) = revealedCount (progress r0) →
  committedCount (progress r1) = committedCount (progress r0) + 1 →
  committedCount (progress r1) < u16_modulus → b ≤ commitDeadline (terms r0) →
  state (progress r0) = PENDING →
  (∀ x, m' = Some x → sent_commit out id (commitHash x)) → (is_Some m → is_Some m') →
  (Committed.sentinel e = own_address T → is_Some m') →
  id_ok prompt (Some r1) m' b (out ++ (event_step id (EvCommitted e) entry).2) id
    (event_step id (EvCommitted e) entry).1.
Proof.
  intros Hok Ht Hrev Hcount Hwidth Hb Hs Hm' Hland Hown.
  assert (evolves out id (Some r0) m b (Some r1) m' b) as Hev.
  { split; try done.
    - intros r2 [= <-] _. right. exists r0. split_and!; [done|done|]. lia.
    - intros r2 [= <-]. rewrite Hs. intros [?|[?|?]]; congruence. }
  assert (∀ entry', entries_ok prompt (Some r1) m' b out id entry' →
    id_ok prompt (Some r1) m' b out id entry') as Hstep
    by (intros entry'; by apply (id_ok_evolves _ _ _ _ _ _ _ _ _ _ _ Hok Hev)).
  destruct entry as [en|]; [|simpl; rewrite app_nil_r; by apply Hstep].
  pose proof (id_entry _ _ _ _ _ _ _ Hok en eq_refl) as He.
  destruct en as [deadline [q|]|approve reason deadline|
    approve reason slash commit_by reveal_by committed landed| | |]; simpl in He |- *;
    rewrite app_nil_r; apply Hstep; intros e' [= <-]; simpl; try done.
  - destruct He as (? & ? & r' & [= <-] & ?). split_and!; [done|done|]. exists r1. by rewrite Ht.
  - destruct He as (Hsent & Hl & r' & [= <-] & Hcd & Hrd & Hle & Hn). split_and!; [done| |].
    + intros [?|Ho%bool_decide_eq_true]%orb_true_iff; [by apply Hland, Hl|by apply Hown].
    + exists r1. rewrite Ht, Hcount. split_and!; try done.
      unfold u16_modulus in Hwidth. rewrite wrapping_add_small by (unfold u64_max; destruct prompt; lia).
      destruct prompt; lia.
  - destruct He as (? & r' & [= <-] & ? & Hlt & _). lia.
Qed.

(** A reveal, of this account or another. *)
Lemma revealed_ok prompt r0 r1 m m' b out id entry e :
  id_ok prompt (Some r0) m b out id entry →
  terms r1 = terms r0 → revealedCount (progress r1) = revealedCount (progress r0) + 1 →
  committedCount (progress r1) = committedCount (progress r0) →
  committedCount (progress r1) < u16_modulus →
  revealedCount (progress r1) ≤ committedCount (progress r1) →
  commitDeadline (terms r0) < b → b ≤ revealDeadline (terms r0) →
  state (progress r0) = PENDING →
  (∀ x, m' = Some x → sent_commit out id (commitHash x)) → (is_Some m → is_Some m') →
  id_ok prompt (Some r1) m' b (out ++ (event_step id (EvRevealed e) entry).2) id
    (event_step id (EvRevealed e) entry).1.
Proof.
  intros Hok Ht Hrev Hcount Hwidth Hle Hb Hb' Hs Hm' Hland.
  assert (evolves out id (Some r0) m b (Some r1) m' b) as Hev.
  { split; try done.
    - intros r2 [= <-] _. right. exists r0. split_and!; [done|done|].
      intros _ [?|[[? ?]|[? ?]]]; lia.
    - intros r2 [= <-]. rewrite Hs. intros [?|[?|?]]; congruence. }
  assert (∀ entry', entries_ok prompt (Some r1) m' b out id entry' →
    id_ok prompt (Some r1) m' b out id entry') as Hstep
    by (intros entry'; by apply (id_ok_evolves _ _ _ _ _ _ _ _ _ _ _ Hok Hev)).
  destruct entry as [en|]; [|simpl; rewrite app_nil_r; by apply Hstep].
  pose proof (id_entry _ _ _ _ _ _ _ Hok en eq_refl) as He.
  destruct en as [deadline [q|]|approve reason deadline|
    approve reason slash commit_by reveal_by committed landed|
    approve slash reveal_by committed revealed approvals denials own|approve slash|approve slash];
    simpl in He; try (simpl; rewrite app_nil_r; apply Hstep; by intros e' [= <-]).
  - destruct He as (_ & _ & r' & [= <-] & ? & _ & ?). lia.
  - destruct He as (_ & _ & r' & [= <-] & ? & _ & ? & _). lia.
  - destruct He as (Hm & r' & [= <-] & Hrd & _ & Hrevealed & Hn). simpl.
    unfold u16_modulus in Hwidth.
    rewrite (wrapping_add_small revealed) by (unfold u64_max; lia).
    case_decide as Hd.
    + simpl. rewrite app_nil_r. apply Hstep. intros e' [= <-]. simpl. split; [by apply Hland|].
      exists r1. rewrite Ht, Hcount. split_and!; try done; lia.
    + destruct (finalize_outcome approve slash reveal_by committed (revealed + 1)
        (if Revealed.approved e then wrapping_add approvals 1 else approvals)
        (if Revealed.approved e then denials else wrapping_add denials 1)
        (own || bool_decide (Revealed.sentinel e = signer_address (signer T))) id)
        as [(-> & -> & _)|(-> & -> & _)].
      * rewrite app_nil_r. by apply Hstep.
      * apply id_ok_send; try done.
        -- apply Hstep. intros e' [= <-]. by eexists.
        -- intros r' _ Hp [= <-] _. rewrite Ht. split; [done|]. right. left.
           rewrite Hp in Hn. lia.
  - simpl. rewrite app_nil_r. apply Hstep. intros e' [= <-]. by eexists.
  - simpl. rewrite app_nil_r. apply Hstep. intros e' [= <-]. by eexists.
Qed.

(** What is tracked of a request outlives a new outcome. *)
Lemma entry_ok_outcome prompt r0 m b out id e outcome fee deadline :
  entry_ok prompt (Some r0) m b out id e →
  entry_ok prompt (Some (with_outcome outcome fee deadline r0)) m b out id e.
Proof.
  destruct e as [? [q|]| | | | |]; simpl; try done.
  - intros (? & ? & r' & [= <-] & ?). split_and!; [done|done|]. by eexists.
  - intros (? & ? & r' & [= <-] & ?). split_and!; [done|done|]. by eexists.
  - intros (? & r' & [= <-] & ?). split; [done|]. by eexists.
Qed.

Lemma evolves_outcome out id r0 m b outcome fee deadline prompt entry :
  id_ok prompt (Some r0) m b out id entry → outcome ≠ PENDING →
  ¬ resolved (state (progress r0)) →
  evolves out id (Some r0) m b (Some (with_outcome outcome fee deadline r0)) m b.
Proof.
  intros [_ _ _ Hm _ _ _ _] Ho Hn. split; try done.
  - by intros r1 [= <-].
  - by intros r1 [= <-].
Qed.

(** A request is finalized. *)
Lemma outcome_ok prompt r0 m b out id entry outcome fee deadline event :
  id_ok prompt (Some r0) m b out id entry → state (progress r0) = PENDING →
  outcome_event id r0 outcome event →
  id_ok prompt (Some (with_outcome outcome fee deadline r0)) m b
    (out ++ (event_step id event entry).2) id (event_step id event entry).1.
Proof.
  intros Hok Hs Ho.
  assert (outcome ≠ PENDING) as Hout.
  { destruct Ho as [(-> & _)|[(-> & _)|([] & -> & _)]]; done. }
  assert (¬ resolved (state (progress r0))) as Hn.
  { rewrite Hs. by intros [?|[?|?]]. }
  pose proof (evolves_outcome _ _ _ _ _ outcome fee deadline _ _ Hok Hout Hn) as Hev.
  assert (∀ entry', entries_ok prompt (Some (with_outcome outcome fee deadline r0)) m b out id entry' →
    id_ok prompt (Some (with_outcome outcome fee deadline r0)) m b out id entry') as Hstep
    by (intros entry'; by apply (id_ok_evolves _ _ _ _ _ _ _ _ _ _ _ Hok Hev)).
  assert (resolved outcome → id_ok prompt (Some (with_outcome outcome fee deadline r0)) m b
    (out ++ (settle id entry).2) id None) as Hsettle.
  { intros Hr. unfold settle. simpl. destruct (_ ≫= _); [|rewrite app_nil_r; by apply Hstep].
    apply id_ok_send; try done; [by apply Hstep|]. intros _. by eexists. }
  destruct Ho as [(-> & _ & _ & dl & ->)|[(-> & _ & _ & ->)|(approved & -> & _ & ->)]].
  - destruct entry as [en|]; [|simpl; rewrite app_nil_r; by apply Hstep].
    simpl. rewrite app_nil_r. apply Hstep. intros e'.
    destruct (approve_and_slash_amount en) as [[approve slash]|]; [|done].
    intros [= <-]. by eexists.
  - simpl. destruct entry; apply Hsettle; right; by right.
  - simpl. destruct entry; apply Hsettle; destruct approved; by (left + (right; left)).
Qed.

(** A dispute ends. *)
Lemma dispute_ok prompt r0 m b out id entry outcome fee deadline event :
  id_ok prompt (Some r0) m b out id entry → state (progress r0) = FROZEN → resolved outcome →
  ((∃ slashed context, event = EvDisputeResolved (DisputeResolved.mk id outcome slashed context)) ∨
   event = EvArbitrationTimedOut (ArbitrationTimedOut.mk id) ∨
   ∃ context, event = EvDisputeOutOfScope (DisputeOutOfScope.mk id context)) →
  id_ok prompt (Some (with_outcome outcome fee deadline r0)) m b
    (out ++ (event_step id event entry).2) id (event_step id event entry).1.
Proof.
  intros Hok Hs Ho Hevent.
  assert (outcome ≠ PENDING) as Hout by (destruct Ho as [->|[->| ->]]; done).
  assert (¬ resolved (state (progress r0))) as Hn.
  { rewrite Hs. by intros [?|[?|?]]. }
  pose proof (evolves_outcome _ _ _ _ _ outcome fee deadline _ _ Hok Hout Hn) as Hev.
  assert (∀ entry', entries_ok prompt (Some (with_outcome outcome fee deadline r0)) m b out id entry' →
    id_ok prompt (Some (with_outcome outcome fee deadline r0)) m b out id entry') as Hstep
    by (intros entry'; by apply (id_ok_evolves _ _ _ _ _ _ _ _ _ _ _ Hok Hev)).
  assert (id_ok prompt (Some (with_outcome outcome fee deadline r0)) m b
    (out ++ Sentinel.claim id) id None) as Hclaim.
  { apply id_ok_send; try done; [by apply Hstep|]. intros _. by eexists. }
  assert (id_ok prompt (Some (with_outcome outcome fee deadline r0)) m b (out ++ []) id entry)
    as Hsame.
  { rewrite app_nil_r. apply Hstep. intros e' ->. apply entry_ok_outcome.
    by apply (id_entry _ _ _ _ _ _ _ Hok). }
  destruct Hevent as [(slashed & context & ->)|[->|[context ->]]];
    destruct entry as [[]|]; done.
Qed.
End game.
