(* ===== verification/GameSafety.v ===== *)
(** * What the sentinel sends, the contract accepts

    The invariant of the game between a sentinel and the oracle contract, over
    every sequence of moves, and the acceptance of the sentinel's calls. *)

From S2P Require Import Prelude.
From S2P Require Import Bytes.
From S2P Require Import Core.
From S2P Require Import Bindings.
From S2P Require Import Alloy.
From S2P Require Import SentinelBindings.
From S2P Require Import Sentinel.
From S2P Require Import SentinelSafety.
From S2P Require Import OracleContract.
From S2P Require Import OracleInvariant.
From S2P Require Import SentinelGame.
Import SentinelOracle.

Section safety.
Context {AL : Alloy} {SL : SentinelLibs} {VI : Visit} (T : SentinelTransition).
Context (ARBITRATION_TIMEOUT : N) (prompt : B256 → bool).

Abbreviation own := (own_address T).
Abbreviation game_step := (game_step T ARBITRATION_TIMEOUT).

Record game_ok (g : Game) : Prop := {
  game_contract : contract_ok (contract g) (block g);
  game_requests id : id_ok T (prompt id) (requests (contract g) !! id)
    (commitments (contract g) !! (id, own)) (block g) (sent g) id (sentinel g !! id);
}.

(** The configuration is valid, and a request opens with no check of it
    outstanding, if it is to be [prompt]. *)
Definition move_ok (g : Game) (move : Move) : Prop :=
  match move with
  | MPost config id _ => config_ok config ∧
      (prompt id = true → ∀ deadline, sentinel g !! id ≠ Some (WaitingForEngineCheck deadline None))
  | _ => True
  end.

(** ** Delivering *)

Lemma deliver_id g m p r x b id :
  id_ok T p r x b (sent g ++ (request_step T id m (sentinel g !! id)).2) id
    (request_step T id m (sentinel g !! id)).1 →
  id_ok T p r x b (sent (deliver T m g)) id (sentinel (deliver T m g) !! id).
Proof.
  intros Hok. unfold deliver.
  pose proof (step_lookup T (sentinel g) m id) as Hl.
  pose proof (transition_for T (sentinel g) m id (sent g)) as Hs.
  destruct (sentinel_transition T (sentinel g) m) as [state commands]. simpl in *.
  rewrite Hl. by eapply id_ok_same.
Qed.

Lemma deliver_fields m g :
  contract (deliver T m g) = contract g ∧ block (deliver T m g) = block g.
Proof. unfold deliver. by destruct (sentinel_transition _ _ _). Qed.

Lemma deliver_ok m g :
  contract_ok (contract g) (block g) →
  (∀ id, id_ok T (prompt id) (requests (contract g) !! id)
     (commitments (contract g) !! (id, own)) (block g)
     (sent g ++ (request_step T id m (sentinel g !! id)).2) id
     (request_step T id m (sentinel g !! id)).1) →
  game_ok (deliver T m g).
Proof.
  intros Hc Hid. destruct (deliver_fields m g) as [E1 E2].
  split; rewrite E1, E2; [done|]. intros id. by apply deliver_id.
Qed.

(** A call that succeeds, told to the sentinel: only its request is touched. *)
Lemma execute_ok g c event :
  game_ok g → contract_ok c (block g) →
  (∀ id, id ≠ event_request event → requests c !! id = requests (contract g) !! id ∧
     commitments c !! (id, own) = commitments (contract g) !! (id, own)) →
  (let id := event_request event in
   let r := request_event T id event (sentinel g !! id) in
   id_ok T (prompt id) (requests c !! id) (commitments c !! (id, own)) (block g)
     (sent g ++ r.2) id r.1) →
  game_ok (execute T (Ok (c, event)) g).
Proof.
  intros [_ Hid] Hc Hother Hevent. apply deliver_ok; [done|]. intros id. simpl.
  case_decide as Hd.
  - subst id. exact Hevent.
  - destruct (Hother id) as [-> ->]; [congruence|]. simpl. rewrite app_nil_r. apply Hid.
Qed.

Lemma own_call_sent g x :
  x ∈ own_calls g → ∃ k expires, action k expires ∈ sent g ∧ action_call k = Some x.
Proof.
  unfold own_calls. intros ([[k e]|] & Hin & Hk)%list_elem_of_omap; [|done]. by exists k, e.
Qed.

(** ** The moves *)

Lemma block_ok g : game_ok g → game_ok (game_step g MBlock).
Proof.
  intros [Hc Hid]. apply deliver_ok; simpl;
    [by apply (contract_ok_later _ (block g)); [|lia]|].
  intros id. specialize (Hid id). destruct (sentinel g !! id) as [e|] eqn:He; simpl.
  - apply advance_ok; [|done]. intros r0 Hr Hb.
    by destruct (request_commit_phase _ _ _ _ (contract_ok_request _ _ _ _ Hc Hr) Hb).
  - rewrite app_nil_r. by eapply id_ok_evolves; [|by eapply evolves_block|].
Qed.

Lemma propose_ok g event : game_ok g → game_ok (game_step g (MPropose event)).
Proof.
  intros [Hc Hid]. apply deliver_ok; [done|]. intros id. specialize (Hid id). simpl.
  case_decide as Hd; simpl; [|by rewrite app_nil_r].
  apply (id_ok_same T _ _ _ _ (sent g)).
  { intros k expires _. set_unfold. naive_solver. }
  destruct Hd as (_ & _ & Hn). rewrite Hn in Hid. destruct Hid. split; try done.
  by intros e [= <-].
Qed.

Lemma verdict_ok g id outcome : game_ok g → game_ok (game_step g (MVerdict id outcome)).
Proof.
  intros [Hc Hid]. apply deliver_ok; [done|]. intros id'. specialize (Hid id'). simpl.
  destruct (sentinel g !! id') as [en|] eqn:He; [|by rewrite app_nil_r].
  destruct en as [deadline q|?|?|?|?|?]; try (by rewrite app_nil_r).
  case_decide as Hd; [|by rewrite app_nil_r]. subst id'.
  assert (∀ entry, entries_ok T (prompt id) (requests (contract g) !! id)
    (commitments (contract g) !! (id, own)) (block g) (sent g) id entry →
    id_ok T (prompt id) (requests (contract g) !! id)
      (commitments (contract g) !! (id, own)) (block g) (sent g) id entry) as Hstep.
  { intros entry Hentry. destruct Hid. by split. }
  destruct (Sentinel.verdict outcome) as [[approve reason]|]; simpl.
  - destruct q as [q|]; simpl.
    + destruct (id_entry _ _ _ _ _ _ _ _ Hid _ eq_refl) as (Hp & Hn & r & Hr & ? & ? & ?).
      eapply id_ok_vote; [done|done|exact Hr|done|done|done|]. by rewrite Hp.
    + rewrite app_nil_r. apply Hstep. by intros e [= <-].
  - rewrite app_nil_r. by apply Hstep.
Qed.

Lemma post_ok g config id s :
  game_ok g → move_ok g (MPost config id s) → game_ok (game_step g (MPost config id s)).
Proof.
  intros Hok [Hconfig Hprompt]. pose proof Hok as [Hc Hid]. simpl.
  destruct (postRequest _ _ _ _ _) as [[c event]|] eqn:Hpost; [|done].
  pose proof (postRequest_preserves _ _ _ _ _ _ _ Hc Hconfig Hpost) as Hc'.
  apply (postRequest_Ok _ _ _ _ _ _ _ (block g) Hc) in Hpost as (Hr & -> & -> & Hb & Hw).
  apply execute_ok; [done|done| |].
  - intros id' Hne. simpl in *. by rewrite lookup_insert_ne by done.
  - pose proof (Hc id) as Hn. rewrite Hr in Hn. specialize (Hid id). rewrite Hr in Hid.
    cbn [event_request NewRequest.requestId requests commitments put_request].
    rewrite lookup_insert_eq. rewrite Hn in *.
    by apply (new_request_ok T _ _ _ _ _ _ (opened (block g) config id s)).
Qed.

(** The hash this account commits to is one it sent. *)
Lemma own_commit_sent g s id hash :
  ¬ (s = own ∧ commitCall id hash ∉ own_calls g) → s = own → sent_commit (sent g) id hash.
Proof.
  intros Hc Hs. destruct (decide (commitCall id hash ∈ own_calls g)) as [Hin|]; [|tauto].
  apply own_call_sent in Hin as (k & expires & Hin & Hk). destruct k; simplify_eq/=.
  by exists expires.
Qed.

Lemma commit_move_ok g s id hash :
  game_ok g → game_ok (game_step g (MCall s (commitCall id hash))).
Proof.
  intros Hok. pose proof Hok as [Hc Hid]. simpl. case_decide as Hd; [done|].
  destruct (commit _ _ _ _ _) as [[c event]|] eqn:Hcall; [|done].
  pose proof (commit_preserves _ _ _ _ _ _ _ Hc Hcall) as Hc'.
  apply commit_Ok in Hcall as (r & Hr & Hs & Hb & Hw & -> & ->).
  apply execute_ok; [done|done| |].
  - intros id' Hne. simpl in *. rewrite !lookup_insert_ne by congruence. done.
  - specialize (Hid id). rewrite Hr in Hid.
    cbn [event_request Committed.requestId requests commitments put_request put_commitment].
    rewrite lookup_insert_eq. apply (committed_ok T _ r _ (commitments (contract g) !! (id, own))); try done.
    + intros x. destruct (decide (s = own)) as [->|Hne].
      * rewrite lookup_insert_eq. intros [= <-]. simpl. by eapply own_commit_sent.
      * rewrite lookup_insert_ne by congruence. by apply (id_commitment _ _ _ _ _ _ _ _ Hid).
    + intros Hm. destruct (decide (s = own)) as [->|Hne]; [by rewrite lookup_insert_eq|].
      by rewrite lookup_insert_ne by congruence.
    + simpl. intros ->. by rewrite lookup_insert_eq.
Qed.

Lemma reveal_move_ok g s id approve salt reason :
  game_ok g → game_ok (game_step g (MCall s (revealCall id approve salt reason))).
Proof.
  intros Hok. pose proof Hok as [Hc Hid]. simpl. case_decide as Hd; [done|].
  destruct (reveal _ _ _ _ _ _ _) as [[c event]|] eqn:Hcall; [|done].
  pose proof (reveal_preserves _ _ _ _ _ _ _ _ _ Hc Hcall) as Hc'.
  apply reveal_Ok in Hcall as (r & m & Hr & Hs & Hb & Hb' & Hm & Hv & Hh & -> & ->).
  assert (requests (contract g) !! id = Some r) as Hr0 by done.
  pose proof (contract_ok_request _ _ id _ Hc' ltac:(simpl; apply lookup_insert_eq)) as Hreq'.
  apply execute_ok; [done|done| |].
  - intros id' Hne. simpl in *. rewrite !lookup_insert_ne by congruence. done.
  - specialize (Hid id). rewrite Hr in Hid.
    cbn [event_request Revealed.requestId requests commitments put_request put_commitment].
    rewrite lookup_insert_eq. apply (revealed_ok T _ r _ (commitments (contract g) !! (id, own))); try done.
    + apply (request_width _ _ _ _ Hreq').
    + apply (request_reveals_le _ _ _ _ Hreq').
    + intros x. destruct (decide (s = own)) as [->|Hne].
      * rewrite lookup_insert_eq. intros [= <-]. simpl.
        by apply (id_commitment _ _ _ _ _ _ _ _ Hid).
      * rewrite lookup_insert_ne by congruence. by apply (id_commitment _ _ _ _ _ _ _ _ Hid).
    + intros ?. destruct (decide (s = own)) as [->|Hne]; [by rewrite lookup_insert_eq|].
      by rewrite lookup_insert_ne by congruence.
Qed.

Lemma finalize_move_ok g s id :
  game_ok g → game_ok (game_step g (MCall s (finalizeCall id))).
Proof.
  intros Hok. pose proof Hok as [Hc Hid]. simpl. case_decide as Hd; [done|].
  destruct (finalize _ _ _ _) as [[c event]|] eqn:Hcall; [|done].
  pose proof (finalize_preserves _ _ _ _ _ _ Hc Hcall) as Hc'.
  apply finalize_Ok in Hcall as (r & outcome & deadline & Hr & Hs & Hf & -> & Ho).
  assert (event_request event = id) as Heid.
  { destruct Ho as [(_ & _ & _ & ? & ->)|[(_ & _ & _ & ->)|(? & _ & _ & ->)]]; done. }
  apply execute_ok; [done|done| |].
  - rewrite Heid. intros id' Hne. simpl in *. by rewrite !lookup_insert_ne by congruence.
  - rewrite Heid. specialize (Hid id). rewrite Hr in Hid.
    cbn [requests commitments put_request]. rewrite lookup_insert_eq.
    by apply (outcome_ok T).
Qed.

Lemma claim_move_ok g s id :
  game_ok g → game_ok (game_step g (MCall s (claimCall id))).
Proof.
  intros Hok. pose proof Hok as [Hc Hid]. simpl. case_decide as Hd; [done|].
  destruct (claim _ _ _) as [[c event]|] eqn:Hcall; [|done].
  pose proof (claim_preserves _ _ _ (block g) _ _ Hc Hcall) as Hc'.
  apply claim_Ok in Hcall as (r & m & ? & Hr & Hs & Hm & _ & _ & _ & -> & ->).
  apply execute_ok; [done|done| |].
  - intros id' Hne. simpl in *. by rewrite !lookup_insert_ne by congruence.
  - cbn [event_request Claimed.requestId requests commitments put_commitment request_event].
    simpl. rewrite app_nil_r. specialize (Hid id).
    destruct (decide (s = own)) as [->|Hne]; [|by rewrite lookup_insert_ne by congruence].
    rewrite lookup_insert_eq. rewrite Hm in Hid. destruct Hid. split; try done.
    + intros e He. specialize (id_entry e He).
      destruct e as [? [?|]| | | | |]; simpl in *; naive_solver.
    + intros m' [= <-]. simpl. by apply id_commitment.
    + intros approve salt reason expires Hin. split; [by eexists|]. by eapply id_reveal.
Qed.

(** A dispute's end, however it is called. *)
Lemma dispute_move_ok g id r outcome fee event :
  game_ok g → requests (contract g) !! id = Some r → state (progress r) = FROZEN →
  resolved outcome →
  ((∃ slashed context, event = EvDisputeResolved (DisputeResolved.mk id outcome slashed context)) ∨
   event = EvArbitrationTimedOut (ArbitrationTimedOut.mk id) ∨
   ∃ context, event = EvDisputeOutOfScope (DisputeOutOfScope.mk id context)) →
  game_ok (execute T (Ok (put_request id
    (with_outcome outcome fee (arbitrationDeadline (progress r)) r) (contract g), event)) g).
Proof.
  intros Hok Hr Hs Ho Hevent. pose proof Hok as [Hc Hid].
  assert (event_request event = id) as Heid.
  { destruct Hevent as [(? & ? & ->)|[->|[? ->]]]; done. }
  apply execute_ok; [done| | |].
  - apply settled_preserves; try done. destruct Ho as [->|[->| ->]]; done.
  - rewrite Heid. intros id' Hne. simpl in *. by rewrite !lookup_insert_ne by congruence.
  - rewrite Heid. specialize (Hid id). rewrite Hr in Hid.
    cbn [requests commitments put_request]. rewrite lookup_insert_eq.
    by apply (dispute_ok T).
Qed.

Lemma game_step_ok g move : game_ok g → move_ok g move → game_ok (game_step g move).
Proof.
  intros Hok Hmove. destruct move as [|event|id outcome|config id s|s x|id approveWins context|
    id|id context].
  - by apply block_ok.
  - by apply propose_ok.
  - by apply verdict_ok.
  - by apply post_ok.
  - destruct x; [by apply commit_move_ok|by apply reveal_move_ok|by apply finalize_move_ok|
      by apply claim_move_ok].
  - simpl. destruct (resolveDispute _ _ _ _) as [[c event]|] eqn:Hcall; [|done].
    apply resolveDispute_Ok in Hcall as (r & Hr & Hs & -> & ->).
    apply dispute_move_ok; try done; [destruct approveWins; by (left + (right; left))|].
    left. by do 2 eexists.
  - simpl. destruct (timeoutArbitration _ _ _) as [[c event]|] eqn:Hcall; [|done].
    apply timeoutArbitration_Ok in Hcall as (r & Hr & Hs & -> & ->).
    apply dispute_move_ok; try done; [by right; right|by right; left].
  - simpl. destruct (markOutOfScope _ _ _) as [[c event]|] eqn:Hcall; [|done].
    apply markOutOfScope_Ok in Hcall as (r & Hr & Hs & -> & ->).
    apply dispute_move_ok; try done; [by right; right|right; right; by eexists].
Qed.

(** ** Every game *)

Lemma Game_new_ok start : game_ok (Game_new start).
Proof.
  split; [apply contract_ok_empty|]. intros id. unfold Game_new, Contract_new. simpl.
  rewrite !lookup_empty. split; try done; intros; try (by intros [? ?%elem_of_nil]);
    repeat match goal with
    | H : sent_commit [] _ _ |- _ => destruct H as [? ?%elem_of_nil]
    | H : _ ∈ [] |- _ => by apply elem_of_nil in H
    end; done.
Qed.

(** Every move is valid where it is made. *)
Definition moves_ok (start : N) (moves : list Move) : Prop :=
  ∀ before move after, moves = before ++ move :: after →
    move_ok (game T ARBITRATION_TIMEOUT start before) move.

Lemma game_always_ok start moves :
  moves_ok start moves → game_ok (game T ARBITRATION_TIMEOUT start moves).
Proof.
  induction moves as [|move moves IH] using rev_ind; intros Hmoves; [apply Game_new_ok|].
  rewrite game_snoc. apply game_step_ok.
  - apply IH. intros before move' after ->. apply (Hmoves before move' (after ++ [move])).
    by rewrite <-app_assoc.
  - by apply (Hmoves moves move []).
Qed.
End safety.

(** ** Properties *)

Section properties.
Context {AL : Alloy} {SL : SentinelLibs} {VI : Visit} (T : SentinelTransition).
Context (ARBITRATION_TIMEOUT : N).

(** Any game in which the contract's configuration is valid. *)
Abbreviation any_game start moves := (moves_ok T ARBITRATION_TIMEOUT (λ _, false) start moves).

(** [C17] The contract takes every reveal the sentinel sends: in any game, with
    any number of other sentinels, requests and calls, a reveal the sentinel has
    given is accepted in every block of the reveal window while the request is
    pending and the vote unrevealed, for its commitment is on the contract with
    the very hash the contract computes from it. *)
Theorem reveals_accepted start moves id approve salt reason expires r :
  any_game start moves →
  let g := game T ARBITRATION_TIMEOUT start moves in
  action (Reveal id approve salt reason) expires ∈ sent g →
  requests (contract g) !! id = Some r → state (progress r) = PENDING →
  commitDeadline (terms r) < block g → block g ≤ revealDeadline (terms r) →
  ∃ m, commitments (contract g) !! (id, own_address T) = Some m ∧
    commitHash m = computeHash (own_address T) id approve salt reason ∧
    (vote m = VPending → ∃ c,
       call ARBITRATION_TIMEOUT (contract g) (own_address T) (block g)
         (revealCall id approve salt reason) =
       Ok (c, EvRevealed (Revealed.mk id (own_address T) approve (bondAmount m) reason))).
Proof.
  intros Hmoves g Hsent Hr Hs Hb Hb'.
  pose proof (game_always_ok T ARBITRATION_TIMEOUT (λ _, false) start moves Hmoves) as [Hc Hid].
  fold g in Hc, Hid. specialize (Hid id).
  destruct (id_reveal _ _ _ _ _ _ _ _ Hid _ _ _ _ Hsent) as [[m Hm] Hcommit].
  pose proof (id_commitment _ _ _ _ _ _ _ _ Hid _ Hm) as Hhash.
  pose proof (id_once _ _ _ _ _ _ _ _ Hid _ _ Hcommit Hhash) as Heq.
  exists m. rewrite computeHash_commit_hash. split_and!; [done|done|]. intros Hv.
  apply (reveal_accepted _ _ _ _ _ _ _ r); try done. by rewrite computeHash_commit_hash.
Qed.

(** [C18] A claim the sentinel sends is due: its request is on the contract and
    resolved, whether or not this account committed to it; and if it committed
    and has not claimed yet, the contract accepts the claim, and pays the bond less
    what the outcome slashes, which is never more than the bond. *)
Theorem claims_accepted start moves id expires :
  any_game start moves →
  let g := game T ARBITRATION_TIMEOUT start moves in
  action (Claim id) expires ∈ sent g →
  ∃ r, requests (contract g) !! id = Some r ∧ resolved (state (progress r)) ∧
    ∀ m, commitments (contract g) !! (id, own_address T) = Some m → claimed m = false →
      let slashed := slashAmountFor r (state (progress r)) (vote m) in
      slashed ≤ bondTarget (terms r) ∧
      ∃ c feeReward,
        call ARBITRATION_TIMEOUT (contract g) (own_address T) (block g) (claimCall id) =
        Ok (c, EvClaimed (Claimed.mk id (own_address T) (bondTarget (terms r) - slashed) feeReward)).
Proof.
  intros Hmoves g Hsent.
  pose proof (game_always_ok T ARBITRATION_TIMEOUT (λ _, false) start moves Hmoves) as [Hc Hid].
  fold g in Hc, Hid. destruct (id_claim _ _ _ _ _ _ _ _ (Hid id) _ Hsent) as (r & Hr & Hs).
  exists r. split; [done|]. split; [done|]. intros m Hm Hclaimed slashed.
  destruct (claim_accepted _ (block g) _ _ r m Hc Hr Hs Hm Hclaimed) as (c & event & Hcall).
  pose proof Hcall as Hok.
  apply claim_Ok in Hok as (r' & m' & reward & Hr' & _ & Hm' & _ & _ & Hle & _ & ->).
  rewrite Hr in Hr'. injection Hr' as <-. rewrite Hm in Hm'. injection Hm' as <-.
  destruct (request_votes _ _ _ _ (contract_ok_request _ _ _ _ Hc Hr) _ _ Hm) as [_ Hbond].
  rewrite Hbond in Hle, Hcall. split; [exact Hle|]. by exists c, reward.
Qed.

(** [C19] For a request whose verdict came before it opened, the sentinel counts
    what the contract counts: its finalization is never too early, and is
    accepted in every block from then on while the request is pending. *)
Theorem finalizations_accepted start moves id expires r prompt :
  moves_ok T ARBITRATION_TIMEOUT prompt start moves → prompt id = true →
  let g := game T ARBITRATION_TIMEOUT start moves in
  action (Finalize id) expires ∈ sent g →
  requests (contract g) !! id = Some r → state (progress r) = PENDING →
  block g + ARBITRATION_TIMEOUT ≤ u64_max →
  ∃ c event, call ARBITRATION_TIMEOUT (contract g) (own_address T) (block g) (finalizeCall id) =
    Ok (c, event).
Proof.
  intros Hmoves Hp g Hsent Hr Hs Hwidth.
  pose proof (game_always_ok T ARBITRATION_TIMEOUT prompt start moves Hmoves) as [Hc Hid].
  fold g in Hc, Hid.
  destruct (id_finalize _ _ _ _ _ _ _ _ (Hid id) _ _ Hsent Hp Hr Hs) as [_ Hf].
  by apply (finalize_accepted _ _ _ _ r).
Qed.
End properties.
