(* ===== verification/EngineBindings.v ===== *)
(** * The sentinel engine's bindings: [contracts/bindings.rs]

    The functions, events and structs that [sol!] declares for the contracts
    whose calls the engine inspects. What the macro generates for them (their
    selectors and decoders) is a parameter, with the behaviour of the ABI that
    the engine relies on. *)

From S2P Require Import Prelude.
From S2P Require Import Bytes.
From S2P Require Import Bindings.

(** ** Functions *)

Inductive SolFunction : Set :=
  (* [safe] *)
  | addOwnerWithThreshold | removeOwner | swapOwner | changeThreshold
  | setFallbackHandler | setGuard | enableModule | disableModule | setModuleGuard
  | migrateSingleton | migrateWithFallbackHandler | migrateL2Singleton
  | migrateL2WithFallbackHandler | signMessage | execTransaction
  | performCreate | performCreate2
  (* [safenet_guard] *)
  | announceTransaction | cancelAnnouncement
  (* [erc20] *)
  | transfer | transferFrom | approve
  (* [erc721] *)
  | setApprovalForAll | safeTransferFrom_0 | safeTransferFrom_1
  (* [erc1155] *)
  | erc1155_safeTransferFrom | safeBatchTransferFrom
  (* [multi_send], declared again in [safe] *)
  | multiSend
  (* [staking] *)
  | stake | staking_claim
  (* [cow] *)
  | setPreSignature | createWithContext.

#[export] Instance SolFunction_eq_dec : EqDecision SolFunction.
Proof. solve_decision. Defined.

(** The calls the engine decodes, with their arguments. *)
Module transferCall.
Record t := mk { to : Address; amount : U256 }.
End transferCall.
Module transferFromCall.
Record t := mk { from : Address; to : Address; amount : U256 }.
End transferFromCall.
Module approveCall.
Record t := mk { spender : Address; amount : U256 }.
End approveCall.
Module setApprovalForAllCall.
Record t := mk { operator : Address; approved : bool }.
End setApprovalForAllCall.
Module safeTransferFrom_0Call.
Record t := mk { from : Address; to : Address; tokenId : U256 }.
End safeTransferFrom_0Call.
Module safeTransferFrom_1Call.
Record t := mk { from : Address; to : Address; tokenId : U256; data : Bytes }.
End safeTransferFrom_1Call.
Module erc1155_safeTransferFromCall.
Record t := mk { from : Address; to : Address; id : U256; amount : U256; data : Bytes }.
End erc1155_safeTransferFromCall.
Module safeBatchTransferFromCall.
Record t := mk {
  from : Address; to : Address; ids : list U256; amounts : list U256; data : Bytes;
}.
End safeBatchTransferFromCall.
Module stakeCall.
Record t := mk { validator : Address; amount : U256 }.
End stakeCall.
Module claimCall.
Record t := mk {
  account : Address; cumulativeAmount : U256; expectedMerkleRoot : B256;
  merkleProof : list B256;
}.
End claimCall.
Module setPreSignatureCall.
Record t := mk { orderUid : Bytes; signed : bool }.
End setPreSignatureCall.

(** [cow::ConditionalOrderParams]. *)
Module ConditionalOrderParams.
Record t := mk { handler : Address; salt : B256; staticInput : Bytes }.
End ConditionalOrderParams.
Module createWithContextCall.
Record t := mk {
  params : ConditionalOrderParams.t; factory : Address; data : Bytes; dispatch : bool;
}.
End createWithContextCall.

(** The arguments [abi_decode] yields. Of a call of which the engine only looks
    at the selector, or at whether it decodes, they are left out. *)
Definition arguments (f : SolFunction) : Type :=
  match f with
  | setFallbackHandler | setGuard | enableModule | setModuleGuard => Address
  | transfer => transferCall.t
  | transferFrom => transferFromCall.t
  | approve => approveCall.t
  | setApprovalForAll => setApprovalForAllCall.t
  | safeTransferFrom_0 => safeTransferFrom_0Call.t
  | safeTransferFrom_1 => safeTransferFrom_1Call.t
  | erc1155_safeTransferFrom => erc1155_safeTransferFromCall.t
  | safeBatchTransferFrom => safeBatchTransferFromCall.t
  | multiSend => Bytes
  | stake => stakeCall.t
  | staking_claim => claimCall.t
  | setPreSignature => setPreSignatureCall.t
  | createWithContext => createWithContextCall.t
  | _ => ()
  end.

(** ** Structs and events *)

(** [cow::TwapData]. *)
Module TwapData.
Record t := mk {
  sellToken : Address; buyToken : Address; receiver : Address; partSellAmount : U256;
  minPartLimit : U256; t0 : U256; n : U256; t' : U256; span : U256; appData : B256;
}.
End TwapData.

(** [cow::Order]. *)
Module Order.
Record t := mk {
  sellToken : Address; buyToken : Address; receiver : Address; sellAmount : U256;
  buyAmount : U256; validTo : N; appData : B256; feeAmount : U256; kind : Bytes;
  partiallyFillable : bool; sellTokenBalance : Bytes; buyTokenBalance : Bytes;
}.

#[export] Instance t_eq_dec : EqDecision t.
Proof. solve_decision. Defined.
End Order.
#[export] Existing Instance Order.t_eq_dec.

(** The domain of [gp_v2_domain]: its name and version are constants. *)
Module GpV2Domain.
Record t := mk { chain_id : N; verifying_contract : Address }.
End GpV2Domain.

(** [erc20::Transfer] and [erc20::Approval]. *)
Module Transfer.
Record t := mk { from : Address; to : Address; amount : U256 }.
End Transfer.
Module Approval.
Record t := mk { owner : Address; spender : Address; amount : U256 }.
End Approval.

(** ** What [sol!] generates *)

Class EngineLibs := {
  (** [SolCall::SELECTOR] and [SolCall::abi_decode]. A call is four bytes of
      selector, different for each function, and its arguments. *)
  SELECTOR : SolFunction → Bytes;
  abi_decode (f : SolFunction) : Bytes → option (arguments f);
  SELECTOR_length f : length (SELECTOR f) = 4%nat;
  SELECTOR_inj f g : SELECTOR f = SELECTOR g → f = g;
  abi_decode_selector f data args : abi_decode f data = Some args →
    SELECTOR f `prefix_of` data;
  (** A [bytes] argument is a part of the calldata. *)
  multi_send_inside data transactions : abi_decode multiSend data = Some transactions →
    (length transactions ≤ length data)%nat;
  (** [transferCall::abi_encode]. *)
  transfer_abi_encode : transferCall.t → Bytes;
  (** [TwapData::abi_decode]. *)
  twap_abi_decode : Bytes → option TwapData.t;
  (** [Order::eip712_signing_hash]. *)
  order_eip712_signing_hash : Order.t → GpV2Domain.t → B256;
  (** [SolEvent::SIGNATURE_HASH] and [SolEvent::decode_log_data], from the topics
      and the data of a log. *)
  Transfer_SIGNATURE_HASH : B256;
  Approval_SIGNATURE_HASH : B256;
  Transfer_decode_log_data : list B256 → Bytes → option Transfer.t;
  Approval_decode_log_data : list B256 → Bytes → option Approval.t;
}.

(** [data.starts_with(&f::SELECTOR)]. *)
Definition starts_with `{EngineLibs} (data : Bytes) (f : SolFunction) : bool :=
  bool_decide (SELECTOR f `prefix_of` data).

Section selectors.
Context {EL : EngineLibs}.

(** Calldata is of one function. *)
Lemma starts_with_inj data f g : starts_with data f → starts_with data g → f = g.
Proof.
  unfold starts_with. rewrite !bool_decide_spec. intros [k1 H1] [k2 H2].
  apply SELECTOR_inj. rewrite H1 in H2.
  by apply app_inj_length in H2 as [? _]; [|rewrite !SELECTOR_length].
Qed.

Lemma decode_starts_with data f args : abi_decode f data = Some args → starts_with data f.
Proof. intros H. unfold starts_with. rewrite bool_decide_spec. by apply abi_decode_selector in H. Qed.

Lemma decode_inj data f g args args' :
  abi_decode f data = Some args → abi_decode g data = Some args' → f = g.
Proof. intros ?%decode_starts_with ?%decode_starts_with. by eapply starts_with_inj. Qed.

Lemma decode_other data f g args :
  f ≠ g → abi_decode f data = Some args → abi_decode g data = None.
Proof.
  intros Hne H. destruct (abi_decode g data) eqn:E; [|done]. by destruct Hne; eapply decode_inj.
Qed.

Lemma starts_with_other data f g : f ≠ g → starts_with data f → starts_with data g = false.
Proof.
  intros Hne H. destruct (starts_with data g) eqn:E; [|done].
  destruct Hne. eapply starts_with_inj; [done|by rewrite E].
Qed.

Lemma decode_nonempty data f args : abi_decode f data = Some args → data ≠ [].
Proof.
  intros [k ->]%abi_decode_selector. pose proof (SELECTOR_length f) as H.
  by destruct (SELECTOR f).
Qed.
End selectors.
