(* ===== verification/MultiSend.v ===== *)
(** * MultiSend batches: [engine/transaction.rs], [contracts/multi_send.rs]

    The transactions the engine checks, and the decoding of the batches a Safe
    executes by delegatecall to a MultiSend contract. *)

From S2P Require Import Prelude.
From S2P Require Import Bytes.
From S2P Require Import Bindings.
From S2P Require Import EngineBindings.

#[export] Instance Operation_eq_dec : EqDecision Operation.
Proof. solve_decision. Defined.
#[export] Instance SafeTransaction_eq_dec : EqDecision SafeTransaction.
Proof. solve_decision. Defined.

(** [TryFrom<u8> for Operation]. *)
Definition operation_try_from (byte : byte) : option Operation :=
  match byte with x00 => Some CALL | x01 => Some DELEGATECALL | _ => None end.

(** [Address::ZERO]. *)
Definition Address_ZERO : Address := 0.

(** The call of [to] by [safe], every other field its default. *)
Definition SafeTransaction_call (safe to : Address) (value : U256) (data : Bytes)
    (operation : Operation) : SafeTransaction :=
  SafeTransaction.mk 0 safe to value data operation 0 0 0 Address_ZERO Address_ZERO 0.

(** ** Deployments *)

Inductive MultiSendVersion := Legacy | V150Plus.

Record Deployment := {
  deployment_address : Address;
  version : MultiSendVersion;
  allows_delegate_calls : bool;
}.

Definition DEPLOYMENTS : list Deployment :=
  [{| deployment_address := 0x218543288004CD07832472D464648173c77D7eB7;
      version := V150Plus; allows_delegate_calls := true |};
   {| deployment_address := 0xA83c336B20401Af773B6219BA5027174338D1836;
      version := V150Plus; allows_delegate_calls := false |};
   {| deployment_address := 0x38869bf66a61cF6bDB996A6aE40D5853Fd43B526;
      version := Legacy; allows_delegate_calls := true |};
   {| deployment_address := 0x9641d764fc13c8B624c04430C7356C1C7C8102e2;
      version := Legacy; allows_delegate_calls := false |};
   {| deployment_address := 0xA238CBeb142c10Ef7Ad8442C6D1f9E89e07e7761;
      version := Legacy; allows_delegate_calls := true |};
   {| deployment_address := 0x40A2aCCbd92BCA938b02010E17A5b8929b49130D;
      version := Legacy; allows_delegate_calls := false |};
   {| deployment_address := 0x998739BFdAAdde7C933B942a68053933098f9EDa;
      version := Legacy; allows_delegate_calls := true |};
   {| deployment_address := 0xA1dabEF33b3B82c7814B6D82A79e50F4AC44102B;
      version := Legacy; allows_delegate_calls := false |}].

Definition known_deployment (address : Address) : option (MultiSendVersion * bool) :=
  (λ d, (version d, allows_delegate_calls d)) ∘ snd <$>
    list_find (λ d, deployment_address d = address) DEPLOYMENTS.

(** ** Decoding *)

(** [Cursor::read], with the cursor's rest. *)
Definition cursor_read (len : N) (cursor : Bytes) : option (Bytes * Bytes) :=
  if decide (len ≤ N.of_nat (length cursor))
  then Some (take (N.to_nat len) cursor, drop (N.to_nat len) cursor) else None.

(** [Cursor::next]. *)
Definition cursor_next (cursor : Bytes) : option (byte * Bytes) :=
  match cursor with [] => None | b :: rest => Some (b, rest) end.

(** [usize::try_from] of a [U256]. *)
Definition usize_try_from (x : U256) : option N := if decide (x ≤ u64_max) then Some x else None.

(** The destination of a sub-transaction. *)
Definition sub_to (safe : Address) (v : MultiSendVersion) (to : Address) : Address :=
  match v with
  | V150Plus => if decide (to = Address_ZERO) then safe else to
  | Legacy => to
  end.

(** The turns of the loop of [decode_multi_send]; each reads a byte at least. *)
Fixpoint decode_entries (fuel : nat) (safe : Address) (v : MultiSendVersion) (cursor : Bytes)
    : option (list SafeTransaction) :=
  match cursor_next cursor with
  | None => Some []
  | Some (operation, cursor) =>
      match fuel with
      | O => None
      | S fuel =>
          operation ← operation_try_from operation;
          '(to, cursor) ← cursor_read 20 cursor;
          '(value, cursor) ← cursor_read 32 cursor;
          '(data_len, cursor) ← cursor_read 32 cursor;
          data_len ← usize_try_from (from_be_bytes data_len);
          '(data, cursor) ← cursor_read data_len cursor;
          rest ← decode_entries fuel safe v cursor;
          Some (SafeTransaction_call safe (sub_to safe v (from_be_bytes to))
                  (from_be_bytes value) data operation :: rest)
      end
  end.

Definition decode_multi_send (safe : Address) (data : Bytes) (v : MultiSendVersion)
    : option (list SafeTransaction) := decode_entries (length data) safe v data.

Section batch.
Context {EL : EngineLibs}.

Definition decode_multi_send_call (tx : SafeTransaction) : option (list SafeTransaction * bool) :=
  if decide (SafeTransaction.operation tx ≠ DELEGATECALL) then None else
  '(version, allows_delegate_calls) ← known_deployment (SafeTransaction.to tx);
  transactions ← abi_decode multiSend (SafeTransaction.data tx);
  sub_txs ← decode_multi_send (SafeTransaction.safe tx) transactions version;
  Some (sub_txs, allows_delegate_calls).

Definition sub_transactions (tx : SafeTransaction) : list SafeTransaction :=
  from_option fst [tx] (decode_multi_send_call tx).
End batch.

(** ** The packed encoding *)

(** One entry, as the documentation of [decode_multi_send] lays it out. *)
Record Entry := {
  entry_operation : Operation;
  entry_to : Address;
  entry_value : U256;
  entry_data : Bytes;
}.

Definition pack (e : Entry) : Bytes :=
  [byte_of (operation_as_u8 (entry_operation e))] ++ to_be_bytes 20 (entry_to e) ++
  to_be_bytes 32 (entry_value e) ++ to_be_bytes 32 (N.of_nat (length (entry_data e))) ++
  entry_data e.

Definition entry_wf (e : Entry) : Prop :=
  entry_to e < 2 ^ 160 ∧ entry_value e < 2 ^ 256 ∧ N.of_nat (length (entry_data e)) ≤ u64_max.

Definition entry_tx (safe : Address) (v : MultiSendVersion) (e : Entry) : SafeTransaction :=
  SafeTransaction_call safe (sub_to safe v (entry_to e)) (entry_value e) (entry_data e)
    (entry_operation e).

#[local] Arguments to_be_bytes : simpl never.
#[local] Arguments from_be_bytes : simpl never.
#[local] Arguments pack : simpl never.

Lemma from_be_bytes_bound l : from_be_bytes l < 256 ^ N.of_nat (length l).
Proof.
  rewrite <-(to_from_be_bytes l) at 1. rewrite from_to_be_bytes.
  apply N.mod_lt. by apply N.pow_nonzero.
Qed.

Lemma cursor_read_app l rest : cursor_read (N.of_nat (length l)) (l ++ rest) = Some (l, rest).
Proof.
  unfold cursor_read. rewrite decide_True by (rewrite length_app; lia).
  by rewrite Nat2N.id, take_app_length, drop_app_length.
Qed.

Lemma cursor_read_to_be n x rest :
  cursor_read (N.of_nat n) (to_be_bytes n x ++ rest) = Some (to_be_bytes n x, rest).
Proof. rewrite <-(length_to_be_bytes n x) at 1. apply cursor_read_app. Qed.

Lemma cursor_read_Some len cursor l rest :
  cursor_read len cursor = Some (l, rest) ↔ cursor = l ++ rest ∧ len = N.of_nat (length l).
Proof.
  split; [|intros [-> ->]; apply cursor_read_app].
  unfold cursor_read. case_decide; [|done]. intros [= <- <-].
  rewrite take_drop, length_take. split; [done|lia].
Qed.

Lemma usize_try_from_Some x y : usize_try_from x = Some y ↔ x = y ∧ x ≤ u64_max.
Proof. unfold usize_try_from. case_decide; naive_solver. Qed.

Lemma operation_try_from_Some b o :
  operation_try_from b = Some o ↔ b = byte_of (operation_as_u8 o).
Proof.
  split; [|intros ->; by destruct o].
  destruct b; try done; intros [= <-]; done.
Qed.

Lemma pack_length e : (85 ≤ length (pack e))%nat.
Proof. unfold pack. rewrite !length_app, !length_to_be_bytes. simpl. lia. Qed.

Lemma to_from_be_read n l :
  N.of_nat n = N.of_nat (length l) → to_be_bytes n (from_be_bytes l) = l.
Proof. intros ->%Nat2N.inj. apply to_from_be_bytes. Qed.

(** One turn of the loop reads one packed entry. *)
Lemma decode_entries_S fuel safe v cursor txs :
  decode_entries (S fuel) safe v cursor = Some txs ↔
  (cursor = [] ∧ txs = []) ∨
  ∃ e rest txs', entry_wf e ∧ cursor = pack e ++ rest ∧ txs = entry_tx safe v e :: txs' ∧
    decode_entries fuel safe v rest = Some txs'.
Proof.
  split.
  - destruct cursor as [|b cursor]; cbn [decode_entries cursor_next]; [intros [= <-]; by left|]. intros H. right.
    apply bind_Some in H as (o & ->%operation_try_from_Some & H).
    apply bind_Some in H as ([to c1] & [-> Hto]%cursor_read_Some & H).
    apply bind_Some in H as ([value c2] & [-> Hvalue]%cursor_read_Some & H).
    apply bind_Some in H as ([len c3] & [-> Hlen]%cursor_read_Some & H).
    apply bind_Some in H as (n & [<- Hmax]%usize_try_from_Some & H).
    apply bind_Some in H as ([data c4] & [-> Hdata]%cursor_read_Some & H).
    apply bind_Some in H as (txs' & Htxs & [= <-]).
    set (e := {| entry_operation := o; entry_to := from_be_bytes to;
                 entry_value := from_be_bytes value; entry_data := data |}).
    exists e, c4, txs'. split; [|split; [|done]].
    + pose proof (from_be_bytes_bound to) as Bto.
      pose proof (from_be_bytes_bound value) as Bvalue.
      rewrite <-Hto in Bto. rewrite <-Hvalue in Bvalue.
      split; [exact Bto|split; [exact Bvalue|]]. unfold e. simpl. by rewrite <-Hdata.
    + unfold pack, e. cbn [entry_operation entry_to entry_value entry_data].
      rewrite <-Hdata, (to_from_be_read 20 to), (to_from_be_read 32 value),
        (to_from_be_read 32 len) by done.
      by rewrite <-!app_assoc.
  - intros [[-> ->]|(e & rest & txs' & (Hto & Hvalue & Hdata) & -> & -> & Htxs)]; [done|].
    unfold pack. rewrite <-!app_assoc. cbn [decode_entries cursor_next app].
    rewrite (proj2 (operation_try_from_Some _ (entry_operation e)) eq_refl).
    cbn [mbind option_bind].
    rewrite (cursor_read_to_be 20). cbn [mbind option_bind].
    rewrite (cursor_read_to_be 32). cbn [mbind option_bind].
    rewrite (cursor_read_to_be 32). cbn [mbind option_bind].
    rewrite !from_to_be_bytes, !N.mod_small; [|first [exact Hto|exact Hvalue|unfold u64_max in Hdata; lia]..].
    rewrite (proj2 (usize_try_from_Some _ _) (conj eq_refl Hdata)). cbn [mbind option_bind].
    rewrite cursor_read_app. cbn [mbind option_bind]. by rewrite Htxs.
Qed.

Lemma decode_entries_fuel fuel safe v cursor txs :
  (length cursor ≤ fuel)%nat →
  decode_entries fuel safe v cursor = Some txs ↔
  ∃ entries, Forall entry_wf entries ∧ cursor = entries ≫= pack ∧
    txs = entry_tx safe v <$> entries.
Proof.
  revert cursor txs. induction fuel as [|fuel IH]; intros cursor txs Hlen.
  { destruct cursor; [|simpl in Hlen; lia]. simpl. split.
    - intros [= <-]. by exists [].
    - intros ([|e entries] & _ & E & ->); [done|].
      pose proof (pack_length e). apply (f_equal length) in E.
      rewrite bind_cons, length_app in E. simpl in E. lia. }
  rewrite decode_entries_S. split.
  - intros [[-> ->]|(e & rest & txs' & He & -> & -> & H)]; [by exists []|].
    pose proof (pack_length e). rewrite length_app in Hlen.
    apply IH in H as (entries & ? & -> & ->); [|lia].
    exists (e :: entries). rewrite bind_cons. split_and!; [by constructor|done|done].
  - intros ([|e entries] & Hwf & -> & ->); [by left|]. right.
    apply Forall_cons in Hwf as [He Hwf]. exists e, (entries ≫= pack), (entry_tx safe v <$> entries).
    split_and!; [done|done|done|]. pose proof (pack_length e).
    rewrite bind_cons, length_app in Hlen. apply IH; [lia|]. by exists entries.
Qed.

(** [C24] The batch decoder and the packed encoding are inverse to each other: a
    blob decodes exactly if it is the concatenation of well-formed packed entries,
    to the calls they stand for, in order and with the zero address standing for
    the Safe in the newer contracts. *)
Theorem multi_send_packing safe data v txs :
  decode_multi_send safe data v = Some txs ↔
  ∃ entries, Forall entry_wf entries ∧ data = entries ≫= pack ∧
    txs = entry_tx safe v <$> entries.
Proof. by apply decode_entries_fuel. Qed.

(** ** Sub-transactions *)

Section sub_transactions.
Context {EL : EngineLibs}.

Lemma decode_multi_send_call_Some tx subs delegates :
  decode_multi_send_call tx = Some (subs, delegates) ↔
  SafeTransaction.operation tx = DELEGATECALL ∧
  ∃ v transactions, known_deployment (SafeTransaction.to tx) = Some (v, delegates) ∧
    abi_decode multiSend (SafeTransaction.data tx) = Some transactions ∧
    decode_multi_send (SafeTransaction.safe tx) transactions v = Some subs.
Proof.
  unfold decode_multi_send_call. case_decide as Hop; [naive_solver|].
  split.
  - intros H. split; [done|].
    apply bind_Some in H as ([v d] & Hv & H). apply bind_Some in H as (ts & Hts & H).
    apply bind_Some in H as (subs' & Hsubs & [= <- <-]). by exists v, ts.
  - intros (_ & v & ts & -> & Hts & Hsubs). simpl. rewrite Hts. simpl. by rewrite Hsubs.
Qed.

Lemma decode_multi_send_call_CALL tx :
  SafeTransaction.operation tx = CALL → decode_multi_send_call tx = None.
Proof. intros H. unfold decode_multi_send_call. by rewrite decide_True by (by rewrite H). Qed.

Lemma sub_transactions_CALL tx :
  SafeTransaction.operation tx = CALL → sub_transactions tx = [tx].
Proof. intros H. unfold sub_transactions. by rewrite decode_multi_send_call_CALL. Qed.

(** Every call of a batch is one of its packed entries. *)
Lemma sub_transaction_entry tx subs delegates sub :
  decode_multi_send_call tx = Some (subs, delegates) → sub ∈ subs →
  ∃ v e, entry_wf e ∧ sub = entry_tx (SafeTransaction.safe tx) v e ∧
    (length (entry_data e) < length (SafeTransaction.data tx))%nat.
Proof.
  intros (_ & v & ts & _ & Hts & Hsubs)%decode_multi_send_call_Some Hsub.
  apply decode_entries_fuel in Hsubs as (entries & Hwf & -> & ->); [|done].
  apply list_elem_of_fmap in Hsub as (e & -> & He). exists v, e.
  rewrite Forall_forall in Hwf. split_and!; [by apply Hwf|done|].
  apply multi_send_inside in Hts. apply list_elem_of_split in He as (l1 & l2 & ->).
  rewrite bind_app, bind_cons, !length_app in Hts. unfold pack in Hts at 2.
  rewrite !length_app, !length_to_be_bytes in Hts. simpl in Hts. lia.
Qed.
End sub_transactions.
