(* ===== verification/TargetEffects.v ===== *)
(** * Target effects: [contracts/target_effects.rs]

    The value and the authority a transaction hands out, through every level of
    nested batches. *)

From S2P Require Import Prelude.
From S2P Require Import Bytes.
From S2P Require Import Bindings.
From S2P Require Import EngineBindings.
From S2P Require Import MultiSend.

Inductive EffectKind :=
  | ValueTransfer (amount : U256)
  | Erc20Approval (amount : U256)
  | OperatorApproval (approved : bool)
  | Erc721Transfer (token_id : U256)
  | Erc1155Transfer (id amount : U256)
  | Erc1155BatchTransfer (ids amounts : list U256).

Record TargetEffect := { recipient : Address; effect_kind : EffectKind }.

Section effects.
Context {EL : EngineLibs}.

(** What calldata does to a token, if anything. *)
Definition token_effect (data : Bytes) : option TargetEffect :=
  match abi_decode transfer data with
  | Some call => Some {| recipient := transferCall.to call;
                         effect_kind := ValueTransfer (transferCall.amount call) |}
  | None =>
  match abi_decode transferFrom data with
  | Some call => Some {| recipient := transferFromCall.to call;
                         effect_kind := ValueTransfer (transferFromCall.amount call) |}
  | None =>
  match abi_decode approve data with
  | Some call => Some {| recipient := approveCall.spender call;
                         effect_kind := Erc20Approval (approveCall.amount call) |}
  | None =>
  match abi_decode setApprovalForAll data with
  | Some call => Some {| recipient := setApprovalForAllCall.operator call;
                         effect_kind := OperatorApproval (setApprovalForAllCall.approved call) |}
  | None =>
  match abi_decode safeTransferFrom_0 data with
  | Some call => Some {| recipient := safeTransferFrom_0Call.to call;
                         effect_kind := Erc721Transfer (safeTransferFrom_0Call.tokenId call) |}
  | None =>
  match abi_decode safeTransferFrom_1 data with
  | Some call => Some {| recipient := safeTransferFrom_1Call.to call;
                         effect_kind := Erc721Transfer (safeTransferFrom_1Call.tokenId call) |}
  | None =>
  match abi_decode erc1155_safeTransferFrom data with
  | Some call => Some {| recipient := erc1155_safeTransferFromCall.to call;
                         effect_kind := Erc1155Transfer (erc1155_safeTransferFromCall.id call)
                           (erc1155_safeTransferFromCall.amount call) |}
  | None =>
  match abi_decode safeBatchTransferFrom data with
  | Some call => Some {| recipient := safeBatchTransferFromCall.to call;
                         effect_kind := Erc1155BatchTransfer (safeBatchTransferFromCall.ids call)
                           (safeBatchTransferFromCall.amounts call) |}
  | None => None
  end end end end end end end end.

Definition decode_call (tx : SafeTransaction) : list TargetEffect :=
  (if decide (SafeTransaction.value tx = 0) then []
   else [{| recipient := SafeTransaction.to tx;
            effect_kind := ValueTransfer (SafeTransaction.value tx) |}]) ++
  (if decide (SafeTransaction.data tx = []) then []
   else option_list (token_effect (SafeTransaction.data tx))).

(** The recursion of [decode_target_effects]; the calldata gets shorter with each
    level. *)
Fixpoint decode_effects (fuel : nat) (tx : SafeTransaction) : list TargetEffect :=
  match fuel with
  | O => []
  | S fuel =>
      match decode_multi_send_call tx with
      | Some (sub_txs, _) => sub_txs ≫= decode_effects fuel
      | None => decode_call tx
      end
  end.

Definition decode_target_effects (tx : SafeTransaction) : list TargetEffect :=
  decode_effects (S (length (SafeTransaction.data tx))) tx.

(** ** The recursion ends *)

Lemma sub_transaction_shorter tx subs delegates sub :
  decode_multi_send_call tx = Some (subs, delegates) → sub ∈ subs →
  (length (SafeTransaction.data sub) < length (SafeTransaction.data tx))%nat.
Proof.
  intros E Hsub. by destruct (sub_transaction_entry _ _ _ _ E Hsub) as (v & e & _ & -> & ?).
Qed.

(** One level of the recursion, as the source writes it. *)
Definition effects_step (rec : SafeTransaction → list TargetEffect) (tx : SafeTransaction)
    : list TargetEffect :=
  match decode_multi_send_call tx with
  | Some (sub_txs, _) => sub_txs ≫= rec
  | None => decode_call tx
  end.

Lemma bind_ext_in {A B} (f g : A → list B) l :
  (∀ x, x ∈ l → f x = g x) → l ≫= f = l ≫= g.
Proof.
  induction l as [|x l IH]; intros H; [done|]. rewrite !bind_cons.
  rewrite H by left. by rewrite IH by (intros; apply H; by right).
Qed.

(** With enough fuel the recursion is the only solution of its equation. *)
Lemma decode_effects_unique rec fuel tx :
  (∀ tx, rec tx = effects_step rec tx) → (length (SafeTransaction.data tx) < fuel)%nat →
  decode_effects fuel tx = rec tx.
Proof.
  intros Hrec. revert tx. induction fuel as [|fuel IH]; intros tx Hlen; [lia|].
  rewrite Hrec. simpl. unfold effects_step.
  destruct (decode_multi_send_call tx) as [[subs delegates]|] eqn:E; [|done].
  apply bind_ext_in. intros sub Hsub. apply IH.
  pose proof (sub_transaction_shorter _ _ _ _ E Hsub). lia.
Qed.

Lemma decode_effects_more fuel fuel' tx :
  (length (SafeTransaction.data tx) < fuel)%nat →
  (length (SafeTransaction.data tx) < fuel')%nat →
  decode_effects fuel tx = decode_effects fuel' tx.
Proof.
  revert fuel' tx. induction fuel as [|fuel IH]; intros [|fuel'] tx Hf Hf'; [lia..|]. simpl.
  destruct (decode_multi_send_call tx) as [[subs delegates]|] eqn:E; [|done].
  apply bind_ext_in. intros sub Hsub.
  pose proof (sub_transaction_shorter _ _ _ _ E Hsub). apply IH; lia.
Qed.

Lemma decode_target_effects_step tx :
  decode_target_effects tx = effects_step decode_target_effects tx.
Proof.
  unfold decode_target_effects at 1. simpl. unfold effects_step.
  destruct (decode_multi_send_call tx) as [[subs delegates]|] eqn:E; [|done].
  apply bind_ext_in. intros sub Hsub. unfold decode_target_effects.
  pose proof (sub_transaction_shorter _ _ _ _ E Hsub). apply decode_effects_more; lia.
Qed.

(** An effect of some call a transaction makes, however deeply batched. *)
Inductive has_effect (effect : TargetEffect) : SafeTransaction → Prop :=
  | effect_call tx :
      decode_multi_send_call tx = None → effect ∈ decode_call tx → has_effect effect tx
  | effect_batch tx subs delegates sub :
      decode_multi_send_call tx = Some (subs, delegates) → sub ∈ subs →
      has_effect effect sub → has_effect effect tx.

Lemma has_effect_decoded effect tx :
  has_effect effect tx ↔ effect ∈ decode_target_effects tx.
Proof.
  split.
  - induction 1 as [tx E He|tx subs delegates sub E Hsub _ IH];
      rewrite decode_target_effects_step; unfold effects_step; rewrite E; [done|].
    apply list_elem_of_bind. by exists sub.
  - remember (length (SafeTransaction.data tx)) as n eqn:Hn. revert tx Hn.
    induction (lt_wf n) as [n _ IH]. intros tx ->.
    rewrite decode_target_effects_step. unfold effects_step.
    destruct (decode_multi_send_call tx) as [[subs delegates]|] eqn:E; [|by apply effect_call].
    intros (sub & He & Hsub)%list_elem_of_bind. eapply effect_batch; [done..|].
    eapply IH; [|done|done]. by eapply sub_transaction_shorter.
Qed.

(** [C25] The decoding of effects ends on every transaction, however batches are
    nested in each other: it is the one function that solves the recursion of the
    source, and it finds exactly the effects of the calls the batches lead to. *)
Theorem target_effects_complete tx :
  decode_target_effects tx = effects_step decode_target_effects tx ∧
  (∀ rec, (∀ tx, rec tx = effects_step rec tx) → rec tx = decode_target_effects tx) ∧
  ∀ effect, effect ∈ decode_target_effects tx ↔ has_effect effect tx.
Proof.
  split_and!; [apply decode_target_effects_step| |].
  - intros rec Hrec. symmetry. apply decode_effects_unique; [done|lia].
  - intros effect. by rewrite has_effect_decoded.
Qed.
End effects.
