(* ===== verification/Checkers.v ===== *)
(** * The local checkers: [engine/rule.rs], [engine/mod.rs], [checkers/]

    The engine's verdicts and the checkers that look at the transaction alone:
    [cancellation], [escape_hatch], [base], [blocklist], [nested],
    [excessive_approval] and [staking]. *)

From S2P Require Import Prelude.
From S2P Require Import Bytes.
From S2P Require Import Bindings.
From S2P Require Import EngineBindings.
From S2P Require Import MultiSend.
From S2P Require Import TargetEffects.

(** ** Rules and verdicts *)

Module EngineRule.
(** [RuleId]. *)
Inductive t : Set :=
  | R4_1SettingsChange | R4_2DelegatecallIntegrity | R4_6KnownMaliciousTarget
  | R4_5ExcessiveApproval | R4_3ValueTarget | R4_4AuthorizationTarget.

#[export] Instance t_eq_dec : EqDecision t.
Proof. solve_decision. Defined.

(** [code] and [from_code]; a code is ["R-4."] and a digit. *)
Definition code (rule : t) : Bytes :=
  [x52; x2d; x34; x2e] ++
  match rule with
  | R4_1SettingsChange => [x31]
  | R4_2DelegatecallIntegrity => [x32]
  | R4_6KnownMaliciousTarget => [x36]
  | R4_5ExcessiveApproval => [x35]
  | R4_3ValueTarget => [x33]
  | R4_4AuthorizationTarget => [x34]
  end.

Definition from_code (c : Bytes) : option t :=
  snd <$> list_find (λ rule, code rule = c)
    [R4_1SettingsChange; R4_2DelegatecallIntegrity; R4_6KnownMaliciousTarget;
     R4_5ExcessiveApproval; R4_3ValueTarget; R4_4AuthorizationTarget].
End EngineRule.
Import EngineRule.

Module Verdict.
Inductive t : Set := Secure | Insecure (rule : EngineRule.t) | Abstain.

#[export] Instance t_eq_dec : EqDecision t.
Proof. solve_decision. Defined.
End Verdict.
Import Verdict.

(** [CheckContext]. *)
Record CheckContext := { block : N }.

(** A checker that needs nothing but the transaction. *)
Abbreviation LocalChecker := (SafeTransaction → Verdict.t).

Section checkers.
Context {EL : EngineLibs}.

Abbreviation operation := SafeTransaction.operation.
Abbreviation safe := SafeTransaction.safe.
Abbreviation to := SafeTransaction.to.
Abbreviation value := SafeTransaction.value.
Abbreviation data := SafeTransaction.data.

(** ** Cancellations: [cancellation.rs] *)

Definition cancellation_of (tx : SafeTransaction) : SafeTransaction :=
  SafeTransaction.mk (SafeTransaction.chainId tx) (safe tx) (safe tx) 0 [] CALL 0 0 0
    Address_ZERO Address_ZERO (SafeTransaction.nonce tx).

Definition check_cancellation : LocalChecker := λ tx,
  if decide (tx = cancellation_of tx) then Secure else Abstain.

(** ** The escape hatch: [escape_hatch.rs] *)

Definition is_escape_hatch_call (tx : SafeTransaction) : bool :=
  if decide (operation tx ≠ CALL ∨ value tx ≠ 0 ∨ SafeTransaction.gasPrice tx ≠ 0) then false
  else starts_with (data tx) announceTransaction || starts_with (data tx) cancelAnnouncement.

Definition check_escape_hatch : LocalChecker := λ tx,
  if is_escape_hatch_call tx then Secure else Abstain.

(** ** Base guarantees: [base.rs] *)

Definition SUPPORTED_FALLBACK_HANDLERS : list Address :=
  [Address_ZERO; 0x85a8ca358D388530ad0fB95D0cb89Dd44Fc242c3;
   0x2f55e8b20D0B9FEFA187AA7d00B6Cbe563605bF5; 0x3EfCBb83A4A7AfcB4F68D501E2c2203a38be77f4;
   0xfd0732Dc9E303f09fCEf3a7388Ad10A83459Ec99; 0xf48f2B2d2a534e402487b3ee7C18c33Aec0Fe5e4;
   0x017062a1dE2FE6b99BE3d9d37841FeD19F573804].
Definition SUPPORTED_GUARDS : list Address := [Address_ZERO].
Definition SUPPORTED_MODULES : list Address :=
  [0x691f59471Bfd2B7d639DCF74671a2d648ED1E331; 0x4Aa5Bf7D840aC607cb5BD3249e6Af6FC86C04897].
Definition SUPPORTED_MODULE_GUARDS : list Address := [Address_ZERO].
Definition MIGRATION_CONTRACTS : list Address :=
  [0x6439e7ABD8Bb915A5263094784C5CF561c4172AC; 0x526643F69b81B008F46d95CD5ced5eC0edFFDaC6].
Definition SIGN_MESSAGE_LIBS : list Address :=
  [0xA65387F16B013cf2Af4605Ad8aA5ec25a2cbA3a2; 0x98FFBBF51bb33A056B08ddf711f289936AafF717;
   0xd53cd0aB83D845Ac265BE939c57F53AD838012c9; 0x4FfeF8222648872B3dE295Ba1e49110E61f5b5aa].
Definition CREATE_CALL_CONTRACTS : list Address :=
  [0x7cbB62EaA69F79e6873cD1ecB2392971036cFAa4; 0xB19D6FFc2182150F8Eb585b79D4ABcd7C5640A9d;
   0x9b35Af71d77eaf8d7e40252370304687390A1A52; 0x2Ef5ECfbea521449E4De05EDB1ce63B75eDA90B4].

(** [abi_decode(data).ok().is_some_and(|call| allowed.contains(argument))]. *)
Definition decodes_to (argument : option Address) (allowed : list Address) : bool :=
  match argument with Some a => bool_decide (a ∈ allowed) | None => false end.

Definition check_self_calls (tx : SafeTransaction) : bool :=
  if starts_with (data tx) addOwnerWithThreshold then true
  else if starts_with (data tx) removeOwner then true
  else if starts_with (data tx) swapOwner then true
  else if starts_with (data tx) changeThreshold then true
  else if starts_with (data tx) disableModule then true
  else if starts_with (data tx) setFallbackHandler then
    decodes_to (abi_decode setFallbackHandler (data tx)) SUPPORTED_FALLBACK_HANDLERS
  else if starts_with (data tx) setGuard then
    decodes_to (abi_decode setGuard (data tx)) SUPPORTED_GUARDS
  else if starts_with (data tx) enableModule then
    decodes_to (abi_decode enableModule (data tx)) SUPPORTED_MODULES
  else if starts_with (data tx) setModuleGuard then
    decodes_to (abi_decode setModuleGuard (data tx)) SUPPORTED_MODULE_GUARDS
  else false.

Definition check_calls (tx : SafeTransaction) : bool :=
  if decide (operation tx ≠ CALL) then false
  else if decide (safe tx ≠ to tx) then true
  else if decide (data tx = []) then true
  else check_self_calls tx.

Definition check_delegate_calls (tx : SafeTransaction) : bool :=
  if decide (operation tx ≠ DELEGATECALL) then false
  else if decide (to tx ∈ MIGRATION_CONTRACTS) then
    starts_with (data tx) migrateSingleton || starts_with (data tx) migrateWithFallbackHandler ||
    starts_with (data tx) migrateL2Singleton ||
    starts_with (data tx) migrateL2WithFallbackHandler
  else if decide (to tx ∈ SIGN_MESSAGE_LIBS) then starts_with (data tx) signMessage
  else if decide (to tx ∈ CREATE_CALL_CONTRACTS) then
    starts_with (data tx) performCreate || starts_with (data tx) performCreate2
  else false.

Definition check_multi_send (tx : SafeTransaction) : bool :=
  match decode_multi_send_call tx with
  | None => false
  | Some (sub_txs, allows_delegate_calls) =>
      forallb (λ sub_tx, check_calls sub_tx ||
        (allows_delegate_calls && check_delegate_calls sub_tx)) sub_txs
  end.

Definition check_settings_change (tx : SafeTransaction) : option (result () EngineRule.t) :=
  if decide (operation tx ≠ CALL) then None
  else Some (if check_calls tx then Ok () else Err R4_1SettingsChange).

Definition check_delegatecall_integrity (tx : SafeTransaction)
    : option (result () EngineRule.t) :=
  if decide (operation tx ≠ DELEGATECALL) then None
  else Some (if check_delegate_calls tx || check_multi_send tx then Ok ()
             else Err R4_2DelegatecallIntegrity).

Definition check_transaction (tx : SafeTransaction) : result () EngineRule.t :=
  match check_settings_change tx with
  | Some r => r
  | None => default (Err R4_1SettingsChange) (check_delegatecall_integrity tx)
  end.

Definition check_base : LocalChecker := λ tx,
  match check_transaction tx with Ok _ => Abstain | Err rule => Insecure rule end.

(** ** The blocklist: [blocklist.rs] *)

(** [BlocklistChecker::new] collects the addresses into a set. *)
Definition check_blocklist (blocklist : gset Address) : LocalChecker := λ tx,
  if decide (to tx ∈ blocklist) then Insecure R4_6KnownMaliciousTarget else Abstain.

(** ** Nested Safes: [nested.rs] *)

Definition is_nested_exec_transaction (tx : SafeTransaction) : bool :=
  bool_decide (operation tx = CALL) && bool_decide (to tx ≠ safe tx) &&
  starts_with (data tx) execTransaction &&
  bool_decide (is_Some (abi_decode execTransaction (data tx))).

Definition check_nested : LocalChecker := λ tx,
  if is_nested_exec_transaction tx then Secure else Abstain.

(** ** Excessive approvals: [excessive_approval.rs] *)

(** [U256::MAX]. *)
Definition U256_MAX : U256 := 2 ^ 256 - 1.

Definition unlimited (effect : TargetEffect) : bool :=
  match effect_kind effect with
  | Erc20Approval amount => bool_decide (amount = U256_MAX)
  | OperatorApproval approved => approved
  | _ => false
  end.

Definition check_excessive_approval : LocalChecker := λ tx,
  if existsb unlimited (decode_target_effects tx) then Insecure R4_5ExcessiveApproval
  else Abstain.

(** ** Staking: [staking.rs] *)

Definition STAKING : Address := 0x115E78f160e1E3eF163B05C84562Fa16fA338509.
Definition SAFE_TOKEN : Address := 0x5aFE3855358E112B5647B952709E6165e1c1eEEe.
Definition REWARDS_DISTRIBUTOR : Address := 0xe5139fc0fb8eae81e30d8a85c22e88c6757120f2.
Definition SUPPORTED_CHAIN_ID : N := 1.

Definition claim_account (tx : SafeTransaction) : option Address :=
  if decide (operation tx ≠ CALL ∨ value tx ≠ 0 ∨ to tx ≠ REWARDS_DISTRIBUTOR) then None
  else claimCall.account <$> abi_decode staking_claim (data tx).

Definition staking_approval_amount (tx : SafeTransaction) : option U256 :=
  if decide (operation tx ≠ CALL ∨ value tx ≠ 0 ∨ to tx ≠ SAFE_TOKEN) then None
  else
    call ← abi_decode approve (data tx);
    if decide (approveCall.spender call = STAKING) then Some (approveCall.amount call) else None.

Definition stake_amount (tx : SafeTransaction) : option U256 :=
  if decide (operation tx ≠ CALL ∨ value tx ≠ 0 ∨ to tx ≠ STAKING) then None
  else stakeCall.amount <$> abi_decode stake (data tx).

Definition check_lone_call (call : SafeTransaction) : Verdict.t :=
  match stake_amount call with Some _ => Secure | None => Abstain end.

Definition check_pair (first second : SafeTransaction) : Verdict.t :=
  match staking_approval_amount first, stake_amount second with
  | Some approved, Some staked =>
      if decide (staked < approved) then Insecure R4_5ExcessiveApproval else Secure
  | _, _ => Abstain
  end.

(** The loop over the calls: a claim for another account ends the check, else
    whether there was a claim, and the other calls. *)
Fixpoint claims_aside (safe : Address) (calls : list SafeTransaction) (claimed : bool)
    (remaining : list SafeTransaction) : option (bool * list SafeTransaction) :=
  match calls with
  | [] => Some (claimed, remaining)
  | call :: calls =>
      match claim_account call with
      | Some account =>
          if decide (account ≠ safe) then None else claims_aside safe calls true remaining
      | None => claims_aside safe calls claimed (remaining ++ [call])
      end
  end.

Definition check_staking : LocalChecker := λ tx,
  if decide (SafeTransaction.chainId tx ≠ SUPPORTED_CHAIN_ID) then Abstain else
  match claims_aside (safe tx) (sub_transactions tx) false [] with
  | None => Insecure R4_3ValueTarget
  | Some (claimed, remaining) =>
      match remaining with
      | [] => if claimed then Secure else Abstain
      | [call] => check_lone_call call
      | [first; second] => check_pair first second
      | _ => Abstain
      end
  end.
End checkers.
