(* ===== verification/Poisoning.v ===== *)
(** * Address poisoning and refunds: [address_poisoning.rs], [refund.rs]

    The checkers that compare a recipient with the addresses the Safe has dealt
    with, over the logs a node serves; and their properties: an address is
    poisonous exactly by the history of the Safe's transfers. *)

From S2P Require Import Prelude.
From S2P Require Import Bytes.
From S2P Require Import Bindings.
From S2P Require Import Provider.
From S2P Require Import EngineBindings.
From S2P Require Import MultiSend.
From S2P Require Import Checkers.
Import EngineRule Verdict.

(** ** 256-bit arithmetic *)

Definition u256_saturating_add (x y : U256) : U256 := N.min (x + y) U256_MAX.
Definition u256_saturating_mul (x y : U256) : U256 := N.min (x * y) U256_MAX.
Definition u256_checked_mul (x y : U256) : option U256 :=
  if decide (x * y ≤ U256_MAX) then Some (x * y) else None.

(** ** The outside of a check *)

(** The [Filter] of [established_recipients]: its first topic is the signature of
    [Transfer] or [Approval], its second the Safe. *)
Record LogFilter := {
  filter_address : Address;
  filter_topic1 : Address;
  from_block : N;
  to_block : N;
}.

(** What [CowChecker] receives for an order: see [CowOrder] in [Cow.v]. *)
Record CowOrder := {
  owner : Address;
  order_receiver : option Address;
  sell_token : Address;
  buy_token : Address;
  sell_amount : U256;
  buy_amount : U256;
  valid_to : N;
  app_data : B256;
  fee_amount : U256;
  order_kind : Bytes;
  partially_fillable : bool;
  sell_token_balance : Bytes;
  buy_token_balance : Bytes;
}.

(** The hosts of [order_api_base_url]: [https://api.cow.fi/mainnet], [xdai] and
    [arbitrum_one]. *)
Inductive OrderApiHost := CowMainnet | CowXdai | CowArbitrumOne.

(** What the requests of a check are answered, in the order they are made. *)
Record Outside := {
  logs_reply : nat → LogFilter → result (list Log) RpcError;
  order_reply : nat → OrderApiHost → Bytes → option CowOrder;
}.

(** A computation that makes requests. *)
Abbreviation checking A := (Outside → A * Outside).
Definition checking_ret {A} (a : A) : checking A := λ w, (a, w).
Definition checking_bind {A B} (m : checking A) (f : A → checking B) : checking B :=
  λ w, let '(a, w) := m w in f a w.
Notation "x ←$ m ; k" := (checking_bind m (λ x, k))
  (at level 20, m at level 100, k at level 200, right associativity) : safenet_scope.

(** [provider.get_logs(&filter)]. *)
Definition get_logs (filter : LogFilter) : checking (result (list Log) RpcError) := λ w,
  (logs_reply w 0 filter,
   {| logs_reply := λ n, logs_reply w (S n); order_reply := order_reply w |}).

(** [order_api.fetch_order(base_url, order_uid)]. *)
Definition fetch_order (host : OrderApiHost) (order_uid : Bytes) : checking (option CowOrder) :=
  λ w, (order_reply w 0 host order_uid,
        {| logs_reply := logs_reply w; order_reply := λ n, order_reply w (S n) |}).

(** [Checker::check]. *)
Abbreviation Checker := (SafeTransaction → CheckContext → checking Verdict.t).

(** ** Lookalikes *)

Definition nibbles (address : Address) : list N :=
  b ← to_be_bytes 20 address; [Byte.to_N b / 16; Byte.to_N b mod 16].

(** [zip(..).take_while(|(x, y)| x == y).count()]. *)
Fixpoint common_prefix (a b : list N) : nat :=
  match a, b with
  | x :: a, y :: b => if decide (x = y) then S (common_prefix a b) else O
  | _, _ => O
  end.

Definition is_lookalike (established candidate : Address) : bool :=
  if decide (established = candidate) then false else
  let a := nibbles established in
  let b := nibbles candidate in
  bool_decide (4 ≤ common_prefix a b)%nat &&
  bool_decide (4 ≤ common_prefix (reverse a) (reverse b))%nat.

(** ** Targets *)

Inductive TargetKind := TTransfer | TApproval.

Definition target_rule (k : TargetKind) : EngineRule.t :=
  match k with TTransfer => R4_3ValueTarget | TApproval => R4_4AuthorizationTarget end.

(** ** Chunks *)

(** The closure of [block_chunks] over [start] and [done]. *)
Definition chunk_next (to max_range : N) (s : N * bool) : option ((N * N) * (N * bool)) :=
  let '(start, done) := s in
  if done : bool then None
  else
    let stop := N.min (saturating_add start max_range) to in
    Some ((start, stop), (saturating_add stop 1, bool_decide (to ≤ stop))).

(** The chunks the iterator yields. *)
Fixpoint chunks_from (fuel : nat) (to max_range : N) (s : N * bool) : list (N * N) :=
  match fuel with
  | O => []
  | S fuel =>
      match chunk_next to max_range s with
      | None => []
      | Some (chunk, s) => chunk :: chunks_from fuel to max_range s
      end
  end.

Definition block_chunks (from to : N) (max_range : option positive) : list (N * N) :=
  chunks_from (S (N.to_nat (to - from))) to (from_option Npos u64_max max_range) (from, false).

Section poisoning.
Context {EL : EngineLibs}.
Open Scope safenet_scope.

Definition decode_target (tx : SafeTransaction) : option (Address * TargetKind) :=
  let data := SafeTransaction.data tx in
  if decide (SafeTransaction.operation tx ≠ CALL) then None else
  match abi_decode transfer data with
  | Some call =>
      if decide (transferCall.amount call ≠ 0) then Some (transferCall.to call, TTransfer) else None
  | None =>
  match abi_decode transferFrom data with
  | Some call =>
      if decide (transferFromCall.from call = SafeTransaction.safe tx ∧
                 transferFromCall.amount call ≠ 0)
      then Some (transferFromCall.to call, TTransfer) else None
  | None =>
  match abi_decode approve data with
  | Some call =>
      if decide (approveCall.amount call ≠ 0)
      then Some (approveCall.spender call, TApproval) else None
  | None => None
  end end end.

(** The [HashSet] of recipients is only searched. *)
Inductive RecipientLookup :=
  | ExactMatch
  | NoExactMatch (recipients : gset Address) (complete : bool).

Definition decode_target_and_amount (log : Log) : option (Address * U256) :=
  signature ← head (raw_topics log);
  if decide (signature = Transfer_SIGNATURE_HASH) then
    (λ e, (Transfer.to e, Transfer.amount e)) <$>
      Transfer_decode_log_data (raw_topics log) (raw_data log)
  else if decide (signature = Approval_SIGNATURE_HASH) then
    (λ e, (Approval.spender e, Approval.amount e)) <$>
      Approval_decode_log_data (raw_topics log) (raw_data log)
  else None.

(** The loop over the decoded logs of a chunk; [None] is an exact match. *)
Fixpoint scan_logs (candidate : Address) (logs : list (Address * U256)) (recipients : gset Address)
    : option (gset Address) :=
  match logs with
  | [] => Some recipients
  | (target, amount) :: logs =>
      if decide (amount = 0) then scan_logs candidate logs recipients
      else if decide (target = candidate) then None
      else scan_logs candidate logs ({[target]} ∪ recipients)
  end.

(** The loop over the chunks. *)
Fixpoint scan_chunks (token safe candidate : Address) (chunks : list (N * N))
    (recipients : gset Address) : checking (result RecipientLookup RpcError) :=
  match chunks with
  | [] => checking_ret (Ok (NoExactMatch recipients true))
  | (chunk_from, chunk_to) :: chunks =>
      logs ←$ get_logs {| filter_address := token; filter_topic1 := safe;
                          from_block := chunk_from; to_block := chunk_to |};
      match logs with
      | Err error =>
          if decide (recipients = ∅) then checking_ret (Err error)
          else checking_ret (Ok (NoExactMatch recipients false))
      | Ok logs =>
          match scan_logs candidate (omap decode_target_and_amount logs) recipients with
          | None => checking_ret (Ok ExactMatch)
          | Some recipients => scan_chunks token safe candidate chunks recipients
          end
      end
  end.

(** [AddressPoisoningChecker]; of the provider, its chain. *)
Record AddressPoisoningChecker := {
  provider_chain_id : N;
  lookback_blocks : N;
  max_block_range : option positive;
}.

Context (c : AddressPoisoningChecker).

Definition established_recipients (token safe candidate : Address) (current_block : N)
    : checking (result RecipientLookup RpcError) :=
  scan_chunks token safe candidate
    (block_chunks (saturating_sub current_block (lookback_blocks c)) current_block
       (max_block_range c)) ∅.

Definition check_poisoning : Checker := λ tx context,
  match decode_target tx with
  | None => checking_ret Abstain
  | Some (candidate, kind) =>
      if decide (SafeTransaction.chainId tx ≠ provider_chain_id c) then checking_ret Abstain else
      lookup ←$ established_recipients (SafeTransaction.to tx) (SafeTransaction.safe tx) candidate
                  (block context);
      checking_ret
        match lookup with
        | Ok ExactMatch => Secure
        | Ok (NoExactMatch recipients complete) =>
            if existsb (λ r, is_lookalike r candidate) (elements recipients) then
              if complete : bool then Insecure (target_rule kind) else Abstain
            else Abstain
        | Err _ => Abstain
        end
  end.

(** ** Refunds: [refund.rs] *)

Definition refund_transfer (tx : SafeTransaction) : option SafeTransaction :=
  if decide (SafeTransaction.gasPrice tx = 0 ∨ SafeTransaction.gasToken tx = Address_ZERO ∨
             SafeTransaction.refundReceiver tx = Address_ZERO) then None
  else
    Some (SafeTransaction_call (SafeTransaction.safe tx) (SafeTransaction.gasToken tx) 0
      (transfer_abi_encode (transferCall.mk (SafeTransaction.refundReceiver tx)
         (u256_saturating_mul (SafeTransaction.gasPrice tx)
            (u256_saturating_add (SafeTransaction.safeTxGas tx) (SafeTransaction.baseGas tx)))))
      CALL).

Definition deny_or_abstain (verdict : Verdict.t) : Verdict.t :=
  match verdict with Secure => Abstain | verdict => verdict end.

Definition check_refund : Checker := λ tx context,
  match refund_transfer tx with
  | None => checking_ret Abstain
  | Some refund =>
      verdict ←$ check_poisoning refund context;
      checking_ret (deny_or_abstain verdict)
  end.
End poisoning.

(** ** Lookalikes *)

Lemma common_prefix_take n a b :
  (n ≤ length a)%nat → (n ≤ length b)%nat → (n ≤ common_prefix a b)%nat ↔ take n a = take n b.
Proof.
  revert a b. induction n as [|n IH]; intros [|x a] [|y b] Ha Hb; simpl in *; try lia;
    try (split; [done|lia]).
  case_decide as Hxy.
  - subst. rewrite <-Nat.succ_le_mono, IH by lia. split; [by intros ->|by intros [= ->]].
  - split; [lia|congruence].
Qed.

(** The digits of a byte. *)
Definition byte_nibbles (b : byte) : list N := [Byte.to_N b / 16; Byte.to_N b mod 16].

Lemma byte_nibbles_inj b b' : byte_nibbles b = byte_nibbles b' → b = b'.
Proof.
  intros [= Hdiv Hmod]. assert (Byte.to_N b = Byte.to_N b') as E.
  { rewrite (N.div_mod (Byte.to_N b) 16), (N.div_mod (Byte.to_N b') 16) by done. by rewrite Hdiv, Hmod. }
  pose proof (Byte.of_to_N b) as Hb. rewrite E, Byte.of_to_N in Hb. by injection Hb.
Qed.

Lemma take_nibbles n l : take (2 * n) (l ≫= byte_nibbles) = take n l ≫= byte_nibbles.
Proof.
  revert l. induction n as [|n IH]; intros [|b l]; try done.
  replace (2 * S n)%nat with (S (S (2 * n))) by lia. rewrite bind_cons. simpl app.
  cbn [take]. rewrite IH. by rewrite bind_cons.
Qed.

Lemma drop_nibbles n l : drop (2 * n) (l ≫= byte_nibbles) = drop n l ≫= byte_nibbles.
Proof.
  revert l. induction n as [|n IH]; intros [|b l]; try done.
  replace (2 * S n)%nat with (S (S (2 * n))) by lia. rewrite bind_cons. simpl app.
  cbn [drop]. by rewrite IH.
Qed.

Lemma nibbles_inj l l' : l ≫= byte_nibbles = l' ≫= byte_nibbles → l = l'.
Proof.
  revert l'. induction l as [|b l IH]; intros [|b' l']; rewrite ?bind_cons; try done.
  intros E. change (byte_nibbles b) with ([Byte.to_N b / 16; Byte.to_N b mod 16]) in E.
  change (byte_nibbles b') with ([Byte.to_N b' / 16; Byte.to_N b' mod 16]) in E.
  injection E as E1 E2 E3. f_equal; [|by apply IH].
  apply byte_nibbles_inj. unfold byte_nibbles. by rewrite E1, E2.
Qed.

Lemma length_nibbles l : length (l ≫= byte_nibbles) = (2 * length l)%nat.
Proof. induction l as [|b l IH]; [done|]. rewrite bind_cons, length_app, IH. simpl. lia. Qed.

Lemma nibbles_length a : length (nibbles a) = 40%nat.
Proof.
  transitivity (2 * length (to_be_bytes 20 a))%nat; [apply length_nibbles|].
  by rewrite length_to_be_bytes.
Qed.

(** What [is_lookalike] means on the bytes of the addresses: the same first two
    and last two, and some difference between. *)
Lemma lookalike_bytes established candidate :
  is_lookalike established candidate ↔
  established ≠ candidate ∧
  take 2 (to_be_bytes 20 established) = take 2 (to_be_bytes 20 candidate) ∧
  drop 18 (to_be_bytes 20 established) = drop 18 (to_be_bytes 20 candidate).
Proof.
  unfold is_lookalike. case_decide as E; [naive_solver|].
  rewrite andb_True, !bool_decide_spec, !common_prefix_take, !take_reverse
    by (rewrite ?length_reverse, nibbles_length; lia).
  rewrite !nibbles_length. change (40 - 4)%nat with (2 * 18)%nat.
  change 4%nat with (2 * 2)%nat at 1 2. unfold nibbles. fold byte_nibbles.
  change (λ b : byte, [Byte.to_N b / 16; Byte.to_N b mod 16]) with byte_nibbles.
  rewrite !take_nibbles, !drop_nibbles. split.
  - intros [H1%nibbles_inj H2%(inj reverse)%nibbles_inj]. done.
  - intros (_ & -> & ->). done.
Qed.

(** ** Chunks *)

(** The chunks follow each other from the first block to the last. *)
Fixpoint tiles (from to : N) (chunks : list (N * N)) : Prop :=
  match chunks with
  | [] => False
  | (first, last) :: chunks =>
      first = from ∧ from ≤ last ∧
      match chunks with
      | [] => last = to
      | _ => last < to ∧ tiles (last + 1) to chunks
      end
  end.

Lemma tiles_covers chunks from to x :
  tiles from to chunks →
  (from ≤ x ∧ x ≤ to ↔ ∃ first last, (first, last) ∈ chunks ∧ first ≤ x ∧ x ≤ last).
Proof.
  revert from. induction chunks as [|[first last] chunks IH]; intros from; [done|].
  intros (-> & Hle & Hrest). destruct chunks as [|chunk chunks].
  - subst. split.
    + intros ?. exists from, to. split; [by left|done].
    + intros (a & b & [[= -> ->]|[]%not_elem_of_nil]%elem_of_cons & ?); lia.
  - destruct Hrest as [Hlt Htiles]. specialize (IH _ Htiles). split.
    + intros Hx. destruct (decide (x ≤ last)).
      * exists from, last. split; [by left|lia].
      * destruct IH as [(a & b & ? & ?) _]; [lia|]. exists a, b. split; [by right|done].
    + intros (a & b & [[= -> ->]|Hin]%elem_of_cons & Hx); [lia|].
      destruct IH as [_ IH]. destruct IH as [? ?]; [by exists a, b|lia].
Qed.

Lemma chunks_from_tile fuel from to max_range :
  from ≤ to → to ≤ u64_max → 0 < max_range → (N.to_nat (to - from) < fuel)%nat →
  tiles from to (chunks_from fuel to max_range (from, false)) ∧
  Forall (λ chunk, chunk.2 - chunk.1 ≤ max_range) (chunks_from fuel to max_range (from, false)).
Proof.
  intros Hle Hto Hmax. revert from Hle. induction fuel as [|fuel IH]; intros from Hle Hfuel; [lia|].
  unfold chunks_from; fold chunks_from. unfold chunk_next, saturating_add.
  set (stop := N.min (N.min (from + max_range) u64_max) to).
  assert (from ≤ stop ∧ stop ≤ to ∧ stop - from ≤ max_range) as (? & ? & ?) by lia.
  destruct (decide (to ≤ stop)) as [Hdone|Hdone].
  - rewrite bool_decide_true by done.
    assert (∀ s, chunks_from fuel to max_range (s, true) = []) as E by (by destruct fuel).
    rewrite E. split; [split_and!; lia|]. by apply Forall_singleton.
  - rewrite bool_decide_false by done.
    assert (stop = from + max_range) by lia.
    replace (N.min (stop + 1) u64_max) with (stop + 1) by lia.
    destruct (IH (stop + 1)) as [Htiles Hwidth]; [lia..|]. split.
    + destruct (chunks_from fuel to max_range (stop + 1, false)) as [|c l] eqn:E; [done|].
      split_and!; [done|lia|lia|exact Htiles].
    + constructor; [simpl; lia|exact Hwidth].
Qed.

(** The chunks a window is split into tile it, and none is wider than the
    provider allows. *)
Lemma block_chunks_tile from to max_range :
  from ≤ to → to ≤ u64_max →
  tiles from to (block_chunks from to max_range) ∧
  Forall (λ chunk, chunk.2 - chunk.1 ≤ from_option Npos u64_max max_range)
    (block_chunks from to max_range).
Proof.
  intros Hle Hto. apply chunks_from_tile; [done|done| |lia].
  destruct max_range; simpl; unfold u64_max; lia.
Qed.

(** ** Scans *)

Section scans.
Context {EL : EngineLibs}.

(** The log is one the filter selects. *)
Definition served (f : LogFilter) (log : Log) : Prop :=
  raw_address log = filter_address f ∧
  (head (raw_topics log) = Some Transfer_SIGNATURE_HASH ∨
   head (raw_topics log) = Some Approval_SIGNATURE_HASH) ∧
  raw_topics log !! 1%nat = Some (filter_topic1 f) ∧
  match raw_block_number log with
  | Some number => from_block f ≤ number ∧ number ≤ to_block f
  | None => False
  end.

#[export] Instance served_dec f log : Decision (served f log).
Proof. unfold served. destruct (raw_block_number log); apply _. Defined.

(** The addresses the logs are genuine evidence for. *)
Definition genuine (log : Log) : option Address :=
  '(target, amount) ← decode_target_and_amount log;
  if decide (amount = 0) then None else Some target.

Definition targets (logs : list Log) : gset Address := list_to_set (omap genuine logs).

Lemma elem_of_targets logs a :
  a ∈ targets logs ↔ ∃ log, log ∈ logs ∧ genuine log = Some a.
Proof. unfold targets. by rewrite elem_of_list_to_set, list_elem_of_omap. Qed.

Lemma scan_logs_targets candidate logs recipients :
  scan_logs candidate (omap decode_target_and_amount logs) recipients =
  if decide (candidate ∈ targets logs) then None else Some (targets logs ∪ recipients).
Proof.
  revert recipients. induction logs as [|log logs IH]; intros recipients.
  { simpl. rewrite decide_False by set_solver. f_equal. set_solver. }
  assert (targets (log :: logs) = from_option singleton ∅ (genuine log) ∪ targets logs) as E.
  { unfold targets. simpl. destruct (genuine log); simpl; set_solver. }
  rewrite E. unfold genuine. simpl.
  destruct (decode_target_and_amount log) as [[target amount]|]; simpl.
  - destruct (decide (amount = 0)); simpl; [by rewrite IH, !(left_id_L ∅ (∪))|].
    destruct (decide (target = candidate)) as [->|Hne].
    + by rewrite decide_True by set_solver.
    + rewrite IH. repeat case_decide; try done; [set_solver..|]. f_equal. set_solver.
  - rewrite IH. by rewrite !(left_id_L ∅ (∪)).
Qed.

(** ** A node that serves its logs *)

(** The node answers every request, with the logs of the chain that the filter
    selects. *)
Definition node_serves (chain : list Log) (w : Outside) : Prop :=
  ∀ n f, ∃ logs, logs_reply w n f = Ok logs ∧ ∀ log, log ∈ logs ↔ log ∈ filter (served f) chain.

Definition chunk_filter (token safe : Address) (chunk : N * N) : LogFilter :=
  {| filter_address := token; filter_topic1 := safe;
     from_block := chunk.1; to_block := chunk.2 |}.

(** The addresses the chain has evidence for within some blocks. *)
Definition history (chain : list Log) (token safe : Address) (window : N * N) : gset Address :=
  targets (filter (served (chunk_filter token safe window)) chain).

Lemma elem_of_history chain token safe window a :
  a ∈ history chain token safe window ↔
  ∃ log, log ∈ chain ∧ served (chunk_filter token safe window) log ∧ genuine log = Some a.
Proof.
  unfold history. rewrite elem_of_targets.
  split; [intros (log & [? ?]%list_elem_of_filter & ?)|intros (log & ? & ? & ?)]; exists log;
    [done|]. by rewrite list_elem_of_filter.
Qed.

(** The history of a window is that of the chunks that tile it. *)
Lemma history_tiles chain token safe from to chunks a :
  tiles from to chunks →
  a ∈ history chain token safe (from, to) ↔
  ∃ chunk, chunk ∈ chunks ∧ a ∈ history chain token safe chunk.
Proof.
  intros Htiles. setoid_rewrite elem_of_history. unfold served. simpl. split.
  - intros (log & Hin & (Ht & Hs & Ho & Hb) & Hg). destruct (raw_block_number log) as [x|] eqn:Hx; [|done].
    apply (tiles_covers _ _ _ x Htiles) in Hb as (first & last & Hchunk & Hb).
    exists (first, last). split; [done|]. exists log. by rewrite Hx.
  - intros ([first last] & Hchunk & log & Hin & (Ht & Hs & Ho & Hb) & Hg). exists log.
    destruct (raw_block_number log) as [x|] eqn:Hx; [|done].
    split_and!; try done; apply (tiles_covers _ _ _ x Htiles); by exists first, last.
Qed.

Lemma targets_ext logs logs' :
  (∀ log, log ∈ logs ↔ log ∈ logs') → targets logs = targets logs'.
Proof. intros H. apply set_eq. intros a. rewrite !elem_of_targets. by setoid_rewrite H. Qed.

Lemma node_serves_next chain w :
  node_serves chain w →
  node_serves chain {| logs_reply := λ n, logs_reply w (S n); order_reply := order_reply w |}.
Proof. intros H n f. apply (H (S n) f). Qed.

Lemma scan_chunks_served chain token safe candidate chunks recipients w :
  node_serves chain w →
  let found := ∃ chunk, chunk ∈ chunks ∧ candidate ∈ history chain token safe chunk in
  let r := (scan_chunks token safe candidate chunks recipients w).1 in
  (found ∧ r = Ok ExactMatch) ∨
  (¬ found ∧ ∃ all, r = Ok (NoExactMatch all true) ∧ ∀ a,
     a ∈ all ↔ a ∈ recipients ∨ ∃ chunk, chunk ∈ chunks ∧ a ∈ history chain token safe chunk).
Proof.
  revert recipients w. induction chunks as [|[first last] chunks IH]; intros recipients w Hw.
  { right. split; [set_solver|]. exists recipients. split; [done|]. set_solver. }
  cbn [scan_chunks]. unfold checking_bind, get_logs.
  destruct (Hw O (chunk_filter token safe (first, last))) as (logs & E & Hlogs).
  unfold chunk_filter in E. simpl in E. rewrite E, scan_logs_targets.
  assert (targets logs = history chain token safe (first, last)) as -> by (by apply targets_ext).
  setoid_rewrite elem_of_cons. case_decide as Hfound.
  { left. split; [by exists (first, last); auto|done]. }
  destruct (IH (history chain token safe (first, last) ∪ recipients) _ (node_serves_next _ _ Hw))
    as [[(chunk & ? & ?) Hr]|(Hnot & all & Hr & Hall)]; simpl in Hr; rewrite Hr.
  - left. split; [by exists chunk; auto|done].
  - right. split; [naive_solver|]. exists all. split; [done|]. intros a. rewrite Hall, elem_of_union.
    split; [|naive_solver]. intros [[?|?]|(chunk & ? & ?)]; [|by left|]; right;
      [by exists (first, last); auto|by exists chunk; auto].
Qed.

(** ** The verdict *)

Context (c : AddressPoisoningChecker).

(** The blocks a check looks back on. *)
Definition window (context : CheckContext) : N * N :=
  (saturating_sub (block context) (lookback_blocks c), block context).

(** The verdict, from the history of the window as a whole. *)
Definition poisoning_verdict (chain : list Log) (tx : SafeTransaction) (context : CheckContext)
    : Verdict.t :=
  match decode_target tx with
  | None => Abstain
  | Some (candidate, kind) =>
      let dealt := history chain (SafeTransaction.to tx) (SafeTransaction.safe tx)
                     (window context) in
      if decide (SafeTransaction.chainId tx ≠ provider_chain_id c) then Abstain
      else if decide (candidate ∈ dealt) then Secure
      else if existsb (λ r, is_lookalike r candidate) (elements dealt)
      then Insecure (target_rule kind) else Abstain
  end.

(** [C16] Over a node that serves its logs, the verdict on a recipient is the one
    its history in the lookback window calls for: secure if the Safe has dealt
    with it, insecure if it looks like an address the Safe has dealt with; how the
    lookup is chunked for the provider makes no difference. *)
Theorem poisoning_by_history chain tx context w :
  node_serves chain w → block context ≤ u64_max →
  (check_poisoning c tx context w).1 = poisoning_verdict chain tx context.
Proof.
  intros Hw Hblock. unfold check_poisoning, poisoning_verdict.
  destruct (decode_target tx) as [[candidate kind]|]; [|done]. case_decide; [done|].
  unfold checking_bind, established_recipients.
  destruct (block_chunks_tile (window context).1 (block context) (max_block_range c))
    as [Htiles _]; [unfold window, saturating_sub; simpl; lia|done|].
  pose proof (λ a, history_tiles chain (SafeTransaction.to tx) (SafeTransaction.safe tx) _ _ _ a
    Htiles) as Hhist.
  pose proof (scan_chunks_served chain (SafeTransaction.to tx) (SafeTransaction.safe tx) candidate
    (block_chunks (window context).1 (block context) (max_block_range c)) ∅ w Hw) as Hscan.
  cbv zeta in Hscan. rewrite <-(Hhist candidate) in Hscan.
  change (saturating_sub (block context) (lookback_blocks c)) with (window context).1.
  destruct (scan_chunks _ _ _ _ _ w) as [r w']. simpl in Hscan.
  destruct Hscan as [[Hin ->]|(Hnot & all & -> & Hall)]; simpl.
  - by rewrite decide_True.
  - rewrite decide_False by done.
    assert (all = history chain (SafeTransaction.to tx) (SafeTransaction.safe tx) (window context))
      as ->; [|by case_match].
    apply set_eq. intros a. rewrite Hall, <-Hhist. set_solver.
Qed.

(** ** Evidence, whatever the node answers *)

(** Some reply of the node, about the Safe's logs on the token within the window,
    holds evidence for the address. *)
Definition answered (w : Outside) (token safe : Address) (within : N * N) (a : Address) : Prop :=
  ∃ n f logs log, logs_reply w n f = Ok logs ∧ log ∈ logs ∧ genuine log = Some a ∧
    filter_address f = token ∧ filter_topic1 f = safe ∧
    within.1 ≤ from_block f ∧ to_block f ≤ within.2.

Lemma answered_next w token safe within a :
  answered {| logs_reply := λ n, logs_reply w (S n); order_reply := order_reply w |}
    token safe within a → answered w token safe within a.
Proof. intros (n & f & H). by exists (S n), f. Qed.

Lemma tiles_within from to chunks first last :
  tiles from to chunks → (first, last) ∈ chunks → from ≤ first ∧ first ≤ last ∧ last ≤ to.
Proof.
  revert from. induction chunks as [|[a b] chunks IH]; intros from; [done|].
  intros (-> & Hle & Hrest) [[= -> ->]|Hin]%elem_of_cons.
  - destruct chunks; [by subst|]. lia.
  - destruct chunks as [|chunk chunks]; [by apply not_elem_of_nil in Hin|].
    destruct Hrest as [? Htiles]. pose proof (IH _ Htiles Hin). lia.
Qed.

Lemma scan_chunks_answered token safe candidate within chunks recipients w :
  Forall (λ chunk, within.1 ≤ chunk.1 ∧ chunk.2 ≤ within.2) chunks →
  match (scan_chunks token safe candidate chunks recipients w).1 with
  | Ok ExactMatch => answered w token safe within candidate
  | Ok (NoExactMatch all _) => ∀ a, a ∈ all → a ∈ recipients ∨ answered w token safe within a
  | Err _ => True
  end.
Proof.
  revert recipients w. induction chunks as [|[first last] chunks IH]; intros recipients w Hall.
  { simpl. auto. }
  apply Forall_cons in Hall as [[Hfirst Hlast] Hall]. simpl in Hfirst, Hlast.
  cbn [scan_chunks]. unfold checking_bind, get_logs.
  destruct (logs_reply w 0 _) as [logs|e] eqn:E; [|case_decide; simpl; auto].
  assert (∀ a, a ∈ targets logs → answered w token safe within a) as Hnew.
  { intros a (log & Hin & Hg)%elem_of_targets. by exists O, (chunk_filter token safe (first, last)), logs, log. }
  rewrite scan_logs_targets. case_decide; [by apply Hnew|].
  specialize (IH (targets logs ∪ recipients)
    {| logs_reply := λ n, logs_reply w (S n); order_reply := order_reply w |} Hall).
  destruct (scan_chunks _ _ _ _ _ _) as [[[|all complete]|] w']; simpl in *; [|
    intros a Ha|done]; [by apply answered_next|].
  destruct (IH a Ha) as [[?|?]%elem_of_union|?%answered_next]; auto.
Qed.

Lemma check_poisoning_answered tx context w :
  block context ≤ u64_max →
  match (check_poisoning c tx context w).1 with
  | Abstain => True
  | Secure => ∃ candidate kind, decode_target tx = Some (candidate, kind) ∧
      SafeTransaction.chainId tx = provider_chain_id c ∧
      answered w (SafeTransaction.to tx) (SafeTransaction.safe tx) (window context) candidate
  | Insecure rule => ∃ candidate kind established,
      decode_target tx = Some (candidate, kind) ∧ rule = target_rule kind ∧
      SafeTransaction.chainId tx = provider_chain_id c ∧ is_lookalike established candidate ∧
      answered w (SafeTransaction.to tx) (SafeTransaction.safe tx) (window context) established
  end.
Proof.
  intros Hblock. unfold check_poisoning.
  destruct (decode_target tx) as [[candidate kind]|]; [|done]. case_decide as Hchain; [done|].
  unfold checking_bind, established_recipients.
  destruct (block_chunks_tile (window context).1 (block context) (max_block_range c))
    as [Htiles _]; [unfold window, saturating_sub; simpl; lia|done|].
  pose proof (scan_chunks_answered (SafeTransaction.to tx) (SafeTransaction.safe tx) candidate
    (window context) (block_chunks (window context).1 (block context) (max_block_range c)) ∅ w)
    as Hscan.
  change (saturating_sub (block context) (lookback_blocks c)) with (window context).1.
  destruct (scan_chunks _ _ _ _ _ w) as [r w']. simpl in Hscan |- *.
  assert (match r with
    | Ok ExactMatch => answered w (SafeTransaction.to tx) (SafeTransaction.safe tx) (window context) candidate
    | Ok (NoExactMatch all _) => ∀ a, a ∈ all → a ∈ (∅ : gset Address) ∨
        answered w (SafeTransaction.to tx) (SafeTransaction.safe tx) (window context) a
    | Err _ => True
    end) as H.
  { apply Hscan, Forall_forall. intros [first last] Hin.
    pose proof (tiles_within _ _ _ _ _ Htiles Hin) as Hwithin. simpl in *. lia. }
  clear Hscan. destruct r as [[|all complete]|]; [by exists candidate, kind| |done].
  destruct (existsb _ _) eqn:Hsome; [|done]. destruct complete; [|done].
  apply existsb_exists in Hsome as (established & Hin & Hlook).
  apply list_elem_of_In, elem_of_elements in Hin.
  exists candidate, kind, established. split_and!; try done.
  - by rewrite Hlook.
  - by destruct (H _ Hin) as [?%not_elem_of_empty|?].
Qed.

(** ** Refunds *)

(** [C27] The refund check never denies anything: the transfer it makes up for the
    refund has no chain, so that the poisoning check it is handed to takes it for
    one on another chain than the provider's and abstains without looking. *)
Theorem refund_check_inert tx context w :
  provider_chain_id c ≠ 0 → check_refund c tx context w = (Abstain, w).
Proof.
  intros Hchain. unfold check_refund, refund_transfer. case_decide; [done|].
  unfold checking_bind, check_poisoning. destruct (decode_target _) as [[]|]; [|done].
  simpl. by rewrite decide_True.
Qed.
End scans.
