(* ===== verification/Cow.v ===== *)
(** * CoW Swap batches: [checkers/cow.rs] *)

From S2P Require Import Prelude.
From S2P Require Import Bytes.
From S2P Require Import Bindings.
From S2P Require Import EngineBindings.
From S2P Require Import MultiSend.
From S2P Require Import Checkers.
From S2P Require Import Poisoning.
Import EngineRule Verdict.

Definition GP_V2_VAULT_RELAYER : Address := 0xC92E8bdf79f0507f65a392b0ab4667716BFE0110.
Definition GP_V2_SETTLEMENT : Address := 0x9008D19f58AAbD9eD0D60971565AA8510560ab41.
Definition COMPOSABLE_COW : Address := 0xfdaFc9d1902f4e0b84f65F49f244b32b31013b74.
Definition TWAP_HANDLER : Address := 0x6cF1e9cA41f7611dEf408122793c358a3d11E5a5.
Definition CURRENT_BLOCK_TIMESTAMP_FACTORY : Address := 0x52eD56Da04309Aca4c3FECC595298d80C2f16BAc.
Definition SUPPORTED_CHAIN_IDS : list N := [1; 42161; 100].

Definition order_api_base_url (chain_id : U256) : option OrderApiHost :=
  if decide (chain_id = 1) then Some CowMainnet
  else if decide (chain_id = 100) then Some CowXdai
  else if decide (chain_id = 42161) then Some CowArbitrumOne
  else None.

(** [None] is the panic of [expect]. *)
Definition gp_v2_domain (chain_id : U256) : option GpV2Domain.t :=
  if decide (chain_id ≤ u64_max) then Some (GpV2Domain.mk chain_id GP_V2_SETTLEMENT) else None.

(** [CowOrder::receiver]. *)
Definition effective_receiver (order : CowOrder) : Address :=
  match order_receiver order with
  | Some receiver => if decide (receiver = Address_ZERO) then owner order else receiver
  | None => owner order
  end.

Section cow.
Context {EL : EngineLibs}.

Abbreviation operation := SafeTransaction.operation.
Abbreviation to := SafeTransaction.to.
Abbreviation value := SafeTransaction.value.
Abbreviation data := SafeTransaction.data.

(** The struct [compute_order_uid] hashes. *)
Definition order_struct (order : CowOrder) : Order.t :=
  Order.mk (sell_token order) (buy_token order) (default Address_ZERO (order_receiver order))
    (sell_amount order) (buy_amount order) (valid_to order) (app_data order) (fee_amount order)
    (order_kind order) (partially_fillable order) (sell_token_balance order)
    (buy_token_balance order).

Definition compute_order_uid (chain_id : U256) (order : CowOrder) : option Bytes :=
  domain ← gp_v2_domain chain_id;
  Some (to_be_bytes 32 (order_eip712_signing_hash (order_struct order) domain) ++
        to_be_bytes 20 (owner order) ++ to_be_bytes 4 (valid_to order)).

Definition vault_relayer_approval_amount (tx : SafeTransaction) : option (Address * U256) :=
  if decide (operation tx ≠ CALL ∨ value tx ≠ 0) then None else
  call ← abi_decode approve (data tx);
  if decide (approveCall.spender call = GP_V2_VAULT_RELAYER)
  then Some (to tx, approveCall.amount call) else None.

Definition approves_vault_relayer (tx : SafeTransaction) : bool :=
  bool_decide (is_Some (vault_relayer_approval_amount tx)).

Definition is_presignature (tx : SafeTransaction) : bool :=
  bool_decide (operation tx = CALL) && bool_decide (value tx = 0) &&
  bool_decide (to tx = GP_V2_SETTLEMENT) &&
  bool_decide (is_Some (abi_decode setPreSignature (data tx))).

(** The [handler] and the [factory] of a genuine TWAP order. *)
Definition genuine_twap (call : createWithContextCall.t) : bool :=
  bool_decide (ConditionalOrderParams.handler (createWithContextCall.params call) = TWAP_HANDLER) &&
  bool_decide (createWithContextCall.factory call = CURRENT_BLOCK_TIMESTAMP_FACTORY).

Definition is_twap_create (tx : SafeTransaction) : bool :=
  bool_decide (operation tx = CALL) && bool_decide (value tx = 0) &&
  bool_decide (to tx = COMPOSABLE_COW) &&
  match abi_decode createWithContext (data tx) with
  | Some call => genuine_twap call
  | None => false
  end.

(** Sell token, receiver, total sell amount and number of parts. *)
Definition twap_order_terms (tx : SafeTransaction) : option (Address * Address * U256 * U256) :=
  if decide (operation tx ≠ CALL ∨ value tx ≠ 0 ∨ to tx ≠ COMPOSABLE_COW) then None else
  create ← abi_decode createWithContext (data tx);
  if negb (genuine_twap create) then None else
  order ← twap_abi_decode (ConditionalOrderParams.staticInput (createWithContextCall.params create));
  total ← u256_checked_mul (TwapData.partSellAmount order) (TwapData.n order);
  Some (TwapData.sellToken order, TwapData.receiver order, total, TwapData.n order).

Definition decode_approval_and_twap (approval_candidate twap_candidate : SafeTransaction)
    : option (Address * U256 * Address * Address * U256 * U256) :=
  '(approved_token, approved_amount) ← vault_relayer_approval_amount approval_candidate;
  '(sell_token, receiver, total_sell_amount, n) ← twap_order_terms twap_candidate;
  Some (approved_token, approved_amount, sell_token, receiver, total_sell_amount, n).

Definition max_approval_for_twap_total (total_sell_amount n : U256) : U256 :=
  u256_saturating_add total_sell_amount (n - 1).

Definition presignature_order_uid (tx : SafeTransaction) : option Bytes :=
  if decide (operation tx ≠ CALL ∨ value tx ≠ 0 ∨ to tx ≠ GP_V2_SETTLEMENT) then None else
  call ← abi_decode setPreSignature (data tx);
  if setPreSignatureCall.signed call then Some (setPreSignatureCall.orderUid call) else None.

Definition decode_approval_and_presignature (approval presignature : SafeTransaction)
    : option (Address * U256 * Bytes) :=
  '(token, approved_amount) ← vault_relayer_approval_amount approval;
  order_uid ← presignature_order_uid presignature;
  Some (token, approved_amount, order_uid).

(** [Option::or_else]. *)
Definition or_else {A} (a b : option A) : option A := match a with Some _ => a | None => b end.

(** ** The checks *)

(** What the order API's answer amounts to. *)
Definition presignature_verdict (safe : Address) (chain_id : U256) (token : Address)
    (approved_amount : U256) (order_uid : Bytes) (answer : option CowOrder) : Verdict.t :=
  match answer with
  | None => Abstain
  | Some order =>
      if decide (compute_order_uid chain_id order ≠ Some order_uid) then Abstain
      else if decide (effective_receiver order ≠ safe) then Insecure R4_4AuthorizationTarget
      else if decide (token = sell_token order ∧ approved_amount = sell_amount order) then Secure
      else Insecure R4_5ExcessiveApproval
  end.

Definition check_presignature_batch (safe : Address) (chain_id : U256)
    (calls : list SafeTransaction) : checking Verdict.t :=
  match order_api_base_url chain_id, calls with
  | Some base_url, [first; second] =>
      match or_else (decode_approval_and_presignature first second)
              (decode_approval_and_presignature second first) with
      | Some (token, approved_amount, order_uid) =>
          (answer ←$ fetch_order base_url order_uid;
           checking_ret (presignature_verdict safe chain_id token approved_amount order_uid answer))
            %safenet
      | None => checking_ret Abstain
      end
  | _, _ => checking_ret Abstain
  end.

Definition check_twap_batch (safe : Address) (calls : list SafeTransaction) : Verdict.t :=
  match calls with
  | [first; second] =>
      match or_else (decode_approval_and_twap first second)
              (decode_approval_and_twap second first) with
      | Some (approved_token, approved_amount, sell_token, receiver, total_sell_amount, n) =>
          if decide (receiver ≠ safe ∧ receiver ≠ Address_ZERO) then
            Insecure R4_4AuthorizationTarget
          else if decide (approved_token ≠ sell_token ∨
                          max_approval_for_twap_total total_sell_amount n < approved_amount) then
            Insecure R4_5ExcessiveApproval
          else Secure
      | None => Abstain
      end
  | _ => Abstain
  end.

Definition check_dangling_approval (calls : list SafeTransaction) : Verdict.t :=
  if negb (existsb approves_vault_relayer calls) then Abstain
  else if existsb (λ c, is_presignature c || is_twap_create c) calls then Abstain
  else Insecure R4_4AuthorizationTarget.

Definition check_cow : Checker := λ tx context,
  if decide (SafeTransaction.chainId tx ∉ SUPPORTED_CHAIN_IDS) then checking_ret Abstain else
  let calls := sub_transactions tx in
  let dangling_check := check_dangling_approval calls in
  if decide (dangling_check ≠ Abstain) then checking_ret dangling_check else
  (presig_check ←$ check_presignature_batch (SafeTransaction.safe tx)
                     (SafeTransaction.chainId tx) calls;
   checking_ret
     (if decide (presig_check ≠ Abstain) then presig_check
      else check_twap_batch (SafeTransaction.safe tx) calls))%safenet.

(** On the supported chains the domain's [expect] never panics. *)
Lemma supported_domain chain_id :
  is_Some (order_api_base_url chain_id) → is_Some (gp_v2_domain chain_id).
Proof.
  unfold order_api_base_url, gp_v2_domain.
  unfold u64_max. intros [h Hh]. rewrite decide_True; [by eexists|].
  repeat case_decide; try done; subst; lia.
Qed.
End cow.
