(* ===== verification/SentinelEngine.v ===== *)
(** * The sentinel engine: [engine/mod.rs], [main.rs], [api/mod.rs]

    The chain of checkers and the service around it; and what its verdicts promise:
    a specification of secure transactions and of rule violations, in terms of the
    calls a transaction makes, with the local checkers against it. *)

From S2P Require Import Prelude.
From S2P Require Import Bytes.
From S2P Require Import Bindings.
From S2P Require Import EngineBindings.
From S2P Require Import MultiSend.
From S2P Require Import TargetEffects.
From S2P Require Import Checkers.
From S2P Require Import Poisoning.
From S2P Require Import Cow.
Import EngineRule Verdict.

(** A checker that makes no requests. *)
Definition local (check : LocalChecker) : Checker := λ tx _, checking_ret (check tx).

(** [SentinelEngine::security_check]: the checkers in order, up to the first that
    does not abstain. *)
Fixpoint security_check (checkers : list Checker) : Checker := λ tx context,
  match checkers with
  | [] => checking_ret Abstain
  | checker :: checkers =>
      (verdict ←$ checker tx context;
       if decide (verdict ≠ Abstain) then checking_ret verdict
       else security_check checkers tx context)%safenet
  end.

(** [EngineConfig]. *)
Record EngineConfig := {
  blocklist : list Address;
  address_poisoning_lookback_blocks : N;
  address_poisoning_max_block_range : option positive;
}.

Section engine.
Context {EL : EngineLibs}.

(** The checkers [main] composes, over a provider for the chain. *)
Definition engine_checkers (config : EngineConfig) (chain_id : N) : list Checker :=
  let address_poisoning :=
    {| provider_chain_id := chain_id;
       lookback_blocks := address_poisoning_lookback_blocks config;
       max_block_range := address_poisoning_max_block_range config |} in
  [local check_cancellation; local check_escape_hatch; local check_base;
   local (check_blocklist (list_to_set (blocklist config))); local check_nested;
   local check_excessive_approval; check_cow; local check_staking;
   check_refund address_poisoning; check_poisoning address_poisoning].

(** [CheckRequest], and the handler of [/v1/security-check]. *)
Record CheckRequest := { request_block : N; transaction : SafeTransaction }.

Definition api_security_check (checkers : list Checker) (request : CheckRequest)
    : checking Verdict.t :=
  security_check checkers (transaction request) {| block := request_block request |}.
End engine.

(** ** What the verdicts promise *)

Section spec.
Context {EL : EngineLibs}.

Abbreviation operation := SafeTransaction.operation.
Abbreviation safe := SafeTransaction.safe.
Abbreviation to := SafeTransaction.to.
Abbreviation value := SafeTransaction.value.
Abbreviation data := SafeTransaction.data.

(** ** Calls *)

(** A plain call without value. *)
Definition plain_call (tx : SafeTransaction) (target : Address) : Prop :=
  operation tx = CALL ∧ value tx = 0 ∧ to tx = target.

Definition approves (tx : SafeTransaction) (token spender : Address) (amount : U256) : Prop :=
  plain_call tx token ∧ abi_decode approve (data tx) = Some (approveCall.mk spender amount).

(** ** The base guarantees *)

(** Calldata of a settings function, with an argument that is allowed. *)
Definition settings_call (d : Bytes) : Prop :=
  (∃ f, f ∈ [addOwnerWithThreshold; removeOwner; swapOwner; changeThreshold; disableModule] ∧
     starts_with d f) ∨
  (∃ a, abi_decode setFallbackHandler d = Some a ∧ a ∈ SUPPORTED_FALLBACK_HANDLERS) ∨
  (∃ a, abi_decode setGuard d = Some a ∧ a ∈ SUPPORTED_GUARDS) ∨
  (∃ a, abi_decode enableModule d = Some a ∧ a ∈ SUPPORTED_MODULES) ∨
  (∃ a, abi_decode setModuleGuard d = Some a ∧ a ∈ SUPPORTED_MODULE_GUARDS).

(** A call the Safe may make: of another contract, or of itself to receive or to
    change an allowed setting. *)
Definition allowed_call (tx : SafeTransaction) : Prop :=
  operation tx = CALL ∧ (to tx ≠ safe tx ∨ data tx = [] ∨ settings_call (data tx)).

(** The contracts a Safe may run in its own context, with their functions. *)
Definition DELEGATES : list (list Address * list SolFunction) :=
  [(MIGRATION_CONTRACTS, [migrateSingleton; migrateWithFallbackHandler; migrateL2Singleton;
                          migrateL2WithFallbackHandler]);
   (SIGN_MESSAGE_LIBS, [signMessage]);
   (CREATE_CALL_CONTRACTS, [performCreate; performCreate2])].

Definition allowed_delegatecall (tx : SafeTransaction) : Prop :=
  operation tx = DELEGATECALL ∧
  ∃ contracts functions f, (contracts, functions) ∈ DELEGATES ∧ to tx ∈ contracts ∧
    f ∈ functions ∧ starts_with (data tx) f.

(** The transaction, or each call of the batch it is. *)
Definition base_guarantees (tx : SafeTransaction) : Prop :=
  allowed_call tx ∨ allowed_delegatecall tx ∨
  ∃ subs delegates, decode_multi_send_call tx = Some (subs, delegates) ∧
    ∀ sub, sub ∈ subs → allowed_call sub ∨ (delegates = true ∧ allowed_delegatecall sub).

Lemma decodes_to_spec argument allowed :
  decodes_to argument allowed ↔ ∃ a, argument = Some a ∧ a ∈ allowed.
Proof.
  unfold decodes_to. destruct argument; [rewrite bool_decide_spec|]; naive_solver.
Qed.

(** Decides the tests of the selector once the function of the calldata is known. *)
Ltac select_function H :=
  match type of H with
  | Is_true (starts_with ?d ?f) =>
      repeat match goal with
      | |- context [starts_with d ?g] =>
          first [rewrite (Is_true_true_1 _ H) | rewrite (starts_with_other d f g ltac:(done) H)]
      end
  end.

Lemma check_self_calls_spec tx : check_self_calls tx ↔ settings_call (data tx).
Proof.
  unfold check_self_calls, settings_call. split.
  - repeat match goal with
    | |- context [starts_with (data tx) ?f] => destruct (starts_with (data tx) f) eqn:?
    end; rewrite ?decodes_to_spec; try done; auto;
    intros _; left; eexists; (split; [|by apply Is_true_true_2]); set_solver.
  - intros [(f & Hf & Hs)|[(a & Hd & Ha)|[(a & Hd & Ha)|[(a & Hd & Ha)|(a & Hd & Ha)]]]].
    + set_unfold in Hf. destruct_or! Hf; subst f; select_function Hs; done.
    + pose proof (decode_starts_with _ _ _ Hd) as Hs. select_function Hs.
      apply decodes_to_spec. by exists a.
    + pose proof (decode_starts_with _ _ _ Hd) as Hs. select_function Hs.
      apply decodes_to_spec. by exists a.
    + pose proof (decode_starts_with _ _ _ Hd) as Hs. select_function Hs.
      apply decodes_to_spec. by exists a.
    + pose proof (decode_starts_with _ _ _ Hd) as Hs. select_function Hs.
      apply decodes_to_spec. by exists a.
Qed.

Lemma check_calls_spec tx : check_calls tx ↔ allowed_call tx.
Proof.
  unfold check_calls, allowed_call. case_decide as Hop; [naive_solver|].
  case_decide as Hto; [naive_solver|]. case_decide as Hdata; [naive_solver|].
  rewrite check_self_calls_spec. naive_solver.
Qed.

(** No contract is in two of the lists. *)
Ltac not_listed Hb :=
  repeat (apply elem_of_cons in Hb as [Hb|Hb]; [discriminate|]); by apply not_elem_of_nil in Hb.
Ltac disjoint_lists Ha :=
  repeat (apply elem_of_cons in Ha as [->|Ha];
    [let Hb := fresh "Hb" in intros Hb; not_listed Hb|]); by apply not_elem_of_nil in Ha.

Lemma sign_not_migration a : a ∈ SIGN_MESSAGE_LIBS → a ∉ MIGRATION_CONTRACTS.
Proof. intros Ha. disjoint_lists Ha. Qed.
Lemma create_not_migration a : a ∈ CREATE_CALL_CONTRACTS → a ∉ MIGRATION_CONTRACTS.
Proof. intros Ha. disjoint_lists Ha. Qed.
Lemma create_not_sign a : a ∈ CREATE_CALL_CONTRACTS → a ∉ SIGN_MESSAGE_LIBS.
Proof. intros Ha. disjoint_lists Ha. Qed.

Lemma check_delegate_calls_spec tx : check_delegate_calls tx ↔ allowed_delegatecall tx.
Proof.
  unfold check_delegate_calls, allowed_delegatecall, DELEGATES. split.
  - case_decide as Hop; [done|]. intros H. split; [by destruct (operation tx)|]. revert H.
    case_decide as Hm; [|case_decide as Hs; [|case_decide as Hc; [|done]]].
    + rewrite !orb_True. intros Hf. exists MIGRATION_CONTRACTS. eexists.
      destruct Hf as [[[H|H]|H]|H]; eexists; (split; [left|split; [done|split; [|exact H]]]; set_solver).
    + intros H. exists SIGN_MESSAGE_LIBS, [signMessage], signMessage. set_solver.
    + rewrite orb_True. intros Hf. exists CREATE_CALL_CONTRACTS. eexists.
      destruct Hf as [H|H]; eexists;
        (split; [right; right; left|split; [done|split; [|exact H]]]; set_solver).
  - intros (Hop & contracts & functions & f & Hin & Hto & Hf & Hs).
    rewrite decide_False by (intros Hn; by apply Hn). set_unfold in Hin. destruct_or! Hin; simplify_eq.
    + rewrite decide_True by done. set_unfold in Hf. rewrite !orb_True.
      destruct_or! Hf; subst f; auto.
    + rewrite decide_False by (by apply sign_not_migration). rewrite decide_True by done.
      set_unfold in Hf. destruct_or! Hf; by subst f.
    + rewrite decide_False by (by apply create_not_migration).
      rewrite decide_False by (by apply create_not_sign). rewrite decide_True by done.
      set_unfold in Hf. rewrite orb_True. destruct_or! Hf; subst f; auto.
Qed.

Lemma check_multi_send_spec tx :
  check_multi_send tx ↔
  ∃ subs delegates, decode_multi_send_call tx = Some (subs, delegates) ∧
    ∀ sub, sub ∈ subs → allowed_call sub ∨ (delegates = true ∧ allowed_delegatecall sub).
Proof.
  unfold check_multi_send. destruct (decode_multi_send_call tx) as [[subs delegates]|].
  - rewrite forallb_True, Forall_forall.
    setoid_rewrite orb_True. setoid_rewrite andb_True. setoid_rewrite check_calls_spec.
    setoid_rewrite check_delegate_calls_spec. destruct delegates; naive_solver.
  - naive_solver.
Qed.

(** The base check is the base guarantees; a denial cites the rule of the kind of
    call it is. *)
Lemma check_transaction_spec tx :
  (base_guarantees tx ∧ check_transaction tx = Ok ()) ∨
  (¬ base_guarantees tx ∧ check_transaction tx =
     Err match operation tx with
         | CALL => R4_1SettingsChange
         | DELEGATECALL => R4_2DelegatecallIntegrity
         end).
Proof.
  unfold check_transaction, check_settings_change, check_delegatecall_integrity, base_guarantees.
  destruct (operation tx) eqn:Hop; simpl.
  - destruct (check_calls tx) eqn:E.
    + left. split; [|done]. left. by apply check_calls_spec, Is_true_true_2.
    + right. split; [|done]. intros [H%check_calls_spec|[[? _]|(subs & d & H & _)]].
      * by rewrite E in H.
      * congruence.
      * by rewrite decode_multi_send_call_CALL in H.
  - destruct (check_delegate_calls tx || check_multi_send tx) eqn:E.
    + left. split; [|done]. right. apply Is_true_true_2, orb_True in E as [E|E].
      * left. by apply check_delegate_calls_spec.
      * right. by apply check_multi_send_spec.
    + right. split; [|done]. apply orb_false_iff in E as [E1 E2].
      intros [[? _]|[H%check_delegate_calls_spec|H%check_multi_send_spec]];
        [congruence|by rewrite E1 in H|by rewrite E2 in H].
Qed.
End spec.
