(* ===== verification/EngineSafety.v ===== *)
(** * What the engine's verdicts rest on

    A verdict of the engine is justified by the rules and by what its checkers
    were answered, whatever the node and the order API answer; and the order API
    is not trusted: what it answers is bound to the order that is presigned. *)

From S2P Require Import Prelude.
From S2P Require Import Bytes.
From S2P Require Import Bindings.
From S2P Require Import Provider.
From S2P Require Import EngineBindings.
From S2P Require Import MultiSend.
From S2P Require Import TargetEffects.
From S2P Require Import Checkers.
From S2P Require Import Poisoning.
From S2P Require Import Cow.
From S2P Require Import SentinelEngine.
Import EngineRule Verdict.

(** ** The specification *)

Section spec.
Context {EL : EngineLibs} (config : EngineConfig) (chain_id : N).

Abbreviation operation := SafeTransaction.operation.
Abbreviation safe := SafeTransaction.safe.
Abbreviation to := SafeTransaction.to.
Abbreviation data := SafeTransaction.data.

(** The poisoning checker [main] composes. *)
Definition engine_poisoning : AddressPoisoningChecker :=
  {| provider_chain_id := chain_id;
     lookback_blocks := address_poisoning_lookback_blocks config;
     max_block_range := address_poisoning_max_block_range config |}.

(** A batch of two calls, in either order. *)
Definition paired (tx a b : SafeTransaction) : Prop :=
  sub_transactions tx = [a; b] ∨ sub_transactions tx = [b; a].

(** The presigning of an order, of which the order API holds these terms: they
    are bound to the order presigned by its identifier. *)
Definition presigns (tx call : SafeTransaction) (w : Outside) (order : CowOrder) : Prop :=
  ∃ uid host n, plain_call call GP_V2_SETTLEMENT ∧
    abi_decode setPreSignature (data call) = Some (setPreSignatureCall.mk uid true) ∧
    order_api_base_url (SafeTransaction.chainId tx) = Some host ∧
    order_reply w n host uid = Some order ∧
    compute_order_uid (SafeTransaction.chainId tx) order = Some uid.

(** The creation of a TWAP order. *)
Definition creates_twap (call : SafeTransaction) (order : TwapData.t) : Prop :=
  ∃ create, plain_call call COMPOSABLE_COW ∧
    abi_decode createWithContext (data call) = Some create ∧ genuine_twap create ∧
    twap_abi_decode (ConditionalOrderParams.staticInput (createWithContextCall.params create)) =
      Some order.

Definition twap_total (order : TwapData.t) : U256 :=
  TwapData.partSellAmount order * TwapData.n order.

(** A claim of staking rewards for an account, and a stake. *)
Definition claims_for (call : SafeTransaction) (account : Address) : Prop :=
  plain_call call REWARDS_DISTRIBUTOR ∧
  ∃ args, abi_decode staking_claim (data call) = Some args ∧ claimCall.account args = account.
Definition stakes (call : SafeTransaction) (amount : U256) : Prop :=
  plain_call call STAKING ∧
  ∃ args, abi_decode stake (data call) = Some args ∧ stakeCall.amount args = amount.

(** What a transaction is affirmed for, once the base guarantees hold. *)
Inductive purpose (tx : SafeTransaction) (context : CheckContext) (w : Outside) : Prop :=
  | nested_safe :
      operation tx = CALL → to tx ≠ safe tx → starts_with (data tx) execTransaction →
      purpose tx context w
  | presigned_order approval call order :
      paired tx approval call →
      approves approval (sell_token order) GP_V2_VAULT_RELAYER (sell_amount order) →
      presigns tx call w order → effective_receiver order = safe tx → purpose tx context w
  | twap_order approval call order amount :
      paired tx approval call →
      approves approval (TwapData.sellToken order) GP_V2_VAULT_RELAYER amount →
      creates_twap call order →
      (TwapData.receiver order = safe tx ∨ TwapData.receiver order = Address_ZERO) →
      amount ≤ twap_total order + (TwapData.n order - 1) → purpose tx context w
  | staking_flow rest :
      SafeTransaction.chainId tx = SUPPORTED_CHAIN_ID → sub_transactions tx ≠ [] →
      rest `sublist_of` sub_transactions tx →
      (∀ call, call ∈ sub_transactions tx → claims_for call (safe tx) ∨ call ∈ rest) →
      (rest = [] ∨ (∃ call amount, rest = [call] ∧ stakes call amount) ∨
       (∃ first second approved staked, rest = [first; second] ∧
          approves first SAFE_TOKEN STAKING approved ∧ stakes second staked ∧
          approved ≤ staked)) → purpose tx context w
  | known_recipient candidate kind :
      decode_target tx = Some (candidate, kind) → SafeTransaction.chainId tx = chain_id →
      answered w (to tx) (safe tx) (window engine_poisoning context) candidate →
      purpose tx context w.

(** A secure transaction: it grants no unlimited approval, and it cancels a nonce,
    or calls an escape hatch, or keeps the base guarantees, goes to an address that
    is not blocked, and has a purpose the engine vouches for. *)
Definition vetted (tx : SafeTransaction) (context : CheckContext) (w : Outside) : Prop :=
  (∀ effect, has_effect effect tx → ¬ unlimited effect) ∧
  (tx = cancellation_of tx ∨
   (plain_call tx (to tx) ∧ SafeTransaction.gasPrice tx = 0 ∧
    (starts_with (data tx) announceTransaction ∨ starts_with (data tx) cancelAnnouncement)) ∨
   (base_guarantees tx ∧ to tx ∉ blocklist config ∧ purpose tx context w)).

(** What breaks a rule. *)
Inductive violates (tx : SafeTransaction) (context : CheckContext) (w : Outside)
    : EngineRule.t → Prop :=
  | settings_change call :
      call ∈ sub_transactions tx → operation call = CALL → ¬ allowed_call call →
      violates tx context w R4_1SettingsChange
  | foreign_delegatecall :
      operation tx = DELEGATECALL → ¬ allowed_delegatecall tx → decode_multi_send_call tx = None →
      violates tx context w R4_2DelegatecallIntegrity
  | batched_delegatecall subs delegates call :
      decode_multi_send_call tx = Some (subs, delegates) → call ∈ subs →
      operation call = DELEGATECALL → ¬ (delegates = true ∧ allowed_delegatecall call) →
      violates tx context w R4_2DelegatecallIntegrity
  | blocked_target : to tx ∈ blocklist config → violates tx context w R4_6KnownMaliciousTarget
  | unlimited_approval effect :
      has_effect effect tx → unlimited effect → violates tx context w R4_5ExcessiveApproval
  | dangling_approval call token amount :
      call ∈ sub_transactions tx → approves call token GP_V2_VAULT_RELAYER amount →
      (∀ call, call ∈ sub_transactions tx → ¬ is_presignature call ∧ ¬ is_twap_create call) →
      violates tx context w R4_4AuthorizationTarget
  | order_for_another approval call order token amount :
      paired tx approval call → approves approval token GP_V2_VAULT_RELAYER amount →
      presigns tx call w order → effective_receiver order ≠ safe tx →
      violates tx context w R4_4AuthorizationTarget
  | order_mismatch approval call order token amount :
      paired tx approval call → approves approval token GP_V2_VAULT_RELAYER amount →
      presigns tx call w order → ¬ (token = sell_token order ∧ amount = sell_amount order) →
      violates tx context w R4_5ExcessiveApproval
  | twap_for_another approval call order token amount :
      paired tx approval call → approves approval token GP_V2_VAULT_RELAYER amount →
      creates_twap call order → TwapData.receiver order ≠ safe tx →
      TwapData.receiver order ≠ Address_ZERO → violates tx context w R4_4AuthorizationTarget
  | twap_excess approval call order token amount :
      paired tx approval call → approves approval token GP_V2_VAULT_RELAYER amount →
      creates_twap call order →
      (token ≠ TwapData.sellToken order ∨
       u256_saturating_add (twap_total order) (TwapData.n order - 1) < amount) →
      violates tx context w R4_5ExcessiveApproval
  | claim_for_another call account :
      call ∈ sub_transactions tx → claims_for call account → account ≠ safe tx →
      violates tx context w R4_3ValueTarget
  | stake_excess first second approved staked :
      first ∈ sub_transactions tx → second ∈ sub_transactions tx →
      approves first SAFE_TOKEN STAKING approved → stakes second staked → staked < approved →
      violates tx context w R4_5ExcessiveApproval
  | lookalike_target candidate kind established :
      decode_target tx = Some (candidate, kind) → SafeTransaction.chainId tx = chain_id →
      is_lookalike established candidate →
      answered w (to tx) (safe tx) (window engine_poisoning context) established →
      violates tx context w (target_rule kind)
  | lookalike_refund refund candidate kind established :
      refund_transfer tx = Some refund → SafeTransaction.chainId refund = chain_id →
      decode_target refund = Some (candidate, kind) → is_lookalike established candidate →
      answered w (to refund) (safe refund) (window engine_poisoning context) established →
      violates tx context w (target_rule kind).

(** A batch that changes the settings is denied as a delegatecall. *)
Definition misattributed (tx : SafeTransaction) (context : CheckContext) (w : Outside)
    (rule : EngineRule.t) : Prop :=
  rule = R4_2DelegatecallIntegrity ∧ is_Some (decode_multi_send_call tx) ∧
  violates tx context w R4_1SettingsChange.

(** The verdict that is given. *)
Definition justified_verdict (tx : SafeTransaction) (context : CheckContext) (w : Outside)
    (verdict : Verdict.t) : Prop :=
  match verdict with
  | Secure => vetted tx context w
  | Insecure rule => violates tx context w rule ∨ misattributed tx context w rule
  | Abstain => True
  end.
End spec.

(** ** Local checkers *)

Section local.
Context {EL : EngineLibs}.

Abbreviation operation := SafeTransaction.operation.
Abbreviation safe := SafeTransaction.safe.
Abbreviation to := SafeTransaction.to.
Abbreviation data := SafeTransaction.data.

(** The functions whose calls have a token effect. *)
Definition token_functions : list SolFunction :=
  [transfer; transferFrom; approve; setApprovalForAll; safeTransferFrom_0; safeTransferFrom_1;
   erc1155_safeTransferFrom; safeBatchTransferFrom].

Lemma token_effect_function d effect :
  token_effect d = Some effect → ∃ f, f ∈ token_functions ∧ starts_with d f.
Proof.
  unfold token_effect, token_functions. intros H.
  repeat match type of H with
  | context [abi_decode ?f d] =>
      let E := fresh "E" in
      destruct (abi_decode f d) eqn:E;
        [exists f; split; [set_solver|by eapply decode_starts_with]|]
  end.
  done.
Qed.

(** The effects of a plain call. *)
Lemma call_unlimited tx effect :
  operation tx = CALL → has_effect effect tx → unlimited effect →
  ∃ f, f ∈ token_functions ∧ starts_with (data tx) f.
Proof.
  intros Hop He Hu.
  inversion He as [? _ Hin|? ? ? ? E]; subst; [|by rewrite decode_multi_send_call_CALL in E].
  unfold decode_call in Hin. apply elem_of_app in Hin as [Hin|Hin].
  - case_decide; [by apply not_elem_of_nil in Hin|].
    apply list_elem_of_singleton in Hin as ->. done.
  - case_decide; [by apply not_elem_of_nil in Hin|].
    destruct (token_effect (data tx)) as [e|] eqn:E; [|by apply not_elem_of_nil in Hin].
    by eapply token_effect_function.
Qed.

Lemma other_function_limited tx effect f :
  operation tx = CALL → starts_with (data tx) f → f ∉ token_functions →
  has_effect effect tx → ¬ unlimited effect.
Proof.
  intros Hop Hf Hn He Hu. destruct (call_unlimited _ _ Hop He Hu) as (g & Hg & Hs).
  by rewrite (starts_with_inj _ _ _ Hf Hs) in Hn.
Qed.

Lemma cancellation_limited tx effect :
  tx = cancellation_of tx → has_effect effect tx → ¬ unlimited effect.
Proof.
  intros Htx He Hu. destruct (call_unlimited tx effect) as (f & _ & Hf); [by rewrite Htx|done..|].
  unfold starts_with in Hf. rewrite bool_decide_spec in Hf. destruct Hf as [k Hk].
  rewrite Htx in Hk. simpl in Hk. pose proof (SELECTOR_length f) as Hl. by destruct (SELECTOR f).
Qed.

Lemma escape_hatch_spec tx :
  is_escape_hatch_call tx ↔
  plain_call tx (to tx) ∧ SafeTransaction.gasPrice tx = 0 ∧
  (starts_with (data tx) announceTransaction ∨ starts_with (data tx) cancelAnnouncement).
Proof.
  unfold is_escape_hatch_call, plain_call. case_decide as H.
  - split; [done|]. intros ((? & ? & _) & ? & _). naive_solver.
  - rewrite orb_True. split; [|tauto]. intros Hs.
    assert (operation tx = CALL) by (destruct (operation tx); naive_solver).
    assert (SafeTransaction.value tx = 0) by (destruct (decide (SafeTransaction.value tx = 0)); naive_solver).
    assert (SafeTransaction.gasPrice tx = 0) by (destruct (decide (SafeTransaction.gasPrice tx = 0)); naive_solver).
    done.
Qed.

Lemma nested_spec tx :
  is_nested_exec_transaction tx →
  operation tx = CALL ∧ to tx ≠ safe tx ∧ starts_with (data tx) execTransaction.
Proof.
  unfold is_nested_exec_transaction. rewrite !andb_True, !bool_decide_spec. tauto.
Qed.

Lemma excessive_approval_spec tx :
  (check_excessive_approval tx = Abstain ∧ ∀ effect, has_effect effect tx → ¬ unlimited effect) ∨
  (check_excessive_approval tx = Insecure R4_5ExcessiveApproval ∧
   ∃ effect, has_effect effect tx ∧ unlimited effect).
Proof.
  unfold check_excessive_approval. destruct (existsb _ _) eqn:E.
  - right. split; [done|]. apply existsb_exists in E as (effect & Hin & Hu). exists effect.
    rewrite has_effect_decoded. split; [by apply list_elem_of_In|by apply Is_true_true_2].
  - left. split; [done|]. intros effect Hin%has_effect_decoded Hu.
    assert (existsb unlimited (decode_target_effects tx) = true) as Hx; [|congruence].
    apply existsb_exists. exists effect. split; [by apply list_elem_of_In|by apply Is_true_true_1].
Qed.

(** ** Staking *)

(** A plain call to a contract, decided as the source does. *)
Lemma plain_call_decide tx target :
  ¬ (operation tx ≠ CALL ∨ SafeTransaction.value tx ≠ 0 ∨ to tx ≠ target) → plain_call tx target.
Proof.
  intros H. unfold plain_call. split_and!.
  - destruct (decide (operation tx = CALL)); tauto.
  - destruct (decide (SafeTransaction.value tx = 0)); tauto.
  - destruct (decide (to tx = target)); tauto.
Qed.

Lemma claim_account_Some tx account : claim_account tx = Some account → claims_for tx account.
Proof.
  unfold claim_account, claims_for. case_decide as H; [done|].
  intros (args & ? & ?)%fmap_Some. split; [by apply plain_call_decide|]. by exists args.
Qed.

Lemma staking_approval_Some tx amount :
  staking_approval_amount tx = Some amount → approves tx SAFE_TOKEN STAKING amount.
Proof.
  unfold staking_approval_amount, approves. case_decide as H; [done|].
  intros ([spender a] & Hd & Ha)%bind_Some. simpl in Ha. case_decide; simplify_eq.
  split; [by apply plain_call_decide|done].
Qed.

Lemma stake_amount_Some tx amount : stake_amount tx = Some amount → stakes tx amount.
Proof.
  unfold stake_amount, stakes. case_decide as H; [done|].
  intros (args & ? & ?)%fmap_Some. split; [by apply plain_call_decide|]. by exists args.
Qed.

Lemma claims_aside_spec safe calls claimed remaining :
  match claims_aside safe calls claimed remaining with
  | None => ∃ call account, call ∈ calls ∧ claims_for call account ∧ account ≠ safe
  | Some (claimed', rest) => ∃ more, rest = remaining ++ more ∧ more `sublist_of` calls ∧
      (∀ call, call ∈ calls → claims_for call safe ∨ call ∈ more) ∧
      (claimed' = true → claimed = true ∨ calls ≠ [])
  end.
Proof.
  revert claimed remaining. induction calls as [|call calls IH]; intros claimed remaining; simpl.
  { exists []. rewrite app_nil_r. split_and!; [done|done|set_solver|auto]. }
  destruct (claim_account call) as [account|] eqn:E.
  - apply claim_account_Some in E. case_decide as Ha.
    + exists call, account. split_and!; [by left|done|done].
    + assert (account = safe) as -> by (destruct (decide (account = safe)); tauto).
      specialize (IH true remaining). destruct (claims_aside _ _ _ _) as [[claimed' rest]|].
      * destruct IH as (more & ? & ? & Hall & _). exists more.
        split_and!; [done|by apply sublist_cons| |by right].
        intros c [->|Hc]%elem_of_cons; auto.
      * destruct IH as (c & a & ? & ?). exists c, a. split; [by right|done].
  - specialize (IH claimed (remaining ++ [call])).
    destruct (claims_aside _ _ _ _) as [[claimed' rest]|].
    + destruct IH as (more & -> & ? & Hall & _). exists (call :: more).
      split_and!; [by rewrite <-app_assoc|by apply sublist_skip| |by right].
      intros c [->|Hc]%elem_of_cons; [right; by left|].
      destruct (Hall c Hc); [by left|right; by right].
    + destruct IH as (c & a & ? & ?). exists c, a. split; [by right|done].
Qed.
End local.

(** ** Justification, checker by checker *)

Section justified.
Context {EL : EngineLibs} (config : EngineConfig) (chain_id : N).

Abbreviation operation := SafeTransaction.operation.
Abbreviation safe := SafeTransaction.safe.
Abbreviation to := SafeTransaction.to.
Abbreviation data := SafeTransaction.data.

(** A verdict that a transaction with the base guarantees may be given: a purpose
    for it, or a rule it violates. *)
Definition purposeful (tx : SafeTransaction) (context : CheckContext) (w : Outside)
    (verdict : Verdict.t) : Prop :=
  match verdict with
  | Secure => purpose config chain_id tx context w
  | Insecure rule => violates config chain_id tx context w rule
  | Abstain => True
  end.

Lemma staking_purposeful tx context w : purposeful tx context w (check_staking tx).
Proof.
  unfold check_staking. case_decide as Hchain; [done|].
  assert (SafeTransaction.chainId tx = SUPPORTED_CHAIN_ID) as Hid
    by (destruct (decide (SafeTransaction.chainId tx = SUPPORTED_CHAIN_ID)); tauto).
  pose proof (claims_aside_spec (safe tx) (sub_transactions tx) false []) as Haside.
  destruct (claims_aside _ _ _ _) as [[claimed rest]|].
  - destruct Haside as (more & -> & Hsub & Hall & Hclaimed). rewrite app_nil_l.
    destruct more as [|first [|second [|third more]]]; [| | |done].
    + destruct claimed; [|done]. destruct Hclaimed as [?|Hne]; [done|done|].
      apply (staking_flow _ _ _ _ _ []); auto.
    + unfold check_lone_call. destruct (stake_amount first) as [amount|] eqn:E; [|done].
      apply (staking_flow _ _ _ _ _ [first]); [done| |done|done|].
      * intros Hn. rewrite Hn in Hsub. by apply sublist_nil_r in Hsub.
      * right; left. exists first, amount. by apply stake_amount_Some in E.
    + unfold check_pair. destruct (staking_approval_amount first) as [approved|] eqn:E1; [|done].
      destruct (stake_amount second) as [staked|] eqn:E2; [|done].
      apply staking_approval_Some in E1. apply stake_amount_Some in E2. case_decide as Hle.
      * apply (stake_excess _ _ _ _ _ first second approved staked); [| |done..];
          eapply elem_of_submseteq; try apply sublist_submseteq, Hsub; set_solver.
      * apply (staking_flow _ _ _ _ _ [first; second]); [done| |done|done|].
        -- intros Hn. rewrite Hn in Hsub. by apply sublist_nil_r in Hsub.
        -- right; right. exists first, second, approved, staked. split_and!; [done|done|done|lia].
  - destruct Haside as (call & account & Hin & Hclaim & Hne).
    by eapply claim_for_another.
Qed.

(** ** CoW *)

Lemma vault_relayer_approval_Some tx token amount :
  vault_relayer_approval_amount tx = Some (token, amount) →
  approves tx token GP_V2_VAULT_RELAYER amount.
Proof.
  unfold vault_relayer_approval_amount, approves, plain_call. case_decide as H; [done|].
  intros ([spender a] & Hd & Ha)%bind_Some. simpl in Ha. case_decide; simplify_eq.
  split_and!; [| |done|done].
  - destruct (decide (operation tx = CALL)); tauto.
  - destruct (decide (SafeTransaction.value tx = 0)); tauto.
Qed.

Lemma presignature_uid_Some tx uid :
  presignature_order_uid tx = Some uid →
  plain_call tx GP_V2_SETTLEMENT ∧
  abi_decode setPreSignature (data tx) = Some (setPreSignatureCall.mk uid true).
Proof.
  unfold presignature_order_uid. case_decide as H; [done|].
  intros ([u signed] & Hd & Hu)%bind_Some. simpl in Hu. destruct signed; simplify_eq.
  split; [by apply plain_call_decide|done].
Qed.

Lemma twap_terms_Some tx token receiver total n :
  twap_order_terms tx = Some (token, receiver, total, n) →
  ∃ order, creates_twap tx order ∧ token = TwapData.sellToken order ∧
    receiver = TwapData.receiver order ∧ total = twap_total order ∧ n = TwapData.n order.
Proof.
  unfold twap_order_terms. case_decide as H; [done|].
  intros (create & Hd & Hx)%bind_Some. destruct (genuine_twap create) eqn:Hg; [|done]. simpl in Hx.
  apply bind_Some in Hx as (order & Ho & Hx). apply bind_Some in Hx as (t & Ht & [= <- <- <- <-]).
  exists order. unfold u256_checked_mul in Ht. case_decide; simplify_eq. split_and!; try done.
  exists create. split_and!; [by apply plain_call_decide|done|by apply Is_true_true_2|done].
Qed.

(** Trying the calls of a batch in both orders. *)
Lemma or_else_paired {A} (f : SafeTransaction → SafeTransaction → option A) tx first second x :
  sub_transactions tx = [first; second] → or_else (f first second) (f second first) = Some x →
  ∃ a b, paired tx a b ∧ f a b = Some x.
Proof.
  intros Htx. unfold or_else. destruct (f first second) as [y|] eqn:E.
  - intros [= <-]. exists first, second. by split; [left|].
  - intros H. exists second, first. by split; [right|].
Qed.

Lemma twap_purposeful tx context w :
  purposeful tx context w (check_twap_batch (safe tx) (sub_transactions tx)).
Proof.
  unfold check_twap_batch.
  destruct (sub_transactions tx) as [|first [|second [|]]] eqn:Htx; try done.
  destruct (or_else _ _) as [[[[[[token amount] sell] receiver] total] n]|] eqn:E; [|done].
  apply (or_else_paired decode_approval_and_twap tx) in E as (a & b & Hpair & E); [|done].
  unfold decode_approval_and_twap in E.
  apply bind_Some in E as ([token' amount'] & Ha%vault_relayer_approval_Some & E).
  apply bind_Some in E as ([[[sell' receiver'] total'] n'] & Hb & [= -> -> -> -> -> ->]).
  apply twap_terms_Some in Hb as (order & Hb & -> & -> & -> & ->).
  case_decide as Hr; [by destruct Hr; eapply twap_for_another|].
  unfold max_approval_for_twap_total. case_decide as Hm; [by eapply twap_excess|].
  assert (token = TwapData.sellToken order) as ->
    by (destruct (decide (token = TwapData.sellToken order)); tauto).
  eapply twap_order; [done|done|done| |].
  - destruct (decide (TwapData.receiver order = safe tx));
      destruct (decide (TwapData.receiver order = Address_ZERO)); tauto.
  - unfold u256_saturating_add in Hm. lia.
Qed.

Lemma presignature_purposeful tx context w :
  purposeful tx context w
    (check_presignature_batch (safe tx) (SafeTransaction.chainId tx) (sub_transactions tx) w).1.
Proof.
  unfold check_presignature_batch.
  destruct (order_api_base_url _) as [host|] eqn:Hhost; [|done].
  destruct (sub_transactions tx) as [|first [|second [|]]] eqn:Htx; try done.
  destruct (or_else _ _) as [[[token amount] uid]|] eqn:E; [|done].
  apply (or_else_paired decode_approval_and_presignature tx) in E as (a & b & Hpair & E); [|done].
  unfold decode_approval_and_presignature in E.
  apply bind_Some in E as ([token' amount'] & Ha%vault_relayer_approval_Some & E).
  apply bind_Some in E as (uid' & [Hb Hd]%presignature_uid_Some & [= -> -> ->]).
  unfold checking_bind, fetch_order, presignature_verdict. simpl.
  destruct (order_reply w 0 host uid) as [order|] eqn:Hreply; [|done].
  case_decide as Huid; [done|].
  assert (presigns tx b w order) as Hpresigns.
  { exists uid, host, O. split_and!; done. }
  case_decide as Hr; [by eapply order_for_another|].
  case_decide as Hm; [|by eapply order_mismatch]. destruct Hm as [-> ->].
  eapply presigned_order; [done..|].
  destruct (decide (effective_receiver order = safe tx)); tauto.
Qed.

Lemma dangling_purposeful tx context w :
  purposeful tx context w (check_dangling_approval (sub_transactions tx)).
Proof.
  unfold check_dangling_approval.
  destruct (existsb approves_vault_relayer _) eqn:E; [simpl|done].
  destruct (existsb (λ c, _) _) eqn:E2; [done|].
  apply existsb_exists in E as (call & Hin%list_elem_of_In & Ha).
  apply bool_decide_eq_true in Ha as [[token amount] Ha%vault_relayer_approval_Some].
  eapply (dangling_approval _ _ _ _ _ call); [done..|]. intros c Hc.
  assert (is_presignature c || is_twap_create c = false) as Hf.
  { destruct (is_presignature c || is_twap_create c) eqn:Hx; [|done].
    rewrite <-E2. symmetry. apply existsb_exists. exists c. by split; [apply list_elem_of_In|]. }
  apply orb_false_iff in Hf as [-> ->]. by split; intros [].
Qed.

Lemma cow_purposeful tx context w :
  purposeful tx context w (check_cow tx context w).1.
Proof.
  unfold check_cow. case_decide; [done|]. case_decide; [apply dangling_purposeful|].
  unfold checking_bind. pose proof (presignature_purposeful tx context w) as Hp.
  destruct (check_presignature_batch _ _ _ w) as [v w']. simpl in Hp |- *.
  case_decide; [done|]. apply twap_purposeful.
Qed.

(** ** Requests made before *)

(** The outside after some more requests. *)
Definition later (w w' : Outside) : Prop :=
  (∃ i, ∀ n, logs_reply w' n = logs_reply w (i + n)%nat) ∧
  (∃ i, ∀ n, order_reply w' n = order_reply w (i + n)%nat).

Lemma later_refl w : later w w.
Proof. split; by exists O. Qed.

Lemma later_trans w1 w2 w3 : later w1 w2 → later w2 w3 → later w1 w3.
Proof.
  intros [[i Hi] [j Hj]] [[i' Hi'] [j' Hj']].
  split; [exists (i + i')%nat|exists (j + j')%nat]; intros n.
  - by rewrite Hi', Hi, Nat.add_assoc.
  - by rewrite Hj', Hj, Nat.add_assoc.
Qed.

Definition moves_later {A} (m : checking A) : Prop := ∀ w, later w (m w).2.

Lemma ret_later {A} (a : A) : moves_later (checking_ret a).
Proof. intros w. apply later_refl. Qed.

Lemma bind_later {A B} (m : checking A) (f : A → checking B) :
  moves_later m → (∀ a, moves_later (f a)) → moves_later (checking_bind m f).
Proof.
  intros Hm Hf w. unfold checking_bind. specialize (Hm w). destruct (m w) as [a w'].
  eapply later_trans; [exact Hm|apply Hf].
Qed.

Lemma get_logs_later f : moves_later (get_logs f).
Proof. intros w. split; [by exists 1%nat|by exists O]. Qed.

Lemma fetch_order_later host uid : moves_later (fetch_order host uid).
Proof. intros w. split; [by exists O|by exists 1%nat]. Qed.

Create HintDb later.
Hint Resolve ret_later bind_later get_logs_later fetch_order_later : later.

Lemma scan_chunks_later token safe candidate chunks recipients :
  moves_later (scan_chunks token safe candidate chunks recipients).
Proof.
  revert recipients. induction chunks as [|[a b] chunks IH]; intros recipients;
    [apply ret_later|]. cbn [scan_chunks].
  apply bind_later; [apply get_logs_later|]. intros []; repeat case_match; auto with later.
Qed.

Lemma poisoning_later c tx context : moves_later (check_poisoning c tx context).
Proof.
  unfold check_poisoning, established_recipients.
  repeat case_match; auto using scan_chunks_later with later.
Qed.

Lemma refund_later c tx context : moves_later (check_refund c tx context).
Proof. unfold check_refund. case_match; auto using poisoning_later with later. Qed.

Lemma cow_later tx context : moves_later (check_cow tx context).
Proof.
  unfold check_cow, check_presignature_batch.
  repeat case_match; auto 6 with later; apply bind_later; repeat case_match; auto with later.
Qed.

Lemma answered_later w w' token owner within a :
  later w w' → answered w' token owner within a → answered w token owner within a.
Proof.
  intros [[i Hi] _] (n & f & logs & log & E & H). exists (i + n)%nat, f, logs, log.
  by rewrite <-Hi.
Qed.

Lemma presigns_later w w' tx call order :
  later w w' → presigns tx call w' order → presigns tx call w order.
Proof.
  intros [_ [i Hi]] (uid & host & n & H). exists uid, host, (i + n)%nat. by rewrite <-Hi.
Qed.

(** What the later replies justify, the replies of the whole check justify. *)
Lemma purposeful_later tx context w w' verdict :
  later w w' → purposeful tx context w' verdict → purposeful tx context w verdict.
Proof.
  intros Hlater. destruct verdict as [|rule|]; simpl; [| |done].
  - destruct 1; eauto using nested_safe, presigned_order, twap_order, staking_flow, known_recipient, presigns_later, answered_later.
  - destruct 1; eauto using settings_change, foreign_delegatecall, batched_delegatecall, blocked_target, unlimited_approval, dangling_approval, order_for_another,
      order_mismatch, twap_for_another, twap_excess, claim_for_another, stake_excess, lookalike_target,
      lookalike_refund, presigns_later, answered_later.
Qed.

Lemma poisoning_purposeful tx context w :
  block context ≤ u64_max →
  purposeful tx context w (check_poisoning (engine_poisoning config chain_id) tx context w).1.
Proof.
  intros Hblock.
  pose proof (check_poisoning_answered (engine_poisoning config chain_id) tx context w Hblock) as H.
  destruct (check_poisoning _ tx context w).1 as [|rule|]; simpl; [| |done].
  - destruct H as (candidate & kind & ? & ? & ?). by eapply known_recipient.
  - destruct H as (candidate & kind & established & ? & -> & ? & ? & ?).
    by eapply lookalike_target.
Qed.

Lemma refund_purposeful tx context w :
  block context ≤ u64_max →
  purposeful tx context w (check_refund (engine_poisoning config chain_id) tx context w).1.
Proof.
  intros Hblock. unfold check_refund. destruct (refund_transfer tx) as [refund|] eqn:E; [|done].
  unfold checking_bind.
  pose proof (check_poisoning_answered (engine_poisoning config chain_id) refund context w Hblock) as H.
  destruct (check_poisoning _ refund context w) as [[|rule|] w']; simpl in H |- *; [done| |done].
  destruct H as (candidate & kind & established & ? & -> & ? & ? & ?).
  by eapply lookalike_refund.
Qed.

(** ** The chain *)

Lemma security_check_local check checkers tx context w :
  security_check (local check :: checkers) tx context w =
  if decide (check tx ≠ Abstain) then (check tx, w) else security_check checkers tx context w.
Proof. simpl. unfold checking_bind, local, checking_ret. by case_decide. Qed.

Lemma security_check_cons (P : Verdict.t → Prop) checker checkers tx context w :
  P (checker tx context w).1 →
  (P (security_check checkers tx context (checker tx context w).2).1) →
  P (security_check (checker :: checkers) tx context w).1.
Proof.
  intros Hc Hrest. simpl. unfold checking_bind. destruct (checker tx context w) as [v w'].
  by case_decide.
Qed.

#[local] Arguments security_check : simpl never.

(** The checkers that run once the base guarantees hold, and nothing unlimited is
    granted. *)
Lemma purposeful_chain tx context w :
  block context ≤ u64_max →
  purposeful tx context w
    (security_check [check_cow; local check_staking;
       check_refund (engine_poisoning config chain_id);
       check_poisoning (engine_poisoning config chain_id)] tx context w).1.
Proof.
  intros Hblock. apply security_check_cons; [apply cow_purposeful|].
  pose proof (cow_later tx context w) as Hcow. set (w1 := (check_cow tx context w).2) in *.
  rewrite security_check_local. case_decide; [apply staking_purposeful|].
  apply (purposeful_later _ _ _ w1 _ Hcow). apply security_check_cons.
  - apply refund_purposeful; done.
  - pose proof (refund_later (engine_poisoning config chain_id) tx context w1) as Hrefund.
    apply (purposeful_later _ _ _ _ _ Hrefund).
    apply security_check_cons; [by apply poisoning_purposeful|done].
Qed.

(** What the base check denies. *)
Lemma base_denial tx context w :
  ¬ base_guarantees tx →
  justified_verdict config chain_id tx context w
    (Insecure match operation tx with
              | CALL => R4_1SettingsChange
              | DELEGATECALL => R4_2DelegatecallIntegrity
              end).
Proof.
  unfold base_guarantees. intros Hbase. simpl.
  destruct (operation tx) eqn:Hop.
  { left. apply (settings_change _ _ _ _ _ tx); [|done|tauto].
    rewrite sub_transactions_CALL by done. by left. }
  destruct (decode_multi_send_call tx) as [[subs delegates]|] eqn:E;
    [|left; apply foreign_delegatecall; [done|tauto|done]].
  assert (Exists (λ call, ¬ (check_calls call ∨ (delegates = true ∧ check_delegate_calls call))) subs)
    as (call & Hin & Hcall)%Exists_exists.
  { apply not_Forall_Exists; [apply _|]. rewrite Forall_forall. intros Hall. apply Hbase.
    right; right. exists subs, delegates. split; [done|]. intros call Hin.
    rewrite <-check_calls_spec, <-check_delegate_calls_spec. by apply Hall. }
  rewrite check_calls_spec, check_delegate_calls_spec in Hcall.
  destruct (operation call) eqn:Hc; [right|left; eapply batched_delegatecall; eauto].
  split_and!; [done|by eexists|]. apply (settings_change _ _ _ _ _ call); [|done|tauto].
  unfold sub_transactions. by rewrite E.
Qed.

(** What the chain [main] composes answers is justified. *)
Lemma chain_justified tx context w :
  block context ≤ u64_max →
  justified_verdict config chain_id tx context w
    (security_check (engine_checkers config chain_id) tx context w).1.
Proof.
  intros Hblock. unfold engine_checkers. fold (engine_poisoning config chain_id).
  rewrite security_check_local. unfold check_cancellation. case_decide as H1.
  { case_decide as H; [|done]. split; [by eauto using cancellation_limited|by left]. }
  clear H1. rewrite security_check_local. unfold check_escape_hatch.
  destruct (is_escape_hatch_call tx) eqn:E; simpl.
  { apply Is_true_true_2, escape_hatch_spec in E as (Hcall & Hgas & Hs).
    split; [|by right; left]. intros effect.
    destruct Hs as [Hs|Hs]; (eapply other_function_limited; [apply Hcall|exact Hs|]); set_solver. }
  rewrite security_check_local. unfold check_base.
  destruct (check_transaction_spec tx) as [[Hbase ->]|[Hbase ->]]; simpl;
    [|by apply base_denial].
  rewrite security_check_local. unfold check_blocklist.
  destruct (decide (to tx ∈ _)) as [Hb|Hb]; simpl;
    rewrite elem_of_list_to_set in Hb; [by left; apply blocked_target|].
  rewrite security_check_local. unfold check_nested.
  destruct (is_nested_exec_transaction tx) eqn:En; simpl.
  { apply Is_true_true_2, nested_spec in En as (Hop & Hto & Hs). split.
    - intros effect. eapply other_function_limited; [done|exact Hs|set_solver].
    - right; right. split_and!; [done|done|by apply nested_safe]. }
  rewrite security_check_local.
  destruct (excessive_approval_spec tx) as [[-> Hlimited]|[-> (effect & He & Hu)]]; simpl;
    [|by left; eapply unlimited_approval].
  pose proof (purposeful_chain tx context w Hblock) as H.
  destruct (security_check _ tx context w).1; simpl in *; [|by left|done].
  split; [done|]. right; right. done.
Qed.

(** [C14] Every verdict of the engine is justified, whatever the node and the order
    API answer: what it calls secure grants no unlimited approval and is a
    cancellation, an escape-hatch call, or an allowed transaction with a purpose it
    has evidence for; and what it calls insecure violates the rule it cites, with
    one exception ([misattributed]): a batch of which a call changes the Safe's
    settings, which violates rule 4.1, may be denied under rule 4.2, as the comment
    on [check_multi_send] admits. *)
Theorem verdicts_justified tx context w :
  block context ≤ u64_max →
  justified_verdict config chain_id tx context w
    (security_check (engine_checkers config chain_id) tx context w).1.
Proof. apply chain_justified. Qed.
End justified.

(** ** The order API *)

Section cow.
Context {EL : EngineLibs}.

(** Two different orders with the same digest. *)
Definition orders_collide : Prop :=
  ∃ o o' domain, o ≠ o' ∧
    order_eip712_signing_hash o domain = order_eip712_signing_hash o' domain.

(** The API's answers have the types of its JSON fields: 20-byte addresses. *)
Definition answers_typed (w : Outside) : Prop :=
  ∀ n host uid order, order_reply w n host uid = Some order → owner order < 2 ^ 160.

Context (Hdigest : ∀ o domain, order_eip712_signing_hash o domain < 2 ^ 256).

(** An order's identifier determines its terms and its owner. *)
Lemma order_uid_binds chain_id order order' uid :
  owner order < 2 ^ 160 → owner order' < 2 ^ 160 →
  compute_order_uid chain_id order = Some uid → compute_order_uid chain_id order' = Some uid →
  (order_struct order = order_struct order' ∧ owner order = owner order') ∨ orders_collide.
Proof.
  intros Ho Ho'. unfold compute_order_uid.
  destruct (gp_v2_domain chain_id) as [domain|]; [|done]. cbn [mbind option_bind].
  intros <-%(inj Some) E%(inj Some). split_bytes E.
  destruct (decide (order_struct order = order_struct order')) as [Heq|Hne].
  - left. split; [done|]. by apply (to_be_bytes_inj 20).
  - right. exists (order_struct order), (order_struct order'), domain. split; [done|].
    by apply (to_be_bytes_inj 32).
Qed.

(** The verdict on an answer is one on its terms and its owner. *)
Lemma presignature_verdict_binds safe chain_id token amount uid order order' :
  compute_order_uid chain_id order = Some uid → compute_order_uid chain_id order' = Some uid →
  order_struct order = order_struct order' → owner order = owner order' →
  presignature_verdict safe chain_id token amount uid (Some order) =
  presignature_verdict safe chain_id token amount uid (Some order').
Proof.
  intros Hu Hu' Hs Ho. unfold presignature_verdict.
  rewrite Hu, Hu'. rewrite !(decide_False (P := Some uid ≠ Some uid)) by (intros Hn; by apply Hn).
  unfold order_struct in Hs. injection Hs as Hsell _ Hreceiver Hamount _ _ _ _ _ _ _ _.
  assert (effective_receiver order = effective_receiver order') as ->.
  { unfold effective_receiver.
    destruct (order_receiver order) as [r|], (order_receiver order') as [r'|]; simpl in Hreceiver;
      subst; repeat case_decide; done. }
  by rewrite Hsell, Hamount.
Qed.

Lemma presignature_verdict_Some safe chain_id token amount uid answer :
  presignature_verdict safe chain_id token amount uid answer ≠ Abstain →
  ∃ order, answer = Some order ∧ compute_order_uid chain_id order = Some uid.
Proof.
  unfold presignature_verdict. destruct answer as [order|]; [|done].
  case_decide; [done|]. by exists order.
Qed.

Lemma presignature_batch_agrees safe chain_id calls w w' :
  answers_typed w → answers_typed w' →
  (check_presignature_batch safe chain_id calls w).1 ≠ Abstain →
  (check_presignature_batch safe chain_id calls w').1 ≠ Abstain →
  (check_presignature_batch safe chain_id calls w).1 =
  (check_presignature_batch safe chain_id calls w').1 ∨ orders_collide.
Proof.
  intros Hw Hw'. unfold check_presignature_batch.
  destruct (order_api_base_url chain_id) as [host|]; [|done].
  destruct calls as [|first [|second [|]]]; try done.
  destruct (or_else _ _) as [[[token amount] uid]|]; [|done].
  unfold checking_bind, fetch_order. cbn [fst checking_ret].
  destruct (order_reply w 0 host uid) as [order|] eqn:Hr;
    destruct (order_reply w' 0 host uid) as [order'|] eqn:Hr'; try (by intros ? []); try (by intros []).
  intros (o & [= <-] & Hu)%presignature_verdict_Some
    (o' & [= <-] & Hu')%presignature_verdict_Some.
  destruct (order_uid_binds chain_id order order' uid) as [[? ?]|]; eauto.
  left. by apply presignature_verdict_binds.
Qed.

(** A batch that presigns an order creates no TWAP order. *)
Lemma presignature_not_twap safe first second approval :
  or_else (decode_approval_and_presignature first second)
    (decode_approval_and_presignature second first) = Some approval →
  check_twap_batch safe [first; second] = Abstain.
Proof.
  intros H. unfold check_twap_batch.
  assert (∀ a b x, decode_approval_and_presignature a b = Some x →
    is_Some (abi_decode approve (SafeTransaction.data a)) ∧
    is_Some (abi_decode setPreSignature (SafeTransaction.data b))) as Hpre.
  { intros a b x E. unfold decode_approval_and_presignature in E.
    apply bind_Some in E as ([token amount] & [_ Ha]%vault_relayer_approval_Some & E).
    apply bind_Some in E as (uid & [_ Hb]%presignature_uid_Some & _). eauto. }
  assert (∀ a b x, decode_approval_and_twap a b = Some x →
    is_Some (abi_decode approve (SafeTransaction.data a)) ∧
    is_Some (abi_decode createWithContext (SafeTransaction.data b))) as Htwap.
  { intros a b x E. unfold decode_approval_and_twap in E.
    apply bind_Some in E as ([token amount] & [_ Ha]%vault_relayer_approval_Some & E).
    apply bind_Some in E as ([[[? ?] ?] ?] & (order & (create & _ & ? & _) & _)%twap_terms_Some & _).
    eauto. }
  assert (∀ f g d, f ≠ g → is_Some (abi_decode f d) → ¬ is_Some (abi_decode g d)) as Hother.
  { intros f g d Hne [x Hx] [y Hy]. destruct Hne. by eapply decode_inj. }
  unfold or_else in *.
  destruct (decode_approval_and_twap first second) as [x|] eqn:E1.
  { apply Htwap in E1 as [? ?].
    destruct (decode_approval_and_presignature first second) as [y|] eqn:E;
      [apply Hpre in E as [? ?]|apply Hpre in H as [? ?]]; exfalso.
    - by apply (Hother setPreSignature createWithContext (SafeTransaction.data second)).
    - by apply (Hother setPreSignature approve (SafeTransaction.data first)). }
  destruct (decode_approval_and_twap second first) as [x|] eqn:E2; [|done].
  apply Htwap in E2 as [? ?].
  destruct (decode_approval_and_presignature first second) as [y|] eqn:E;
    [apply Hpre in E as [? ?]|apply Hpre in H as [? ?]]; exfalso.
  - by apply (Hother setPreSignature approve (SafeTransaction.data second)).
  - by apply (Hother setPreSignature createWithContext (SafeTransaction.data first)).
Qed.

Lemma presignature_or_twap safe chain_id calls w :
  (check_presignature_batch safe chain_id calls w).1 ≠ Abstain →
  check_twap_batch safe calls = Abstain.
Proof.
  unfold check_presignature_batch. destruct (order_api_base_url chain_id); [|done].
  destruct calls as [|first [|second [|]]]; try done.
  destruct (or_else _ _) as [[[token amount] uid]|] eqn:E; [|done].
  intros _. by eapply presignature_not_twap.
Qed.

(** [C15] What the order API answers does not change a verdict, short of a
    collision of order digests: with whatever answers, a batch is given no verdict
    or always the same one. *)
Theorem order_api_untrusted tx context w w' :
  answers_typed w → answers_typed w' →
  (check_cow tx context w).1 ≠ Abstain → (check_cow tx context w').1 ≠ Abstain →
  (check_cow tx context w).1 = (check_cow tx context w').1 ∨ orders_collide.
Proof.
  intros Hw Hw'. unfold check_cow. case_decide; [done|]. case_decide; [by left|].
  unfold checking_bind.
  pose proof (presignature_batch_agrees (SafeTransaction.safe tx) (SafeTransaction.chainId tx)
    (sub_transactions tx) w w' Hw Hw') as Hagree.
  pose proof (presignature_or_twap (SafeTransaction.safe tx) (SafeTransaction.chainId tx)
    (sub_transactions tx) w) as Hx.
  pose proof (presignature_or_twap (SafeTransaction.safe tx) (SafeTransaction.chainId tx)
    (sub_transactions tx) w') as Hx'.
  destruct (check_presignature_batch _ _ _ w) as [v ?],
    (check_presignature_batch _ _ _ w') as [v' ?]. simpl in *.
  repeat case_decide; auto; intros Hv Hv'; [by rewrite Hx in Hv'|by rewrite Hx' in Hv].
Qed.
End cow.
