(* ===== verification/EngineVotes.v ===== *)
(** * A sentinel with its engine

    The sentinel of [Sentinel.v] whose checks are answered by the engine of
    [SentinelEngine.v]: what its votes rest on. *)

From S2P Require Import Prelude.
From S2P Require Import Bytes.
From S2P Require Import Database.
From S2P Require Import Core.
From S2P Require Import Bindings.
From S2P Require Import Alloy.
From S2P Require Import StateMachine.
From S2P Require Import TxQueue.
From S2P Require Import Provider.
From S2P Require Import Events.
From S2P Require Import Driver.
From S2P Require Import Process.
From S2P Require Import SentinelBindings.
From S2P Require Import Sentinel.
From S2P Require Import SentinelSafety.
From S2P Require Import EngineBindings.
From S2P Require Import Checkers.
From S2P Require Import Poisoning.
From S2P Require Import SentinelEngine.
From S2P Require Import EngineSafety.

(** ** The verdict on the wire *)

(** What the sentinel reads of a verdict the engine writes: the rule of a denial
    travels as its code. *)
Definition response_of (verdict : Verdict.t) : option Response :=
  match verdict with
  | Verdict.Secure => Some Secure
  | Verdict.Insecure rule => Insecure <$> rule_parse (EngineRule.code rule)
  | Verdict.Abstain => Some Abstain
  end.

(** The number of a rule in the fourth article. *)
Definition rule_number (rule : EngineRule.t) : RuleId :=
  RuleId.new 4
    match rule with
    | EngineRule.R4_1SettingsChange => 1
    | EngineRule.R4_2DelegatecallIntegrity => 2
    | EngineRule.R4_3ValueTarget => 3
    | EngineRule.R4_4AuthorizationTarget => 4
    | EngineRule.R4_5ExcessiveApproval => 5
    | EngineRule.R4_6KnownMaliciousTarget => 6
    end.

Lemma response_insecure rule :
  response_of (Verdict.Insecure rule) = Some (Insecure (rule_number rule)).
Proof. by destruct rule; vm_compute. Qed.

Lemma rule_number_code rule : rule_to_string (rule_number rule) = EngineRule.code rule.
Proof. by destruct rule; vm_compute. Qed.

(** The sentinel votes as the engine answers: whatever the verdict, the
    response it reads from it calls for approval if the transaction is secure, for a
    denial with the code of the violated rule, which the engine reads back as that
    rule, or for no vote. *)
Lemma engine_verdicts_understood answer :
  Sentinel.verdict (outcome_of (response_of answer)) =
    match answer with
    | Verdict.Secure => Some (true, [])
    | Verdict.Insecure rule => Some (false, EngineRule.code rule)
    | Verdict.Abstain => None
    end ∧
  (∀ rule, EngineRule.from_code (EngineRule.code rule) = Some rule) ∧
  (∀ code rule, EngineRule.from_code code = Some rule → EngineRule.code rule = code).
Proof.
  split_and!.
  - destruct answer as [|rule|]; [done| |done].
    rewrite response_insecure. simpl. by rewrite rule_number_code.
  - by intros [].
  - intros c rule Hc. apply fmap_Some in Hc as ([i r] & Hfind & Hr). simpl in Hr. subst r.
    by apply list_find_Some in Hfind as (_ & ? & _).
Qed.

Section votes.
Context {AL : Alloy} {SL : SentinelLibs} {VI : Visit} {EL : EngineLibs}.
Context (config : EngineConfig) (chain_id : N).

Abbreviation SentinelMessage := (Message SentinelEvents SentinelResume).

#[local] Arguments Sentinel.finalize : simpl never.

(** A check is commanded for a proposal that names the sentinel's oracle. *)
Lemma effect_step T id m entry request_id tx block :
  CEffect (EngineCheck request_id tx block) ∈ (request_step T id m entry).2 →
  ∃ log event, m = MEvent log ∧ log_data log = SConsensus event ∧ proposal_id T event = id ∧
    Consensus.TransactionProposed.oracle event = oracle T ∧ request_id = id ∧
    tx = Consensus.TransactionProposed.transaction event ∧ block = log_block log.
Proof.
  assert (∀ e, CEffect (EngineCheck request_id tx block) ∉ (finalize e id).2) as Hfin.
  { intros e Hc%finalize_commands. discriminate. }
  intros Hc. destruct m as [b|log|[r outcome]]; simpl in Hc.
  - destruct entry as [[| |? ? ? ? ? ? []| | |]|]; simpl in Hc; repeat case_decide;
      simpl in Hc; try (by apply not_elem_of_nil in Hc); [|by destruct (Hfin _ Hc)].
    apply list_elem_of_singleton in Hc. discriminate.
  - destruct (log_data log) as [event|event] eqn:Hlog; case_decide; simpl in Hc;
      try (by apply not_elem_of_nil in Hc).
    + destruct event as [e|e|e|e|e|e|e|e|e|e], entry as [[]|]; simpl in Hc;
        repeat case_match; simpl in Hc; try (by destruct (Hfin _ Hc));
        set_unfold in Hc; naive_solver.
    + apply list_elem_of_singleton in Hc. injection Hc as -> -> ->. exists log, event. naive_solver.
  - destruct entry as [[]|]; simpl in Hc; try (by apply not_elem_of_nil in Hc).
    repeat case_match; simpl in Hc; set_unfold in Hc; naive_solver.
Qed.

(** ** Votes *)

(** The verdict a vote stands for. *)
Definition vote_verdict (approve : bool) (reason : Bytes) (answer : Verdict.t) : Prop :=
  match answer with
  | Verdict.Secure => approve = true ∧ reason = []
  | Verdict.Insecure rule => approve = false ∧ reason = EngineRule.code rule
  | Verdict.Abstain => False
  end.

Lemma answer_vote answer approve reason :
  Sentinel.verdict (outcome_of (response_of answer)) = Some (approve, reason) →
  vote_verdict approve reason answer.
Proof.
  destruct answer as [|rule|]; [by intros [= <- <-]| |done].
  rewrite response_insecure. simpl. rewrite rule_number_code. by intros [= <- <-].
Qed.

(** ** The sentinel as a service *)

Context {StJ : StateJson SentinelState} `{!Events SentinelEvents} {AB : AlloyBloom}.

(** The engine's answer to a request: none, for a failure or a timeout, or its
    verdict over what it is answered itself. *)
Definition attached_engine (outside : option Outside) (request_id : B256) (block : N)
    (tx : SafeTransaction) : option Response :=
  w ← outside;
  response_of (api_security_check (engine_checkers config chain_id)
    {| request_block := block; transaction := tx |} w).1.

(** The sentinel, at this engine. *)
Definition sentinel_service :
    Service SentinelService SentinelState SentinelEvents SentinelAction SentinelEffect
      SentinelResume () (option Outside) := {|
  initial_state := ∅;
  Driver.transition s := sentinel_transition (sentinel_components s).1;
  encode s := sentinel_encode_action (sentinel_components s).2;
  handler _ := ();
  perform outside _ effect := (sentinel_perform_effect (attached_engine outside) effect, ());
  reopen _ _ := ();
  startup _ := None;
|}.
#[local] Existing Instance sentinel_service.

Lemma replay_sentinel_run T messages :
  replay (sentinel_transition T) ∅ messages = (sentinel_run T messages).1.
Proof.
  unfold replay, sentinel_run, sentinel_from. generalize (∅ : SentinelState) as state.
  generalize (@nil SentinelCommand) as out. induction messages as [|m messages IH]; [done|].
  intros out state. simpl. destruct (sentinel_transition T state m) as [state' commands]. apply IH.
Qed.

(** A commanded command is one request's. *)
Lemma commanded_request s seen c :
  commanded s seen c →
  let T := (sentinel_components s).1 in
  ∃ messages m id, happened s seen (messages ++ [m]) ∧
    c ∈ (request_step T id m (request_run T id messages).1).2.
Proof.
  intros (messages & m & Hh & Hc) T. cbn [Driver.transition initial_state sentinel_service] in Hc.
  rewrite replay_sentinel_run in Hc. apply step_commands in Hc as [id Hc].
  exists messages, m, id. split; [done|]. by rewrite run_lookup in Hc.
Qed.
End votes.

(** [C13] The running sentinel, attached to its engine, votes on what it was
    proposed: each reveal it has queued, through reorgs, crashes and restarts, is
    on a proposal that its indexer delivered and that named its oracle, and for
    the proposed transaction there is a verdict, justified by what the node and
    the order API answered: an approval of a transaction the engine vouches for,
    or a denial that cites a rule the transaction violates (or rule 4.2 for a
    batch that violates rule 4.1: [misattributed]). *)
Theorem running_votes_backed {AL : Alloy} {SL : SentinelLibs} {VI : Visit} {EL : EngineLibs}
    {StJ : StateJson SentinelState} `{!Events SentinelEvents} {AB : AlloyBloom}
    config chain_id s dep events row :
  state_roundtrip StJ →
  let p := process (SV := sentinel_service config chain_id) s dep events in
  let T := (sentinel_components s).1 in
  row ∈ tables (queue_storage (transactions (driver p))) →
  ∃ action,
    (row_request row, row_expires_at row) = sentinel_encode_action (sentinel_components s).2 action ∧
    ∀ id approve salt reason, kind action = Reveal id approve salt reason →
      ∃ u log event answer w, ULogs u ∈ seen p ∧ log ∈ update_logs u ∧
        log_data log = SConsensus event ∧ proposal_id T event = id ∧
        Consensus.TransactionProposed.oracle event = oracle T ∧
        vote_verdict approve reason answer ∧
        justified_verdict config chain_id (Consensus.TransactionProposed.transaction event)
          {| block := log_block log |} w answer.
Proof.
  intros J p T Hrow.
  assert (process_ok (SV := sentinel_service config chain_id) s (λ _, True) p)
    as [(_ & [_ Hrows] & _) _ _] by by apply process_accounted.
  unfold rows_from in Hrows. rewrite Forall_forall in Hrows.
  destruct (Hrows _ Hrow) as ([k expires] & Henc & [Hc|[=]]). exists {| kind := k; expires_at := expires |}.
  split; [done|]. simpl. intros id approve salt reason ->.
  apply commanded_request in Hc as (messages & m & id' & Hh & Hc). fold T in Hc.
  apply reveal_step in Hc as (b & slash & commit_by & reveal_by & committed & -> & -> & -> &
    Hentry & _ & _).
  apply run_justified in Hentry as ((outcome & Hin & Hv) & _ & _).
  apply happened_snoc in Hh. pose proof (happened_elem _ _ _ _ Hh Hin) as Hp.
  destruct Hp as ([request_id tx block] & outside & [] & Hc & [= -> ->]).
  apply commanded_request in Hc as (messages' & m & id2 & Hh' & Hc). fold T in Hc.
  apply effect_step in Hc as (log & event & -> & Hlog & Hid & Horacle & -> & -> & ->).
  pose proof (happened_elem _ _ _ (MEvent log) Hh' ltac:(set_solver)) as (Hle & u & Hu & Hl).
  destruct outside as [w|]; [|done]. simpl in Hv. apply answer_vote in Hv.
  eexists u, log, event, _, w. split_and!; [done..|exact Hv|].
  by apply chain_justified.
Qed.
