(* ===== verification/Preprocessing.v ===== *)
(** * Nonce preprocessing: [state/preprocess.rs]

    Canonical nonce-tree assignments of an epoch, top-up requests, and the
    reconciliation of stored group secrets with the state. *)

From S2P Require Import Prelude.
From S2P Require Import Bytes.
From S2P Require Import Epoch.
From S2P Require Import Bindings.
From S2P Require Import Alloy.
From S2P Require Import Group.
From S2P Require Import FrostLib.
From S2P Require Import FrostKeygen.
From S2P Require Import FrostSign.
From S2P Require Import Core.
From S2P Require Import State.

Definition NONCE_TOPUP_THRESHOLD : N := 100.

(** [Iterator::sum] over [u64] in a release build. *)
Definition u64_sum (l : list N) : N := foldl wrapping_add 0 l.

Section nonce_state.
Context {FL : FrostLib}.

(** ** [NonceState] *)

(** [observe]: the coordinates linked to [sequence], and the state after the
    sequence, without the chunks that are no longer usable. *)
Definition observe (sequence : N) (ns : NonceState) : option NonceIndex * NonceState :=
  let '(chunk, offset) := decode_sequence sequence in
  let nonce :=
    (λ root, {| nonce_root := root; nonce_offset := offset |}) <$>
      mjoin (chunks ns !! chunk) in
  let next_sequence := saturating_add sequence 1 in
  let '(next_chunk, _) := decode_sequence next_sequence in
  (nonce, {| next_sequence := next_sequence;
             chunks := btree_split_off next_chunk (chunks ns) |}).

(** [expected_chunk]. *)
Definition expected_chunk (ns : NonceState) : option N :=
  let '(chunk, _) := decode_sequence (next_sequence ns) in
  match btree_last (chunks ns) with
  | Some (last, _) => N.max chunk <$> checked_add last 1
  | None => Some chunk
  end.

(** [reserve_chunk]. *)
Definition reserve_chunk (ns : NonceState) : option N * NonceState :=
  match expected_chunk ns with
  | Some chunk =>
      (Some chunk, {| next_sequence := next_sequence ns;
                      chunks := <[chunk := None]> (chunks ns) |})
  | None => (None, ns)
  end.

(** [link]. *)
Definition link (chunk : N) (root : B256) (ns : NonceState) : NonceState :=
  {| next_sequence := next_sequence ns; chunks := <[chunk := Some root]> (chunks ns) |}.

(** [ensure_chunk_reservation]. *)
Definition ensure_chunk_reservation (ns : NonceState) : NonceState :=
  let existing_reservation :=
    match btree_last (chunks ns) with
    | Some (_, root) => bool_decide (root = None)
    | None => false
    end in
  if existing_reservation then ns else (reserve_chunk ns).2.

(** [available]. *)
Definition chunk_capacity (chunk offset key : N) : N :=
  if decide (key = chunk) then saturating_sub SEQUENCE_CHUNK_SIZE offset
  else SEQUENCE_CHUNK_SIZE.

Definition available (ns : NonceState) : N :=
  let '(chunk, offset) := decode_sequence (next_sequence ns) in
  u64_sum (chunk_capacity chunk offset <$> btree_keys (btree_split_off chunk (chunks ns))).
End nonce_state.

Section preprocessing.
Context {AL : Alloy} {FL : FrostLib}.

(** Replaces the nonce state of one tracked epoch. *)
Definition update_epoch (e : EpochId) (ep : Epoch) (s : State) : State :=
  set_epochs (<[e := ep]> (epochs s)) s.

(** ** Handlers *)

Definition handle_nonce_tree (T : Transition) (state : State)
    (group_id nonces_commitment : B256) : State * list Command :=
  match find_epoch group_id (epochs state) with
  | None => (state, [])
  | Some (e, ep) =>
      let ep := with_nonces (ensure_chunk_reservation (epoch_nonces ep)) ep in
      (update_epoch e ep state, [CAction (Preprocess group_id nonces_commitment)])
  end.

Definition handle_preprocess (T : Transition) (state : State)
    (event : Coordinator.Preprocess.t) : State * list Command :=
  if decide (Coordinator.Preprocess.participant event ≠ Transition.account T)
  then (state, [])
  else
    match find_epoch (Coordinator.Preprocess.gid event) (epochs state) with
    | None => (state, [])
    | Some (e, ep) =>
        let nonces :=
          link (Coordinator.Preprocess.chunk event)
            (Coordinator.Preprocess.commitment event) (epoch_nonces ep) in
        (update_epoch e (with_nonces nonces ep) state, [])
    end.

Definition handle_nonce_topup (T : Transition) (state : State) : State * list Command :=
  match epochs state !! active_epoch state with
  | None => (state, [])
  | Some ep =>
      if decide (NONCE_TOPUP_THRESHOLD ≤ available (epoch_nonces ep)) then (state, [])
      else
        let group_id := Group.id (epoch_group ep) in
        match reserve_chunk (epoch_nonces ep) with
        | (None, _) => (state, [])
        | (Some chunk, nonces) =>
            (update_epoch (active_epoch state) (with_nonces nonces ep) state,
             [CEffect (NonceTree group_id)])
        end
  end.

(** The oldest epoch a signing ceremony still needs. *)
Definition oldest_epoch (state : State) : EpochId :=
  foldl EpochId.min (active_epoch state)
    ((λ s, packet_epoch (signing_packet s)) <$> btree_values (signing state)).

(** The secrets of the key generation in progress that must be retained. *)
Definition rollover_secrets (r : RolloverState) : option (B256 * option KeyShare) :=
  match r with
  | CollectingConfirmations _ group _ (Confirmed key_share) _ _ _
  | SigningRollover _ group (Some key_share) _ =>
      Some (Group.id group, Some key_share)
  | CollectingCommitments _ group (CommitParticipating _ _) _ _
  | CollectingShares _ group (Participating _) _ _ _ _
  | CollectingConfirmations _ group (Participating _) _ _ _ _ =>
      Some (Group.id group, None)
  | _ => None
  end.

Definition epoch_groups (es : gmap EpochId Epoch) : gmap B256 (option KeyShare) :=
  foldl (λ m ep, <[Group.id (epoch_group ep) := Some (epoch_key_share ep)]> m)
    ∅ (btree_values es).

Definition handle_group_reconciliation (T : Transition) (state : State)
    : State * list Command :=
  let state := set_epochs (btree_split_off (oldest_epoch state) (epochs state)) state in
  let groups := epoch_groups (epochs state) in
  let groups :=
    match rollover_secrets (rollover state) with
    | Some (group_id, key_share) => <[group_id := key_share]> groups
    | None => groups
    end in
  (state, [CEffect (ReconcileGroupSecrets groups)]).
End preprocessing.

(** ** Lemmas *)

Section preprocessing_lemmas.
Context {AL : Alloy} {FL : FrostLib}.

Lemma expected_chunk_fresh ns c :
  expected_chunk ns = Some c →
  (decode_sequence (next_sequence ns)).1 ≤ c ∧
  ∀ k, is_Some (chunks ns !! k) → k < c.
Proof.
  unfold expected_chunk. destruct (decode_sequence _) as [chunk offset]. simpl.
  destruct (btree_last (chunks ns)) as [[last v]|] eqn:Hlast; simpl.
  - destruct (checked_add last 1) as [n|] eqn:Hn; simpl; [|done]. intros [= <-].
    apply checked_add_Some in Hn as [-> _]. split; [lia|].
    intros k Hk. apply btree_last_Some in Hlast as [_ Hmax].
    specialize (Hmax k Hk). simpl in Hmax. lia.
  - intros [= <-]. split; [done|]. apply btree_last_None in Hlast.
    rewrite Hlast. intros k [v Hk]. simplify_map_eq.
Qed.

Lemma reserve_chunk_Some ns c ns' :
  reserve_chunk ns = (Some c, ns') →
  chunks ns !! c = None ∧
  (decode_sequence (next_sequence ns)).1 ≤ c ∧
  next_sequence ns' = next_sequence ns ∧
  chunks ns' = <[c := None]> (chunks ns).
Proof.
  unfold reserve_chunk. destruct (expected_chunk ns) as [c'|] eqn:E; [|done].
  intros [= -> <-]. apply expected_chunk_fresh in E as [Hle Hlt]. split_and!; [|done..].
  destruct (chunks ns !! c) eqn:Hc; [|done]. specialize (Hlt c ltac:(eauto)). lia.
Qed.

Lemma oldest_epoch_spec state :
  EpochId.raw_value (oldest_epoch state) ≤ EpochId.raw_value (active_epoch state) ∧
  ∀ m s, signing state !! m = Some s →
    EpochId.raw_value (oldest_epoch state) ≤
      EpochId.raw_value (packet_epoch (signing_packet s)).
Proof.
  unfold oldest_epoch. generalize (active_epoch state) as a.
  assert (∀ l a,
    EpochId.raw_value (foldl EpochId.min a l) ≤ EpochId.raw_value a ∧
    ∀ e, e ∈ l → EpochId.raw_value (foldl EpochId.min a l) ≤ EpochId.raw_value e) as Hl.
  { induction l as [|e l IH]; intros a; simpl; [split; [done|set_solver]|].
    destruct (IH (EpochId.min a e)) as [H1 H2].
    rewrite EpochId.raw_value_min in H1. split; [lia|].
    intros e' [->|?]%elem_of_cons; [lia|by apply H2]. }
  intros a. edestruct Hl as [H1 H2]. split; [exact H1|].
  intros m s Hs. apply H2, list_elem_of_fmap. exists s. split; [done|].
  apply elem_of_btree_values. eauto.
Qed.
End preprocessing_lemmas.
