(* ===== verification/Signing.v ===== *)
(** * Signing ceremonies: [state/sign.rs], [state/transactions.rs]

    The handlers that move a signing session from its request to its
    attestation, the timeouts that retry or drop it, and the handlers of
    transaction proposals. *)

From S2P Require Import Prelude.
From S2P Require Import Bytes.
From S2P Require Import Epoch.
From S2P Require Import Bindings.
From S2P Require Import Alloy.
From S2P Require Import Group.
From S2P Require Import Hashing.
From S2P Require Import FrostLib.
From S2P Require Import Frost.
From S2P Require Import FrostKeygen.
From S2P Require Import FrostSign.
From S2P Require Import Core.
From S2P Require Import State.
From S2P Require Import Preprocessing.

Section signing.
Context {AL : Alloy} {FL : FrostLib}.

Definition insert_session (message : B256) (s : SigningState) (state : State) : State :=
  set_signing (<[message := s]> (signing state)) state.
Definition remove_session (message : B256) (state : State) : State :=
  set_signing (delete message (signing state)) state.
Definition link_signature (sid message : B256) (state : State) : State :=
  set_index (<[sid := message]> (signature_id_to_message state)) state.
Definition unlink_signature (sid : B256) (state : State) : State :=
  set_index (delete sid (signature_id_to_message state)) state.

(** ** [impl Packet] *)

Definition attestation_callback (p : Packet) (consensus : Address) : Callback :=
  match p with
  | Transaction epoch oracle oracle_data transaction =>
      let safe_tx_struct_hash := safe_tx_struct_hash transaction in
      let context := consensus_abi_encode
        (Consensus.attestTransactionCall (EpochId.raw_value epoch) oracle
           (keccak256 oracle_data) (SafeTransaction.chainId transaction)
           (SafeTransaction.safe transaction) safe_tx_struct_hash B256_ZERO) in
      Callback.mk consensus context
  | EpochRollover _ proposed_epoch rollover_block group_id _ =>
      Callback.mk consensus
        (consensus_abi_encode
           (Consensus.stageEpochCall (nonzero_get proposed_epoch) rollover_block
              group_id B256_ZERO))
  end.

Definition attestation_action (p : Packet) (signature_id : B256) (expires_at : N)
    : Action :=
  match p with
  | EpochRollover _ proposed_epoch rollover_block group_id _ =>
      StageEpoch proposed_epoch rollover_block group_id signature_id expires_at
  | Transaction epoch oracle oracle_data transaction =>
      AttestTransaction epoch oracle (keccak256 oracle_data)
        (SafeTransaction.chainId transaction) (SafeTransaction.safe transaction)
        (safe_tx_struct_hash transaction) signature_id expires_at
  end.

(** ** Requests *)

(** [state.epochs.values_mut().find(..).and_then(|epoch|
    epoch.nonces.observe(event.sequence))]. *)
Definition observe_sequence (gid : B256) (sequence : N) (state : State)
    : option NonceIndex * State :=
  match find_epoch gid (epochs state) with
  | None => (None, state)
  | Some (e, ep) =>
      let '(nonce, nonces) := observe sequence (epoch_nonces ep) in
      (nonce, update_epoch e (with_nonces nonces ep) state)
  end.

(** Opens the round of an accepted request. *)
Definition accept_request (T : Transition) (block : N) (event : Coordinator.Sign.t)
    (nonce : NonceIndex) (key_share : KeyShare) (group_id : B256) (packet : Packet)
    (signers : gset Address) (state : State) : State * list Command :=
  let message := Coordinator.Sign.message event in
  let sid := Coordinator.Sign.sid event in
  match packet with
  | Transaction _ oracle _ _ =>
      let deadline := saturating_add block (oracle_timeout T) in
      (link_signature sid message
         (insert_session message
            (WaitingForOracle key_share oracle group_id sid nonce packet signers
               deadline) state), [])
  | EpochRollover _ _ _ _ _ =>
      let deadline := saturating_add block (signing_timeout T) in
      (link_signature sid message
         (insert_session message
            (CollectNonceCommitments key_share (Coordinator.Sign.gid event) sid nonce
               ∅ None packet signers deadline) state),
       [CEffect (RevealNonceCommitments sid message (nonce_root nonce)
                   (nonce_offset nonce))])
  end.

Definition handle_sign (T : Transition) (state : State) (block : N)
    (event : Coordinator.Sign.t) : State * list Command :=
  let '(nonce, state) :=
    observe_sequence (Coordinator.Sign.gid event) (Coordinator.Sign.sequence event)
      state in
  let message := Coordinator.Sign.message event in
  let removed := remove_session message state in
  match nonce, signing state !! message with
  | Some nonce, Some (WaitingForRequest key_share group_id responsible packet
                        signers deadline) =>
      if decide (group_id = Coordinator.Sign.gid event) then
        accept_request T block event nonce key_share group_id packet signers removed
      else
        (insert_session message
           (WaitingForRequest key_share group_id responsible packet signers deadline)
           removed, [])
  | None, Some (WaitingForRequest _ _ _ _ _ _) => (removed, [])
  | _, Some other => (insert_session message other removed, [])
  | _, None => (removed, [])
  end.

(** ** Nonce reveals *)

Definition handle_nonce_commitments (T : Transition) (state : State)
    (signature_id message : B256) (nonces : SignNonces) (proof : list B256)
    : State * list Command :=
  match signing state !! message with
  | Some (CollectNonceCommitments _ _ sid _ _ _ _ _ deadline) =>
      if decide (sid = signature_id) then
        (state, [CAction (ARevealNonceCommitments signature_id nonces proof deadline)])
      else (state, [])
  | _ => (state, [])
  end.

Definition handle_oracle_result (T : Transition) (state : State) (block : N)
    (oracle : Address) (event : Oracle.OracleResult.t) : State * list Command :=
  let request_id := Oracle.OracleResult.requestId event in
  let removed := remove_session request_id state in
  match signing state !! request_id with
  | Some (WaitingForOracle key_share expected group_id signature_id nonce packet
            signers deadline) =>
      if decide (expected = oracle ∧ Oracle.OracleResult.approved event = true) then
        let deadline := saturating_add block (signing_timeout T) in
        (insert_session request_id
           (CollectNonceCommitments key_share group_id signature_id nonce ∅ None
              packet signers deadline) removed,
         [CEffect (RevealNonceCommitments signature_id request_id (nonce_root nonce)
                     (nonce_offset nonce))])
      else if decide (expected = oracle ∧ Oracle.OracleResult.approved event = false)
      then (unlink_signature signature_id removed, [])
      else
        (insert_session request_id
           (WaitingForOracle key_share expected group_id signature_id nonce packet
              signers deadline) removed, [])
  | Some other => (insert_session request_id other removed, [])
  | None => (removed, [])
  end.

(** The revealed commitments and the last signer after one reveal. *)
Definition track_reveal (signers : gset Address)
    (event : Coordinator.SignRevealedNonces.t)
    (revealed : gmap Address RevealedNonces) (last_signer : option Address)
    : gmap Address RevealedNonces * option Address :=
  let participant := Coordinator.SignRevealedNonces.participant event in
  if decide (participant ∈ signers) then
    match verify_revealed_nonces participant
            (Coordinator.SignRevealedNonces.nonces event) with
    | Ok nonces => (<[participant := nonces]> revealed, Some participant)
    | Err _ => (revealed, last_signer)
    end
  else (revealed, last_signer).

Definition handle_sign_revealed_nonces (T : Transition) (state : State) (block : N)
    (event : Coordinator.SignRevealedNonces.t) : State * list Command :=
  match signature_id_to_message state !! Coordinator.SignRevealedNonces.sid event with
  | None => (state, [])
  | Some message =>
      let removed := remove_session message state in
      match signing state !! message with
      | Some (CollectNonceCommitments key_share group_id signature_id nonce revealed
                last_signer packet signers deadline) =>
          let '(revealed, last_signer) :=
            track_reveal signers event revealed last_signer in
          if decide (btree_len revealed < set_len signers) then
            (insert_session message
               (CollectNonceCommitments key_share group_id signature_id nonce revealed
                  last_signer packet signers deadline) removed, [])
          else
            let deadline := saturating_add block (signing_timeout T) in
            (insert_session message
               (CollectSigningShares key_share group_id signature_id revealed ∅
                  packet signers deadline) removed,
             [CEffect (UseNonce message (nonce_root nonce) (nonce_offset nonce))])
      | Some other => (insert_session message other removed, [])
      | None => (removed, [])
      end
  end.

(** ** Signature shares *)

Definition handle_nonces (T : Transition) (state : State) (message : B256)
    (nonces : Nonces) : State * list Command :=
  match signing state !! message with
  | Some (CollectSigningShares key_share _ signature_id revealed _ packet _ deadline) =>
      match signature_share key_share nonces revealed message with
      | Ok result =>
          let callback :=
            attestation_callback packet
              (ValidatorConfig.consensus (Transition.config T)) in
          (state,
           [CAction (SignShare signature_id (sig_selection result) (sig_share result)
                       (sig_proof result) callback deadline)])
      | Err _ => (state, [])
      end
  | _ => (state, [])
  end.

Definition add_share (event : Coordinator.SignShared.t)
    (selections : gmap B256 SigningSelection) : gmap B256 SigningSelection :=
  let root := Coordinator.SignShared.selectionRoot event in
  let participant := Coordinator.SignShared.participant event in
  let selection := default SigningSelection_default (selections !! root) in
  <[root := {| shares_from := {[ participant ]} ∪ shares_from selection;
               selection_last_signer := Some participant |}]> selections.

Definition handle_sign_shared (T : Transition) (state : State)
    (event : Coordinator.SignShared.t) : State * list Command :=
  match signature_id_to_message state !! Coordinator.SignShared.sid event with
  | None => (state, [])
  | Some message =>
      match signing state !! message with
      | Some (CollectSigningShares key_share group_id signature_id revealed selections
                packet signers deadline) =>
          (insert_session message
             (CollectSigningShares key_share group_id signature_id revealed
                (add_share event selections) packet signers deadline) state, [])
      | _ => (state, [])
      end
  end.

Definition handle_sign_completed (T : Transition) (state : State) (block : N)
    (event : Coordinator.SignCompleted.t) : State * list Command :=
  match signature_id_to_message state !! Coordinator.SignCompleted.sid event with
  | None => (state, [])
  | Some message =>
      let removed := remove_session message state in
      match signing state !! message with
      | Some (CollectSigningShares _ _ signature_id _ _ packet _ _) =>
          let deadline := saturating_add block (signing_timeout T) in
          (insert_session message (WaitingForAttestation signature_id packet deadline)
             removed, [])
      | Some other => (insert_session message other removed, [])
      | None => (removed, [])
      end
  end.

(** The event's signature id is only logged. *)
Definition handle_sign_attested (T : Transition) (state : State)
    (signature_id message : B256) : State * list Command :=
  let session := signing state !! message in
  let state := remove_session message state in
  match session ≫= signing_signature_id with
  | Some signature_id => (unlink_signature signature_id state, [])
  | None => (state, [])
  end.

(** ** Timeouts *)

(** What a timed-out session becomes: the session kept (possibly replaced),
    the signature id unlinked, and the actions queued. *)
Record TimeoutOutcome := {
  kept : option SigningState;
  unlinked : option B256;
  queued : list Command;
}.

(** The closure [restart_signing_ceremony]. *)
Definition restart_signing_ceremony (T : Transition) (next_deadline : N)
    (key_share : KeyShare) (group_id signature_id : B256) (signers : gset Address)
    (message : B256) (packet : Packet) (last_signer : option Address)
    : TimeoutOutcome :=
  if decide (set_len signers < key_share_group_threshold key_share ∨
             Transition.account T ∉ signers)
  then {| kept := None; unlinked := Some signature_id; queued := [] |}
  else
    {| kept := Some (WaitingForRequest key_share group_id last_signer packet signers
                       next_deadline);
       unlinked := Some signature_id;
       queued :=
         if decide (last_signer = Some (Transition.account T))
         then [CAction (Sign group_id message next_deadline)] else [] |}.

(** [max_by_key] keeps the last of the greatest elements. *)
Fixpoint max_by_key {A} (f : A → N) (l : list A) : option A :=
  match l with
  | [] => None
  | x :: l =>
      match max_by_key f l with
      | Some y => if decide (f x ≤ f y) then Some y else Some x
      | None => Some x
      end
  end.

(** The selection to restart with. *)
Definition canonical_selection (threshold : N)
    (selections : gmap B256 SigningSelection) : SigningSelection :=
  default SigningSelection_default
    (max_by_key (λ s, set_len (shares_from s))
       (filter (λ s, threshold ≤ set_len (shares_from s)) (btree_values selections))).

(** The signers that revealed a nonce. *)
Definition revealed_signers (revealed : gmap Address RevealedNonces)
    (signers : gset Address) : gset Address :=
  filter (λ signer, is_Some (revealed !! signer)) signers.

(** The closure passed to [signing.retain]. *)
Definition session_timeout (T : Transition) (block next_deadline : N)
    (message : B256) (s : SigningState) : TimeoutOutcome :=
  if decide (signing_deadline s ≤ block) then
    match s with
    | WaitingForRequest key_share group_id responsible packet signers _ =>
        match responsible with
        | None => {| kept := None; unlinked := None; queued := [] |}
        | Some previously_responsible =>
            let signers := signers ∖ {[ previously_responsible ]} in
            if decide (set_len signers < key_share_group_threshold key_share ∨
                       Transition.account T ∉ signers)
            then {| kept := None; unlinked := None; queued := [] |}
            else
              {| kept := Some (WaitingForRequest key_share group_id None packet signers
                                 next_deadline);
                 unlinked := None;
                 queued := [CAction (Sign group_id message next_deadline)] |}
        end
    | WaitingForOracle _ _ _ signature_id _ _ _ _ =>
        {| kept := None; unlinked := Some signature_id; queued := [] |}
    | CollectNonceCommitments key_share group_id signature_id _ revealed last_signer
        packet signers _ =>
        restart_signing_ceremony T next_deadline key_share group_id signature_id
          (revealed_signers revealed signers) message packet last_signer
    | CollectSigningShares key_share group_id signature_id _ selections packet _ _ =>
        let selection :=
          canonical_selection (key_share_group_threshold key_share) selections in
        restart_signing_ceremony T next_deadline key_share group_id signature_id
          (shares_from selection) message packet (selection_last_signer selection)
    | WaitingForAttestation signature_id packet _ =>
        {| kept := None; unlinked := Some signature_id;
           queued := [CAction (attestation_action packet signature_id next_deadline)] |}
    end
  else {| kept := Some s; unlinked := None; queued := [] |}.

(** [handle_signing_timeouts]: [retain] visits the sessions in ascending
    message order, each independently of the others. *)
Definition handle_signing_timeouts (T : Transition) (state : State) (block : N)
    : State * list Command :=
  let next_deadline := saturating_add block (signing_timeout T) in
  let timeout := session_timeout T block next_deadline in
  let outcomes := (λ '(message, s), timeout message s) <$> btree_iter (signing state) in
  let signing' := map_imap (λ message s, kept (timeout message s)) (signing state) in
  let index' :=
    foldl (λ ix o, match unlinked o with Some sid => delete sid ix | None => ix end)
      (signature_id_to_message state) outcomes in
  (set_index index' (set_signing signing' state), outcomes ≫= queued).

(** ** Transactions *)

Definition handle_transaction_proposed (T : Transition) (state : State) (block : N)
    (event : Consensus.TransactionProposed.t) : State * list Command :=
  let epoch := EpochId.from_raw (Consensus.TransactionProposed.epoch event) in
  let oracle := Consensus.TransactionProposed.oracle event in
  match epochs state !! epoch with
  | None => (state, [])
  | Some participating_epoch =>
      if decide (oracle ∉ ValidatorConfig.oracles (Transition.config T)) then (state, [])
      else
        let message :=
          transaction_packet_hash (Transition.consensus T) epoch oracle
            (Consensus.TransactionProposed.oracleData event)
            (Consensus.TransactionProposed.transaction event) in
        match signing state !! message with
        | Some _ => (state, [])
        | None =>
            let packet :=
              Transaction epoch oracle (Consensus.TransactionProposed.oracleData event)
                (Consensus.TransactionProposed.transaction event) in
            let signers := Group.participants (epoch_group participating_epoch) in
            let deadline := saturating_add block (signing_timeout T) in
            let group_id := Group.id (epoch_group participating_epoch) in
            (insert_session message
               (WaitingForRequest (epoch_key_share participating_epoch) group_id None
                  packet signers deadline) state, [])
        end
  end.

Definition handle_transaction_attested (T : Transition) (state : State)
    (event : Consensus.TransactionAttested.t) : State * list Command :=
  let epoch := EpochId.from_raw (Consensus.TransactionAttested.epoch event) in
  let message :=
    transaction_proposal_hash (Transition.consensus T) epoch
      (Consensus.TransactionAttested.oracle event)
      (Consensus.TransactionAttested.oracleDataHash event)
      (Consensus.TransactionAttested.safeTxHash event) in
  handle_sign_attested T state (Consensus.TransactionAttested.signatureId event) message.
End signing.

(** ** Properties *)

Section signing_properties.
Context {AL : Alloy} {FL : FrostLib}.

(** No nonce of this validator is linked to a sequence of a group: the group is
    of no tracked epoch, or its epoch has no chunk linked for the sequence. *)
Definition no_linked_nonce (gid : B256) (sequence : N) (s : State) : Prop :=
  ∀ e ep, find_epoch gid (epochs s) = Some (e, ep) →
    mjoin (chunks (epoch_nonces ep) !! (decode_sequence sequence).1) = None.

Lemma observe_sequence_nonce gid sequence s :
  (observe_sequence gid sequence s).1 = None ↔ no_linked_nonce gid sequence s.
Proof.
  unfold observe_sequence, no_linked_nonce, observe.
  destruct (find_epoch gid (epochs s)) as [[e ep]|]; [|naive_solver].
  destruct (decode_sequence sequence) as [chunk offset].
  destruct (decode_sequence (saturating_add sequence 1)). cbn [fst].
  rewrite fmap_None. split; [by intros Hn e' ep' [= <- <-]|]. intros Hn. by eapply Hn.
Qed.

Lemma observe_sequence_signing gid sequence s :
  signing (observe_sequence gid sequence s).2 = signing s.
Proof.
  unfold observe_sequence. destruct (find_epoch _ _) as [[e ep]|]; [|done].
  by destruct (observe _ _).
Qed.

(** A message without a session stays without one. *)
Lemma handle_sign_untracked T s block ev :
  signing s !! Coordinator.Sign.message ev = None →
  (handle_sign T s block ev).2 = [] ∧
  signing (handle_sign T s block ev).1 !! Coordinator.Sign.message ev = None.
Proof.
  intros Hn. unfold handle_sign.
  pose proof (observe_sequence_signing (Coordinator.Sign.gid ev) (Coordinator.Sign.sequence ev) s)
    as Hs. destruct (observe_sequence _ _ s) as [nonce s1]. simpl in Hs. cbv zeta.
  rewrite Hs, Hn. destruct nonce; (split; [done|]); apply lookup_delete_eq.
Qed.

(** [C40] A session that waits for the request of its group is at the mercy of
    the requests of others. A Sign event for its message in another group leaves
    it as it is when a nonce of this validator is linked to that event's group and
    sequence; but when none is, because the group is of no tracked epoch or the
    epoch has no nonces for the sequence, the session is dropped, and the requests
    for the message that follow, its own group's included, are not answered while
    no new session is opened for it. *)
Theorem foreign_sign_request_drops_session T s block ev k g resp p signers d :
  signing s !! Coordinator.Sign.message ev =
    Some (WaitingForRequest k g resp p signers d) →
  g ≠ Coordinator.Sign.gid ev →
  let '(s1, commands) := handle_sign T s block ev in
  commands = [] ∧
  (¬ no_linked_nonce (Coordinator.Sign.gid ev) (Coordinator.Sign.sequence ev) s →
   signing s1 !! Coordinator.Sign.message ev = signing s !! Coordinator.Sign.message ev) ∧
  (no_linked_nonce (Coordinator.Sign.gid ev) (Coordinator.Sign.sequence ev) s →
   signing s1 !! Coordinator.Sign.message ev = None ∧
   ∀ block' ev', Coordinator.Sign.message ev' = Coordinator.Sign.message ev →
     (handle_sign T s1 block' ev').2 = [] ∧
     signing (handle_sign T s1 block' ev').1 !! Coordinator.Sign.message ev = None).
Proof.
  intros Hm Hg. unfold handle_sign at 1.
  pose proof (observe_sequence_nonce (Coordinator.Sign.gid ev) (Coordinator.Sign.sequence ev) s)
    as Hnonce.
  pose proof (observe_sequence_signing (Coordinator.Sign.gid ev) (Coordinator.Sign.sequence ev) s)
    as Hs. destruct (observe_sequence _ _ s) as [[nonce|] s1]; cbn [fst snd] in *; cbv zeta;
    rewrite Hs, Hm.
  - rewrite decide_False by done. split_and!; [done| |by intros Hn%Hnonce].
    intros _. apply lookup_insert_eq.
  - split_and!; [done|by intros []; apply Hnonce|]. intros _.
    assert (signing (remove_session (Coordinator.Sign.message ev) s1) !!
      Coordinator.Sign.message ev = None) as Hn by apply lookup_delete_eq.
    split; [done|]. intros block' ev' Heq. rewrite <-Heq in *. by apply handle_sign_untracked.
Qed.
End signing_properties.
