(* ===== verification/KeyGen.v ===== *)
(** * Key generation and epoch rollover: [state/keygen.rs]

    The handlers of the distributed key generation rounds, the complaint flow,
    round timeouts, and the rollover of epochs on the block clock. *)

From S2P Require Import Prelude.
From S2P Require Import Bytes.
From S2P Require Import Epoch.
From S2P Require Import Bindings.
From S2P Require Import Alloy.
From S2P Require Import Merkle.
From S2P Require Import Group.
From S2P Require Import Hashing.
From S2P Require Import FrostLib.
From S2P Require Import Frost.
From S2P Require Import FrostKeygen.
From S2P Require Import FrostSign.
From S2P Require Import Core.
From S2P Require Import State.
From S2P Require Import Preprocessing.
From S2P Require Import Signing.

(** [map.len() as u16]. *)
Definition len_u16 {V} (m : gmap Address V) : N := as_u16 (btree_len m).

(** [u16] increment and decrement as release builds perform them. *)
Definition u16_succ (x : N) : N := as_u16 (x + 1).
Definition u16_pred (x : N) : N := as_u16 (x + u16_modulus - 1).

Section keygen.
Context {AL : Alloy} {FL : FrostLib}.

(** ** Starting and failing *)

(** [rollover_failure]. *)
Definition rollover_failure (next_epoch : EpochId) : RolloverState :=
  match next_epoch with
  | Number next_epoch => EpochSkipped next_epoch
  | Genesis => Halted
  end.

(** The macro [fail_rollover!]. *)
Definition fail_rollover (state : State) (next_epoch : EpochId)
    : State * list Command :=
  (set_rollover (rollover_failure next_epoch) state, []).

Definition start_key_gen (T : Transition) (state : State) (next_epoch : EpochId)
    (participants : ParticipantSet) (deadline : option N) : State * list Command :=
  match participate_as participants (Transition.account T) with
  | Some (group, poap) =>
      (set_rollover
         (CollectingCommitments next_epoch group (CommitParticipating poap None) ∅
            deadline) state,
       [CEffect (KeyGenSetup (Group.id group) (Group.count group)
                   (Group.threshold group))])
  | None =>
      let group := group_of participants in
      (set_rollover
         (CollectingCommitments next_epoch group CommitObserving ∅ deadline) state, [])
  end.

(** The participant set of a regular epoch of the configuration. *)
Definition epoch_participants (T : Transition) (number : positive)
    (excluded : gset Address) : option ParticipantSet :=
  participants_set (ValidatorConfig.participants (Transition.config T))
    (EpochNumber (ValidatorConfig.consensus (Transition.config T)) number excluded).

Definition restart_key_gen_excluding (T : Transition) (state : State)
    (next_epoch : EpochId) (excluded : gset Address) (deadline : option N)
    : State * list Command :=
  let participants :=
    match next_epoch with
    | Number number => epoch_participants T number excluded
    | Genesis => None
    end in
  match participants with
  | Some participants => start_key_gen T state next_epoch participants deadline
  | None => (set_rollover (rollover_failure next_epoch) state, [])
  end.

Definition handle_genesis_key_gen (T : Transition) (state : State)
    (event : Coordinator.KeyGen.t) : State * list Command :=
  let genesis := group_of (Transition.genesis T) in
  match rollover state with
  | WaitingForGenesis =>
      if decide (Coordinator.KeyGen.gid event = Group.id genesis)
      then start_key_gen T state Genesis (Transition.genesis T) None
      else (state, [])
  | _ => (state, [])
  end.

(** ** The commitment round *)

Definition finalize_key_gen_commitments (T : Transition) (next_epoch : EpochId)
    (group : Group.t) (secrets : option Secrets)
    (commitments : gmap Address VerifiedCommitment) (deadline : option N)
    : RolloverState * list Command :=
  let result :=
    match secrets with
    | Some secrets =>
        rmap (λ '(sharing_state, share),
                (Participating sharing_state,
                 [CAction (KeyGenSecretShare (Group.id group) share deadline)]))
          (generate_secret_shares secrets commitments)
    | None =>
        rmap (λ group_commitments, (Observing group_commitments, []))
          (group_commitments commitments)
    end in
  match result with
  | Ok (participation, commands) =>
      (CollectingShares next_epoch group participation ∅ ∅ ∅ deadline, commands)
  | Err _ => (rollover_failure next_epoch, [])
  end.

Definition handle_key_gen_setup (T : Transition) (state : State) (group_id : B256)
    (secrets : Secrets) : State * list Command :=
  match rollover state with
  | CollectingCommitments next_epoch group (CommitParticipating poap None)
      commitments deadline =>
      if decide (group_id = Group.id group) then
        let commands :=
          match commitments !! Transition.account T with
          | Some _ => []
          | None =>
              let '(participants, count, threshold, context) :=
                Group.parameters group in
              [CAction (KeyGenAndCommit participants count threshold context poap
                          (secrets_commitment secrets) deadline)]
          end in
        if decide (len_u16 commitments ≠ Group.count group) then
          (set_rollover
             (CollectingCommitments next_epoch group
                (CommitParticipating poap (Some secrets)) commitments deadline) state,
           commands)
        else
          let deadline := (λ d, saturating_add d (key_gen_timeout T)) <$> deadline in
          let '(rollover, finalize_commands) :=
            finalize_key_gen_commitments T next_epoch group (Some secrets) commitments
              deadline in
          (set_rollover rollover state, commands ++ finalize_commands)
      else (state, [])
  | _ => (state, [])
  end.

Definition handle_key_gen_committed (T : Transition) (state : State) (block : N)
    (event : Coordinator.KeyGenCommitted.t) : State * list Command :=
  let participant := Coordinator.KeyGenCommitted.participant event in
  match rollover state with
  | CollectingCommitments next_epoch group secrets commitments deadline =>
      if decide (Group.id group = Coordinator.KeyGenCommitted.gid event) then
        let commitments :=
          match verify_commitment participant
                  (Coordinator.KeyGenCommitted.commitment event) with
          | Ok commitment => <[participant := commitment]> commitments
          | Err _ => commitments
          end in
        let collecting :=
          CollectingCommitments next_epoch group secrets commitments deadline in
        if decide (len_u16 commitments ≠ Group.count group)
        then (set_rollover collecting state, [])
        else
          let finish secrets :=
            let deadline := (λ _, saturating_add block (key_gen_timeout T)) <$> deadline in
            let '(rollover, commands) :=
              finalize_key_gen_commitments T next_epoch group secrets commitments
                deadline in
            (set_rollover rollover state, commands) in
          match secrets with
          | CommitObserving => finish None
          | CommitParticipating _ (Some secrets) => finish (Some secrets)
          | CommitParticipating _ None => (set_rollover collecting state, [])
          end
      else (state, [])
  | _ => (state, [])
  end.

(** ** The share round *)

Definition key_gen_confirmation_callback (T : Transition) (next_epoch : EpochId)
    : option Callback :=
  match next_epoch with
  | Genesis => None
  | Number number =>
      Some (Callback.mk (ValidatorConfig.consensus (Transition.config T))
              (u64_pair_abi_encode
                 (nonzero_get number,
                  saturating_mul (nonzero_get number)
                    (nonzero_get (blocks_per_epoch T)))))
  end.

Definition confirm_key_gen (T : Transition) (epoch : EpochId) (group : Group.t)
    (sharing_state : SharingState) (shares : gmap Address VerifiedShare)
    (deadlines : option ConfirmationDeadlines)
    : result (KeyGenConfirmation * list Command) FrostErr :=
  rmap (λ key_share,
          (Confirmed key_share,
           [CAction (KeyGenConfirm (Group.id group)
                       (key_gen_confirmation_callback T epoch) (confirm <$> deadlines));
            CEffect (StartNonceGeneration (Group.id group) key_share)]))
    (finalize sharing_state shares).

(** What one published share adds: the public key share, and this validator's
    own decrypted share or its complaint. *)
Definition accept_share (T : Transition) (block : N) (group : Group.t)
    (participation : KeyGenParticipation)
    (public_keys : gmap Address PublicKeyShare) (shares : gmap Address VerifiedShare)
    (deadline : option N) (event : Coordinator.KeyGenSecretShared.t)
    : gmap Address PublicKeyShare * gmap Address VerifiedShare * list Command :=
  let participant := Coordinator.KeyGenSecretShared.participant event in
  match verify_secret_share (participation_group_commitments participation) participant
          (Coordinator.KeyGenSecretShared.share event) with
  | Err _ => (public_keys, shares, [])
  | Ok (public_key, encrypted_shares) =>
      let public_keys := <[participant := public_key]> public_keys in
      match participation with
      | Observing _ => (public_keys, shares, [])
      | Participating sharing_state =>
          match verify_encrypted_secret_share sharing_state participant
                  encrypted_shares with
          | Ok share => (public_keys, <[participant := share]> shares, [])
          | Err _ =>
              let expires_at :=
                (λ _, saturating_add block (key_gen_timeout T)) <$> deadline in
              (public_keys, shares,
               [CAction (KeyGenComplain (Group.id group) participant expires_at)])
          end
      end
  end.

Definition confirmation_deadlines (T : Transition) (block : N)
    : ConfirmationDeadlines := {|
  complain := saturating_add block (key_gen_timeout T);
  response := saturating_add block (saturating_mul (key_gen_timeout T) 2);
  confirm := saturating_add block (saturating_mul (key_gen_timeout T) 3);
|}.

Definition handle_key_gen_secret_shared (T : Transition) (state : State) (block : N)
    (event : Coordinator.KeyGenSecretShared.t) : State * list Command :=
  match rollover state with
  | CollectingShares next_epoch group participation public_keys shares complaints
      deadline =>
      if decide (Group.id group = Coordinator.KeyGenSecretShared.gid event) then
        let count := Group.count group in
        let '(public_keys, shares, commands) :=
          accept_share T block group participation public_keys shares deadline event in
        if decide (len_u16 public_keys ≠ count) then
          (set_rollover
             (CollectingShares next_epoch group participation public_keys shares
                complaints deadline) state, commands)
        else
          let deadlines := (λ _, confirmation_deadlines T block) <$> deadline in
          let confirming status :=
            CollectingConfirmations next_epoch group participation status ∅ complaints
              deadlines in
          match participation with
          | Participating sharing_state =>
              if decide (len_u16 shares = count) then
                match confirm_key_gen T next_epoch group sharing_state shares
                        deadlines with
                | Ok (status, confirm_commands) =>
                    (set_rollover (confirming status) state,
                     commands ++ confirm_commands)
                | Err _ => fail_rollover state next_epoch
                end
              else (set_rollover (confirming (Collecting shares)) state, commands)
          | Observing _ => (set_rollover (confirming ConfirmObserving) state, commands)
          end
      else (state, [])
  | _ => (state, [])
  end.

(** ** The confirmation round *)

(** [finalize_key_gen]: retains the epoch of a participant and requests its
    first nonce tree. *)
Definition finalize_key_gen (T : Transition) (state : State) (epoch : EpochId)
    (group : Group.t) (key_share : option KeyShare) : State * list Command :=
  match key_share with
  | Some key_share =>
      let nonces := (reserve_chunk NonceState_default).2 in
      (set_epochs
         (<[epoch := {| epoch_group := group; epoch_key_share := key_share;
                        epoch_nonces := nonces |}]> (epochs state)) state,
       [CEffect (NonceTree (Group.id group))])
  | None => (state, [])
  end.

(** The genesis branch: retain the epoch and start the next key generation. *)
Definition confirm_genesis (T : Transition) (state : State) (block : N)
    (group : Group.t) (status : KeyGenConfirmation) : State * list Command :=
  let next_epoch := next_number block (blocks_per_epoch T) in
  let '(state, finalize_commands) :=
    finalize_key_gen T (set_rollover (EpochSkipped next_epoch) state) Genesis group
      (confirmation_key_share status) in
  match epoch_participants T next_epoch ∅ with
  | None => (state, finalize_commands)
  | Some participants =>
      let deadline := Some (saturating_add block (key_gen_timeout T)) in
      let '(state, keygen_commands) :=
        start_key_gen T state (Number next_epoch) participants deadline in
      (state, finalize_commands ++ keygen_commands)
  end.

(** The regular branch: move to the signing of the rollover packet, opening a
    session for it if this validator is part of the active epoch. *)
Definition confirm_epoch (T : Transition) (state : State) (block : N)
    (participant : Address) (proposed_epoch : positive) (group : Group.t)
    (participation : KeyGenParticipation) (status : KeyGenConfirmation)
    : State * list Command :=
  let group_id := Group.id group in
  let key_share := confirmation_key_share status in
  let active := active_epoch state in
  let key := group_key (participation_group_commitments participation) in
  let rollover_block :=
    saturating_mul (nonzero_get proposed_epoch) (nonzero_get (blocks_per_epoch T)) in
  let message :=
    epoch_rollover_hash (Transition.consensus T) active proposed_epoch rollover_block
      key in
  let state :=
    match epochs state !! active with
    | Some participating_epoch =>
        insert_session message
          (WaitingForRequest (epoch_key_share participating_epoch)
             (Group.id (epoch_group participating_epoch)) (Some participant)
             (EpochRollover active proposed_epoch rollover_block group_id key)
             (Group.participants (epoch_group participating_epoch))
             (saturating_add block (signing_timeout T))) state
    | None => state
    end in
  (set_rollover (SigningRollover proposed_epoch group key_share message) state, []).

Definition handle_key_gen_confirmed (T : Transition) (state : State) (block : N)
    (event : Coordinator.KeyGenConfirmed.t) : State * list Command :=
  let participant := Coordinator.KeyGenConfirmed.participant event in
  match rollover state with
  | CollectingConfirmations next_epoch group participation status confirmations
      complaints deadlines =>
      if decide (Group.id group = Coordinator.KeyGenConfirmed.gid event) then
        let confirmations := {[ participant ]} ∪ confirmations in
        if decide (as_u16 (set_len confirmations) ≠ Group.count group) then
          (set_rollover
             (CollectingConfirmations next_epoch group participation status
                confirmations complaints deadlines) state, [])
        else
          match next_epoch with
          | Genesis => confirm_genesis T state block group status
          | Number proposed_epoch =>
              confirm_epoch T state block participant proposed_epoch group
                participation status
          end
      else (state, [])
  | _ => (state, [])
  end.

Definition handle_epoch_staged (T : Transition) (state : State)
    (event : Consensus.EpochStaged.t) : State * list Command :=
  match rollover state with
  | SigningRollover next_epoch group key_share message =>
      if decide (Group.id group = Consensus.EpochStaged.groupId event) then
        let '(state, keygen_commands) :=
          finalize_key_gen T (set_rollover (EpochStaged next_epoch) state)
            (Number next_epoch) group key_share in
        let '(state, attested_commands) :=
          handle_sign_attested T state (Consensus.EpochStaged.signatureId event)
            message in
        (state, keygen_commands ++ attested_commands)
      else (state, [])
  | WaitingForGenesis =>
      (set_rollover
         (match nonzero_new (Consensus.EpochStaged.proposedEpoch event) with
          | Some next_epoch => EpochSkipped next_epoch
          | None => Halted
          end) state, [])
  | _ => (state, [])
  end.
End keygen.
