(* ===== verification/Complaints.v ===== *)
(** * Complaints, timeouts and the block clock: [state/keygen.rs]

    The complaint flow of a key generation, the round timeouts and the epoch
    rollover driven by new blocks. *)

From S2P Require Import Prelude.
From S2P Require Import Bytes.
From S2P Require Import Epoch.
From S2P Require Import Bindings.
From S2P Require Import Alloy.
From S2P Require Import Group.
From S2P Require Import FrostLib.
From S2P Require Import Frost.
From S2P Require Import FrostKeygen.
From S2P Require Import FrostSign.
From S2P Require Import Core.
From S2P Require Import State.
From S2P Require Import KeyGen.

Section complaints.
Context {AL : Alloy} {FL : FrostLib}.

(** ** Complaints *)

(** The round a complaint event applies to, with the deadlines of the restart
    and of the response, and the round with updated complaints (the code
    holds a mutable reference to the round's complaints). *)
Record ComplaintRound := {
  cr_next_epoch : EpochId;
  cr_group : Group.t;
  cr_participation : KeyGenParticipation;
  cr_complaints : gmap Address Complaint;
  cr_restart_deadline : option N;
  cr_response_expires_at : option N;
  cr_update : gmap Address Complaint → RolloverState;
}.

(** [deadlines.as_ref().is_none_or(|d| block <= f(d))]. *)
Definition within (block : N) (f : ConfirmationDeadlines → N)
    (deadlines : option ConfirmationDeadlines) : Prop :=
  match deadlines with
  | None => True
  | Some d => block ≤ f d
  end.
#[export] Instance within_dec block f deadlines : Decision (within block f deadlines).
Proof. destruct deadlines; simpl; apply _. Defined.

Definition complaint_round (T : Transition) (block : N) (gid : B256)
    (r : RolloverState) : option ComplaintRound :=
  match r with
  | CollectingShares next_epoch group participation public_keys shares complaints
      deadline =>
      if decide (Group.id group = gid) then
        let restart_deadline :=
          (λ _, saturating_add block (key_gen_timeout T)) <$> deadline in
        Some {| cr_next_epoch := next_epoch; cr_group := group;
                cr_participation := participation; cr_complaints := complaints;
                cr_restart_deadline := restart_deadline;
                cr_response_expires_at := restart_deadline;
                cr_update := λ complaints,
                  CollectingShares next_epoch group participation public_keys shares
                    complaints deadline |}
      else None
  | CollectingConfirmations next_epoch group participation status confirmations
      complaints deadlines =>
      if decide (Group.id group = gid ∧ within block complain deadlines) then
        let restart_deadline :=
          (λ _, saturating_add block (key_gen_timeout T)) <$> deadlines in
        Some {| cr_next_epoch := next_epoch; cr_group := group;
                cr_participation := participation; cr_complaints := complaints;
                cr_restart_deadline := restart_deadline;
                cr_response_expires_at := response <$> deadlines;
                cr_update := λ complaints,
                  CollectingConfirmations next_epoch group participation status
                    confirmations complaints deadlines |}
      else None
  | _ => None
  end.

(** [complaints.entry(accused).or_default()] with both counters incremented. *)
Definition register_complaint (accused : Address)
    (complaints : gmap Address Complaint) : Complaint * gmap Address Complaint :=
  let complaint := default Complaint_default (complaints !! accused) in
  let complaint := {| total := u16_succ (total complaint);
                      unresponded := u16_succ (unresponded complaint) |} in
  (complaint, <[accused := complaint]> complaints).

Definition handle_key_gen_complained (T : Transition) (state : State) (block : N)
    (event : Coordinator.KeyGenComplained.t) : State * list Command :=
  let accused := Coordinator.KeyGenComplained.accused event in
  let plaintiff := Coordinator.KeyGenComplained.plaintiff event in
  match complaint_round T block (Coordinator.KeyGenComplained.gid event)
          (rollover state) with
  | None => (state, [])
  | Some round =>
      let '(complaint, complaints) :=
        register_complaint accused (cr_complaints round) in
      let state := set_rollover (cr_update round complaints) state in
      if decide (Group.threshold (cr_group round) ≤ total complaint) then
        restart_key_gen_excluding T state (cr_next_epoch round)
          (Group.also_exclude (cr_group round) {[ accused ]})
          (cr_restart_deadline round)
      else
        match cr_participation round with
        | Participating sharing_state =>
            if decide (accused = Transition.account T) then
              match reveal_secret_share sharing_state plaintiff with
              | Ok secret_share =>
                  (state,
                   [CAction (KeyGenComplaintResponse (Group.id (cr_group round))
                               plaintiff secret_share (cr_response_expires_at round))])
              | Err _ => (state, [])
              end
            else (state, [])
        | Observing _ => (state, [])
        end
  end.

(** The round a complaint response applies to: the shares still being
    collected (if any) and the round with updated shares and complaints. *)
Record ResponseRound := {
  rr_next_epoch : EpochId;
  rr_group : Group.t;
  rr_participation : KeyGenParticipation;
  rr_shares : option (gmap Address VerifiedShare);
  rr_complaints : gmap Address Complaint;
  rr_deadline : option N;
  rr_update : option (gmap Address VerifiedShare) → gmap Address Complaint →
              RolloverState;
}.

Definition response_round (block : N) (gid : B256) (r : RolloverState)
    : option ResponseRound :=
  match r with
  | CollectingShares next_epoch group participation public_keys shares complaints
      deadline =>
      if decide (Group.id group = gid) then
        Some {| rr_next_epoch := next_epoch; rr_group := group;
                rr_participation := participation; rr_shares := Some shares;
                rr_complaints := complaints; rr_deadline := deadline;
                rr_update := λ shares' complaints,
                  CollectingShares next_epoch group participation public_keys
                    (default shares shares') complaints deadline |}
      else None
  | CollectingConfirmations next_epoch group participation status confirmations
      complaints deadlines =>
      if decide (Group.id group = gid ∧ within block response deadlines) then
        Some {| rr_next_epoch := next_epoch; rr_group := group;
                rr_participation := participation;
                rr_shares :=
                  match status with Collecting shares => Some shares | _ => None end;
                rr_complaints := complaints;
                rr_deadline := response <$> deadlines;
                rr_update := λ shares' complaints,
                  CollectingConfirmations next_epoch group participation
                    (match status, shares' with
                     | Collecting _, Some shares' => Collecting shares'
                     | _, _ => status
                     end)
                    confirmations complaints deadlines |}
      else None
  | _ => None
  end.

(** The end of [handle_key_gen_complaint_responded]: confirms the key
    generation if the last missing share was just registered. *)
Definition finish_collecting (T : Transition) (state : State) (next_epoch : EpochId)
    : State * list Command :=
  match rollover state with
  | CollectingConfirmations ne group (Participating sharing_state)
      (Collecting shares) confirmations complaints deadlines =>
      if decide (len_u16 shares = Group.count group) then
        match confirm_key_gen T next_epoch group sharing_state shares deadlines with
        | Ok (new_status, confirm_commands) =>
            (set_rollover
               (CollectingConfirmations ne group (Participating sharing_state)
                  new_status confirmations complaints deadlines) state,
             confirm_commands)
        | Err _ => fail_rollover state next_epoch
        end
      else (state, [])
  | _ => (state, [])
  end.

Definition handle_key_gen_complaint_responded (T : Transition) (state : State)
    (block : N) (event : Coordinator.KeyGenComplaintResponded.t)
    : State * list Command :=
  let accused := Coordinator.KeyGenComplaintResponded.accused event in
  let plaintiff := Coordinator.KeyGenComplaintResponded.plaintiff event in
  match response_round block (Coordinator.KeyGenComplaintResponded.gid event)
          (rollover state) with
  | None => (state, [])
  | Some round =>
      match rr_complaints round !! accused with
      | None => (state, [])
      | Some complaint =>
          if decide (unresponded complaint = 0) then (state, []) else
          match verify_revealed_secret_share
                  (participation_group_commitments (rr_participation round))
                  plaintiff accused
                  (Coordinator.KeyGenComplaintResponded.secretShare event) with
          | Ok share =>
              let shares :=
                (λ shares, if decide (plaintiff = Transition.account T)
                           then <[accused := share]> shares else shares)
                  <$> rr_shares round in
              let complaints :=
                <[accused := {| total := total complaint;
                                unresponded := u16_pred (unresponded complaint) |}]>
                  (rr_complaints round) in
              finish_collecting T
                (set_rollover (rr_update round shares complaints) state)
                (rr_next_epoch round)
          | Err _ =>
              restart_key_gen_excluding T state (rr_next_epoch round)
                (Group.also_exclude (rr_group round) {[ accused ]})
                ((λ _, saturating_add block (key_gen_timeout T)) <$> rr_deadline round)
          end
      end
  end.

(** ** The block clock *)

Definition handle_rollover_new_block (T : Transition) (state : State) (block : N)
    : State * list Command :=
  match next_epoch (rollover state) ≫= EpochId.number with
  | None => (state, [])
  | Some target_epoch_number =>
      let next_epoch_number := next_number block (blocks_per_epoch T) in
      if decide (nonzero_get next_epoch_number ≤ nonzero_get target_epoch_number)
      then (state, [])
      else
        let state :=
          match rollover state with
          | EpochStaged _ => set_active_epoch (Number target_epoch_number) state
          | _ => state
          end in
        let deadline := Some (saturating_add block (key_gen_timeout T)) in
        match epoch_participants T next_epoch_number ∅ with
        | Some participants =>
            start_key_gen T state (Number next_epoch_number) participants deadline
        | None => (set_rollover (EpochSkipped next_epoch_number) state, [])
        end
  end.

(** A complete commitment round whose own setup never resumed. *)
Definition stuck_setup (block : N) (r : RolloverState) : option EpochId :=
  match r with
  | CollectingCommitments next_epoch group (CommitParticipating _ None) commitments
      (Some deadline) =>
      if decide (deadline ≤ block ∧ len_u16 commitments = Group.count group)
      then Some next_epoch else None
  | _ => None
  end.

(** The participants accused of an unanswered complaint. *)
Definition unresponded_accused (complaints : gmap Address Complaint) : gset Address :=
  dom (filter (λ p, 0 < unresponded p.2) complaints).

(** The epoch and exclusions of a round that ran past its deadline. *)
Definition timed_out (block : N) (r : RolloverState)
    : option (EpochId * gset Address) :=
  match r with
  | CollectingCommitments next_epoch group _ commitments (Some deadline) =>
      if decide (deadline ≤ block)
      then Some (next_epoch, Group.exclude_all_others group (btree_keys commitments))
      else None
  | CollectingShares next_epoch group _ public_keys _ _ (Some deadline) =>
      if decide (deadline ≤ block)
      then Some (next_epoch, Group.exclude_all_others group (btree_keys public_keys))
      else None
  | CollectingConfirmations next_epoch group _ _ confirmations complaints
      (Some deadlines) =>
      let unresponded := unresponded_accused complaints in
      if decide (response deadlines ≤ block ∧ unresponded ≠ ∅)
      then Some (next_epoch, Group.also_exclude group unresponded)
      else if decide (confirm deadlines ≤ block)
      then Some (next_epoch,
                 Group.exclude_all_others group (btree_elements confirmations))
      else None
  | _ => None
  end.

Definition handle_key_gen_timeouts (T : Transition) (state : State) (block : N)
    : State * list Command :=
  match stuck_setup block (rollover state) with
  | Some next_epoch => fail_rollover state next_epoch
  | None =>
      match timed_out block (rollover state) with
      | None => (state, [])
      | Some (next_epoch, excluded) =>
          let deadline := Some (saturating_add block (key_gen_timeout T)) in
          restart_key_gen_excluding T state next_epoch excluded deadline
      end
  end.
End complaints.
