(* ===== verification/Machine.v ===== *)
(** * The validator state machine: [state/mod.rs]

    The transition function over messages, runs and reachable states. *)

From S2P Require Import Prelude.
From S2P Require Import Bytes.
From S2P Require Import Epoch.
From S2P Require Import Bindings.
From S2P Require Import Alloy.
From S2P Require Import Group.
From S2P Require Import FrostLib.
From S2P Require Import Frost.
From S2P Require Import FrostKeygen.
From S2P Require Import FrostSign.
From S2P Require Import Core.
From S2P Require Import State.
From S2P Require Import Preprocessing.
From S2P Require Import Signing.
From S2P Require Import KeyGen.
From S2P Require Import Complaints.

Section machine.
Context {AL : Alloy} {FL : FrostLib}.

(** The dispatch of an event. *)
Definition apply_event (T : Transition) (state : State) (log : EventLog)
    : State * list Command :=
  let block := log_block log in
  match log_data log with
  | EvCoordinator (Coordinator.EvKeyGen event) => handle_genesis_key_gen T state event
  | EvCoordinator (Coordinator.EvKeyGenCommitted event) =>
      handle_key_gen_committed T state block event
  | EvCoordinator (Coordinator.EvKeyGenSecretShared event) =>
      handle_key_gen_secret_shared T state block event
  | EvCoordinator (Coordinator.EvKeyGenConfirmed event) =>
      handle_key_gen_confirmed T state block event
  | EvCoordinator (Coordinator.EvKeyGenComplained event) =>
      handle_key_gen_complained T state block event
  | EvCoordinator (Coordinator.EvKeyGenComplaintResponded event) =>
      handle_key_gen_complaint_responded T state block event
  | EvCoordinator (Coordinator.EvPreprocess event) => handle_preprocess T state event
  | EvCoordinator (Coordinator.EvSign event) => handle_sign T state block event
  | EvCoordinator (Coordinator.EvSignRevealedNonces event) =>
      handle_sign_revealed_nonces T state block event
  | EvCoordinator (Coordinator.EvSignShared event) => handle_sign_shared T state event
  | EvCoordinator (Coordinator.EvSignCompleted event) =>
      handle_sign_completed T state block event
  | EvConsensus (Consensus.EvEpochStaged event) => handle_epoch_staged T state event
  | EvConsensus (Consensus.EvTransactionProposed event) =>
      handle_transaction_proposed T state block event
  | EvConsensus (Consensus.EvTransactionAttested event) =>
      handle_transaction_attested T state event
  | EvOracle (Oracle.EvOracleResult event) =>
      handle_oracle_result T state block (log_address log) event
  | _ => (state, [])
  end.

(** The housekeeping of a new block. *)
Definition apply_new_block (T : Transition) (state : State) (block : N)
    : State * list Command :=
  let '(state, rollover_commands) := handle_rollover_new_block T state block in
  let '(state, keygen_timeout_commands) := handle_key_gen_timeouts T state block in
  let '(state, signing_timeout_commands) := handle_signing_timeouts T state block in
  let '(state, nonce_topup_commands) := handle_nonce_topup T state in
  let '(state, reconciliation_commands) := handle_group_reconciliation T state in
  (state,
   rollover_commands ++ keygen_timeout_commands ++ signing_timeout_commands ++
     nonce_topup_commands ++ reconciliation_commands).

Definition apply_resume (T : Transition) (state : State) (result : Resume)
    : State * list Command :=
  match result with
  | Noop => (state, [])
  | Setup group_id secrets => handle_key_gen_setup T state group_id secrets
  | ResumeNonceTree group_id commitment =>
      handle_nonce_tree T state group_id commitment
  | NonceCommitments signature_id message nonces proof =>
      handle_nonce_commitments T state signature_id message nonces proof
  | Nonce message nonces => handle_nonces T state message nonces
  end.

Definition apply_transition (T : Transition) (state : State) (message : Message)
    : State * list Command :=
  match message with
  | MEvent log => apply_event T state log
  | NewBlock block => apply_new_block T state block
  | MResume result => apply_resume T state result
  end.

(** The states the housekeeping goes through. *)
Definition after_rounds (T : Transition) (state : State) (block : N) : State :=
  (handle_key_gen_timeouts T (handle_rollover_new_block T state block).1 block).1.
Definition after_sessions (T : Transition) (state : State) (block : N) : State :=
  (handle_signing_timeouts T (after_rounds T state block) block).1.
Definition after_topup (T : Transition) (state : State) (block : N) : State :=
  (handle_nonce_topup T (after_sessions T state block)).1.

Lemma apply_new_block_state T s block :
  (apply_new_block T s block).1 =
    (handle_group_reconciliation T (after_topup T s block)).1.
Proof.
  unfold apply_new_block, after_topup, after_sessions, after_rounds.
  destruct (handle_rollover_new_block T s block) as [s1 c1]; cbn [fst].
  destruct (handle_key_gen_timeouts T s1 block) as [s2 c2]; cbn [fst].
  destruct (handle_signing_timeouts T s2 block) as [s3 c3]; cbn [fst].
  destruct (handle_nonce_topup T s3) as [s4 c4]; cbn [fst].
  by destruct (handle_group_reconciliation T s4) as [s5 c5].
Qed.

(** ** Runs *)

(** The state after a sequence of messages, from the initial state. *)
Definition run (T : Transition) (messages : list Message) : State :=
  foldl (λ s m, (apply_transition T s m).1) State_default messages.

Inductive reachable (T : Transition) : State → Prop :=
  | reachable_init : reachable T State_default
  | reachable_step s m :
      reachable T s → reachable T (apply_transition T s m).1.

Lemma reachable_run T s : reachable T s ↔ ∃ ms, s = run T ms.
Proof.
  split.
  - induction 1 as [|s m _ [ms ->]]; [by exists []|].
    exists (ms ++ [m]). unfold run. by rewrite foldl_app.
  - intros [ms ->]. unfold run. induction ms as [|m ms IH] using rev_ind; [constructor|].
    rewrite foldl_app. by apply reachable_step.
Qed.

Lemma run_reachable T ms : reachable T (run T ms).
Proof. apply reachable_run. by exists ms. Qed.

(** A property of the initial state that every message preserves holds of
    every reachable state. *)
Lemma reachable_ind_inv T (P : State → Prop) :
  P State_default →
  (∀ s m, P s → P (apply_transition T s m).1) →
  ∀ s, reachable T s → P s.
Proof. intros H0 Hs s. induction 1; auto. Qed.
End machine.
