(* ===== verification/Frames.v ===== *)
(** * What each handler leaves alone

    The key generation rounds only move the rollover state; the signing and
    preprocessing handlers never move it. *)

From S2P Require Import Prelude.
From S2P Require Import Bytes.
From S2P Require Import Epoch.
From S2P Require Import Bindings.
From S2P Require Import Alloy.
From S2P Require Import Group.
From S2P Require Import FrostLib.
From S2P Require Import Frost.
From S2P Require Import FrostKeygen.
From S2P Require Import FrostSign.
From S2P Require Import Core.
From S2P Require Import State.
From S2P Require Import Preprocessing.
From S2P Require Import Signing.
From S2P Require Import KeyGen.
From S2P Require Import Complaints.
From S2P Require Import Machine.

Create HintDb frames.

Section frames.
Context {AL : Alloy} {FL : FrostLib}.

(** Only the rollover state differs. *)
Definition rollover_only (s s' : State) : Prop := s' = set_rollover (rollover s') s.

(** The rollover state and the active epoch are the same. *)
Definition rollover_fixed (s s' : State) : Prop :=
  rollover s' = rollover s ∧ active_epoch s' = active_epoch s.

(** The sessions and their index are the same. *)
Definition sessions_fixed (s s' : State) : Prop :=
  signing s' = signing s ∧ signature_id_to_message s' = signature_id_to_message s.

Lemma rollover_only_refl s : rollover_only s s.
Proof. by destruct s. Qed.
Lemma rollover_only_set s r : rollover_only s (set_rollover r s).
Proof. done. Qed.
Lemma rollover_only_sessions s s' : rollover_only s s' → sessions_fixed s s'.
Proof. intros ->. done. Qed.
Lemma rollover_only_epochs s s' : rollover_only s s' → epochs s' = epochs s.
Proof. by intros ->. Qed.
Lemma rollover_only_active s s' : rollover_only s s' → active_epoch s' = active_epoch s.
Proof. by intros ->. Qed.
Lemma rollover_only_under s r s' : rollover_only (set_rollover r s) s' → rollover_only s s'.
Proof. unfold rollover_only. intros ->. done. Qed.

#[local] Hint Resolve rollover_only_refl rollover_only_set rollover_only_under : frames.

(** ** Key generation *)

Lemma fail_rollover_only s e : rollover_only s (fail_rollover s e).1.
Proof. done. Qed.
#[local] Hint Resolve fail_rollover_only : frames.

Lemma start_key_gen_only T s e ps d : rollover_only s (start_key_gen T s e ps d).1.
Proof. unfold start_key_gen. by destruct (participate_as _ _) as [[? ?]|]. Qed.
#[local] Hint Resolve start_key_gen_only : frames.

Lemma restart_only T s e ex d : rollover_only s (restart_key_gen_excluding T s e ex d).1.
Proof.
  unfold restart_key_gen_excluding. destruct e; [done|].
  destruct (epoch_participants _ _ _); [|done]. auto with frames.
Qed.
#[local] Hint Resolve restart_only : frames.

Lemma genesis_key_gen_only T s ev : rollover_only s (handle_genesis_key_gen T s ev).1.
Proof.
  unfold handle_genesis_key_gen. destruct (rollover s); try (simpl; by auto with frames).
  case_decide; simpl; auto with frames.
Qed.

Lemma key_gen_setup_only T s gid secrets :
  rollover_only s (handle_key_gen_setup T s gid secrets).1.
Proof.
  unfold handle_key_gen_setup. repeat case_match; simpl; auto with frames.
Qed.

Lemma key_gen_committed_only T s block ev :
  rollover_only s (handle_key_gen_committed T s block ev).1.
Proof.
  unfold handle_key_gen_committed. cbv zeta. repeat case_match; simpl; auto with frames.
Qed.

Lemma key_gen_secret_shared_only T s block ev :
  rollover_only s (handle_key_gen_secret_shared T s block ev).1.
Proof.
  unfold handle_key_gen_secret_shared. cbv zeta.
  repeat case_match; simpl; auto with frames.
Qed.

Lemma key_gen_complained_only T s block ev :
  rollover_only s (handle_key_gen_complained T s block ev).1.
Proof.
  unfold handle_key_gen_complained. cbv zeta.
  repeat case_match; simpl; eauto with frames.
Qed.

Lemma finish_collecting_only T s e : rollover_only s (finish_collecting T s e).1.
Proof. unfold finish_collecting. repeat case_match; simpl; auto with frames. Qed.
#[local] Hint Resolve finish_collecting_only : frames.

Lemma key_gen_complaint_responded_only T s block ev :
  rollover_only s (handle_key_gen_complaint_responded T s block ev).1.
Proof.
  unfold handle_key_gen_complaint_responded. cbv zeta.
  repeat case_match; simpl; eauto with frames.
Qed.

Lemma key_gen_timeouts_only T s block :
  rollover_only s (handle_key_gen_timeouts T s block).1.
Proof.
  unfold handle_key_gen_timeouts. cbv zeta. repeat case_match; simpl; auto with frames.
Qed.

(** ** Signing and preprocessing *)

Lemma observe_sequence_fixed gid seq s :
  rollover_fixed s (observe_sequence gid seq s).2 ∧
  sessions_fixed s (observe_sequence gid seq s).2.
Proof.
  unfold observe_sequence. destruct (find_epoch _ _) as [[e ep]|]; [|done].
  by destruct (observe _ _).
Qed.

Lemma accept_request_fixed T block ev n k g p sg s :
  rollover_fixed s (accept_request T block ev n k g p sg s).1.
Proof. unfold accept_request. by destruct p. Qed.

Lemma handle_sign_fixed T s block ev : rollover_fixed s (handle_sign T s block ev).1.
Proof.
  unfold handle_sign.
  pose proof (observe_sequence_fixed (Coordinator.Sign.gid ev)
    (Coordinator.Sign.sequence ev) s) as [[Hr Ha] _].
  destruct (observe_sequence _ _ _) as [nonce s1]. simpl in Hr, Ha. cbv zeta.
  repeat case_match; simplify_eq/=; try (by split); unfold accept_request;
    case_match; by split.
Qed.

Ltac solve_fixed := cbv zeta; repeat case_match; simplify_eq/=; by split.

Lemma nonce_commitments_fixed T s sid m n p :
  (handle_nonce_commitments T s sid m n p).1 = s.
Proof. unfold handle_nonce_commitments. by repeat case_match. Qed.

Lemma oracle_result_fixed T s block o ev :
  rollover_fixed s (handle_oracle_result T s block o ev).1.
Proof. unfold handle_oracle_result. solve_fixed. Qed.

Lemma sign_revealed_fixed T s block ev :
  rollover_fixed s (handle_sign_revealed_nonces T s block ev).1.
Proof. unfold handle_sign_revealed_nonces. solve_fixed. Qed.

Lemma nonces_fixed T s m n : (handle_nonces T s m n).1 = s.
Proof. unfold handle_nonces. by repeat case_match. Qed.

Lemma sign_shared_fixed T s ev : rollover_fixed s (handle_sign_shared T s ev).1.
Proof. unfold handle_sign_shared. solve_fixed. Qed.

Lemma sign_completed_fixed T s block ev :
  rollover_fixed s (handle_sign_completed T s block ev).1.
Proof. unfold handle_sign_completed. solve_fixed. Qed.

Lemma sign_attested_fixed T s sid m : rollover_fixed s (handle_sign_attested T s sid m).1.
Proof. unfold handle_sign_attested. solve_fixed. Qed.

Lemma transaction_proposed_fixed T s block ev :
  rollover_fixed s (handle_transaction_proposed T s block ev).1.
Proof. unfold handle_transaction_proposed. solve_fixed. Qed.

Lemma transaction_attested_fixed T s ev :
  rollover_fixed s (handle_transaction_attested T s ev).1.
Proof. apply sign_attested_fixed. Qed.

Lemma preprocess_fixed T s ev :
  rollover_fixed s (handle_preprocess T s ev).1 ∧
  sessions_fixed s (handle_preprocess T s ev).1.
Proof. unfold handle_preprocess. repeat case_match; simpl; by repeat split. Qed.

Lemma nonce_tree_fixed T s gid c :
  rollover_fixed s (handle_nonce_tree T s gid c).1 ∧
  sessions_fixed s (handle_nonce_tree T s gid c).1.
Proof. unfold handle_nonce_tree. repeat case_match; simpl; by repeat split. Qed.

Lemma nonce_topup_fixed T s :
  rollover_fixed s (handle_nonce_topup T s).1 ∧ sessions_fixed s (handle_nonce_topup T s).1.
Proof. unfold handle_nonce_topup. repeat case_match; simpl; by repeat split. Qed.

Lemma reconciliation_fixed T s :
  rollover_fixed s (handle_group_reconciliation T s).1 ∧
  sessions_fixed s (handle_group_reconciliation T s).1.
Proof. by repeat split. Qed.

Lemma rollover_new_block_sessions T s block :
  sessions_fixed s (handle_rollover_new_block T s block).1 ∧
  epochs (handle_rollover_new_block T s block).1 = epochs s.
Proof.
  unfold handle_rollover_new_block, start_key_gen. cbv zeta.
  repeat case_match; simpl; by repeat split.
Qed.
End frames.

#[export] Hint Resolve rollover_only_refl rollover_only_set genesis_key_gen_only
  key_gen_setup_only key_gen_committed_only key_gen_secret_shared_only
  key_gen_complained_only key_gen_complaint_responded_only key_gen_timeouts_only
  : frames.
