(* ===== verification/RolloverInvariant.v ===== *)
(** * Invariants of the epoch rollover

    What every state of the key generation rounds satisfies: the group of a
    round is derived from the configuration, this validator is one of the
    members when it takes part, complaint counters stay below the signing
    threshold, and the epoch a rollover works towards never goes back. *)

From S2P Require Import Prelude.
From S2P Require Import Bytes.
From S2P Require Import Epoch.
From S2P Require Import Bindings.
From S2P Require Import Alloy.
From S2P Require Import Group.
From S2P Require Import FrostLib.
From S2P Require Import Frost.
From S2P Require Import FrostKeygen.
From S2P Require Import FrostSign.
From S2P Require Import Core.
From S2P Require Import State.
From S2P Require Import Preprocessing.
From S2P Require Import Signing.
From S2P Require Import KeyGen.
From S2P Require Import Complaints.
From S2P Require Import Machine.
From S2P Require Import Frames.

Section definitions.
Context {AL : Alloy} {FL : FrostLib}.

(** The genesis set the service derives from its configuration. *)
Definition Transition_ok (T : Transition) : Prop :=
  participants_set (ValidatorConfig.participants (Transition.config T))
    (EpochGenesis (ValidatorConfig.genesis_salt (Transition.config T))) =
  Some (Transition.genesis T).

(** The group of an epoch is the one of a set the configuration accepts. *)
Definition epoch_set (T : Transition) (e : EpochId) (ps : ParticipantSet) : Prop :=
  match e with
  | Genesis => ps = Transition.genesis T
  | Number n => ∃ excluded, epoch_participants T n excluded = Some ps
  end.
Definition group_ok (T : Transition) (e : EpochId) (g : Group.t) : Prop :=
  ∃ ps, epoch_set T e ps ∧ g = group_of ps.

Definition is_member (T : Transition) (g : Group.t) : Prop :=
  Transition.account T ∈ Group.participants g.

Definition complaints_ok (g : Group.t) (complaints : gmap Address Complaint) : Prop :=
  map_Forall (λ _ c, unresponded c ≤ total c ∧ total c < Group.threshold g) complaints.

(** A validator that takes part holds its proof of participation in the group. *)
Definition joins (T : Transition) (e : EpochId) (g : Group.t) (c : KeyGenCommitment) : Prop :=
  match c with
  | CommitParticipating poap _ =>
      ∃ ps, epoch_set T e ps ∧ participate_as ps (Transition.account T) = Some (g, poap)
  | CommitObserving => True
  end.
Definition takes_part (p : KeyGenParticipation) : Prop :=
  match p with Participating _ => True | Observing _ => False end.
Definition confirms (c : KeyGenConfirmation) : Prop :=
  match c with ConfirmObserving => False | _ => True end.

Definition rollover_ok (T : Transition) (r : RolloverState) : Prop :=
  match r with
  | CollectingCommitments e g c _ _ =>
      group_ok T e g ∧ joins T e g c
  | CollectingShares e g p _ _ complaints _ =>
      group_ok T e g ∧ (takes_part p → is_member T g) ∧ complaints_ok g complaints
  | CollectingConfirmations e g p status _ complaints _ =>
      group_ok T e g ∧ (takes_part p → is_member T g) ∧
      (confirms status → takes_part p) ∧ complaints_ok g complaints
  | SigningRollover n g key_share _ =>
      group_ok T (Number n) g ∧ (is_Some key_share → is_member T g)
  | _ => True
  end.

(** The epoch and group of the round in progress. *)
Definition rollover_group (r : RolloverState) : option (EpochId * Group.t) :=
  match r with
  | CollectingCommitments e g _ _ _
  | CollectingShares e g _ _ _ _ _
  | CollectingConfirmations e g _ _ _ _ _ => Some (e, g)
  | SigningRollover n g _ _ => Some (Number n, g)
  | _ => None
  end.

(** The first epoch no rollover has been signed for. *)
Definition rollover_limit (r : RolloverState) : N :=
  match r with
  | SigningRollover n _ _ _ | EpochStaged n => nonzero_get n + 1
  | _ => match next_epoch r with Some e => EpochId.raw_value e | None => 0 end
  end.

(** The epoch a rollover works towards. *)
Definition rollover_epoch (r : RolloverState) : N :=
  match next_epoch r with Some e => EpochId.raw_value e | None => 0 end.

(** The first epoch that has no group yet. *)
Definition fresh_epoch (r : RolloverState) : N :=
  match r with
  | EpochStaged n => nonzero_get n + 1
  | _ => match next_epoch r with Some e => EpochId.raw_value e | None => 0 end
  end.

(** Within an epoch, exclusions only grow. *)
Definition exclusions_grow (r r' : RolloverState) : Prop :=
  ∀ e g g', rollover_group r = Some (e, g) → rollover_group r' = Some (e, g') →
    Group.excluded g ⊆ Group.excluded g' ∧ Group.participants g' ⊆ Group.participants g.

Record rollover_progress (T : Transition) (r r' : RolloverState) : Prop := {
  progress_ok : rollover_ok T r';
  progress_limit : rollover_limit r ≤ rollover_limit r';
  progress_epoch : rollover_epoch r ≤ rollover_epoch r';
  progress_fresh : fresh_epoch r ≤ fresh_epoch r';
  progress_exclusions : exclusions_grow r r';
}.
End definitions.

Section lemmas.
Context {AL : Alloy} {FL : FrostLib} (T : Transition).

Lemma exclusions_grow_refl r : exclusions_grow r r.
Proof. intros e g g' H1 H2. by simplify_eq. Qed.

Lemma progress_refl r : rollover_ok T r → rollover_progress T r r.
Proof. split; [done|lia..|apply exclusions_grow_refl]. Qed.

Lemma fresh_epoch_limit r : fresh_epoch r ≤ rollover_limit r.
Proof. destruct r; simpl; lia. Qed.

Lemma rollover_epoch_fresh r : rollover_epoch r ≤ fresh_epoch r.
Proof. unfold rollover_epoch. destruct r; simpl; lia. Qed.

Lemma rollover_group_fresh r e g :
  rollover_group r = Some (e, g) →
  fresh_epoch r = EpochId.raw_value e ∧ rollover_epoch r = EpochId.raw_value e.
Proof. destruct r; naive_solver. Qed.

Lemma no_group_fresh r : rollover_group r = None → fresh_epoch r = rollover_limit r.
Proof. by destruct r. Qed.

(** A round that keeps its epoch and group. *)
Lemma progress_same r r' :
  rollover_ok T r' → rollover_group r' = rollover_group r →
  rollover_limit r ≤ rollover_limit r' → rollover_group r ≠ None →
  rollover_progress T r r'.
Proof.
  intros ? E ? Hg. destruct (rollover_group r) as [[e g]|] eqn:Hr; [|done].
  apply rollover_group_fresh in Hr as Hf, E as Hf'. destruct Hf, Hf'.
  split; [done|done|lia|lia|]. intros e' g1 g2. naive_solver.
Qed.

(** A round that ends without a group. *)
Lemma progress_end r r' :
  rollover_ok T r' → rollover_group r' = None →
  rollover_limit r ≤ rollover_limit r' → rollover_epoch r ≤ rollover_epoch r' →
  rollover_progress T r r'.
Proof.
  intros ? E ??. split; [done..| |intros e g g'; by rewrite E].
  rewrite (no_group_fresh _ E). pose proof (fresh_epoch_limit r). lia.
Qed.

Lemma rollover_failure_ok e : rollover_ok T (rollover_failure e).
Proof. by destruct e. Qed.
Lemma rollover_failure_group e : rollover_group (rollover_failure e) = None.
Proof. by destruct e. Qed.
Lemma rollover_failure_limit e : rollover_limit (rollover_failure e) = EpochId.raw_value e.
Proof. by destruct e. Qed.

Lemma progress_failure r e :
  rollover_limit r ≤ EpochId.raw_value e →
  rollover_progress T r (rollover_failure e).
Proof.
  intros. pose proof (rollover_epoch_fresh r). pose proof (fresh_epoch_limit r).
  apply progress_end; [apply rollover_failure_ok|apply rollover_failure_group| |].
  - by rewrite rollover_failure_limit.
  - etrans; [|etrans; [exact H|]]; [lia|]. by destruct e.
Qed.

Lemma group_ok_set e ps : epoch_set T e ps → group_ok T e (group_of ps).
Proof. intros H. by exists ps. Qed.

Lemma joins_member e g poap secrets :
  joins T e g (CommitParticipating poap secrets) → is_member T g.
Proof. by intros (ps & _ & [? ->]%participate_as_Some). Qed.

(** The sets of one epoch only differ by their exclusions. *)
Lemma epoch_participants_mono n ex ex' ps ps' :
  epoch_participants T n ex = Some ps → epoch_participants T n ex' = Some ps' →
  ex ⊆ ex' →
  Group.excluded (group_of ps) ⊆ Group.excluded (group_of ps') ∧
  Group.participants (group_of ps') ⊆ Group.participants (group_of ps).
Proof.
  unfold epoch_participants.
  intros (Ha & Hx & _)%participants_set_Some (Ha' & Hx' & _)%participants_set_Some Hsub.
  rewrite !group_of_excluded, !group_of_participants, Ha, Hx, Ha', Hx'. simpl. set_solver.
Qed.

Lemma group_ok_excluded n g :
  group_ok T (Number n) g →
  ∃ ps, epoch_participants T n (Group.excluded g) = Some ps ∧ g = group_of ps.
Proof.
  intros (ps & [ex Hps] & ->). exists ps. split; [|done].
  unfold epoch_participants in *. rewrite group_of_excluded.
  by pose proof Hps as (_ & -> & _)%participants_set_Some.
Qed.

(** The sets of the epochs are ones the configuration accepts. *)
Lemma epoch_set_accepted e ps :
  Transition_ok T → epoch_set T e ps → ∃ l epoch, participants_set l epoch = Some ps.
Proof.
  intros HT Hps. destruct e; simpl in Hps; [subst; eauto|].
  destruct Hps as [ex Hex]. unfold epoch_participants in Hex. eauto.
Qed.

(** The threshold of a round's group fits the complaint counters. *)
Lemma group_ok_threshold e g :
  Transition_ok T → group_ok T e g → Group.threshold g < u16_modulus.
Proof.
  intros HT (ps & (l & ep & Hlt%participants_set_small)%epoch_set_accepted & ->); [|done].
  rewrite group_of_threshold. unfold group_threshold, u16_modulus in *.
  revert Hlt. div_facts (set_len (ParticipantSet.addresses ps)) 2. lia.
Qed.
End lemmas.

(** ** Every handler makes progress *)

Section handlers.
Context {AL : Alloy} {FL : FrostLib} (T : Transition).
Context (HT : Transition_ok T).

Lemma start_key_gen_progress state e ps deadline r :
  epoch_set T e ps → rollover_limit r ≤ EpochId.raw_value e →
  (∀ g, rollover_group r = Some (e, g) →
    Group.excluded g ⊆ Group.excluded (group_of ps) ∧
    Group.participants (group_of ps) ⊆ Group.participants g) →
  rollover_progress T r (rollover (start_key_gen T state e ps deadline).1).
Proof.
  intros Hps Hlim Hex. pose proof (fresh_epoch_limit r) as Hfr.
  pose proof (rollover_epoch_fresh r) as Hep. unfold start_key_gen.
  destruct (participate_as ps _) as [[g poap]|] eqn:Hp; simpl.
  - pose proof Hp as [Ha ->]%participate_as_Some. split; simpl; [|done|change (rollover_epoch r ≤ EpochId.raw_value e); lia|lia|].
    + split; [by apply group_ok_set|by exists ps].
    + intros e' g g' Hg [= <- <-]. by apply Hex.
  - split; simpl; [|done|change (rollover_epoch r ≤ EpochId.raw_value e); lia|lia|].
    + split; [by apply group_ok_set|done].
    + intros e' g g' Hg [= <- <-]. by apply Hex.
Qed.

Lemma restart_progress state r e g ex deadline :
  group_ok T e g → rollover_group r = Some (e, g) →
  rollover_limit r ≤ EpochId.raw_value e → Group.excluded g ⊆ ex →
  rollover_progress T r (rollover (restart_key_gen_excluding T state e ex deadline).1).
Proof.
  intros Hok Hg Hlim Hex. unfold restart_key_gen_excluding.
  destruct e as [|n]; [by apply progress_failure|].
  destruct (epoch_participants T n ex) as [ps|] eqn:Hps; [|by apply progress_failure].
  apply start_key_gen_progress; [by exists ex|done|].
  intros g' Hg'. assert (g' = g) as -> by congruence.
  apply group_ok_excluded in Hok as (ps0 & Hps0 & ->).
  by eapply epoch_participants_mono.
Qed.

Lemma genesis_key_gen_progress s event :
  rollover_ok T (rollover s) →
  rollover_progress T (rollover s) (rollover (handle_genesis_key_gen T s event).1).
Proof.
  intros Hok. unfold handle_genesis_key_gen.
  destruct (rollover s) eqn:Hr; try (rewrite <-Hr in *; by apply progress_refl).
  case_decide; [|rewrite <-Hr in *; by apply progress_refl].
  by apply start_key_gen_progress.
Qed.

Lemma finalize_commitments_progress r e g secrets commitments deadline :
  group_ok T e g → (is_Some secrets → is_member T g) →
  rollover_group r = Some (e, g) → rollover_limit r ≤ EpochId.raw_value e →
  rollover_progress T r
    (finalize_key_gen_commitments T e g secrets commitments deadline).1.
Proof.
  intros Hok Hm Hg Hlim. unfold finalize_key_gen_commitments.
  assert (∀ p, (takes_part p → is_member T g) →
    rollover_progress T r (CollectingShares e g p ∅ ∅ ∅ deadline)) as Hnext.
  { intros p Hp. apply progress_same; simpl; [|done|done|by rewrite Hg].
    split_and!; [done|done|]. apply map_Forall_empty. }
  destruct secrets as [secrets|]; simpl.
  - destruct (generate_secret_shares _ _) as [[st share]|]; simpl; [|by apply progress_failure].
    apply Hnext. intros _. apply Hm. eauto.
  - destruct (group_commitments _); simpl; [by apply Hnext|by apply progress_failure].
Qed.

Lemma key_gen_setup_progress s gid secrets :
  rollover_ok T (rollover s) →
  rollover_progress T (rollover s) (rollover (handle_key_gen_setup T s gid secrets).1).
Proof.
  intros Hok. unfold handle_key_gen_setup.
  destruct (rollover s) as [| | | |e g [poap [sec|]|] comms dl| | |] eqn:Hr;
    try (rewrite <-Hr in *; by apply progress_refl).
  case_decide; [|rewrite <-Hr in *; by apply progress_refl].
  destruct Hok as [Hok Hm]. case_decide.
  - by apply progress_same.
  - pose proof (finalize_commitments_progress
      (CollectingCommitments e g (CommitParticipating poap None) comms dl) e g
      (Some secrets) comms ((λ d, saturating_add d (key_gen_timeout T)) <$> dl)) as Hf.
    destruct (finalize_key_gen_commitments _ _ _ _ _ _) as [r' cs]; simpl in *.
    apply Hf; [done|intros _; exact (joins_member T e g poap None Hm)|done|done].
Qed.

Lemma key_gen_committed_progress s block event :
  rollover_ok T (rollover s) →
  rollover_progress T (rollover s)
    (rollover (handle_key_gen_committed T s block event).1).
Proof.
  intros Hok. unfold handle_key_gen_committed.
  destruct (rollover s) as [| | | |e g c comms dl| | |] eqn:Hr;
    try (rewrite <-Hr in *; by apply progress_refl).
  case_decide; [|rewrite <-Hr in *; by apply progress_refl].
  destruct Hok as [Hok Hm]. cbv zeta.
  set (comms' := match verify_commitment _ _ with Ok _ => _ | Err _ => _ end).
  case_decide; [by apply progress_same|].
  assert (∀ sec, (is_Some sec → is_member T g) → ∀ dl',
    rollover_progress T (CollectingCommitments e g c comms dl)
      (finalize_key_gen_commitments T e g sec comms' dl').1) as Hf.
  { intros sec Hsec dl'. by apply finalize_commitments_progress. }
  destruct c as [poap [sec|]|].
  - specialize (Hf (Some sec) ltac:(intros _; exact (joins_member T e g poap None Hm))
      ((λ _, saturating_add block (key_gen_timeout T)) <$> dl)).
    destruct (finalize_key_gen_commitments _ _ _ _ _ _). apply Hf.
  - by apply progress_same.
  - specialize (Hf None ltac:(by intros [? ?])
      ((λ _, saturating_add block (key_gen_timeout T)) <$> dl)).
    destruct (finalize_key_gen_commitments _ _ _ _ _ _). apply Hf.
Qed.

Lemma key_gen_secret_shared_progress s block event :
  rollover_ok T (rollover s) →
  rollover_progress T (rollover s)
    (rollover (handle_key_gen_secret_shared T s block event).1).
Proof.
  intros Hok. unfold handle_key_gen_secret_shared.
  destruct (rollover s) as [| | | | |e g p pk sh compl dl| |] eqn:Hr;
    try (rewrite <-Hr in *; by apply progress_refl).
  case_decide; [|rewrite <-Hr in *; by apply progress_refl].
  destruct Hok as (Hok & Hm & Hc). cbv zeta.
  destruct (accept_share _ _ _ _ _ _ _ _) as [[pk' sh'] cmds].
  case_decide; [by apply progress_same|].
  destruct p as [st|gc]; [|by apply progress_same].
  case_decide; [|by apply progress_same].
  destruct (confirm_key_gen _ _ _ _ _ _) as [[status cs]|].
  - by apply progress_same.
  - by apply progress_failure.
Qed.

(** *** Confirmations and staging *)

Lemma finalize_key_gen_rollover s e g key_share :
  rollover (finalize_key_gen T s e g key_share).1 = rollover s.
Proof. by destruct key_share. Qed.

Lemma sign_attested_rollover s sid message :
  rollover (handle_sign_attested T s sid message).1 = rollover s.
Proof.
  unfold handle_sign_attested. by destruct (signing s !! message ≫= signing_signature_id).
Qed.

Lemma epoch_participants_set n ps :
  epoch_participants T n ∅ = Some ps → epoch_set T (Number n) ps.
Proof. intros. by exists ∅. Qed.

Lemma key_gen_confirmed_progress s block event :
  rollover_ok T (rollover s) →
  rollover_progress T (rollover s)
    (rollover (handle_key_gen_confirmed T s block event).1).
Proof.
  intros Hok. unfold handle_key_gen_confirmed.
  destruct (rollover s) as [| | | | | |e g p status conf compl dls|] eqn:Hr;
    try (rewrite <-Hr in *; by apply progress_refl).
  case_decide; [|rewrite <-Hr in *; by apply progress_refl].
  destruct Hok as (Hok & Hm & Hs & Hc). cbv zeta.
  case_decide; [by apply progress_same|]. destruct e as [|n].
  - unfold confirm_genesis. cbv zeta. set (n := next_number _ _).
    pose proof (finalize_key_gen_rollover (set_rollover (EpochSkipped n) s) Genesis g
      (confirmation_key_share status)) as Hfin.
    destruct (finalize_key_gen _ _ _ _ _) as [s1 cs1]. simpl in Hfin.
    destruct (epoch_participants T n ∅) as [ps|] eqn:Hps; simpl.
    + match goal with |- context [start_key_gen T s1 ?e ps ?d] =>
        pose proof (start_key_gen_progress s1 e ps d
          (CollectingConfirmations Genesis g p status conf compl dls)
          (epoch_participants_set _ _ Hps)) as Hst end.
      destruct (start_key_gen _ _ _ _ _) as [s2 cs2]. simpl in *.
      apply Hst; [lia|naive_solver].
    + rewrite Hfin. apply progress_end; simpl; [done|done|lia|]. unfold rollover_epoch. simpl. lia.
  - unfold confirm_epoch. cbv zeta. simpl.
    apply progress_same; simpl; [|done|lia|done]. split; [done|].
    intros [k Hk]. apply Hm, Hs. by destruct status.
Qed.

Lemma epoch_staged_progress s event :
  rollover_ok T (rollover s) →
  rollover_progress T (rollover s) (rollover (handle_epoch_staged T s event).1).
Proof.
  intros Hok. unfold handle_epoch_staged.
  destruct (rollover s) as [| | | | | | |n g ks m] eqn:Hr;
    try (rewrite <-Hr in *; by apply progress_refl).
  - simpl. apply progress_end; simpl; [by destruct (nonzero_new _)..|lia|].
    unfold rollover_epoch. simpl. lia.
  - case_decide; [|rewrite <-Hr in *; by apply progress_refl].
    pose proof (finalize_key_gen_rollover (set_rollover (EpochStaged n) s) (Number n) g ks)
      as Hfin.
    destruct (finalize_key_gen _ _ _ _ _) as [s1 cs1]. simpl in Hfin.
    pose proof (sign_attested_rollover s1 (Consensus.EpochStaged.signatureId event) m)
      as Hatt.
    destruct (handle_sign_attested _ _ _ _) as [s2 cs2]. simpl in *.
    rewrite Hatt, Hfin. by apply progress_end.
Qed.

(** *** Complaints *)

Lemma complaints_ok_register e g accused complaints c complaints' :
  group_ok T e g → complaints_ok g complaints →
  register_complaint accused complaints = (c, complaints') →
  total c < Group.threshold g → complaints_ok g complaints'.
Proof using HT.
  intros Hg Hc [= <- <-] Hlt. simpl in Hlt. apply map_Forall_insert_2; [|done]. simpl.
  pose proof (group_ok_threshold T e g HT Hg) as Hth.
  assert (unresponded (default Complaint_default (complaints !! accused)) ≤
          total (default Complaint_default (complaints !! accused)) ∧
          (total (default Complaint_default (complaints !! accused)) < Group.threshold g)
         ) as [Hle Htot].
  { destruct (complaints !! accused) as [c|] eqn:E; simpl; [by apply Hc in E|].
    destruct Hg as (ps & _ & ->). rewrite group_of_threshold.
    unfold group_threshold, Complaint_default. simpl.
    generalize (set_len (ParticipantSet.addresses ps) / 2). lia. }
  split; [|done]. unfold u16_succ, u16_modulus in *.
  rewrite !as_u16_small by (unfold u16_modulus; lia). lia.
Qed.

(** The round a complaint applies to, seen from its rollover state. *)
Lemma complaint_round_Some block gid r round :
  complaint_round T block gid r = Some round → rollover_ok T r →
  rollover_group r = Some (cr_next_epoch round, cr_group round) ∧
  Group.id (cr_group round) = gid ∧
  rollover_limit r = EpochId.raw_value (cr_next_epoch round) ∧
  group_ok T (cr_next_epoch round) (cr_group round) ∧
  complaints_ok (cr_group round) (cr_complaints round) ∧
  (∀ complaints, complaints_ok (cr_group round) complaints →
    rollover_progress T r (cr_update round complaints)).
Proof.
  intros Hround Hok. unfold complaint_round in Hround.
  destruct r; try done; case_decide; simplify_eq/=; destruct_and?.
  - split_and!; [done..|]. intros. by apply progress_same.
  - split_and!; [done..|]. intros. by apply progress_same.
Qed.

Lemma key_gen_complained_progress s block event :
  rollover_ok T (rollover s) →
  rollover_progress T (rollover s)
    (rollover (handle_key_gen_complained T s block event).1).
Proof using HT.
  intros Hok. unfold handle_key_gen_complained.
  destruct (complaint_round _ _ _ _) as [round|] eqn:Hround; [|by apply progress_refl].
  apply complaint_round_Some in Hround as (Hg & _ & Hlim & Hgok & Hc & Hup); [|done].
  destruct (register_complaint _ _) as [c complaints'] eqn:Hreg. case_decide.
  - apply (restart_progress _ _ _ (cr_group round)); [done..|lia|].
    unfold Group.also_exclude. set_solver.
  - assert (rollover_progress T (rollover s) (cr_update round complaints')) as Hp.
    { apply Hup. eapply complaints_ok_register; [done..|lia]. }
    destruct_matches.
Qed.

Lemma complaints_ok_respond g complaints accused c :
  complaints_ok g complaints → complaints !! accused = Some c →
  unresponded c ≠ 0 → Group.threshold g < u16_modulus →
  complaints_ok g
    (<[accused := {| total := total c; unresponded := u16_pred (unresponded c) |}]>
       complaints).
Proof.
  intros Hc Ha Hne Hth. apply map_Forall_insert_2; [|done]. simpl.
  apply Hc in Ha as [Hle Hlt]. simpl in *. split; [|done].
  unfold u16_pred, as_u16, u16_modulus in *.
  replace (unresponded c + 65536 - 1) with (unresponded c - 1 + 1 * 65536) by lia.
  rewrite N.Div0.mod_add, N.mod_small; lia.
Qed.

Lemma response_round_Some block gid r round :
  response_round block gid r = Some round → rollover_ok T r →
  rollover_group r = Some (rr_next_epoch round, rr_group round) ∧
  Group.id (rr_group round) = gid ∧
  rollover_limit r = EpochId.raw_value (rr_next_epoch round) ∧
  group_ok T (rr_next_epoch round) (rr_group round) ∧
  complaints_ok (rr_group round) (rr_complaints round) ∧
  (∀ shares complaints, complaints_ok (rr_group round) complaints →
    let r' := rr_update round ((λ s, shares s) <$> rr_shares round) complaints in
    rollover_progress T r r' ∧ next_epoch r' = Some (rr_next_epoch round)).
Proof.
  intros Hround Hok. unfold response_round in Hround.
  destruct r as [| | | | |e g p pk sh compl dl|e g p status conf compl dls|];
    try done; case_decide; simplify_eq/=; destruct_and?.
  - split_and!; [done..|]. intros. split; [|done]. by apply progress_same.
  - split_and!; [done..|]. intros. split; [|done]. apply progress_same; [|done..].
    split_and!; [done..| |done]. by destruct status.
Qed.

Lemma finish_collecting_progress s e r :
  rollover_progress T r (rollover s) → next_epoch (rollover s) = Some e →
  rollover_limit r ≤ EpochId.raw_value e →
  rollover_progress T r (rollover (finish_collecting T s e).1).
Proof.
  intros Hp He Hlim. unfold finish_collecting.
  destruct (rollover s) as [| | | | | |e' g [st|] [|sh|] conf compl dls|] eqn:Hr;
    try (simpl; by rewrite Hr).
  case_decide; [|simpl; by rewrite Hr]. simplify_eq/=.
  destruct (confirm_key_gen _ _ _ _ _ _) as [[st' cs]|]; [|by apply progress_failure].
  simpl. destruct Hp as [Hok Hl He' Hf Hx]. split; simpl in *; [|done..]. naive_solver.
Qed.

Lemma key_gen_complaint_responded_progress s block event :
  rollover_ok T (rollover s) →
  rollover_progress T (rollover s)
    (rollover (handle_key_gen_complaint_responded T s block event).1).
Proof using HT.
  intros Hok. unfold handle_key_gen_complaint_responded.
  destruct (response_round _ _ _) as [round|] eqn:Hround; [|by apply progress_refl].
  apply response_round_Some in Hround as (Hg & _ & Hlim & Hgok & Hc & Hup); [|done].
  destruct (rr_complaints round !! _) as [c|] eqn:Hacc; [|by apply progress_refl].
  case_decide; [by apply progress_refl|].
  destruct (verify_revealed_secret_share _ _ _ _) as [share|].
  - cbv zeta. edestruct Hup as [Hp He]; [|apply finish_collecting_progress; simpl].
    + eapply complaints_ok_respond; [done..|]. by eapply group_ok_threshold.
    + exact Hp.
    + exact He.
    + lia.
  - apply (restart_progress _ _ _ (rr_group round)); [done..|lia|].
    unfold Group.also_exclude. set_solver.
Qed.

(** *** The block clock *)

Lemma rollover_group_epoch r e g : rollover_group r = Some (e, g) → next_epoch r = Some e.
Proof. destruct r; naive_solver. Qed.

Lemma rollover_limit_epoch r e :
  next_epoch r = Some e →
  EpochId.raw_value e ≤ rollover_limit r ≤ EpochId.raw_value e + 1.
Proof. destruct r; simpl; intros; simplify_eq/=; lia. Qed.

(** On a new block the round is kept, or a later epoch is begun. *)
Lemma rollover_new_block_cases s block :
  handle_rollover_new_block T s block = (s, []) ∨
  ∃ e n, next_epoch (rollover s) = Some e ∧
    n = next_number block (blocks_per_epoch T) ∧
    EpochId.raw_value e < nonzero_get n ∧
    next_epoch (rollover (handle_rollover_new_block T s block).1) = Some (Number n) ∧
    rollover_progress T (rollover s) (rollover (handle_rollover_new_block T s block).1).
Proof.
  unfold handle_rollover_new_block.
  destruct (next_epoch (rollover s)) as [[|t]|] eqn:He; simpl; [by left| |by left].
  cbv zeta. set (n := next_number _ _). case_decide; [by left|]. right.
  exists (Number t), n. split_and!; [done..|simpl; lia| |].
  - destruct (epoch_participants T n ∅) as [ps|] eqn:Hps; [|done].
    unfold start_key_gen. by destruct (participate_as _ _) as [[? ?]|].
  - pose proof (rollover_limit_epoch _ _ He) as [_ Hlim]. simpl in Hlim.
    destruct (epoch_participants T n ∅) as [ps|] eqn:Hps.
    + apply start_key_gen_progress; [by apply epoch_participants_set|simpl; lia|].
      intros g Hg%rollover_group_epoch. rewrite He in Hg. simplify_eq. lia.
    + simpl. apply progress_end; simpl; [done|done|lia|].
      unfold rollover_epoch. rewrite He. simpl. lia.
Qed.

Lemma stuck_setup_Some block r e :
  stuck_setup block r = Some e → next_epoch r = Some e ∧ rollover_limit r ≤ EpochId.raw_value e.
Proof. destruct r; simpl; repeat case_match; naive_solver. Qed.

(** A timed-out round is restarted with at least its own exclusions. *)
Lemma timed_out_Some block r e ex :
  timed_out block r = Some (e, ex) → rollover_ok T r →
  next_epoch r = Some e ∧ rollover_limit r ≤ EpochId.raw_value e ∧
  ∃ g, rollover_group r = Some (e, g) ∧ group_ok T e g ∧ Group.excluded g ⊆ ex.
Proof.
  clear HT. unfold timed_out. intros Hto Hok.
  destruct r as [| | | |e' g c comms [dl|]|e' g p pk sh compl [dl|]
                 |e' g p status conf compl [dl|]|];
    try done; repeat case_decide; simplify_eq/=; destruct_and?;
    (split_and!; [done|lia|]; exists g; split_and!; [done|done|];
     rewrite ?exclude_all_others_spec; unfold Group.also_exclude; set_solver).
Qed.

Lemma key_gen_timeouts_progress s block :
  rollover_ok T (rollover s) →
  rollover_progress T (rollover s) (rollover (handle_key_gen_timeouts T s block).1).
Proof.
  intros Hok. unfold handle_key_gen_timeouts.
  destruct (stuck_setup _ _) as [e|] eqn:Hst.
  - apply stuck_setup_Some in Hst as [_ Hlim]. by apply progress_failure.
  - destruct (timed_out _ _) as [[e ex]|] eqn:Hto; [|by apply progress_refl].
    apply timed_out_Some in Hto as (_ & Hlim & g & Hg & Hgok & Hex); [|done].
    by apply (restart_progress _ _ _ g).
Qed.

Lemma restart_next_epoch s e ex deadline e' :
  next_epoch (rollover (restart_key_gen_excluding T s e ex deadline).1) = Some e' →
  e' = e.
Proof.
  unfold restart_key_gen_excluding, start_key_gen.
  destruct e as [|n]; [done|]. destruct (epoch_participants _ _ _); [|simpl; congruence].
  destruct (participate_as _ _) as [[? ?]|]; simpl; congruence.
Qed.

Lemma key_gen_timeouts_epoch s block e e' :
  next_epoch (rollover s) = Some e → rollover_ok T (rollover s) →
  next_epoch (rollover (handle_key_gen_timeouts T s block).1) = Some e' → e' = e.
Proof.
  intros He Hok. unfold handle_key_gen_timeouts.
  destruct (stuck_setup _ _) as [e1|] eqn:Hst.
  - apply stuck_setup_Some in Hst as [? _]. simplify_eq. destruct e; simpl; congruence.
  - destruct (timed_out _ _) as [[e1 ex]|] eqn:Hto; [|simpl; congruence].
    apply timed_out_Some in Hto as (? & _); [|done]. simplify_eq.
    apply restart_next_epoch.
Qed.

(** The timeouts of a numbered epoch stay in that epoch. *)
Lemma key_gen_timeouts_number s block n :
  next_epoch (rollover s) = Some (Number n) → rollover_ok T (rollover s) →
  next_epoch (rollover (handle_key_gen_timeouts T s block).1) = Some (Number n).
Proof.
  intros He Hok. unfold handle_key_gen_timeouts.
  destruct (stuck_setup _ _) as [e1|] eqn:Hst.
  - apply stuck_setup_Some in Hst as [? _]. by simplify_eq.
  - destruct (timed_out _ _) as [[e1 ex]|] eqn:Hto; [|done].
    apply timed_out_Some in Hto as (? & _); [|done]. simplify_eq.
    unfold restart_key_gen_excluding, start_key_gen.
    destruct (epoch_participants _ _ _); [|done]. by destruct (participate_as _ _) as [[? ?]|].
Qed.

Lemma new_block_progress s block :
  rollover_ok T (rollover s) →
  rollover_progress T (rollover s)
    (rollover (handle_key_gen_timeouts T (handle_rollover_new_block T s block).1 block).1).
Proof.
  intros Hok. destruct (rollover_new_block_cases s block)
    as [->|(e & n & He & _ & Hlt & He1 & [Hok1 Hlim1 Hep1 Hf1 _])].
  - by apply key_gen_timeouts_progress.
  - destruct (key_gen_timeouts_progress (handle_rollover_new_block T s block).1 block)
      as [Hok2 Hlim2 Hep2 Hf2 _]; [done|].
    split; [done|lia|lia|lia|]. intros e' g g' Hg%rollover_group_epoch Hg'%rollover_group_epoch.
    eapply key_gen_timeouts_epoch in Hg'; [|done..]. simplify_eq/=. lia.
Qed.
End handlers.

(** ** The machine *)

Section machine.
Context {AL : Alloy} {FL : FrostLib} (T : Transition).
Context (HT : Transition_ok T).

Lemma new_block_rollover s block :
  rollover (apply_new_block T s block).1 = rollover (after_rounds T s block).
Proof.
  rewrite apply_new_block_state. simpl. unfold after_topup.
  by destruct (nonce_topup_fixed T (after_sessions T s block)) as [[-> _] _].
Qed.

Lemma fixed_progress s s' :
  rollover_ok T (rollover s) → rollover_fixed s s' →
  rollover_progress T (rollover s) (rollover s').
Proof. intros Hok [-> _]. by apply progress_refl. Qed.

Lemma transition_progress s msg :
  rollover_ok T (rollover s) →
  rollover_progress T (rollover s) (rollover (apply_transition T s msg).1).
Proof using HT.
  intros Hok. destruct msg as [block|[block idx addr [ev|ev|ev]]|res]; simpl.
  - rewrite new_block_rollover. by apply new_block_progress.
  - unfold apply_event; simpl. destruct ev; try by apply progress_refl.
    + by apply epoch_staged_progress.
    + apply fixed_progress; [done|apply transaction_proposed_fixed].
    + apply fixed_progress; [done|apply transaction_attested_fixed].
  - unfold apply_event; simpl. destruct ev; try by apply progress_refl.
    + by apply genesis_key_gen_progress.
    + by apply key_gen_committed_progress.
    + by apply key_gen_secret_shared_progress.
    + by apply key_gen_confirmed_progress.
    + by apply key_gen_complained_progress.
    + by apply key_gen_complaint_responded_progress.
    + apply fixed_progress; [done|apply preprocess_fixed].
    + apply fixed_progress; [done|apply handle_sign_fixed].
    + apply fixed_progress; [done|apply sign_revealed_fixed].
    + apply fixed_progress; [done|apply sign_shared_fixed].
    + apply fixed_progress; [done|apply sign_completed_fixed].
  - unfold apply_event; simpl. destruct ev; try by apply progress_refl.
    apply fixed_progress; [done|apply oracle_result_fixed].
  - destruct res; simpl; try by apply progress_refl.
    + by apply key_gen_setup_progress.
    + apply fixed_progress; [done|apply nonce_tree_fixed].
    + rewrite nonce_commitments_fixed. by apply progress_refl.
    + rewrite nonces_fixed. by apply progress_refl.
Qed.

Lemma reachable_rollover_ok s : reachable T s → rollover_ok T (rollover s).
Proof using HT.
  apply (reachable_ind_inv T (λ s, rollover_ok T (rollover s))); [done|]. intros s' m Hok. by apply transition_progress.
Qed.
End machine.

(** ** Properties *)

Section properties.
Context {AL : Alloy} {FL : FrostLib}.

(** [C32] The rollover of a reachable state only moves forward: after any
    message the epoch it works towards and the first epoch without a signed
    rollover are no smaller, within one epoch the excluded participants only
    grow and the participants only shrink, and the group of the round is one
    the configuration derives for the epoch, with this validator in it when
    it takes part. *)
Theorem rollover_moves_forward T s msg :
  Transition_ok T → reachable T s →
  rollover_progress T (rollover s) (rollover (apply_transition T s msg).1).
Proof. intros. apply transition_progress; [done|]. by apply reachable_rollover_ok. Qed.

(** Complaint counters of a reachable round never reach the threshold
    that restarts it, never count more open complaints than complaints, and
    are far from wrapping around. *)
Theorem complaints_bounded T s e g p pk sh complaints d st cf ds a c :
  Transition_ok T → reachable T s →
  rollover s = CollectingShares e g p pk sh complaints d ∨
  rollover s = CollectingConfirmations e g p st cf complaints ds →
  complaints !! a = Some c →
  unresponded c ≤ total c ∧ total c < Group.threshold g ∧
  u16_succ (total c) = total c + 1.
Proof.
  intros HT Hs Hr Hc. pose proof (reachable_rollover_ok T HT s Hs) as Hok.
  assert (group_ok T e g ∧ complaints_ok g complaints) as [Hg Hcs].
  { destruct Hr as [Hr|Hr]; rewrite Hr in Hok; simpl in Hok; by destruct_and?. }
  apply Hcs in Hc as [Hle Hlt]. pose proof (group_ok_threshold T e g HT Hg) as Hth.
  split_and!; [done..|]. unfold u16_succ. apply as_u16_small. lia.
Qed.
End properties.
