(* ===== verification/Service.v ===== *)
(** * The validator's service: [service/mod.rs], [main.rs]

    The components of the validator's service, and the running process they
    make. *)

From S2P Require Import Prelude.
From S2P Require Import Bytes.
From S2P Require Import Database.
From S2P Require Import Core.
From S2P Require Import Epoch.
From S2P Require Import Bindings.
From S2P Require Import Alloy.
From S2P Require Import Group.
From S2P Require Import Hashing.
From S2P Require Import FrostLib.
From S2P Require Import FrostKeygen.
From S2P Require Import FrostSign.
From S2P Require Import State.
From S2P Require Import Secrets.
From S2P Require Import Effects.
From S2P Require Import Machine.
From S2P Require Import StateMachine.
From S2P Require Import TxQueue.
From S2P Require Import Encoder.
From S2P Require Import Events.
From S2P Require Import Driver.
From S2P Require Import Process.
From S2P Require Import RolloverInvariant.

Section service.
Context {AL : Alloy} {FL : FrostLib} {SJ : SecretsJson} {StJ : StateJson State}.
Context `{!Events Event} {AB : AlloyBloom}.

(** [ValidatorService]. *)
Record ValidatorService := {
  service_account : Address;
  service_secrets : SecretStore;
  service_genesis : ParticipantSet;
  service_consensus : ConsensusDomain;
  service_coordinator : Address;
  service_config : ValidatorConfig.t;
}.

(** [ValidatorService::new]; [None] is [Error::InvalidValidators]. *)
Definition ValidatorService_new (chain_id : N) (account : Address) (secrets : SecretStore)
    (coordinator : Address) (config : ValidatorConfig.t) : option ValidatorService :=
  genesis ← participants_set (ValidatorConfig.participants config)
    (EpochGenesis (ValidatorConfig.genesis_salt config));
  Some {| service_account := account; service_secrets := secrets;
          service_genesis := genesis;
          service_consensus :=
            consensus_domain_new chain_id (ValidatorConfig.consensus config);
          service_coordinator := coordinator; service_config := config |}.

(** [Service::components]. *)
Definition components (v : ValidatorService) : Transition * Handler * Encoder :=
  ({| Transition.account := service_account v; Transition.genesis := service_genesis v;
      Transition.consensus := service_consensus v; Transition.config := service_config v |},
   Handler_new (service_account v) (service_secrets v),
   {| coordinator := service_coordinator v;
      consensus := ValidatorConfig.consensus (service_config v) |}).

(** The validator as a service. [main] associates the configured staker with the
    account, if the contract has another. *)
#[export] Instance validator_service :
    Service ValidatorService State Event Action Effect Resume Handler World := {
  initial_state := State_default;
  transition v := apply_transition (components v).1.1;
  encode v := encode_action (components v).2;
  handler v := (components v).1.2;
  perform := perform_effect;
  reopen v h := Handler_new (service_account v) (secrets h);
  startup v := SetValidatorStaker <$> ValidatorConfig.staker (service_config v);
}.

(** What the validator watches: its contracts and the oracles it honors. *)
Definition watched (v : ValidatorService) : list Address :=
  [ValidatorConfig.consensus (service_config v); service_coordinator v] ++
  elements (ValidatorConfig.oracles (service_config v)).

Context (J : state_roundtrip StJ).

Lemma explained_reachable v seen m s status :
  explained v seen m → inner m = Some (s, status) → reachable (components v).1.1 s.
Proof.
  intros (h & [_ _ Hl] & _) Hi. destruct (Hl _ _ Hi) as [-> _]. apply run_reachable.
Qed.

Lemma validator_process_ok v dep events :
  foreign_keys (tables (service_secrets v)) →
  process_ok v (λ h, foreign_keys (stored h)) (process v dep events).
Proof.
  intros Hfk. apply process_accounted; [done| | |done].
  - intros w h e Hh. by apply (perform_effect_preserves foreign_keys w e (try_foreign_keys w e)).
  - by intros h Hh.
Qed.

(** ** Properties *)

(** [C4] The running validator, through every interleaving of indexer updates,
    reorgs, concurrent effects, failures of the node and of the databases, and
    restarts, is always in a state of the pure transition that a sequence of
    messages leads to; its configuration is one whose genesis group was
    accepted; no two queued transactions share a nonce; and every stored
    signing nonce belongs to a registered tree. *)
Theorem validator_process_sound chain_id account contract config v dep events :
  ValidatorService_new chain_id account SecretStore_new contract config = Some v →
  let T := (components v).1.1 in
  let p := process v dep events in
  Transition_ok T ∧
  (∀ s status, inner (state (driver p)) = Some (s, status) → reachable T s) ∧
  NoDup (omap row_nonce (tables (queue_storage (transactions (driver p))))) ∧
  foreign_keys (stored (process_handler p)).
Proof.
  intros Hv T p.
  assert (Transition_ok T ∧ service_secrets v = SecretStore_new) as [HT Hsecrets].
  { apply bind_Some in Hv as (genesis & Hg & [= <-]). done. }
  assert (process_ok v (λ h, foreign_keys (stored h)) p) as [(Hm & [[Hq _] _] & _) _ Hs].
  { apply validator_process_ok. rewrite Hsecrets. by intros root offs [text H]. }
  split_and!; [done| |done|done].
  intros s status. by eapply explained_reachable.
Qed.
End service.
