(* ===== verification/Lifecycle.v ===== *)
(** * The life of a signing session

    An abstract specification of one signing session as a step relation on the
    session of a message, and the refinement theorem that every transition of
    the validator moves every session along it. *)

From S2P Require Import Prelude.
From S2P Require Import Bytes.
From S2P Require Import Epoch.
From S2P Require Import Bindings.
From S2P Require Import Alloy.
From S2P Require Import Group.
From S2P Require Import Hashing.
From S2P Require Import FrostLib.
From S2P Require Import Frost.
From S2P Require Import FrostKeygen.
From S2P Require Import FrostSign.
From S2P Require Import Core.
From S2P Require Import State.
From S2P Require Import Preprocessing.
From S2P Require Import Signing.
From S2P Require Import KeyGen.
From S2P Require Import Complaints.
From S2P Require Import Machine.
From S2P Require Import Frames.

Section specification.
Context {AL : Alloy} {FL : FrostLib}.

(** The event of a message. *)
Definition msg_event (msg : Message) : option Event :=
  match msg with MEvent log => Some (log_data log) | _ => None end.

(** The message is the on-chain attestation of [m]. *)
Definition attests (T : Transition) (s : State) (msg : Message) (m : B256) : Prop :=
  match msg_event msg with
  | Some (EvConsensus (Consensus.EvTransactionAttested ev)) =>
      m = transaction_proposal_hash (Transition.consensus T)
            (EpochId.from_raw (Consensus.TransactionAttested.epoch ev))
            (Consensus.TransactionAttested.oracle ev)
            (Consensus.TransactionAttested.oracleDataHash ev)
            (Consensus.TransactionAttested.safeTxHash ev)
  | Some (EvConsensus (Consensus.EvEpochStaged ev)) =>
      match rollover s with
      | SigningRollover _ g _ m' => Group.id g = Consensus.EpochStaged.groupId ev ∧ m = m'
      | _ => False
      end
  | _ => False
  end.

(** The message is the answer of [oracle] about [m]. *)
Definition oracle_answers (msg : Message) (m : B256) (oracle : Address)
    (approved : bool) : Prop :=
  ∃ log ev, msg = MEvent log ∧ log_address log = oracle ∧
    log_data log = EvOracle (Oracle.EvOracleResult ev) ∧
    Oracle.OracleResult.requestId ev = m ∧ Oracle.OracleResult.approved ev = approved.

(** The message requests the signature [sid] of [m] by the group [gid]. *)
Definition requests_signature (msg : Message) (m gid sid : B256) : Prop :=
  ∃ ev, msg_event msg = Some (EvCoordinator (Coordinator.EvSign ev)) ∧
    Coordinator.Sign.message ev = m ∧ Coordinator.Sign.gid ev = gid ∧
    Coordinator.Sign.sid ev = sid.

(** The message is a request for a signature, and the books of its group's epoch
    have a nonce for it. *)
Definition books_nonce (s : State) (msg : Message) (m sid : B256) (nonce : NonceIndex) : Prop :=
  ∃ ev e ep, msg_event msg = Some (EvCoordinator (Coordinator.EvSign ev)) ∧
    Coordinator.Sign.message ev = m ∧ Coordinator.Sign.sid ev = sid ∧
    find_epoch (Coordinator.Sign.gid ev) (epochs s) = Some (e, ep) ∧
    (observe (Coordinator.Sign.sequence ev) (epoch_nonces ep)).1 = Some nonce.

(** The message reveals nonces of the signature [sid]. *)
Definition reveals (msg : Message) (ev : Coordinator.SignRevealedNonces.t) : Prop :=
  msg_event msg = Some (EvCoordinator (Coordinator.EvSignRevealedNonces ev)).

Inductive session_step (T : Transition) (s s' : State) (msg : Message) (m : B256) :
    option SigningState → option SigningState → Prop :=
  | step_keep x : session_step T s s' msg m x x
  | step_propose e oracle data tx ep d :
      epochs s !! e = Some ep →
      oracle ∈ ValidatorConfig.oracles (Transition.config T) →
      m = transaction_packet_hash (Transition.consensus T) e oracle data tx →
      session_step T s s' msg m None
        (Some (WaitingForRequest (epoch_key_share ep) (Group.id (epoch_group ep)) None
                 (Transaction e oracle data tx) (Group.participants (epoch_group ep)) d))
  | step_rollover x n g p status conf compl dls participant block key ep d :
      rollover s = CollectingConfirmations (Number n) g p status conf compl dls →
      epochs s !! active_epoch s = Some ep →
      m = epoch_rollover_hash (Transition.consensus T) (active_epoch s) n block key →
      rollover s' = SigningRollover n g (confirmation_key_share status) m →
      session_step T s s' msg m x
        (Some (WaitingForRequest (epoch_key_share ep) (Group.id (epoch_group ep))
                 (Some participant)
                 (EpochRollover (active_epoch s) n block (Group.id g) key)
                 (Group.participants (epoch_group ep)) d))
  | step_request_oracle k g resp e oracle data tx signers d sid nonce d' :
      requests_signature msg m g sid → books_nonce s msg m sid nonce →
      session_step T s s' msg m
        (Some (WaitingForRequest k g resp (Transaction e oracle data tx) signers d))
        (Some (WaitingForOracle k oracle g sid nonce (Transaction e oracle data tx)
                 signers d'))
  | step_request_rollover k g resp a n b gid' key signers d sid nonce d' :
      requests_signature msg m g sid → books_nonce s msg m sid nonce →
      session_step T s s' msg m
        (Some (WaitingForRequest k g resp (EpochRollover a n b gid' key) signers d))
        (Some (CollectNonceCommitments k g sid nonce ∅ None
                 (EpochRollover a n b gid' key) signers d'))
  | step_no_nonce k g resp p signers d gid sid :
      requests_signature msg m gid sid →
      session_step T s s' msg m (Some (WaitingForRequest k g resp p signers d)) None
  | step_approve k oracle g sid nonce p signers d d' :
      oracle_answers msg m oracle true →
      session_step T s s' msg m
        (Some (WaitingForOracle k oracle g sid nonce p signers d))
        (Some (CollectNonceCommitments k g sid nonce ∅ None p signers d'))
  | step_reject k oracle g sid nonce p signers d :
      oracle_answers msg m oracle false →
      session_step T s s' msg m
        (Some (WaitingForOracle k oracle g sid nonce p signers d)) None
  | step_reveal k g sid nonce rev last p signers d ev rev' last' :
      reveals msg ev → track_reveal signers ev rev last = (rev', last') →
      btree_len rev' < set_len signers →
      session_step T s s' msg m
        (Some (CollectNonceCommitments k g sid nonce rev last p signers d))
        (Some (CollectNonceCommitments k g sid nonce rev' last' p signers d))
  | step_revealed k g sid nonce rev last p signers d ev rev' last' d' :
      reveals msg ev → track_reveal signers ev rev last = (rev', last') →
      set_len signers ≤ btree_len rev' →
      session_step T s s' msg m
        (Some (CollectNonceCommitments k g sid nonce rev last p signers d))
        (Some (CollectSigningShares k g sid rev' ∅ p signers d'))
  | step_share k g sid rev sel p signers d ev :
      session_step T s s' msg m
        (Some (CollectSigningShares k g sid rev sel p signers d))
        (Some (CollectSigningShares k g sid rev (add_share ev sel) p signers d))
  | step_complete k g sid rev sel p signers d d' :
      session_step T s s' msg m
        (Some (CollectSigningShares k g sid rev sel p signers d))
        (Some (WaitingForAttestation sid p d'))
  | step_attested x : attests T s msg m → session_step T s s' msg m x None
  | step_timeout block x :
      msg = NewBlock block → signing_deadline x ≤ block →
      session_step T s s' msg m (Some x)
        (kept (session_timeout T block (saturating_add block (signing_timeout T)) m x)).
End specification.

Section refinement.
Context {AL : Alloy} {FL : FrostLib} (T : Transition).

(** Every session moves along the specification. *)
Definition sessions_step (s : State) (msg : Message) (s' : State) : Prop :=
  ∀ m, session_step T s s' msg m (signing s !! m) (signing s' !! m).

Lemma sessions_fixed_step s msg s' : sessions_fixed s s' → sessions_step s msg s'.
Proof. intros [E _] m. rewrite E. constructor. Qed.

(** A handler that only touches the session of [k]. *)
Lemma single_session_step s msg s' k x :
  (∀ m, m ≠ k → signing s' !! m = signing s !! m) →
  signing s' !! k = x → session_step T s s' msg k (signing s !! k) x →
  sessions_step s msg s'.
Proof.
  intros Hne Hk Hstep m. destruct (decide (m = k)) as [->|Hm].
  - by rewrite Hk.
  - rewrite Hne by done. constructor.
Qed.

Ltac single k :=
  eapply (single_session_step _ _ _ k);
  [ intros ??; simpl; rewrite ?lookup_insert_ne, ?lookup_delete_ne by done; congruence
  | simpl; by rewrite ?lookup_insert_eq, ?lookup_delete_eq
  | ].

Lemma observe_sequence_books s log ev :
  log_data log = EvCoordinator (Coordinator.EvSign ev) →
  ∀ nonce, (observe_sequence (Coordinator.Sign.gid ev) (Coordinator.Sign.sequence ev) s).1 =
    Some nonce →
  books_nonce s (MEvent log) (Coordinator.Sign.message ev) (Coordinator.Sign.sid ev) nonce.
Proof.
  intros Hev nonce. unfold observe_sequence.
  destruct (find_epoch _ _) as [[e ep]|] eqn:He; [|done].
  destruct (observe _ _) as [n ns] eqn:Hn. simpl. intros ->.
  exists ev, e, ep. by rewrite Hn, <-Hev.
Qed.

Lemma sign_step s log ev :
  log_data log = EvCoordinator (Coordinator.EvSign ev) →
  sessions_step s (MEvent log) (handle_sign T s (log_block log) ev).1.
Proof.
  intros Hev. unfold handle_sign.
  pose proof (observe_sequence_fixed (Coordinator.Sign.gid ev)
    (Coordinator.Sign.sequence ev) s) as [_ [Hs _]].
  pose proof (observe_sequence_books s log ev Hev) as Hbooks.
  destruct (observe_sequence _ _ _) as [nonce s1]. simpl in Hs, Hbooks. cbv zeta.
  set (m := Coordinator.Sign.message ev). rewrite !Hs.
  assert (∀ gid sid, gid = Coordinator.Sign.gid ev → sid = Coordinator.Sign.sid ev →
    requests_signature (MEvent log) m gid sid) as Hreq.
  { intros ?? -> ->. exists ev. simpl. rewrite Hev. done. }
  destruct (signing s !! m) as [[k g resp p signers d|?|?|?|?]|] eqn:Hm.
  - destruct nonce as [nonce|].
    + case_decide as Hgid.
      * unfold accept_request. subst m. cbv zeta in *. subst g.
        destruct p as [a n b gid' key|e oracle data tx]; simpl;
          single (Coordinator.Sign.message ev); rewrite Hm; constructor; auto.
      * single m. rewrite Hm. constructor.
    + single m. rewrite Hm. econstructor. by apply Hreq.
  - destruct nonce; single m; rewrite Hm; constructor.
  - destruct nonce; single m; rewrite Hm; constructor.
  - destruct nonce; single m; rewrite Hm; constructor.
  - destruct nonce; single m; rewrite Hm; constructor.
  - destruct nonce; single m; rewrite Hm; constructor.
Qed.

Lemma oracle_result_step s log ev :
  log_data log = EvOracle (Oracle.EvOracleResult ev) →
  sessions_step s (MEvent log)
    (handle_oracle_result T s (log_block log) (log_address log) ev).1.
Proof.
  intros Hev. unfold handle_oracle_result. cbv zeta.
  set (m := Oracle.OracleResult.requestId ev).
  assert (∀ ok, Oracle.OracleResult.approved ev = ok →
    oracle_answers (MEvent log) m (log_address log) ok) as Hans.
  { intros ok Hok. by exists log, ev. }
  destruct (signing s !! m) as [x|] eqn:Hm; [|single m; rewrite Hm; constructor].
  destruct x as [?|k o g sid nonce p signers d|?|?|?];
    try (single m; rewrite Hm; constructor).
  case_decide as Ha; [destruct Ha as [-> Ha]|case_decide as Hr; [destruct Hr as [-> Hr]|]];
    single m; rewrite Hm; constructor; auto.
Qed.

Lemma sign_revealed_step s log ev :
  log_data log = EvCoordinator (Coordinator.EvSignRevealedNonces ev) →
  sessions_step s (MEvent log)
    (handle_sign_revealed_nonces T s (log_block log) ev).1.
Proof.
  intros Hev. unfold handle_sign_revealed_nonces. cbv zeta.
  destruct (signature_id_to_message s !! _) as [m|]; [|by apply sessions_fixed_step].
  destruct (signing s !! m) as [x|] eqn:Hm; [|single m; rewrite Hm; constructor].
  destruct x as [?|?|k g sid nonce rev last p signers d|?|?];
    try (single m; rewrite Hm; constructor).
  destruct (track_reveal signers ev rev last) as [rev' last'] eqn:Htr.
  assert (reveals (MEvent log) ev) by (unfold reveals; simpl; congruence).
  case_decide; single m; rewrite Hm.
  - by econstructor.
  - econstructor; [done..|lia].
Qed.

Lemma sign_shared_step s msg ev : sessions_step s msg (handle_sign_shared T s ev).1.
Proof.
  unfold handle_sign_shared. cbv zeta.
  destruct (signature_id_to_message s !! _) as [m|]; [|by apply sessions_fixed_step].
  destruct (signing s !! m) as [x|] eqn:Hm; [|by apply sessions_fixed_step].
  destruct x; try by apply sessions_fixed_step.
  single m. rewrite Hm. constructor.
Qed.

Lemma sign_completed_step s msg block ev :
  sessions_step s msg (handle_sign_completed T s block ev).1.
Proof.
  unfold handle_sign_completed. cbv zeta.
  destruct (signature_id_to_message s !! _) as [m|]; [|by apply sessions_fixed_step].
  destruct (signing s !! m) as [x|] eqn:Hm; [|single m; rewrite Hm; constructor].
  destruct x; single m; rewrite Hm; constructor.
Qed.

Lemma sign_attested_signing s sid m :
  signing (handle_sign_attested T s sid m).1 = delete m (signing s).
Proof. unfold handle_sign_attested. by destruct (signing s !! m ≫= signing_signature_id). Qed.

Lemma transaction_attested_step s log ev :
  log_data log = EvConsensus (Consensus.EvTransactionAttested ev) →
  sessions_step s (MEvent log) (handle_transaction_attested T s ev).1.
Proof.
  intros Hev. unfold handle_transaction_attested. cbv zeta.
  set (m := transaction_proposal_hash _ _ _ _ _).
  apply (single_session_step _ _ _ m None).
  - intros m' Hne. by rewrite sign_attested_signing, lookup_delete_ne.
  - by rewrite sign_attested_signing, lookup_delete_eq.
  - apply step_attested. unfold attests. simpl. by rewrite Hev.
Qed.

Lemma transaction_proposed_step s msg block ev :
  sessions_step s msg (handle_transaction_proposed T s block ev).1.
Proof.
  unfold handle_transaction_proposed. cbv zeta.
  destruct (epochs s !! _) as [ep|] eqn:He; [|by apply sessions_fixed_step].
  case_decide as Ho; [by apply sessions_fixed_step|].
  set (m := transaction_packet_hash _ _ _ _ _).
  destruct (signing s !! m) as [x|] eqn:Hm; [by apply sessions_fixed_step|].
  single m. rewrite Hm. by econstructor.
Qed.

Lemma epoch_staged_step s log ev :
  log_data log = EvConsensus (Consensus.EvEpochStaged ev) →
  sessions_step s (MEvent log) (handle_epoch_staged T s ev).1.
Proof.
  intros Hev. unfold handle_epoch_staged.
  destruct (rollover s) as [| | | | | | |n g ks m] eqn:Hr;
    try by apply sessions_fixed_step.
  case_decide as Hg; [|by apply sessions_fixed_step].
  destruct (finalize_key_gen T (set_rollover (EpochStaged n) s) (Number n) g ks)
    as [s1 c1] eqn:Hfin.
  assert (signing s1 = signing s) as Hs1.
  { unfold finalize_key_gen in Hfin. by destruct ks; simplify_eq/=. }
  pose proof (sign_attested_signing s1 (Consensus.EpochStaged.signatureId ev) m) as Hs2.
  destruct (handle_sign_attested _ _ _ _) as [s2 c2]. simpl in Hs2 |- *.
  apply (single_session_step _ _ _ m None).
  - intros m' Hne. by rewrite Hs2, lookup_delete_ne, Hs1.
  - by rewrite Hs2, lookup_delete_eq.
  - apply step_attested. unfold attests. simpl. by rewrite Hev, Hr.
Qed.

Lemma confirm_genesis_sessions s block g status :
  sessions_fixed s (confirm_genesis T s block g status).1.
Proof.
  unfold confirm_genesis, finalize_key_gen, start_key_gen. cbv zeta.
  repeat case_match; simplify_eq/=; by repeat split.
Qed.

Lemma key_gen_confirmed_step s msg block ev :
  sessions_step s msg (handle_key_gen_confirmed T s block ev).1.
Proof.
  unfold handle_key_gen_confirmed.
  destruct (rollover s) as [| | | | | |e g p status conf compl dls|] eqn:Hr;
    try by apply sessions_fixed_step.
  case_decide; [|by apply sessions_fixed_step]. cbv zeta.
  case_decide; [by apply sessions_fixed_step|]. destruct e as [|n].
  - apply sessions_fixed_step, confirm_genesis_sessions.
  - unfold confirm_epoch. cbv zeta.
    destruct (epochs s !! active_epoch s) as [ep|] eqn:He; [|by apply sessions_fixed_step].
    match goal with |- context [insert_session ?m] => single m end. by econstructor.
Qed.

Lemma signing_timeouts_lookup s block m :
  signing (handle_signing_timeouts T s block).1 !! m =
    signing s !! m ≫= λ x,
      kept (session_timeout T block (saturating_add block (signing_timeout T)) m x).
Proof.
  unfold handle_signing_timeouts. cbv zeta. simpl. apply map_lookup_imap.
Qed.

Lemma signing_timeouts_step s s' s1 block m :
  signing s1 = signing s →
  session_step T s s' (NewBlock block) m (signing s !! m)
    (signing (handle_signing_timeouts T s1 block).1 !! m).
Proof.
  intros Hs. rewrite signing_timeouts_lookup, Hs.
  destruct (signing s !! m) as [x|] eqn:Hm; simpl; [|constructor].
  destruct (decide (signing_deadline x ≤ block)) as [Hd|Hd].
  - by apply (step_timeout _ _ _ _ _ block).
  - unfold session_timeout. rewrite decide_False by done. constructor.
Qed.

(** The housekeeping before the signing timeouts leaves the sessions alone. *)
Lemma after_rounds_sessions s block : sessions_fixed s (after_rounds T s block).
Proof.
  unfold after_rounds. destruct (rollover_new_block_sessions T s block) as [[H1 H2] _].
  destruct (rollover_only_sessions _ _ (key_gen_timeouts_only T
    (handle_rollover_new_block T s block).1 block)) as [H3 H4].
  by split; rewrite ?H3, ?H4.
Qed.

Lemma new_block_signing s block :
  signing (apply_new_block T s block).1 =
    signing (handle_signing_timeouts T (after_rounds T s block) block).1.
Proof.
  rewrite apply_new_block_state. cbn [fst]. unfold after_topup.
  destruct (reconciliation_fixed T (handle_nonce_topup T (after_sessions T s block)).1)
    as [_ [-> _]].
  by destruct (nonce_topup_fixed T (after_sessions T s block)) as [_ [-> _]].
Qed.

Lemma transition_step s msg : sessions_step s msg (apply_transition T s msg).1.
Proof.
  assert (∀ s', rollover_only s s' → sessions_step s msg s') as Hro.
  { intros s' H. by apply sessions_fixed_step, rollover_only_sessions. }
  destruct msg as [block|log|res]; simpl.
  - intros m. rewrite new_block_signing. apply signing_timeouts_step.
    by destruct (after_rounds_sessions s block).
  - unfold apply_event. destruct (log_data log) as [ev|ev|ev] eqn:Hev;
      destruct ev; try (by apply sessions_fixed_step); try (apply Hro; by auto with frames).
    + by apply epoch_staged_step.
    + by apply transaction_proposed_step.
    + by apply transaction_attested_step.
    + by apply key_gen_confirmed_step.
    + apply sessions_fixed_step, preprocess_fixed.
    + by apply sign_step.
    + by apply sign_revealed_step.
    + by apply sign_shared_step.
    + by apply sign_completed_step.
    + by apply oracle_result_step.
  - destruct res; simpl; try (by apply sessions_fixed_step).
    + apply Hro; by auto with frames.
    + apply sessions_fixed_step, nonce_tree_fixed.
    + rewrite nonce_commitments_fixed. by apply sessions_fixed_step.
    + rewrite nonces_fixed. by apply sessions_fixed_step.
Qed.
End refinement.

(** ** Properties *)

Section properties.
Context {AL : Alloy} {FL : FrostLib}.

(** [C1] Refinement of the session life cycle: whatever the state and the
    message, a transition of the validator moves the session of every message
    by one step of the abstract specification [session_step] (open, request,
    oracle approval or rejection, nonce reveals, shares, completion,
    attestation, timeout), or leaves it alone. *)
Theorem session_lifecycle T s msg m :
  session_step T s (apply_transition T s msg).1 msg m
    (signing s !! m) (signing (apply_transition T s msg).1 !! m).
Proof. apply transition_step. Qed.
End properties.
