(* ===== verification/KeyGenSafety.v ===== *)
(** * What a key generation is confirmed from

    Commitments, public key shares and secret shares are only kept after they
    were verified, and a key generation is only confirmed with a key share
    finalized from a verified share of every participant. *)

From S2P Require Import Prelude.
From S2P Require Import Bytes.
From S2P Require Import Epoch.
From S2P Require Import Bindings.
From S2P Require Import Alloy.
From S2P Require Import Group.
From S2P Require Import FrostLib.
From S2P Require Import Frost.
From S2P Require Import FrostKeygen.
From S2P Require Import FrostSign.
From S2P Require Import Core.
From S2P Require Import State.
From S2P Require Import Preprocessing.
From S2P Require Import Signing.
From S2P Require Import KeyGen.
From S2P Require Import Complaints.
From S2P Require Import Machine.
From S2P Require Import Frames.
From S2P Require Import RolloverInvariant.

Section definitions.
Context {AL : Alloy} {FL : FrostLib}.

(** A commitment that passed [verify_commitment]. *)
Definition commitment_verified (a : Address) (vc : VerifiedCommitment) : Prop :=
  ∃ c, verify_commitment a c = Ok vc.

(** A public key share that is the one the group commitment gives. *)
Definition public_key_verified (p : KeyGenParticipation) (a : Address)
    (pk : PublicKeyShare) : Prop :=
  pks_verifying_share pk =
    verifying_share_from_commitment (identifier a)
      (gc_group_commitment (participation_group_commitments p)).

(** A secret share the library verified, for this validator, against the
    dealer's own commitment. *)
Definition share_verified (T : Transition) (st : SharingState) (dealer : Address)
    (share : VerifiedShare) : Prop :=
  ∃ me commitment,
    secret_share_verify me (vs_package share) commitment = Ok () ∧
    (me = round2_identifier (ss_secret_package st) ∨
     me = identifier (Transition.account T)) ∧
    ((identifier dealer = round2_identifier (ss_secret_package st) ∧
      commitment = round2_commitment (ss_secret_package st)) ∨
     ∃ vc, gc_commitments (ss_group_commitments st) !! dealer = Some vc ∧
       commitment = (vc_package vc).1).

Definition key_gen_ok (T : Transition) (r : RolloverState) : Prop :=
  match r with
  | CollectingCommitments _ _ _ commitments _ =>
      map_Forall commitment_verified commitments
  | CollectingShares _ _ p public_keys shares _ _ =>
      map_Forall commitment_verified
        (gc_commitments (participation_group_commitments p)) ∧
      map_Forall (public_key_verified p) public_keys ∧
      match p with
      | Participating st => map_Forall (share_verified T st) shares
      | Observing _ => True
      end
  | CollectingConfirmations _ g p status _ _ _ =>
      map_Forall commitment_verified
        (gc_commitments (participation_group_commitments p)) ∧
      match p, status with
      | Participating st, Collecting shares => map_Forall (share_verified T st) shares
      | Participating st, Confirmed key_share =>
          ∃ shares, map_Forall (share_verified T st) shares ∧
            len_u16 shares = Group.count g ∧ finalize st shares = Ok key_share
      | _, _ => True
      end
  | _ => True
  end.
End definitions.

Section lemmas.
Context {AL : Alloy} {FL : FrostLib} (T : Transition).

Lemma verified_share_new_Ok me peer commitment secret share :
  verified_share_new me peer commitment secret = Ok share →
  secret_share_verify me (vs_package share) commitment = Ok ().
Proof.
  unfold verified_share_new, err_with_culprit, rmap_err, rbind.
  destruct (frost_scalar secret) as [z|]; [|done].
  destruct (secret_share_verify me z commitment) as [[]|] eqn:E; [|done].
  by intros [= <-].
Qed.

Lemma verify_encrypted_verified st a enc share :
  verify_encrypted_secret_share st a enc = Ok share → share_verified T st a share.
Proof.
  unfold verify_encrypted_secret_share. case_decide as Hme; simpl.
  - intros H%verified_share_new_Ok. eexists _, _. split; [exact H|]. eauto.
  - destruct (gc_commitments _ !! a) as [vc|] eqn:Hvc; simpl; [|done].
    destruct (share_index _ _ _) as [i|]; simpl; [|done].
    destruct (ess_shares enc !! i) as [e|]; simpl; [|done].
    intros H%verified_share_new_Ok. eexists _, _. split; [exact H|]. split; [by left|].
    right. eauto.
Qed.

Lemma verify_revealed_verified st a secret share :
  verify_revealed_secret_share (ss_group_commitments st) (Transition.account T) a secret =
    Ok share → share_verified T st a share.
Proof.
  unfold verify_revealed_secret_share.
  destruct (gc_commitments _ !! a) as [vc|] eqn:Hvc; simpl; [|done].
  intros H%verified_share_new_Ok. eexists _, _. split; [exact H|]. split; [by right|].
  right. eauto.
Qed.

Lemma verify_secret_share_public p a share pk enc :
  verify_secret_share (participation_group_commitments p) a share = Ok (pk, enc) →
  public_key_verified p a pk.
Proof.
  unfold verify_secret_share. case_decide; simpl; [done|].
  destruct (frost_point _) as [y|]; simpl; [|done]. case_decide; simpl; [done|].
  by intros [= <- _].
Qed.

Lemma rollover_failure_key_gen e : key_gen_ok T (rollover_failure e).
Proof. by destruct e. Qed.

Lemma start_key_gen_ok s e ps d : key_gen_ok T (rollover (start_key_gen T s e ps d).1).
Proof.
  unfold start_key_gen. destruct (participate_as _ _) as [[? ?]|]; simpl; apply map_Forall_empty.
Qed.

Lemma restart_ok s e ex d : key_gen_ok T (rollover (restart_key_gen_excluding T s e ex d).1).
Proof.
  unfold restart_key_gen_excluding. destruct e; [done|].
  destruct (epoch_participants _ _ _); [apply start_key_gen_ok|done].
Qed.

Lemma finalize_commitments_ok e g secrets comms d :
  map_Forall commitment_verified comms →
  key_gen_ok T (finalize_key_gen_commitments T e g secrets comms d).1.
Proof.
  intros Hc. unfold finalize_key_gen_commitments. destruct secrets as [secrets|]; simpl.
  - destruct (generate_secret_shares _ _) as [[st share]|] eqn:E; simpl;
      [|apply rollover_failure_key_gen].
    apply generate_secret_shares_Ok in E as [-> _]. split; [done|].
    split; apply map_Forall_empty.
  - unfold group_commitments. destruct (err_unexpected (group_commitment comms)); simpl;
      [|apply rollover_failure_key_gen].
    destruct (err_unexpected (verifying_key_from_commitment _)); simpl;
      [|apply rollover_failure_key_gen].
    split; [done|]. split; [apply map_Forall_empty|done].
Qed.

Lemma confirm_key_gen_Ok e g st shares dl status cs :
  confirm_key_gen T e g st shares dl = Ok (status, cs) →
  ∃ k, finalize st shares = Ok k ∧ status = Confirmed k.
Proof.
  unfold confirm_key_gen. destruct (finalize st shares) as [k|]; simpl; [|done].
  intros [= <- _]. eauto.
Qed.

Lemma accept_share_ok block g p pk sh dl ev pk' sh' cs :
  accept_share T block g p pk sh dl ev = (pk', sh', cs) →
  map_Forall (public_key_verified p) pk →
  (∀ st, p = Participating st → map_Forall (share_verified T st) sh) →
  map_Forall (public_key_verified p) pk' ∧
  (∀ st, p = Participating st → map_Forall (share_verified T st) sh').
Proof.
  intros Ha Hpk Hsh. unfold accept_share in Ha.
  destruct (verify_secret_share _ _ _) as [[pk1 enc]|] eqn:Hv; [|by simplify_eq].
  apply verify_secret_share_public in Hv.
  assert (map_Forall (public_key_verified p)
    (<[Coordinator.KeyGenSecretShared.participant ev := pk1]> pk)) as Hpk1.
  { by apply map_Forall_insert_2. }
  destruct p as [st|gc]; [|by simplify_eq].
  destruct (verify_encrypted_secret_share _ _ _) as [share|] eqn:He; simplify_eq;
    (split; [done|]); intros st' [= <-]; [|by apply Hsh].
  apply map_Forall_insert_2; [by eapply verify_encrypted_verified|by apply Hsh].
Qed.
End lemmas.

Section handlers.
Context {AL : Alloy} {FL : FrostLib} (T : Transition).

Lemma setup_key_gen_ok s gid secrets :
  key_gen_ok T (rollover s) → key_gen_ok T (rollover (handle_key_gen_setup T s gid secrets).1).
Proof.
  intros Hok. unfold handle_key_gen_setup.
  destruct (rollover s) as [| | | |e g [poap [sec|]|] comms dl| | |] eqn:Hr;
    try (simpl; by rewrite Hr).
  case_decide; [|simpl; by rewrite Hr]. case_decide; [done|].
  pose proof (finalize_commitments_ok T e g (Some secrets) comms
    ((λ d, saturating_add d (key_gen_timeout T)) <$> dl) Hok) as Hf.
  by destruct (finalize_key_gen_commitments _ _ _ _ _ _).
Qed.

Lemma committed_key_gen_ok s block ev :
  key_gen_ok T (rollover s) →
  key_gen_ok T (rollover (handle_key_gen_committed T s block ev).1).
Proof.
  intros Hok. unfold handle_key_gen_committed.
  destruct (rollover s) as [| | | |e g c comms dl| | |] eqn:Hr; try (simpl; by rewrite Hr).
  case_decide; [|simpl; by rewrite Hr]. cbv zeta.
  set (comms' := match verify_commitment _ _ with Ok _ => _ | Err _ => _ end).
  assert (map_Forall commitment_verified comms') as Hc.
  { subst comms'. destruct (verify_commitment _ _) as [vc|] eqn:Hv; [|done].
    apply map_Forall_insert_2; [by eexists|done]. }
  clearbody comms'. case_decide; [done|].
  assert (∀ sec d', key_gen_ok T (rollover (let '(rollover, commands) :=
    finalize_key_gen_commitments T e g sec comms' d' in
    (set_rollover rollover s, commands)).1)) as Hf.
  { intros. pose proof (finalize_commitments_ok T e g sec comms' d' Hc).
    by destruct (finalize_key_gen_commitments _ _ _ _ _ _). }
  destruct c as [poap [sec|]|]; [apply Hf|done|apply Hf].
Qed.

Lemma secret_shared_key_gen_ok s block ev :
  key_gen_ok T (rollover s) →
  key_gen_ok T (rollover (handle_key_gen_secret_shared T s block ev).1).
Proof.
  intros Hok. unfold handle_key_gen_secret_shared.
  destruct (rollover s) as [| | | | |e g p pk sh compl dl| |] eqn:Hr;
    try (simpl; by rewrite Hr).
  case_decide; [|simpl; by rewrite Hr]. cbv zeta. destruct Hok as (Hgc & Hpk & Hsh).
  destruct (accept_share _ _ _ _ _ _ _ _) as [[pk' sh'] cs] eqn:Ha.
  apply accept_share_ok in Ha as [Hpk' Hsh']; [|done|by intros st ->].
  case_decide.
  { simpl. split_and!; [done..|]. destruct p; [by apply Hsh'|done]. }
  destruct p as [st|gc]; [|done]. specialize (Hsh' st eq_refl).
  case_decide as Hlen; [|done].
  destruct (confirm_key_gen _ _ _ _ _ _) as [[status cs']|] eqn:Hc;
    [|apply rollover_failure_key_gen].
  apply confirm_key_gen_Ok in Hc as (k & Hk & ->). split; [done|]. by exists sh'.
Qed.

Lemma complained_key_gen_ok s block ev :
  key_gen_ok T (rollover s) →
  key_gen_ok T (rollover (handle_key_gen_complained T s block ev).1).
Proof.
  intros Hok. unfold handle_key_gen_complained.
  destruct (complaint_round _ _ _ _) as [round|] eqn:Hround; [|done]. simpl.
  assert (∀ compl, key_gen_ok T (cr_update round compl)) as Hup.
  { unfold complaint_round in Hround.
    destruct (rollover s); try done; case_decide; by simplify_eq/=. }
  case_decide; [apply restart_ok|]. repeat case_match; simpl; apply Hup.
Qed.

Lemma finish_collecting_key_gen_ok s e :
  key_gen_ok T (rollover s) → key_gen_ok T (rollover (finish_collecting T s e).1).
Proof.
  intros Hok. unfold finish_collecting.
  destruct (rollover s) as [| | | | | |e' g [st|] [|sh|] cf cp dl|] eqn:Hr;
    try (simpl; by rewrite Hr).
  case_decide as Hlen; [|simpl; by rewrite Hr].
  destruct (confirm_key_gen _ _ _ _ _ _) as [[status cs']|] eqn:Hc;
    [|apply rollover_failure_key_gen].
  apply confirm_key_gen_Ok in Hc as (k & Hk & ->). destruct Hok as [Hgc Hsh].
  split; [done|]. by exists sh.
Qed.

(** A share registered in answer to a complaint. *)
Lemma respond_share_ok st (sh : gmap Address VerifiedShare) plaintiff accused secret share :
  map_Forall (share_verified T st) sh →
  verify_revealed_secret_share (ss_group_commitments st) plaintiff accused secret = Ok share →
  map_Forall (share_verified T st)
    (if decide (plaintiff = Transition.account T) then <[accused := share]> sh else sh).
Proof.
  intros Hsh Hv. case_decide; [subst|done].
  apply map_Forall_insert_2; [by eapply verify_revealed_verified|done].
Qed.

Lemma complaint_responded_key_gen_ok s block ev :
  key_gen_ok T (rollover s) →
  key_gen_ok T (rollover (handle_key_gen_complaint_responded T s block ev).1).
Proof.
  intros Hok. unfold handle_key_gen_complaint_responded.
  destruct (response_round _ _ _) as [round|] eqn:Hround; [|done].
  destruct (rr_complaints round !! _); [|done]. case_decide; [done|].
  destruct (verify_revealed_secret_share _ _ _ _) as [share|] eqn:Hv; [|apply restart_ok].
  cbv zeta. apply finish_collecting_key_gen_ok. simpl.
  unfold response_round in Hround.
  destruct (rollover s) as [| | | | |e g p pk sh compl dl|e g p status cf compl dls|];
    try done; case_decide; simplify_eq/=.
  - destruct Hok as (Hgc & Hpk & Hsh). split_and!; [done..|]. destruct p; [|done].
    by eapply respond_share_ok.
  - destruct Hok as (Hgc & Hsh). split; [done|]. destruct p as [st|]; [|by destruct status].
    destruct status as [|sh|k]; simpl; [done| |done]. by eapply respond_share_ok.
Qed.

Lemma confirmed_key_gen_ok s block ev :
  key_gen_ok T (rollover s) →
  key_gen_ok T (rollover (handle_key_gen_confirmed T s block ev).1).
Proof.
  intros Hok. unfold handle_key_gen_confirmed.
  destruct (rollover s) as [| | | | | |e g p status conf compl dls|] eqn:Hr;
    try (simpl; by rewrite Hr).
  case_decide; [|simpl; by rewrite Hr]. cbv zeta. case_decide; [done|].
  destruct e as [|n]; [|done]. unfold confirm_genesis. cbv zeta.
  match goal with |- context [finalize_key_gen T ?s' Genesis g ?k] =>
    pose proof (finalize_key_gen_rollover T s' Genesis g k) as Hfin end.
  destruct (finalize_key_gen _ _ _ _ _) as [s1 cs1]. simpl in Hfin.
  destruct (epoch_participants _ _ _) as [ps|]; [|simpl; by rewrite Hfin].
  match goal with |- context [start_key_gen T s1 ?e ps ?d] =>
    pose proof (start_key_gen_ok T s1 e ps d) as Hst end.
  by destruct (start_key_gen _ _ _ _ _).
Qed.

Lemma epoch_staged_key_gen_ok s ev :
  key_gen_ok T (rollover s) → key_gen_ok T (rollover (handle_epoch_staged T s ev).1).
Proof.
  intros Hok. unfold handle_epoch_staged.
  destruct (rollover s) as [| | | | | | |n g ks m] eqn:Hr; try (simpl; by rewrite Hr).
  - simpl. by destruct (nonzero_new _).
  - case_decide; [|simpl; by rewrite Hr].
    pose proof (finalize_key_gen_rollover T (set_rollover (EpochStaged n) s) (Number n) g ks)
      as Hfin.
    destruct (finalize_key_gen _ _ _ _ _) as [s1 cs1]. simpl in Hfin.
    pose proof (sign_attested_rollover T s1 (Consensus.EpochStaged.signatureId ev) m) as Hatt.
    destruct (handle_sign_attested _ _ _ _) as [s2 cs2]. simpl in *. by rewrite Hatt, Hfin.
Qed.

Lemma new_block_key_gen_ok s block :
  key_gen_ok T (rollover s) → key_gen_ok T (rollover (apply_new_block T s block).1).
Proof.
  intros Hok. rewrite new_block_rollover. unfold after_rounds.
  assert (key_gen_ok T (rollover (handle_rollover_new_block T s block).1)) as H1.
  { unfold handle_rollover_new_block. destruct (_ ≫= _); [|done]. cbv zeta.
    case_decide; [done|]. destruct (epoch_participants _ _ _); [apply start_key_gen_ok|done]. }
  revert H1. generalize (handle_rollover_new_block T s block).1. clear.
  intros s Hok. unfold handle_key_gen_timeouts.
  destruct (stuck_setup _ _); [apply rollover_failure_key_gen|].
  destruct (timed_out _ _) as [[e ex]|]; [apply restart_ok|done].
Qed.

Lemma fixed_key_gen_ok s s' :
  key_gen_ok T (rollover s) → rollover_fixed s s' → key_gen_ok T (rollover s').
Proof. by intros Hok [-> _]. Qed.

Lemma transition_key_gen_ok s msg :
  key_gen_ok T (rollover s) → key_gen_ok T (rollover (apply_transition T s msg).1).
Proof.
  intros Hok.
  assert (∀ s', rollover_fixed s s' → key_gen_ok T (rollover s')) as Hfix.
  { intros s'. by apply fixed_key_gen_ok. }
  destruct msg as [block|[block idx addr [ev|ev|ev]]|res]; simpl.
  - by apply new_block_key_gen_ok.
  - unfold apply_event; simpl. destruct ev; try done.
    + by apply epoch_staged_key_gen_ok.
    + apply Hfix, transaction_proposed_fixed.
    + apply Hfix, transaction_attested_fixed.
  - unfold apply_event; simpl. destruct ev; try done.
    + unfold handle_genesis_key_gen. destruct (rollover s) eqn:Hr; try (simpl; by rewrite Hr).
      case_decide; [apply start_key_gen_ok|simpl; by rewrite Hr].
    + by apply committed_key_gen_ok.
    + by apply secret_shared_key_gen_ok.
    + by apply confirmed_key_gen_ok.
    + by apply complained_key_gen_ok.
    + by apply complaint_responded_key_gen_ok.
    + apply Hfix, preprocess_fixed.
    + apply Hfix, handle_sign_fixed.
    + apply Hfix, sign_revealed_fixed.
    + apply Hfix, sign_shared_fixed.
    + apply Hfix, sign_completed_fixed.
  - unfold apply_event; simpl. destruct ev. apply Hfix, oracle_result_fixed.
  - destruct res; simpl; try done.
    + by apply setup_key_gen_ok.
    + apply Hfix, nonce_tree_fixed.
    + by rewrite nonce_commitments_fixed.
    + by rewrite nonces_fixed.
Qed.
End handlers.

(** ** Properties *)

Section properties.
Context {AL : Alloy} {FL : FrostLib}.

(** [C29] In a reachable state everything a key generation has collected was
    verified: each commitment by its proof of knowledge, each public key share
    against the group commitment, each secret share against its dealer's
    commitment; and once the key generation is confirmed, the key share was
    finalized from verified shares of as many participants as the group has. *)
Theorem key_generation_verified T s :
  reachable T s → key_gen_ok T (rollover s).
Proof.
  induction 1 as [|s m _ IH]; [done|]. by apply transition_key_gen_ok.
Qed.
End properties.
