(* ===== verification/EpochInvariant.v ===== *)
(** * Invariants of the tracked epochs

    Which epochs a validator keeps, that the kept groups include it, that the
    active epoch only advances, and that an epoch's group and key share never
    change while the epoch is kept. *)

From S2P Require Import Prelude.
From S2P Require Import Bytes.
From S2P Require Import Epoch.
From S2P Require Import Bindings.
From S2P Require Import Alloy.
From S2P Require Import Group.
From S2P Require Import FrostLib.
From S2P Require Import Frost.
From S2P Require Import FrostKeygen.
From S2P Require Import FrostSign.
From S2P Require Import Core.
From S2P Require Import State.
From S2P Require Import Preprocessing.
From S2P Require Import Signing.
From S2P Require Import KeyGen.
From S2P Require Import Complaints.
From S2P Require Import Machine.
From S2P Require Import Frames.
From S2P Require Import RolloverInvariant.

Section definitions.
Context {AL : Alloy} {FL : FrostLib}.

(** The group and key share of each tracked epoch. *)
Definition membership (ep : Epoch) : Group.t * KeyShare :=
  (epoch_group ep, epoch_key_share ep).
Definition members (s : State) : gmap EpochId (Group.t * KeyShare) :=
  membership <$> epochs s.

(** How a transition changes the tracked epochs. *)
Inductive epochs_step (T : Transition) (s s' : State) (msg : Message) : Prop :=
  | epochs_keep : members s' = members s → epochs_step T s s' msg
  | epochs_reconcile block :
      msg = NewBlock block →
      members s' = btree_split_off (oldest_epoch s') (members s) →
      epochs_step T s s' msg
  | epochs_join e g k :
      rollover_group (rollover s) = Some (e, g) → is_member T g →
      EpochId.raw_value e < fresh_epoch (rollover s') →
      members s' = <[e := (g, k)]> (members s) →
      epochs_step T s s' msg.

Record epochs_ok (T : Transition) (s : State) : Prop := {
  eok_start : (∀ n, next_epoch (rollover s) ≠ Some (Number n)) →
    active_epoch s = Genesis ∧ members s = ∅;
  eok_active : ∀ n, next_epoch (rollover s) = Some (Number n) →
    EpochId.raw_value (active_epoch s) < nonzero_get n;
  eok_fresh : ∀ e gk, members s !! e = Some gk →
    EpochId.raw_value e < fresh_epoch (rollover s);
  eok_groups : ∀ e g k, members s !! e = Some (g, k) →
    group_ok T e g ∧ is_member T g;
}.
End definitions.

Section lemmas.
Context {AL : Alloy} {FL : FrostLib} (T : Transition).

Lemma members_lookup s e gk :
  members s !! e = Some gk ↔ ∃ ep, epochs s !! e = Some ep ∧ gk = membership ep.
Proof. unfold members. rewrite lookup_fmap_Some. naive_solver. Qed.

Lemma members_update e ep n s :
  epochs s !! e = Some ep → members (update_epoch e (with_nonces n ep) s) = members s.
Proof.
  intros He. unfold members, update_epoch. simpl. rewrite fmap_insert.
  apply insert_id. by rewrite lookup_fmap, He.
Qed.

Lemma observe_sequence_members gid seq s :
  members (observe_sequence gid seq s).2 = members s.
Proof.
  unfold observe_sequence. destruct (find_epoch _ _) as [[e ep]|] eqn:Hf; [|done].
  apply find_epoch_Some in Hf as [He _]. destruct (observe _ _) as [n ns].
  by apply members_update.
Qed.

Lemma members_epochs s s' : epochs s' = epochs s → members s' = members s.
Proof. unfold members. by intros ->. Qed.

Ltac solve_members :=
  cbv zeta; repeat case_match; simplify_eq/=; by (apply members_epochs).

Lemma handle_sign_members s block ev : members (handle_sign T s block ev).1 = members s.
Proof.
  unfold handle_sign.
  pose proof (observe_sequence_members (Coordinator.Sign.gid ev)
    (Coordinator.Sign.sequence ev) s) as Hm.
  destruct (observe_sequence _ _ _) as [nonce s1]. simpl in Hm. rewrite <-Hm.
  unfold accept_request. solve_members.
Qed.
Lemma oracle_result_members s block o ev :
  members (handle_oracle_result T s block o ev).1 = members s.
Proof. unfold handle_oracle_result. solve_members. Qed.
Lemma sign_revealed_members s block ev :
  members (handle_sign_revealed_nonces T s block ev).1 = members s.
Proof. unfold handle_sign_revealed_nonces. solve_members. Qed.
Lemma sign_shared_members s ev : members (handle_sign_shared T s ev).1 = members s.
Proof. unfold handle_sign_shared. solve_members. Qed.
Lemma sign_completed_members s block ev :
  members (handle_sign_completed T s block ev).1 = members s.
Proof. unfold handle_sign_completed. solve_members. Qed.
Lemma sign_attested_members s sid m :
  members (handle_sign_attested T s sid m).1 = members s.
Proof. unfold handle_sign_attested. solve_members. Qed.
Lemma transaction_proposed_members s block ev :
  members (handle_transaction_proposed T s block ev).1 = members s.
Proof. unfold handle_transaction_proposed. solve_members. Qed.

Lemma preprocess_members s ev : members (handle_preprocess T s ev).1 = members s.
Proof.
  unfold handle_preprocess. case_decide; [done|].
  destruct (find_epoch _ _) as [[e ep]|] eqn:Hf; [|done].
  apply find_epoch_Some in Hf as [He _]. by apply members_update.
Qed.
Lemma nonce_tree_members s gid c : members (handle_nonce_tree T s gid c).1 = members s.
Proof.
  unfold handle_nonce_tree. destruct (find_epoch _ _) as [[e ep]|] eqn:Hf; [|done].
  apply find_epoch_Some in Hf as [He _]. by apply members_update.
Qed.
Lemma nonce_topup_members s : members (handle_nonce_topup T s).1 = members s.
Proof.
  unfold handle_nonce_topup. destruct (epochs s !! _) as [ep|] eqn:He; [|done].
  case_decide; [done|]. destruct (reserve_chunk _) as [[chunk|] ns]; [|done].
  by apply members_update.
Qed.

Lemma rollover_only_members s s' : rollover_only s s' → members s' = members s.
Proof. intros ->. done. Qed.

Lemma reconciliation_members s :
  members (handle_group_reconciliation T s).1 =
    btree_split_off (oldest_epoch s) (members s).
Proof.
  unfold handle_group_reconciliation, members. simpl.
  apply map_eq. intros e. rewrite lookup_fmap, !lookup_btree_split_off, lookup_fmap.
  by case_decide.
Qed.

Lemma reconciliation_oldest s :
  oldest_epoch (handle_group_reconciliation T s).1 = oldest_epoch s.
Proof. done. Qed.

Lemma new_block_members s block :
  members (apply_new_block T s block).1 =
    btree_split_off (oldest_epoch (apply_new_block T s block).1) (members s).
Proof.
  rewrite apply_new_block_state, reconciliation_oldest, reconciliation_members. f_equal.
  unfold after_topup, after_sessions, after_rounds. rewrite nonce_topup_members.
  transitivity (members (after_rounds T s block)); [done|].
  transitivity (members (handle_rollover_new_block T s block).1).
  - apply rollover_only_members, key_gen_timeouts_only.
  - apply members_epochs. by destruct (rollover_new_block_sessions T s block).
Qed.

Lemma finalize_key_gen_members s e g ks :
  members (finalize_key_gen T s e g ks).1 =
    match ks with Some k => <[e := (g, k)]> (members s) | None => members s end.
Proof. destruct ks; [|done]. unfold members. simpl. by rewrite fmap_insert. Qed.

Lemma confirm_genesis_members s block g status :
  members (confirm_genesis T s block g status).1 =
    match confirmation_key_share status with
    | Some k => <[Genesis := (g, k)]> (members s)
    | None => members s
    end.
Proof.
  unfold confirm_genesis. cbv zeta. set (n := next_number _ _).
  pose proof (finalize_key_gen_members (set_rollover (EpochSkipped n) s) Genesis g
    (confirmation_key_share status)) as Hfin.
  destruct (finalize_key_gen _ _ _ _ _) as [s1 cs1]. simpl in Hfin.
  destruct (epoch_participants T n ∅) as [ps|]; [|done].
  match goal with |- context [start_key_gen T s1 ?e ps ?d] =>
    pose proof (start_key_gen_only T s1 e ps d) as Hst end.
  destruct (start_key_gen _ _ _ _ _) as [s2 cs2]. simpl in *.
  by rewrite (rollover_only_members _ _ Hst).
Qed.

Lemma confirm_genesis_epoch s block g status :
  ∃ n, next_epoch (rollover (confirm_genesis T s block g status).1) = Some (Number n) ∧
    fresh_epoch (rollover (confirm_genesis T s block g status).1) = nonzero_get n.
Proof.
  unfold confirm_genesis, finalize_key_gen, start_key_gen. cbv zeta.
  exists (next_number block (blocks_per_epoch T)).
  repeat case_match; simplify_eq/=; done.
Qed.
End lemmas.

Section invariant.
Context {AL : Alloy} {FL : FrostLib} (T : Transition).
Context (HT : Transition_ok T).

Lemma members_keep s s' msg : members s' = members s → epochs_step T s s' msg.
Proof. apply epochs_keep. Qed.

Lemma rollover_only_epochs_step s s' msg : rollover_only s s' → epochs_step T s s' msg.
Proof. intros H. by apply members_keep, rollover_only_members. Qed.

Lemma key_gen_confirmed_epochs s block ev msg :
  rollover_ok T (rollover s) →
  epochs_step T s (handle_key_gen_confirmed T s block ev).1 msg.
Proof.
  intros Hok. unfold handle_key_gen_confirmed.
  destruct (rollover s) as [| | | | | |e g p status conf compl dls|] eqn:Hr;
    try by apply members_keep.
  case_decide; [|by apply members_keep]. cbv zeta.
  case_decide; [by apply members_keep|]. destruct Hok as (_ & Hm & Hst & _).
  destruct e as [|n].
  - pose proof (confirm_genesis_members T s block g status) as Hmem.
    destruct (confirm_genesis_epoch T s block g status) as (n & _ & Hfr).
    destruct (confirmation_key_share status) as [k|] eqn:Hks; [|by apply members_keep].
    eapply (epochs_join _ _ _ _ Genesis g k); [by rewrite Hr| |by rewrite Hfr|done].
    apply Hm, Hst. by destruct status.
  - unfold confirm_epoch. cbv zeta. apply members_keep.
    by destruct (epochs s !! active_epoch s).
Qed.

Lemma epoch_staged_epochs s ev msg :
  rollover_ok T (rollover s) → epochs_step T s (handle_epoch_staged T s ev).1 msg.
Proof.
  intros Hok. unfold handle_epoch_staged.
  destruct (rollover s) as [| | | | | | |n g ks m] eqn:Hr; try by apply members_keep.
  case_decide; [|by apply members_keep]. destruct Hok as [_ Hm].
  pose proof (finalize_key_gen_members T (set_rollover (EpochStaged n) s) (Number n) g ks)
    as Hfin.
  pose proof (finalize_key_gen_rollover T (set_rollover (EpochStaged n) s) (Number n) g ks)
    as Hfinr.
  destruct (finalize_key_gen _ _ _ _ _) as [s1 c1]. simpl in Hfin, Hfinr.
  pose proof (sign_attested_members T s1 (Consensus.EpochStaged.signatureId ev) m) as Ha.
  pose proof (sign_attested_rollover T s1 (Consensus.EpochStaged.signatureId ev) m) as Har.
  destruct (handle_sign_attested _ _ _ _) as [s2 c2]. simpl in *.
  destruct ks as [k|].
  - apply (epochs_join _ _ _ _ (Number n) g k).
    + by rewrite Hr.
    + apply Hm. eauto.
    + rewrite Har, Hfinr. simpl. lia.
    + by rewrite Ha, Hfin.
  - apply members_keep. by rewrite Ha, Hfin.
Qed.

(** Every transition changes the tracked epochs as specified. *)
Lemma transition_epochs s msg :
  rollover_ok T (rollover s) → epochs_step T s (apply_transition T s msg).1 msg.
Proof.
  intros Hok. destruct msg as [block|log|res]; simpl.
  - apply (epochs_reconcile _ _ _ _ block); [done|]. apply new_block_members.
  - unfold apply_event. destruct (log_data log) as [ev|ev|ev]; destruct ev;
      try (by apply members_keep); try (apply rollover_only_epochs_step; by auto with frames).
    + by apply epoch_staged_epochs.
    + apply members_keep, transaction_proposed_members.
    + apply members_keep, sign_attested_members.
    + by apply key_gen_confirmed_epochs.
    + apply members_keep, preprocess_members.
    + apply members_keep, handle_sign_members.
    + apply members_keep, sign_revealed_members.
    + apply members_keep, sign_shared_members.
    + apply members_keep, sign_completed_members.
    + apply members_keep, oracle_result_members.
  - destruct res; simpl; try (by apply members_keep).
    + apply rollover_only_epochs_step; by auto with frames.
    + apply members_keep, nonce_tree_members.
    + rewrite nonce_commitments_fixed. by apply members_keep.
    + rewrite nonces_fixed. by apply members_keep.
Qed.

(** ** The active epoch *)

(** The active epoch only changes when a staged epoch is due. *)
Definition active_step (s s' : State) : Prop :=
  active_epoch s' = active_epoch s ∨
  ∃ p n, rollover s = EpochStaged p ∧ active_epoch s' = Number p ∧
    next_epoch (rollover s') = Some (Number n) ∧ nonzero_get p < nonzero_get n.

Lemma rollover_new_block_active s block :
  active_step s (handle_rollover_new_block T s block).1.
Proof.
  unfold handle_rollover_new_block, active_step.
  destruct (next_epoch (rollover s)) as [[|t]|] eqn:He; simpl; [by left| |by left].
  cbv zeta. set (n := next_number _ _). case_decide; [by left|].
  destruct (rollover s) as [| |p| | | | |] eqn:Hr;
    try (left; unfold start_key_gen; by repeat case_match).
  right. exists p, n. simplify_eq/=. unfold start_key_gen.
  destruct (epoch_participants T n ∅) as [ps|]; [|split_and!; [done..|lia]].
  destruct (participate_as _ _) as [[? ?]|]; split_and!; done || lia.
Qed.

Lemma new_block_active s block :
  rollover_ok T (rollover s) → active_step s (apply_new_block T s block).1.
Proof.
  intros Hok. unfold active_step. rewrite new_block_rollover.
  assert (active_epoch (apply_new_block T s block).1 =
    active_epoch (handle_rollover_new_block T s block).1) as ->.
  { rewrite apply_new_block_state. unfold after_topup.
    destruct (reconciliation_fixed T (handle_nonce_topup T (after_sessions T s block)).1)
      as [[_ ->] _].
    destruct (nonce_topup_fixed T (after_sessions T s block)) as [[_ ->] _].
    unfold after_sessions. cbn. unfold after_rounds.
    by rewrite (rollover_only_active _ _ (key_gen_timeouts_only _ _ _)). }
  destruct (rollover_new_block_active s block) as [->|(p & n & Hr & -> & Hn & Hlt)];
    [by left|]. right. exists p, n. split; [done|]. split; [done|]. split; [|done].
  apply key_gen_timeouts_number; [done|].
  by destruct (rollover_new_block_cases T s block) as [->|(?&?&_&_&_&_&[? _ _ _])].
Qed.

Lemma confirmed_active s block ev :
  active_epoch (handle_key_gen_confirmed T s block ev).1 = active_epoch s.
Proof.
  unfold handle_key_gen_confirmed, confirm_genesis, confirm_epoch, finalize_key_gen,
    start_key_gen. cbv zeta.
  repeat case_match; simplify_eq/=; done.
Qed.

Lemma epoch_staged_active s ev :
  active_epoch (handle_epoch_staged T s ev).1 = active_epoch s.
Proof.
  unfold handle_epoch_staged, finalize_key_gen, handle_sign_attested. cbv zeta.
  repeat case_match; simplify_eq/=; done.
Qed.

Lemma transition_active s msg :
  rollover_ok T (rollover s) → active_step s (apply_transition T s msg).1.
Proof.
  intros Hok.
  assert (∀ s', rollover_only s s' → active_step s s') as Hro.
  { intros s' H. left. by apply rollover_only_active. }
  assert (∀ s', rollover_fixed s s' → active_step s s') as Hfix.
  { intros s' [_ H]. by left. }
  destruct msg as [block|log|res]; simpl.
  - by apply new_block_active.
  - unfold apply_event. destruct (log_data log) as [ev|ev|ev]; destruct ev;
      try (by left); try (apply Hro; by auto with frames).
    + left. apply epoch_staged_active.
    + apply Hfix, transaction_proposed_fixed.
    + apply Hfix, sign_attested_fixed.
    + left. apply confirmed_active.
    + apply Hfix, preprocess_fixed.
    + apply Hfix, handle_sign_fixed.
    + apply Hfix, sign_revealed_fixed.
    + apply Hfix, sign_shared_fixed.
    + apply Hfix, sign_completed_fixed.
    + apply Hfix, oracle_result_fixed.
  - destruct res; simpl; try (by left).
    + apply Hro; by auto with frames.
    + apply Hfix, nonce_tree_fixed.
    + rewrite nonce_commitments_fixed. by left.
    + rewrite nonces_fixed. by left.
Qed.

(** ** Preservation *)

Lemma rollover_epoch_number r n :
  next_epoch r = Some (Number n) → rollover_epoch r = nonzero_get n.
Proof. unfold rollover_epoch. by intros ->. Qed.

Lemma rollover_epoch_zero r :
  rollover_epoch r = 0 ↔ ∀ n, next_epoch r ≠ Some (Number n).
Proof. unfold rollover_epoch. destruct (next_epoch r) as [[]|]; naive_solver. Qed.

Lemma no_epoch_fresh r : (∀ n, next_epoch r ≠ Some (Number n)) → fresh_epoch r = 0.
Proof.
  intros H. destruct r as [| | | |[]|[]|[]|]; simpl; try done;
    by (edestruct H; simpl).
Qed.

Lemma transition_epochs_ok s msg :
  rollover_ok T (rollover s) → epochs_ok T s → epochs_ok T (apply_transition T s msg).1.
Proof using HT.
  intros Hr [Hs Ha Hf Hg].
  pose proof (transition_progress T HT s msg Hr) as [Hok' Hlim Hep Hfr _].
  pose proof (transition_epochs s msg Hr) as Hes.
  pose proof (transition_active s msg Hr) as Hact.
  set (s' := (apply_transition T s msg).1) in *.
  assert (∀ e gk, members s' !! e = Some gk → members s !! e = Some gk ∨
    ∃ g k, gk = (g, k) ∧ rollover_group (rollover s) = Some (e, g) ∧ is_member T g ∧
      EpochId.raw_value e < fresh_epoch (rollover s')) as Hmem.
  { intros e gk He. destruct Hes as [E|block _ E|e' g k Hrg Hm Hlt E]; rewrite E in He.
    - by left.
    - left. by apply lookup_btree_split_off_Some in He as [_ He].
    - apply lookup_insert_Some in He as [[<- <-]|[_ He]]; [right|by left].
      by exists g, k. }
  split.
  - intros Hn'. pose proof (no_epoch_fresh _ Hn') as Hf0.
    assert (∀ n, next_epoch (rollover s) ≠ Some (Number n)) as Hn.
    { apply rollover_epoch_zero. apply rollover_epoch_zero in Hn'.
      lia. }
    destruct (Hs Hn) as [Ha0 Hm0]. split.
    + destruct Hact as [->|(p & n & _ & _ & Hx & _)]; [done|by edestruct Hn'].
    + apply map_empty. intros e. destruct (members s' !! e) as [gk|] eqn:He; [|done].
      apply Hmem in He as [He|(g & k & _ & _ & _ & Hlt)]; [|lia].
      by rewrite Hm0 in He.
  - intros n' Hn'. apply rollover_epoch_number in Hn' as Hn''.
    destruct Hact as [->|(p & n & _ & -> & Hx & Hlt)]; [|simpl; naive_solver].
    destruct (decide (rollover_epoch (rollover s) = 0)) as [Hz|Hz].
    + rewrite rollover_epoch_zero in Hz. destruct (Hs Hz) as [-> _]. done.
    + destruct (next_epoch (rollover s)) as [[|n]|] eqn:Hn;
        unfold rollover_epoch in Hz; rewrite Hn in Hz; try done.
      specialize (Ha n eq_refl). apply rollover_epoch_number in Hn. lia.
  - intros e gk [He|(g & k & -> & _ & _ & Hlt)]%Hmem; [|done].
    apply Hf in He. lia.
  - intros e g k [He|(g' & k' & E & Hrg & Hm & _)]%Hmem; [by eapply Hg|].
    simplify_eq. split; [|done]. destruct (rollover s); simplify_eq/=; by destruct Hr.
Qed.

Lemma reachable_epochs_ok s : reachable T s → epochs_ok T s.
Proof using HT.
  intros H. assert (rollover_ok T (rollover s) ∧ epochs_ok T s) as [_ ?]; [|done].
  revert s H. apply (reachable_ind_inv T (λ s, rollover_ok T (rollover s) ∧ epochs_ok T s)).
  - split; [done|]. split; done.
  - intros s m [Hr He]. split; [by apply transition_progress|by apply transition_epochs_ok].
Qed.
End invariant.

(** ** Properties *)

Section properties.
Context {AL : Alloy} {FL : FrostLib}.

(** [C33] From any reachable state, no message moves the active epoch back,
    and the group and key share of an epoch that stays tracked never
    change. *)
Theorem epochs_only_advance T s msg :
  Transition_ok T → reachable T s →
  let s' := (apply_transition T s msg).1 in
  EpochId.raw_value (active_epoch s) ≤ EpochId.raw_value (active_epoch s') ∧
  ∀ e gk gk', members s !! e = Some gk → members s' !! e = Some gk' → gk' = gk.
Proof.
  intros HT Hs. cbv zeta. pose proof (reachable_rollover_ok T HT s Hs) as Hr.
  pose proof (reachable_epochs_ok T HT s Hs) as [Hstart Ha Hf Hg]. split.
  - destruct (transition_active T s msg Hr) as [->|(p & n & Hp & Hp' & _)]; [done|].
    rewrite Hp'. specialize (Ha p). rewrite Hp in Ha. simpl in *.
    specialize (Ha eq_refl). lia.
  - intros e gk gk' He He'.
    destruct (transition_epochs T s msg Hr) as [E|block _ E|e' g k Hrg _ _ E];
      rewrite E in He'.
    + congruence.
    + apply lookup_btree_split_off_Some in He' as [_ He']. congruence.
    + apply lookup_insert_Some in He' as [[<- _]|[_ He']]; [|congruence].
      apply Hf in He. apply rollover_group_fresh in Hrg as [Hfr _]. lia.
Qed.

(** Every tracked epoch of a reachable state belongs to a group of the
    configuration that includes this validator, tolerates a third of the
    default participants being malicious, and has a threshold it can
    reach. *)
Theorem tracked_groups_sound T s n g k M :
  Transition_ok T → reachable T s → members s !! Number n = Some (g, k) →
  3 * M ≤ set_len (default_addresses
    (ValidatorConfig.participants (Transition.config T))
    (EpochNumber (ValidatorConfig.consensus (Transition.config T)) n ∅)) →
  Transition.account T ∈ Group.participants g ∧
  M < Group.threshold g ∧ Group.threshold g ≤ Group.count g.
Proof.
  intros HT Hs He HM. pose proof (reachable_epochs_ok T HT s Hs) as [_ _ _ Hg].
  destruct (Hg _ _ _ He) as [(ps & [ex Hps] & ->) Hm].
  split; [done|]. unfold epoch_participants in Hps.
  destruct (participants_tolerate _ _ _ M Hps) as (? & _ & ? & _); [done|done].
Qed.
End properties.
