(* ===== verification/SessionInvariant.v ===== *)
(** * Invariants of the signing sessions

    What every tracked session satisfies, derived from the specification of
    its life: it is keyed by the hash of its packet, it signs with the key
    share and group of an epoch that is still tracked, and the signers it waits
    for include this validator. *)

From S2P Require Import Prelude.
From S2P Require Import Bytes.
From S2P Require Import Epoch.
From S2P Require Import Bindings.
From S2P Require Import Alloy.
From S2P Require Import Group.
From S2P Require Import Hashing.
From S2P Require Import FrostLib.
From S2P Require Import Frost.
From S2P Require Import FrostKeygen.
From S2P Require Import FrostSign.
From S2P Require Import Core.
From S2P Require Import State.
From S2P Require Import Preprocessing.
From S2P Require Import Signing.
From S2P Require Import KeyGen.
From S2P Require Import Complaints.
From S2P Require Import Machine.
From S2P Require Import Frames.
From S2P Require Import RolloverInvariant.
From S2P Require Import Lifecycle.
From S2P Require Import EpochInvariant.

Section definitions.
Context {AL : Alloy} {FL : FrostLib}.

(** The key share and group identifier a session signs with. *)
Definition signing_keys (x : SigningState) : option (KeyShare * B256) :=
  match x with
  | WaitingForRequest k g _ _ _ _
  | WaitingForOracle k _ g _ _ _ _ _
  | CollectNonceCommitments k g _ _ _ _ _ _ _
  | CollectSigningShares k g _ _ _ _ _ _ => Some (k, g)
  | WaitingForAttestation _ _ _ => None
  end.

(** The signers a session waits for. *)
Definition signing_signers (x : SigningState) : option (gset Address) :=
  match x with
  | WaitingForRequest _ _ _ _ signers _
  | WaitingForOracle _ _ _ _ _ _ signers _
  | CollectNonceCommitments _ _ _ _ _ _ _ signers _
  | CollectSigningShares _ _ _ _ _ _ signers _ => Some signers
  | WaitingForAttestation _ _ _ => None
  end.

Definition packet_ok (T : Transition) (limit : N) (p : Packet) : Prop :=
  match p with
  | EpochRollover _ n _ _ _ => nonzero_get n < limit
  | Transaction _ oracle _ _ => oracle ∈ ValidatorConfig.oracles (Transition.config T)
  end.

(** What each state of a session records about the round. *)
Definition round_ok (x : SigningState) : Prop :=
  match x with
  | WaitingForOracle _ oracle _ _ _ p _ _ => ∃ e data tx, p = Transaction e oracle data tx
  | CollectNonceCommitments _ _ _ _ revealed _ _ signers _ => dom revealed ⊆ signers
  | CollectSigningShares _ _ _ revealed _ _ signers _ => dom revealed = signers
  | _ => True
  end.

Record session_ok (T : Transition) (mem : gmap EpochId (Group.t * KeyShare)) (limit : N)
    (m : B256) (x : SigningState) : Prop := {
  sok_key : packet_message (Transition.consensus T) (signing_packet x) = m;
  sok_member : ∃ g k, mem !! packet_epoch (signing_packet x) = Some (g, k) ∧
    ∀ k' gid, signing_keys x = Some (k', gid) → k' = k ∧ gid = Group.id g;
  sok_packet : packet_ok T limit (signing_packet x);
  sok_account : ∀ signers, signing_signers x = Some signers →
    Transition.account T ∈ signers;
  sok_round : round_ok x;
}.

Definition sessions_ok (T : Transition) (s : State) : Prop :=
  ∀ m x, signing s !! m = Some x →
    session_ok T (members s) (rollover_limit (rollover s)) m x.
End definitions.

Section lemmas.
Context {AL : Alloy} {FL : FrostLib} (T : Transition).

(** A session that survives its deadline waits for a new request from fewer
    or re-selected signers, enough of them to sign and including this
    validator. *)
Lemma session_timeout_kept block nd m x y :
  signing_deadline x ≤ block → kept (session_timeout T block nd m x) = Some y →
  ∃ k g r p signers, y = WaitingForRequest k g r p signers nd ∧
    signing_keys x = Some (k, g) ∧ signing_packet x = p ∧
    Transition.account T ∈ signers ∧ key_share_group_threshold k ≤ set_len signers.
Proof.
  intros Hd. unfold session_timeout. rewrite decide_True by done.
  destruct x as [k g [r|] p signers d|k o g sid nc p signers d
                |k g sid nc rev last p signers d|k g sid rev sel p signers d|sid p d];
    simpl; try done; unfold restart_signing_ceremony; case_decide as Hc; try done;
    intros [= <-]; eexists _, _, _, _, _; (split_and!; [done..| |]);
    first [by apply dec_stable; intros ?; apply Hc; right
          |apply N.le_ngt; intros ?; apply Hc; by left].
Qed.

Lemma track_reveal_dom signers ev rev last rev' last' :
  track_reveal signers ev rev last = (rev', last') → dom rev ⊆ signers →
  dom rev' ⊆ signers.
Proof.
  unfold track_reveal. case_decide; [|intros; by simplify_eq].
  destruct (verify_revealed_nonces _ _) as [n|]; intros; simplify_eq; [|done].
  rewrite dom_insert. set_solver.
Qed.

Lemma revealed_all (rev : gmap Address RevealedNonces) (signers : gset Address) :
  dom rev ⊆ signers → set_len signers ≤ btree_len rev → dom rev = signers.
Proof.
  unfold set_len, btree_len. intros Hsub Hle. apply set_subseteq_size_eq; [done|].
  rewrite size_dom. lia.
Qed.

Lemma session_ok_limit mem l l' m x :
  session_ok T mem l m x → l ≤ l' → session_ok T mem l' m x.
Proof.
  intros [? ? Hp ? ?] Hl. split; [done..| |done|done].
  destruct (signing_packet x); simpl in *; [lia|done].
Qed.

(** One step of a session preserves its invariant. *)
Lemma session_step_ok s s' msg m x y :
  session_step T s s' msg m x (Some y) → epochs_ok T s →
  rollover_limit (rollover s) ≤ rollover_limit (rollover s') →
  (∀ x', x = Some x' → session_ok T (members s) (rollover_limit (rollover s)) m x') →
  session_ok T (members s) (rollover_limit (rollover s')) m y.
Proof.
  intros Hstep Hep Hlim Hx.
  assert (∀ x', x = Some x' →
    session_ok T (members s) (rollover_limit (rollover s')) m x') as Hx'.
  { intros x' H. eapply session_ok_limit; [by apply Hx|done]. }
  clear Hx. remember (Some y) as y0 eqn:Ey. revert Ey.
  destruct Hstep as
    [x|e o data tx ep d He Ho ->|x n g p st cf cp dls pt b key ep d Hr He -> Hr'
    |k g r e o data tx sg d sid nc d' _|k g r a n b gid' key sg d sid nc d' _|
    |k o g sid nc p sg d d' _| |k g sid nc rev l p sg d ev rev' l' _ Htr Hlt
    |k g sid nc rev l p sg d ev rev' l' d' _ Htr Hle|k g sid rev sel p sg d ev
    |k g sid rev sel p sg d d'| |block x -> Hd]; intros Ey; simplify_eq.
  - by apply Hx'.
  - assert (members s !! e = Some (membership ep)) as Hm.
    { unfold members. by rewrite lookup_fmap, He. }
    split; simpl; [done| |done| |done].
    + exists (epoch_group ep), (epoch_key_share ep). naive_solver.
    + intros ? [= <-]. by eapply (eok_groups _ _ Hep).
  - assert (members s !! active_epoch s = Some (membership ep)) as Hm.
    { unfold members. by rewrite lookup_fmap, He. }
    split; simpl; [done| | | |done].
    + exists (epoch_group ep), (epoch_key_share ep). naive_solver.
    + rewrite Hr'. simpl. lia.
    + intros ? [= <-]. by eapply (eok_groups _ _ Hep).
  - destruct (Hx' _ eq_refl) as [? ? ? ? ?]. split; try done; simpl; by eauto.
  - destruct (Hx' _ eq_refl) as [? ? ? ? ?]. split; try done; apply empty_subseteq.
  - destruct (Hx' _ eq_refl) as [? ? ? ? ?]. split; try done; apply empty_subseteq.
  - destruct (Hx' _ eq_refl) as [? ? ? ? ?]. split; try done. simpl in *.
    by eapply track_reveal_dom.
  - destruct (Hx' _ eq_refl) as [? ? ? ? ?]. split; try done. simpl in *.
    apply revealed_all; [|done]. by eapply track_reveal_dom.
  - by destruct (Hx' _ eq_refl) as [? ? ? ? ?].
  - destruct (Hx' _ eq_refl) as [? (g' & k' & ? & ?) ? ? ?]. split; try done.
    by exists g', k'.
  - apply session_timeout_kept in Ey
      as (k & g & r & p & sg & -> & Hk & <- & Hacc & _); [|done].
    destruct (Hx' _ eq_refl) as [? (g' & k' & ? & Hk') ? ? ?]. split; try done; simpl.
    + exists g', k'. split; [done|]. intros ?? [= <- <-]. by apply Hk'.
    + by intros ? [= <-].
Qed.

(** A session keeps its epoch. *)
Lemma session_ok_members s s' msg m x :
  epochs_step T s s' msg → epochs_ok T s → signing s' !! m = Some x →
  session_ok T (members s) (rollover_limit (rollover s')) m x →
  session_ok T (members s') (rollover_limit (rollover s')) m x.
Proof.
  intros Hes Hep Hx [? (g & k & Hm & Hk) ? ? ?]. split; [done| |done..].
  exists g, k. split; [|done].
  destruct Hes as [->|block _ ->|e g' k' Hg _ _ ->]; [done| |].
  - apply lookup_btree_split_off_Some. split; [|done].
    destruct (oldest_epoch_spec s') as [_ Hold]. by eapply Hold.
  - apply lookup_insert_Some. right. split; [|done]. intros Heq.
    rewrite <-Heq in Hm. apply (eok_fresh _ _ Hep) in Hm.
    apply rollover_group_fresh in Hg as [Hfr _]. lia.
Qed.
End lemmas.

Section invariant.
Context {AL : Alloy} {FL : FrostLib} (T : Transition).
Context (HT : Transition_ok T).

Lemma transition_sessions_ok s msg :
  rollover_ok T (rollover s) → epochs_ok T s → sessions_ok T s →
  sessions_ok T (apply_transition T s msg).1.
Proof using HT.
  intros Hr Hep Hs m y Hy.
  apply (session_ok_members _ s _ msg); [by apply transition_epochs|done|done|].
  pose proof (transition_step T s msg m) as Hstep. rewrite Hy in Hstep.
  eapply session_step_ok; [exact Hstep|done| |].
  - by apply transition_progress.
  - intros x Hx. by apply Hs.
Qed.

Lemma reachable_sessions_ok s : reachable T s → sessions_ok T s.
Proof using HT.
  induction 1 as [|s m Hs IH]; [done|].
  apply transition_sessions_ok; [by apply reachable_rollover_ok|
    by apply reachable_epochs_ok|done].
Qed.
End invariant.

(** ** Properties *)

Section properties.
Context {AL : Alloy} {FL : FrostLib}.

(** [C30] Every session of a reachable state is keyed by the hash of its own
    packet, signs with the key share and group of an epoch that is still
    tracked, names a configured oracle (or proposes an epoch that a rollover has
    reached: no later than the one that is being signed or staged, or else earlier
    than the one the rollover works towards, since the session of a rollover that
    was superseded runs on until its deadline), waits for signers that include
    this validator, and once it collects shares has the nonces of exactly its
    signers. *)
Theorem sessions_well_formed T s m x :
  Transition_ok T → reachable T s → signing s !! m = Some x →
  session_ok T (members s) (rollover_limit (rollover s)) m x.
Proof. intros HT Hs. by apply reachable_sessions_ok. Qed.
End properties.
