(* ===== verification/IndexInvariant.v ===== *)
(** * The index of signature identifiers

    Events of a signing round name the signature, not the message; the index
    [signature_id_to_message] finds the session. Every entry of the index leads
    to a session of that signature. *)

From S2P Require Import Prelude.
From S2P Require Import Bytes.
From S2P Require Import Epoch.
From S2P Require Import Bindings.
From S2P Require Import Alloy.
From S2P Require Import Group.
From S2P Require Import Hashing.
From S2P Require Import FrostLib.
From S2P Require Import Frost.
From S2P Require Import FrostKeygen.
From S2P Require Import FrostSign.
From S2P Require Import Core.
From S2P Require Import State.
From S2P Require Import Preprocessing.
From S2P Require Import Signing.
From S2P Require Import KeyGen.
From S2P Require Import Complaints.
From S2P Require Import Machine.
From S2P Require Import Frames.
From S2P Require Import RolloverInvariant.
From S2P Require Import Lifecycle.
From S2P Require Import EpochInvariant.
From S2P Require Import SessionInvariant.

Section definitions.
Context {AL : Alloy} {FL : FrostLib}.

Definition index_leads (sg : gmap B256 SigningState) (ix : gmap B256 B256) : Prop :=
  ∀ sid m, ix !! sid = Some m →
    ∃ x, sg !! m = Some x ∧ signing_signature_id x = Some sid.

Definition index_ok (s : State) : Prop :=
  index_leads (signing s) (signature_id_to_message s).

(** Rollover packets with the same hash propose the same epoch, and no other
    packet has the hash of a rollover packet. *)
Definition rollover_hash_binding (T : Transition) : Prop := ∀ a n b gid key q,
  packet_message (Transition.consensus T) (EpochRollover a n b gid key) =
    packet_message (Transition.consensus T) q →
  ∃ a' b' gid' key', q = EpochRollover a' n b' gid' key'.
End definitions.

Section lemmas.
Context {AL : Alloy} {FL : FrostLib}.
Implicit Types (sg : gmap B256 SigningState) (ix : gmap B256 B256).

(** The session of [m] keeps the signature of the one it replaces. *)
Lemma index_leads_insert sg ix m y :
  index_leads sg ix →
  (∀ x sid, sg !! m = Some x → signing_signature_id x = Some sid →
    signing_signature_id y = Some sid) →
  index_leads (<[m := y]> sg) ix.
Proof.
  intros Hix Hy sid m' (x & Hx & Hsid)%Hix.
  destruct (decide (m' = m)) as [->|Hne].
  - exists y. rewrite lookup_insert_eq. eauto.
  - exists x. by rewrite lookup_insert_ne.
Qed.

Lemma index_leads_link sg ix m y sid :
  index_leads sg ix →
  (∀ x, sg !! m = Some x → signing_signature_id x = None) →
  signing_signature_id y = Some sid →
  index_leads (<[m := y]> sg) (<[sid := m]> ix).
Proof.
  intros Hix Hx Hy sid' m' [[<- <-]|[Hne H]]%lookup_insert_Some.
  - exists y. by rewrite lookup_insert_eq.
  - apply (index_leads_insert sg ix m y); [done| |done].
    intros x sid0 E. rewrite (Hx x E). done.
Qed.

Lemma index_leads_remove sg ix m :
  index_leads sg ix →
  (∀ x, sg !! m = Some x → signing_signature_id x = None) →
  index_leads (delete m sg) ix.
Proof.
  intros Hix Hx sid m' (x & E & Hsid)%Hix. exists x. split; [|done].
  rewrite lookup_delete_ne; [done|]. intros ->. apply Hx in E. congruence.
Qed.

Lemma index_leads_unlink sg ix m sid :
  index_leads sg ix →
  (∀ x, sg !! m = Some x → signing_signature_id x = Some sid) →
  index_leads (delete m sg) (delete sid ix).
Proof.
  intros Hix Hx sid' m' [Hne H]%lookup_delete_Some.
  destruct (Hix _ _ H) as (x & E & Hsid). exists x. split; [|done].
  rewrite lookup_delete_ne; [done|]. intros ->. apply Hx in E. congruence.
Qed.

Lemma insert_removed sg m y : <[m := y]> (delete m sg) = <[m := y]> sg.
Proof. apply insert_delete_eq. Qed.
End lemmas.

Section handlers.
Context {AL : Alloy} {FL : FrostLib} (T : Transition).

Lemma sessions_fixed_index s s' : sessions_fixed s s' → index_ok s → index_ok s'.
Proof. unfold index_ok. by intros [-> ->]. Qed.

(** Putting a session back, unchanged or with the same signature. *)
Ltac put_back Hm :=
  simpl; rewrite ?insert_removed; apply index_leads_insert;
  [done|intros ??; rewrite Hm; intros; simplify_eq; done].

Lemma sign_index s block ev :
  index_ok s → index_ok (handle_sign T s block ev).1.
Proof.
  intros Hix. unfold handle_sign.
  pose proof (observe_sequence_fixed (Coordinator.Sign.gid ev)
    (Coordinator.Sign.sequence ev) s) as [_ Hs].
  destruct (observe_sequence _ _ _) as [nonce s1]. simpl in Hs.
  apply (sessions_fixed_index _ _ Hs) in Hix. clear Hs. cbv zeta.
  set (m := Coordinator.Sign.message ev). unfold index_ok in *.
  destruct (signing s1 !! m) as [x|] eqn:Hm.
  2: { destruct nonce; simpl; apply index_leads_remove; [done| |done|];
       intros ?; by rewrite Hm. }
  destruct x as [k g r p sg d|?|?|?|?]; try (destruct nonce; put_back Hm).
  destruct nonce as [nonce|].
  - case_decide; [|put_back Hm]. unfold accept_request. subst m.
    destruct p; simpl; rewrite insert_removed; apply index_leads_link;
      [done| |done|done| |done]; intros x; rewrite Hm; by intros [= <-].
  - simpl. apply index_leads_remove; [done|]. intros x. rewrite Hm. by intros [= <-].
Qed.

Lemma oracle_result_index s block o ev :
  index_ok s → index_ok (handle_oracle_result T s block o ev).1.
Proof.
  intros Hix. unfold handle_oracle_result. cbv zeta. unfold index_ok in *.
  destruct (signing s !! _) as [x|] eqn:Hm.
  - destruct x; try put_back Hm. case_decide; [put_back Hm|].
    case_decide; [|put_back Hm]. simpl. apply index_leads_unlink; [done|].
    intros x. rewrite Hm. by intros [= <-].
  - simpl. apply index_leads_remove; [done|]. intros x. by rewrite Hm.
Qed.

Lemma sign_revealed_index s block ev :
  index_ok s → index_ok (handle_sign_revealed_nonces T s block ev).1.
Proof.
  intros Hix. unfold handle_sign_revealed_nonces. cbv zeta.
  destruct (signature_id_to_message s !! _) as [m|] eqn:Hsid; [|done].
  unfold index_ok in *. destruct (signing s !! m) as [x|] eqn:Hm.
  - destruct x; try put_back Hm.
    destruct (track_reveal _ _ _ _). case_decide; put_back Hm.
  - apply Hix in Hsid as (x & Hx & _). congruence.
Qed.

Lemma sign_shared_index s ev : index_ok s → index_ok (handle_sign_shared T s ev).1.
Proof.
  intros Hix. unfold handle_sign_shared. cbv zeta.
  destruct (signature_id_to_message s !! _) as [m|] eqn:Hsid; [|done].
  unfold index_ok in *. destruct (signing s !! m) as [x|] eqn:Hm; [|done].
  destruct x; try done. put_back Hm.
Qed.

Lemma sign_completed_index s block ev :
  index_ok s → index_ok (handle_sign_completed T s block ev).1.
Proof.
  intros Hix. unfold handle_sign_completed. cbv zeta.
  destruct (signature_id_to_message s !! _) as [m|] eqn:Hsid; [|done].
  unfold index_ok in *. destruct (signing s !! m) as [x|] eqn:Hm.
  - destruct x; put_back Hm.
  - apply Hix in Hsid as (x & Hx & _). congruence.
Qed.

Lemma sign_attested_index s sid m :
  index_ok s → index_ok (handle_sign_attested T s sid m).1.
Proof.
  intros Hix. unfold handle_sign_attested. cbv zeta. unfold index_ok in *.
  destruct (signing s !! m) as [x|] eqn:Hm; simpl.
  - destruct (signing_signature_id x) as [sid'|] eqn:Hx; simpl.
    + apply index_leads_unlink; [done|]. intros ?. rewrite Hm. by intros [= <-].
    + apply index_leads_remove; [done|]. intros ?. rewrite Hm. by intros [= <-].
  - apply index_leads_remove; [done|]. intros ?. by rewrite Hm.
Qed.

Lemma transaction_proposed_index s block ev :
  index_ok s → index_ok (handle_transaction_proposed T s block ev).1.
Proof.
  intros Hix. unfold handle_transaction_proposed. cbv zeta.
  destruct (epochs s !! _) as [ep|]; [|done]. case_decide; [done|].
  unfold index_ok in *. destruct (signing s !! _) as [x|] eqn:Hm; [done|].
  simpl. apply index_leads_insert; [done|]. intros ??. by rewrite Hm.
Qed.

Lemma epoch_staged_index s ev : index_ok s → index_ok (handle_epoch_staged T s ev).1.
Proof.
  intros Hix. unfold handle_epoch_staged.
  destruct (rollover s) as [| | | | | | |n g ks m]; try done.
  case_decide; [|done].
  destruct (finalize_key_gen T (set_rollover (EpochStaged n) s) (Number n) g ks)
    as [s1 c1] eqn:Hfin.
  assert (index_ok s1) as Hix1.
  { apply (sessions_fixed_index s); [|done]. unfold finalize_key_gen in Hfin.
    by destruct ks; simplify_eq/=. }
  apply (sign_attested_index s1 (Consensus.EpochStaged.signatureId ev) m) in Hix1.
  by destruct (handle_sign_attested _ _ _ _).
Qed.

(** A new rollover packet has no session yet. *)
Lemma key_gen_confirmed_index s block ev :
  rollover_hash_binding T → sessions_ok T s →
  index_ok s → index_ok (handle_key_gen_confirmed T s block ev).1.
Proof.
  intros Hbind Hs Hix. unfold handle_key_gen_confirmed.
  destruct (rollover s) as [| | | | | |e g p status conf compl dls|] eqn:Hr; try done.
  case_decide; [|done]. cbv zeta. case_decide; [done|]. destruct e as [|n].
  - by apply (sessions_fixed_index s); [apply confirm_genesis_sessions|].
  - unfold confirm_epoch. cbv zeta.
    destruct (epochs s !! active_epoch s) as [ep|] eqn:He; [|done].
    unfold index_ok in *. simpl. apply index_leads_insert; [done|].
    intros x sid Hx _. exfalso. destruct (Hs _ _ Hx) as [Hkey _ Hpk _ _].
    set (key := group_key _) in Hkey. set (b := saturating_mul _ _) in Hkey.
    destruct (Hbind (active_epoch s) n b (Group.id g) key (signing_packet x))
      as (a' & b' & g' & k' & Eq); [by rewrite Hkey|].
    rewrite Eq, Hr in Hpk. simpl in Hpk. lia.
Qed.

(** ** Timeouts *)

(** A session past its deadline loses its signature. *)
Lemma session_timeout_unlinked block nd m x sid :
  signing_deadline x ≤ block → signing_signature_id x = Some sid →
  unlinked (session_timeout T block nd m x) = Some sid.
Proof.
  intros Hd Hsid. unfold session_timeout, restart_signing_ceremony.
  rewrite decide_True by done. destruct x; simplify_eq/=; try done; by case_decide.
Qed.

Lemma unlink_all_lookup (outcomes : list TimeoutOutcome) (ix : gmap B256 B256) sid m :
  foldl (λ ix o, match unlinked o with Some sid => delete sid ix | None => ix end)
    ix outcomes !! sid = Some m →
  ix !! sid = Some m ∧ ∀ o, o ∈ outcomes → unlinked o ≠ Some sid.
Proof.
  revert ix. induction outcomes as [|o l IH]; intros ix; simpl; [set_solver|].
  intros [Hix Hl]%IH. destruct (unlinked o) as [sid'|] eqn:Ho.
  - apply lookup_delete_Some in Hix as [Hne Hix]. split; [done|].
    intros o' [->|?]%elem_of_cons; [congruence|by apply Hl].
  - split; [done|]. intros o' [->|?]%elem_of_cons; [congruence|by apply Hl].
Qed.

Lemma signing_timeouts_index s block :
  index_ok s → index_ok (handle_signing_timeouts T s block).1.
Proof.
  intros Hix sid m Hsid. rewrite signing_timeouts_lookup.
  apply unlink_all_lookup in Hsid as [Hsid Hall].
  apply Hix in Hsid as (x & Hx & Hxs). exists x. split; [|done].
  rewrite Hx. simpl.
  destruct (decide (signing_deadline x ≤ block)) as [Hd|Hd].
  - destruct (Hall (session_timeout T block (saturating_add block (signing_timeout T)) m x)).
    + apply list_elem_of_fmap. exists (m, x). by rewrite elem_of_btree_iter.
    + by apply session_timeout_unlinked.
  - unfold session_timeout. by rewrite decide_False.
Qed.

Lemma new_block_index s block : index_ok s → index_ok (apply_new_block T s block).1.
Proof.
  intros Hix. rewrite apply_new_block_state.
  apply (sessions_fixed_index (after_topup T s block)); [apply reconciliation_fixed|].
  apply (sessions_fixed_index (after_sessions T s block)); [apply nonce_topup_fixed|].
  apply signing_timeouts_index.
  by apply (sessions_fixed_index s); [apply after_rounds_sessions|].
Qed.

Lemma transition_index s msg :
  rollover_hash_binding T → sessions_ok T s →
  index_ok s → index_ok (apply_transition T s msg).1.
Proof.
  intros Hbind Hs Hix.
  assert (∀ s', rollover_only s s' → index_ok s') as Hro.
  { intros s' H. by apply (sessions_fixed_index s); [apply rollover_only_sessions|]. }
  destruct msg as [block|log|res]; simpl.
  - by apply new_block_index.
  - unfold apply_event. destruct (log_data log) as [ev|ev|ev]; destruct ev;
      try done; try (apply Hro; by auto with frames).
    + by apply epoch_staged_index.
    + by apply transaction_proposed_index.
    + by apply sign_attested_index.
    + by apply key_gen_confirmed_index.
    + by apply (sessions_fixed_index s); [apply preprocess_fixed|].
    + by apply sign_index.
    + by apply sign_revealed_index.
    + by apply sign_shared_index.
    + by apply sign_completed_index.
    + by apply oracle_result_index.
  - destruct res; simpl; try done.
    + apply Hro; by auto with frames.
    + by apply (sessions_fixed_index s); [apply nonce_tree_fixed|].
    + by rewrite nonce_commitments_fixed.
    + by rewrite nonces_fixed.
Qed.
End handlers.

(** ** Properties *)

Section properties.
Context {AL : Alloy} {FL : FrostLib}.

(** [C31] In a reachable state every entry of the signature index leads to a
    live session of that very signature, so that an event naming a signature
    never acts on another signature's session. *)
Theorem index_consistent T s :
  Transition_ok T → rollover_hash_binding T → reachable T s → index_ok s.
Proof.
  intros HT Hbind Hs. induction Hs as [|s m Hs IH]; [by intros ??|].
  apply transition_index; [done| |done]. by apply reachable_sessions_ok.
Qed.
End properties.
