(* ===== verification/Safety.v ===== *)
(** * Safety of the commands

    What the transition commands is justified by what happened before, and so is
    what the running validator has in its queue. *)

From S2P Require Import Prelude.
From S2P Require Import Bytes.
From S2P Require Import Database.
From S2P Require Import Core.
From S2P Require Import Epoch.
From S2P Require Import Bindings.
From S2P Require Import Alloy.
From S2P Require Import Group.
From S2P Require Import Hashing.
From S2P Require Import FrostLib.
From S2P Require Import Frost.
From S2P Require Import FrostKeygen.
From S2P Require Import FrostSign.
From S2P Require Import State.
From S2P Require Import Secrets.
From S2P Require Import Effects.
From S2P Require Import StateMachine.
From S2P Require Import TxQueue.
From S2P Require Import Encoder.
From S2P Require Import Provider.
From S2P Require Import Events.
From S2P Require Import Driver.
From S2P Require Import Process.
From S2P Require Import Preprocessing.
From S2P Require Import Signing.
From S2P Require Import KeyGen.
From S2P Require Import Complaints.
From S2P Require Import Machine.
From S2P Require Import Frames.
From S2P Require Import RolloverInvariant.
From S2P Require Import Service.
From S2P Require Import Lifecycle.
From S2P Require Import EpochInvariant.
From S2P Require Import SessionInvariant.

Section definitions.
Context {AL : Alloy} {FL : FrostLib}.

(** The session got past its oracle. *)
Definition past_oracle (x : SigningState) : Prop :=
  match x with
  | CollectNonceCommitments _ _ _ _ _ _ _ _ _
  | CollectSigningShares _ _ _ _ _ _ _ _
  | WaitingForAttestation _ _ _ => True
  | _ => False
  end.

(** The oracle a transaction packet names approved the message. *)
Definition approved_in (ms : list Message) (m : B256) (p : Packet) : Prop :=
  match p with
  | EpochRollover _ _ _ _ _ => True
  | Transaction _ oracle _ _ => Exists (λ msg, oracle_answers msg m oracle true) ms
  end.

(** The signature an action commits to. *)
Definition commits_to (c : Command) : option B256 :=
  match c with
  | CAction (ARevealNonceCommitments sid _ _ _)
  | CAction (SignShare sid _ _ _ _ _)
  | CAction (AttestTransaction _ _ _ _ _ _ sid _)
  | CAction (StageEpoch _ _ _ sid _) => Some sid
  | _ => None
  end.

(** What a command asks of a nonce. *)
Definition nonce_request (c : Command) : Prop :=
  match c with
  | CEffect (UseNonce _ _ _) | CEffect (RevealNonceCommitments _ _ _ _) => True
  | _ => False
  end.

(** Secrets are set up for the groups of the configuration. *)
Definition setup_for (T : Transition) (gid : B256) (count threshold : N) : Prop :=
  ∃ e g, group_ok T e g ∧ Group.id g = gid ∧ Group.size g = (count, threshold).

(** Commands that commit to nothing, neither to a signature nor to a key, and do
    not ask for a nonce. *)
Definition quiet (T : Transition) (c : Command) : Prop :=
  commits_to c = None ∧ ¬ nonce_request c ∧
  match c with
  | CAction (KeyGenAndCommit _ _ _ _ _ _ _) => False
  | CEffect (KeyGenSetup gid count threshold) => setup_for T gid count threshold
  | _ => True
  end.
Definition commits_nothing (T : Transition) (cs : list Command) : Prop := Forall (quiet T) cs.

(** A command that commits to a signature comes from a session of that
    signature that is past its oracle, whose packet was approved. *)
Definition justified (ms : list Message) (s : State) (c : Command) : Prop :=
  ∀ sid, commits_to c = Some sid →
    ∃ m x, signing s !! m = Some x ∧ signing_signature_id x = Some sid ∧
      past_oracle x ∧ approved_in ms m (signing_packet x).

(** The nonces of a message are only used once every signer revealed its
    own. *)
Definition nonce_use (s : State) (msg : Message) (c : Command) : Prop :=
  match c with
  | CEffect (UseNonce m root offset) =>
      ∃ k g sid nonce rev last p signers d ev rev' last',
        signing s !! m =
          Some (CollectNonceCommitments k g sid nonce rev last p signers d) ∧
        reveals msg ev ∧ track_reveal signers ev rev last = (rev', last') ∧
        set_len signers ≤ btree_len rev' ∧
        root = nonce_root nonce ∧ offset = nonce_offset nonce
  | _ => True
  end.

(** The nonce a session has been given for its signature and may still reveal. *)
Definition assigned_nonce (x : SigningState) : option (B256 * NonceIndex) :=
  match x with
  | WaitingForOracle _ _ _ sid nonce _ _ _ | CollectNonceCommitments _ _ sid nonce _ _ _ _ _ =>
      Some (sid, nonce)
  | _ => None
  end.

(** A nonce is revealed for the signature it was assigned to, and what the store
    answered is passed on. *)
Definition nonce_reveal (s : State) (msg : Message) (c : Command) : Prop :=
  match c with
  | CEffect (RevealNonceCommitments sid m root offset) =>
      ∃ nonce, root = nonce_root nonce ∧ offset = nonce_offset nonce ∧
        (books_nonce s msg m sid nonce ∨
         ∃ x, signing s !! m = Some x ∧ assigned_nonce x = Some (sid, nonce))
  | CAction (ARevealNonceCommitments sid nonces proof _) =>
      ∃ m, msg = MResume (NonceCommitments sid m nonces proof)
  | _ => True
  end.

(** The validator commits to the secrets set up for the group whose commitments it
    is collecting, as a member that has its proof of participation. *)
Definition key_commitment (T : Transition) (s : State) (msg : Message) (c : Command) : Prop :=
  match c with
  | CEffect (KeyGenSetup gid count threshold) => setup_for T gid count threshold
  | CAction (KeyGenAndCommit root count threshold context poap commitment _) =>
      ∃ e g commitments deadline secrets,
        rollover s =
          CollectingCommitments e g (CommitParticipating poap None) commitments deadline ∧
        msg = MResume (Setup (Group.id g) secrets) ∧
        commitment = secrets_commitment secrets ∧
        Group.parameters g = (root, count, threshold, context)
  | _ => True
  end.
End definitions.

Section approval.
Context {AL : Alloy} {FL : FrostLib} (T : Transition).

Definition approval_ok (ms : list Message) (m : B256) (x : SigningState) : Prop :=
  (past_oracle x → approved_in ms m (signing_packet x)) ∧
  match x with
  | WaitingForOracle _ oracle _ _ _ p _ _ =>
      match p with Transaction _ o _ _ => o = oracle | _ => False end
  | _ => True
  end.

Lemma approved_in_snoc ms msg m p : approved_in ms m p → approved_in (ms ++ [msg]) m p.
Proof. destruct p; simpl; [done|]. rewrite Exists_app. by left. Qed.

Lemma session_step_approval s s' msg ms m x y :
  session_step T s s' msg m x (Some y) →
  (∀ x', x = Some x' → approval_ok ms m x') →
  approval_ok (ms ++ [msg]) m y.
Proof.
  intros Hstep Hx.
  assert (∀ x', x = Some x' → approval_ok (ms ++ [msg]) m x') as Hx'.
  { intros x' H. destruct (Hx _ H) as [Hp Ho]. split; [|done].
    intros Hpast. by apply approved_in_snoc, Hp. }
  clear Hx. remember (Some y) as y0 eqn:Ey. revert Ey.
  destruct Hstep as
    [x|e o data tx ep d He Ho _|x n g p st cf cp dls pt b key ep d Hr He _ Hr'
    |k g r e o data tx sg d sid nc d' _|k g r a n b gid' key sg d sid nc d' _|
    |k o g sid nc p sg d d' Hans| |k g sid nc rev l p sg d ev rev' l' _ Htr Hlt
    |k g sid nc rev l p sg d ev rev' l' d' _ Htr Hle|k g sid rev sel p sg d ev
    |k g sid rev sel p sg d d'| |block x _ Hd]; intros Ey; simplify_eq.
  - by apply Hx'.
  - by split.
  - by split.
  - by split.
  - by split.
  - destruct (Hx' _ eq_refl) as [_ Ho]. split; [|done]. intros _. simpl in *.
    destruct p as [|e o' data tx]; [done|]. subst. simpl.
    apply Exists_app. right. by constructor.
  - destruct (Hx' _ eq_refl) as [Hp _]. split; [by apply Hp|done].
  - destruct (Hx' _ eq_refl) as [Hp _]. split; [by apply Hp|done].
  - destruct (Hx' _ eq_refl) as [Hp _]. split; [by apply Hp|done].
  - destruct (Hx' _ eq_refl) as [Hp _]. split; [by apply Hp|done].
  - apply session_timeout_kept in Ey as (k & g & r & p & sg & -> & _); [|done].
    by split.
Qed.

Lemma run_snoc ms msg : run T (ms ++ [msg]) = (apply_transition T (run T ms) msg).1.
Proof. unfold run. by rewrite foldl_app. Qed.

Lemma run_approval ms m x : signing (run T ms) !! m = Some x → approval_ok ms m x.
Proof.
  revert m x. induction ms as [|msg ms IH] using rev_ind; intros m x; [done|].
  rewrite run_snoc. intros Hx. pose proof (transition_step T (run T ms) msg m) as Hstep.
  rewrite Hx in Hstep. eapply session_step_approval; [exact Hstep|]. intros x'. apply IH.
Qed.
End approval.

(** ** The commands of each handler *)

Section commands.
Context {AL : Alloy} {FL : FrostLib} (T : Transition).

Lemma commits_nothing_nil : commits_nothing T [].
Proof. constructor. Qed.
Lemma commits_nothing_app cs cs' :
  commits_nothing T cs → commits_nothing T cs' → commits_nothing T (cs ++ cs').
Proof. apply Forall_app_2. Qed.
Lemma commits_nothing_one c cs : quiet T c → commits_nothing T cs → commits_nothing T (c :: cs).
Proof. intros. by constructor. Qed.

#[local] Hint Resolve commits_nothing_nil commits_nothing_app commits_nothing_one : core.
#[local] Hint Extern 1 (quiet _ _) => split_and!; [done|by intros []|done] : core.

Lemma start_key_gen_commands s e ps d :
  epoch_set T e ps → commits_nothing T (start_key_gen T s e ps d).2.
Proof.
  intros Hps. unfold start_key_gen.
  destruct (participate_as _ _) as [[g poap]|] eqn:Hp; simpl; [|auto].
  apply participate_as_Some in Hp as [_ ->]. apply commits_nothing_one; [|auto].
  split_and!; [done|by intros []|]. exists e, (group_of ps).
  split_and!; [by exists ps|done|done].
Qed.

Lemma restart_commands s e ex d : commits_nothing T (restart_key_gen_excluding T s e ex d).2.
Proof.
  unfold restart_key_gen_excluding. destruct e; simpl; [done|].
  destruct (epoch_participants _ _ _) eqn:Hps; simpl; [|done].
  apply start_key_gen_commands. by exists ex.
Qed.
#[local] Hint Resolve start_key_gen_commands restart_commands : core.

Lemma finalize_commitments_commands e g secrets comms d :
  commits_nothing T (finalize_key_gen_commitments T e g secrets comms d).2.
Proof.
  unfold finalize_key_gen_commitments. destruct secrets as [secrets|]; simpl.
  - destruct (generate_secret_shares _ _) as [[? ?]|]; simpl; auto.
  - destruct (group_commitments _); simpl; auto.
Qed.

Lemma committed_commands s block ev :
  commits_nothing T (handle_key_gen_committed T s block ev).2.
Proof.
  unfold handle_key_gen_committed.
  destruct (rollover s) as [| | | |e g c comms dl| | |]; simpl; auto.
  case_decide; simpl; auto. case_decide; simpl; [done|].
  assert (∀ sec cm d', commits_nothing T
    (let '(rollover, commands) := finalize_key_gen_commitments T e g sec cm d' in
     (set_rollover rollover s, commands)).2) as Hf.
  { intros. pose proof (finalize_commitments_commands e g sec cm d').
    by destruct (finalize_key_gen_commitments _ _ _ _ _ _). }
  destruct c as [poap [sec|]|]; [apply Hf|done|apply Hf].
Qed.

Lemma accept_share_commands block g p pk sh d ev :
  commits_nothing T (accept_share T block g p pk sh d ev).2.
Proof. unfold accept_share. repeat case_match; simpl; auto. Qed.

Lemma confirm_key_gen_commands e g st sh d c cs :
  confirm_key_gen T e g st sh d = Ok (c, cs) → commits_nothing T cs.
Proof.
  unfold confirm_key_gen. destruct (finalize _ _); simpl; [|done].
  intros [= <- <-]. auto.
Qed.

Lemma secret_shared_commands s block ev :
  commits_nothing T (handle_key_gen_secret_shared T s block ev).2.
Proof.
  unfold handle_key_gen_secret_shared.
  destruct (rollover s) as [| | | | |e g p pk sh compl dl| |]; simpl; auto.
  case_decide; simpl; auto.
  pose proof (accept_share_commands block g p pk sh dl ev) as Ha.
  destruct (accept_share _ _ _ _ _ _ _ _) as [[pk' sh'] cs]. simpl in *.
  case_decide; simpl; [done|]. destruct p; [|done]. case_decide; [|done].
  destruct (confirm_key_gen _ _ _ _ _ _) as [[st cs']|] eqn:E; simpl; auto.
  apply confirm_key_gen_commands in E. auto.
Qed.

Lemma finalize_key_gen_commands s e g ks : commits_nothing T (finalize_key_gen T s e g ks).2.
Proof. destruct ks; simpl; auto. Qed.

Lemma confirmed_commands s block ev :
  commits_nothing T (handle_key_gen_confirmed T s block ev).2.
Proof.
  unfold handle_key_gen_confirmed.
  destruct (rollover s) as [| | | | | |e g p st cf cp dl|]; simpl; auto.
  case_decide; simpl; auto. case_decide; simpl; auto. destruct e as [|n]; [|done].
  unfold confirm_genesis. cbv zeta.
  match goal with |- context [finalize_key_gen T ?s' Genesis g ?k] =>
    pose proof (finalize_key_gen_commands s' Genesis g k) as Hf end.
  destruct (finalize_key_gen _ _ _ _ _) as [s1 cs1]. simpl in Hf.
  destruct (epoch_participants _ _ _) as [ps|] eqn:Hps; simpl; [|done].
  match goal with |- context [start_key_gen T s1 ?e ps ?d] =>
    pose proof (start_key_gen_commands s1 e ps d (epoch_participants_set T _ _ Hps)) as Hs end.
  destruct (start_key_gen _ _ _ _ _). simpl in *. auto.
Qed.

Lemma complained_commands s block ev :
  commits_nothing T (handle_key_gen_complained T s block ev).2.
Proof.
  unfold handle_key_gen_complained. destruct (complaint_round _ _ _ _) as [c|]; simpl; auto.
  case_decide; [apply restart_commands|].
  repeat case_match; simpl; auto.
Qed.

Lemma finish_collecting_commands s e : commits_nothing T (finish_collecting T s e).2.
Proof.
  unfold finish_collecting.
  destruct (rollover s) as [| | | | | |e' g [st|] [|sh|] cf cp dl|]; simpl; auto.
  case_decide; simpl; auto.
  destruct (confirm_key_gen _ _ _ _ _ _) as [[c cs]|] eqn:E; simpl; auto.
  by apply confirm_key_gen_commands in E.
Qed.

Lemma complaint_responded_commands s block ev :
  commits_nothing T (handle_key_gen_complaint_responded T s block ev).2.
Proof.
  unfold handle_key_gen_complaint_responded. destruct (response_round _ _ _); simpl; auto.
  destruct (rr_complaints _ !! _); simpl; auto. case_decide; simpl; auto.
  destruct (verify_revealed_secret_share _ _ _ _);
    [apply finish_collecting_commands|apply restart_commands].
Qed.

Lemma sign_attested_commands s sid m : (handle_sign_attested T s sid m).2 = [].
Proof. unfold handle_sign_attested. by destruct (_ ≫= signing_signature_id). Qed.

Lemma epoch_staged_commands s ev : commits_nothing T (handle_epoch_staged T s ev).2.
Proof.
  unfold handle_epoch_staged.
  destruct (rollover s) as [| | | | | | |n g ks m]; simpl; auto.
  case_decide; simpl; auto.
  pose proof (finalize_key_gen_commands (set_rollover (EpochStaged n) s) (Number n) g ks)
    as Hf.
  destruct (finalize_key_gen _ _ _ _ _) as [s1 cs1]. simpl in Hf.
  pose proof (sign_attested_commands s1 (Consensus.EpochStaged.signatureId ev) m) as Ha.
  destruct (handle_sign_attested _ _ _ _). simpl in *. subst. auto.
Qed.

(** Requests for a signature, and attestations on chain. *)
Definition asks_or_attests (c : Command) : Prop :=
  match c with
  | CAction (Sign _ _ _) | CAction (AttestTransaction _ _ _ _ _ _ _ _)
  | CAction (StageEpoch _ _ _ _ _) => True
  | _ => False
  end.

Lemma signing_timeouts_commands s block :
  Forall (λ c, commits_to c = None ∨ ∃ m sid p d, signing s !! m =
      Some (WaitingForAttestation sid p d) ∧ commits_to c = Some sid)
    (handle_signing_timeouts T s block).2 ∧
  Forall asks_or_attests (handle_signing_timeouts T s block).2.
Proof.
  unfold handle_signing_timeouts. cbv zeta. simpl. rewrite !Forall_forall.
  split; intros c (o & Hc & Ho)%list_elem_of_bind;
    apply list_elem_of_fmap in Ho as ([m x] & -> & Hx%elem_of_btree_iter);
    unfold session_timeout, restart_signing_ceremony in Hc; simpl in Hc;
    repeat case_match; simplify_eq/=; try (by apply elem_of_nil in Hc);
    apply list_elem_of_singleton in Hc as ->; try done; try (by left).
  - right. eexists m, _, _, _. split; [done|].
    unfold attestation_action. by case_match.
  - unfold attestation_action. by case_match.
Qed.

Lemma nonce_topup_commands s : commits_nothing T (handle_nonce_topup T s).2.
Proof. unfold handle_nonce_topup. repeat case_match; simpl; auto. Qed.
End commands.

(** ** Every command of a transition *)

Section transition.
Context {AL : Alloy} {FL : FrostLib} (T : Transition).

(** A command that commits to a signature comes from a session of that
    signature that is past its oracle. *)
Definition committed (s : State) (c : Command) : Prop :=
  ∀ sid, commits_to c = Some sid →
    ∃ m x, signing s !! m = Some x ∧ signing_signature_id x = Some sid ∧ past_oracle x.

Definition command_ok (s : State) (msg : Message) (c : Command) : Prop :=
  committed s c ∧ nonce_use s msg c ∧ nonce_reveal s msg c ∧ key_commitment T s msg c.

Lemma quiet_ok s msg cs : commits_nothing T cs → Forall (command_ok s msg) cs.
Proof.
  intros H. eapply Forall_impl; [exact H|]. intros c (Hc & Hu & Hk). split_and!.
  - intros sid. congruence.
  - by destruct c as [|[]]; try done; destruct Hu.
  - by destruct c as [[]|[]]; try done; destruct Hu.
  - by destruct c as [[]|[]].
Qed.

Lemma setup_ok s gid secrets :
  Forall (command_ok s (MResume (Setup gid secrets))) (handle_key_gen_setup T s gid secrets).2.
Proof.
  unfold handle_key_gen_setup.
  destruct (rollover s) as [| | | |e g [poap [sec|]|] comms dl| | |] eqn:Hr; try (by constructor).
  case_decide as Hg; [|by constructor]. subst gid. unfold Group.parameters.
  assert (Forall (command_ok s (MResume (Setup (Group.id g) secrets)))
    (match comms !! Transition.account T with
     | Some _ => []
     | None => [CAction (KeyGenAndCommit (Group.root g) (Group.count g)
                 (Group.threshold g) (Group.context g) poap (secrets_commitment secrets) dl)]
     end)) as Hc.
  { destruct (comms !! _); constructor; [|done]. split_and!; [done..|].
    by exists e, g, comms, dl, secrets. }
  case_decide; simpl; [done|].
  pose proof (finalize_commitments_commands T e g (Some secrets) comms
    ((λ d, saturating_add d (key_gen_timeout T)) <$> dl)) as Hf.
  destruct (finalize_key_gen_commitments _ _ _ _ _ _). simpl in *.
  apply Forall_app. split; [done|by apply quiet_ok].
Qed.

Lemma sign_ok s log ev :
  log_data log = EvCoordinator (Coordinator.EvSign ev) →
  Forall (command_ok s (MEvent log)) (handle_sign T s (log_block log) ev).2.
Proof.
  intros Hev. unfold handle_sign.
  pose proof (observe_sequence_books s log ev Hev) as Hbooks.
  destruct (observe_sequence _ _ _) as [[nonce|] s1]; [|by repeat case_match; constructor].
  cbv zeta. destruct (signing _ !! _) as [[k g r p sg d|?|?|?|?]|]; try (by constructor).
  case_decide; [|by constructor]. unfold accept_request. destruct p; [|by constructor].
  constructor; [|by constructor]. split_and!; [done..| |done]. exists nonce.
  split_and!; [done..|]. left. by apply Hbooks.
Qed.

Lemma oracle_result_ok s msg block o ev :
  Forall (command_ok s msg) (handle_oracle_result T s block o ev).2.
Proof.
  unfold handle_oracle_result. cbv zeta.
  destruct (signing s !! _) as [[?|k e g sid nonce p sg d|?|?|?]|] eqn:Hm; try (by constructor).
  case_decide; [|case_decide; by constructor]. constructor; [|by constructor].
  split_and!; [done..| |done]. exists nonce. split_and!; [done..|]. right.
  by eexists.
Qed.

Lemma sign_revealed_ok s log ev :
  log_data log = EvCoordinator (Coordinator.EvSignRevealedNonces ev) →
  Forall (command_ok s (MEvent log))
    (handle_sign_revealed_nonces T s (log_block log) ev).2.
Proof.
  intros Hev. unfold handle_sign_revealed_nonces. cbv zeta.
  destruct (signature_id_to_message s !! _) as [m|]; simpl; [|done].
  destruct (signing s !! m) as [x|] eqn:Hm; simpl; [|done].
  destruct x as [?|?|k g sid nonce rev last p signers d|?|?]; simpl; try done.
  destruct (track_reveal signers ev rev last) as [rev' last'] eqn:Htr.
  case_decide; simpl; constructor; [|done]. split; [done|]. simpl. split; [|done].
  exists k, g, sid, nonce, rev, last, p, signers, d, ev, rev', last'.
  split_and!; [done| |done|lia|done|done]. unfold reveals. simpl. congruence.
Qed.

Lemma nonce_commitments_ok s sid m n p :
  Forall (command_ok s (MResume (NonceCommitments sid m n p)))
    (handle_nonce_commitments T s sid m n p).2.
Proof.
  unfold handle_nonce_commitments.
  destruct (signing s !! m) as [x|] eqn:Hm; simpl; [|done].
  destruct x; simpl; try done. case_decide; simpl; [|done].
  constructor; [|done]. split; [|split_and!; [done|by exists m|done]].
  intros sid' [= <-]. eexists m, _. subst.
  done.
Qed.

Lemma handle_nonces_ok s msg m n :
  Forall (command_ok s msg) (handle_nonces T s m n).2.
Proof.
  unfold handle_nonces. destruct (signing s !! m) as [x|] eqn:Hm; simpl; [|done].
  destruct x; simpl; try done. destruct (signature_share _ _ _ _); simpl; [|done].
  constructor; [|done]. split; [|done]. intros sid' [= <-]. eexists m, _.
  done.
Qed.

Lemma signing_timeouts_ok s s0 msg block :
  signing s0 = signing s →
  Forall (command_ok s msg) (handle_signing_timeouts T s0 block).2.
Proof.
  intros Hs. destruct (signing_timeouts_commands T s0 block) as [H1 H2].
  rewrite Forall_forall in *. intros c Hc. split.
  - intros sid Hsid. destruct (H1 c Hc) as [|(m & sid' & p & d & Hm & Hsid')]; [congruence|].
    rewrite Hs in Hm. exists m. eexists. split; [done|]. simplify_eq.
    done.
  - specialize (H2 c Hc). by destruct c as [[]|[]].
Qed.

Lemma rollover_new_block_commands s block :
  commits_nothing T (handle_rollover_new_block T s block).2.
Proof.
  unfold handle_rollover_new_block. destruct (_ ≫= _); simpl; [|by constructor].
  case_decide; simpl; [by constructor|].
  destruct (epoch_participants _ _ _) eqn:Hps; [|by constructor].
  by apply start_key_gen_commands, epoch_participants_set.
Qed.

Lemma key_gen_timeouts_commands s block :
  commits_nothing T (handle_key_gen_timeouts T s block).2.
Proof.
  unfold handle_key_gen_timeouts. destruct (stuck_setup _ _); [by constructor|].
  destruct (timed_out _ _) as [[e ex]|]; [apply restart_commands|by constructor].
Qed.

Lemma new_block_ok s msg block :
  Forall (command_ok s msg) (apply_new_block T s block).2.
Proof.
  unfold apply_new_block.   pose proof (rollover_new_block_commands s block) as H1.
  pose proof (after_rounds_sessions T s block) as [Hs _]. unfold after_rounds in Hs.
  destruct (handle_rollover_new_block T s block) as [s1 c1].
  pose proof (key_gen_timeouts_commands s1 block) as H2.
  cbn [fst] in Hs. destruct (handle_key_gen_timeouts T s1 block) as [s2 c2].
  pose proof (signing_timeouts_ok s s2 msg block Hs) as H3.
  destruct (handle_signing_timeouts T s2 block) as [s3 c3].
  pose proof (nonce_topup_commands T s3) as H4.
  destruct (handle_nonce_topup T s3) as [s4 c4]. simpl in *.
  rewrite !Forall_app. split_and!; try (by apply quiet_ok); [done|].
  constructor; [|done]. by split.
Qed.

Lemma transition_commands_ok s msg :
  Forall (command_ok s msg) (apply_transition T s msg).2.
Proof.
  assert (Forall (command_ok s msg) []) as Hnil by constructor.
  destruct msg as [block|log|res]; simpl.
  - apply new_block_ok.
  - unfold apply_event. destruct (log_data log) as [ev|ev|ev] eqn:Hev; destruct ev;
      try done.
    + apply quiet_ok, epoch_staged_commands.
    + apply quiet_ok. unfold handle_transaction_proposed. cbv zeta.
      repeat case_match; simpl; constructor.
    + unfold handle_transaction_attested. cbv zeta. by rewrite sign_attested_commands.
    + apply quiet_ok. unfold handle_genesis_key_gen.
      destruct (rollover s); try (by constructor).
      case_decide; [by apply start_key_gen_commands|by constructor].
    + apply quiet_ok, committed_commands.
    + apply quiet_ok, secret_shared_commands.
    + apply quiet_ok, confirmed_commands.
    + apply quiet_ok, complained_commands.
    + apply quiet_ok, complaint_responded_commands.
    + apply quiet_ok. unfold handle_preprocess.
      repeat case_match; simpl; constructor.
    + by apply sign_ok.
    + by apply sign_revealed_ok.
    + apply quiet_ok. unfold handle_sign_shared. cbv zeta.
      repeat case_match; simpl; constructor.
    + apply quiet_ok. unfold handle_sign_completed. cbv zeta.
      repeat case_match; simpl; constructor.
    + apply oracle_result_ok.
  - destruct res; simpl; try done.
    + apply setup_ok.
    + apply quiet_ok. unfold handle_nonce_tree. repeat case_match; simpl; repeat constructor; try done; by intros [].
    + apply nonce_commitments_ok.
    + apply handle_nonces_ok.
Qed.

(** In a run, what a session past its oracle commits to was approved. *)
Lemma run_commands_ok ms msg :
  Forall (λ c, justified ms (run T ms) c ∧ nonce_use (run T ms) msg c)
    (apply_transition T (run T ms) msg).2.
Proof.
  eapply Forall_impl; [apply transition_commands_ok|]. intros c (Hc & Hu & _).
  split; [|done]. intros sid (m & x & Hm & ? & Hpast)%Hc. exists m, x.
  split_and!; [done..|]. by apply (run_approval T ms m x Hm).
Qed.
End transition.

(** ** Properties *)

Section properties.
Context {AL : Alloy} {FL : FrostLib}.

(** [C2] In any run, every command that commits to a signature (revealing
    nonces, a signature share, or an attestation on chain) comes from a
    session of that signature past its oracle, and if its packet is a
    transaction then the oracle the packet names approved this very message
    earlier in the run. A nonce is only used up on the reveal that completes
    the commitments of every signer of the session. *)
Theorem commands_justified T ms msg :
  Forall (λ c, justified ms (run T ms) c ∧ nonce_use (run T ms) msg c)
    (apply_transition T (run T ms) msg).2.
Proof. apply run_commands_ok. Qed.
End properties.

(** ** What the running validator submits *)

Section properties.
Context {AL : Alloy} {FL : FrostLib} {SJ : SecretsJson} {StJ : StateJson State}.
Context `{!Events Event} {AB : AlloyBloom} (J : state_roundtrip StJ).

(** [C5] Every transaction the running validator has ever queued, through
    reorgs, crashes and restarts, is the encoding of the startup action or of a
    command of the transition, on a message of some run over what the indexer
    delivered, that is justified there: one that commits to a signature comes
    from a session of that signature past its oracle, with the oracle's approval
    earlier in that run. *)
Theorem submissions_justified v dep events row :
  let p := process v dep events in
  let T := (components v).1.1 in
  row ∈ tables (queue_storage (transactions (driver p))) →
  ∃ action, (row_request row, row_expires_at row) = encode_action (components v).2 action ∧
    ((∃ staker, action = SetValidatorStaker staker ∧
        ValidatorConfig.staker (service_config v) = Some staker) ∨
     ∃ ms msg, happened v (seen p) (ms ++ [msg]) ∧
       CAction action ∈ (apply_transition T (run T ms) msg).2 ∧
       justified ms (run T ms) (CAction action)).
Proof.
  intros p T Hrow.
  assert (process_ok v (λ _, True) p) as [(_ & [_ Hrows] & _) _ _] by by apply process_accounted.
  unfold rows_from in Hrows. rewrite Forall_forall in Hrows.
  destruct (Hrows _ Hrow) as (action & Henc & [(ms & msg & Hh & Hc)|Hs]); exists action.
  - split; [done|]. right. exists ms, msg. split_and!; [done|done|].
    pose proof (run_commands_ok T ms msg) as Hall. rewrite Forall_forall in Hall.
    by destruct (Hall _ Hc).
  - split; [done|]. left. simpl in Hs. apply fmap_Some in Hs as (staker & ? & ->). by exists staker.
Qed.
End properties.
