(* ===== verification/NonceBooks.v ===== *)
(** * The books and the store of the nonces

    Where the chunks an epoch has linked, and the nonces its sessions have been
    given, come from; and that every stored nonce opens the root it is stored
    under. *)

From S2P Require Import Prelude.
From S2P Require Import Bytes.
From S2P Require Import Database.
From S2P Require Import Core.
From S2P Require Import Epoch.
From S2P Require Import Bindings.
From S2P Require Import Alloy.
From S2P Require Import Merkle.
From S2P Require Import FROSTCoordinator.
From S2P Require Import CoordinatorInvariant.
From S2P Require Import Group.
From S2P Require Import FrostLib.
From S2P Require Import Frost.
From S2P Require Import FrostKeygen.
From S2P Require Import FrostSign.
From S2P Require Import State.
From S2P Require Import Secrets.
From S2P Require Import Effects.
From S2P Require Import Preprocessing.
From S2P Require Import Signing.
From S2P Require Import KeyGen.
From S2P Require Import Complaints.
From S2P Require Import Machine.
From S2P Require Import Frames.
From S2P Require Import RolloverInvariant.
From S2P Require Import Lifecycle.
From S2P Require Import EpochInvariant.
From S2P Require Import SessionInvariant.
From S2P Require Import Safety.

Section books.
Context {AL : Alloy} {FL : FrostLib} (T : Transition).

(** A tracked epoch of the group has linked the chunk to the root. *)
Definition linked (s : State) (gid : B256) (chunk : N) (root : B256) : Prop :=
  ∃ e ep, epochs s !! e = Some ep ∧ Group.id (epoch_group ep) = gid ∧
    chunks (epoch_nonces ep) !! chunk = Some (Some root).

(** Every link of [s'] is one of [s], or satisfies [P]. *)
Definition links_from (P : B256 → N → B256 → Prop) (s s' : State) : Prop :=
  ∀ gid chunk root, linked s' gid chunk root → linked s gid chunk root ∨ P gid chunk root.

(** The message reports that this validator committed to the chunk. *)
Definition reports (msg : Message) (gid : B256) (chunk : N) (root : B256) : Prop :=
  msg_event msg = Some (EvCoordinator (Coordinator.EvPreprocess
    (Coordinator.Preprocess.mk gid (Transition.account T) chunk root))).

Lemma links_epochs P s s' : epochs s' = epochs s → links_from P s s'.
Proof. intros He gid chunk root. unfold linked. rewrite He. by left. Qed.

Lemma links_trans P s1 s2 s3 : links_from P s1 s2 → links_from P s2 s3 → links_from P s1 s3.
Proof. intros H1 H2 gid chunk root [H|?]%H2; [by apply H1|by right]. Qed.

Lemma links_rollover_only P s s' : rollover_only s s' → links_from P s s'.
Proof. intros H. by apply links_epochs, rollover_only_epochs. Qed.

(** A group whose nonce state only links what it had linked, or what [P] allows. *)
Lemma links_update P s e ep n :
  epochs s !! e = Some ep →
  (∀ chunk root, chunks n !! chunk = Some (Some root) →
     chunks (epoch_nonces ep) !! chunk = Some (Some root) ∨
     P (Group.id (epoch_group ep)) chunk root) →
  links_from P s (update_epoch e (with_nonces n ep) s).
Proof.
  intros He Hn gid chunk root (e' & ep' & He' & <- & Hc). simpl in He'.
  apply lookup_insert_Some in He' as [[<- <-]|[_ He']]; simpl in *.
  - destruct (Hn _ _ Hc) as [?|?]; [left|by right]. by exists e, ep.
  - left. by exists e', ep'.
Qed.

(** An epoch that joins with no chunk linked. *)
Lemma links_join P s e g k n :
  (∀ chunk root, chunks n !! chunk ≠ Some (Some root)) →
  links_from P s
    (set_epochs (<[e := {| epoch_group := g; epoch_key_share := k; epoch_nonces := n |}]>
       (epochs s)) s).
Proof.
  intros Hn gid chunk root (e' & ep' & He' & Hg & Hc). simpl in He'. left.
  apply lookup_insert_Some in He' as [[<- <-]|[_ He']]; [by apply Hn in Hc|by exists e', ep'].
Qed.

Lemma reserve_chunk_links ns chunk root :
  chunks (reserve_chunk ns).2 !! chunk = Some (Some root) → chunks ns !! chunk = Some (Some root).
Proof.
  unfold reserve_chunk. destruct (expected_chunk ns); [|done]. simpl.
  by intros [[_ ?]|[_ ?]]%lookup_insert_Some.
Qed.

Lemma observe_links sequence ns chunk root :
  chunks (observe sequence ns).2 !! chunk = Some (Some root) →
  chunks ns !! chunk = Some (Some root).
Proof.
  unfold observe. destruct (decode_sequence sequence), (decode_sequence _). simpl.
  by intros [_ ?]%lookup_btree_split_off_Some.
Qed.

Lemma nonce_tree_links P s gid c : links_from P s (handle_nonce_tree T s gid c).1.
Proof.
  unfold handle_nonce_tree. destruct (find_epoch _ _) as [[e ep]|] eqn:He; [|by apply links_epochs].
  apply find_epoch_Some in He as [He _]. apply links_update; [done|].
  intros chunk root. unfold ensure_chunk_reservation. cbv zeta.
  case_match; [by left|]. intros ?%reserve_chunk_links. by left.
Qed.

Lemma nonce_topup_links P s : links_from P s (handle_nonce_topup T s).1.
Proof.
  unfold handle_nonce_topup. destruct (epochs s !! _) as [ep|] eqn:He; [|by apply links_epochs].
  case_decide; [by apply links_epochs|].
  pose proof (reserve_chunk_links (epoch_nonces ep)) as Hr.
  destruct (reserve_chunk (epoch_nonces ep)) as [[chunk|] n]; [|by apply links_epochs].
  apply links_update; [done|]. intros ?? ?%Hr. by left.
Qed.

Lemma preprocess_links s log ev :
  log_data log = EvCoordinator (Coordinator.EvPreprocess ev) →
  links_from (reports (MEvent log)) s (handle_preprocess T s ev).1.
Proof.
  intros Hev. unfold handle_preprocess. case_decide as Ha; [by apply links_epochs|].
  destruct (find_epoch _ _) as [[e ep]|] eqn:He; [|by apply links_epochs].
  apply find_epoch_Some in He as [He Hg]. apply links_update; [done|].
  intros chunk root. simpl. intros [[<- [= <-]]|[_ ?]]%lookup_insert_Some; [right|by left].
  unfold reports. simpl. rewrite Hev, Hg, <-Ha. by destruct ev.
Qed.

Lemma observe_sequence_links P s gid sequence :
  links_from P s (observe_sequence gid sequence s).2.
Proof.
  unfold observe_sequence. destruct (find_epoch _ _) as [[e ep]|] eqn:He; [|by apply links_epochs].
  apply find_epoch_Some in He as [He _].
  pose proof (observe_links sequence (epoch_nonces ep)) as Ho.
  destruct (observe sequence (epoch_nonces ep)) as [n ns]. apply links_update; [done|].
  intros ?? ?%Ho. by left.
Qed.

Ltac same_epochs := cbv zeta; repeat case_match; simplify_eq/=; by apply links_epochs.

Lemma sign_links P s block ev : links_from P s (handle_sign T s block ev).1.
Proof.
  eapply links_trans; [apply (observe_sequence_links P s (Coordinator.Sign.gid ev)
    (Coordinator.Sign.sequence ev))|].
  unfold handle_sign. destruct (observe_sequence _ _ _) as [n s1]. simpl.
  unfold accept_request. same_epochs.
Qed.

Lemma finalize_links P s e g ks : links_from P s (finalize_key_gen T s e g ks).1.
Proof.
  destruct ks; [|by apply links_epochs]. apply links_join. intros chunk root H.
  by apply reserve_chunk_links in H.
Qed.

Lemma confirmed_links P s block ev : links_from P s (handle_key_gen_confirmed T s block ev).1.
Proof.
  unfold handle_key_gen_confirmed.
  destruct (rollover s) as [| | | | | |e g p st cf cp dl|]; try by apply links_epochs.
  case_decide; [|by apply links_epochs]. cbv zeta. case_decide; [by apply links_epochs|].
  destruct e as [|n].
  - unfold confirm_genesis. cbv zeta.
    match goal with |- context [finalize_key_gen T ?s1 ?e ?g ?k] =>
      pose proof (finalize_links P s1 e g k) as Hf; destruct (finalize_key_gen T s1 e g k) as [s2 cs] end.
    eapply (links_trans _ _ s2); [exact Hf|].
    destruct (epoch_participants _ _ _) as [ps|]; [|by apply links_epochs].
    match goal with |- context [start_key_gen T s2 ?e ps ?d] =>
      pose proof (start_key_gen_only T s2 e ps d) as Hs; destruct (start_key_gen T s2 e ps d) end.
    by apply links_rollover_only.
  - unfold confirm_epoch. same_epochs.
Qed.

Lemma staged_links P s ev : links_from P s (handle_epoch_staged T s ev).1.
Proof.
  unfold handle_epoch_staged. destruct (rollover s) as [| | | | | | |n g ks m]; try by apply links_epochs.
  case_decide; [|by apply links_epochs].
  match goal with |- context [finalize_key_gen T ?s1 ?e ?g ?k] =>
    pose proof (finalize_links P s1 e g k) as Hf; destruct (finalize_key_gen T s1 e g k) as [s2 cs] end.
  eapply (links_trans _ _ s2); [exact Hf|]. apply links_epochs.
  unfold handle_sign_attested. by destruct (signing s2 !! m ≫= signing_signature_id).
Qed.

Lemma new_block_links P s block : links_from P s (apply_new_block T s block).1.
Proof.
  rewrite apply_new_block_state.
  apply (links_trans _ _ (after_topup T s block)); [apply (links_trans _ _ (after_sessions T s block))|].
  - apply links_epochs. unfold after_sessions. simpl. unfold after_rounds.
    rewrite (rollover_only_epochs _ _ (key_gen_timeouts_only T _ block)).
    by destruct (rollover_new_block_sessions T s block).
  - apply nonce_topup_links.
  - intros gid chunk root (e & ep & He & Hg & Hc). left. exists e, ep. simpl in He.
    by apply lookup_btree_split_off_Some in He as [_ He].
Qed.

(** A chunk is linked because the contract said so. *)
Lemma transition_links s msg : links_from (reports msg) s (apply_transition T s msg).1.
Proof.
  destruct msg as [block|log|res]; simpl.
  - apply new_block_links.
  - unfold apply_event. destruct (log_data log) as [ev|ev|ev] eqn:Hev; destruct ev;
      try (by apply links_epochs); try (apply links_rollover_only; by auto with frames).
    + apply staged_links.
    + unfold handle_transaction_proposed. same_epochs.
    + unfold handle_transaction_attested, handle_sign_attested. same_epochs.
    + apply confirmed_links.
    + by apply preprocess_links.
    + apply sign_links.
    + unfold handle_sign_revealed_nonces. same_epochs.
    + unfold handle_sign_shared. same_epochs.
    + unfold handle_sign_completed. same_epochs.
    + unfold handle_oracle_result. same_epochs.
  - destruct res; simpl; try (by apply links_epochs).
    + apply links_rollover_only; by auto with frames.
    + apply nonce_tree_links.
    + rewrite nonce_commitments_fixed. by apply links_epochs.
    + rewrite nonces_fixed. by apply links_epochs.
Qed.

(** A session that has a nonce was given it before, or is given it by the
    request for its signature. *)
Lemma transition_assigned s msg m y sid nonce :
  signing (apply_transition T s msg).1 !! m = Some y → assigned_nonce y = Some (sid, nonce) →
  books_nonce s msg m sid nonce ∨
  ∃ x, signing s !! m = Some x ∧ assigned_nonce x = Some (sid, nonce).
Proof.
  intros Hy Ha. pose proof (transition_step T s msg m) as Hstep. rewrite Hy in Hstep.
  remember (signing s !! m) as x0. remember (Some y) as y0 eqn:Ey. revert Ey.
  destruct Hstep; intros Ey; simplify_eq/=; eauto.
  apply session_timeout_kept in Ey as (k & g & r & p & sg & -> & _); done.
Qed.
End books.

(** ** The store *)

Section store.
Context {AL : Alloy} {CL : CoordinatorLibs} {FL : FrostLib} {SJ : SecretsJson}.

(** Every nonce that can be read opens the root it is stored under. *)
Definition rows_open (s : SecretTables) : Prop :=
  ∀ root offs text n, nonces_table s !! (root, offs) = Some text →
    nonces_from_str text = Some n →
    opens root offs (nonces_reveal n).1 (nonces_reveal n).2.

(** The nonces of a chunk open its commitment. *)
Definition chunk_opens (chunk : NonceChunk) : Prop :=
  ∀ i n, chunk_nonces chunk !! i = Some n →
    opens (chunk_commitment chunk) (N.of_nat i) (nonces_reveal n).1 (nonces_reveal n).2.

(** What the streams of a world send is a chunk the generator made, of points of
    the curve. *)
Definition world_ok (w : World) : Prop :=
  ∀ g chunk, streamed w g = Ok (Some chunk) →
    (∃ key rng rng', generate_chunk key rng = (Ok chunk, rng')) ∧
    ∀ n, n ∈ chunk_nonces chunk →
      satisfiesCurveEquation (SignNonces.d (nonces_reveal n).1) = true ∧
      satisfiesCurveEquation (SignNonces.e (nonces_reveal n).1) = true.

Lemma streamed_opens w g chunk : world_ok w → streamed w g = Ok (Some chunk) → chunk_opens chunk.
Proof.
  intros Hw ((key & rng & rng' & Hgen) & Hcurve)%Hw i n Hi.
  apply with_size_nonce in Hgen as (leaves & Hlen & _ & -> & Hn).
  destruct (Hn i n Hi) as [Hleaf Hproof].
  destruct (Hcurve n) as [Hd He]; [by eapply list_elem_of_lookup_2|].
  split; [done|done| |]; simpl; rewrite Hproof; [|by apply merkle_leaf_verifies].
  unfold proof. rewrite length_proof_loop, length_take. unfold height, build. simpl.
  rewrite (length_build_levels 10); [done|by rewrite Hlen|].
  rewrite Hlen. apply Nat.leb_le. by vm_compute.
Qed.

Lemma insert_nonce_opens (J : json_roundtrip SJ) root offs n :
  opens root offs (nonces_reveal n).1 (nonces_reveal n).2 →
  io_preserves (λ s, rows_open (tables s)) (insert_nonce root offs n).
Proof.
  intros Ho. unfold insert_nonce, i64_try_from, io_lift.
  intros s Hs. unfold io_bind. case_decide; [|done]. cbn [fst snd].
  destruct (nonces_to_string n) as [text|] eqn:Ht; [|done]. simpl.
  apply (statement_preserves Secrets.Database rows_open); [|done]. clear s Hs. intros s Hs.
  destruct (nonces_table s !! (root, offs)), (nonces_chunks s !! root); try done.
  intros root' offs' text' n' Hrow Hn'. simpl in Hrow.
  apply lookup_insert_Some in Hrow as [[[= <- <-] <-]|[_ Hrow]]; [|by eapply Hs].
  rewrite (proj2 J _ _ Ht) in Hn'. by injection Hn' as <-.
Qed.

Lemma register_opens (J : json_roundtrip SJ) group me chunk :
  chunk_opens chunk →
  io_preserves (λ s, rows_open (tables s)) (register_nonces_chunk group me chunk).
Proof.
  intros Hc. apply transaction_preserves. apply io_bind_preserves.
  { apply statement_preserves. intros s Hs. by destruct (nonces_chunks s !! _). }
  intros _. apply io_bind_preserves; [|auto with io].
  apply io_for_preserves. intros [offset n] Hin.
  apply elem_of_lookup_imap in Hin as (i & n' & [= -> ->] & Hi).
  by apply insert_nonce_opens, Hc.
Qed.

Lemma try_rows_open (J : json_roundtrip SJ) w e :
  world_ok w → io_preserves (λ h, rows_open (stored h)) (try_perform_effect w e).
Proof.
  intros Hw. apply try_perform_effect_preserves.
  - intros. by apply store_keygen_secrets_preserves.
  - intros group me c Hc. apply register_opens; [done|]. by eapply streamed_opens.
  - intros root offset. apply take_nonce_preserves. intros s offs Hs root' offs' text n H.
    simpl in H. apply lookup_delete_Some in H as [_ H]. by eapply Hs.
  - intros groups _. split; [|by apply retain_keygen_secrets_preserves].
    apply statement_preserves. intros s Hs root offs text n H. simpl in H.
    apply map_lookup_filter_Some in H as [H _]. by eapply Hs.
Qed.

Lemma perform_rows_open (J : json_roundtrip SJ) w h e :
  world_ok w → rows_open (stored h) → rows_open (stored (perform_effect w h e).2).
Proof. intros Hw. by apply perform_effect_preserves, try_rows_open. Qed.

(** Only the effect that asks for commitments answers with them, from the store. *)
Lemma reveal_effect_inv w h e sid m ns prf :
  (perform_effect w h e).1 = NonceCommitments sid m ns prf →
  ∃ root offset text n, e = RevealNonceCommitments sid m root offset ∧
    nonces_table (stored h) !! (root, offset) = Some text ∧ nonces_from_str text = Some n ∧
    nonces_reveal n = (ns, prf).
Proof.
  unfold perform_effect. destruct e as [g c t|g k|g|sid' m' root o|m' root o|groups];
    cbn [try_perform_effect].
  - unfold io_bind, on_store, io_lift. destruct (setup _ _ c t).1; simpl; [|done].
    by destruct (store_keygen_secrets _ _ _ _) as [[?|?] ?].
  - unfold io_bind. by destruct (generator_start w g k _) as [[?|?] ?].
  - unfold io_bind, on_store. destruct (generator_next w g _) as [[[?|]|?] ?]; simpl; [|done..].
    by destruct (register_nonces_chunk _ _ _ _) as [[?|?] ?].
  - unfold io_bind, on_store, store_nonces_reveal, i64_try_from, io_lift. simpl.
    case_decide; simpl; [|done]. unfold io_bind.
    destruct (statement _ _ _) as [[[text|]|] s'] eqn:Hs; simpl; [|done..].
    apply statement_inv in Hs as [[? _]|[= Hrow _]]; [done|].
    destruct (nonces_from_str text) as [n|] eqn:Hn; simpl; [|done].
    destruct (nonces_reveal n) as [ns' prf'] eqn:Hr. intros [= <- <- <- <-].
    by eexists root, o, text, n.
  - unfold io_bind, on_store. by destruct (take_nonce root o _) as [[[?|]|?] ?].
  - destruct (split_groups groups) as [ks ns']. destruct (io_bind _ _ _) as [[r|?] h'] eqn:H; [|done].
    repeat (apply io_bind_Ok in H as (? & ? & _ & H)). unfold io_ret in H. by simplify_eq/=.
Qed.
End store.
