(* ===== verification/CoordinatorGame.v ===== *)
(** * A validator at the coordinator contract

    The validator's transition and its effect handler over the contract that
    anyone may call, with the contract's events delivered in order and at any
    later time, and every effect it asked for performed at any time: whenever the
    validator publishes nonce commitments, the contract accepts them. *)

From S2P Require Import Prelude.
From S2P Require Import Bytes.
From S2P Require Import Database.
From S2P Require Import Core.
From S2P Require Import Epoch.
From S2P Require Import Bindings.
From S2P Require Import Alloy.
From S2P Require Import Merkle.
From S2P Require Import FROSTCoordinator.
From S2P Require Import CoordinatorInvariant.
From S2P Require Import Group.
From S2P Require Import FrostLib.
From S2P Require Import Frost.
From S2P Require Import FrostKeygen.
From S2P Require Import FrostSign.
From S2P Require Import State.
From S2P Require Import Secrets.
From S2P Require Import Effects.
From S2P Require Import Encoder.
From S2P Require Import Preprocessing.
From S2P Require Import Signing.
From S2P Require Import KeyGen.
From S2P Require Import Machine.
From S2P Require Import Lifecycle.
From S2P Require Import Safety.
From S2P Require Import NonceBooks.

Section game.
Context {AL : Alloy} {CL : CoordinatorLibs} {FL : FrostLib} {SJ : SecretsJson}.
Context (T : Transition).

(** ** Moves *)

(** [undelivered] are the contract's events the validator has yet to see;
    [commanded] and [resumed] are all its commands and all its effects' results. *)
Record Play := {
  chain : FROSTCoordinator;
  undelivered : list Coordinator.CoordinatorEvents;
  validator : State;
  effects : Handler;
  commanded : list Command;
  resumed : list Resume;
}.

Inductive Move :=
  | PCall (caller : Address) (call : CoordinatorCall)
  | PDeliver (block index : N) (address : Address)
  | POther (msg : Message)
  | PEffect (w : World) (command : nat)
  | PResume (result : nat).

(** New blocks and the events of other contracts. *)
Definition foreign (msg : Message) : bool :=
  match msg with
  | NewBlock _ => true
  | MEvent log => match log_data log with EvCoordinator _ => false | _ => true end
  | MResume _ => false
  end.

Definition transit (msg : Message) (p : Play) : Play :=
  let '(s, commands) := apply_transition T (validator p) msg in
  {| chain := chain p; undelivered := undelivered p; validator := s; effects := effects p;
     commanded := commanded p ++ commands; resumed := resumed p |}.

(** A move that is not possible changes nothing. *)
Definition play_step (p : Play) (move : Move) : Play :=
  match move with
  | PCall caller call =>
      match coordinate (chain p) caller call with
      | Ok (c, events) =>
          {| chain := c; undelivered := undelivered p ++ events; validator := validator p;
             effects := effects p; commanded := commanded p; resumed := resumed p |}
      | Err _ => p
      end
  | PDeliver block index address =>
      match undelivered p with
      | event :: events =>
          transit (MEvent {| log_block := block; log_index := index; log_address := address;
                             log_data := EvCoordinator event |})
            {| chain := chain p; undelivered := events; validator := validator p;
               effects := effects p; commanded := commanded p; resumed := resumed p |}
      | [] => p
      end
  | POther msg => if foreign msg then transit msg p else p
  | PEffect w command =>
      match commanded p !! command with
      | Some (CEffect effect) =>
          let '(result, h) := perform_effect w (effects p) effect in
          {| chain := chain p; undelivered := undelivered p; validator := validator p;
             effects := h; commanded := commanded p; resumed := resumed p ++ [result] |}
      | _ => p
      end
  | PResume result =>
      match resumed p !! result with
      | Some r => transit (MResume r) p
      | None => p
      end
  end.

Definition play (p : Play) (moves : list Move) : Play := foldl play_step p moves.

(** The environment of an effect is as the generator leaves it. *)
Definition move_ok (move : Move) : Prop :=
  match move with PEffect w _ => world_ok w | _ => True end.

(** A play may start wherever no nonce is in use yet. *)
Record play_start (p : Play) : Prop := {
  start_chain : contract_ok (chain p);
  start_books gid chunk root : ¬ linked (validator p) gid chunk root;
  start_sessions m x : signing (validator p) !! m = Some x → assigned_nonce x = None;
  start_rows : rows_open (stored (effects p));
  start_log : undelivered p = [];
  start_commands : commanded p = [];
  start_results : resumed p = [];
}.

(** ** The invariant *)

Abbreviation account := (Transition.account T).

(** A chunk the contract has been committed to, in time for every signature whose
    request is still to be delivered. *)
Definition opened (c : FROSTCoordinator) (log : list Coordinator.CoordinatorEvents)
    (gid : B256) (chunk : N) (root : B256) : Prop :=
  ∃ start, start < 1024 ∧ committed_root c gid account chunk = Some (pack_root root start) ∧
    (start = 0 ∨ chunk * 1024 + start ≤ group_sequence c gid ∧
       ∀ initiator m sid seq,
         Coordinator.EvSign (Coordinator.Sign.mk initiator gid m sid seq) ∈ log →
         chunk * 1024 + start ≤ seq).

(** What the events still to be delivered say. *)
Fixpoint log_ok (c : FROSTCoordinator) (log : list Coordinator.CoordinatorEvents) : Prop :=
  match log with
  | [] => True
  | ev :: log =>
      match ev with
      | Coordinator.EvPreprocess (Coordinator.Preprocess.mk gid a chunk root) =>
          a = account → opened c log gid chunk root
      | Coordinator.EvSign (Coordinator.Sign.mk _ gid _ sid seq) =>
          signing_message c sid ≠ 0 ∧ sid_group sid = gid ∧ sid_sequence sid = seq
      | _ => True
      end ∧ log_ok c log
  end.

Definition nonce_assigned (c : FROSTCoordinator) (sid : B256) (nonce : NonceIndex) : Prop :=
  assigned c account sid (nonce_root nonce) (nonce_offset nonce).

(** The contract accepts the commitments. *)
Definition revealable (c : FROSTCoordinator) (sid : B256) (ns : SignNonces) (prf : list B256)
    : Prop :=
  ∃ root offset, assigned c account sid root offset ∧ opens root offset ns prf.

Definition command_fine (c : FROSTCoordinator) (command : Command) : Prop :=
  match command with
  | CEffect (RevealNonceCommitments sid _ root offset) => assigned c account sid root offset
  | CAction (ARevealNonceCommitments sid ns prf _) => revealable c sid ns prf
  | _ => True
  end.
Definition result_fine (c : FROSTCoordinator) (r : Resume) : Prop :=
  match r with NonceCommitments sid _ ns prf => revealable c sid ns prf | _ => True end.

Record play_ok (p : Play) : Prop := {
  ok_chain : contract_ok (chain p);
  ok_log : log_ok (chain p) (undelivered p);
  ok_books gid chunk root : linked (validator p) gid chunk root →
    opened (chain p) (undelivered p) gid chunk root;
  ok_sessions m x sid nonce : signing (validator p) !! m = Some x →
    assigned_nonce x = Some (sid, nonce) → nonce_assigned (chain p) sid nonce;
  ok_commands : Forall (command_fine (chain p)) (commanded p);
  ok_results : Forall (result_fine (chain p)) (resumed p);
  ok_rows : rows_open (stored (effects p));
}.

(** ** What later states of the contract keep *)

Lemma revealable_grows c c' sid ns prf :
  grows c c' → revealable c sid ns prf → revealable c' sid ns prf.
Proof. intros Hg (root & offset & Ha & Ho). exists root, offset. eauto using assigned_grows. Qed.

Lemma command_fine_grows c c' command :
  grows c c' → command_fine c command → command_fine c' command.
Proof.
  intros Hg. destruct command as [[]|[]]; simpl; eauto using assigned_grows, revealable_grows.
Qed.

Lemma result_fine_grows c c' r : grows c c' → result_fine c r → result_fine c' r.
Proof. intros Hg. destruct r; simpl; eauto using revealable_grows. Qed.

(** New events that are plain, or one that tells the truth. *)
Definition news (c c' : FROSTCoordinator) (evs : list Coordinator.CoordinatorEvents) : Prop :=
  Forall plain evs ∨ ∃ ev, evs = [ev] ∧ told c c' ev.

Lemma opened_news c c' log evs gid chunk root :
  grows c c' → news c c' evs → opened c log gid chunk root →
  opened c' (log ++ evs) gid chunk root.
Proof.
  intros [Hg _] Hn (start & Hs & Hc & Hle). destruct (Hg gid) as [Hseq Hch].
  exists start. split_and!; [done|by apply Hch|]. destruct Hle as [?|[Hle Hlog]]; [by left|].
  right. unfold group_sequence in *. split; [lia|].
  intros i m sid seq [Hin|Hin]%elem_of_app; [by eapply Hlog|].
  destruct Hn as [Hp|(ev & -> & Ht)].
  - rewrite Forall_forall in Hp. by apply Hp in Hin.
  - apply list_elem_of_singleton in Hin as <-. simpl in Ht. unfold group_sequence in Ht.
    destruct Ht as (_ & _ & _ & ->). done.
Qed.

Lemma opened_drop c ev log gid chunk root :
  opened c (ev :: log) gid chunk root → opened c log gid chunk root.
Proof.
  intros (start & Hs & Hc & Hle). exists start. split_and!; [done..|].
  destruct Hle as [?|[Hle Hlog]]; [by left|right]. split; [done|].
  intros i m sid seq Hin. eapply Hlog. by right.
Qed.

Lemma log_ok_news c c' log evs :
  grows c c' → news c c' evs → log_ok c log → log_ok c' (log ++ evs).
Proof.
  intros Hg Hn. induction log as [|ev log IH]; simpl.
  - intros _. destruct Hn as [Hp|(ev & -> & Ht)].
    + induction Hp as [|ev evs Hev _ IH]; [done|]. split; [by destruct ev|done].
    + split; [|done]. destruct ev as [| | | | | |[gid a chunk root]|[i gid m sid seq]| | |]; try done.
      * intros ->. destruct Ht as (start & Hs & Hc & Hle). exists start.
        split_and!; [done..|]. destruct Hle as [?|Hle]; [by left|right]. split; [done|].
        intros ???? Hin. by apply elem_of_nil in Hin.
      * by destruct Ht as (? & ? & ? & _).
  - intros [Hev Hlog]. split; [|by apply IH].
    destruct ev as [| | | | | |[gid a chunk root]|[i gid m sid seq]| | |]; try done.
    + intros Ha. by eapply opened_news, Hev.
    + destruct Hev as (Hm & ? & ?). destruct Hg as [_ Hg]. split_and!; [by apply Hg|done..].
Qed.

(** A nonce from the books, for a signature of the contract. *)
Lemma books_assigned c log msg s m sid nonce :
  (∀ gid chunk root, linked s gid chunk root → opened c log gid chunk root) →
  (∀ i gid m' seq, msg_event msg =
     Some (EvCoordinator (Coordinator.EvSign (Coordinator.Sign.mk i gid m' sid seq))) →
     signing_message c sid ≠ 0 ∧ sid_group sid = gid ∧ sid_sequence sid = seq ∧
     ∃ i' m'', Coordinator.EvSign (Coordinator.Sign.mk i' gid m'' sid seq) ∈ log) →
  books_nonce s msg m sid nonce → nonce_assigned c sid nonce.
Proof.
  intros Hbooks Hsign (ev & e & ep & Hev & <- & <- & [He Hid]%find_epoch_Some & Ho).
  destruct ev as [i gid m' sid seq]. simpl in *.
  destruct (Hsign _ _ _ _ Hev) as (Hm & Hg & Hs & i' & m'' & Hin).
  unfold observe in Ho. simpl in Ho. apply fmap_Some in Ho as (root & Hroot & ->).
  destruct (State.chunks (epoch_nonces ep) !! (seq / SEQUENCE_CHUNK_SIZE)) as [[r|]|] eqn:Hc;
    simplify_eq/=.
  destruct (Hbooks (sid_group sid) (sid_sequence sid / SEQUENCE_CHUNK_SIZE) root)
    as (start & Hst & Hr & Hle); [by exists e, ep|].
  unfold nonce_assigned, assigned. simpl. split_and!; [done..|].
  exists start. split_and!; [done| |done].
  destruct Hle as [->|[_ Hle]]; [apply N.le_0_l|]. rewrite <-Hg in Hin.
  specialize (Hle _ _ _ _ Hin).
  pose proof (N.div_mod' (sid_sequence sid) SEQUENCE_CHUNK_SIZE) as Hdm.
  unfold SEQUENCE_CHUNK_SIZE in *. lia.
Qed.
(** ** The moves keep it *)

(** What a transition on [msg] leaves, when the message is sound. *)
Lemma transit_ok p log msg :
  play_ok {| chain := chain p; undelivered := log; validator := validator p;
             effects := effects p; commanded := commanded p; resumed := resumed p |} →
  log_ok (chain p) (undelivered p) →
  (∀ gid chunk root, opened (chain p) log gid chunk root →
     opened (chain p) (undelivered p) gid chunk root) →
  (∀ gid chunk root, reports T msg gid chunk root →
     opened (chain p) (undelivered p) gid chunk root) →
  (∀ i gid m sid seq, msg_event msg =
     Some (EvCoordinator (Coordinator.EvSign (Coordinator.Sign.mk i gid m sid seq))) →
     signing_message (chain p) sid ≠ 0 ∧ sid_group sid = gid ∧ sid_sequence sid = seq ∧
     ∃ i' m', Coordinator.EvSign (Coordinator.Sign.mk i' gid m' sid seq) ∈ log) →
  (∀ r, msg = MResume r → result_fine (chain p) r) →
  play_ok (transit msg p).
Proof.
  intros [Hc _ Hbooks Hsess Hcmds Hres Hrows] Hlog Hdrop Hreports Hsign Hresult. simpl in *.
  assert (∀ m sid nonce, books_nonce (validator p) msg m sid nonce →
    nonce_assigned (chain p) sid nonce) as Hassign.
  { intros m sid nonce. apply (books_assigned (chain p) log); [done|]. eauto. }
  pose proof (transition_links T (validator p) msg) as Hlinks.
  pose proof (transition_assigned T (validator p) msg) as Hsessions.
  pose proof (transition_commands_ok T (validator p) msg) as Hreveals.
  unfold transit. destruct (apply_transition T (validator p) msg) as [s cs]; simpl in *.
  split; simpl; try done.
  - intros gid chunk root [?%Hbooks|?]%Hlinks; auto.
  - intros m x sid nonce Hx Ha. destruct (Hsessions _ _ _ _ Hx Ha) as [?|(x' & ? & ?)]; eauto.
  - apply Forall_app. split; [done|]. eapply Forall_impl; [exact Hreveals|].
    intros c (_ & _ & Hc' & _). destruct c as [[]|[]]; simpl in *; try done.
    + destruct Hc' as [m' ->]. by apply (Hresult _ eq_refl).
    + destruct Hc' as (nonce & -> & -> & [Hb|(x & Hx & Ha)]); [by eapply Hassign|by eapply Hsess].
Qed.

Lemma play_step_ok (J : json_roundtrip SJ) p move :
  move_ok move → play_ok p → play_ok (play_step p move).
Proof.
  intros Hmove Hp. pose proof Hp as [Hc Hlog Hbooks Hsess Hcmds Hres Hrows].
  destruct move as [caller call|block index address|msg|w i|i]; simpl.
  - destruct (coordinate (chain p) caller call) as [[c' evs]|] eqn:Hcall; [|done].
    apply coordinate_ok in Hcall as (Hc' & Hg & Hnews); [|done].
    split; simpl; try done.
    + by eapply log_ok_news.
    + intros gid chunk root H%Hbooks. by eapply opened_news.
    + intros m x sid nonce Hx Ha. by eapply assigned_grows, Hsess.
    + eapply Forall_impl; [done|]. intros command. by apply command_fine_grows.
    + eapply Forall_impl; [done|]. intros r. by apply result_fine_grows.
  - destruct (undelivered p) as [|ev log] eqn:Hu; [done|]. destruct Hlog as [Hev Hlog].
    apply (transit_ok _ (ev :: log)); simpl; try done.
    + intros gid chunk root. apply opened_drop.
    + intros gid chunk root [= ->]. by apply Hev.
    + intros i gid m sid seq [= ->]. destruct Hev as (? & ? & ?). split_and!; [done..|].
      exists i, m. by left.
  - destruct (foreign msg) eqn:Hf; [|done]. apply (transit_ok _ (undelivered p)); try done.
    + intros gid chunk root Hr. by destruct msg as [|[? ? ? []]|].
    + intros ????? Hs. by destruct msg as [|[? ? ? []]|].
    + intros r ->. done.
  - destruct (commanded p !! i) as [[|effect]|] eqn:Hi; [done| |done].
    pose proof (perform_rows_open J w (effects p) effect Hmove Hrows) as Hrows'.
    pose proof (reveal_effect_inv w (effects p) effect) as Hinv.
    destruct (perform_effect w (effects p) effect) as [r h]; simpl in *.
    split; simpl; try done. apply Forall_app. split; [done|]. constructor; [|done].
    destruct r as [| | |sid m ns prf|]; simpl; try done.
    destruct (Hinv _ _ _ _ eq_refl) as (root & offset & text & n & -> & Hrow & Hn & Hr).
    exists root, offset. split.
    + rewrite Forall_forall in Hcmds. by apply (Hcmds _ (list_elem_of_lookup_2 _ _ _ Hi)).
    + specialize (Hrows _ _ _ _ Hrow Hn). by rewrite Hr in Hrows.
  - destruct (resumed p !! i) as [r|] eqn:Hi; [|done].
    apply (transit_ok _ (undelivered p)); try done.
    intros r' [= <-]. rewrite Forall_forall in Hres.
    by apply Hres, (list_elem_of_lookup_2 _ _ _ Hi).
Qed.

Lemma play_start_ok p : play_start p → play_ok p.
Proof.
  intros [Hc Hb Hs Hr Hl Hcs Hrs]. split; rewrite ?Hl, ?Hcs, ?Hrs; try done.
  - intros gid chunk root H. by apply Hb in H.
  - intros m x sid nonce Hx%Hs Ha. congruence.
Qed.

Lemma play_moves_ok (J : json_roundtrip SJ) p moves :
  play_start p → Forall move_ok moves → play_ok (play p moves).
Proof.
  intros Hp%play_start_ok Hmoves. unfold play. revert p Hp.
  induction Hmoves as [|move moves Hm _ IH]; intros p Hp; simpl; [done|].
  by apply IH, play_step_ok.
Qed.
End game.

(** ** Properties *)

Section properties.
Context {AL : Alloy} {CL : CoordinatorLibs} {FL : FrostLib} {SJ : SecretsJson}.

(** [C8] The nonce commitments the validator publishes are accepted: however the
    validator, its effect handler and the coordinator contract run, whoever calls
    the contract, in whatever order effects are performed and results resume, and
    however far the validator is behind the contract's events, the contract
    executes the call that every commanded reveal is encoded to, then and at any
    later time. *)
Theorem nonce_reveals_accepted T p moves sid nonces prf expires_at :
  json_roundtrip SJ → sorted_pairs → play_start p → Forall move_ok moves →
  CAction (ARevealNonceCommitments sid nonces prf expires_at) ∈ commanded (play T p moves) →
  ∃ call, action_call (ARevealNonceCommitments sid nonces prf expires_at) = inl call ∧
    coordinate (chain (play T p moves)) (Transition.account T) (XCall call) =
      Ok (chain (play T p moves), [Coordinator.EvSignRevealedNonces
        (Coordinator.SignRevealedNonces.mk sid (Transition.account T) nonces)]).
Proof.
  intros HJ Hsp Hp Hmoves Hin. eexists. split; [done|].
  destruct (play_moves_ok T HJ p moves Hp Hmoves) as [_ _ _ _ Hcmds _ _].
  rewrite Forall_forall in Hcmds. destruct (Hcmds _ Hin) as (root & offset & Ha & Ho).
  by eapply nonce_reveal_accepted.
Qed.
End properties.
