(* ===== verification/KeyGenGame.v ===== *)
(** * Key generation at the coordinator contract

    The validator of [CoordinatorGame] and the contract agree on what a group is,
    on its identifier and on who is a member of it: the commitments the validator
    sends for a key are accepted while the contract collects them. *)

From S2P Require Import Prelude.
From S2P Require Import Bytes.
From S2P Require Import Database.
From S2P Require Import Core.
From S2P Require Import Epoch.
From S2P Require Import Bindings.
From S2P Require Import Alloy.
From S2P Require Import Merkle.
From S2P Require Import FROSTCoordinator.
From S2P Require Import CoordinatorInvariant.
From S2P Require Import Group.
From S2P Require Import Hashing.
From S2P Require Import FrostLib.
From S2P Require Import Frost.
From S2P Require Import FrostKeygen.
From S2P Require Import FrostSign.
From S2P Require Import State.
From S2P Require Import Secrets.
From S2P Require Import Effects.
From S2P Require Import Encoder.
From S2P Require Import Preprocessing.
From S2P Require Import Signing.
From S2P Require Import KeyGen.
From S2P Require Import Machine.
From S2P Require Import RolloverInvariant.
From S2P Require Import Safety.
From S2P Require Import CoordinatorGame.

(** ** What the contract accepts *)

Section contract.
Context {AL : Alloy} {CL : CoordinatorLibs}.

(** The contract's identifiers are the validator's. *)
Lemma mask_clear x : x < 2 ^ 256 → mask x = clear_low_64 x.
Proof.
  intros Hx. apply N.bits_inj. intros i. unfold mask, clear_low_64.
  rewrite N.land_spec, GROUP_MASK_spec.
  destruct (N.leb_spec 64 i).
  - rewrite N.shiftl_spec_high', N.shiftr_spec by lia.
    replace (i - 64 + 64) with i by lia.
    destruct (N.ltb_spec i 256); simpl; [by rewrite andb_true_r|].
    by rewrite andb_false_r, (small_bits x 256).
  - by rewrite andb_false_r, N.shiftl_spec_low.
Qed.

Lemma create_gid_group_id root n t context :
  keccak_bounded → n < u16_modulus → t < u16_modulus →
  create_gid root n t context = group_id root n t context.
Proof.
  intros Hk Hn Ht. unfold create_gid, group_id, group_id_preimage.
  rewrite mask_clear by apply Hk.
  assert (∀ x, x < u16_modulus → to_be_bytes 32 x = zeros 30 ++ to_be_bytes 2 x) as Hz.
  { intros x Hx. symmetry. by apply (zeros_to_be_bytes 30 2). }
  by rewrite (Hz n), (Hz t), <- !app_assoc.
Qed.

Lemma secp256k1_add_unpacks p q :
  unpacks p = true → unpacks q = true → is_Some (secp256k1_add p q).
Proof.
  intros Hp Hq. unfold secp256k1_add. destruct p, q. rewrite Hp, Hq. simpl.
  repeat case_match; eauto.
Qed.

(** The group was created with these parameters, is waiting for more commitments,
    and has none of the account yet; its key so far is a point of the curve. *)
Record joinable (c : FROSTCoordinator) (gid : B256) (a : Address) (root : B256) (t : N)
    : Prop := {
  joinable_root : map_root (participants (group_at c gid)) = root;
  joinable_status : status (state (group_at c gid)) = COMMITTING;
  joinable_threshold : threshold (state (group_at c gid)) = t;
  joinable_account :
    participant_status (participant_state (participants (group_at c gid)) a) = PNone;
  joinable_key : unpacks (key (group_at c gid)) = true;
}.

(** The contract still takes commitments: there is no group under the identifier
    yet, or one that can be joined. *)
Definition collecting (c : FROSTCoordinator) (gid : B256) (a : Address) (root : B256) (t : N)
    : Prop :=
  (map_root (participants (group_at c gid)) = 0 ∧ root ≠ 0) ∨ joinable c gid a root t.

(** A commitment the contract cannot fault. *)
Definition commitment_fits (t : N) (cm : KeyGenCommitment.t) : Prop :=
  N.of_nat (length (KeyGenCommitment.c cm)) = t ∧
  satisfiesCurveEquation (KeyGenCommitment.q cm) = true ∧
  Forall (λ p, unpacks p = true) (KeyGenCommitment.c cm).

Lemma keyGenCommit_accepted c a gid root t poap cm :
  contract_ok c → joinable c gid a root t →
  0 < t → commitment_fits t cm → verifyProof poap root a = true →
  ∃ c' last, keyGenCommit c a gid poap cm =
      Ok (c', [Coordinator.EvKeyGenCommitted (Coordinator.KeyGenCommitted.mk gid a cm last)]) ∧
    participant_status (participant_state (participants (group_at c' gid)) a) = REGISTERED.
Proof.
  intros Hc [Hr Hs Ht Ha Hk] Hpos (Hlen & Hq & Hcs) Hp.
  pose proof (ok_pending _ _ (Hc gid) Hs) as Hpend.
  destruct (KeyGenCommitment.c cm) as [|first rest] eqn:Ecs; [simpl in Hlen; lia|].
  apply Forall_cons in Hcs as [Hfirst _].
  destruct (secp256k1_add_unpacks (key (group_at c gid)) first) as [k Hadd]; [done..|].
  unfold keyGenCommit, requireNonZero, register, sub, require. cbv zeta.
  rewrite Hs, (decide_True (P := COMMITTING = COMMITTING)) by done. cbn [rbind].
  rewrite decide_True by lia. cbn [rbind]. rewrite Hq, decide_True by done. cbn [rbind].
  rewrite Ecs. rewrite decide_True.
  2:{ case_bool_decide; simpl; by rewrite Ht. }
  cbn [rbind]. rewrite Ha, decide_True by done. cbn [rbind].
  rewrite Hr, Hp, decide_True by done. cbn [rbind head ok_or].
  rewrite Hadd. cbn [rbind ok_or]. eexists _, _. split; [done|].
  rewrite group_at_put, decide_True by done. simpl.
  unfold participant_state, put_state. simpl. by rewrite lookup_insert_eq.
Qed.

(** A new group, when the contract has none under the identifier. *)
Lemma keyGen_accepted c root n t context :
  let gid := create_gid root n t context in
  contract_ok c → map_root (participants (group_at c gid)) = 0 → root ≠ 0 → t ≤ n → 1 < t →
  ∃ c', keyGen c root n t context =
      Ok (c', [Coordinator.EvKeyGen (Coordinator.KeyGen.mk gid root n t context)]) ∧
    contract_ok c' ∧ ∀ a, joinable c' gid a root t.
Proof.
  intros gid Hc H0 Hroot Hle Ht. destruct (ok_fresh _ _ (Hc gid) H0) as (_ & _ & Hss & Hkey).
  assert (∃ c', keyGen c root n t context =
      Ok (c', [Coordinator.EvKeyGen (Coordinator.KeyGen.mk gid root n t context)])) as [c' Hk].
  { unfold keyGen, init, require. fold gid. rewrite decide_True by done. cbn [rbind].
    rewrite decide_True by done. cbn [rbind]. rewrite decide_True by done. by eexists. }
  exists c'. split; [done|]. split; [by eapply keyGen_ok|].
  intros a. unfold keyGen, init in Hk. fold gid in Hk. cbv zeta in Hk. result_inv Hk.
  injection Hk as <-. result_inv E0. injection E0 as <-.
  split; rewrite group_at_put, decide_True by done; simpl; [done..| |by rewrite Hkey].
  unfold participant_state. simpl. by rewrite Hss, lookup_empty.
Qed.

(** The call creates the group where it has to, and commits. *)
Lemma keyGenAndCommit_accepted c a root n t context poap cm :
  let gid := create_gid root n t context in
  contract_ok c → collecting c gid a root t → t ≤ n → 1 < t → commitment_fits t cm →
  verifyProof poap root a = true →
  ∃ c' created last, keyGenAndCommit c a root n t context poap cm =
      Ok (c', created ++
        [Coordinator.EvKeyGenCommitted (Coordinator.KeyGenCommitted.mk gid a cm last)]) ∧
    participant_status (participant_state (participants (group_at c' gid)) a) = REGISTERED.
Proof.
  intros gid Hc Hcoll Hle Ht Hcm Hp. unfold keyGenAndCommit, initialized. fold gid.
  destruct Hcoll as [[H0 Hroot]|Hj].
  - rewrite bool_decide_eq_false_2 by (intros Hne; by apply Hne).
    destruct (keyGen_accepted c root n t context) as (c1 & -> & Hc1 & Hj); [done..|].
    destruct (keyGenCommit_accepted c1 a gid root t poap cm) as (c' & last & Hk & Hs);
      [done|apply Hj|lia|done..|].
    cbn [rbind]. rewrite Hk. eexists _, _, last. split; [done|]. done.
  - rewrite bool_decide_eq_true_2.
    2:{ apply status_exists; [done|]. by rewrite (joinable_status _ _ _ _ _ Hj). }
    destruct (keyGenCommit_accepted c a gid root t poap cm) as (c' & last & Hk & Hs);
      [done..|lia|done|done|].
    cbn [rbind]. rewrite Hk. eexists _, [], last. by split.
Qed.
End contract.

(** ** The secrets *)

Section secrets.
Context {FL : FrostLib}.

(** [frost_core]'s first round commits to a polynomial with as many coefficients
    as signers are needed; an encryption key is a non-zero scalar; and a point
    other than the identity has coordinates on the curve. *)
Record dkg_ok : Prop := {
  part1_length me count threshold rng secret package rng' :
    dkg_part1 me count threshold rng = (Ok (secret, package), rng') →
    length (round1_commitment secret) = N.to_nat threshold;
  encryption_key_nonzero rng : public_key (generate_encryption_key rng).1 ≠ point_identity;
  points_on_curve p : p ≠ point_identity →
    satisfiesCurveEquation (Point.mk (affine_x p) (affine_y p)) = true;
}.

Lemma solidity_point_unpacks p : dkg_ok → unpacks (solidity_point p) = true.
Proof.
  intros Hd. unfold solidity_point, unpacks. case_decide; [done|].
  rewrite points_on_curve by done. apply orb_true_r.
Qed.

Lemma setup_fits rng me count threshold s :
  dkg_ok → (setup rng me count threshold).1 = Ok s →
  commitment_fits threshold (secrets_commitment s).
Proof.
  intros Hd. unfold setup. pose proof (encryption_key_nonzero Hd rng) as Hkey.
  destruct (generate_encryption_key rng) as [sk rng1]. simpl in Hkey.
  destruct (dkg_part1 _ _ _ _) as [[[secret [package pok]]|] rng2] eqn:H1; simpl; [|done].
  intros [= <-]. apply part1_length in H1; [|done].
  unfold secrets_commitment, commitment_fits, solidity_commitment. simpl. split_and!.
  - rewrite length_fmap, H1. lia.
  - unfold solidity_point at 1. rewrite decide_False by done. by apply points_on_curve.
  - apply Forall_fmap, Forall_true. intros p. by apply solidity_point_unpacks.
Qed.
End secrets.

(** ** The validator *)

Section game.
Context {AL : Alloy} {CL : CoordinatorLibs} {FL : FrostLib} {SJ : SecretsJson}.
Context (T : Transition).

(** The secrets were made for the group of the identifier. *)
Definition secrets_of (gid : B256) (s : Secrets) : Prop :=
  ∃ e g, group_ok T e g ∧ Group.id g = gid ∧
    commitment_fits (Group.threshold g) (secrets_commitment s).

Definition rows_fit (s : SecretTables) : Prop :=
  ∀ gid me text secrets, keygen_secrets s !! (gid, me) = Some text →
    secrets_from_str text = Some secrets → secrets_of gid secrets.

(** An effect sets up secrets for groups of the configuration only. *)
Definition effect_fits (e : Effect) : Prop :=
  match e with
  | KeyGenSetup gid count threshold => setup_for T gid count threshold
  | _ => True
  end.
Definition result_fits (r : Resume) : Prop :=
  match r with Setup gid s => secrets_of gid s | _ => True end.

Lemma effect_rows_fit w e :
  dkg_ok → json_roundtrip SJ → effect_fits e →
  io_preserves (λ h, rows_fit (stored h)) (try_perform_effect w e).
Proof.
  intros Hd J He. apply try_perform_effect_preserves.
  - intros gid me count t rng s -> Hs. apply store_keygen_secrets_preserves.
    intros st text Hst Ht _ gid' me' text' s' Hrow Hs'. simpl in Hrow.
    apply lookup_insert_Some in Hrow as [[[= <- <-] <-]|[_ Hrow]]; [|by eapply Hst].
    rewrite (proj1 J _ _ Ht) in Hs'. injection Hs' as <-.
    destruct He as (e & g & Hg & <- & [= <- <-]). exists e, g.
    split_and!; [done..|]. by eapply setup_fits.
  - intros. by apply register_nonces_chunk_preserves.
  - intros. by apply take_nonce_preserves.
  - intros groups _. split; [by apply statement_preserves; intros s Hs|].
    apply statement_preserves. intros s Hs gid me text secrets Hrow. simpl in Hrow.
    rewrite retained_keygen_secrets in Hrow. case_decide; [|done]. by eapply Hs.
Qed.

(** Only the setup of a group answers with secrets, from the store. *)
Lemma setup_effect_inv w h e gid s :
  (perform_effect w h e).1 = Setup gid s →
  ∃ count t text, e = KeyGenSetup gid count t ∧
    keygen_secrets (stored (perform_effect w h e).2) !! (gid, account h) = Some text ∧
    secrets_from_str text = Some s.
Proof.
  destruct e as [g c t|g k|g|sid' m' root o|m' root o|groups].
  - destruct (perform_effect w h _) as [r h'] eqn:Hp. simpl. intros ->.
    apply key_gen_setup_inv in Hp as [|(s' & s1 & sec & Hs & <- & [= -> ->])]; [done|].
    apply store_keygen_secrets_Ok in Hs as (text & Hrow & Htext & _). by exists c, t, text.
  - unfold perform_effect; cbn [try_perform_effect]; unfold io_bind.
    by destruct (generator_start w g k _) as [[?|?] ?].
  - unfold perform_effect; cbn [try_perform_effect]; unfold io_bind, on_store.
    destruct (generator_next w g _) as [[[?|]|?] ?]; simpl; [|done..].
    by destruct (register_nonces_chunk _ _ _ _) as [[?|?] ?].
  - unfold perform_effect; cbn [try_perform_effect]; unfold io_bind, on_store.
    by destruct (store_nonces_reveal _ _ _) as [[[[? ?]|]|?] ?].
  - unfold perform_effect; cbn [try_perform_effect]; unfold io_bind, on_store.
    by destruct (take_nonce root o _) as [[[?|]|?] ?].
  - unfold perform_effect; cbn [try_perform_effect].
    destruct (split_groups groups) as [ks ns']. destruct (io_bind _ _ _) as [[r|?] h'] eqn:H; [|done].
    repeat (apply io_bind_Ok in H as (? & ? & _ & H)). unfold io_ret in H. by simplify_eq/=.
Qed.

(** ** Playing *)

(** The account commits, with its proof of participation, to the secrets that were
    made for the group. *)
Definition command_fits (c : Command) : Prop :=
  match c with
  | CEffect e => effect_fits e
  | CAction (KeyGenAndCommit root count threshold context poap commitment _) =>
      ∃ e ps g secrets, epoch_set T e ps ∧
        participate_as ps (Transition.account T) = Some (g, poap) ∧
        Group.parameters g = (root, count, threshold, context) ∧
        secrets_of (Group.id g) secrets ∧ commitment = secrets_commitment secrets
  | _ => True
  end.

Record commits_ok (p : Play) : Prop := {
  commits_chain : contract_ok (chain p);
  commits_rollover : rollover_ok T (rollover (validator p));
  commits_commands : Forall command_fits (commanded p);
  commits_results : Forall result_fits (resumed p);
  commits_rows : rows_fit (stored (effects p));
}.

(** A transition, whatever is left to deliver. *)
Lemma transit_commits p p' msg :
  Transition_ok T → commits_ok p →
  chain p' = chain p → validator p' = validator p → effects p' = effects p →
  commanded p' = commanded p → resumed p' = resumed p →
  (∀ r, msg = MResume r → result_fits r) → commits_ok (transit T msg p').
Proof.
  intros HT [Hc Hr Hcs Hrs Hrows] Ec Ev Ee Ecs Ers Hmsg. unfold transit.
  pose proof (progress_ok _ _ _ (transition_progress T HT (validator p) msg Hr)) as Hr'.
  pose proof (transition_commands_ok T (validator p) msg) as Hnew.
  rewrite Ev. destruct (apply_transition T (validator p) msg) as [s cs]. simpl in *.
  split; simpl; rewrite ?Ec, ?Ee, ?Ecs, ?Ers; try done.
  apply Forall_app. split; [done|]. eapply Forall_impl; [exact Hnew|].
  intros [action|[]] (_ & _ & _ & Hk); try done. destruct action; try done.
  destruct Hk as (e & g & comms & dl & secrets & Hroll & -> & -> & Hpar).
  rewrite Hroll in Hr. destruct Hr as [_ (ps & Hps & Hjoin)].
  exists e, ps, g, secrets. split_and!; [done..| |done]. by apply (Hmsg _ eq_refl).
Qed.

Lemma play_step_commits p move :
  Transition_ok T → dkg_ok → json_roundtrip SJ → commits_ok p → commits_ok (play_step T p move).
Proof.
  intros HT Hd J Hp. pose proof Hp as [Hc Hr Hcs Hrs Hrows].
  destruct move as [caller call|block index address|msg|w i|i]; simpl.
  - destruct (coordinate (chain p) caller call) as [[c' evs]|] eqn:Hcall; [|done].
    apply coordinate_ok in Hcall as [Hc' _]; [|done]. by split.
  - destruct (undelivered p) as [|ev log]; [done|]. by eapply transit_commits.
  - destruct (foreign msg) eqn:Hf; [|done]. eapply transit_commits; [done..|].
    intros r ->. done.
  - destruct (commanded p !! i) as [[|e]|] eqn:Hi; [done| |done].
    assert (effect_fits e) as He.
    { rewrite Forall_forall in Hcs. apply (Hcs _ (list_elem_of_lookup_2 _ _ _ Hi)). }
    pose proof (perform_effect_preserves rows_fit w e (effect_rows_fit w e Hd J He)
      (effects p) Hrows) as Hrows'.
    pose proof (setup_effect_inv w (effects p) e) as Hinv.
    destruct (perform_effect w (effects p) e) as [r h]; simpl in *.
    split; simpl; try done. apply Forall_app. split; [done|]. constructor; [|done].
    destruct r as [|gid s| | |]; try done.
    destruct (Hinv _ _ eq_refl) as (n & t & text & _ & Hrow & Htext). by eapply Hrows'.
  - destruct (resumed p !! i) as [r|] eqn:Hi; [|done]. eapply transit_commits; [done..|].
    intros r' [= <-]. rewrite Forall_forall in Hrs.
    by apply Hrs, (list_elem_of_lookup_2 _ _ _ Hi).
Qed.

(** A play may start wherever no secrets are stored for other groups. *)
Record key_gen_start (p : Play) : Prop := {
  kg_start_chain : contract_ok (chain p);
  kg_start_rollover : rollover_ok T (rollover (validator p));
  kg_start_rows : rows_fit (stored (effects p));
  kg_start_commands : commanded p = [];
  kg_start_results : resumed p = [];
}.

Lemma play_moves_commits p moves :
  Transition_ok T → dkg_ok → json_roundtrip SJ → key_gen_start p → commits_ok (play T p moves).
Proof.
  intros HT Hd J [Hc Hr Hrows Hcs Hrs].
  assert (commits_ok p) as Hp by (split; rewrite ?Hcs, ?Hrs; done).
  unfold play. clear Hc Hr Hrows Hcs Hrs. revert p Hp.
  induction moves as [|move moves IH]; intros p Hp; simpl; [done|].
  by apply IH, play_step_commits.
Qed.

(** No two groups of the configuration that differ in their threshold have the
    same identifier. *)
Definition ids_distinct : Prop := ∀ e g e' g',
  group_ok T e g → group_ok T e' g' → Group.id g = Group.id g' →
  Group.threshold g = Group.threshold g'.

(** What the contract asks of the parameters of a group. *)
Lemma epoch_set_parameters e ps g :
  Transition_ok T → epoch_set T e ps → g = group_of ps →
  Group.count g < u16_modulus ∧ Group.threshold g ≤ Group.count g ∧ 1 < Group.threshold g.
Proof.
  intros HT Hps ->. destruct (epoch_set_accepted T e ps HT Hps) as (l & ep & Hset).
  destruct (participants_tolerate l ep ps 0 Hset) as (_ & Hmaj & Hle & H2); [lia|].
  apply participants_set_small in Hset. rewrite group_of_count in *. lia.
Qed.
End game.

(** ** Properties *)

Section properties.
Context {AL : Alloy} {CL : CoordinatorLibs} {FL : FrostLib} {SJ : SecretsJson}.

(** [C9] The key commitments the validator sends are accepted: however the
    validator, its effect handler and the coordinator contract run, whoever calls
    the contract, while the contract is collecting commitments for the group, the
    call that a commanded commitment is encoded to creates the group if nobody did,
    under the identifier the validator knows it by, and registers the account in
    it. *)
Theorem key_gen_commits_accepted T p moves root count threshold context poap commitment expires_at :
  let action := KeyGenAndCommit root count threshold context poap commitment expires_at in
  let c := chain (play T p moves) in
  let gid := create_gid root count threshold context in
  let account := Transition.account T in
  Transition_ok T → ids_distinct T → dkg_ok → json_roundtrip SJ → sorted_pairs →
  keccak_bounded → key_gen_start T p →
  CAction action ∈ commanded (play T p moves) →
  collecting c gid account root threshold →
  (∃ e g, group_ok T e g ∧ is_member T g ∧ Group.id g = gid) ∧
  ∃ call c' created last, action_call action = inl call ∧
    coordinate c account (XCall call) = Ok (c', created ++
      [Coordinator.EvKeyGenCommitted
         (Coordinator.KeyGenCommitted.mk gid account commitment last)]) ∧
    participant_status (participant_state (participants (group_at c' gid)) account) = REGISTERED.
Proof.
  intros action c gid account HT Hids Hd J Hsp Hk Hstart Hin Hcoll.
  destruct (play_moves_commits T p moves HT Hd J Hstart) as [Hc _ Hcs _ _].
  rewrite Forall_forall in Hcs.
  destruct (Hcs _ Hin) as (e & ps & g & secrets & Hps & Hjoin & Hpar & Hsec & ->).
  pose proof (participation_proof_verifies ps account) as Hp. unfold account in Hp.
  rewrite Hjoin in Hp. destruct Hp as (Hm & Hg & Hv%bool_decide_eq_true_1).
  assert (group_ok T e g) as Hgok by by exists ps.
  destruct (epoch_set_parameters T e ps g HT Hps Hg) as (Hn & Hle & Ht).
  destruct Hsec as (e' & g' & Hg' & Hid & Hfits).
  rewrite (Hids _ _ _ _ Hg' Hgok Hid) in Hfits. injection Hpar as <- <- <- <-.
  assert (Group.id g = gid) as Hgid.
  { unfold gid. rewrite create_gid_group_id by (done || lia). by rewrite Hg. }
  split; [exists e, g; split_and!; [done| |done]; by rewrite Hg|].
  destruct (keyGenAndCommit_accepted c account (Group.root g) (Group.count g)
    (Group.threshold g) (Group.context g) poap (secrets_commitment secrets))
    as (c' & created & last & Hcall & Hs); [done..| |by eexists _, c', created, last].
  unfold verifyProof. rewrite Hsp. by apply bool_decide_eq_true_2.
Qed.
End properties.
