(* ===== verification/Housekeeping.v ===== *)
(** * The housekeeping of new blocks

    What a block retains of the secrets and the sessions, and what it ends: the
    groups the reconciliation keeps, and the deadlines. *)

From S2P Require Import Prelude.
From S2P Require Import Bytes.
From S2P Require Import Core.
From S2P Require Import Epoch.
From S2P Require Import Bindings.
From S2P Require Import Alloy.
From S2P Require Import Group.
From S2P Require Import Hashing.
From S2P Require Import FrostLib.
From S2P Require Import Frost.
From S2P Require Import FrostKeygen.
From S2P Require Import FrostSign.
From S2P Require Import State.
From S2P Require Import Preprocessing.
From S2P Require Import Signing.
From S2P Require Import KeyGen.
From S2P Require Import Complaints.
From S2P Require Import Machine.
From S2P Require Import Frames.
From S2P Require Import RolloverInvariant.
From S2P Require Import Lifecycle.
From S2P Require Import EpochInvariant.
From S2P Require Import SessionInvariant.

Section lemmas.
Context {AL : Alloy} {FL : FrostLib}.

Lemma epoch_groups_fold (eps : list Epoch) (m : gmap B256 (option KeyShare)) gid :
  is_Some (foldl (λ m ep, <[Group.id (epoch_group ep) := Some (epoch_key_share ep)]> m)
    m eps !! gid) ↔
  is_Some (m !! gid) ∨ ∃ ep, ep ∈ eps ∧ Group.id (epoch_group ep) = gid.
Proof.
  revert m. induction eps as [|ep eps IH]; intros m; simpl; [set_solver|].
  rewrite IH, lookup_insert_is_Some. split.
  - intros [[Hid|[_ ?]]|(ep' & ? & ?)]; [right; exists ep; set_solver|by left|].
    right. exists ep'. set_solver.
  - intros [?|(ep' & [Heq|?]%elem_of_cons & ?)].
    + destruct (decide (Group.id (epoch_group ep) = gid)); [by left; left|by left; right].
    + left. left. congruence.
    + right. eauto.
Qed.

Lemma epoch_groups_lookup es gid :
  is_Some (epoch_groups es !! gid) ↔
  ∃ e ep, es !! e = Some ep ∧ Group.id (epoch_group ep) = gid.
Proof.
  unfold epoch_groups. rewrite epoch_groups_fold, lookup_empty. split.
  - intros [[? ?]|(ep & Hep & Hid)]; [done|].
    apply elem_of_btree_values in Hep as [e He]. eauto.
  - intros (e & ep & He & Hid). right. exists ep. split; [|done].
    apply elem_of_btree_values. eauto.
Qed.

(** The groups of the effect of the housekeeping. *)
Definition retained_groups (s : State) : gmap B256 (option KeyShare) :=
  match rollover_secrets (rollover s) with
  | Some (group_id, key_share) => <[group_id := key_share]> (epoch_groups (epochs s))
  | None => epoch_groups (epochs s)
  end.

Lemma retained_groups_lookup s gid :
  is_Some (retained_groups s !! gid) ↔
  (∃ e ep, epochs s !! e = Some ep ∧ Group.id (epoch_group ep) = gid) ∨
  (∃ k, rollover_secrets (rollover s) = Some (gid, k)).
Proof.
  unfold retained_groups. rewrite <-epoch_groups_lookup.
  destruct (rollover_secrets (rollover s)) as [[g k]|]; [|naive_solver].
  rewrite lookup_insert_is_Some. split.
  - intros [Hid|[_ ?]]; [right; subst; eauto|by left].
  - intros [?|[k' [= Hid _]]]; [|by left].
    destruct (decide (g = gid)); [by left|by right].
Qed.

Lemma new_block_effect T s block :
  last (apply_new_block T s block).2 =
    Some (CEffect (ReconcileGroupSecrets (retained_groups (apply_new_block T s block).1))).
Proof.
  unfold apply_new_block.
  destruct (handle_rollover_new_block T s block) as [s1 c1].
  destruct (handle_key_gen_timeouts T s1 block) as [s2 c2].
  destruct (handle_signing_timeouts T s2 block) as [s3 c3].
  destruct (handle_nonce_topup T s3) as [s4 c4]. simpl.
  by rewrite !app_assoc, last_snoc.
Qed.
End lemmas.

(** ** Properties *)

Section properties.
Context {AL : Alloy} {FL : FrostLib}.

(** [C34] The last command of every block asks the secret store to keep
    exactly the groups of the tracked epochs and of the key generation this
    validator takes part in; from a reachable state they include the group of
    every open session, so no secret a session still needs is purged. *)
Theorem reconciliation_keeps_secrets T s block :
  Transition_ok T → reachable T s →
  let s' := (apply_new_block T s block).1 in
  last (apply_new_block T s block).2 =
    Some (CEffect (ReconcileGroupSecrets (retained_groups s'))) ∧
  (∀ gid, is_Some (retained_groups s' !! gid) ↔
    (∃ e ep, epochs s' !! e = Some ep ∧ Group.id (epoch_group ep) = gid) ∨
    (∃ k, rollover_secrets (rollover s') = Some (gid, k))) ∧
  (∀ m x k gid, signing s' !! m = Some x → signing_keys x = Some (k, gid) →
    is_Some (retained_groups s' !! gid)).
Proof.
  intros HT Hs. cbv zeta.
  split_and!; [apply new_block_effect|intros; apply retained_groups_lookup|].
  intros m x k gid Hx Hk. apply retained_groups_lookup. left.
  assert (reachable T (apply_new_block T s block).1) as Hs'.
  { apply (reachable_step T s (NewBlock block) Hs). }
  destruct (reachable_sessions_ok T HT _ Hs' m x Hx) as [_ (g & k' & Hm & Hk') _ _ _].
  apply members_lookup in Hm as (ep & He & [= -> ->]).
  destruct (Hk' _ _ Hk) as [_ ->]. eauto.
Qed.
End properties.

(** ** Deadlines *)

Section definitions.
Context {AL : Alloy} {FL : FrostLib}.

(** The last block of the round in progress, for a round with a deadline. *)
Definition round_deadline (r : RolloverState) : option N :=
  match r with
  | CollectingCommitments _ _ _ _ d => d
  | CollectingShares _ _ _ _ _ _ d => d
  | CollectingConfirmations _ _ _ _ _ _ ds => confirm <$> ds
  | _ => None
  end.

(** The housekeeping of successive blocks with nothing in between. *)
Definition run_blocks (T : Transition) (s : State) (blocks : list N) : State :=
  foldl (λ s block, (apply_new_block T s block).1) s blocks.

(** How many deadlines a session can still outlive. *)
Definition timeouts_left (x : SigningState) : nat :=
  match x with
  | WaitingForRequest _ _ None _ _ _ => 1
  | WaitingForRequest _ _ (Some _) _ _ _ => 2
  | WaitingForOracle _ _ _ _ _ _ _ _ => 1
  | CollectNonceCommitments _ _ _ _ _ _ _ _ _ => 3
  | CollectSigningShares _ _ _ _ _ _ _ _ => 3
  | WaitingForAttestation _ _ _ => 1
  end.
End definitions.

Section sessions.
Context {AL : Alloy} {FL : FrostLib} (T : Transition).

Lemma signing_timeout_pos : 0 < signing_timeout T.
Proof. done. Qed.
Lemma key_gen_timeout_pos : 0 < key_gen_timeout T.
Proof. done. Qed.

Lemma new_block_lookup s block m :
  signing (apply_new_block T s block).1 !! m =
    signing s !! m ≫= λ x,
      kept (session_timeout T block (saturating_add block (signing_timeout T)) m x).
Proof.
  rewrite new_block_signing, signing_timeouts_lookup.
  by destruct (after_rounds_sessions T s block) as [-> _].
Qed.

Lemma session_timeout_unexpired block nd m x :
  block < signing_deadline x → kept (session_timeout T block nd m x) = Some x.
Proof. intros Hd. unfold session_timeout. by rewrite decide_False by lia. Qed.

(** An expired session outlives at most as many deadlines as it had left. *)
Lemma session_timeout_left block nd m x y :
  signing_deadline x ≤ block → kept (session_timeout T block nd m x) = Some y →
  (timeouts_left y < timeouts_left x)%nat ∧ signing_deadline y = nd.
Proof.
  intros Hd. unfold session_timeout, restart_signing_ceremony. rewrite decide_True by done.
  destruct x as [k g [r|] p signers d|k o g sid nc p signers d
                |k g sid nc rev last p signers d|k g sid rev sel p signers d|sid p d];
    simpl; try done; case_decide; try done; intros [= <-]; simpl; (split; [|done]);
    repeat case_match; lia.
Qed.

(** One block after every deadline: each session has fewer left, and none
    expires before the new deadline. *)
Lemma new_block_left s block n :
  (∀ m x, signing s !! m = Some x → signing_deadline x ≤ block ∧ (timeouts_left x ≤ S n)%nat) →
  ∀ m y, signing (apply_new_block T s block).1 !! m = Some y →
    (timeouts_left y ≤ n)%nat ∧ signing_deadline y ≤ block + signing_timeout T.
Proof.
  intros Hs m y. rewrite new_block_lookup.
  intros (x & Hx & Hy)%bind_Some. destruct (Hs _ _ Hx) as [Hd Hn].
  apply session_timeout_left in Hy as [Hlt ->]; [|done].
  split; [lia|]. unfold saturating_add. lia.
Qed.

Lemma timeouts_left_bounds x : (1 ≤ timeouts_left x ≤ 3)%nat.
Proof. destruct x as [? ? []| | | |]; simpl; lia. Qed.
End sessions.

Section rounds.
Context {AL : Alloy} {FL : FrostLib} (T : Transition).

Lemma start_key_gen_deadline s e ps d :
  round_deadline (rollover (start_key_gen T s e ps d).1) = d.
Proof. unfold start_key_gen. by destruct (participate_as _ _) as [[? ?]|]. Qed.

Lemma restart_deadline s e ex d d' :
  round_deadline (rollover (restart_key_gen_excluding T s e ex d).1) = Some d' → d = Some d'.
Proof.
  unfold restart_key_gen_excluding. destruct e; simpl; [done|].
  destruct (epoch_participants _ _ _); simpl; [by rewrite start_key_gen_deadline|done].
Qed.

Lemma after_rounds_deadline s block d :
  block < u64_max →
  round_deadline (rollover (after_rounds T s block)) = Some d → block < d.
Proof.
  intros Hb. unfold after_rounds, handle_key_gen_timeouts.
  set (s1 := (handle_rollover_new_block T s block).1). cbv zeta.
  destruct (stuck_setup block (rollover s1)) as [e|] eqn:Hst; simpl; [by destruct e|].
  destruct (timed_out block (rollover s1)) as [[e ex]|] eqn:Hto.
  - intros [= <-]%restart_deadline. apply saturating_add_gt; [done|apply key_gen_timeout_pos].
  - simpl. unfold timed_out in Hto.
    destruct (rollover s1) as [| | | |e g c comms [d1|]|e g p pk sh compl [d1|]
                 |e g p status conf compl [ds|]|]; try done;
      repeat case_decide; simplify_eq/=; intros; simplify_eq/=; lia.
Qed.
End rounds.

(** ** Properties *)

Section properties.
Context {AL : Alloy} {FL : FrostLib}.

(** [C35] After the housekeeping of a block below the largest one, every
    session and every key generation round with a deadline ends strictly
    after that block. *)
Theorem nothing_past_deadline T s block :
  block < u64_max →
  (∀ m x, signing (apply_new_block T s block).1 !! m = Some x →
    block < signing_deadline x) ∧
  (∀ d, round_deadline (rollover (apply_new_block T s block).1) = Some d → block < d).
Proof.
  intros Hb. split.
  - intros m y. rewrite new_block_lookup. intros (x & Hx & Hy)%bind_Some.
    destruct (decide (signing_deadline x ≤ block)) as [Hd|Hd].
    + apply session_timeout_left in Hy as [_ ->]; [|done].
      by apply saturating_add_gt.
    + rewrite session_timeout_unexpired in Hy by lia. simplify_eq. lia.
  - intros d. rewrite new_block_rollover. by apply after_rounds_deadline.
Qed.

(** [C36] Sessions nobody answers end: once every deadline has passed, three
    blocks that are a signing timeout apart drop every session. *)
Theorem abandoned_sessions_end T s b1 b2 b3 :
  (∀ m x, signing s !! m = Some x → signing_deadline x ≤ b1) →
  b1 + signing_timeout T ≤ b2 → b2 + signing_timeout T ≤ b3 →
  signing (run_blocks T s [b1; b2; b3]) = ∅.
Proof.
  intros H1 H12 H23. apply map_empty. intros m. simpl.
  set (s1 := (apply_new_block T s b1).1). set (s2 := (apply_new_block T s1 b2).1).
  destruct (signing (apply_new_block T s2 b3).1 !! m) as [z|] eqn:Hz; [|done].
  pose proof (new_block_left T s b1 2) as Hs1. fold s1 in Hs1.
  pose proof (new_block_left T s1 b2 1) as Hs2. fold s2 in Hs2.
  pose proof (new_block_left T s2 b3 0) as Hs3.
  apply Hs3 in Hz as [Hz _]; [pose proof (timeouts_left_bounds z); lia|].
  intros m2 y Hy. apply Hs2 in Hy as [Hn Hd]; [lia|].
  intros m1 x Hx. apply Hs1 in Hx as [Hn1 Hd1]; [lia|].
  intros m0 w Hw. split; [by eapply H1|]. pose proof (timeouts_left_bounds w). lia.
Qed.
End properties.
