(* ===== verification/Toy.v ===== *)
(** * Concrete library instances

    Small executable instances of the library parameters, at which the
    development is evaluated: an additive toy curve on the natural numbers with
    constant polynomials for secret sharing, and an arithmetic digest. They
    satisfy the documented behaviour the theorems rely on and have no
    cryptographic strength. *)

From S2P Require Import Prelude.
From S2P Require Import Bytes.
From S2P Require Import Epoch.
From S2P Require Import Bindings.
From S2P Require Import Alloy.
From S2P Require Import Group.
From S2P Require Import Hashing.
From S2P Require Import FrostLib.
From S2P Require Import Frost.
From S2P Require Import FrostKeygen.
From S2P Require Import FrostSign.
From S2P Require Import Core.
From S2P Require Import State.

(** Closes a closed goal by evaluation. *)
Ltac computes := vm_compute; first [reflexivity | exact I | discriminate | done].

(** An odd 256-bit digest that spreads its input over the word. *)
Definition toy_keccak (b : Bytes) : B256 :=
  (2 * (from_be_bytes b * (2 ^ 100 + 1)) + 1) mod 2 ^ 256.

#[export] Instance ToyAlloy : Alloy := {|
  keccak256 := toy_keccak;
  separator d := Eip712Domain.chain_id d;
  transaction_proposal_encode_type := [x54];
  safe_tx_eip712_hash_struct tx := SafeTx.nonce tx;
  safe_tx_eip712_signing_hash tx d := SafeTx.nonce tx + Eip712Domain.chain_id d;
  epoch_rollover_eip712_signing_hash r d := 2 * EpochRolloverStruct.proposedEpoch r;
  coordinator_abi_encode _ := [];
  consensus_abi_encode _ := [];
  u64_pair_abi_encode p := to_be_bytes 32 p.1 ++ to_be_bytes 32 p.2;
|}.

Definition toy_head (l : list N) : N := default 0 (head l).

#[export] Instance ToyFrost : FrostLib := {|
  Rng := N;
  fill_bytes n rng := (to_be_bytes n rng, rng + 1);
  chacha_from_rng rng := (Ok rng, rng + 1);
  set_stream stream rng := rng + stream;
  Scalar := N;
  scalar_from_repr x := Some x;
  scalar_to_bytes x := x;
  hash_to_field msgs _ := from_be_bytes (concat msgs);
  ProjectivePoint := N;
  point_identity := 0;
  point_generator := 1;
  point_add := N.add;
  point_mul := N.mul;
  affine_x p := p;
  affine_y _ := 1;
  point_from_coordinates x _ := Some x;
  Identifier := N;
  Identifier_derive := from_be_bytes;
  Round1Secret := (N * N * list N)%type;
  round1_identifier s := s.1.1;
  round1_commitment s := s.2;
  Round2Secret := (N * N * list N)%type;
  round2_identifier s := s.1.1;
  round2_commitment s := s.2;
  round2_secret_share s := toy_head s.2;
  KeyPackage := (N * N * N * N)%type;
  key_package_identifier k := k.1.1.1;
  key_package_signing_share k := k.1.1.2;
  key_package_verifying_key k := k.1.2;
  key_package_min_signers k := k.2;
  dkg_part1 id count threshold rng :=
    (Ok ((id, threshold, [id + 1]), ([id + 1], (1, 1))), rng + 1);
  dkg_part2 s peers := Ok (s, (λ _, toy_head s.2) <$> peers);
  dkg_part3 s peers shares :=
    let total := foldr N.add (toy_head s.2) (map_to_list shares).*2 in
    Ok (s.1.1, total, total, s.1.2);
  verify_proof_of_knowledge _ _ _ := Ok ();
  sum_commitments l := Ok [foldr N.add 0 (toy_head <$> l)];
  verifying_share_from_commitment _ c := toy_head c;
  verifying_key_from_commitment c := Ok (toy_head c);
  secret_share_verify _ share c :=
    if decide (share = toy_head c) then Ok () else Err (FrostOther 0);
  SigningNonces := N;
  signing_nonces_new share rng := (share + rng, rng + 1);
  signing_nonces_commitments n := (n + 1, n + 2);
  round2_sign _ n k := Ok (n + k.1.1.2);
  compute_binding_factor_list p _ _ := Ok ((λ _, 1) <$> p.1);
  derive_interpolating_value _ _ := Ok 1;
  compute_group_commitment _ _ := Ok 1;
|}.

(** Numbers as points and scalars of the toy curve. *)
Definition toy_point (n : N) : @ProjectivePoint ToyFrost := n.
Definition toy_scalar (n : N) : @Scalar ToyFrost := n.
Definition toy_rng (n : N) : @Rng ToyFrost := n.

(** ** Documented behaviour holds *)

Lemma toy_keccak_bounded : keccak_bounded.
Proof. intros a. apply N.mod_lt. done. Qed.

Lemma toy_keccak_odd b : N.odd (toy_keccak b) = true.
Proof.
  unfold toy_keccak.
  replace (2 ^ 256) with (2 * 2 ^ 255) by done.
  rewrite N.Div0.mod_mul_r.
  replace ((2 * (from_be_bytes b * (2 ^ 100 + 1)) + 1) mod 2) with 1.
  - rewrite N.odd_add_mul_2. done.
  - rewrite N.add_comm, N.mul_comm, N.Div0.mod_add. done.
Qed.

Lemma toy_curve_codec : curve_codec_ok.
Proof. split; simpl; [done|intros p Hp [? ?]; done|done]. Qed.

Lemma toy_point_mul_comm : point_mul_comm.
Proof. intros a b. simpl. lia. Qed.
