(* ===== verification/Scenario.v ===== *)
(** * Concrete runs

    A configuration of two validators with runs through a key generation and a
    signature; and a chain with a node that serves it, for services whose events
    are the entries of a list, with a deployment on it. *)

From Stdlib Require Strings.String.
From S2P Require Import Prelude.
From S2P Require Import Bytes.
From S2P Require Import Core.
From S2P Require Import Epoch.
From S2P Require Import Bindings.
From S2P Require Import Alloy.
From S2P Require Import Group.
From S2P Require Import Hashing.
From S2P Require Import FrostLib.
From S2P Require Import Frost.
From S2P Require Import FrostKeygen.
From S2P Require Import FrostSign.
From S2P Require Import State.
From S2P Require Import StateMachine.
From S2P Require Import TxQueue.
From S2P Require Import Provider.
From S2P Require Import Blocks.
From S2P Require Import Events.
From S2P Require Import EventsFetch.
From S2P Require Import Watcher.
From S2P Require Import Driver.
From S2P Require Import Process.
From S2P Require Import Preprocessing.
From S2P Require Import Signing.
From S2P Require Import KeyGen.
From S2P Require Import Complaints.
From S2P Require Import Machine.
From S2P Require Import RolloverInvariant.
From S2P Require Import Toy.

Import String.StringSyntax.

Module Scenario.
(** ** Configuration *)

Definition consensus_address : Address := 1000.
Definition oracle_address : Address := 77.

Definition config : ValidatorConfig.t := {|
  ValidatorConfig.consensus := consensus_address;
  ValidatorConfig.staker := None;
  ValidatorConfig.participants :=
    [Participant.mk 1 0 None; Participant.mk 2 0 None];
  ValidatorConfig.oracles := {[ oracle_address ]};
  ValidatorConfig.genesis_salt := 0;
  ValidatorConfig.blocks_per_epoch := 100;
  ValidatorConfig.key_gen_timeout := 10;
  ValidatorConfig.signing_timeout := 12;
  ValidatorConfig.oracle_timeout := 20;
|}.

Definition genesis : ParticipantSet :=
  default (ParticipantSet.mk ∅ ∅ 0)
    (participants_set (ValidatorConfig.participants config)
       (EpochGenesis (ValidatorConfig.genesis_salt config))).

(** The view of validator 1. *)
Definition T : Transition := {|
  Transition.account := 1;
  Transition.genesis := genesis;
  Transition.consensus := consensus_domain_new 5 consensus_address;
  Transition.config := config;
|}.

(** ** Key generation *)

Definition group : Group.t := group_of genesis.
Definition gid : B256 := Group.id group.

Definition event (block address : N) (data : Event) : Message :=
  MEvent {| log_block := block; log_index := 0; log_address := address;
            log_data := data |}.
Definition coordinator (block : N) (e : Coordinator.CoordinatorEvents) : Message :=
  event block 500 (EvCoordinator e).

(** The secrets of each validator. *)
Definition secrets_of (a : Address) : Secrets :=
  match (setup (10 * a) a 2 2).1 with
  | Ok s => s
  | Err _ => {| secrets_encryption_key := (0 : Scalar);
                secrets_secret_package := ((0, 0, []) : Round1Secret);
                secrets_proof_of_knowledge := ((0, 0) : FrostSignature) |}
  end.

Definition committed_in (gid : B256) (a : Address) : Message :=
  coordinator 2 (Coordinator.EvKeyGenCommitted
    (Coordinator.KeyGenCommitted.mk gid a (secrets_commitment (secrets_of a)) false)).
Definition committed : Address → Message := committed_in gid.

Definition commitments : gmap Address VerifiedCommitment :=
  foldr (λ a m,
    match verify_commitment a (secrets_commitment (secrets_of a)) with
    | Ok c => <[a := c]> m
    | Err _ => m
    end) ∅ [1; 2].

Definition sharing_state_of (a : Address) : option SharingState :=
  match generate_secret_shares (secrets_of a) commitments with
  | Ok (st, _) => Some st
  | Err _ => None
  end.
Definition share_of (a : Address) : KeyGenSecretShare.t :=
  match generate_secret_shares (secrets_of a) commitments with
  | Ok (_, share) => share
  | Err _ => KeyGenSecretShare.mk (Point.mk 0 0) []
  end.

Definition shared_in (gid : B256) (a : Address) : Message :=
  coordinator 3 (Coordinator.EvKeyGenSecretShared
    (Coordinator.KeyGenSecretShared.mk gid a (share_of a) false)).
Definition shared : Address → Message := shared_in gid.

Definition confirmed_in (gid : B256) (a : Address) : Message :=
  coordinator 4 (Coordinator.EvKeyGenConfirmed
    (Coordinator.KeyGenConfirmed.mk gid a false)).
Definition confirmed : Address → Message := confirmed_in gid.

Definition start : list Message :=
  [coordinator 1 (Coordinator.EvKeyGen (Coordinator.KeyGen.mk gid 0 2 2 0));
   MResume (Setup gid (secrets_of 1))].
Definition key_generation : list Message :=
  start ++ [committed 1; committed 2; shared 1; shared 2; confirmed 1; confirmed 2].

(** ** Signing a transaction *)

Definition key_share : KeyShare :=
  default {| as_key_package := ((0, 0, 0, 0) : KeyPackage) |}
    (epoch_key_share <$> epochs (run T key_generation) !! Genesis).

Definition chunk : NonceChunk :=
  match (with_size 2 key_share 40).1 with
  | Ok c => c
  | Err _ => {| chunk_nonces := []; chunk_commitment := 0 |}
  end.
Definition nonces (i : nat) : Nonces :=
  default {| nonces_signing_nonces := (0 : SigningNonces); nonces_proof := [] |}
    (chunk_nonces chunk !! i).

Definition preprocessed : Message :=
  coordinator 5 (Coordinator.EvPreprocess
    (Coordinator.Preprocess.mk gid 1 0 (chunk_commitment chunk))).

Definition transaction : SafeTransaction := {|
  SafeTransaction.chainId := 1;
  SafeTransaction.safe := 99;
  SafeTransaction.to := 98;
  SafeTransaction.value := 3;
  SafeTransaction.data := [];
  SafeTransaction.operation := CALL;
  SafeTransaction.safeTxGas := 0;
  SafeTransaction.baseGas := 0;
  SafeTransaction.gasPrice := 0;
  SafeTransaction.gasToken := 0;
  SafeTransaction.refundReceiver := 0;
  SafeTransaction.nonce := 7;
|}.

Definition proposed : Message :=
  event 6 consensus_address (EvConsensus (Consensus.EvTransactionProposed
    (Consensus.TransactionProposed.mk 0 0 oracle_address 0 [] transaction))).
Definition message : B256 :=
  transaction_packet_hash (Transition.consensus T) Genesis oracle_address [] transaction.
Definition sid : B256 := 4242.

Definition requested : Message :=
  coordinator 7 (Coordinator.EvSign (Coordinator.Sign.mk 2 gid message sid 0)).
Definition approved : Message :=
  event 8 oracle_address (EvOracle (Oracle.EvOracleResult
    (Oracle.OracleResult.mk message 3 [] true))).
Definition revealed (a : Address) : Message :=
  coordinator 9 (Coordinator.EvSignRevealedNonces
    (Coordinator.SignRevealedNonces.mk sid a (nonces_reveal (nonces 0)).1)).
Definition share_published (a : Address) : Message :=
  coordinator 10 (Coordinator.EvSignShared (Coordinator.SignShared.mk sid 11 a 0)).
Definition completed : Message :=
  coordinator 11 (Coordinator.EvSignCompleted
    (Coordinator.SignCompleted.mk sid 11 (Signature.mk (Point.mk 0 0) 0))).
Definition attested : Message :=
  event 12 consensus_address (EvConsensus (Consensus.EvTransactionAttested
    (Consensus.TransactionAttested.mk (safe_tx_hash transaction) 0 oracle_address 0
       (keccak256 []) sid (Signature.mk (Point.mk 0 0) 0)))).

(** The states of the session, in the order the run reaches them. *)
Definition requesting : list Message := key_generation ++ [preprocessed; proposed].
Definition awaiting_oracle : list Message := requesting ++ [requested].
Definition collecting_nonces : list Message := awaiting_oracle ++ [approved].
Definition collecting_shares : list Message :=
  collecting_nonces ++ [revealed 1; revealed 2].
Definition signed : list Message := collecting_shares ++ [share_published 1; share_published 2; completed].

(** ** The first epoch *)

Definition epoch_one : ParticipantSet :=
  default (ParticipantSet.mk ∅ ∅ 0) (epoch_participants T 1 ∅).
Definition gid_one : B256 := Group.id (group_of epoch_one).
Definition staged : Message :=
  event 90 consensus_address (EvConsensus (Consensus.EvEpochStaged
    (Consensus.EpochStaged.mk 0 1 100 gid_one (Point.mk 0 0) 5
       (Signature.mk (Point.mk 0 0) 0)))).

(** A complaint against validator 2 in the share round of epoch 1. *)
Definition complained : Message :=
  coordinator 3 (Coordinator.EvKeyGenComplained
    (Coordinator.KeyGenComplained.mk gid_one 1 2 false)).
Definition sharing_one : list Message :=
  key_generation ++
  [MResume (Setup gid_one (secrets_of 1)); committed_in gid_one 1; committed_in gid_one 2].
Definition disputed_one : list Message := sharing_one ++ [complained].
Definition rollover_one : list Message :=
  sharing_one ++ [shared_in gid_one 1; shared_in gid_one 2;
                  confirmed_in gid_one 1; confirmed_in gid_one 2].
Definition epoch_one_tracked : list Message := rollover_one ++ [staged].

(** ** The run goes through the whole life of the session *)

Example genesis_group : Group.count group = 2 ∧ Group.threshold group = 2.
Proof. by vm_compute. Qed.

Lemma T_ok : Transition_ok T.
Proof. by vm_compute. Qed.

Example genesis_tracked :
  is_Some (epochs (run T key_generation) !! Genesis) ∧
  next_epoch (rollover (run T key_generation)) = Some (Number 1).
Proof. vm_compute. split; [by eexists|done]. Qed.
End Scenario.

(** ** A chain *)

#[export] Instance ToyChainBloom : AlloyBloom :=
  {| contains_input _ _ := true; alloy_logs_bloom _ := 0 |}.

(** The event of a log is an entry of a script. *)
Definition script_events {E} (script : list E) : Events E :=
  {| topics := [7]; decode_log topics _ := i ← topics !! 1%nat; script !! N.to_nat i |}.

Definition toy_header (n : N) : BlockHeader :=
  {| header_number := n; header_hash := 1000 + n; header_parent_hash := 999 + n;
     header_timestamp := n; header_logs_bloom := 0 |}.

(** The entries of the script, by the block they are in. *)
Definition toy_chain_logs (blocks : list N) : list Log :=
  imap (λ i n, {| raw_address := 9; raw_topics := [7; N.of_nat i]; raw_data := [];
                  raw_block_number := Some n; raw_block_hash := Some (1000 + n);
                  raw_log_index := Some (N.of_nat i) |}) blocks.

Definition toy_chain_reply (head : N) (blocks : list N) : Reply :=
  {| latency := 10;
     reply_block id :=
       match id with
       | IdLatest => Ok (Some (toy_header head))
       | IdNumber n => Ok (if decide (n ≤ head) then Some (toy_header n) else None)
       end;
     reply_logs f := Ok (filter (matches f) (toy_chain_logs blocks)) |}.

Definition toy_chain (head : N) (blocks : list N) : Network :=
  {| now_ms := 0; replies := replicate 9 (toy_chain_reply head blocks) |}.

Definition toy_index_config : IndexConfig :=
  {| blocks_config :=
       {| block_time := Millis 1000; block_propagation_delay := 0; block_retry_delays := [200];
          max_reorg_depth := 2; start_block := None |};
     watch_config :=
       {| block_page_size := 2; block_single_query_retry_count := 3;
          use_client_filtering := false; max_logs_per_query := None; fallible_events := ∅ |} |}.

Definition toy_deployment : Deployment :=
  {| deployed_chain := 1; deployed_addresses := [9];
     deployed_config :=
       {| config_index := toy_index_config;
          config_transactions :=
            {| max_in_flight_transactions := 16; blocks_before_resubmit := 2;
               priority_fee_cap := None |} |} |}.

(** The [regex] crate on literal patterns: simple case folding, of the characters it takes into ASCII: the
    capital letters, the long s and the Kelvin sign. *)
Definition fold_case (c : N) : N :=
  if decide (65 ≤ c ∧ c ≤ 90) then c + 32
  else if decide (c = 0x17F) then 115
  else if decide (c = 0x212A) then 107
  else c.

(** The pattern occurs in the message, in any case. *)
Fixpoint starts_with (re message : list N) : bool :=
  match re, message with
  | [], _ => true
  | c :: re, d :: message =>
      bool_decide (fold_case c = fold_case d) && starts_with re message
  | _ :: _, [] => false
  end.
Fixpoint is_match (re message : list N) : bool :=
  starts_with re message ||
  match message with [] => false | _ :: message => is_match re message end.

Definition toy_node : Node := {|
  node_chain_id := 1;
  transaction_count _ := Some 3;
  estimate_eip1559_fees := Some {| max_fee_per_gas := 100; max_priority_fee_per_gas := 10 |};
  can_sign _ := true;
  send_raw_transaction _ := Ok ();
  iregex := is_match;
|}.

(** The three messages of the source's test, and one that is no such rejection. *)
Example identifies_transaction_underpriced_error_messages :
  is_transaction_underpriced toy_node <$>
    (ErrorResp ∘ characters <$>
       ["replacement transaction is underpriced"%string;
        "rEpLaCeMeNt TrAnSaCtIoN uNdErPrIcEd"%string;
        "INTERNAL_ERROR: could not replace existing tx"%string;
        "transaction underpriced"%string]) = [true; true; true; false].
Proof. vm_compute. reflexivity. Qed.

(** A start, and updates, of a process on a chain whose databases answer. *)
Definition toy_start {World} (head : N) (blocks : list N) : Happening World :=
  HStart (toy_chain head blocks) toy_node (None, None) false.
Definition toy_updates {World} (head : N) (blocks : list N) (k : nat) : list (Happening World) :=
  replicate k (HUpdate (toy_chain head blocks) toy_node (None, None)).
