(* ===== verification/ServiceWitnesses.v ===== *)
(** * Witnesses for the service around the state machine

    The theorems with hypotheses on the secret store, the nonce streams, the
    reorg-aware machine, the transaction queue and the process, applied at
    concrete inputs. *)

From S2P Require Import Prelude.
From S2P Require Import Bytes.
From S2P Require Import Database.
From S2P Require Import Core.
From S2P Require Import Epoch.
From S2P Require Import Bindings.
From S2P Require Import Alloy.
From S2P Require Import Merkle.
From S2P Require Import Group.
From S2P Require Import Hashing.
From S2P Require Import FrostLib.
From S2P Require Import Frost.
From S2P Require Import FrostKeygen.
From S2P Require Import FrostSign.
From S2P Require Import State.
From S2P Require Import NonceStream.
From S2P Require Import Secrets.
From S2P Require Import Effects.
From S2P Require Import StateMachine.
From S2P Require Import TxQueue.
From S2P Require Import Encoder.
From S2P Require Import Machine.
From S2P Require Import Toy.
From S2P Require Import Scenario.

(** JSON texts that are the values themselves. *)
#[export] Instance ToySecretsJson : SecretsJson := {|
  Json := Secrets + Nonces;
  secrets_to_string s := Some (inl s);
  secrets_from_str j := match j with inl s => Some s | inr _ => None end;
  nonces_to_string n := Some (inr n);
  nonces_from_str j := match j with inr n => Some n | inl _ => None end;
|}.
#[export] Instance ToyStateJson (S : Type) : StateJson S := {|
  StateText := S;
  state_to_string s := Some s;
  state_from_str s := Some s;
|}.

Lemma toy_json_roundtrip : json_roundtrip ToySecretsJson.
Proof. split; intros ? ? [= <-]; done. Qed.
Lemma toy_state_roundtrip S : state_roundtrip (ToyStateJson S).
Proof. intros ? ? [= <-]. done. Qed.

Lemma first_component {A B} (p : A * B) a : p.1 = a → p = (a, p.2).
Proof. destruct p. by intros [= ->]. Qed.

(** ** Nonce streams *)

(** A request is cancelled and replaced while the worker still samples. *)
Definition stream_steps : list (Step nat) :=
  [Next; Cancel 0; ReleasePermit 0; Next; CloseReceiver 0; Sample (Some 7%nat); Recv].
Definition stream_state : NonceStream nat :=
  default NonceStream_new (take_steps NonceStream_new stream_steps).

Lemma nonce_chunks_sent_once_witness :
  let s := default NonceStream_new
    (take_steps NonceStream_new (stream_steps ++ [TryRecv; TryRecv; Send; Complete 1])) in
  sent s = [(0%nat, 1%nat)] ∧ StronglySorted lt (sent s).*1 ∧ NoDup (sent s).*2 ∧
  (∀ id id' f f' k c c', futures s !! id = Some f → futures s !! id' = Some f' →
     receiver f = Open (Some (k, c)) → receiver f' = Open (Some (k, c')) → id = id') ∧
  (∀ id id', awaiting s id → awaiting s id' → id = id').
Proof.
  split; [reflexivity|].
  apply (nonce_chunks_sent_once (stream_steps ++ [TryRecv; TryRecv; Send; Complete 1])).
  vm_compute. reflexivity.
Defined.

Lemma nonce_requests_served_witness :
  poll stream_state 1 = None ∧ inevitably (has_chunk 1) stream_state.
Proof.
  apply (nonce_requests_served stream_steps stream_state 1 8%nat).
  - reflexivity.
  - vm_compute. discriminate.
  - reflexivity.
  - exists true. reflexivity.
Defined.

(** ** Effects *)

Definition toy_world : World := {|
  thread_rng := 10;
  answers := None;
  spawns _ := true;
  streamed _ := Ok (Some Scenario.chunk);
|}.

Definition started : list (World * Effect) :=
  [(toy_world, StartNonceGeneration Scenario.gid Scenario.key_share);
   (toy_world, NonceTree Scenario.gid)].
Definition started_handler : Handler :=
  perform_effects (Handler_new 1 SecretStore_new) started.
Definition chunk_root : B256 := chunk_commitment Scenario.chunk.

Definition keep_group : gmap B256 (option KeyShare) := {[ Scenario.gid := None ]}.

Lemma used_nonce_burned_witness :
  let h := (perform_effect toy_world started_handler (UseNonce 5 chunk_root 1)).2 in
  ∃ g, (∃ a, nonces_chunks (stored h) !! chunk_root = Some (g, a)) ∧
    ∀ later w' m',
      (∀ w'' groups, (w'', ReconcileGroupSecrets groups) ∈ later → is_Some (groups !! g)) →
      (perform_effect w' (perform_effects h later) (UseNonce m' chunk_root 1)).1 = Noop.
Proof.
  apply (used_nonce_burned 1 started toy_world 5 chunk_root 1 (Scenario.nonces 1)).
  apply first_component. vm_compute. reflexivity.
Defined.

Definition set_up : Handler :=
  (perform_effect toy_world (Handler_new 1 SecretStore_new) (KeyGenSetup Scenario.gid 2 2)).2.

Lemma key_gen_secrets_kept_witness :
  (perform_effect {| thread_rng := 77; answers := None; spawns _ := true;
                     streamed _ := Err Unavailable |}
     (perform_effects set_up [(toy_world, ReconcileGroupSecrets keep_group)])
     (KeyGenSetup Scenario.gid 2 2)).1 ∈
    [Setup Scenario.gid (Scenario.secrets_of 1); Noop].
Proof.
  apply (key_gen_secrets_kept toy_world (Handler_new 1 SecretStore_new) Scenario.gid 2 2
    (Scenario.secrets_of 1) set_up [(toy_world, ReconcileGroupSecrets keep_group)]).
  - apply first_component. vm_compute. reflexivity.
  - intros w'' groups [= _ ->]%list_elem_of_singleton. reflexivity.
Defined.

Lemma reconciliation_exact_witness :
  let h := started_handler in
  let h' := (perform_effect toy_world h (ReconcileGroupSecrets keep_group)).2 in
  is_Some (nonces_chunks (stored h') !! chunk_root) ∧
  (∀ g a, keygen_secrets (stored h') !! (g, a) =
     match keep_group !! g with
     | Some None => keygen_secrets (stored h) !! (g, a)
     | _ => None
     end) ∧
  (∀ root, nonces_chunks (stored h') !! root =
     row ← nonces_chunks (stored h) !! root;
     if decide (is_Some (keep_group !! row.1)) then Some row else None) ∧
  (∀ root offs, nonces_table (stored h') !! (root, offs) =
     match nonces_chunks (stored h') !! root with
     | Some _ => nonces_table (stored h) !! (root, offs)
     | None => None
     end) ∧
  (∀ g, nonce_generator h' !! g =
     match keep_group !! g with
     | Some (Some k) => Some (default k (nonce_generator h !! g))
     | _ => None
     end).
Proof.
  split; [vm_compute; by eexists|].
  exact (reconciliation_exact 1 started toy_world keep_group eq_refl (λ g, eq_refl)).
Defined.

Lemma registered_nonces_usable_witness :
  perform_effect toy_world started_handler (RevealNonceCommitments 3 4 chunk_root 1) =
    (NonceCommitments 3 4 (nonces_reveal (Scenario.nonces 1)).1
       (nonces_reveal (Scenario.nonces 1)).2, Effects.with_answers toy_world started_handler).
Proof.
  eapply (registered_nonces_usable toy_world
    (perform_effects (Handler_new 1 SecretStore_new) (take 1 started)) Scenario.gid
    Scenario.chunk chunk_root started_handler 1 (Scenario.nonces 1) toy_world 3 4).
  - exact toy_json_roundtrip.
  - reflexivity.
  - apply (first_component (perform_effect toy_world
      (perform_effects (Handler_new 1 SecretStore_new) (take 1 started))
      (NonceTree Scenario.gid))).
    vm_compute. reflexivity.
  - vm_compute. reflexivity.
  - reflexivity.
Defined.

(** ** Actions *)

Lemma encode_action_faithful_witness :
  let e := {| coordinator := 500; consensus := 400 |} in
  abi_collision ∧ tx_value (encode_action e (Preprocess 1 2)).1 = 0 ∧
  (tx_to (encode_action e (Preprocess 1 2)).1 = 500 ∨
   tx_to (encode_action e (Preprocess 1 2)).1 = 400).
Proof.
  apply (encode_action_faithful {| coordinator := 500; consensus := 400 |}
    (Preprocess 1 2) (Preprocess 1 3)).
  - discriminate.
  - discriminate.
  - reflexivity.
Defined.

(** ** The reorg-aware machine *)

(** A state that lists what it has seen, and says so. *)
Definition record_transition (s : list N) (m : Core.Message N N) : list N * list (Core.Command N N) :=
  match m with
  | NewBlock n => (s ++ [n], [CAction n])
  | MEvent log => (s ++ [log_data log], [CEffect (log_data log)])
  | MResume r => (s ++ [r], [])
  end.

Definition empty_logs (n : N) : Update N :=
  ULogs {| update_blocks := mkRange n n; update_logs := [] |}.
Definition block_operations (n : N) : list (option nat * Operation (Event := N) (Resume := N)) :=
  [(None, OpUpdate (UBlock (New n 0 0))); (None, OpUpdate (empty_logs n))].

(** Three blocks, a resume, and the replacement of the last block. *)
Definition indexed : list (option nat * Operation (Event := N) (Resume := N)) :=
  block_operations 5 ++ block_operations 6 ++ [(None, OpResume 100)] ++ block_operations 7.
Definition reindexed : list (option nat * Operation (Event := N) (Resume := N)) :=
  indexed ++ [(None, OpUpdate (UBlock (Uncle 7))); (None, OpRestart)] ++ block_operations 7.

Lemma machine_replays_history_witness :
  let '(m, h) := operations record_transition [] reindexed in
  fst <$> inner m = Some [5; 6; 7] ∧
  (∀ state status, inner m = Some (state, status) →
     state = replay record_transition [] (messages h)) ∧
  (∀ b text, tables (snapshots m) !! b = Some text → ∃ c1 ms c2,
     committed h = c1 ++ (b, ms) :: c2 ∧
     state_from_str text =
       Some (replay record_transition [] (committed_messages (c1 ++ [(b, ms)])))) ∧
  StronglySorted N.lt (committed h).*1 ∧
  StronglySorted pos_lt (positions (messages h)).
Proof.
  split; [vm_compute; reflexivity|].
  exact (machine_replays_history record_transition [] reindexed (toy_state_roundtrip _)).
Defined.

Lemma reorg_restores_witness :
  let s := operations record_transition [] indexed in
  let s' := operate record_transition [] s (None, OpUpdate (UBlock (Uncle (6 + 1)))) in
  ∃ restored, Some [5; 6] = Some restored ∧
    inner s'.1 = Some (restored, BlockPending (6 + 1)) ∧
    s'.2 = history_update s.2 (UBlock (Uncle (6 + 1))) ∧
    restored = replay record_transition [] (messages s'.2) ∧
    ∀ p, p ∈ positions (messages s'.2) → p.1 ≤ 6.
Proof.
  exact (reorg_restores (SJ := ToyStateJson (list N)) record_transition [] indexed
    [5; 6; 100; 7] (BlockPending 8) 6 [5; 6] (toy_state_roundtrip _)
    ltac:(vm_compute; reflexivity) ltac:(vm_compute; reflexivity)
    ltac:(vm_compute; reflexivity) ltac:(vm_compute; discriminate)).
Defined.

(** ** The transaction queue *)

Definition toy_transaction (n : N) : Core.Transaction :=
  {| tx_to := 500; tx_value := 0; tx_data := []; tx_gas := n |}.
Definition queued_table : TransactionStorage :=
  mkDb [queued_row (toy_transaction 1) (Some 4); queued_row (toy_transaction 2) (Some 9);
        set_nonce (queued_row (toy_transaction 3) None) 11] None.

Lemma oldest_unexpired_next_witness :
  ∃ l1 old l2, tables queued_table = l1 ++ old :: l2 ∧
    tables (next_transaction 7 5 queued_table).2 = l1 ++ set_nonce old 12 :: l2 ∧
    toy_transaction 2 = row_request old ∧
    row_nonce old = None ∧ (∀ e, row_expires_at old = Some e → 5 < e) ∧
    (∀ row, row ∈ l1 → is_Some (row_nonce row) ∨ ∃ e, row_expires_at row = Some e ∧ e ≤ 5) ∧
    7 ≤ 12 ∧ ∀ m, m ∈ omap row_nonce (tables queued_table) → m < 12.
Proof.
  apply (oldest_unexpired_next 7 5 queued_table
    (allocated (queued_row (toy_transaction 2) (Some 9)) 12)).
  vm_compute. reflexivity.
Defined.

Lemma replacement_outbids_witness :
  let row := set_submission (queued_row (toy_transaction 1) None) (Some 3)
    {| max_fee_per_gas := 100; max_priority_fee_per_gas := 10 |} in
  let fees := eip_fees (build_transaction (allocated row 2) 1
    {| max_fee_per_gas := 100; max_priority_fee_per_gas := 10 |}) in
  (11 * 100 ≤ 10 * max_fee_per_gas fees ∨ u128_max ≤ max_fee_per_gas fees) ∧
  (11 * 10 ≤ 10 * max_priority_fee_per_gas fees ∨ u128_max ≤ max_priority_fee_per_gas fees).
Proof.
  apply (replacement_outbids (set_submission (queued_row (toy_transaction 1) None) (Some 3)
    {| max_fee_per_gas := 100; max_priority_fee_per_gas := 10 |}) 2 1
    {| max_fee_per_gas := 100; max_priority_fee_per_gas := 10 |} None); reflexivity.
Defined.

Lemma priority_fee_capped_witness :
  let fees := {| max_fee_per_gas := 100; max_priority_fee_per_gas := 60 |} in
  let capped := cap_priority_fee fees 250000 in
  max_priority_fee_per_gas capped ≤ 60 ∧
  max_priority_fee_per_gas capped ≤ max_fee_per_gas capped ∧
  max_fee_per_gas capped - max_priority_fee_per_gas capped = 100 - 60 ∧
  (250000 < PRECISION →
   PRECISION * max_priority_fee_per_gas capped ≤ 250000 * max_fee_per_gas capped).
Proof.
  apply (priority_fee_capped {| max_fee_per_gas := 100; max_priority_fee_per_gas := 60 |}).
  vm_compute. discriminate.
Defined.
