(* ===== verification/IndexWitnesses.v ===== *)
(** * Witnesses for the indexer

    A node that serves one of two chains, which part at block 7, and runs of the
    watchers against it. *)

From S2P Require Import Prelude.
From S2P Require Import Bytes.
From S2P Require Import Database.
From S2P Require Import Core.
From S2P Require Import StateMachine.
From S2P Require Import Provider.
From S2P Require Import Blocks.
From S2P Require Import BlocksInvariant.
From S2P Require Import BlocksFollow.
From S2P Require Import Events.
From S2P Require Import EventsFetch.
From S2P Require Import EventsWarp.
From S2P Require Import Watcher.
From S2P Require Import Indexing.
From S2P Require Import IndexSafety.
From S2P Require Import ServiceWitnesses.

(** ** The node *)

Definition fork_hash (fork n : N) : B256 := n + (if decide (n < 7) then 1 else fork) * 1000.
Definition fork_number (hash : B256) : N := hash mod 1000.

Definition fork_block (fork n : N) : BlockHeader :=
  {| header_number := n; header_hash := fork_hash fork n;
     header_parent_hash := fork_hash fork (n - 1); header_timestamp := n;
     header_logs_bloom := 0 |}.

(** The logs of the watched event, at blocks 4 to 7. *)
Definition fork_log (fork n : N) : Log :=
  {| raw_address := 9; raw_topics := [7; fork]; raw_data := [];
     raw_block_number := Some n; raw_block_hash := Some (fork_hash fork n);
     raw_log_index := Some 0 |}.
Definition fork_logs (fork : N) : list Log := fork_log fork <$> [4; 5; 6; 7].

Definition fork_reply (fork head : N) : Reply :=
  {| latency := 10;
     reply_block id :=
       match id with
       | IdLatest => Ok (Some (fork_block fork head))
       | IdNumber n => Ok (if decide (n ≤ head) then Some (fork_block fork n) else None)
       end;
     reply_logs f := Ok (filter (matches f) (fork_logs fork)) |}.

(** [k] replies of a fork. *)
Definition fork_net (fork head : N) (k : nat) : Network :=
  {| now_ms := 0; replies := replicate k (fork_reply fork head) |}.

Lemma fork_numbered fork n : n < 1000 → numbered fork_number (fork_block fork n).
Proof.
  intros Hn. split; simpl; [unfold u64_max; lia|].
  unfold fork_number, fork_hash. rewrite N.Div0.mod_add. by apply N.mod_small.
Qed.

Lemma fork_serves fork head k :
  head < 1000 → serves_good (numbered fork_number) (fork_net fork head k).
Proof.
  intros Hhead. apply Forall_replicate. split.
  - intros n b. simpl. case_decide; intros; by simplify_eq.
  - intros [|n] b; simpl; [intros [= <-]; by apply fork_numbered|].
    case_decide; intros; simplify_eq. apply fork_numbered. lia.
Qed.

Lemma fork_reply_ok fork head : head < 1000 → block_replies_ok bounded_block (fork_reply fork head).
Proof.
  intros Hhead. split.
  - intros n b. simpl. case_decide; intros; by simplify_eq.
  - intros [|n] b; simpl; [intros [= <-]|case_decide; intros; simplify_eq];
      unfold bounded_block, u64_max; simpl; lia.
Qed.

Lemma fork_ok fork head k : head < 1000 → node_ok (fork_net fork head k).
Proof. intros Hhead. by apply Forall_replicate, fork_reply_ok. Qed.

Lemma fork_keyed fork : keyed (fork_logs fork).
Proof.
  unfold fork_logs, fork_log. split.
  - apply NoDup_fmap_2_strong; [|repeat constructor; set_solver].
    intros n m _ _ H. by injection H.
  - intros a b (n & -> & _)%list_elem_of_fmap (m & -> & _)%list_elem_of_fmap. simpl.
    by intros [= ->].
Qed.

Lemma fork_honest fork head : honest (fork_logs fork) (fork_reply fork head).
Proof. intros f. by eexists. Qed.

Lemma fork_index_ok fork head k :
  head < 1000 → index_node_ok fork_number (fork_net fork head k).
Proof.
  intros Hhead. split; [by apply fork_serves| |].
  - apply Forall_replicate. split; simpl.
    + intros f logs [= <-]. apply keyed_filter, fork_keyed.
    + intros f logs log [= <-]. by intros [? _]%list_elem_of_filter.
    + intros f logs log hash [= <-]. intros [[Hm _] Hin]%list_elem_of_filter Hf.
      rewrite Hf in Hm. simpl in Hm. unfold fork_logs in Hin.
      apply list_elem_of_fmap in Hin as (n & -> & Hin). simpl in *. simplify_eq.
      f_equal. unfold fork_number, fork_hash. rewrite N.Div0.mod_add, N.mod_small; [done|].
      repeat (apply elem_of_cons in Hin as [->|Hin]; [lia|]). by apply elem_of_nil in Hin.
  - intros r1 r2 [-> _]%elem_of_replicate [-> _]%elem_of_replicate f1 f2 logs1 logs2 a b _
      [= <-] [= <-]. intros [_ Ha]%list_elem_of_filter [_ Hb]%list_elem_of_filter.
    destruct (fork_keyed fork) as [_ Hk]. by apply Hk.
Qed.

(** ** The block watcher *)

Definition toy_blocks_config : BlocksConfig :=
  {| block_time := Millis 1000; block_propagation_delay := 0; block_retry_delays := [200; 100];
     max_reorg_depth := 2; start_block := None |}.

(** A watcher that started with block 7 as the head. *)
Definition toy_blocks : BlockWatcher :=
  match BlockWatcher_new 1 toy_blocks_config None (fork_net 1 7 9) with
  | (Ok w, _) => w
  | (Err _, _) => {| watcher_config := toy_blocks_config; watcher_block_time := 0;
                     watcher_pending := {| pending_number := 0; pending_timestamp_ms := 0 |};
                     watcher_safe := {| safe_number := 0; safe_hash := 0 |};
                     recent := []; updates := [] |}
  end.

(** Blocks 6, 7 and 8, and the other fork from block 6 on. *)
Definition toy_calls : list (BlockCall * Network) :=
  replicate 3 (CallNext, fork_net 1 8 5) ++ replicate 6 (CallNext, fork_net 6 9 5) ++
  [(CallRevalidate, fork_net 1 9 5)].

Definition toy_net : Network := fork_net 1 7 9.

Lemma toy_new : ∃ net, BlockWatcher_new 1 toy_blocks_config None toy_net = (Ok toy_blocks, net).
Proof. eexists. vm_compute. reflexivity. Qed.

Lemma toy_calls_ok : Forall (λ call, node_ok call.2) toy_calls.
Proof.
  unfold toy_calls. rewrite !Forall_app.
  split_and!; [apply Forall_replicate| |apply Forall_singleton]; try (apply fork_ok; lia).
  apply Forall_replicate. apply fork_ok. lia.
Qed.

(** The updates of the run: forwards, back two blocks, and the other fork. *)
Lemma watcher_follows_chain_witness :
  ∃ us w, follow toy_blocks toy_calls = (us, w) ∧
    view (us ++ updates w) = [(6, 1006); (7, 6007); (8, 6008)] ∧
    ∃ chain k,
      linked (safe_number (watcher_safe toy_blocks)) (safe_hash (watcher_safe toy_blocks)) chain ∧
      suffix (recent w) chain ∧
      safe_number (watcher_safe toy_blocks) + N.of_nat (length chain) =
        status_latest (watcher_status w) ∧
      view (us ++ updates w) = block_key <$> drop k chain.
Proof.
  destruct toy_new as [net Hnew]. do 2 eexists.
  split; [vm_compute; reflexivity|split; [vm_compute; reflexivity|]].
  exact (watcher_follows_chain 1 toy_blocks_config None toy_net toy_blocks net toy_calls _ _
    Hnew ltac:(apply fork_ok; lia) toy_calls_ok ltac:(vm_compute; reflexivity)).
Defined.

(** The next update after the run up to the uncles, from a third fork. *)
Lemma reorgs_bounded_witness :
  ∃ us w, follow toy_blocks (take 5 toy_calls) = (us, w) ∧
  let '(r, (w', _)) := next_block_update (w, fork_net 7 9 5) in
  let before := watcher_status w in
  let after := watcher_status w' in
  status_latest after ≤ status_safe after + 2 ∧
  status_safe before ≤ status_safe after ∧
  (status_safe before = status_safe after → watcher_safe w = watcher_safe w') ∧
  (updates w = [] → ∀ number, r = Ok (Uncle number) → status_safe before < number) ∧
  (∀ depth, r = Err (Failed (ExceededMaxReorgDepth depth)) →
     status_latest before = status_safe before).
Proof.
  destruct toy_new as [net Hnew]. do 2 eexists. split; [vm_compute; reflexivity|].
  refine (reorgs_bounded 1 toy_blocks_config None toy_net toy_blocks net (take 5 toy_calls) _ _
    (fork_net 7 9 5) Hnew ltac:(apply fork_ok; lia) _ ltac:(vm_compute; reflexivity)
    ltac:(apply fork_ok; lia)).
  apply Forall_take, toy_calls_ok.
Defined.

(** Three replies of one fork, then the other for good. *)
Lemma initialization_completes_witness :
  ∃ w net', BlockWatcher_new 1 toy_blocks_config None
    {| now_ms := 0; replies := fork_reply 1 9 :: replicate 2 (fork_reply 1 9) ++
         replicate 6 (fork_reply 6 9) |} = (Ok w, net').
Proof.
  apply (initialization_completes 1 toy_blocks_config None 1000 _ (fork_reply 1 9) (fork_block 1 9)
    (replicate 2 (fork_reply 1 9)) (replicate 6 (fork_reply 6 9)) (fork_block 6)).
  - reflexivity.
  - apply Forall_cons; split; [|apply Forall_app; split; apply Forall_replicate];
      apply fork_reply_ok; lia.
  - reflexivity.
  - reflexivity.
  - apply Forall_replicate. intros n Hn. eexists. simpl. by rewrite decide_True.
  - intros n. simpl. by rewrite N.add_sub.
  - apply Forall_replicate. intros n Hn. simpl. by rewrite decide_True.
  - simpl. lia.
Defined.

(** A head that stays at block 7 while block 8 is awaited. *)
Lemma polling_rate_witness :
  ∃ m, m = 9%nat ∧ polls_at toy_blocks + 1000 * N.of_nat ((m - 1) / 3) = 10000 ∧
  let '(_, (_, net')) := fetch_pending (toy_blocks, fork_net 1 7 9) in
  m = (length (replies (fork_net 1 7 9)) - length (replies net'))%nat ∧
  (m = O ∨ polls_at toy_blocks + 1000 * N.of_nat ((m - 1) / 3) ≤ now_ms net').
Proof.
  exists 9%nat. split; [reflexivity|split; [vm_compute; reflexivity|]].
  pose proof (polling_rate toy_blocks (fork_net 1 7 9) ltac:(vm_compute; discriminate)) as H.
  destruct (fetch_pending (toy_blocks, fork_net 1 7 9)) as [r [w' net']] eqn:Hrun.
  vm_compute in Hrun. injection Hrun as <- <- <-. split; [reflexivity|exact H].
Defined.

(** ** The event watcher *)

#[local] Instance ToyEvents : Events N := { topics := [7]; decode_log topics _ := topics !! 1%nat }.
#[local] Instance ToyBloom : AlloyBloom :=
  { contains_input _ _ := true; alloy_logs_bloom _ := 0 }.

Definition toy_events_config : EventsConfig :=
  {| block_page_size := 2; block_single_query_retry_count := 3; use_client_filtering := false;
     max_logs_per_query := None; fallible_events := ∅ |}.

(** A warp over blocks 3 to 8, two at a time. *)
Definition toy_events : EventWatcher :=
  with_step (Warping 3 8 2) (EventWatcher_new toy_events_config [9]).

Definition toy_logs (ns : list N) : list (EventLog N) :=
  (λ n, {| log_block := n; log_index := 0; log_address := 9; log_data := 6 |}) <$> ns.

Lemma toy_lossless : lossless toy_events.
Proof. split; [done|done| |done]. simpl. apply NoDup_singleton. Qed.

Lemma fork_honest_all fork head k :
  Forall (honest (fork_logs fork)) (replies (fork_net fork head k)).
Proof. apply Forall_replicate, fork_honest. Qed.

Lemma fork_truthful fork head k :
  Forall (truthful (fork_logs fork)) (replies (fork_net fork head k)).
Proof. apply Forall_replicate, honest_truthful, fork_honest. Qed.

(** A limit of four logs: the blocks 3 to 8 have as many, 5 to 7 fewer. *)
Definition limited_events : EventWatcher :=
  EventWatcher_new {| block_page_size := 2; block_single_query_retry_count := 3;
    use_client_filtering := false; max_logs_per_query := Some 4%positive;
    fallible_events := ∅ |} [9].


(** The node answers some calls only. *)
Definition toy_warp : list (bool * Network) :=
  (true, fork_net 6 9 3) :: (false, fork_net 6 9 0) :: replicate 5 (true, fork_net 6 9 3).

Lemma warp_fetches_all_witness :
  ∃ us w, event_calls toy_events (take 3 toy_warp).*2 = (us, w) ∧
  update_blocks <$> us = [mkRange 3 4; mkRange 5 6] ∧
  Forall (λ u, range_last (update_blocks u) < range_start (update_blocks u) +
    nonzero_get (block_page_size (events_config toy_events))) us ∧
  ∃ next, covers 3 (update_blocks <$> us) = Some next ∧ next ≤ 8 + 1 ∧
    (step w = Idle ↔ next = 8 + 1) ∧
    decode_and_sort (filter (between toy_events 3 next) (fork_logs 6)) =
      Ok (concat (update_logs <$> us)).
Proof.
  do 2 eexists. split; [vm_compute; reflexivity|split; [vm_compute; reflexivity|]].
  eapply (warp_fetches_all (fork_logs 6) (fork_keyed 6) toy_events 3 8 2 (take 3 toy_warp).*2).
  - apply toy_lossless.
  - lia.
  - unfold u64_max. lia.
  - reflexivity.
  - simpl. lia.
  - simpl. repeat (apply Forall_cons; split; [apply fork_truthful|]). by apply Forall_nil.
  - vm_compute. reflexivity.
Defined.

Lemma warp_completes_witness :
  ∃ us w, event_calls toy_events toy_warp.*2 = (us, w) ∧
    step w = Idle ∧ concat (update_logs <$> us) = toy_logs [4; 5; 6; 7].
Proof.
  do 2 eexists. split; [vm_compute; reflexivity|].
  eapply (warp_completes (fork_logs 6) (fork_keyed 6) toy_events 3 8 2 toy_warp).
  - apply toy_lossless.
  - reflexivity.
  - lia.
  - unfold u64_max. lia.
  - reflexivity.
  - simpl. lia.
  - vm_compute. reflexivity.
  - repeat (apply Forall_cons; split; [split; [apply fork_truthful|]|]); [..|by apply Forall_nil];
      intros Hserved; try done; (split; [apply fork_honest_all|simpl; lia]).
  - vm_compute. reflexivity.
  - vm_compute. reflexivity.
Defined.
