(* ===== verification/SentinelWitnesses.v ===== *)
(** * Witnesses for the sentinel

    Two sentinels at one oracle contract: an honest game from the proposal to the
    claim, and one in which the engine answers after the other has committed; and a
    disputed request of three sentinels at the whole contract, with its token. *)

From S2P Require Import Prelude.
From S2P Require Import Bytes.
From S2P Require Import Core.
From S2P Require Import Bindings.
From S2P Require Import Alloy.
From S2P Require Import Hashing.
From S2P Require Import Toy.
From S2P Require Import SentinelBindings.
From S2P Require Import Sentinel.
From S2P Require Import SentinelSafety.
From S2P Require Import OracleContract.
From S2P Require Import OracleInvariant.
From S2P Require Import OracleTreasury.
From S2P Require Import SentinelGame.
From S2P Require Import GameSafety.
Import SentinelOracle.

#[export] Instance ToySentinelLibs : SentinelLibs := {|
  sentinel_oracle_abi_encode _ := [];
  erc20_abi_encode _ := [];
  proposal_eip712_signing_hash p _ := TransactionProposal.safeTxHash p;
  hkdf_sha256 _ _ _ := 77;
|}.

#[export] Instance ToyVisit : Visit.
Proof. by refine {| visit := map_to_list |}. Defined.

(** The sentinel with address 21, at oracle 9 and consensus 8. *)
Definition toy_transition : SentinelTransition :=
  {| oracle := 9; consensus := 8; signer := {| signer_address := 21; signer_key := [] |};
     chain_id := 1; voting_window := 20 |}.

Definition toy_transaction : SafeTransaction :=
  SafeTransaction.mk 1 2 3 0 [] CALL 0 0 0 0 0 0.

(** Request 5. *)
Definition toy_proposal : Consensus.TransactionProposed.t :=
  Consensus.TransactionProposed.mk 5 0 9 1 [] toy_transaction.

(** Windows of two blocks. *)
Definition toy_config : OracleConfig :=
  {| currentFee := 10; bondMultiplier := 3; slashingMultiplier := 2; currentDaoFeeShare := 0;
     COMMIT_WINDOW := 2; REVEAL_WINDOW := 2 |}.

Abbreviation toy_game := (game toy_transition 100).

Definition own_commitment : B256 := own_hash toy_transition 5 true [].
Definition other_commitment : B256 := computeHash 22 5 true 33 [].

(** The verdict, the request, both commitments, two blocks past the commit
    deadline, both reveals, the finalization and the claim. *)
Definition honest_moves : list Move :=
  [MPropose toy_proposal; MVerdict 5 Approved; MPost toy_config 5 4;
   MCall 22 (commitCall 5 other_commitment); MCall 21 (commitCall 5 own_commitment);
   MBlock; MBlock; MBlock;
   MCall 22 (revealCall 5 true 33 []); MCall 21 (revealCall 5 true 77 []);
   MCall 21 (finalizeCall 5); MCall 21 (claimCall 5)].

(** The same, but the verdict comes after the other sentinel's commitment. *)
Definition late_moves : list Move :=
  [MPropose toy_proposal; MPost toy_config 5 4;
   MCall 22 (commitCall 5 other_commitment); MVerdict 5 Approved;
   MCall 21 (commitCall 5 own_commitment);
   MBlock; MBlock; MBlock;
   MCall 22 (revealCall 5 true 33 []); MCall 21 (revealCall 5 true 77 []);
   MCall 22 (finalizeCall 5)].


(** ** Games *)

Lemma moves_ok_computed start moves prompt :
  Forall (λ k, match moves !! k with
               | Some move => move_ok prompt (toy_game start (take k moves)) move
               | None => True
               end) (seq 0 (length moves)) →
  moves_ok toy_transition 100 prompt start moves.
Proof.
  intros Hall before move after ->. rewrite Forall_forall in Hall.
  specialize (Hall (length before)). rewrite elem_of_seq, length_app in Hall. simpl in Hall.
  specialize (Hall ltac:(lia)). rewrite list_lookup_middle in Hall by done.
  by rewrite take_app_length in Hall.
Qed.

Lemma toy_config_ok : config_ok toy_config.
Proof. split_and!; vm_compute; discriminate || reflexivity. Qed.

Lemma honest_moves_ok k prompt :
  moves_ok toy_transition 100 prompt 100 (take k honest_moves).
Proof.
  apply moves_ok_computed. apply Forall_forall. intros n _.
  rewrite lookup_take. case_decide; [|done]. rewrite take_take.
  destruct n as [|[|[|n]]]; [exact I|exact I| |do 9 (destruct n as [|n]; [exact I|]); done].
  split; [apply toy_config_ok|]. intros _ deadline.
  rewrite Nat.min_l by lia. vm_compute. discriminate.
Qed.

Lemma late_moves_ok k : moves_ok toy_transition 100 (λ _, false) 100 (take k late_moves).
Proof.
  apply moves_ok_computed. apply Forall_forall. intros n _.
  rewrite lookup_take. case_decide; [|done].
  destruct n as [|[|n]]; [exact I| |do 9 (destruct n as [|n]; [exact I|]); done].
  split; [apply toy_config_ok|done].
Qed.

Lemma reveals_accepted_witness :
  let g := toy_game 100 (take 8 honest_moves) in
  ∃ m, commitments (contract g) !! (5, 21) = Some m ∧ vote m = VPending ∧
    commitHash m = computeHash 21 5 true 77 [] ∧
    (vote m = VPending → ∃ c,
       call 100 (contract g) 21 (block g) (revealCall 5 true 77 []) =
       Ok (c, EvRevealed (Revealed.mk 5 21 true (bondAmount m) []))).
Proof.
  destruct (reveals_accepted toy_transition 100 100 (take 8 honest_moves) 5 true 77 [] (Some 104)
    (match requests (contract (toy_game 100 (take 8 honest_moves))) !! 5 with
     | Some r => r | None => opened 0 toy_config 0 0 end)
    (honest_moves_ok 8 _)) as (m & Hm & Hhash & Haccept).
  - vm_compute. repeat first [left|right].
  - vm_compute. reflexivity.
  - vm_compute. reflexivity.
  - vm_compute. reflexivity.
  - vm_compute. discriminate.
  - exists m. split; [exact Hm|]. split; [|by split].
    vm_compute in Hm. by injection Hm as <-.
Defined.

(** The claim of the honest game is accepted. *)
Lemma claims_accepted_witness :
  let g := toy_game 100 (take 11 honest_moves) in
  commitments (contract g) !! (5, 21) = Some (Build_Commitment own_commitment 30 VApproved false) ∧
  ∃ r, requests (contract g) !! 5 = Some r ∧ resolved (state (progress r)) ∧
    let slashed := slashAmountFor r (state (progress r)) VApproved in
    slashed ≤ bondTarget (terms r) ∧
    ∃ c feeReward, call 100 (contract g) 21 (block g) (claimCall 5) =
      Ok (c, EvClaimed (Claimed.mk 5 21 (bondTarget (terms r) - slashed) feeReward)).
Proof.
  intros g.
  assert (commitments (contract g) !! (5, 21) =
    Some (Build_Commitment own_commitment 30 VApproved false)) as Hm by (vm_compute; reflexivity).
  split; [exact Hm|].
  destruct (claims_accepted toy_transition 100 100 (take 11 honest_moves) 5 None
    (honest_moves_ok 11 _)) as (r & Hr & Hs & Hpaid).
  - vm_compute. repeat first [left|right].
  - exists r. split; [exact Hr|]. split; [exact Hs|]. exact (Hpaid _ Hm eq_refl).
Defined.

(** The finalization of the honest game is accepted, before the reveal deadline. *)
Lemma finalizations_accepted_witness :
  let g := toy_game 100 (take 10 honest_moves) in
  block g = 103 ∧
  ∃ c event, call 100 (contract g) 21 (block g) (finalizeCall 5) = Ok (c, event).
Proof.
  split; [vm_compute; reflexivity|].
  refine (finalizations_accepted toy_transition 100 100 (take 10 honest_moves) 5 None
    (match requests (contract (toy_game 100 (take 10 honest_moves))) !! 5 with
     | Some r => r | None => opened 0 toy_config 0 0 end)
    (λ _, true) (honest_moves_ok 10 _) eq_refl _ _ _ _).
  - vm_compute. repeat first [left|right].
  - vm_compute. reflexivity.
  - vm_compute. reflexivity.
  - vm_compute. discriminate.
Defined.

(** In the other game the bond and its reward can be claimed, and are not. *)
Lemma late_game :
  let g := toy_game 100 late_moves in
  sentinel g !! 5 = None ∧ claimCall 5 ∉ own_calls g ∧
  snd <$> (match call 100 (contract g) 21 (block g) (claimCall 5) with
           | Ok r => Some r | Err _ => None end) = Some (EvClaimed (Claimed.mk 5 21 30 5)).
Proof.
  split_and!; [reflexivity| |vm_compute; reflexivity].
  intros H. vm_compute in H. set_unfold. naive_solver.
Qed.

(** ** Runs *)

Definition toy_log (event : SentinelOracleEvents) : EventLog SentinelEvents :=
  {| log_block := 100; log_index := 0; log_address := 9; log_data := SOracle event |}.

Definition toy_request : Request :=
  {| bond_target := 30; slash_amount := 20; commit_deadline := 102; reveal_deadline := 104 |}.

(** Sentinel 22 commits before the verdict, this account and 23 after it; a
    commitment to another request and a block come between. *)
Definition told_of_5 (event : SentinelOracleEvents) : Message SentinelEvents SentinelResume :=
  MEvent (toy_log event).

Lemma late_verdict_strands_bond_witness :
  let '(state', out) := sentinel_from toy_transition
    {[5 := WaitingForEngineCheck 120 (Some toy_request)]}
    ([told_of_5 (EvCommitted (Committed.mk 5 22 30)); NewBlock 101] ++
     MResume (EngineCheckResult 5 Approved) ::
     [told_of_5 (EvCommitted (Committed.mk 5 23 30)); told_of_5 (EvCommitted (Committed.mk 6 22 30));
      told_of_5 (EvCommitted (Committed.mk 5 21 30))] ++
     NewBlock 103 ::
     [told_of_5 (EvRevealed (Revealed.mk 5 22 true 30 []));
      told_of_5 (EvRevealed (Revealed.mk 5 23 true 30 []))] ++
     [told_of_5 (EvRevealed (Revealed.mk 5 21 true 30 []));
      told_of_5 (EvOracleResult (OracleResult.mk 5 4 [] true))]) in
  state' !! 5 = None ∧ action (Claim 5) None ∉ out ∧
  ∃ approve salt reason,
    action (Commit 5 (commit_hash 21 5 approve salt reason)) (Some 102) ∈ out ∧
    action (Reveal 5 approve salt reason) (Some 104) ∈ out.
Proof.
  apply (late_verdict_strands_bond toy_transition
    {[5 := WaitingForEngineCheck 120 (Some toy_request)]} 5 120 toy_request Approved
    [22] [23; 21] [22; 23]).
  - reflexivity.
  - discriminate.
  - apply told_more; [by do 2 eexists|]. apply told_block; [vm_compute; discriminate|constructor].
  - apply told_more; [by do 2 eexists|].
    eapply (told_other _ _ _ _ 6); [reflexivity|discriminate|].
    apply told_more; [by do 2 eexists|constructor].
  - vm_compute. reflexivity.
  - apply told_more; [by do 2 eexists|]. apply told_more; [by do 2 eexists|constructor].
  - vm_compute. right. left.
  - vm_compute. intros H. repeat (apply elem_of_cons in H as [H|H]; [discriminate|]).
    by apply not_elem_of_nil in H.
  - simpl. lia.
  - vm_compute. discriminate.
  - by repeat constructor.
Defined.

(** What the sentinel is told up to its commitment. *)
Definition toy_messages : list (Message SentinelEvents SentinelResume) :=
  [MEvent {| log_block := 100; log_index := 0; log_address := 8;
             log_data := SConsensus toy_proposal |};
   MResume (EngineCheckResult 5 (Denied (RuleId.new 3 14)));
   MEvent (toy_log (EvNewRequest (NewRequest.mk 5 4 10 30 20 102 104)));
   MEvent (toy_log (EvCommitted (Committed.mk 5 21 30)))].

Lemma reveals_justified_witness :
  let reason := [x52; x2d; x33; x2e; x31; x34] in
  let '(_, out) := sentinel_run toy_transition toy_messages in
  engine_said toy_messages 5 false reason ∧ commit_landed toy_transition toy_messages 5 ∧
  ∃ deadline block,
    action (Commit 5 (commit_hash 21 5 false 77 reason)) (Some deadline) ∈ out ∧
    NewBlock 103 = (NewBlock block : Message SentinelEvents SentinelResume) ∧ deadline < block.
Proof.
  refine (reveals_justified toy_transition toy_messages (NewBlock 103) 5 false 77
    [x52; x2d; x33; x2e; x31; x34] (Some 104) _).
  vm_compute. left.
Defined.

Definition toy_votes : SentinelState :=
  {[5 := CollectingVotes true 20 104 2 1 1 0 true; 6 := WaitingForRequest true [] 90]}.

Lemma posted_bonds_claimed_witness :
  let m := MEvent (toy_log (EvOracleResult (OracleResult.mk 5 4 [] true))) in
  let '(state', commands) := sentinel_transition toy_transition toy_votes m in
  commands = [action (Claim 5) None] ∧
  ((∃ entry', state' !! 5 = Some entry' ∧ approve_and_slash_amount entry' = Some (true, 20) ∧
     action (Claim 5) None ∉ commands) ∨
   (state' !! 5 = None ∧ action (Claim 5) None ∈ commands) ∨
   (state' !! 5 = None ∧ action (Claim 5) None ∉ commands ∧
      reveal_missed toy_transition (CollectingVotes true 20 104 2 1 1 0 true) m)).
Proof.
  split; [vm_compute; reflexivity|].
  exact (posted_bonds_claimed toy_transition toy_votes
    (MEvent (toy_log (EvOracleResult (OracleResult.mk 5 4 [] true)))) 5
    (CollectingVotes true 20 104 2 1 1 0 true) (true, 20) eq_refl eq_refl).
Defined.

Lemma nothing_overdue_witness :
  (sentinel_transition toy_transition toy_votes (NewBlock 105)).1 !! 5 =
    Some (WaitingForOutcome true 20) ∧
  approve_and_slash_amount (WaitingForOutcome true 20) ≠ None.
Proof.
  assert ((sentinel_transition toy_transition toy_votes (NewBlock 105)).1 !! 5 =
    Some (WaitingForOutcome true 20)) as H by (vm_compute; reflexivity).
  split; [exact H|]. exact (nothing_overdue toy_transition toy_votes 105 5 _ H).
Defined.

Lemma commitment_binding_witness :
  (21 = 21 ∧ 5 = 5 ∧ true = true ∧ 77 = 77 ∧ ([] : Bytes) = []) ∨
  keccak_collide (commit_preimage 21 5 true 77 []) (commit_preimage 21 5 true 77 []).
Proof. apply (commitment_binding 21 21 5 5 true true 77 77 [] []); done. Defined.

Lemma rule_id_roundtrip_witness :
  rule_parse (rule_to_string (RuleId.new 3 4294967295)) = Some (RuleId.new 3 4294967295).
Proof. apply (rule_id_roundtrip (RuleId.new 3 4294967295)); vm_compute; discriminate. Defined.

(** ** The money *)

Module Treasury.
(** A token of balances, where everyone lets the oracle, which lets nobody, spend. *)
Definition toy_balance (t : gmap Address N) (a : Address) : N := default 0 (t !! a).
Definition toy_move (from to : Address) (x : N) (t : gmap Address N) : option (gmap Address N) :=
  if decide (to = 0 ∨ toy_balance t from < x) then None
  else let t := <[from := toy_balance t from - x]> t in Some (<[to := toy_balance t to + x]> t).

#[export] Instance ToyFeeToken : FeeToken := {|
  Token := gmap Address N;
  balanceOf := toy_balance;
  safeTransfer from to x t := toy_move from to x t;
  safeTransferFrom spender from to x t :=
    if decide (from = 0 ∨ from = spender) then None else toy_move from to x t;
|}.

Lemma toy_token_laws this : token_laws this.
Proof.
  split; simpl; unfold toy_move, toy_balance.
  - intros t to x Hto Hx. rewrite decide_False; [done|lia].
  - intros t to x t'. case_decide as Hd; [done|]. intros [= <-].
    destruct (decide (to = this)) as [->|Hne].
    + rewrite !lookup_insert_eq. simpl. split; [lia|done].
    + rewrite lookup_insert_eq, (lookup_insert_ne _ to this), lookup_insert_eq by done.
      split; simpl; [lia|]. intros _. by rewrite lookup_insert_ne.
  - intros t from x t'. case_decide as Hf; [done|]. case_decide as Hd; [done|]. intros [= <-].
    split; [tauto|]. by rewrite !lookup_insert_eq, lookup_insert_ne by tauto.
Qed.

Definition toy_params : ConstructorParams.t :=
  {| ConstructorParams.arbitrator := 40; ConstructorParams.governance := 41;
     ConstructorParams.protocolFundsReceiver := 42; ConstructorParams.proposer := 43;
     ConstructorParams.feeToken := 44; ConstructorParams.requestFee := 10;
     ConstructorParams.initialBondMultiplier := 3;
     ConstructorParams.initialSlashingMultiplier := 2;
     ConstructorParams.initialDaoFeeShare := 10000; ConstructorParams.commitWindow := 2;
     ConstructorParams.revealWindow := 2; ConstructorParams.governanceDelay := 0;
     ConstructorParams.arbitrationTimeout := 100 |}.

(** The calls of a trace, each by a caller in a block; one that fails changes nothing. *)
Definition oracle_run (o : SentinelOracle) (trace : list (Address * N * OracleCall))
    : SentinelOracle :=
  foldl (λ o '(caller, block, x),
    match oracle_call 9 toy_params o caller block x with Ok (o', _) => o' | Err _ => o end) o trace.

Lemma oracle_run_reachable o trace blocks last :
  reachable 9 toy_params o blocks →
  Forall (λ p, blocks ≤ p ∧ p ≤ last) (map (λ p, p.1.2) trace) →
  StronglySorted N.le (map (λ p, p.1.2) trace) → blocks ≤ last →
  reachable 9 toy_params (oracle_run o trace) last.
Proof.
  revert o blocks. induction trace as [|[[caller block] x] trace IH]; intros o blocks Ho Hin Hsort Hle.
  - by eapply reach_block.
  - apply Forall_cons in Hin as [[Hb Hl] Hin]. apply StronglySorted_inv in Hsort as [Hsort Hall].
    simpl in *. apply (IH _ block); [| |done|done].
    + destruct (oracle_call _ _ _ _ _ _) as [[o' event]|e] eqn:H; [|by eapply reach_block].
      eapply reach_call; [|done]. by eapply reach_block.
    + rewrite Forall_forall in *. intros p Hp. split; [by apply Hall|by apply Hin].
Qed.

(** Three sentinels commit to request 5: one approves, one denies, one is silent,
    and the arbitrator rules for the approval. *)
Definition toy_trace : list (Address * N * OracleCall) :=
  [(41, 100, XGovern (addSentinel 21)); (41, 100, XGovern (addSentinel 22));
   (41, 100, XGovern (addSentinel 23)); (43, 101, XPostRequest 5 50);
   (21, 101, XSentinel (commitCall 5 (computeHash 21 5 true 31 [])));
   (22, 102, XSentinel (commitCall 5 (computeHash 22 5 false 32 [])));
   (23, 103, XSentinel (commitCall 5 (computeHash 23 5 true 33 [])));
   (21, 104, XSentinel (revealCall 5 true 31 [])); (22, 105, XSentinel (revealCall 5 false 32 []));
   (50, 106, XSentinel (finalizeCall 5)); (40, 107, XResolveDispute 5 true [])].

Definition toy_start : SentinelOracle :=
  match SentinelOracle_new toy_params (list_to_map [(50, 10); (21, 30); (22, 30); (23, 30)]) with
  | Ok o => o
  | Err _ => {| book := Contract_new; bondConfig := BondConfig.mk 0 0 0 0 0;
                protocolFundsReceiverConfig := Delayed.init 0; feeConfig := Delayed.init 0;
                daoFeeShareConfig := Delayed.init 0; sentinelMap := ∅; token := ∅ |}
  end.

Definition toy_ruled : SentinelOracle := oracle_run toy_start toy_trace.

Lemma toy_ruled_reachable : reachable 9 toy_params toy_ruled 107.
Proof.
  apply (oracle_run_reachable _ _ 100); [|by vm_compute; repeat constructor; discriminate
    |by vm_compute; repeat constructor; discriminate|done].
  by apply (reach_new _ _ (list_to_map [(50, 10); (21, 30); (22, 30); (23, 30)])).
Qed.

End Treasury.
Import Treasury.

Lemma oracle_solvent_witness :
  reachable 9 toy_params toy_ruled 107 ∧
  total_owed (book toy_ruled) = 59 ∧ balanceOf (token toy_ruled) 9 = 59 ∧
  ∃ o' event, oracle_call 9 toy_params toy_ruled 21 107 (XSentinel (claimCall 5)) = Ok (o', event) ∧
    balanceOf (token o') 21 = balanceOf (token toy_ruled) 21 + 39.
Proof.
  split; [apply toy_ruled_reachable|]. split; [by vm_compute|]. split; [by vm_compute|].
  destruct (oracle_solvent 9 toy_params (toy_token_laws 9) toy_ruled 107 toy_ruled_reachable)
    as [_ Hall].
  destruct (Hall 5 (request_at (book toy_ruled) 5) ltac:(by vm_compute)) as (Hclaims & _).
  destruct (Hclaims 21 (commitment (book toy_ruled) 5 21)) as (o' & event & Hcall & Hpaid);
    [by left; vm_compute|by vm_compute..|].
  exists o', event. split; [done|]. rewrite Hpaid by done. by vm_compute.
Defined.
