(* ===== verification/ProcessWitnesses.v ===== *)
(** * Witnesses for running services

    The validator, and a service that records what it sees, in a process on a toy
    chain. *)

From S2P Require Import Prelude.
From S2P Require Import Bytes.
From S2P Require Import Database.
From S2P Require Import Core.
From S2P Require Import Bindings.
From S2P Require Import Alloy.
From S2P Require Import Group.
From S2P Require Import Hashing.
From S2P Require Import FrostLib.
From S2P Require Import State.
From S2P Require Import Secrets.
From S2P Require Import Effects.
From S2P Require Import StateMachine.
From S2P Require Import TxQueue.
From S2P Require Import Encoder.
From S2P Require Import Provider.
From S2P Require Import Blocks.
From S2P Require Import BlocksInvariant.
From S2P Require Import Events.
From S2P Require Import Watcher.
From S2P Require Import Driver.
From S2P Require Import Process.
From S2P Require Import IndexSafety.
From S2P Require Import InStep.
From S2P Require Import Machine.
From S2P Require Import RolloverInvariant.
From S2P Require Import Service.
From S2P Require Import Safety.
From S2P Require Import Toy.
From S2P Require Import Scenario.
From S2P Require Import ServiceWitnesses.
From S2P Require Import IndexWitnesses.

(** ** The validator *)

Definition toy_service : ValidatorService := {|
  service_account := 1;
  service_secrets := SecretStore_new;
  service_genesis := Transition.genesis Scenario.T;
  service_consensus := consensus_domain_new 1
    (ValidatorConfig.consensus (Transition.config Scenario.T));
  service_coordinator := 500;
  service_config := Transition.config Scenario.T;
|}.

Lemma toy_service_accepted :
  ValidatorService_new 1 1 SecretStore_new 500 (Transition.config Scenario.T) =
    Some toy_service.
Proof. unfold ValidatorService_new. by rewrite Scenario.T_ok. Qed.

(** The genesis key generation starts in block 6, its set-up effects complete, and
    the commitment is submitted. *)
#[local] Instance genesis_script : Events Event := script_events
  [EvCoordinator (Coordinator.EvKeyGen (Coordinator.KeyGen.mk Scenario.gid 0 2 2 0))].
Definition genesis_events : list (Happening World) :=
  [toy_start 7 [6]] ++ toy_updates 7 [6] 2 ++ [HEffect 0 toy_world; HEffect 0 toy_world;
   HResume toy_node (None, None) 0; HResume toy_node (None, None) 0].

Lemma validator_process_sound_witness :
  let T := (components toy_service).1.1 in
  let p := process toy_service toy_deployment genesis_events in
  length (tables (queue_storage (transactions (driver p)))) = 1%nat ∧
  Transition_ok T ∧
  (∀ s status, inner (Driver.state (driver p)) = Some (s, status) → reachable T s) ∧
  NoDup (omap row_nonce (tables (queue_storage (transactions (driver p))))) ∧
  foreign_keys (stored (process_handler p)).
Proof.
  split; [vm_compute; reflexivity|].
  exact (validator_process_sound (toy_state_roundtrip _) 1 1 500
    (Transition.config Scenario.T) toy_service toy_deployment genesis_events
    toy_service_accepted).
Defined.

Lemma submissions_justified_witness :
  let p := process toy_service toy_deployment genesis_events in
  let T := (components toy_service).1.1 in
  ∃ row, tables (queue_storage (transactions (driver p))) = [row] ∧
  ∃ action,
    (row_request row, row_expires_at row) = encode_action (components toy_service).2 action ∧
    ((∃ staker, action = SetValidatorStaker staker ∧
        ValidatorConfig.staker (service_config toy_service) = Some staker) ∨
     ∃ ms msg, happened toy_service (seen p) (ms ++ [msg]) ∧
       CAction action ∈ (apply_transition T (run T ms) msg).2 ∧
       justified ms (run T ms) (CAction action)).
Proof.
  eexists. split; [vm_compute; reflexivity|].
  apply (submissions_justified (toy_state_roundtrip _) toy_service toy_deployment genesis_events).
  vm_compute. left.
Defined.

(** ** A service that records *)

#[local] Instance FirstTopic : Events N :=
  {| topics := [7]; decode_log topics _ := topics !! 1%nat |}.

#[local] Instance record_service : Service () (list N) N N N N () () := {|
  initial_state := [];
  Driver.transition _ := record_transition;
  encode _ n := ({| tx_to := n; tx_value := 0; tx_data := []; tx_gas := 1 |}, None);
  handler _ := ();
  perform _ _ e := (e, ());
  reopen _ _ := ();
  startup _ := None;
|}.

Definition fork_start (fork head : N) : Happening () :=
  HStart (fork_net fork head 9) toy_node (None, None) false.
Definition fork_updates (fork head : N) (k : nat) : list (Happening ()) :=
  replicate k (HUpdate (fork_net fork head 9) toy_node (None, None)).

(** Blocks and logs of one fork, an effect, a call that is dropped, two uncles
    and the other fork; and a restart behind a failure of the database. *)
Definition fork_run : list (Happening ()) :=
  fork_start 1 7 :: fork_updates 1 8 6 ++
  [HUpdate (fork_net 6 9 0) toy_node (None, None); HEffect 0 ();
   HResume toy_node (None, None) 0] ++
  fork_updates 6 9 6 ++ [HUpdate (fork_net 6 9 9) toy_node (Some 0%nat, None); fork_start 6 9] ++
  fork_updates 6 9 3.


(** A restart against a node whose head, 2, is behind the snapshots: the block 3
    that it has next is not the one the machine waits for after the uncle. *)
Definition lagging_run : list (Happening ()) :=
  fork_run ++ [fork_start 6 2] ++ fork_updates 6 8 3.
Example lagging_restart_loses_step :
  life (process () toy_deployment lagging_run) = Down (ExitError (DriverState BadUpdate)).
Proof. vm_compute. reflexivity. Qed.

(** ** Commands *)

Definition busy_transition (s : list N) (m : Core.Message N N) : list N * list (Core.Command N N) :=
  (s, [CAction 6; CEffect 7; CAction 8]).
Definition numbered_transaction (n : N) : Core.Transaction * option N :=
  ({| tx_to := n; tx_value := 0; tx_data := []; tx_gas := 1 |}, Some (n + 10)).

(** One transaction of the queue is executed in a block that is safe by now,
    another is waiting; and the node does not answer. *)
Definition busy_driver : Driver (list N) N := {|
  Driver.state := {| inner := Some ([], BlockPending 6); snapshots := mkDb ∅ None |};
  tasks := [5];
  transactions := {|
    queue_storage := mkDb
      [set_executed (set_nonce (queued_row (numbered_transaction 1).1 None) 0) (Some 3);
       queued_row (numbered_transaction 2).1 None] None;
    queue_config := config_transactions (deployed_config toy_deployment);
    TxQueue.block_status := None; nonce_cache := None; fee_cache := None |};
|}.
Definition silent_node : Node := {|
  node_chain_id := 1;
  transaction_count _ := None;
  estimate_eip1559_fees := None;
  can_sign _ := true;
  send_raw_transaction _ := Err TransportFailure;
  iregex _ _ := false;
|}.

Lemma commands_dispatched_witness :
  let chain := {| status_latest := 6; status_safe := 4 |} in
  let input := InputUpdate (UBlock (New 6 0 0)) in
  ∃ d', driver_update busy_transition numbered_transaction silent_node chain input busy_driver =
      (Ok (), d') ∧
  tasks d' = [5; 7] ∧ length (table (transactions d')) = 3%nat ∧
  ∃ commands, take_input busy_transition chain input (Driver.state busy_driver) =
      (Ok commands, Driver.state d') ∧
    tasks d' = tasks busy_driver ++ spawned commands ∧
    requests (table (transactions d')) =
      requests (left_over chain input (transactions busy_driver)) ++
      encoded numbered_transaction commands.
Proof.
  eexists. split; [vm_compute; reflexivity|]. split; [reflexivity|]. split; [reflexivity|].
  eapply (commands_dispatched busy_transition numbered_transaction silent_node).
  vm_compute. reflexivity.
Defined.
