(* ===== verification/CoordinatorWitnesses.v ===== *)
(** * Witnesses for a validator at the coordinator contract

    Plays over points of the curve: a validator joins the genesis group that
    someone created; and a validator with a nonce in its store commits to the
    nonce's root in the middle of the contract's first chunk, and reveals the nonce
    for the next signature. *)

From S2P Require Import Prelude.
From S2P Require Import Bytes.
From S2P Require Import Database.
From S2P Require Import Core.
From S2P Require Import Epoch.
From S2P Require Import Bindings.
From S2P Require Import Alloy.
From S2P Require Import Merkle.
From S2P Require Import FROSTCoordinator.
From S2P Require Import CoordinatorInvariant.
From S2P Require Import Group.
From S2P Require Import FrostLib.
From S2P Require Import Frost.
From S2P Require Import FrostKeygen.
From S2P Require Import FrostSign.
From S2P Require Import State.
From S2P Require Import Secrets.
From S2P Require Import Effects.
From S2P Require Import Encoder.
From S2P Require Import Preprocessing.
From S2P Require Import Machine.
From S2P Require Import Hashing.
From S2P Require Import RolloverInvariant.
From S2P Require Import Safety.
From S2P Require Import NonceBooks.
From S2P Require Import CoordinatorGame.
From S2P Require Import KeyGen.
From S2P Require Import KeyGenGame.
From S2P Require Import Toy.
From S2P Require Import Scenario.
From S2P Require Import ServiceWitnesses.

(** ** Instances *)

(** The toy library, with the generator of the curve for every point, encryption
    keys that are never zero, and polynomials of the length they should have. *)
#[local] Instance CurveFrost : FrostLib := {|
  Rng := N;
  fill_bytes := @fill_bytes ToyFrost;
  chacha_from_rng := @chacha_from_rng ToyFrost;
  set_stream := @set_stream ToyFrost;
  Scalar := N;
  scalar_from_repr := @scalar_from_repr ToyFrost;
  scalar_to_bytes := @scalar_to_bytes ToyFrost;
  hash_to_field msgs _ := 1 + from_be_bytes (concat msgs);
  ProjectivePoint := N;
  point_identity := @point_identity ToyFrost;
  point_generator := @point_generator ToyFrost;
  point_add := @point_add ToyFrost;
  point_mul := @point_mul ToyFrost;
  affine_x _ := Point.x secp256k1_G;
  affine_y _ := Point.y secp256k1_G;
  point_from_coordinates := @point_from_coordinates ToyFrost;
  Identifier := N;
  Identifier_derive := @Identifier_derive ToyFrost;
  Round1Secret := @Round1Secret ToyFrost;
  round1_identifier := @round1_identifier ToyFrost;
  round1_commitment := @round1_commitment ToyFrost;
  Round2Secret := @Round2Secret ToyFrost;
  round2_identifier := @round2_identifier ToyFrost;
  round2_commitment := @round2_commitment ToyFrost;
  round2_secret_share := @round2_secret_share ToyFrost;
  KeyPackage := @KeyPackage ToyFrost;
  key_package_identifier := @key_package_identifier ToyFrost;
  key_package_signing_share := @key_package_signing_share ToyFrost;
  key_package_verifying_key := @key_package_verifying_key ToyFrost;
  key_package_min_signers := @key_package_min_signers ToyFrost;
  dkg_part1 id _ threshold rng :=
    let coefficients := replicate (N.to_nat threshold) (id + 1) in
    (Ok ((id, threshold, coefficients), (coefficients, (1, 1))), rng + 1);
  dkg_part2 := @dkg_part2 ToyFrost;
  dkg_part3 := @dkg_part3 ToyFrost;
  verify_proof_of_knowledge := @verify_proof_of_knowledge ToyFrost;
  sum_commitments := @sum_commitments ToyFrost;
  verifying_share_from_commitment := @verifying_share_from_commitment ToyFrost;
  verifying_key_from_commitment := @verifying_key_from_commitment ToyFrost;
  secret_share_verify := @secret_share_verify ToyFrost;
  SigningNonces := N;
  signing_nonces_new := @signing_nonces_new ToyFrost;
  signing_nonces_commitments := @signing_nonces_commitments ToyFrost;
  round2_sign := @round2_sign ToyFrost;
  compute_binding_factor_list := @compute_binding_factor_list ToyFrost;
  derive_interpolating_value := @derive_interpolating_value ToyFrost;
  compute_group_commitment := @compute_group_commitment ToyFrost;
|}.

#[local] Instance CurveSecretsJson {AL : Alloy} : SecretsJson := {|
  Json := Secrets + Nonces;
  secrets_to_string s := Some (inl s);
  secrets_from_str j := match j with inl s => Some s | inr _ => None end;
  nonces_to_string n := Some (inr n);
  nonces_from_str j := match j with inr n => Some n | inl _ => None end;
|}.

#[local] Instance CurveLibs {AL : Alloy} : CoordinatorLibs := {|
  processProof proof leaf := foldl hash_pair leaf proof;
  verifyShare _ _ _ _ _ := true;
  verifySignature _ _ _ := true;
|}.

#[local] Existing Instances CurveFrost CurveSecretsJson CurveLibs.

(** ** Joining the genesis group *)

Module KeyGenScenario.
Definition group : Group.t := group_of Scenario.genesis.
Definition gid : B256 := create_gid (Group.root group) 2 2 0.
Definition commit_action : Action :=
  match participate_as Scenario.genesis 1, (setup 3 1 2 2).1 with
  | Some (_, poap), Ok s => KeyGenAndCommit (Group.root group) 2 2 0 poap (secrets_commitment s) None
  | _, _ => SetValidatorStaker 0
  end.

Definition beginning : Play := {|
  chain := FROSTCoordinator_new;
  undelivered := [];
  validator := State_default;
  effects := Handler_new 1 SecretStore_new;
  commanded := [];
  resumed := [];
|}.
Definition world : World :=
  {| thread_rng := 3; answers := None; spawns _ := true; streamed _ := Ok None |}.

(** Somebody creates the group; the validator sets its secrets up and commits. *)
Definition moves : list Move :=
  [PCall 9 (XKeyGen (Group.root group) 2 2 0); PDeliver 11 0 500; PEffect world 0; PResume 0].

Lemma creation_starts : key_gen_start Scenario.T beginning.
Proof. split; try done. apply new_ok. Qed.

Lemma curve_dkg : dkg_ok.
Proof.
  split.
  - intros me n t rng s pkg rng' [= <- <- <-]. simpl. by rewrite length_replicate.
  - intros rng. cbn. lia.
  - intros p _. vm_compute. reflexivity.
Qed.

(** Every group of the configuration is the pair of its participants. *)
Lemma thresholds e g : group_ok Scenario.T e g → Group.threshold g = 2.
Proof.
  intros (ps & Hps & ->). rewrite group_of_threshold.
  assert (set_len (ParticipantSet.addresses ps) = 2) as ->; [|done].
  destruct e as [|n]; [rewrite Hps; by vm_compute|]. destruct Hps as [ex Hps].
  unfold epoch_participants in Hps. apply participants_set_Some in Hps as (Ha & _ & _ & Hmin).
  assert (∀ x, active_in n (Participant.mk x 0 None) = true) as Hact.
  { done. }
  assert (default_addresses (ValidatorConfig.participants (Transition.config Scenario.T))
    (EpochNumber (ValidatorConfig.consensus (Transition.config Scenario.T)) n ex) =
    list_to_set [1; 2]) as Hall.
  { simpl. unfold collect_addresses. rewrite !filter_cons, !Hact. done. }
  rewrite Ha, Hall in *. change (min_participants (set_len (list_to_set [1; 2]))) with 2 in Hmin.
  unfold set_len in *. pose proof (subseteq_size
    (list_to_set [1; 2] ∖ epoch_excluded (EpochNumber
      (ValidatorConfig.consensus (Transition.config Scenario.T)) n ex) : gset Address)
    (list_to_set [1; 2])) as Hle.
  change (size (list_to_set [1; 2] : gset Address)) with 2%nat in Hle.
  specialize (Hle ltac:(set_solver)). lia.
Qed.

Lemma commit_commanded : CAction commit_action ∈ commanded (play Scenario.T beginning moves).
Proof. apply (list_elem_of_lookup_2 _ 1). vm_compute. reflexivity. Qed.

Lemma group_collects :
  collecting (chain (play Scenario.T beginning moves)) gid 1 (Group.root group) 2.
Proof. right. split; vm_compute; reflexivity. Qed.
End KeyGenScenario.

Lemma key_gen_commits_accepted_witness :
  let c := chain (play Scenario.T KeyGenScenario.beginning KeyGenScenario.moves) in
  ∃ call c', action_call KeyGenScenario.commit_action = inl call ∧
    (∃ events, coordinate c 1 (XCall call) = Ok (c', events)) ∧
    participant_status (participant_state (participants (group_at c' KeyGenScenario.gid)) 1)
      = REGISTERED.
Proof.
  edestruct (key_gen_commits_accepted Scenario.T KeyGenScenario.beginning KeyGenScenario.moves)
    as (_ & call & c' & created & last & Hcall & Hc & Hs).
  - vm_compute. reflexivity.
  - intros e g e' g' ->%KeyGenScenario.thresholds ->%KeyGenScenario.thresholds. done.
  - apply KeyGenScenario.curve_dkg.
  - split; intros ?? [= <-]; done.
  - done.
  - apply toy_keccak_bounded.
  - apply KeyGenScenario.creation_starts.
  - apply KeyGenScenario.commit_commanded.
  - apply KeyGenScenario.group_collects.
  - exists call, c'. split; [exact Hcall|]. split; [|exact Hs]. eexists. exact Hc.
Defined.

(** ** Revealing a nonce *)

Module CoordinatorScenario.
(** A digest that only depends on the low two bytes of the first word. *)
#[local] Instance CurveAlloy : Alloy := {|
  keccak256 b := 1024 * (1 + from_be_bytes (take 2 (drop 30 b)));
  separator := @separator ToyAlloy;
  transaction_proposal_encode_type := @transaction_proposal_encode_type ToyAlloy;
  safe_tx_eip712_hash_struct := @safe_tx_eip712_hash_struct ToyAlloy;
  safe_tx_eip712_signing_hash := @safe_tx_eip712_signing_hash ToyAlloy;
  epoch_rollover_eip712_signing_hash := @epoch_rollover_eip712_signing_hash ToyAlloy;
  coordinator_abi_encode := @coordinator_abi_encode ToyAlloy;
  consensus_abi_encode := @consensus_abi_encode ToyAlloy;
  u64_pair_abi_encode := @u64_pair_abi_encode ToyAlloy;
|}.

(** ** The play *)

Definition gid : B256 := 7 * 2 ^ 64.
Definition message : B256 := 4321.
Definition key_share : KeyShare := {| as_key_package := (1, 5, 10, 2) |}.
Definition group : Group.t := Group.mk gid 5 {[1; 2]} ∅ 2 2 0.
Definition packet : Packet := EpochRollover Genesis 1 100 gid secp256k1_G.

(** A finalized group that has already requested a thousand signatures. *)
Definition contract : FROSTCoordinator :=
  put_group gid
    {| participants :=
         {| map_root := 5;
            states := {[1 := {| participant_status := CONFIRMED; complaints := 0;
                                accusations := 0 |}]};
            keys := ∅; complaint_statuses := ∅ |};
       nonces := ∅;
       state := {| status := FINALIZED; count := 2; FROSTCoordinator.threshold := 2;
                   pending := 0; sequence := 1000 |};
       key := secp256k1_G |} FROSTCoordinator_new.

Definition stored_nonce : Nonces :=
  {| nonces_signing_nonces := (8 : SigningNonces); nonces_proof := [1; 2; 3; 4; 5; 6; 7; 8; 9; 10] |}.
Definition commitment : B256 :=
  foldl hash_pair (nonces_leaf 1000 (nonces_reveal stored_nonce).1) (nonces_proof stored_nonce).

Definition beginning : Play := {|
  chain := contract;
  undelivered := [];
  validator :=
    {| rollover := Halted; active_epoch := Genesis;
       epochs := {[Genesis := {| epoch_group := group; epoch_key_share := key_share;
                                 epoch_nonces := NonceState_default |}]};
       signing := {[message := WaitingForRequest key_share gid None packet {[1; 2]} 90]};
       signature_id_to_message := ∅ |};
  effects := Handler_new 1
    (mkDb {| keygen_secrets := ∅; nonces_chunks := {[commitment := (gid, 1)]};
             nonces_table := {[(commitment, 1000) := inr stored_nonce]} |} None);
  commanded := [];
  resumed := [];
|}.

(** Its streams send what the generator makes of the key share. *)
Definition world : World := {|
  thread_rng := 3;
  answers := None;
  spawns _ := true;
  streamed _ :=
    match (generate_chunk key_share 40).1 with Ok c => Ok (Some c) | Err _ => Ok None end;
|}.

(** The account commits to the root, which is linked; another account requests a
    signature; the nonce is looked up and revealed. *)
Definition moves : list Move :=
  [PCall 1 (XCall (Coordinator.preprocessCall gid commitment));
   PDeliver 11 0 500;
   PCall 9 (XCall (Coordinator.signCall gid message));
   PDeliver 12 0 500; PEffect world 0; PResume 0].

Definition sid : B256 := N.lor gid 1001.

(** ** The play satisfies the hypotheses *)

Lemma world_generates : world_ok world.
Proof.
  intros g chunk H. unfold world in H. cbn [streamed] in H.
  destruct (generate_chunk key_share 40) as [[c|] rng'] eqn:Hgen; simpl in H; [|done].
  injection H as <-. split; [by eexists _, _, _|].
  intros [n prf] _. unfold nonces_reveal, solidity_sign_nonces, solidity_point. simpl.
  split; (rewrite decide_False; [vm_compute; reflexivity|]; change N.add with N.add; lia).
Qed.

Lemma contract_starts : contract_ok contract.
Proof.
  unfold contract. eapply put_group_ok; [apply new_ok| |].
  - split; simpl; [done|done| |done]. intros a k [r Hr]. unfold commitments_of in Hr.
    by rewrite lookup_empty in Hr.
  - split; [apply N.le_0_l|]. intros a k r Hr. unfold group_at, commitments_of in Hr. simpl in Hr.
    rewrite !lookup_empty in Hr. simpl in Hr. by rewrite lookup_empty in Hr.
Qed.

Lemma nonce_opens : opens commitment 1000 (nonces_reveal stored_nonce).1 (nonces_reveal stored_nonce).2.
Proof. split; vm_compute; reflexivity. Qed.

Lemma beginning_starts : play_start beginning.
Proof.
  split; try done.
  - apply contract_starts.
  - intros g chunk r (e & ep & He & _ & Hc). simpl in He.
    apply lookup_singleton_Some in He as [<- <-]. simpl in Hc.
    by rewrite lookup_empty in Hc.
  - intros m x Hx. simpl in Hx. by apply lookup_singleton_Some in Hx as [_ <-].
  - intros r o text n Hrow Hn. simpl in Hrow.
    apply lookup_singleton_Some in Hrow as [[= <- <-] <-]. injection Hn as <-.
    apply nonce_opens.
Qed.

Lemma nonce_revealed :
  CAction (ARevealNonceCommitments sid (nonces_reveal stored_nonce).1 (nonces_reveal stored_nonce).2 24)
    ∈ commanded (play Scenario.T beginning moves).
Proof. apply (list_elem_of_lookup_2 _ 1). vm_compute. reflexivity. Qed.
End CoordinatorScenario.

(** ** The witness *)

Import CoordinatorScenario.
#[local] Existing Instance CurveAlloy.

Lemma nonce_reveals_accepted_witness :
  let p := play Scenario.T beginning moves in
  ∃ call, coordinate (chain p) 1 (XCall call) =
    Ok (chain p, [Coordinator.EvSignRevealedNonces
      (Coordinator.SignRevealedNonces.mk sid 1 (nonces_reveal stored_nonce).1)]).
Proof.
  edestruct (nonce_reveals_accepted Scenario.T beginning moves sid (nonces_reveal stored_nonce).1
    (nonces_reveal stored_nonce).2 24) as (call & _ & Hcall).
  - split; intros ?? [= <-]; done.
  - done.
  - apply beginning_starts.
  - do 4 (constructor; [exact I|]). constructor; [apply world_generates|].
    constructor; [exact I|constructor].
  - apply nonce_revealed.
  - exists call. exact Hcall.
Defined.
