(* ===== verification/EngineWitnesses.v ===== *)
(** * Witnesses for the sentinel engine

    Transactions the checkers decide, nodes and order books that answer them, and
    a running sentinel at its engine on a toy chain. *)

From S2P Require Import Prelude.
From S2P Require Import Bytes.
From S2P Require Import Database.
From S2P Require Import Core.
From S2P Require Import Bindings.
From S2P Require Import Alloy.
From S2P Require Import StateMachine.
From S2P Require Import TxQueue.
From S2P Require Import Provider.
From S2P Require Import Events.
From S2P Require Import Driver.
From S2P Require Import Process.
From S2P Require Import SentinelBindings.
From S2P Require Import Sentinel.
From S2P Require Import SentinelSafety.
From S2P Require Import EngineBindings.
From S2P Require Import MultiSend.
From S2P Require Import TargetEffects.
From S2P Require Import Checkers.
From S2P Require Import Poisoning.
From S2P Require Import Cow.
From S2P Require Import SentinelEngine.
From S2P Require Import EngineSafety.
From S2P Require Import EngineVotes.
From S2P Require Import Toy.
From S2P Require Import Scenario.
From S2P Require Import ServiceWitnesses.
From S2P Require Import SentinelWitnesses.

(** ** The ABI *)

Definition all_functions : list SolFunction :=
  [addOwnerWithThreshold; removeOwner; swapOwner; changeThreshold; setFallbackHandler; setGuard;
   enableModule; disableModule; setModuleGuard; migrateSingleton; migrateWithFallbackHandler;
   migrateL2Singleton; migrateL2WithFallbackHandler; signMessage; execTransaction;
   performCreate; performCreate2; announceTransaction; cancelAnnouncement;
   transfer; transferFrom; approve; setApprovalForAll; safeTransferFrom_0; safeTransferFrom_1;
   erc1155_safeTransferFrom; safeBatchTransferFrom; multiSend; stake; staking_claim;
   setPreSignature; createWithContext].

Definition function_number (f : SolFunction) : N :=
  from_option (λ p, N.of_nat p.1) 0 (list_find (λ g, g = f) all_functions).

Definition toy_selector (f : SolFunction) : Bytes := [x00; x00; x00; byte_of (function_number f)].

Lemma toy_selector_inj f g : toy_selector f = toy_selector g → f = g.
Proof.
  intros E. assert (∀ f, all_functions !! N.to_nat (Byte.to_N (byte_of (function_number f))) = Some f)
    as Hinv by (by intros []).
  injection E as E. pose proof (Hinv f) as Hf. rewrite E, Hinv in Hf. by injection Hf.
Qed.

(** The [n]th word of the arguments. *)
Definition word (n : nat) (args : Bytes) : N := from_be_bytes (take 32 (drop (32 * n) args)).

Definition toy_arguments (f : SolFunction) (args : Bytes) : option (arguments f) :=
  match f return option (arguments f) with
  | setFallbackHandler | setGuard | enableModule | setModuleGuard => Some (word 0 args)
  | transfer => Some (transferCall.mk (word 0 args) (word 1 args))
  | transferFrom => Some (transferFromCall.mk (word 0 args) (word 1 args) (word 2 args))
  | approve => Some (approveCall.mk (word 0 args) (word 1 args))
  | setApprovalForAll =>
      Some (setApprovalForAllCall.mk (word 0 args) (bool_decide (word 1 args ≠ 0)))
  | safeTransferFrom_0 =>
      Some (safeTransferFrom_0Call.mk (word 0 args) (word 1 args) (word 2 args))
  | safeTransferFrom_1 =>
      Some (safeTransferFrom_1Call.mk (word 0 args) (word 1 args) (word 2 args) (drop 96 args))
  | erc1155_safeTransferFrom =>
      Some (erc1155_safeTransferFromCall.mk (word 0 args) (word 1 args) (word 2 args)
        (word 3 args) (drop 128 args))
  | safeBatchTransferFrom =>
      Some (safeBatchTransferFromCall.mk (word 0 args) (word 1 args) [word 2 args]
        [word 3 args] (drop 128 args))
  | multiSend => Some args
  | stake => Some (stakeCall.mk (word 0 args) (word 1 args))
  | staking_claim => Some (claimCall.mk (word 0 args) (word 1 args) (word 2 args) [])
  | setPreSignature =>
      Some (setPreSignatureCall.mk (drop 32 args) (bool_decide (word 0 args ≠ 0)))
  | createWithContext =>
      Some (createWithContextCall.mk
        (ConditionalOrderParams.mk (word 0 args) 0 (drop 64 args)) (word 1 args) [] false)
  | _ => Some ()
  end.

Definition toy_abi_decode (f : SolFunction) (data : Bytes) : option (arguments f) :=
  if decide (toy_selector f `prefix_of` data) then toy_arguments f (drop 4 data) else None.

#[export] Instance ToyEngineLibs : EngineLibs.
Proof.
  refine {|
    SELECTOR := toy_selector;
    abi_decode := toy_abi_decode;
    transfer_abi_encode c := toy_selector transfer ++ to_be_bytes 32 (transferCall.to c) ++
                             to_be_bytes 32 (transferCall.amount c);
    twap_abi_decode d := Some (TwapData.mk (word 0 d) (word 1 d) (word 2 d) (word 3 d) (word 4 d)
                                 (word 5 d) (word 6 d) (word 7 d) (word 8 d) (word 9 d));
    order_eip712_signing_hash o d :=
      (Order.sellToken o + 3 * Order.sellAmount o + 5 * Order.receiver o +
       7 * GpV2Domain.chain_id d) mod 2 ^ 256;
    Transfer_SIGNATURE_HASH := 1;
    Approval_SIGNATURE_HASH := 2;
    Transfer_decode_log_data topics data :=
      match topics with [_; from; to] => Some (Transfer.mk from to (from_be_bytes data)) | _ => None end;
    Approval_decode_log_data topics data :=
      match topics with [_; o; s] => Some (Approval.mk o s (from_be_bytes data)) | _ => None end;
  |}.
  - done.
  - apply toy_selector_inj.
  - intros f data args. unfold toy_abi_decode. by case_decide.
  - intros data ts. unfold toy_abi_decode. case_decide; [|done]. intros [= <-].
    rewrite length_drop. lia.
Defined.

Definition toy_call (f : SolFunction) (words : list N) : Bytes :=
  toy_selector f ++ (words ≫= to_be_bytes 32).

(** ** Transactions *)

Definition toy_safe : Address := 0x5afe.
Definition toy_token : Address := 0x70.

Definition toy_tx (to : Address) (value : U256) (data : Bytes) (operation : Bindings.Operation)
    : SafeTransaction :=
  SafeTransaction.mk 1 toy_safe to value data operation 0 0 0 0 0 0.

(** A batch in a batch: two transfers of value and an unlimited approval. *)
Definition toy_multi_send : Address := 0x218543288004CD07832472D464648173c77D7eB7.
Definition toy_inner : Bytes :=
  [{| entry_operation := CALL; entry_to := toy_token; entry_value := 0;
      entry_data := toy_call approve [0xbad; U256_MAX] |}] ≫= pack.
Definition toy_outer : Bytes :=
  [{| entry_operation := CALL; entry_to := 0; entry_value := 5; entry_data := [] |};
   {| entry_operation := DELEGATECALL; entry_to := toy_multi_send; entry_value := 0;
      entry_data := toy_selector multiSend ++ toy_inner |}] ≫= pack.
Definition toy_batch : SafeTransaction :=
  toy_tx toy_multi_send 0 (toy_selector multiSend ++ toy_outer) DELEGATECALL.

Example toy_batch_effects :
  decode_target_effects toy_batch =
    [{| recipient := toy_safe; effect_kind := ValueTransfer 5 |};
     {| recipient := 0xbad; effect_kind := Erc20Approval U256_MAX |}].
Proof. computes. Qed.

Lemma target_effects_complete_witness :
  decode_target_effects toy_batch = effects_step decode_target_effects toy_batch ∧
  decode_effects 1000 toy_batch = decode_target_effects toy_batch ∧
  has_effect {| recipient := 0xbad; effect_kind := Erc20Approval U256_MAX |} toy_batch.
Proof.
  destruct (target_effects_complete toy_batch) as (Hstep & _ & Hin).
  split_and!; [exact Hstep|vm_compute; reflexivity|].
  apply Hin. vm_compute. right. left.
Defined.

(** ** A node *)

(** The Safe paid [friend]; [twin] looks like it. *)
Definition friend : Address := 0x1234000000000000000000000000000000005678.
Definition twin : Address := 0x1234ffffffffffffffffffffffffffffffff5678.

Definition toy_log (block : N) (to amount : N) : Log :=
  {| raw_address := toy_token; raw_topics := [1; toy_safe; to]; raw_data := to_be_bytes 32 amount;
     raw_block_number := Some block; raw_block_hash := None; raw_log_index := None |}.
Definition toy_chain : list Log := [toy_log 90 friend 7; toy_log 95 twin 0].

Definition toy_order : CowOrder :=
  {| owner := toy_safe; order_receiver := Some 0; sell_token := toy_token; buy_token := 1;
     sell_amount := 50; buy_amount := 1; valid_to := 0; app_data := 0; fee_amount := 0;
     order_kind := []; partially_fillable := false; sell_token_balance := [];
     buy_token_balance := [] |}.

Definition toy_outside (order : option CowOrder) : Outside :=
  {| logs_reply _ f := Ok (filter (served f) toy_chain); order_reply _ _ _ := order |}.

Lemma toy_serves order : node_serves toy_chain (toy_outside order).
Proof. intros n f. by eexists. Qed.

(** Looks back twenty blocks, four at a time. *)
Definition toy_engine : EngineConfig :=
  {| blocklist := [0xb10c]; address_poisoning_lookback_blocks := 20;
     address_poisoning_max_block_range := Some 3%positive |}.
Definition toy_poisoning : AddressPoisoningChecker := engine_poisoning toy_engine 1.

Lemma poisoning_by_history_witness :
  (check_poisoning toy_poisoning (toy_tx toy_token 0 (toy_call transfer [twin; 9]) CALL)
     {| block := 100 |} (toy_outside None)).1 =
  poisoning_verdict toy_poisoning toy_chain (toy_tx toy_token 0 (toy_call transfer [twin; 9]) CALL)
    {| block := 100 |} ∧
  poisoning_verdict toy_poisoning toy_chain (toy_tx toy_token 0 (toy_call transfer [twin; 9]) CALL)
    {| block := 100 |} = Verdict.Insecure EngineRule.R4_3ValueTarget.
Proof.
  split; [|vm_compute; reflexivity].
  apply (poisoning_by_history toy_poisoning toy_chain _ _ _ (toy_serves None)).
  vm_compute. discriminate.
Defined.

(** A relayed cancellation that refunds the lookalike. *)
Definition toy_relayed : SafeTransaction :=
  SafeTransaction.mk 1 toy_safe toy_safe 0 [] CALL 0 100 1 toy_token twin 0.

Lemma refund_check_inert_witness :
  check_refund toy_poisoning toy_relayed {| block := 100 |} (toy_outside None) =
    (Verdict.Abstain, toy_outside None) ∧
  (check_poisoning toy_poisoning (toy_tx toy_token 0 (toy_call transfer [twin; 100]) CALL)
     {| block := 100 |} (toy_outside None)).1 = Verdict.Insecure EngineRule.R4_3ValueTarget.
Proof.
  split; [|vm_compute; reflexivity].
  apply (refund_check_inert toy_poisoning toy_relayed {| block := 100 |} (toy_outside None)).
  discriminate.
Defined.

(** ** Verdicts *)

Lemma verdicts_justified_witness :
  (security_check (engine_checkers toy_engine 1) (toy_tx toy_token 0 (toy_call transfer [friend; 9]) CALL)
     {| block := 100 |} (toy_outside None)).1 = Verdict.Secure ∧
  justified_verdict toy_engine 1 (toy_tx toy_token 0 (toy_call transfer [friend; 9]) CALL)
    {| block := 100 |} (toy_outside None)
    (security_check (engine_checkers toy_engine 1)
       (toy_tx toy_token 0 (toy_call transfer [friend; 9]) CALL)
       {| block := 100 |} (toy_outside None)).1.
Proof.
  split; [vm_compute; reflexivity|].
  apply (verdicts_justified toy_engine 1 _ {| block := 100 |} (toy_outside None)).
  vm_compute. discriminate.
Defined.

(** A batch that sets a guard that is not supported is denied under rule 4.2, which
    it does not violate; the same call on its own, under rule 4.1. *)
Definition toy_guard_batch : SafeTransaction :=
  toy_tx toy_multi_send 0
    (toy_selector multiSend ++
     pack {| entry_operation := CALL; entry_to := toy_safe; entry_value := 0;
             entry_data := toy_call setGuard [0xbad] |}) DELEGATECALL.

Example batch_misattributed :
  check_base toy_guard_batch = Verdict.Insecure EngineRule.R4_2DelegatecallIntegrity ∧
  check_base <$> sub_transactions toy_guard_batch =
    [Verdict.Insecure EngineRule.R4_1SettingsChange] ∧
  ¬ violates toy_engine 1 toy_guard_batch {| block := 100 |} (toy_outside None)
    EngineRule.R4_2DelegatecallIntegrity.
Proof.
  split; [vm_compute; reflexivity|]. split; [vm_compute; reflexivity|].
  remember EngineRule.R4_2DelegatecallIntegrity as rule eqn:Hrule.
  destruct 1 as [| Hop Hn Hdec|subs delegates call Hdec Hin Hop _| | | | | | | | | |? kind|? ? kind];
    try discriminate Hrule; try (by destruct kind).
  - vm_compute in Hdec. injection Hdec as <- _.
    apply list_elem_of_singleton in Hin as ->. discriminate Hop.
Qed.

(** An approval with the presigning of [toy_order]. *)
Definition toy_uid : Bytes := default [] (compute_order_uid 1 toy_order).
Definition toy_swap : SafeTransaction :=
  toy_tx toy_multi_send 0
    (toy_selector multiSend ++
     ([{| entry_operation := CALL; entry_to := toy_token; entry_value := 0;
          entry_data := toy_call approve [GP_V2_VAULT_RELAYER; 50] |};
       {| entry_operation := CALL; entry_to := GP_V2_SETTLEMENT; entry_value := 0;
          entry_data := toy_call setPreSignature [1] ++ toy_uid |}] ≫= pack)) DELEGATECALL.

(** The same order, with no receiver instead of the zero address. *)
Definition toy_order_null : CowOrder :=
  {| owner := toy_safe; order_receiver := None; sell_token := toy_token; buy_token := 1;
     sell_amount := 50; buy_amount := 1; valid_to := 0; app_data := 0; fee_amount := 0;
     order_kind := []; partially_fillable := false; sell_token_balance := [];
     buy_token_balance := [] |}.

Lemma order_api_untrusted_witness :
  (check_cow toy_swap {| block := 100 |} (toy_outside (Some toy_order))).1 = Verdict.Secure ∧
  ((check_cow toy_swap {| block := 100 |} (toy_outside (Some toy_order))).1 =
   (check_cow toy_swap {| block := 100 |} (toy_outside (Some toy_order_null))).1 ∨ orders_collide).
Proof.
  split; [vm_compute; reflexivity|].
  apply (order_api_untrusted (λ o d, N.mod_lt _ _ (N.pow_nonzero 2 256 ltac:(discriminate)))
    toy_swap {| block := 100 |} (toy_outside (Some toy_order)) (toy_outside (Some toy_order_null))).
  - intros n host uid order [= <-]. vm_compute. reflexivity.
  - intros n host uid order [= <-]. vm_compute. reflexivity.
  - vm_compute. discriminate.
  - vm_compute. discriminate.
Defined.

(** ** Votes *)

(** A proposal to change the guard of the Safe. *)
Definition guard_proposal : Consensus.TransactionProposed.t :=
  Consensus.TransactionProposed.mk 5 0 9 1 [] (toy_tx toy_safe 0 (toy_call setGuard [0xbad]) CALL).

(** ** A running sentinel *)

(** ** The sentinel *)

Definition toy_sentinel : SentinelService := {|
  service_oracle := 9;
  service_fee_token := 4;
  service_consensus := 8;
  service_signer := {| signer_address := 21; signer_key := [] |};
  service_chain_id := 1;
  service_voting_window := 20;
|}.

(** The proposal, the engine's denial, the request, this account's commitment,
    and the end of the commit window. *)
#[local] Instance votes_script : Events SentinelEvents := script_events
  [SConsensus guard_proposal;
   SOracle (SentinelOracle.EvNewRequest (SentinelOracle.NewRequest.mk 5 4 10 30 20 9 12));
   SOracle (SentinelOracle.EvCommitted (SentinelOracle.Committed.mk 5 21 30))].
Definition votes_run : list (Happening (option Outside)) :=
  [toy_start 6 [6; 7; 8]] ++ toy_updates 6 [6; 7; 8] 4 ++
  [HEffect 0 (Some (toy_outside None)); HResume toy_node (None, None) 0] ++
  toy_updates 10 [6; 7; 8] 7.

#[local] Existing Instance sentinel_service.
Abbreviation votes_process :=
  (process (SV := sentinel_service toy_engine 1) toy_sentinel toy_deployment votes_run).

(** The reveal is queued behind the approval of the bond and the commitment. *)
Lemma running_votes_backed_witness :
  let T := (sentinel_components toy_sentinel).1 in
  ∃ approval commit reveal,
    tables (queue_storage (transactions (driver votes_process))) = [approval; commit; reveal] ∧
    row_expires_at reveal = Some 12 ∧
    ∃ action,
      (row_request reveal, row_expires_at reveal) =
        sentinel_encode_action (sentinel_components toy_sentinel).2 action ∧
      ∀ id approve salt reason, kind action = Reveal id approve salt reason →
        ∃ u log event answer w, ULogs u ∈ seen votes_process ∧ log ∈ update_logs u ∧
          log_data log = SConsensus event ∧ proposal_id T event = id ∧
          Consensus.TransactionProposed.oracle event = oracle T ∧
          vote_verdict approve reason answer ∧
          justified_verdict toy_engine 1 (Consensus.TransactionProposed.transaction event)
            {| block := log_block log |} w answer.
Proof.
  do 3 eexists. split; [vm_compute; reflexivity|]. split; [vm_compute; reflexivity|].
  apply (running_votes_backed toy_engine 1 toy_sentinel toy_deployment votes_run).
  - apply toy_state_roundtrip.
  - vm_compute. right. right. left.
Defined.
