(* ===== verification/Witnesses.v ===== *)
(** * Witnesses

    Each theorem with hypotheses, applied at a concrete input where they hold:
    the toy libraries and the states of the two-validator run. *)

From S2P Require Import Prelude.
From S2P Require Import Bytes.
From S2P Require Import Epoch.
From S2P Require Import Bindings.
From S2P Require Import Alloy.
From S2P Require Import Merkle.
From S2P Require Import Group.
From S2P Require Import Hashing.
From S2P Require Import FrostLib.
From S2P Require Import Frost.
From S2P Require Import FrostKeygen.
From S2P Require Import FrostSign.
From S2P Require Import Core.
From S2P Require Import State.
From S2P Require Import Preprocessing.
From S2P Require Import Signing.
From S2P Require Import KeyGen.
From S2P Require Import Complaints.
From S2P Require Import Machine.
From S2P Require Import Frames.
From S2P Require Import RolloverInvariant.
From S2P Require Import Lifecycle.
From S2P Require Import KeyGenSafety.
From S2P Require Import EpochInvariant.
From S2P Require Import SessionInvariant.
From S2P Require Import IndexInvariant.
From S2P Require Import Safety.
From S2P Require Import Housekeeping.
From S2P Require Import Toy.
From S2P Require Import Scenario.

(** ** Epochs, groups, hashing *)

Lemma next_number_bounds_witness :
  250 < u64_max ∧
  (nonzero_get (next_number 250 100) - 1) * 100 ≤ 250 < nonzero_get (next_number 250 100) * 100.
Proof. split; [done|]. exact (next_number_bounds 250 100 eq_refl). Defined.

Lemma merkle_proof_verifies_witness :
  verify (root (build [5; 6; 7])) 7 (proof (build [5; 6; 7]) 2) = true ∧
  length (proof (build [5; 6; 7]) 2) = (height (build [5; 6; 7]%N) - 1)%nat.
Proof. exact (merkle_proof_verifies [5; 6; 7] 2 7 eq_refl). Defined.

Definition four_participants : list Participant.t :=
  [Participant.mk 1 0 None; Participant.mk 2 0 None; Participant.mk 3 0 None;
   Participant.mk 4 0 (Some 9%positive)].
Definition epoch_three : GroupEpoch := EpochNumber 1000 3 {[ 2 ]}.
Definition three_set : ParticipantSet :=
  default (ParticipantSet.mk ∅ ∅ 0) (participants_set four_participants epoch_three).

Lemma three_set_accepted : participants_set four_participants epoch_three = Some three_set.
Proof. computes. Qed.

Lemma group_tolerates_third_witness :
  1 < Group.threshold (group_of three_set) ∧
  Group.count (group_of three_set) < 2 * Group.threshold (group_of three_set) ∧
  Group.threshold (group_of three_set) ≤ Group.count (group_of three_set) ∧
  2 ≤ Group.count (group_of three_set).
Proof.
  apply (group_tolerates_third four_participants epoch_three three_set 1).
  - exact three_set_accepted.
  - computes.
Defined.

Lemma selections_intersect_witness : ({[ 1; 3 ]} : gset Address) ∩ {[ 3; 4 ]} ≠ ∅.
Proof.
  apply (selections_intersect four_participants epoch_three three_set).
  - exact three_set_accepted.
  - by apply (bool_decide_eq_true_1 (({[ 1; 3 ]} : gset Address) ⊆
      Group.participants (group_of three_set))); computes.
  - by apply (bool_decide_eq_true_1 (({[ 3; 4 ]} : gset Address) ⊆
      Group.participants (group_of three_set))); computes.
  - computes.
  - computes.
Defined.

Lemma group_context_injective_witness : 1000 = 1000 ∧ 4 = 4.
Proof.
  exact (group_context_injective 1000 1000 4 4 eq_refl eq_refl eq_refl eq_refl eq_refl).
Defined.

Lemma transaction_proposal_hash_binding_witness :
  let s := transaction_proposal_struct (Number 3) 77 8 9 in
  (Number 3 = Number 3 ∧ 77 = 77 ∧ 8 = 8 ∧ 9 = 9) ∨
  keccak_collide s s ∨
  keccak_collide (eip712_message (Transition.consensus Scenario.T) (keccak256 s))
    (eip712_message (Transition.consensus Scenario.T) (keccak256 s)).
Proof.
  apply (transaction_proposal_hash_binding (Transition.consensus Scenario.T)
    (Number 3) (Number 3) 77 77 8 8 9 9); try done.
  exact toy_keccak_bounded.
Defined.

(** ** FROST *)

Definition toy_package : Round1Package :=
  ([toy_point 3; toy_point 4], (toy_point 6, toy_scalar 7)).
Definition toy_commitments : SigningCommitments := (toy_point 8, toy_point 9).

Lemma marshal_roundtrip_witness :
  frost_commitment (solidity_commitment (toy_point 5) toy_package) =
    Ok (toy_point 5, toy_package) ∧
  frost_signing_commitments (solidity_sign_nonces toy_commitments) = Ok toy_commitments.
Proof.
  apply (marshal_roundtrip (toy_point 5) toy_package toy_commitments);
    [exact toy_curve_codec|done..].
Defined.

Lemma nonce_chunk_reveals_witness :
  let '(public, prf) := nonces_reveal (Scenario.nonces 1) in
  verify (chunk_commitment Scenario.chunk) (nonces_leaf 1 public) prf = true ∧
  length (chunk_nonces Scenario.chunk) = 2%nat.
Proof.
  apply (nonce_chunk_reveals 2 Scenario.key_share (toy_rng 40) Scenario.chunk (toy_rng 41) 1
    (Scenario.nonces 1)); computes.
Defined.

(** The peers' identifiers of the run are distinct. *)
Lemma scenario_identifiers : identifiers_distinct Scenario.commitments.
Proof.
  assert (dom Scenario.commitments = {[ 1; 2 ]}) as Hdom by (computes).
  intros a b Ha%elem_of_dom Hb%elem_of_dom E. rewrite Hdom in Ha, Hb.
  assert (identifier 1 ≠ identifier 2) as Hne by (vm_compute; discriminate).
  apply elem_of_union in Ha as [Ha|Ha]; apply elem_of_singleton in Ha as ->;
    apply elem_of_union in Hb as [Hb|Hb]; apply elem_of_singleton in Hb as ->;
    congruence.
Qed.

Definition scenario_state (a : Address) : SharingState :=
  default {| ss_encryption_key := toy_scalar 0;
             ss_secret_package := (0, 0, []) : @Round2Secret ToyFrost;
             ss_peer_packages := ∅;
             ss_group_commitments :=
               {| gc_commitments := ∅; gc_group_commitment := [];
                  gc_verifying_key := toy_point 0 |} |}
    (Scenario.sharing_state_of a).
Definition scenario_commitment (a : Address) : VerifiedCommitment :=
  default {| vc_encryption_public_key := toy_point 0; vc_package := toy_package |}
    (Scenario.commitments !! a).

Lemma encrypted_share_roundtrip_witness :
  ∃ revealed,
    reveal_secret_share (scenario_state 1) 2 = Ok revealed ∧
    verify_encrypted_secret_share (scenario_state 2) 1
      {| ess_shares := KeyGenSecretShare.f (Scenario.share_of 1) |} =
      verify_revealed_secret_share (ss_group_commitments (scenario_state 2)) 2 1 revealed.
Proof.
  apply (encrypted_share_roundtrip (Scenario.secrets_of 1) (scenario_state 1)
    (Scenario.share_of 1) (scenario_state 2) 1 2 (scenario_commitment 1)
    (scenario_commitment 2)).
  - exact toy_point_mul_comm.
  - exact scenario_identifiers.
  - done.
  - computes.
  - computes.
  - computes.
  - computes.
  - computes.
  - computes.
  - computes.
Defined.

Definition scenario_revealed : gmap Address RevealedNonces :=
  match signing (run Scenario.T Scenario.collecting_shares) !! Scenario.message with
  | Some (CollectSigningShares _ _ _ revealed _ _ _ _) => revealed
  | _ => ∅
  end.
Definition scenario_signature : SignatureShare :=
  match signature_share Scenario.key_share (Scenario.nonces 0) scenario_revealed
          Scenario.message with
  | Ok s => s
  | Err _ => {| sig_selection := SignSelection.mk (Point.mk 0 0) 0;
                sig_share := ShareTriple.mk (Point.mk 0 0) 0 0; sig_proof := [] |}
  end.

Lemma signature_share_proof_verifies_witness :
  ∃ me,
    is_Some (scenario_revealed !! me) ∧
    identifier me = key_package_identifier (as_key_package Scenario.key_share) ∧
    verify (SignSelection.root (sig_selection scenario_signature))
      (signer_leaf me (ShareTriple.r (sig_share scenario_signature))
         (ShareTriple.l (sig_share scenario_signature))
         (SignSelection.r (sig_selection scenario_signature)))
      (sig_proof scenario_signature) = true.
Proof.
  apply (signature_share_proof_verifies Scenario.key_share (Scenario.nonces 0)
    scenario_revealed Scenario.message). computes.
Defined.

(** ** The state machine *)

Abbreviation T := Scenario.T.

Lemma rollover_moves_forward_witness :
  rollover_progress T (rollover (run T Scenario.start))
    (rollover (apply_transition T (run T Scenario.start) (Scenario.committed 1)).1).
Proof.
  apply (rollover_moves_forward T (run T Scenario.start) (Scenario.committed 1)).
  - exact Scenario.T_ok.
  - apply run_reachable.
Defined.

(** A request in a group that no epoch has; and the validator's own, after it. *)
Lemma foreign_sign_request_drops_session_witness :
  let '(s1, commands) := handle_sign T (run T Scenario.requesting) 7
    (Coordinator.Sign.mk 9 31337 Scenario.message 1 0) in
  commands = [] ∧ signing s1 !! Scenario.message = None ∧
  (handle_sign T s1 8 (Coordinator.Sign.mk 9 Scenario.gid Scenario.message Scenario.sid 0)).2 = [] ∧
  is_Some (signing (handle_sign T (run T Scenario.requesting) 8
    (Coordinator.Sign.mk 9 Scenario.gid Scenario.message Scenario.sid 0)).1 !! Scenario.message).
Proof.
  assert (∃ k g r p sg d, signing (run T Scenario.requesting) !! Scenario.message =
    Some (WaitingForRequest k g r p sg d) ∧ g = Scenario.gid) as (k & g & r & p & sg & d & Hm & Hg).
  { do 6 eexists. split; [vm_compute; reflexivity|reflexivity]. }
  pose proof (foreign_sign_request_drops_session T (run T Scenario.requesting) 7
    (Coordinator.Sign.mk 9 31337 Scenario.message 1 0) k g r p sg d Hm
    ltac:(rewrite Hg; vm_compute; discriminate)) as H.
  destruct (handle_sign _ _ _ _) as [s1 commands]. destruct H as (Hc & _ & Hdrop).
  destruct Hdrop as [Hnone Hlater].
  { apply observe_sequence_nonce. vm_compute. reflexivity. }
  split; [exact Hc|]. split; [exact Hnone|]. split.
  - by destruct (Hlater 8 (Coordinator.Sign.mk 9 Scenario.gid Scenario.message Scenario.sid 0) eq_refl).
  - apply (bool_decide_unpack (is_Some _)). vm_compute. exact I.
Defined.

(** The complaints against validator 2 in the share round. *)
Definition complaint_against_2 (r : RolloverState) : option Complaint :=
  match r with
  | CollectingShares _ _ _ _ _ complaints _ => complaints !! 2
  | _ => None
  end.

Lemma complaints_bounded_witness :
  ∃ e g p pk sh complaints d c,
    rollover (run T Scenario.disputed_one) = CollectingShares e g p pk sh complaints d ∧
    complaint_against_2 (rollover (run T Scenario.disputed_one)) = Some c ∧
    unresponded c ≤ total c ∧ total c < Group.threshold g ∧ u16_succ (total c) = total c + 1.
Proof.
  assert (is_Some (complaint_against_2 (rollover (run T Scenario.disputed_one)))) as [c Hc].
  { exists {| total := 1; unresponded := 1 |}. computes. }
  destruct (rollover (run T Scenario.disputed_one))
    as [| | | |?|e g p pk sh complaints d|?|?] eqn:Hr; try discriminate Hc.
  exists e, g, p, pk, sh, complaints, d, c. split; [reflexivity|]. split; [exact Hc|].
  apply (complaints_bounded T (run T Scenario.disputed_one) e g p pk sh complaints d
    ConfirmObserving ∅ None 2).
  - exact Scenario.T_ok.
  - apply run_reachable.
  - left. exact Hr.
  - exact Hc.
Defined.

Lemma epochs_only_advance_witness :
  let s := run T Scenario.rollover_one in
  let s' := (apply_transition T s Scenario.staged).1 in
  EpochId.raw_value (active_epoch s) ≤ EpochId.raw_value (active_epoch s') ∧
  ∀ e gk gk', members s !! e = Some gk → members s' !! e = Some gk' → gk' = gk.
Proof.
  apply (epochs_only_advance T (run T Scenario.rollover_one) Scenario.staged).
  - exact Scenario.T_ok.
  - apply run_reachable.
Defined.

(** Both validators have shared; one confirmed. *)
Lemma key_generation_verified_witness :
  (∃ e g st k c m d, rollover (run T (take 7 Scenario.key_generation)) =
     CollectingConfirmations e g (Participating st) (Confirmed k) c m d) ∧
  key_gen_ok T (rollover (run T (take 7 Scenario.key_generation))).
Proof.
  split; [vm_compute; by repeat eexists|].
  apply (key_generation_verified T (run T (take 7 Scenario.key_generation))).
  apply run_reachable.
Defined.

Lemma tracked_groups_sound_witness :
  ∃ g k, members (run T Scenario.epoch_one_tracked) !! Number 1 = Some (g, k) ∧
    Transition.account T ∈ Group.participants g ∧
    0 < Group.threshold g ∧ Group.threshold g ≤ Group.count g.
Proof.
  assert (∃ g k, members (run T Scenario.epoch_one_tracked) !! Number 1 = Some (g, k))
    as (g & k & Hg).
  { assert (bool_decide (is_Some (members (run T Scenario.epoch_one_tracked) !! Number 1)))
      as [[g k] H]%bool_decide_unpack by (vm_compute; exact I).
    exists g, k. exact H. }
  exists g, k. split; [exact Hg|].
  apply (tracked_groups_sound T (run T Scenario.epoch_one_tracked) 1 g k 0).
  - exact Scenario.T_ok.
  - apply run_reachable.
  - exact Hg.
  - apply N.le_0_l.
Defined.

Lemma sessions_well_formed_witness :
  ∃ x, signing (run T Scenario.collecting_shares) !! Scenario.message = Some x ∧
    session_ok T (members (run T Scenario.collecting_shares))
      (rollover_limit (rollover (run T Scenario.collecting_shares))) Scenario.message x.
Proof.
  assert (∃ x, signing (run T Scenario.collecting_shares) !! Scenario.message = Some x)
    as [x Hx].
  { apply (bool_decide_unpack (is_Some
      (signing (run T Scenario.collecting_shares) !! Scenario.message))).
    vm_compute. exact I. }
  exists x. split; [exact Hx|].
  apply (sessions_well_formed T (run T Scenario.collecting_shares) Scenario.message x).
  - exact Scenario.T_ok.
  - apply run_reachable.
  - exact Hx.
Defined.

Lemma scenario_rollover_hash : rollover_hash_binding T.
Proof.
  intros a n b gid key [a' n' b' gid' key'|e o data tx] H; simpl in H.
  - unfold epoch_rollover_hash, nonzero_get in H. cbn in H. simplify_eq. eauto.
  - exfalso. unfold epoch_rollover_hash in H.
    cbn [epoch_rollover_eip712_signing_hash ToyAlloy EpochRolloverStruct.proposedEpoch] in H.
    unfold transaction_packet_hash, transaction_proposal_hash in H.
    cbn [keccak256 ToyAlloy] in H. apply (f_equal N.odd) in H.
    rewrite toy_keccak_odd, N.odd_mul in H. done.
Qed.

Lemma index_consistent_witness :
  signature_id_to_message (run T Scenario.collecting_shares) !! Scenario.sid =
    Some Scenario.message ∧
  index_ok (run T Scenario.collecting_shares).
Proof.
  split; [by vm_compute|].
  apply (index_consistent T (run T Scenario.collecting_shares)).
  - exact Scenario.T_ok.
  - exact scenario_rollover_hash.
  - apply run_reachable.
Defined.

Lemma reconciliation_keeps_secrets_witness :
  let s := run T Scenario.collecting_shares in
  let s' := (apply_new_block T s 10).1 in
  last (apply_new_block T s 10).2 =
    Some (CEffect (ReconcileGroupSecrets (retained_groups s'))) ∧
  (∀ gid, is_Some (retained_groups s' !! gid) ↔
    (∃ e ep, epochs s' !! e = Some ep ∧ Group.id (epoch_group ep) = gid) ∨
    (∃ k, rollover_secrets (rollover s') = Some (gid, k))) ∧
  (∀ m x k gid, signing s' !! m = Some x → signing_keys x = Some (k, gid) →
    is_Some (retained_groups s' !! gid)).
Proof.
  apply (reconciliation_keeps_secrets T (run T Scenario.collecting_shares) 10).
  - exact Scenario.T_ok.
  - apply run_reachable.
Defined.

Lemma nothing_past_deadline_witness :
  let s := run T Scenario.collecting_shares in
  (∀ m x, signing (apply_new_block T s 30).1 !! m = Some x → 30 < signing_deadline x) ∧
  (∀ d, round_deadline (rollover (apply_new_block T s 30).1) = Some d → 30 < d).
Proof. exact (nothing_past_deadline T (run T Scenario.collecting_shares) 30 eq_refl). Defined.

(** Every deadline of a concrete map of sessions, decided by computation. *)
Definition all_deadlines_before (s : State) (block : N) : bool :=
  bool_decide (map_Forall (λ _ x, signing_deadline x ≤ block) (signing s)).

Lemma abandoned_sessions_end_witness :
  signing (run_blocks T (run T Scenario.collecting_shares) [30; 42; 54]) = ∅.
Proof.
  apply (abandoned_sessions_end T (run T Scenario.collecting_shares) 30 42 54).
  - intros m x. assert (all_deadlines_before (run T Scenario.collecting_shares) 30 = true)
      as H%bool_decide_eq_true_1 by (computes).
    apply H.
  - computes.
  - computes.
Defined.
